(* ===== verification/_CoqProject ===== *)
-Q . S2P
Prelude.v
Frame.v
Pipe.v
Protocol.v
Reliable.v
Channel.v
Attach.v
Session.v
Connect.v
Reconnect.v
Resume.v
Batch.v
Stream.v
Plain.v
Poll.v
InFlight.v
HttpConn.v
WebSocket.v
Legs.v
Loops.v
Adopt.v
Sweeper.v
Wire.v
Server.v
System.v
Progress.v
Handlers.v
Routes.v
Dial.v
