(* ===== verification/Prelude.v ===== *)
(** * pollmux: a verification development

    pollmux carries one multiplexed byte stream (yamux) between a client and a
    server over HTTP long polls, streamed HTTP bodies or a WebSocket, and keeps
    that stream exact across the loss of a transport.

    ** The program and the files that model it

    - A session has two unbounded byte pipes, one per direction
      (src/pipe.go, BufferedPipe).  [Pipe.v]: the pipe as a record, each method
      as a function; a call that blocks takes the schedule of what other
      goroutines do to the pipe while it waits.
    - Streamed transports cut the stream into frames (src/frame.go, the codec
      part of src/websocket.go).  [Frame.v]: writers that may fail at any call
      and readers that return the bytes in any pieces.
    - A resumable session numbers the bytes of each direction, keeps what is
      not acknowledged, and replays it after a resume (src/reliable.go).
      [Reliable.v]: one end, with 64-bit offsets and slicing that panics out of
      range.  [Channel.v]: two ends and the network between them, twice: a
      network that may lose, duplicate, reorder and replay everything, and an
      ordered transport that can be lost and resumed.
    - At most one transport serves a direction of a session; a newcomer kicks
      the owner and waits for it, and a resume handshake excludes everybody
      (attachments in src/resume_server.go).  [Attach.v]: the lock sections as
      functions, the goroutines as threads of a step relation.
    - The server keeps its sessions in a store, closes them on request and
      sweeps the ones that went quiet (src/session.go, src/store.go, the
      closing functions and StartSweeper of src/handler.go).  [Session.v]: the
      heap of sessions, the store, the log of OnDisconnect calls.  [Sweeper.v]:
      the sweeper's goroutine and its stop function.
    - Client and server negotiate the transport and its limits
      (ConnectHandler and ServerConfig in src/handler.go, src/protocol.go,
      Connector.connect in src/client.go).  [Protocol.v]: constants, wire
      records, configuration; [Connect.v]: both sides of the handshake.
    - After a transport failure the client resumes the session or gives it up
      (ResumeHandler in src/resume_server.go; resume, doResume and supervise in
      src/resumable_client.go).  [Resume.v].
    - The transports move numbered bytes: batch requests (src/batch.go,
      [Batch.v]); streamed bodies and WebSockets (pollStreamResumable and
      pollSendStream in src/handler.go, the pumps of src/websocket.go, the legs
      of src/resumable_client.go, [Stream.v], where both are instances of one
      interface [FrameSink]).
    - The same transports without the byte layer (pollStream and the plain
      branches of src/handler.go and src/websocket.go, the loops of httpConn and
      wsConn).  [Plain.v]: one turn or one message of each; [Loops.v]: how a
      loop goes on after a request, connectWebSocket, streams that are rolled
      over.
    - The server's endpoints (src/handler.go, src/websocket.go).  [Poll.v]:
      PollHandler with all its branches, pollStream, the upload, DeleteHandler,
      over the store and heap of [Session.v]; PollHandler is cut into phases at
      its lock sections.  [InFlight.v]: any number of such requests, phase by
      phase, among WebSockets, resume handshakes, the sweeper and closings.
      [WebSocket.v]: WebSocketHandler with its two pumps, and wsConn.
    - The client's connections.  [HttpConn.v]: httpConn (Write and its flusher,
      Close, batch polls) and the upload probe.  [Legs.v]: resumableConn as a
      machine, its legs, runLegs and the supervisor, driven by events.
      [Adopt.v]: how a new connection becomes the Connector's active session.
    - The application's outer loop reconnects with backoff and serves accepted
      streams (src/reconnect.go, src/accept.go, src/session_guard.go).
      [Reconnect.v].

    - All of it together.  [Wire.v]: the messages of the resumable transports and
      what each means to the byte layer.  [Server.v]: the server's end of a
      session as a machine, whose events are turns of the streaming handlers,
      frames of uploads, batch requests, halves of the resume handshake, calls of
      the application and of the store.  [System.v]: that machine, the client
      machine of [Legs.v] and a network that keeps every message and may lose,
      delay, repeat and reorder them; what one event takes from the network must
      have been sent, except frames without meaning to the layer and error
      answers, which anybody may make up.  [Progress.v]: the continuation that
      completes a transfer, in which every step of the server passes the checks
      of its handler (beginPoll, attach, the resume lock).  [Handlers.v]: whole requests as runs of the server
      machine.  [Dial.v]: the client's connect against the server's handlers, up
      to the connection it assembles or the error it returns.
      [Routes.v]: URLs, routes and session ids.

    This file holds what they share: the notation scope, the hint databases
    [pollmux] and [golen], the tactics, Go slices and machine integers, the
    big-endian codec, durations, the error values and the result type.

    ** Correspondence

    Functions keep the names of the source; methods of several types that share
    a name carry a prefix ([pipe_Write], [rel_ack], [Session_Close],
    [store_Get]).  A mutex section is one atomic function, and a method that
    blocks is split at its blocking points where a theorem is about
    interleavings.  Results are [res] (a value or a [goerr]); a Go panic is
    [None].  Times are [Z] nanoseconds and every function that reads the clock
    takes it as an argument.  Integers whose width matters ([u64], [i64],
    [u32], [i32]) wrap explicitly.  The network, the application's hooks, JSON,
    map iteration order, sorting, random ids, yamux and the WebSocket library
    are parameters or explicit inputs.

    ** What the theorems show

    - System, Progress, Handlers: every run of client, network and server is a
      run of the channel of [Channel.v], from the handshake on, so the
      applications read exactly what was written, in order and once, whatever
      happens to transports and requests; nothing panics; from every state in
      which the client resumes and the server admits it, the program can deliver
      all that was written, with every request let in, counted and attached; PollHandler, WebSocketHandler and DeleteHandler, from
      their first lock section to their last, are runs of this system.
    - Dial, Routes: connect leaves exactly the session of the connection it
      returns in the store, set up for the transport the client will use, and
      what it leaves when it fails is stated case by case; every URL of the client
      matches exactly the route of its handler, which reads the session's id.
    - Channel, Reliable: exactly-once in-order delivery under an arbitrary
      network; no panic and no overflow in any run; acknowledgements of an honest
      peer are honoured; a resume replays exactly the missing bytes and
      completes the delivery; over ordered transports no gap is ever reported.
    - Stream, Batch: the loops of the transports are runs of that channel, so
      its guarantees are theirs; bodies cut anywhere deliver exactly the
      complete frames; batch polls lose nothing when responses are lost and
      make progress when they are not.
    - Pipe, Frame: the pipe refines a closable FIFO, interrupts are not lost,
      the high-water mark is exact; frames survive encoding and any cut of the
      stream, and a truncated stream is classified.
    - Attach: one owner per direction and an exclusive handshake in every
      interleaving.
    - Session: OnDisconnect runs at most once per session; the sweep evicts
      exactly the sessions its rules name and enforces the cap on detached
      ones; live and resumable sessions survive an idle close; the resume
      deadline is the instant the server acts on.
    - Sweeper: once stop has returned nothing more is evicted, and stop returns.
    - Connect, Resume, Reconnect: what the server offers the client accepts and
      both configure the same transport; connect, resume and supervision end;
      a bad resume offset is fatal; the supervisor keeps a session that makes
      progress; backoff is bounded and the loop stops only for good reasons.
    - Poll, WebSocket: the handlers answer every request, never panic, and give
      back the in-flight counts they take; a request counts exactly while it
      runs, and nothing closes its session for being idle meanwhile; a resumable
      WebSocket is never turned away; DELETE ends the session it names and no
      other, and the polls that wait on it.
    - Plain, Loops, HttpConn: without the byte layer bytes arrive in order and at
      most once, all of them while no transport fails and the frames fit, across
      any number of rollovers; every frame the server sends fits the client's limit; the
      upload probe does not touch the stream.
    - Legs: no sequence of events makes the client panic; transport failures
      that are resumed are invisible to Read and Write; a lost transport's legs
      all end before the resume begins; the client refines the supervisor of
      [Resume.v].
    - Eight theorems describe behaviour that contradicts a comment or an
      intention of the code: [Frame.frame_next_truncated],
      [Session.direct_close_is_never_reaped], [Stream.kicked_idle_stream_stays],
      [Connect.check_misses_default_session_timeout],
      [Plain.upload_frames_ignore_max_send_bytes],
      [HttpConn.failed_send_leaves_gap],
      [Adopt.early_websocket_failure_looks_superseded] and
      [Routes.root_prefix_reaches_nothing].

    ** Bounds and fuel

    Recursion is structural on the input where the code consumes one (rounds of
    a loop, attempts, pieces of a stream).  [connect] takes fuel for its
    reconnect after a failed probe: two turns are enough against a server that
    keeps the negotiation rules ([Connect.connect_terminates]).
    [doStreamPoll_loop] and [pollSendStream_loop] take fuel for the frames of a
    body: one more than the number of frames is enough
    ([Stream.stream_poll_delivers], [Stream.upload_stream_delivers]).
    [http_doStreamPoll] is the same, [serve_upload] and [body_frames] take one turn
    per byte of the body at most, [probe_filler] needs 16 turns for its chunk, and [poll_phases] five for the
    phases of PollHandler ([Poll.PollHandler_eq]).  Theorems on offsets assume fewer than 2^63 bytes per direction, within which the
    64-bit offsets do not wrap.

    ** Not modelled

    The system of [System.v] is that of resumable sessions; sessions without the
    byte layer are composed per direction in [Plain.v], [Loops.v] and
    [HttpConn.v].  [Progress.v] completes the upload by streams; the download and
    the batch transport, whose progress is shown in [Channel.v] and [Batch.v],
    are not composed with it.  ResumeHandler is two events of the system, with anything
    in between, rather than one request of [Handlers.v].  HTTP clients and their
    timeouts, headers of authentication, JSON, logging and the yamux wrappers are
    not modelled: they hold no state or decision of their own, and a timeout is a
    failure that may happen at any moment.  The DELETE that the client's Close
    sends is a request of [Handlers.v] that may or may not arrive. *)

From stdpp Require Export base list gmap strings.
From coqutil Require Export Byte.
From coqutil Require Import Word.LittleEndianList.
From Stdlib Require Export ZArith Lia.

#[global] Open Scope Z_scope.

(** ** Scope, hint databases and tactics *)

Declare Scope go_scope.
Delimit Scope go_scope with go.
#[global] Open Scope go_scope.

Create HintDb pollmux.
Create Rewrite HintDb golen.

(** Boolean tests of the source become the propositions they decide. *)
Ltac breflect :=
  repeat match goal with
  | H : negb _ = true |- _ => apply negb_true_iff in H
  | H : negb _ = false |- _ => apply negb_false_iff in H
  | H : (_ && _)%bool = true |- _ => apply andb_true_iff in H; destruct H
  | H : (_ || _)%bool = false |- _ => apply orb_false_iff in H; destruct H
  | H : (_ && _)%bool = false |- _ => apply andb_false_iff in H
  | H : (_ || _)%bool = true |- _ => apply orb_true_iff in H
  | H : Z.ltb _ _ = true |- _ => apply Z.ltb_lt in H
  | H : Z.ltb _ _ = false |- _ => apply Z.ltb_ge in H
  | H : Z.leb _ _ = true |- _ => apply Z.leb_le in H
  | H : Z.leb _ _ = false |- _ => apply Z.leb_gt in H
  | H : Z.eqb _ _ = true |- _ => apply Z.eqb_eq in H
  | H : Z.eqb _ _ = false |- _ => apply Z.eqb_neq in H
  end.

(** Case analysis on the tests and matches of the goal, innermost first, with
    the tests reflected. *)
Ltac case_if :=
  match goal with
  | |- context [if ?b then _ else _] =>
      lazymatch b with
      | context [if _ then _ else _] => fail
      | _ => destruct b eqn:?
      end
  end.

Ltac case_if_in H :=
  match type of H with
  | context [if ?b then _ else _] =>
      lazymatch b with
      | context [if _ then _ else _] => fail
      | _ => destruct b eqn:?
      end
  end.

Ltac bsplit := repeat case_if; breflect.

(** ** Go slices

    A slice of bytes is a [list byte]; [len] is Go's [int]-valued length. *)

Definition len {A} (l : list A) : Z := Z.of_nat (length l).

(** [l[n:]]: a run-time panic ([None]) when [n] is out of range. *)
Definition slice_from {A} (l : list A) (n : Z) : option (list A) :=
  if (0 <=? n) && (n <=? len l) then Some (drop (Z.to_nat n) l) else None.

(** The bytes [copy(dst, src)] moves when [dst] has length [n]. *)
Definition copied {A} (n : Z) (l : list A) : list A := take (Z.to_nat n) l.
(** What is left of the source slice after [src = src[copied:]]. *)
Definition uncopied {A} (n : Z) (l : list A) : list A := drop (Z.to_nat n) l.

Section Slices.
Context {A : Type}.
Implicit Types l k : list A.

Lemma len_nonneg l : 0 <= len l.
Proof. unfold len; lia. Qed.

Lemma len_nil : len (@nil A) = 0.
Proof. reflexivity. Qed.

Lemma len_cons x l : len (x :: l) = 1 + len l.
Proof. unfold len; cbn [length]; lia. Qed.

Lemma len_app l k : len (l ++ k) = len l + len k.
Proof. unfold len; rewrite length_app; lia. Qed.

Lemma len_zero_iff l : len l = 0 <-> l = [].
Proof. destruct l; unfold len; cbn; split; intros; (lia || congruence). Qed.

Lemma len_pos_iff l : 0 < len l <-> l <> [].
Proof. destruct l; unfold len; cbn; split; intros; (lia || congruence). Qed.

Lemma len_drop n l : 0 <= n <= len l -> len (drop (Z.to_nat n) l) = len l - n.
Proof. unfold len; rewrite length_drop; lia. Qed.

Lemma len_take n l : 0 <= n -> len (take (Z.to_nat n) l) = Z.min n (len l).
Proof. unfold len; rewrite length_take; lia. Qed.

Lemma copied_uncopied n l : copied n l ++ uncopied n l = l.
Proof. apply take_drop. Qed.

Lemma len_copied n l : 0 <= n -> len (copied n l) = Z.min n (len l).
Proof. apply len_take. Qed.

Lemma copied_all n l : len l <= n -> copied n l = l.
Proof. unfold copied, len; intros; apply take_ge; lia. Qed.

Lemma uncopied_all n l : len l <= n -> uncopied n l = [].
Proof. unfold uncopied, len; intros; apply drop_ge; lia. Qed.

Lemma copied_nonempty n l : 0 < n -> l <> [] -> copied n l <> [].
Proof.
  intros Hn Hl; apply len_pos_iff; apply len_pos_iff in Hl.
  rewrite len_copied; lia.
Qed.

Lemma slice_from_ok l n :
  0 <= n <= len l -> slice_from l n = Some (drop (Z.to_nat n) l).
Proof.
  intros [H1 H2]; unfold slice_from.
  apply Z.leb_le in H1, H2; rewrite H1, H2; reflexivity.
Qed.

Lemma slice_from_Some l n k :
  slice_from l n = Some k -> 0 <= n <= len l /\ k = drop (Z.to_nat n) l.
Proof.
  unfold slice_from; intros H; case_if_in H; [|discriminate].
  breflect; injection H as <-; auto.
Qed.

(** Consecutive windows of a list: the algebra of stream offsets. *)
Lemma drop_drop_Z a b l :
  0 <= a -> 0 <= b ->
  drop (Z.to_nat b) (drop (Z.to_nat a) l) = drop (Z.to_nat (a + b)) l.
Proof. intros; rewrite drop_drop; f_equal; lia. Qed.

Lemma take_app_window l a b :
  0 <= a -> 0 <= b ->
  take (Z.to_nat a) l ++ take (Z.to_nat b) (drop (Z.to_nat a) l)
  = take (Z.to_nat (a + b)) l.
Proof.
  intros; rewrite Z2Nat.inj_add by lia.
  apply take_take_drop.
Qed.

Lemma take_len_app l k : take (Z.to_nat (len l)) (l ++ k) = l.
Proof. unfold len; rewrite Nat2Z.id; apply take_app_length. Qed.

Lemma drop_len_app l k : drop (Z.to_nat (len l)) (l ++ k) = k.
Proof. unfold len; rewrite Nat2Z.id; apply drop_app_length. Qed.
End Slices.

#[export] Hint Rewrite @len_nil @len_cons @len_app : golen.

(** Arithmetic over lengths: normalise [len] and decide. *)
Ltac len_lia :=
  autorewrite with golen in *;
  repeat match goal with
  | |- context [len ?l] =>
      lazymatch goal with
      | _ : 0 <= len l |- _ => fail
      | _ => pose proof (len_nonneg l)
      end
  | _ : context [len ?l] |- _ =>
      lazymatch goal with
      | _ : 0 <= len l |- _ => fail
      | _ => pose proof (len_nonneg l)
      end
  end; lia.

(** ** Machine integers *)

Definition u8 (z : Z) : Z := z mod 2 ^ 8.
Definition u32 (z : Z) : Z := z mod 2 ^ 32.
Definition u64 (z : Z) : Z := z mod 2 ^ 64.
(** Two's complement [int64] (also Go's [int] on the 64-bit targets). *)
Definition i64 (z : Z) : Z := (z + 2 ^ 63) mod 2 ^ 64 - 2 ^ 63.

Definition is_u64 (z : Z) : Prop := 0 <= z < 2 ^ 64.
Definition is_i64 (z : Z) : Prop := - 2 ^ 63 <= z < 2 ^ 63.

Lemma u64_id z : is_u64 z -> u64 z = z.
Proof. intros; apply Z.mod_small; assumption. Qed.

Lemma u32_id z : 0 <= z < 2 ^ 32 -> u32 z = z.
Proof. intros; apply Z.mod_small; assumption. Qed.

Lemma u64_range z : is_u64 (u64 z).
Proof. apply Z.mod_pos_bound; lia. Qed.

Lemma i64_id z : is_i64 z -> i64 z = z.
Proof. unfold is_i64, i64; intros; rewrite Z.mod_small; lia. Qed.

Lemma i64_range z : is_i64 (i64 z).
Proof.
  unfold is_i64, i64.
  pose proof (Z.mod_pos_bound (z + 2 ^ 63) (2 ^ 64) ltac:(lia)); lia.
Qed.

(** ** Big-endian integers: [binary.BigEndian.PutUint32]/[PutUint64] and their
    inverses *)

Definition be_put (n : nat) (z : Z) : list byte := rev (le_split n z).
Definition be_get (l : list byte) : Z := le_combine (rev l).

Lemma length_be_put n z : length (be_put n z) = n.
Proof. unfold be_put; rewrite length_rev; apply length_le_split. Qed.

Lemma len_be_put n z : len (be_put n z) = Z.of_nat n.
Proof. unfold len; rewrite length_be_put; reflexivity. Qed.

Lemma be_get_put n z : be_get (be_put n z) = z mod 2 ^ (8 * Z.of_nat n).
Proof.
  unfold be_get, be_put; rewrite rev_involutive, le_combine_split.
  f_equal; f_equal; lia.
Qed.

Lemma be_put_get l : be_put (length l) (be_get l) = l.
Proof.
  unfold be_get, be_put.
  rewrite <- (length_rev l), split_le_combine; apply rev_involutive.
Qed.

Lemma be_get_range l : 0 <= be_get l < 2 ^ (8 * len l).
Proof.
  unfold be_get, len; rewrite <- (length_rev l); apply le_combine_bound.
Qed.

Lemma be_get_put_u64 z : is_u64 z -> be_get (be_put 8 z) = z.
Proof. intros H; rewrite be_get_put; apply Z.mod_small; exact H. Qed.

Lemma be_get_put_u32 z : 0 <= z < 2 ^ 32 -> be_get (be_put 4 z) = z.
Proof. intros H; rewrite be_get_put; apply Z.mod_small; exact H. Qed.

Lemma byte_of_Z_small z : 0 <= z < 256 -> byte.unsigned (byte.of_Z z) = z.
Proof.
  intros; rewrite byte.unsigned_of_Z; apply Z.mod_small; exact H.
Qed.

#[export] Instance byte_eq_dec : EqDecision byte := Byte.byte_eq_dec.

(** ** Time

    [time.Time] is the reading of the monotonic clock in nanoseconds and
    [time.Duration] an [int64] of nanoseconds. *)

Definition Millisecond : Z := 1000000.
Definition Second : Z := 1000 * Millisecond.
Definition Minute : Z := 60 * Second.

Definition maxDuration : Z := 2 ^ 63 - 1.
Definition minDuration : Z := - 2 ^ 63.

(** [t.Sub(u)] saturates at the range of a duration. *)
Definition time_sub (t u : Z) : Z := Z.max minDuration (Z.min maxDuration (t - u)).
(** [d.Milliseconds()] truncates towards zero. *)
Definition milliseconds (d : Z) : Z := Z.quot d Millisecond.

Lemma time_sub_gt t u d :
  is_i64 d -> d < maxDuration -> (d <? time_sub t u) = (d <? t - u).
Proof.
  unfold is_i64, time_sub, maxDuration, minDuration; intros.
  destruct (Z.ltb_spec d (t - u)); [apply Z.ltb_lt | apply Z.ltb_ge]; lia.
Qed.

(** ** Errors

    The sentinel errors of the package, the errors of [io] its code tells
    apart, and one constructor per other error value that travels between two
    functions.  [errors.Is] is equality up to the wrapped text, which no caller
    looks at. *)

Inductive goerr : Type :=
| EOF                       (* io.EOF *)
| ErrUnexpectedEOF          (* io.ErrUnexpectedEOF *)
| ErrClosedPipe             (* io.ErrClosedPipe *)
| ErrCtx                    (* ctx.Err(): cancelled or past its deadline *)
| ErrNet (timeout : bool)   (* a network error; [timeout] is net.Error.Timeout() *)
| ErrTooLarge               (* http.MaxBytesError *)
| errPipeInterrupted
| errReplayGap
| errBadAck
| errStillAttached
| errDetached
| errStreamEnd
| errSessionGone
| errBatchBodyTimeout
| ErrProtocolVersion
| ErrUnauthorized
| fatalPollError (status : Z)
| errBadFrame               (* a frame that does not decode, or is out of place *)
| errBadHeader              (* batchOffset: a missing, repeated or non-numeric offset *)
| errResumeRange            (* resume: the server's offset is not replayable *)
| errBadResponse            (* a response the client refuses to use *)
| errConfig.                (* a configuration or negotiation that is refused *)

#[export] Instance goerr_eq_dec : EqDecision goerr.
Proof. solve_decision. Defined.

(** A call that returns a value and an error, of which the caller uses one. *)
Inductive res (A : Type) : Type :=
| Ok (a : A)
| Fail (e : goerr).
Arguments Ok {_} _.
Arguments Fail {_} _.

Definition is_err (e : option goerr) (x : goerr) : bool := bool_decide (e = Some x).

(** ** Generic lemmas on runs of a step relation *)

Section Runs.
Context {S : Type} (step : S -> S -> Prop) (inv : S -> Prop).

Lemma rtc_invariant :
  (forall x y, inv x -> step x y -> inv y) ->
  forall x y, rtc step x y -> inv x -> inv y.
Proof. intros Hstep x y Hxy; induction Hxy; eauto. Qed.
End Runs.
