(* ===== verification/Frame.v ===== *)
(** * Frame.v: the wire format of streamed bodies and WebSocket messages

    Models src/frame.go and the message codec at the top of src/websocket.go.
    An [io.Writer] is the bytes written so far with a script of the outcomes
    of the next [Write] calls; an [io.Reader] is the list of pieces its [Read]
    calls will return, cut anywhere, and the error that follows them.  The
    theorems are about every script and every cut. *)

From S2P Require Import Prelude.

(** ** Frame types *)

Definition frameType : Type := byte.
Definition frameData : frameType := Byte.x01.
Definition frameHeartbeat : frameType := Byte.x02.
Definition frameEnd : frameType := Byte.x03.
Definition frameGone : frameType := Byte.x04.
Definition frameAck : frameType := Byte.x05.
Definition frameSeqData : frameType := Byte.x06.

Definition seqHeaderLen : Z := 8.
Definition frameHeaderLen : Z := 5.

(** ** io.Writer *)

Record writer := mk_writer {
  w_out : list byte;                       (* bytes that reached the peer *)
  w_plan : list (option (nat * goerr));    (* outcomes of the next calls; none left = success *)
}.

Definition io_write (w : writer) (data : list byte) : writer * option goerr :=
  match w_plan w with
  | Some (n, e) :: plan => (mk_writer (w_out w ++ take n data) plan, Some e)
  | None :: plan => (mk_writer (w_out w ++ data) plan, None)
  | [] => (mk_writer (w_out w ++ data) [], None)
  end.

Definition frame_header (typ : frameType) (payload : list byte) : list byte :=
  typ :: be_put 4 (u32 (len payload)).

Definition writeFrame (w : writer) (typ : frameType) (payload : list byte)
    : writer * option goerr :=
  let '(w, err) := io_write w (frame_header typ payload) in
  match err with
  | Some e => (w, Some e)
  | None => if len payload =? 0 then (w, None) else io_write w payload
  end.

Definition writeSeqFrame (w : writer) (off : Z) (payload : list byte)
    : writer * option goerr :=
  let hdr := frameSeqData :: be_put 4 (u32 (seqHeaderLen + len payload)) ++ be_put 8 off in
  let '(w, err) := io_write w hdr in
  match err with
  | Some e => (w, Some e)
  | None => if len payload =? 0 then (w, None) else io_write w payload
  end.

Definition encodeOffset (n : Z) : list byte := be_put 8 n.

Definition decodeAck (payload : list byte) : res Z :=
  if negb (len payload =? seqHeaderLen) then Fail errBadFrame
  else Ok (be_get (take 8 payload)).

Definition splitSeq (payload : list byte) : res (Z * list byte) :=
  if len payload <? seqHeaderLen then Fail errBadFrame
  else Ok (be_get (take 8 payload), drop 8 payload).

(** ** io.Reader and io.ReadFull *)

Record reader := mk_reader {
  r_pieces : list (list byte);   (* what successive Read calls can return *)
  r_end : goerr;                 (* the error after the last piece *)
}.

Definition r_bytes (r : reader) : list byte := concat (r_pieces r).

(** [io.ReadAtLeast]'s error when the stream ends early: io.EOF becomes
    io.ErrUnexpectedEOF once a byte has been read. *)
Definition short_err (got : list byte) (e : goerr) : goerr :=
  match got with
  | [] => e
  | _ :: _ => if bool_decide (e = EOF) then ErrUnexpectedEOF else e
  end.

Fixpoint readFull_loop (pieces : list (list byte)) (e : goerr) (need : nat) (got : list byte)
    : list byte * option goerr * list (list byte) :=
  match need with
  | O => (got, None, pieces)
  | S _ =>
      match pieces with
      | [] => (got, Some (short_err got e), [])
      | c :: pieces' =>
          if (need <=? length c)%nat
          then (got ++ take need c, None, drop need c :: pieces')
          else readFull_loop pieces' e (need - length c) (got ++ c)
      end
  end.

Definition readFull (r : reader) (n : nat) : list byte * option goerr * reader :=
  let '(got, err, pieces) := readFull_loop (r_pieces r) (r_end r) n [] in
  (got, err, mk_reader pieces (r_end r)).

(** The payload bound [next] applies to a frame of type [typ]. *)
Definition frame_bound (maxPayload : Z) (typ : frameType) : Z :=
  if bool_decide (typ = frameSeqData) then i64 (maxPayload + seqHeaderLen)
  else if bool_decide (typ = frameAck) then seqHeaderLen
  else maxPayload.

(** [frameReader.next], with the reader's [maxPayload]. *)
Definition frame_next (maxPayload : Z) (r : reader) : res (frameType * list byte) * reader :=
  let '(hdr, err, r) := readFull r 5 in
  match err, hdr with
  | Some e, _ => (Fail e, r)
  | None, typ :: lenb =>
      let length := be_get lenb in
      if length =? 0 then (Ok (typ, []), r)
      else if frame_bound maxPayload typ <? length then (Fail errBadFrame, r)
      else
        let '(payload, err, r) := readFull r (Z.to_nat length) in
        match err with
        | Some e => (Fail e, r)
        | None => (Ok (typ, payload), r)
        end
  | None, [] => (Fail ErrUnexpectedEOF, r)  (* a full header is never empty *)
  end.

(** ** WebSocket messages *)

Definition wsEncode (typ : frameType) (payload : list byte) : list byte := typ :: payload.

Definition wsEncodeSeq (off : Z) (payload : list byte) : list byte :=
  frameSeqData :: be_put 8 off ++ payload.

Definition wsDecode (msg : list byte) : res (frameType * list byte) :=
  match msg with
  | [] => Fail errBadFrame
  | t :: payload => Ok (t, payload)
  end.

(** ** What a frame looks like on the wire *)

Definition encode_frame (typ : frameType) (payload : list byte) : list byte :=
  frame_header typ payload ++ payload.

Definition encode_seq (off : Z) (payload : list byte) : list byte :=
  encode_frame frameSeqData (be_put 8 off ++ payload).

(** Frames a conforming peer may send to a reader with bound [maxPayload]. *)
Definition frame_ok (maxPayload : Z) (f : frameType * list byte) : Prop :=
  len f.2 < 2 ^ 32 /\ len f.2 <= frame_bound maxPayload f.1.

Definition encode_frames (fs : list (frameType * list byte)) : list byte :=
  concat (map (fun f => encode_frame f.1 f.2) fs).

(** [k] successive calls of [next], stopping at the first error. *)
Fixpoint frame_read (maxPayload : Z) (k : nat) (r : reader)
    : list (frameType * list byte) * option goerr * reader :=
  match k with
  | O => ([], None, r)
  | S k =>
      match frame_next maxPayload r with
      | (Fail e, r) => ([], Some e, r)
      | (Ok f, r) =>
          let '(fs, err, r) := frame_read maxPayload k r in (f :: fs, err, r)
      end
  end.

Lemma frame_read_S maxPayload k r :
  frame_read maxPayload (S k) r =
    match frame_next maxPayload r with
    | (Fail e, r) => ([], Some e, r)
    | (Ok f, r) => let '(fs, err, r) := frame_read maxPayload k r in (f :: fs, err, r)
    end.
Proof. reflexivity. Qed.

(** A writer none of whose remaining calls fails. *)
Definition w_healthy (w : writer) : Prop := Forall (fun o => o = None) (w_plan w).

(** *** Writing *)

Lemma io_write_healthy w data :
  w_healthy w ->
  exists w', io_write w data = (w', None) /\ w_out w' = w_out w ++ data /\ w_healthy w'.
Proof.
  intros Hw; unfold io_write, w_healthy in *.
  destruct (w_plan w) as [|o plan]; [eauto|].
  inversion Hw; subst; eauto.
Qed.

Lemma write_two_healthy w a b (skip : bool) :
  w_healthy w -> (skip = true -> b = []) ->
  exists w', (let '(w1, err) := io_write w a in
              match err with
              | Some e => (w1, Some e)
              | None => if skip then (w1, None) else io_write w1 b
              end) = (w', None)
             /\ w_out w' = w_out w ++ a ++ b /\ w_healthy w'.
Proof.
  intros Hw Hskip.
  destruct (io_write_healthy w a Hw) as (w1 & -> & Ho1 & Hw1).
  destruct skip.
  - rewrite (Hskip eq_refl), app_nil_r; eauto.
  - destruct (io_write_healthy w1 b Hw1) as (w2 & -> & Ho2 & Hw2).
    exists w2; rewrite Ho2, Ho1, <- app_assoc; auto.
Qed.

Lemma writeFrame_healthy w typ payload :
  w_healthy w ->
  exists w', writeFrame w typ payload = (w', None)
             /\ w_out w' = w_out w ++ encode_frame typ payload /\ w_healthy w'.
Proof.
  intros; apply write_two_healthy; [assumption|].
  intros H'; apply Z.eqb_eq, len_zero_iff in H'; exact H'.
Qed.

Lemma writeSeqFrame_healthy w off payload :
  w_healthy w ->
  exists w', writeSeqFrame w off payload = (w', None)
             /\ w_out w' = w_out w ++ encode_seq off payload /\ w_healthy w'.
Proof.
  intros Hw.
  destruct (write_two_healthy w
     (frameSeqData :: be_put 4 (u32 (seqHeaderLen + len payload)) ++ be_put 8 off)
     payload (len payload =? 0) Hw) as (w' & E & Ho & Hw').
  { intros H'; apply Z.eqb_eq, len_zero_iff in H'; exact H'. }
  exists w'; split; [exact E|]; split; [|exact Hw'].
  rewrite Ho; unfold encode_seq, encode_frame, frame_header.
  rewrite len_app, len_be_put; cbn [app]; rewrite <- !app_assoc; reflexivity.
Qed.

(** *** Reading: the cut of the stream into pieces does not matter *)

Lemma readFull_loop_spec pieces e need got :
  readFull_loop pieces e need got =
    if (need <=? length (concat pieces))%nat
    then (got ++ take need (concat pieces), None,
          (readFull_loop pieces e need got).2)
    else (got ++ concat pieces, Some (short_err (got ++ concat pieces) e), []).
Proof.
  revert need got; induction pieces as [|c pieces IH]; intros need got.
  - destruct need; cbn; rewrite ?app_nil_r; reflexivity.
  - destruct need as [|n]; [cbn; rewrite app_nil_r; reflexivity|].
    cbn [readFull_loop]; remember (S n) as need.
    cbn [concat]; rewrite length_app.
    destruct (Nat.leb_spec need (length c)).
    + rewrite (proj2 (Nat.leb_le _ _)) by lia.
      rewrite take_app_le by lia; reflexivity.
    + rewrite IH.
      destruct (Nat.leb_spec (need - length c) (length (concat pieces))).
      * rewrite (proj2 (Nat.leb_le need _)) by lia.
        rewrite (take_app_ge c) by lia.
        rewrite app_assoc; reflexivity.
      * rewrite (proj2 (Nat.leb_gt need _)) by lia.
        rewrite <- app_assoc; reflexivity.
Qed.

Lemma readFull_loop_rest pieces e need got :
  (need <= length (concat pieces))%nat ->
  concat (readFull_loop pieces e need got).2 = drop need (concat pieces).
Proof.
  revert need got; induction pieces as [|c pieces IH]; intros need got Hn.
  - cbn in Hn; assert (need = 0)%nat as -> by lia; reflexivity.
  - destruct need as [|n]; [reflexivity|].
    cbn [readFull_loop]; remember (S n) as need.
    cbn [concat] in *; rewrite length_app in Hn.
    destruct (Nat.leb_spec need (length c)).
    + cbn; rewrite drop_app_le by lia; reflexivity.
    + rewrite IH, drop_app_ge by lia; reflexivity.
Qed.

(** [io.ReadFull] in terms of the bytes of the stream alone. *)
Lemma readFull_enough r n a b :
  r_bytes r = a ++ b -> length a = n ->
  exists r', readFull r n = (a, None, r') /\ r_bytes r' = b /\ r_end r' = r_end r.
Proof.
  unfold readFull, r_bytes; intros Hr Hn.
  assert (Hlen : (n <= length (concat (r_pieces r)))%nat)
    by (rewrite Hr, length_app; lia).
  pose proof (readFull_loop_rest (r_pieces r) (r_end r) n [] Hlen) as Hrest.
  rewrite readFull_loop_spec in *.
  rewrite (proj2 (Nat.leb_le _ _) Hlen) in *; cbn [snd app] in *.
  exists (mk_reader (readFull_loop (r_pieces r) (r_end r) n []).2 (r_end r)).
  split; [|split; [|reflexivity]].
  - rewrite Hr, take_app_le, firstn_all2 by lia; reflexivity.
  - cbn; rewrite Hrest, Hr, drop_app_ge, <- Hn, Nat.sub_diag by lia; reflexivity.
Qed.

Lemma readFull_short r n :
  (length (r_bytes r) < n)%nat ->
  readFull r n = (r_bytes r, Some (short_err (r_bytes r) (r_end r)), mk_reader [] (r_end r)).
Proof.
  unfold readFull, r_bytes; intros Hn; rewrite readFull_loop_spec.
  rewrite (proj2 (Nat.leb_gt _ _) Hn); reflexivity.
Qed.

(** Two readers that will deliver the same bytes and the same final error. *)
Definition reader_eq (r1 r2 : reader) : Prop :=
  r_bytes r1 = r_bytes r2 /\ r_end r1 = r_end r2.

#[export] Instance reader_eq_equiv : Equivalence reader_eq.
Proof.
  split; unfold reader_eq; [firstorder | firstorder |].
  intros r1 r2 r3 [] []; split; congruence.
Qed.

Lemma readFull_cut r1 r2 n :
  reader_eq r1 r2 ->
  (readFull r1 n).1 = (readFull r2 n).1 /\ reader_eq (readFull r1 n).2 (readFull r2 n).2.
Proof.
  intros [Hb He]; destruct (Nat.le_gt_cases n (length (r_bytes r1))) as [Hn|Hn].
  - set (a := take n (r_bytes r1)); set (b := drop n (r_bytes r1)).
    assert (Hab : r_bytes r1 = a ++ b) by (symmetry; apply take_drop).
    assert (Ha : length a = n) by (apply firstn_length_le; exact Hn).
    destruct (readFull_enough r1 n a b Hab Ha) as (q1 & -> & H1 & H2).
    destruct (readFull_enough r2 n a b) as (q2 & -> & H3 & H4); [congruence|exact Ha|].
    repeat split; cbn; congruence.
  - rewrite (readFull_short r1 n Hn), (readFull_short r2 n) by congruence.
    rewrite Hb, He; repeat split; cbn; rewrite ?He; reflexivity.
Qed.

Lemma frame_next_cut maxPayload r1 r2 :
  reader_eq r1 r2 ->
  (frame_next maxPayload r1).1 = (frame_next maxPayload r2).1
  /\ reader_eq (frame_next maxPayload r1).2 (frame_next maxPayload r2).2.
Proof.
  intros Hr; unfold frame_next.
  pose proof (readFull_cut r1 r2 5 Hr) as [Hf Hq].
  destruct (readFull r1 5) as [[h1 e1] q1], (readFull r2 5) as [[h2 e2] q2].
  cbn in Hf, Hq; injection Hf as <- <-.
  destruct e1; [split; auto|]; destruct h1 as [|typ lenb]; [split; auto|].
  case_if; [split; auto|]; case_if; [split; auto|].
  pose proof (readFull_cut q1 q2 (Z.to_nat (be_get lenb)) Hq) as [Hf Hq'].
  destruct (readFull q1 _) as [[p1 e1] s1], (readFull q2 _) as [[p2 e2] s2].
  cbn in Hf, Hq'; injection Hf as <- <-; destruct e1; auto.
Qed.

#[export] Instance frame_read_proper maxPayload k :
  Proper (reader_eq ==> eq) (fun r => (frame_read maxPayload k r).1).
Proof.
  induction k as [|k IH]; intros r1 r2 Hr; [reflexivity|]; cbn [frame_read].
  pose proof (frame_next_cut maxPayload r1 r2 Hr) as [Hf Hq].
  destruct (frame_next maxPayload r1) as [[f1|e1] q1],
           (frame_next maxPayload r2) as [[f2|e2] q2];
    cbn in Hf, Hq; try discriminate; injection Hf as <-; [|reflexivity].
  pose proof (IH q1 q2 Hq) as Hk; cbn in Hk.
  destruct (frame_read maxPayload k q1) as [[fs1 e1] s1],
           (frame_read maxPayload k q2) as [[fs2 e2] s2]; cbn in *; congruence.
Qed.

(** *** Round trips *)

Lemma frame_next_encoded maxPayload r typ payload rest :
  r_bytes r = encode_frame typ payload ++ rest ->
  frame_ok maxPayload (typ, payload) ->
  exists r', frame_next maxPayload r = (Ok (typ, payload), r')
             /\ r_bytes r' = rest /\ r_end r' = r_end r.
Proof.
  intros Hr [H32 Hb]; cbn in H32, Hb.
  unfold encode_frame in Hr; rewrite <- app_assoc in Hr.
  destruct (readFull_enough r 5 _ _ Hr) as (r1 & E1 & Hb1 & He1).
  { unfold frame_header; cbn [length]; rewrite length_be_put; reflexivity. }
  unfold frame_next; rewrite E1; unfold frame_header.
  rewrite u32_id, be_get_put_u32 by len_lia.
  destruct (Z.eqb_spec (len payload) 0) as [H0|H0].
  - apply len_zero_iff in H0; subst payload; eauto.
  - rewrite (proj2 (Z.ltb_ge _ _)) by lia.
    destruct (readFull_enough r1 (Z.to_nat (len payload)) payload rest Hb1)
      as (r2 & E2 & Hb2 & He2); [unfold len; lia|].
    rewrite E2; exists r2; repeat split; congruence.
Qed.

Lemma frame_read_encoded maxPayload fs :
  Forall (frame_ok maxPayload) fs ->
  forall r rest, r_bytes r = encode_frames fs ++ rest ->
  exists r', frame_read maxPayload (length fs) r = (fs, None, r')
             /\ r_bytes r' = rest /\ r_end r' = r_end r.
Proof.
  induction 1 as [|[typ payload] fs Hf _ IH]; intros r rest Hr.
  - exists r; auto.
  - cbn [encode_frames map concat fst snd] in Hr; rewrite <- app_assoc in Hr.
    destruct (frame_next_encoded _ _ _ _ _ Hr Hf) as (r1 & E1 & Hb1 & He1).
    destruct (IH r1 rest Hb1) as (r2 & E2 & Hb2 & He2).
    cbn [length frame_read]; rewrite E1, E2.
    exists r2; repeat split; congruence.
Qed.

Lemma frame_next_at_end maxPayload r :
  r_bytes r = [] -> (frame_next maxPayload r).1 = Fail (r_end r).
Proof.
  intros Hr; unfold frame_next; rewrite readFull_short; rewrite Hr; cbn; [reflexivity|lia].
Qed.

(** Writing a list of frames, stopping at the first error. *)
Fixpoint write_frames (w : writer) (fs : list (frameType * list byte)) : writer * option goerr :=
  match fs with
  | [] => (w, None)
  | (typ, payload) :: fs =>
      match writeFrame w typ payload with
      | (w, Some e) => (w, Some e)
      | (w, None) => write_frames w fs
      end
  end.

Lemma write_frames_healthy fs :
  forall w, w_healthy w ->
  exists w', write_frames w fs = (w', None)
             /\ w_out w' = w_out w ++ encode_frames fs /\ w_healthy w'.
Proof.
  induction fs as [|[typ payload] fs IH]; intros w Hw; cbn [write_frames].
  - exists w; rewrite app_nil_r; auto.
  - destruct (writeFrame_healthy w typ payload Hw) as (w1 & -> & Ho1 & Hw1).
    destruct (IH w1 Hw1) as (w2 & E & Ho2 & Hw2); exists w2; split; [exact E|].
    split; [|exact Hw2].
    rewrite Ho2, Ho1; cbn [encode_frames map concat fst snd]; rewrite app_assoc; reflexivity.
Qed.

Lemma splitSeq_encoded off data :
  is_u64 off -> splitSeq (be_put 8 off ++ data) = Ok (off, data).
Proof.
  intros Hoff; unfold splitSeq, seqHeaderLen.
  rewrite (proj2 (Z.ltb_ge _ _)) by (rewrite len_app, len_be_put; len_lia).
  rewrite take_app_length', drop_app_length' by (rewrite length_be_put; reflexivity).
  rewrite be_get_put_u64 by exact Hoff; reflexivity.
Qed.

Lemma decodeAck_encoded n : is_u64 n -> decodeAck (encodeOffset n) = Ok n.
Proof.
  intros Hn; unfold decodeAck, encodeOffset; rewrite len_be_put; cbn [negb Z.eqb].
  rewrite firstn_all2 by (rewrite length_be_put; lia).
  rewrite be_get_put_u64 by exact Hn; reflexivity.
Qed.

(** A reader that holds a strict prefix of one encoded frame. *)
Lemma frame_next_prefix maxPayload typ payload p q r :
  frame_ok maxPayload (typ, payload) ->
  encode_frame typ payload = p ++ q -> q <> [] ->
  r_bytes r = p ->
  (frame_next maxPayload r).1 =
    Fail (if decide (length p = 0 \/ length p = 5)%nat then r_end r
          else short_err p (r_end r)).
Proof.
  intros [H32 Hb] He Hq Hr; cbn in H32, Hb; unfold frame_next.
  assert (Hh : length (frame_header typ payload) = 5%nat)
    by (unfold frame_header; cbn [length]; rewrite length_be_put; reflexivity).
  destruct (decide (length p < 5)%nat) as [Hp|Hp].
  - rewrite readFull_short by (rewrite Hr; lia); rewrite Hr; cbn.
    destruct p; [reflexivity|].
    rewrite decide_False by (cbn in *; lia); reflexivity.
  - set (p' := drop 5 p).
    assert (Hsplit : p = frame_header typ payload ++ p').
    { unfold p', encode_frame in *; rewrite <- (take_drop 5 p) at 1; f_equal.
      rewrite <- (take_app_le p q 5), <- He by lia.
      rewrite take_app_length' by lia; reflexivity. }
    rewrite Hsplit in Hr, He; unfold encode_frame in He; rewrite <- app_assoc in He.
    apply app_inv_head in He.
    destruct (readFull_enough r 5 _ _ Hr Hh) as (r1 & E1 & Hb1 & He1).
    rewrite E1; unfold frame_header.
    assert (Hp' : (length p' < length payload)%nat)
      by (rewrite He, length_app; destruct q; [done|cbn; lia]).
    rewrite u32_id, be_get_put_u32 by len_lia.
    rewrite (proj2 (Z.eqb_neq _ _)) by (unfold len; lia).
    rewrite (proj2 (Z.ltb_ge _ _)) by lia.
    rewrite readFull_short by (rewrite Hb1; unfold len; lia).
    rewrite Hb1, He1; cbn.
    rewrite Hsplit, length_app, Hh; destruct p' as [|b p']; cbn [length short_err].
    + rewrite decide_True by lia; reflexivity.
    + rewrite decide_False by lia; unfold frame_header; reflexivity.
Qed.

(** ** Properties *)

(** C35: what writeFrame writes, frameReader.next reads back: for every list of
    frames within the reader's bound, a healthy writer and any cut of the
    written bytes into Read results, the reader returns exactly those frames,
    and one more call reports the end of the stream. *)
Theorem frames_roundtrip maxPayload fs w r :
  Forall (frame_ok maxPayload) fs ->
  w_healthy w -> w_out w = [] ->
  r_bytes r = w_out (write_frames w fs).1 ->
  (write_frames w fs).2 = None
  /\ (frame_read maxPayload (length fs) r).1 = (fs, None)
  /\ (frame_read maxPayload (S (length fs)) r).1 = (fs, Some (r_end r)).
Proof.
  intros Hfs Hw H0 Hr.
  destruct (write_frames_healthy fs w Hw) as (w' & E & Ho & _).
  rewrite E in *; cbn [fst snd] in *; rewrite H0 in Ho; rewrite Ho in Hr.
  clear E Ho Hw H0 w w'.
  split; [reflexivity|].
  destruct (frame_read_encoded maxPayload fs Hfs r []) as (r' & E & _);
    [rewrite app_nil_r; exact Hr|].
  rewrite E; split; [reflexivity|clear E r'].
  revert r Hr; induction Hfs as [|[typ payload] fs Hf Hfs IH]; intros r Hr.
  - pose proof (frame_next_at_end maxPayload r Hr) as E.
    cbn [frame_read length]; destruct (frame_next maxPayload r) as [[f|e] q];
      cbn in *; congruence.
  - destruct (frame_next_encoded maxPayload r typ payload _ Hr Hf) as (r1 & E1 & Hb1 & He1).
    specialize (IH r1 Hb1); cbn [length]; rewrite frame_read_S, E1.
    destruct (frame_read maxPayload (S (length fs)) r1) as [[fs' e'] q].
    cbn [fst] in *; congruence.
Qed.

(** A frameSeqData frame carries its absolute offset and its data: what
    writeSeqFrame writes decodes, through next and splitSeq, to the same
    offset and bytes. *)
Theorem seq_frame_roundtrip maxPayload w off data r rest :
  w_healthy w -> is_u64 off ->
  0 <= maxPayload -> seqHeaderLen + maxPayload < 2 ^ 32 -> len data <= maxPayload ->
  r_bytes r = w_out (writeSeqFrame (mk_writer [] (w_plan w)) off data).1 ++ rest ->
  exists payload r', frame_next maxPayload r = (Ok (frameSeqData, payload), r')
    /\ splitSeq payload = Ok (off, data) /\ r_bytes r' = rest.
Proof.
  intros Hw Hoff Hm0 Hm Hd Hr.
  destruct (writeSeqFrame_healthy (mk_writer [] (w_plan w)) off data Hw)
    as (w' & E & Ho & _).
  rewrite E in Hr; cbn in Hr; rewrite Ho in Hr; cbn in Hr.
  unfold seqHeaderLen in *.
  destruct (frame_next_encoded maxPayload r _ _ _ Hr) as (r' & E' & Hb & _).
  { split; cbn [fst snd]; rewrite len_app, len_be_put; [lia|].
    unfold frame_bound; rewrite bool_decide_true by reflexivity.
    rewrite i64_id by (unfold is_i64, seqHeaderLen; lia); unfold seqHeaderLen; lia. }
  exists (be_put 8 off ++ data), r'; split; [exact E'|].
  split; [apply splitSeq_encoded; exact Hoff|exact Hb].
Qed.

(** C36: decoding does not depend on how the transport cut the byte stream:
    two readers that deliver the same bytes and end the same way yield the
    same frames and the same error, however many calls are made. *)
Theorem frame_read_cut_independent maxPayload k r1 r2 :
  r_bytes r1 = r_bytes r2 -> r_end r1 = r_end r2 ->
  (frame_read maxPayload k r1).1 = (frame_read maxPayload k r2).1.
Proof. intros; apply frame_read_proper; split; assumption. Qed.

(** Whatever a peer sends, next never returns (nor allocates) a payload
    longer than its bound for the frame's type. *)
Theorem frame_next_bounded maxPayload r typ payload :
  0 <= maxPayload < 2 ^ 62 ->
  (frame_next maxPayload r).1 = Ok (typ, payload) ->
  len payload <= (if bool_decide (typ = frameSeqData) then maxPayload + seqHeaderLen
                  else if bool_decide (typ = frameAck) then seqHeaderLen
                  else maxPayload).
Proof.
  intros Hm; unfold frame_next.
  destruct (readFull r 5) as [[hdr [e|]] r1] eqn:E1; [discriminate|].
  destruct hdr as [|t lenb]; [discriminate|].
  case_if; breflect.
  { intros [= <- <-]; change (len (@nil byte)) with 0; unfold seqHeaderLen; repeat case_bool_decide; lia. }
  case_if; [discriminate|]; breflect.
  destruct (readFull r1 (Z.to_nat (be_get lenb))) as [[p [e|]] r2] eqn:E2;
    [discriminate|]; cbn; intros [= <- <-].
  assert (Hp : len p <= be_get lenb).
  { pose proof (be_get_range lenb).
    destruct (Nat.le_gt_cases (Z.to_nat (be_get lenb)) (length (r_bytes r1))) as [Hn|Hn].
    - destruct (readFull_enough r1 _ (take (Z.to_nat (be_get lenb)) (r_bytes r1)) _
                  (eq_sym (take_drop _ _)) (firstn_length_le _ Hn)) as (r' & E & _).
      rewrite E in E2; injection E2 as <- _; unfold len; rewrite length_take; lia.
    - rewrite (readFull_short r1 _ Hn) in E2; discriminate. }
  unfold frame_bound in *; repeat case_bool_decide; try lia.
  rewrite i64_id in * by (unfold is_i64, seqHeaderLen; lia); lia.
Qed.

(** C37: a stream that ends with io.EOF inside a frame is reported as
    io.ErrUnexpectedEOF, except at one cut: right after the five header bytes
    of a frame with a payload, where next reports a clean io.EOF although the
    frame is incomplete. *)
Theorem frame_next_truncated maxPayload typ payload p q r :
  frame_ok maxPayload (typ, payload) ->
  encode_frame typ payload = p ++ q -> p <> [] -> q <> [] ->
  r_bytes r = p -> r_end r = EOF ->
  (frame_next maxPayload r).1 =
    Fail (if (length p =? 5)%nat then EOF else ErrUnexpectedEOF).
Proof.
  intros Hok He Hp Hq Hr Hend.
  rewrite (frame_next_prefix maxPayload typ payload p q r Hok He Hq Hr), Hend.
  destruct p as [|b p]; [done|].
  destruct (Nat.eqb_spec (length (b :: p)) 5) as [H5|H5].
  - rewrite decide_True by lia; reflexivity.
  - rewrite decide_False by (cbn in *; lia); reflexivity.
Qed.

(** WebSocket messages and acknowledgement payloads survive their codecs:
    a tagged message decodes to its tag and payload, a numbered message to its
    offset and data, and an encoded acknowledgement to its offset. *)
Theorem ws_messages_roundtrip typ payload off data :
  is_u64 off ->
  wsDecode (wsEncode typ payload) = Ok (typ, payload)
  /\ (exists p, wsDecode (wsEncodeSeq off data) = Ok (frameSeqData, p)
                /\ splitSeq p = Ok (off, data))
  /\ decodeAck (encodeOffset off) = Ok off.
Proof.
  intros Hoff; split; [reflexivity|split].
  - eexists; split; [reflexivity|]; apply splitSeq_encoded; exact Hoff.
  - apply decodeAck_encoded; exact Hoff.
Qed.

(** ** Witnesses *)

Definition ex_frames : list (frameType * list byte) :=
  [(frameData, [Byte.x41; Byte.x42]); (frameHeartbeat, []); (frameAck, be_put 8 513)].

Lemma ex_frames_ok : Forall (frame_ok 16) ex_frames.
Proof. repeat constructor; vm_compute; (reflexivity || discriminate). Defined.

Lemma frames_roundtrip_witness :
  (frame_read 16 4 (mk_reader (map (fun b => [b]) (encode_frames ex_frames)) EOF)).1
  = (ex_frames, Some EOF).
Proof.
  refine (proj2 (proj2 (frames_roundtrip 16 ex_frames (mk_writer [] []) 
            (mk_reader (map (fun b => [b]) (encode_frames ex_frames)) EOF)
            ex_frames_ok _ eq_refl _))).
  - constructor.
  - vm_compute; reflexivity.
Defined.

Lemma seq_frame_roundtrip_witness :
  exists payload r', frame_next 4
      (mk_reader [w_out (writeSeqFrame (mk_writer [] []) 7 [Byte.x61]).1] EOF)
      = (Ok (frameSeqData, payload), r')
    /\ splitSeq payload = Ok (7, [Byte.x61]) /\ r_bytes r' = [].
Proof.
  apply (seq_frame_roundtrip 4 (mk_writer [] []) 7 [Byte.x61] _ []);
    unfold w_healthy, is_u64, seqHeaderLen, len; cbn; try constructor; try lia.
Defined.

Lemma frame_read_cut_independent_witness :
  (frame_read 16 3 (mk_reader [encode_frames ex_frames] EOF)).1
  = (frame_read 16 3 (mk_reader (map (fun b => [b]) (encode_frames ex_frames)) EOF)).1.
Proof.
  apply (frame_read_cut_independent 16 3); vm_compute; reflexivity.
Defined.

Lemma frame_next_bounded_witness : len (be_put 8 513) <= 8.
Proof.
  apply (frame_next_bounded 16 (mk_reader [encode_frame frameAck (be_put 8 513)] EOF)
           frameAck (be_put 8 513)); [lia|vm_compute; reflexivity].
Defined.

Lemma frame_next_truncated_witness :
  (frame_next 16 (mk_reader [take 5 (encode_frame frameData [Byte.x41])] EOF)).1 = Fail EOF.
Proof.
  apply (frame_next_truncated 16 frameData [Byte.x41]
           (take 5 (encode_frame frameData [Byte.x41])) [Byte.x41]);
    try (vm_compute; (reflexivity || discriminate || (split; (reflexivity || discriminate)))).
Defined.

Lemma ws_messages_roundtrip_witness : decodeAck (encodeOffset 513) = Ok 513.
Proof. apply (ws_messages_roundtrip frameData [] 513 []); unfold is_u64; lia. Defined.
