(* ===== verification/Pipe.v ===== *)
(** * Pipe.v: BufferedPipe

    Models src/pipe.go.  Every method runs under the pipe's mutex, so it is one
    atomic transition of the record [pipe]; only [cond.Wait] lets others in.  A
    waiting call therefore takes a schedule: batches of what the other
    goroutines (and the call's own timer) do under the mutex between two
    evaluations of the wait condition.  When the schedule is used up nothing
    else happens and the timer fires, which [time.AfterFunc] guarantees. *)

From S2P Require Import Prelude.

Record pipe := mk_pipe {
  p_buf : list byte;
  p_closed : bool;
  p_hiWater : Z;
  p_warnThreshold : Z;
  p_warned : bool;
  p_logger : bool;      (* whether a logger is set *)
  p_intr : bool;
}.

Definition NewBufferedPipe : pipe := mk_pipe [] false 0 0 false false false.

Definition set_buf (b : list byte) (p : pipe) : pipe :=
  mk_pipe b (p_closed p) (p_hiWater p) (p_warnThreshold p) (p_warned p) (p_logger p) (p_intr p).
Definition set_intr (i : bool) (p : pipe) : pipe :=
  mk_pipe (p_buf p) (p_closed p) (p_hiWater p) (p_warnThreshold p) (p_warned p) (p_logger p) i.

Definition WatchHighWater (threshold : Z) (logger : bool) (p : pipe) : pipe :=
  mk_pipe (p_buf p) (p_closed p) (p_hiWater p) threshold (p_warned p) logger (p_intr p).

Definition HiWater (p : pipe) : Z := p_hiWater p.
Definition Buffered (p : pipe) : Z := len (p_buf p).

(** [Write]: the new pipe, the result, and whether the warning is logged. *)
Definition pipe_Write (p : pipe) (data : list byte) : pipe * res Z * bool :=
  if p_closed p then (p, Fail ErrClosedPipe, false)
  else
    let buf := p_buf p ++ data in
    let n := len buf in
    let higher := p_hiWater p <? n in
    let warn := higher && (0 <? p_warnThreshold p) && negb (p_warned p)
                && (p_warnThreshold p <=? n) in
    let p' := mk_pipe buf (p_closed p)
                (if higher then n else p_hiWater p)
                (p_warnThreshold p)
                (if warn then true else p_warned p)
                (p_logger p) (p_intr p) in
    (p', Ok (len data), warn && p_logger p).

(** [Read]: [None] when the call has to wait. *)
Definition pipe_Read (p : pipe) (dst : Z) : option (pipe * res (list byte)) :=
  match p_buf p with
  | [] => if p_closed p then Some (p, Fail EOF) else None
  | buf => Some (set_buf (uncopied dst buf) p, Ok (copied dst buf))
  end.

Definition pipe_interrupt (p : pipe) : pipe := set_intr true p.

Definition pipe_Close (p : pipe) : pipe :=
  mk_pipe (p_buf p) true (p_hiWater p) (p_warnThreshold p) (p_warned p) (p_logger p) (p_intr p).

(** What may happen to a pipe while a call waits on it. *)
Inductive pipe_event : Type :=
| EvWrite (data : list byte)
| EvClose
| EvInterrupt
| EvRead (dst : Z)      (* another reader's turn; nothing if it has to wait *)
| EvTimer.              (* the waiting call's own timer *)

Definition apply_event (p : pipe) (ev : pipe_event) : pipe :=
  match ev with
  | EvWrite data => (pipe_Write p data).1.1
  | EvClose => pipe_Close p
  | EvInterrupt => pipe_interrupt p
  | EvRead dst => match pipe_Read p dst with Some (p', _) => p' | None => p end
  | EvTimer => p
  end.

Definition run_events (p : pipe) (evs : list pipe_event) : pipe := fold_left apply_event evs p.

Lemma run_events_cons p ev evs : run_events p (ev :: evs) = run_events (apply_event p ev) evs.
Proof. reflexivity. Qed.

Definition is_timer (ev : pipe_event) : bool := match ev with EvTimer => true | _ => false end.

(** A wait loop [for cond && !timedOut { p.cond.Wait() }]: the pipe when the
    loop exits and the rest of the schedule. *)
Fixpoint wait_loop (cond : pipe -> bool) (p : pipe) (timedOut : bool)
    (sched : list (list pipe_event)) : pipe * list (list pipe_event) :=
  if cond p && negb timedOut then
    match sched with
    | [] => (p, [])
    | evs :: sched =>
        wait_loop cond (run_events p evs) (timedOut || existsb is_timer evs) sched
    end
  else (p, sched).

Definition cond1 (p : pipe) : bool :=
  (len (p_buf p) =? 0) && negb (p_closed p) && negb (p_intr p).
Definition cond2 (dst : Z) (p : pipe) : bool :=
  (len (p_buf p) <? dst) && negb (p_closed p) && negb (p_intr p).

(** Phase 2 and the final copy. *)
Definition coalesce_and_take (p : pipe) (dst : Z) (sched : list (list pipe_event))
    : pipe * res (list byte) * list (list pipe_event) :=
  let '(p, sched) :=
    if cond2 dst p then wait_loop (cond2 dst) p false sched else (p, sched) in
  (set_buf (uncopied dst (p_buf p)) p, Ok (copied dst (p_buf p)), sched).

(** [ReadAvailable] into a buffer of length [dst].  [Ok []] is [(0, nil)]. *)
Definition ReadAvailable (p : pipe) (dst : Z) (sched : list (list pipe_event))
    : pipe * res (list byte) * list (list pipe_event) :=
  if p_intr p then (set_intr false p, Fail errPipeInterrupted, sched)
  else if len (p_buf p) =? 0 then
    if p_closed p then (p, Fail EOF, sched)
    else
      let '(p, sched) := wait_loop cond1 p false sched in
      if len (p_buf p) =? 0 then
        if p_closed p then (p, Fail EOF, sched)
        else if p_intr p then (set_intr false p, Fail errPipeInterrupted, sched)
        else (p, Ok [], sched)
      else coalesce_and_take p dst sched
  else coalesce_and_take p dst sched.

(** ** The abstract pipe: a closable FIFO of bytes *)

Record fifo := mk_fifo { f_queue : list byte; f_closed : bool }.

Inductive fifo_label : Type :=
| LPut (data : list byte)
| LGet (data : list byte)
| LClose
| LEnd.                    (* a reader learns that the pipe is closed and drained *)

Inductive fifo_step : fifo -> fifo_label -> fifo -> Prop :=
| fifo_put q d : fifo_step (mk_fifo q false) (LPut d) (mk_fifo (q ++ d) false)
| fifo_get d q c : fifo_step (mk_fifo (d ++ q) c) (LGet d) (mk_fifo q c)
| fifo_close q c : fifo_step (mk_fifo q c) LClose (mk_fifo q true)
| fifo_end : fifo_step (mk_fifo [] true) LEnd (mk_fifo [] true).

Inductive fifo_run : fifo -> list fifo_label -> fifo -> Prop :=
| fifo_run_nil f : fifo_run f [] f
| fifo_run_cons f l f1 ls f2 : fifo_step f l f1 -> fifo_run f1 ls f2 -> fifo_run f (l :: ls) f2.

Definition abs (p : pipe) : fifo := mk_fifo (p_buf p) (p_closed p).

(** What goes in and what comes out in a run. *)
Definition label_in (l : fifo_label) : list byte := match l with LPut d => d | _ => [] end.
Definition label_out (l : fifo_label) : list byte := match l with LGet d => d | _ => [] end.
Definition puts (ls : list fifo_label) : list byte := concat (map label_in ls).
Definition gets (ls : list fifo_label) : list byte := concat (map label_out ls).

(** The labels of one event on a concrete pipe. *)
Definition event_labels (p : pipe) (ev : pipe_event) : list fifo_label :=
  match ev with
  | EvWrite d => if p_closed p then [] else [LPut d]
  | EvRead dst =>
      match pipe_Read p dst with
      | Some (_, Ok d) => [LGet d]
      | Some (_, Fail _) => [LEnd]
      | None => []
      end
  | EvClose => [LClose]
  | EvInterrupt | EvTimer => []
  end.

Fixpoint events_labels (p : pipe) (evs : list pipe_event) : list fifo_label :=
  match evs with
  | [] => []
  | ev :: evs => event_labels p ev ++ events_labels (apply_event p ev) evs
  end.

(** The label of a call's own outcome. *)
Definition outcome_label (r : res (list byte)) : list fifo_label :=
  match r with
  | Ok d => [LGet d]
  | Fail EOF => [LEnd]
  | Fail _ => []
  end.

Lemma fifo_run_app f ls f1 ls' f2 :
  fifo_run f ls f1 -> fifo_run f1 ls' f2 -> fifo_run f (ls ++ ls') f2.
Proof. induction 1; cbn; eauto using fifo_run. Qed.

Lemma fifo_run_one f l f' : fifo_step f l f' -> fifo_run f [l] f'.
Proof. eauto using fifo_run. Qed.

#[export] Hint Resolve fifo_run_app fifo_run_one : pollmux.
#[export] Hint Constructors fifo_step fifo_run : pollmux.

(** First in, first out: what came out is what went in, in order. *)
Lemma fifo_run_conserves f ls f' :
  fifo_run f ls f' -> f_queue f ++ puts ls = gets ls ++ f_queue f'.
Proof.
  induction 1 as [f|f l f1 ls f2 Hs _ IH]; [apply app_nil_r|].
  unfold puts, gets in *; destruct Hs; cbn in *; rewrite <- ?app_assoc in *; try exact IH.
  f_equal; exact IH.
Qed.

Lemma abs_get p dst :
  fifo_step (abs p) (LGet (copied dst (p_buf p))) (abs (set_buf (uncopied dst (p_buf p)) p)).
Proof.
  unfold abs; cbn; rewrite <- (copied_uncopied dst (p_buf p)) at 1; constructor.
Qed.

Lemma event_simulated p ev : fifo_run (abs p) (event_labels p ev) (abs (apply_event p ev)).
Proof.
  destruct ev as [d| | |dst|]; cbn [event_labels apply_event].
  - unfold pipe_Write; case_if; [constructor|].
    apply fifo_run_one; unfold abs; cbn; rewrite Heqb; constructor.
  - apply fifo_run_one; constructor.
  - apply fifo_run_nil.
  - unfold pipe_Read; destruct (p_buf p) as [|b bs] eqn:Hb.
    + case_if; [|constructor].
      unfold abs; rewrite Hb, Heqb; auto with pollmux.
    + rewrite <- Hb; apply fifo_run_one, abs_get.
  - apply fifo_run_nil.
Qed.

Lemma events_simulated evs :
  forall p, fifo_run (abs p) (events_labels p evs) (abs (run_events p evs)).
Proof.
  induction evs as [|ev evs IH]; intros p; cbn; [constructor|].
  eapply fifo_run_app; [apply event_simulated|apply IH].
Qed.

Lemma events_labels_app p evs evs' :
  events_labels p (evs ++ evs') = events_labels p evs ++ events_labels (run_events p evs) evs'.
Proof.
  revert p; induction evs as [|ev evs IH]; intros p; cbn; [reflexivity|].
  rewrite IH, app_assoc; reflexivity.
Qed.

Lemma run_events_app p evs evs' :
  run_events p (evs ++ evs') = run_events (run_events p evs) evs'.
Proof. apply fold_left_app. Qed.

(** ** The wait loops *)

Lemma wait_loop_spec cond p timedOut sched :
  exists used, sched = used ++ (wait_loop cond p timedOut sched).2
    /\ (wait_loop cond p timedOut sched).1 = run_events p (concat used)
    /\ (cond (wait_loop cond p timedOut sched).1 = false
        \/ timedOut = true \/ existsb is_timer (concat used) = true
        \/ (wait_loop cond p timedOut sched).2 = []).
Proof.
  revert p timedOut; induction sched as [|evs sched IH]; intros p t; cbn [wait_loop].
  - exists []; cbn; case_if; cbn; breflect; tauto.
  - case_if; breflect.
    + destruct (IH (run_events p evs) (t || existsb is_timer evs)) as (used & Hs & Hp & Hx).
      exists (evs :: used); cbn [concat app]; rewrite run_events_app, existsb_app.
      split; [f_equal; exact Hs|split; [exact Hp|]].
      rewrite orb_true_iff in *; tauto.
    + exists []; cbn; repeat split; destruct Heqb as [H|H]; [left; exact H|right; left].
      apply negb_false_iff in H; exact H.
Qed.

Lemma coalesce_spec p dst sched :
  exists used p1,
    sched = used ++ (coalesce_and_take p dst sched).2
    /\ p1 = run_events p (concat used)
    /\ (coalesce_and_take p dst sched).1
       = (set_buf (uncopied dst (p_buf p1)) p1, Ok (copied dst (p_buf p1))).
Proof.
  unfold coalesce_and_take; case_if.
  - destruct (wait_loop_spec (cond2 dst) p false sched) as (used & Hs & Hp & _).
    destruct (wait_loop (cond2 dst) p false sched) as [q rest]; cbn in *; subst q.
    eauto 10.
  - exists [], p; auto.
Qed.

(** How a ReadAvailable call unfolds: the events it waited through, the pipe it
    then found, and what it did there. *)
Definition ra_result (dst : Z) (p1 : pipe) (out : pipe * res (list byte)) : Prop :=
  out = (set_intr false p1, Fail errPipeInterrupted) /\ p_intr p1 = true
  \/ out = (p1, Fail EOF) /\ p_closed p1 = true /\ p_buf p1 = []
  \/ out = (p1, Ok []) /\ p_closed p1 = false /\ p_intr p1 = false /\ p_buf p1 = []
  \/ out = (set_buf (uncopied dst (p_buf p1)) p1, Ok (copied dst (p_buf p1))).

Lemma ReadAvailable_unfolds p dst sched :
  exists used p1,
    sched = used ++ (ReadAvailable p dst sched).2
    /\ p1 = run_events p (concat used)
    /\ ra_result dst p1 (ReadAvailable p dst sched).1.
Proof.
  unfold ReadAvailable, ra_result.
  destruct (p_intr p) eqn:Hi; [exists [], p; cbn; tauto|].
  destruct (Z.eqb_spec (len (p_buf p)) 0) as [H0|H0].
  - apply len_zero_iff in H0.
    destruct (p_closed p) eqn:Hc; [exists [], p; cbn; tauto|].
    destruct (wait_loop_spec cond1 p false sched) as (used & Hs & Hp & _).
    destruct (wait_loop cond1 p false sched) as [q rest]; cbn in *; subst q.
    set (q := run_events p (concat used)) in *.
    destruct (Z.eqb_spec (len (p_buf q)) 0) as [H1|H1].
    + apply len_zero_iff in H1; exists used, q.
      destruct (p_closed q) eqn:Hc'; [cbn; tauto|].
      destruct (p_intr q) eqn:Hi'; cbn; tauto.
    + destruct (coalesce_spec q dst rest) as (used' & p1 & Hs' & Hp1 & E).
      exists (used ++ used'), p1; rewrite concat_app, run_events_app, <- app_assoc, <- Hs'.
      unfold q in *; tauto.
  - destruct (coalesce_spec p dst sched) as (used & p1 & Hs & Hp1 & E).
    exists used, p1; tauto.
Qed.

(** With no other reader, bytes only accumulate while a call waits. *)
Definition is_read (ev : pipe_event) : bool := match ev with EvRead _ => true | _ => false end.
Definition no_rival (evs : list pipe_event) : Prop := existsb is_read evs = false.

Lemma run_events_grows evs p :
  no_rival evs -> exists more, p_buf (run_events p evs) = p_buf p ++ more.
Proof.
  unfold no_rival; revert p; induction evs as [|ev evs IH]; intros p Hn.
  - exists []; rewrite app_nil_r; reflexivity.
  - rewrite run_events_cons; cbn in Hn; apply orb_false_iff in Hn as [He Hn].
    destruct (IH (apply_event p ev) Hn) as [more Hm]; rewrite Hm.
    destruct ev as [d| | |dst|]; cbn; try discriminate; eauto.
    unfold pipe_Write; case_if; cbn; [eauto|].
    exists (d ++ more); rewrite app_assoc; reflexivity.
Qed.

Lemma run_events_grows_len evs p :
  no_rival evs -> len (p_buf p) <= len (p_buf (run_events p evs)).
Proof. intros Hn; destruct (run_events_grows evs p Hn) as [more ->]; len_lia. Qed.

Lemma coalesce_nonempty p dst sched :
  0 < dst -> p_buf p <> [] -> no_rival (concat sched) ->
  exists d, (coalesce_and_take p dst sched).1.2 = Ok d /\ d <> [] /\ len d <= dst.
Proof.
  intros Hd Hp Hn.
  destruct (coalesce_spec p dst sched) as (used & p1 & Hs & -> & E); rewrite E; cbn.
  assert (Hu : no_rival (concat used)).
  { rewrite Hs, concat_app in Hn; unfold no_rival in *.
    rewrite existsb_app in Hn; apply orb_false_iff in Hn; tauto. }
  pose proof (run_events_grows_len (concat used) p Hu).
  eexists; split; [reflexivity|split].
  - apply copied_nonempty; [lia|]; apply len_pos_iff in Hp; apply len_pos_iff; lia.
  - rewrite len_copied; lia.
Qed.

Lemma run_events_intr evs p :
  p_intr p = true \/ In EvInterrupt evs -> p_intr (run_events p evs) = true.
Proof.
  revert p; induction evs as [|ev evs IH]; intros p; cbn; [tauto|].
  intros H; apply IH; destruct H as [H|[H|H]]; [left|subst; left; reflexivity|tauto].
  destruct ev as [d| | |dst|]; cbn; auto.
  - unfold pipe_Write; case_if; cbn; assumption.
  - unfold pipe_Read; destruct (p_buf p); [case_if|]; cbn; assumption.
Qed.

(** ** High water *)

Definition event_logs (p : pipe) (ev : pipe_event) : bool :=
  match ev with EvWrite d => (pipe_Write p d).2 | _ => false end.

Fixpoint warnings (p : pipe) (evs : list pipe_event) : nat :=
  match evs with
  | [] => 0
  | ev :: evs => (if event_logs p ev then 1 else 0) + warnings (apply_event p ev) evs
  end.

(** The largest number of bytes buffered at once during a run. *)
Fixpoint peak (p : pipe) (evs : list pipe_event) : Z :=
  match evs with
  | [] => Buffered p
  | ev :: evs => Z.max (Buffered p) (peak (apply_event p ev) evs)
  end.

Record hw_inv (p : pipe) : Prop := {
  hw_covers : Buffered p <= p_hiWater p;
  hw_warned : 0 < p_warnThreshold p ->
              p_warned p = (p_warnThreshold p <=? p_hiWater p);
}.

Lemma apply_event_hw p ev :
  hw_inv p ->
  hw_inv (apply_event p ev)
  /\ p_hiWater (apply_event p ev) = Z.max (p_hiWater p) (Buffered (apply_event p ev))
  /\ p_warnThreshold (apply_event p ev) = p_warnThreshold p
  /\ p_logger (apply_event p ev) = p_logger p
  /\ (0 < p_warnThreshold p -> p_logger p = true ->
      event_logs p ev
      = negb (p_warnThreshold p <=? p_hiWater p)
        && (p_warnThreshold p <=? p_hiWater (apply_event p ev))).
Proof.
  intros [Hc Hw]; unfold Buffered in *.
  assert (Hsame : forall q, p_buf q = p_buf p \/ len (p_buf q) <= len (p_buf p) ->
     p_hiWater q = p_hiWater p -> p_warnThreshold q = p_warnThreshold p ->
     p_warned q = p_warned p -> p_logger q = p_logger p ->
     hw_inv q /\ p_hiWater q = Z.max (p_hiWater p) (len (p_buf q))
     /\ p_warnThreshold q = p_warnThreshold p /\ p_logger q = p_logger p
     /\ (0 < p_warnThreshold p -> p_logger p = true ->
         false = negb (p_warnThreshold p <=? p_hiWater p)
                 && (p_warnThreshold p <=? p_hiWater q))).
  { intros q Hb Hh Ht Hd Hl.
    assert (len (p_buf q) <= len (p_buf p)) by (destruct Hb as [->|]; lia).
    split; [split; unfold Buffered; rewrite ?Hh, ?Ht, ?Hd; auto; lia|].
    rewrite Hh; split; [lia|]; split; [exact Ht|]; split; [exact Hl|].
    intros _ _; destruct (_ <=? _); reflexivity. }
  destruct ev as [d| | |dst|]; cbn [apply_event event_logs]; try (apply Hsame; cbn; auto; fail).
  - unfold pipe_Write; destruct (p_closed p) eqn:Hcl; [apply Hsame; auto|]; cbn.
    repeat split; cbn; intros; unfold Buffered; cbn; rewrite ?Hw by lia;
      repeat match goal with
      | |- context [?a <? ?b] => destruct (Z.ltb_spec a b)
      | |- context [?a <=? ?b] => destruct (Z.leb_spec a b)
      end; cbn; try lia; try congruence.
  - apply Hsame; unfold pipe_Read; destruct (p_buf p) as [|b l] eqn:Hb;
      try case_if; cbn; auto.
    right; unfold uncopied, len; rewrite length_drop; lia.
Qed.

Lemma run_events_hw evs :
  forall p, hw_inv p ->
  hw_inv (run_events p evs)
  /\ p_hiWater (run_events p evs) = Z.max (p_hiWater p) (peak p evs)
  /\ (0 < p_warnThreshold p -> p_logger p = true ->
      warnings p evs = if negb (p_warnThreshold p <=? p_hiWater p)
                          && (p_warnThreshold p <=? p_hiWater (run_events p evs))
                       then 1%nat else 0%nat).
Proof.
  induction evs as [|ev evs IH]; intros p Hp.
  - cbn; destruct Hp as [Hc Hw]; split; [split; assumption|]; split; [lia|].
    destruct (_ <=? _); reflexivity.
  - rewrite run_events_cons; cbn [peak warnings].
    destruct (apply_event_hw p ev Hp) as (Hp1 & Hh & Ht & Hl & Hlog).
    destruct (IH _ Hp1) as (Hp2 & Hh2 & Hw2); destruct Hp as [Hc _].
    assert (Hpk : Buffered (apply_event p ev) <= peak (apply_event p ev) evs)
      by (destruct evs; cbn [peak]; lia).
    split; [exact Hp2|]; split; [lia|].
    intros H0 H1; rewrite Hlog, Hw2, Ht by (rewrite ?Ht, ?Hl; assumption).
    repeat match goal with |- context [?a <=? ?b] => destruct (Z.leb_spec a b) end;
      cbn; lia.
Qed.

(** ** Properties *)

Lemma ReadAvailable_fifo p dst sched :
  let '(p', r, rest) := ReadAvailable p dst sched in
  exists used, sched = used ++ rest
    /\ let ls := events_labels p (concat used) ++ outcome_label r in
       fifo_run (abs p) ls (abs p')
       /\ p_buf p ++ puts ls = gets ls ++ p_buf p'.
Proof.
  destruct (ReadAvailable_unfolds p dst sched) as (used & p1 & Hs & Hp1 & Hr).
  destruct (ReadAvailable p dst sched) as [[p' r] rest]; cbn in Hs, Hr.
  exists used; split; [exact Hs|].
  assert (Hrun : fifo_run (abs p) (events_labels p (concat used) ++ outcome_label r) (abs p')).
  { eapply fifo_run_app; [apply events_simulated|]; rewrite <- Hp1.
    unfold ra_result in Hr; destruct Hr as [[E H]|[[E H]|[[E H]|E]]]; injection E as -> ->; cbn.
    - constructor.
    - destruct H as [Hc Hb]; apply fifo_run_one; unfold abs; rewrite Hc, Hb; constructor.
    - apply fifo_run_one; apply (fifo_get []).
    - apply fifo_run_one, abs_get. }
  split; [exact Hrun|apply (fifo_run_conserves _ _ _ Hrun)].
Qed.

(** ** What goes through a pipe while a call waits *)

(** The bytes a pipe accepts in [evs]. *)
Definition accepted (p : pipe) (evs : list pipe_event) : list byte := puts (events_labels p evs).

(** The part of the schedule a ReadAvailable call waits through. *)
Definition waited (p : pipe) (blen : Z) (sched : list (list pipe_event)) : list pipe_event :=
  concat (take (length sched - length (ReadAvailable p blen sched).2) sched).

Lemma gets_no_rival evs : forall p, no_rival evs -> gets (events_labels p evs) = [].
Proof.
  unfold no_rival, gets; induction evs as [|ev evs IH]; intros p Hn; [reflexivity|].
  cbn in Hn; apply orb_false_iff in Hn as [He Hn].
  cbn [events_labels]; rewrite map_app, concat_app, IH by exact Hn; rewrite app_nil_r.
  destruct ev; cbn; try reflexivity; try discriminate; destruct (p_closed p); reflexivity.
Qed.

Lemma outcome_puts r : puts (outcome_label r) = [].
Proof. destruct r as [d|[]]; reflexivity. Qed.

Definition outcome_data (r : res (list byte)) : list byte :=
  match r with Ok d => d | Fail _ => [] end.

Lemma outcome_gets r : gets (outcome_label r) = outcome_data r.
Proof. destruct r as [d|[]]; cbn; unfold gets; cbn; rewrite ?app_nil_r; reflexivity. Qed.

Lemma puts_app ls ls' : puts (ls ++ ls') = puts ls ++ puts ls'.
Proof. unfold puts; rewrite map_app, concat_app; reflexivity. Qed.

Lemma gets_app ls ls' : gets (ls ++ ls') = gets ls ++ gets ls'.
Proof. unfold gets; rewrite map_app, concat_app; reflexivity. Qed.

Lemma accepted_cons p ev evs : accepted p (ev :: evs) = accepted p [ev] ++ accepted (apply_event p ev) evs.
Proof. unfold accepted; cbn [events_labels]; rewrite app_nil_r; apply puts_app. Qed.

Lemma waited_used p blen used rest :
  (ReadAvailable p blen (used ++ rest)).2 = rest -> waited p blen (used ++ rest) = concat used.
Proof.
  intros E; unfold waited; rewrite E, length_app, Nat.add_sub, take_app_length; reflexivity.
Qed.

(** A call conserves bytes when nobody else reads. *)
Lemma read_conserves p blen sched p' r rest :
  no_rival (concat sched) -> ReadAvailable p blen sched = (p', r, rest) ->
  p_buf p ++ accepted p (waited p blen sched) = outcome_data r ++ p_buf p'.
Proof.
  intros Hn E; pose proof (ReadAvailable_fifo p blen sched) as Hf; rewrite E in Hf.
  destruct Hf as (used & Hs & _ & Hc); unfold accepted, waited; rewrite E; cbn [snd].
  replace (take (length sched - length rest) sched) with used
    by (rewrite Hs, length_app, Nat.add_sub, take_app_length; reflexivity).
  rewrite puts_app, gets_app, outcome_puts, outcome_gets, app_nil_r in Hc.
  rewrite gets_no_rival in Hc; [exact Hc|].
  rewrite Hs, concat_app in Hn; unfold no_rival in *; rewrite existsb_app in Hn.
  apply orb_false_iff in Hn; tauto.
Qed.

(** C34: a BufferedPipe is a closable FIFO: any interleaving of Write, Read,
    Close and interrupt is a run of the abstract FIFO, and a ReadAvailable
    call extends the run of the events it waited through by its own outcome;
    so the bytes readers got, followed by the buffer, are the bytes accepted,
    in order. *)
Theorem pipe_refines_fifo p dst sched :
  let '(p', r, rest) := ReadAvailable p dst sched in
  exists used, sched = used ++ rest
    /\ let ls := events_labels p (concat used) ++ outcome_label r in
       fifo_run (abs p) ls (abs p')
       /\ p_buf p ++ puts ls = gets ls ++ p_buf p'.
Proof. apply ReadAvailable_fifo. Qed.

(** The outcomes of ReadAvailable mean what its callers take them to mean:
    io.EOF is returned only on a closed and drained pipe, (0, nil) only when
    the wait timed out on an open, empty, uninterrupted pipe, data is
    non-empty and fits the buffer, and no other error occurs. *)
Theorem ReadAvailable_outcomes p dst sched :
  0 < dst -> no_rival (concat sched) ->
  let '(p', r, rest) := ReadAvailable p dst sched in
  match r with
  | Ok [] => p_buf p' = [] /\ p_closed p' = false /\ p_intr p' = false
             /\ exists used, sched = used ++ rest
                 /\ (existsb is_timer (concat used) = true \/ rest = [])
  | Ok d => len d <= dst
  | Fail EOF => p_closed p' = true /\ p_buf p' = []
  | Fail errPipeInterrupted => p_intr p' = false
  | Fail _ => False
  end.
Proof.
  intros Hd Hn; unfold ReadAvailable.
  assert (Hco : forall q rest', p_buf q <> [] -> no_rival (concat rest') ->
     let '(p', r, rest) := coalesce_and_take q dst rest' in
     exists d, r = Ok d /\ d <> [] /\ len d <= dst).
  { intros q rest' Hq Hr; destruct (coalesce_nonempty q dst rest' Hd Hq Hr) as (d & E & Hx).
    destruct (coalesce_and_take q dst rest') as [[? ?] ?]; cbn in E; subst; eauto. }
  destruct (p_intr p) eqn:Hi; [reflexivity|].
  destruct (Z.eqb_spec (len (p_buf p)) 0) as [H0|H0].
  - destruct (p_closed p) eqn:Hc; [split; [assumption|apply len_zero_iff; assumption]|].
    destruct (wait_loop_spec cond1 p false sched) as (used & Hs & Hp & Hx).
    destruct (wait_loop cond1 p false sched) as [q rest]; cbn [fst snd] in *.
    assert (Hn2 : no_rival (concat rest)).
    { rewrite Hs, concat_app in Hn; unfold no_rival in *.
      rewrite existsb_app in Hn; apply orb_false_iff in Hn; tauto. }
    destruct (Z.eqb_spec (len (p_buf q)) 0) as [H1|H1].
    + pose proof (proj1 (len_zero_iff _) H1) as H2.
      destruct (p_closed q) eqn:Hc'; [tauto|].
      destruct (p_intr q) eqn:Hi'; [reflexivity|].
      repeat split; try assumption; exists used; split; [exact Hs|].
      destruct Hx as [Hx|[Hx|Hx]]; [|discriminate|exact Hx].
      unfold cond1 in Hx; rewrite H1, Hc', Hi' in Hx; discriminate.
    + rewrite len_zero_iff in H1; specialize (Hco q rest H1 Hn2).
      destruct (coalesce_and_take q dst rest) as [[? r] ?].
      destruct Hco as (d & -> & Hd1 & Hd2); destruct d; [done|exact Hd2].
  - rewrite len_zero_iff in H0; specialize (Hco p sched H0 Hn).
    destruct (coalesce_and_take p dst sched) as [[? r] ?].
    destruct Hco as (d & -> & Hd1 & Hd2); destruct d; [done|exact Hd2].
Qed.

(** Interrupt is level-triggered and never lost: if the flag was set
    before the call or by an interrupt during its waits, the call reports
    errPipeInterrupted, or it returns its data (or end of pipe) with the flag
    still set for the next call. *)
Theorem interrupt_not_lost p dst sched used rest :
  (ReadAvailable p dst sched).2 = rest -> sched = used ++ rest ->
  p_intr p = true \/ In EvInterrupt (concat used) ->
  (ReadAvailable p dst sched).1.2 = Fail errPipeInterrupted
  \/ p_intr (ReadAvailable p dst sched).1.1 = true.
Proof.
  intros Hrest Hsched Hi.
  destruct (ReadAvailable_unfolds p dst sched) as (used' & p1 & Hs & -> & Hr).
  rewrite Hrest in Hs; rewrite Hsched in Hs at 1; apply app_inv_tail in Hs; subst used'.
  pose proof (run_events_intr (concat used) p Hi) as Hp1.
  unfold ra_result in Hr; destruct (ReadAvailable p dst sched) as [[p' r] rest']; cbn in *.
  destruct Hr as [[E H]|[[E H]|[[E H]|E]]]; injection E as -> ->; cbn; auto.
Qed.

(** HiWater is the largest number of bytes ever buffered at once, and an
    armed high-water warning is logged exactly once, when that number first
    reaches the threshold. *)
Theorem hiwater_exact_and_warned_once threshold evs :
  0 < threshold ->
  let p := WatchHighWater threshold true NewBufferedPipe in
  HiWater (run_events p evs) = peak p evs
  /\ warnings p evs = if threshold <=? peak p evs then 1%nat else 0%nat.
Proof.
  intros Ht p.
  assert (Hp : hw_inv p).
  { split; [reflexivity|]; intros _; cbn; symmetry; apply Z.leb_gt; exact Ht. }
  destruct (run_events_hw evs p Hp) as (_ & Hh & Hw).
  assert (0 <= peak p evs) by (destruct evs; cbn [peak]; unfold Buffered; len_lia).
  assert (E : p_hiWater (run_events p evs) = peak p evs) by (rewrite Hh; cbn; lia).
  split; [exact E|]; rewrite Hw by (cbn; auto); rewrite E; cbn.
  rewrite (proj2 (Z.leb_gt threshold 0)) by exact Ht; reflexivity.
Qed.

(** ** Witnesses *)

Lemma ReadAvailable_outcomes_witness : len [Byte.x41] <= 4.
Proof.
  exact (ReadAvailable_outcomes NewBufferedPipe 4 [[EvWrite [Byte.x41]]; [EvTimer]]
           ltac:(lia) eq_refl).
Defined.

Lemma interrupt_not_lost_witness :
  (ReadAvailable NewBufferedPipe 4 [[EvWrite [Byte.x41]; EvInterrupt]]).1.2
    = Fail errPipeInterrupted
  \/ p_intr (ReadAvailable NewBufferedPipe 4 [[EvWrite [Byte.x41]; EvInterrupt]]).1.1 = true.
Proof.
  apply (interrupt_not_lost NewBufferedPipe 4 [[EvWrite [Byte.x41]; EvInterrupt]]
           [[EvWrite [Byte.x41]; EvInterrupt]] []); [reflexivity|reflexivity|].
  right; cbn; tauto.
Defined.

Lemma hiwater_exact_and_warned_once_witness :
  let p := WatchHighWater 2 true NewBufferedPipe in
  let evs := [EvWrite [Byte.x41; Byte.x42]; EvRead 1; EvWrite [Byte.x43; Byte.x44]] in
  HiWater (run_events p evs) = 3 /\ warnings p evs = 1%nat.
Proof.
  exact (hiwater_exact_and_warned_once 2
           [EvWrite [Byte.x41; Byte.x42]; EvRead 1; EvWrite [Byte.x43; Byte.x44]] ltac:(lia)).
Defined.
