(* ===== verification/Protocol.v ===== *)
(** * Protocol.v: constants, negotiated parameters and server configuration

    Models src/protocol.go, the ServerConfig part of src/handler.go,
    negotiateResume of src/resume_server.go, and the constants of src/yamux.go.
    Durations are [int64] nanoseconds; the conversions the code does on them
    wrap or truncate as Go's do. *)

From S2P Require Import Prelude.
Local Open Scope string_scope.
Local Open Scope Z_scope.

Definition ProtocolVersion : Z := 1.

(** src/yamux.go *)
Definition MaxStreamWindowSize : Z := Z.shiftl 256 10.

(** Server-side defaults. *)
Definition DefaultPollTimeout : Z := 30 * Second.
Definition DefaultSessionTimeout : Z := 2 * DefaultPollTimeout.
Definition DefaultSweepInterval : Z := 5 * Second.
Definition DefaultPollBufferSize : Z := Z.shiftl 256 10.
Definition DefaultMaxSendBytes : Z := Z.shiftl 1 20.
Definition DefaultHeartbeatInterval : Z := 10 * Second.
Definition DefaultStreamMaxDuration : Z := 45 * Second.
Definition DefaultResumeGrace : Z := 30 * Second.
Definition MaxResumeGrace : Z := 5 * Minute.
Definition DefaultMaxDetachedResumable : Z := 1024.
Definition defaultStreamReadGrace : Z := 10 * Second.
Definition batchPollGapAllowance : Z := 10 * Second.

(** Client-side defaults. *)
Definition DefaultPollInterval : Z := 0.
Definition DefaultPollGrace : Z := 10 * Second.
Definition DefaultSendTimeout : Z := 15 * Second.
Definition DefaultDialTimeout : Z := 10 * Second.
Definition DefaultMaxSendChunk : Z := Z.shiftl 512 10.
Definition DefaultMaxReplayBytes : Z := Z.shiftl 16 20.
Definition DefaultUploadProbeTimeout : Z := 15 * Second.
Definition uploadProbeFillerBytes : Z := MaxStreamWindowSize + Z.shiftl 4 10.
Definition DefaultCoalesceWindow : Z := 2 * Millisecond.

(** Reconnect defaults. *)
Definition DefaultInitialBackoff : Z := 1 * Second.
Definition DefaultMaxBackoff : Z := 3 * Minute.
Definition DefaultPeerClosedPause : Z := 500 * Millisecond.
Definition DefaultMinStableDuration : Z := 5 * Second.

Definition PollModeBatch : string := "batch".
Definition PollModeStream : string := "stream".
Definition TransportWebSocket : string := "websocket".

(** Metadata maps. *)
Abbreviation meta_map := (gmap string string).

Record ConnectRequest := mk_ConnectRequest {
  creq_ProtocolVersion : Z;
  creq_Meta : meta_map;
  creq_PreferStreamMode : bool;
  creq_PreferStreamUpload : bool;
  creq_PreferWebSocket : bool;
  creq_PreferResume : bool;
  creq_BatchResume : bool;
  creq_PollIntervalMS : Z;
}.

Record ResumeRequest := mk_ResumeRequest {
  rreq_ProtocolVersion : Z;
  rreq_RecvOffset : Z;
}.

Record ResumeResponse := mk_ResumeResponse {
  rres_Resumed : bool;
  rres_RecvOffset : Z;
}.

Record Limits := mk_Limits {
  MaxSendBytes : Z;
  PollTimeoutMS : Z;
  SessionTimeoutMS : Z;
  PollBufferBytes : Z;
  HeartbeatIntervalMS : Z;
  StreamMaxDurationMS : Z;
  ResumeGraceMS : Z;
}.

(** [time.Duration(ms) * time.Millisecond]: an [int64] product. *)
Definition duration_ms (ms : Z) : Z := i64 (ms * Millisecond).

Definition Limits_PollTimeout (l : Limits) : Z := duration_ms (PollTimeoutMS l).
Definition Limits_SessionTimeout (l : Limits) : Z := duration_ms (SessionTimeoutMS l).
Definition Limits_HeartbeatInterval (l : Limits) : Z := duration_ms (HeartbeatIntervalMS l).
Definition Limits_StreamMaxDuration (l : Limits) : Z := duration_ms (StreamMaxDurationMS l).
Definition Limits_ResumeGrace (l : Limits) : Z := duration_ms (ResumeGraceMS l).

Definition Validate (l : Limits) : option goerr :=
  if MaxSendBytes l <=? 0 then Some errConfig
  else if PollTimeoutMS l <=? 0 then Some errConfig
  else if SessionTimeoutMS l <=? 0 then Some errConfig
  else None.

Record ConnectResponse := mk_ConnectResponse {
  cres_ProtocolVersion : Z;
  cres_SessionID : string;
  cres_Limits : Limits;
  cres_Meta : meta_map;
  cres_PollMode : string;
  cres_UploadStreamMode : string;
  cres_Transport : string;
  cres_Resumable : bool;
  cres_BatchResume : bool;
}.

Inductive DisconnectReason : Type :=
| ReasonClientDelete
| ReasonEvicted
| ReasonServerClose
| ReasonProtocolViolation.

#[export] Instance DisconnectReason_eq_dec : EqDecision DisconnectReason.
Proof. solve_decision. Defined.

Definition DisconnectReason_String (r : DisconnectReason) : string :=
  match r with
  | ReasonClientDelete => "client_delete"
  | ReasonEvicted => "evicted"
  | ReasonServerClose => "server_close"
  | ReasonProtocolViolation => "protocol_violation"
  end.

(** ** ServerConfig *)

Record ServerConfig := mk_ServerConfig {
  cfg_PollTimeout : Z;
  cfg_SessionTimeout : Z;
  cfg_SweepInterval : Z;
  cfg_CoalesceWindow : Z;
  cfg_PollBufferSize : Z;
  cfg_MaxSendBytes : Z;
  cfg_HighWaterWarn : Z;
  cfg_PollMode : string;
  cfg_HeartbeatInterval : Z;
  cfg_StreamMaxDuration : Z;
  cfg_EnableWebSocket : bool;
  cfg_EnableResume : bool;
  cfg_ResumeGrace : Z;
  cfg_MaxReplayBytes : Z;
  cfg_MaxDetachedResumable : Z;
}.

Definition orDuration (v fallback : Z) : Z := if v <=? 0 then fallback else v.
Definition orInt (v fallback : Z) : Z := if v <=? 0 then fallback else v.

Definition withDefaults (cfg : ServerConfig) : ServerConfig :=
  mk_ServerConfig
    (if cfg_PollTimeout cfg <=? 0 then DefaultPollTimeout else cfg_PollTimeout cfg)
    (if cfg_SessionTimeout cfg <=? 0 then DefaultSessionTimeout else cfg_SessionTimeout cfg)
    (if cfg_SweepInterval cfg <=? 0 then DefaultSweepInterval else cfg_SweepInterval cfg)
    (if cfg_CoalesceWindow cfg <=? 0 then DefaultCoalesceWindow else cfg_CoalesceWindow cfg)
    (if cfg_PollBufferSize cfg <=? 0 then DefaultPollBufferSize else cfg_PollBufferSize cfg)
    (if cfg_MaxSendBytes cfg <=? 0 then DefaultMaxSendBytes else cfg_MaxSendBytes cfg)
    (cfg_HighWaterWarn cfg)
    (cfg_PollMode cfg)
    (if cfg_HeartbeatInterval cfg <=? 0 then DefaultHeartbeatInterval
     else cfg_HeartbeatInterval cfg)
    (if cfg_StreamMaxDuration cfg <=? 0 then DefaultStreamMaxDuration
     else cfg_StreamMaxDuration cfg)
    (cfg_EnableWebSocket cfg)
    (cfg_EnableResume cfg)
    (if cfg_ResumeGrace cfg <=? 0 then DefaultResumeGrace else cfg_ResumeGrace cfg)
    (if cfg_MaxReplayBytes cfg <=? 0 then DefaultMaxReplayBytes else cfg_MaxReplayBytes cfg)
    (if cfg_MaxDetachedResumable cfg =? 0 then DefaultMaxDetachedResumable
     else cfg_MaxDetachedResumable cfg).

(** The four panics of [check]. *)
Inductive config_panic : Type :=
| PanicPollMode
| PanicSessionTimeout
| PanicStreamMaxDuration
| PanicResumeGrace.

Definition check (cfg : ServerConfig) : option config_panic :=
  if negb (bool_decide (cfg_PollMode cfg = "" \/ cfg_PollMode cfg = PollModeBatch
                        \/ cfg_PollMode cfg = PollModeStream))
  then Some PanicPollMode
  else if (0 <? cfg_SessionTimeout cfg) && (0 <? cfg_PollTimeout cfg)
          && (cfg_SessionTimeout cfg <? i64 (2 * cfg_PollTimeout cfg))
  then Some PanicSessionTimeout
  else if bool_decide (cfg_PollMode cfg = PollModeStream) && (0 <? cfg_StreamMaxDuration cfg)
          && (0 <? cfg_HeartbeatInterval cfg)
          && (cfg_StreamMaxDuration cfg <? i64 (2 * cfg_HeartbeatInterval cfg))
  then Some PanicStreamMaxDuration
  else if MaxResumeGrace <? cfg_ResumeGrace cfg
  then Some PanicResumeGrace
  else None.

Definition limits (cfg : ServerConfig) (mode : string) (resumable : bool) : Limits :=
  let stream := bool_decide (mode = PollModeStream) in
  mk_Limits
    (cfg_MaxSendBytes cfg)
    (milliseconds (cfg_PollTimeout cfg))
    (milliseconds (cfg_SessionTimeout cfg))
    (cfg_PollBufferSize cfg)
    (if stream then milliseconds (cfg_HeartbeatInterval cfg) else 0)
    (if stream then milliseconds (cfg_StreamMaxDuration cfg) else 0)
    (if resumable then milliseconds (cfg_ResumeGrace cfg) else 0).

Definition negotiatePollMode (serverMode : string) (clientPrefersStream : bool) : string :=
  if bool_decide (serverMode = PollModeStream) && clientPrefersStream
  then PollModeStream else PollModeBatch.

Definition negotiateResume (cfg : ServerConfig) (req : ConnectRequest)
    (transport pollMode uploadMode : string) : bool :=
  if negb (cfg_EnableResume cfg) || negb (creq_PreferResume req) then false
  else if bool_decide (transport = TransportWebSocket) then true
  else creq_BatchResume req
       || (bool_decide (pollMode = PollModeStream) && bool_decide (uploadMode = PollModeStream)).
