(* ===== verification/Reliable.v ===== *)
(** * Reliable.v: the byte layer of the resumable transport

    Models src/reliable.go.  [reliable] is the struct without its two pipes;
    [endpoint] puts them beside it, because the pipes are shared with the
    session (server) or the connection (client).  Every method holds r.mu, so
    it is one atomic transition; nextOut releases it while it waits on the
    pipe and is the composition of three such transitions ([pending_out],
    [ReadAvailable], [number_out]).  [None] is a run-time panic: a slice
    expression out of range. *)

From S2P Require Import Prelude Pipe Protocol.

Record reliable := mk_reliable {
  sendOffset : Z;
  ackedOffset : Z;
  sentCursor : Z;
  replay : list byte;
  maxReplay : Z;
  broken : bool;
  recvOffset : Z;
  lastAck : Z;
  ackEager : Z;
}.

Definition ackEagerBytes : Z := MaxStreamWindowSize / 2.

Definition newReliable (maxReplay : Z) : reliable :=
  mk_reliable 0 0 0 [] (if maxReplay <=? 0 then DefaultMaxReplayBytes else maxReplay)
    false 0 0 ackEagerBytes.

Definition disableEagerAck (r : reliable) : reliable :=
  mk_reliable (sendOffset r) (ackedOffset r) (sentCursor r) (replay r) (maxReplay r)
    (broken r) (recvOffset r) (lastAck r) 0.

Definition markBroken (r : reliable) : reliable :=
  mk_reliable (sendOffset r) (sendOffset r) (sendOffset r) [] (maxReplay r)
    true (recvOffset r) (lastAck r) (ackEager r).

(** Updates of the sending side and of the receiving side. *)
Definition set_send (s a c : Z) (rp : list byte) (r : reliable) : reliable :=
  mk_reliable s a c rp (maxReplay r) (broken r) (recvOffset r) (lastAck r) (ackEager r).
Definition set_recv (o la : Z) (r : reliable) : reliable :=
  mk_reliable (sendOffset r) (ackedOffset r) (sentCursor r) (replay r) (maxReplay r)
    (broken r) o la (ackEager r).

(** ** nextOut *)

Definition has_pending (r : reliable) : bool :=
  negb (broken r) && (sentCursor r <? sendOffset r).

(** The first critical section: pending replay, into a buffer of [blen] bytes. *)
Definition pending_out (r : reliable) (blen : Z) : option (reliable * Z * list byte) :=
  let start := i64 (u64 (sentCursor r - ackedOffset r)) in
  match slice_from (replay r) start with
  | None => None
  | Some rest =>
      let chunk := copied blen rest in
      Some (set_send (sendOffset r) (ackedOffset r) (u64 (sentCursor r + len chunk)) (replay r) r,
            sentCursor r, chunk)
  end.

(** The second critical section: number and retain bytes just taken from out. *)
Definition number_out (r : reliable) (data : list byte) : reliable * Z :=
  let off := sendOffset r in
  let sent := u64 (sendOffset r + len data) in
  let r := set_send sent (ackedOffset r) sent (replay r) r in
  if broken r then (r, off)
  else
    let r := set_send sent (ackedOffset r) sent (replay r ++ data) r in
    if maxReplay r <? len (replay r) then (markBroken r, off) else (r, off).

Record endpoint := mk_ep { ep_rl : reliable; ep_out : pipe; ep_in : pipe }.

Definition new_endpoint (maxReplay : Z) : endpoint :=
  mk_ep (newReliable maxReplay) NewBufferedPipe NewBufferedPipe.

(** [nextOut], with nothing else using the layer while it waits; [Ok (_, [])]
    is [(0, 0, nil)]. *)
Definition nextOut (e : endpoint) (blen : Z) (sched : list (list pipe_event))
    : option (endpoint * res (Z * list byte) * list (list pipe_event)) :=
  if has_pending (ep_rl e) then
    match pending_out (ep_rl e) blen with
    | None => None
    | Some (r, off, chunk) => Some (mk_ep r (ep_out e) (ep_in e), Ok (off, chunk), sched)
    end
  else
    let '(out, got, sched) := ReadAvailable (ep_out e) blen sched in
    match got with
    | Fail err => Some (mk_ep (ep_rl e) out (ep_in e), Fail err, sched)
    | Ok [] => Some (mk_ep (ep_rl e) out (ep_in e), Ok (0, []), sched)
    | Ok data =>
        let '(r, off) := number_out (ep_rl e) data in
        Some (mk_ep r out (ep_in e), Ok (off, data), sched)
    end.

(** ** recvIn *)

Definition recvIn (e : endpoint) (off : Z) (p : list byte) : option (endpoint * option goerr) :=
  let r := ep_rl e in
  if recvOffset r <? off then
    Some (mk_ep (markBroken r) (ep_out e) (ep_in e), Some errReplayGap)
  else if u64 (off + len p) <=? recvOffset r then Some (e, None)
  else
    match slice_from p (u64 (recvOffset r - off)) with
    | None => None
    | Some p =>
        match pipe_Write (ep_in e) p with
        | (_, Fail err, _) => Some (e, Some err)
        | (inp, Ok _, _) =>
            let recv := u64 (recvOffset r + len p) in
            let wake := (0 <? ackEager r) && (u64 (ackEager r) <=? u64 (recv - lastAck r)) in
            Some (mk_ep (set_recv recv (lastAck r) r)
                        (if wake then pipe_interrupt (ep_out e) else ep_out e) inp, None)
        end
    end.

(** ** Acknowledgements and resume *)

Definition rel_ack (r : reliable) (n : Z) : option (reliable * option goerr) :=
  if sendOffset r <? n then Some (markBroken r, Some errBadAck)
  else if broken r || (n <=? ackedOffset r) then Some (r, None)
  else
    match slice_from (replay r) (u64 (n - ackedOffset r)) with
    | None => None
    | Some rest =>
        Some (set_send (sendOffset r) n
                (if sentCursor r <? n then n else sentCursor r) rest r, None)
    end.

Definition takeAck (r : reliable) : reliable * option Z :=
  if recvOffset r =? lastAck r then (r, None)
  else (set_recv (recvOffset r) (recvOffset r) r, Some (recvOffset r)).

Definition resetAck (r : reliable) : reliable := set_recv (recvOffset r) 0 r.

Definition resumeOut (r : reliable) (peerRecv : Z) : option (reliable * bool) :=
  if broken r || (peerRecv <? ackedOffset r) || (sendOffset r <? peerRecv)
  then Some (r, false)
  else
    match slice_from (replay r) (u64 (peerRecv - ackedOffset r)) with
    | None => None
    | Some rest => Some (set_send (sendOffset r) peerRecv peerRecv rest r, true)
    end.

Definition rewindToAcked (r : reliable) : reliable :=
  if broken r then r
  else set_send (sendOffset r) (ackedOffset r) (ackedOffset r) (replay r) r.

Definition recvOffsetNow (r : reliable) : Z := recvOffset r.
Definition progress (r : reliable) : Z * Z := (ackedOffset r, recvOffset r).
Definition unacked (r : reliable) : Z := len (replay r).
Definition isBroken (r : reliable) : bool := broken r.
Definition interruptOut (e : endpoint) : endpoint :=
  mk_ep (ep_rl e) (pipe_interrupt (ep_out e)) (ep_in e).

(** Lifting a transition of the layer to the endpoint. *)
Definition on_rl (f : reliable -> reliable) (e : endpoint) : endpoint :=
  mk_ep (f (ep_rl e)) (ep_out e) (ep_in e).

(** ** Invariant

    [sent] is every byte ever taken from out and [got] every byte ever written
    to in. *)

Record rel_inv (sent got : list byte) (r : reliable) : Prop := {
  ri_send : sendOffset r = len sent;
  ri_send_max : len sent < 2 ^ 63;
  ri_order : 0 <= ackedOffset r <= sentCursor r /\ sentCursor r <= sendOffset r;
  ri_live : broken r = false ->
            replay r = drop (Z.to_nat (ackedOffset r)) sent /\ len (replay r) <= maxReplay r;
  ri_dead : broken r = true -> replay r = [] /\ sentCursor r = sendOffset r;
  ri_recv : recvOffset r = len got;
  ri_recv_max : len got < 2 ^ 63;
  ri_lastAck : 0 <= lastAck r <= recvOffset r;
  ri_maxReplay : 0 < maxReplay r;
}.

Ltac rel_simp :=
  unfold set_send, set_recv, markBroken, disableEagerAck in *;
  cbn [sendOffset ackedOffset sentCursor replay maxReplay broken recvOffset lastAck ackEager
       ep_rl ep_out ep_in on_rl fst snd] in *.

(** Split an invariant into its fields and close the arithmetic ones. *)
Ltac inv_split :=
  constructor; rel_simp; intros; try discriminate; try congruence; try len_lia.

Section Transitions.
Context (sent got : list byte).
Implicit Types r : reliable.

Lemma inv_replay_len r :
  rel_inv sent got r -> broken r = false ->
  len (replay r) = sendOffset r - ackedOffset r.
Proof.
  intros H Hb; destruct H; destruct (ri_live0 Hb) as [-> _].
  rewrite len_drop; lia.
Qed.

Lemma inv_markBroken r : rel_inv sent got r -> rel_inv sent got (markBroken r).
Proof. intros []; inv_split; auto. Qed.

Lemma inv_resetAck r : rel_inv sent got r -> rel_inv sent got (resetAck r).
Proof. intros []; unfold resetAck; inv_split; auto. Qed.

Lemma inv_disableEagerAck r : rel_inv sent got r -> rel_inv sent got (disableEagerAck r).
Proof. intros []; inv_split; auto. Qed.

Lemma inv_takeAck r : rel_inv sent got r -> rel_inv sent got (takeAck r).1.
Proof. intros []; unfold takeAck; case_if; cbn [fst]; inv_split; auto. Qed.

Lemma inv_rewind r : rel_inv sent got r -> rel_inv sent got (rewindToAcked r).
Proof.
  intros []; unfold rewindToAcked; case_if; cbn [fst]; inv_split; auto.
Qed.

Lemma pending_out_spec r blen :
  rel_inv sent got r -> has_pending r = true -> 0 < blen ->
  let chunk := copied blen (drop (Z.to_nat (sentCursor r)) sent) in
  pending_out r blen
    = Some (set_send (sendOffset r) (ackedOffset r) (sentCursor r + len chunk) (replay r) r,
            sentCursor r, chunk)
  /\ chunk <> []
  /\ len chunk = Z.min blen (sendOffset r - sentCursor r)
  /\ rel_inv sent got
       (set_send (sendOffset r) (ackedOffset r) (sentCursor r + len chunk) (replay r) r).
Proof.
  intros Hinv Hp Hb chunk; pose proof Hinv as Hinv'; destruct Hinv'.
  unfold has_pending in Hp; breflect; destruct (ri_live0 H) as [Hr Hm].
  assert (Hlen : len chunk = Z.min blen (sendOffset r - sentCursor r)).
  { unfold chunk; rewrite len_copied, len_drop; lia. }
  assert (Hc : chunk <> []) by (apply len_pos_iff; lia).
  split; [|split; [exact Hc|split; [exact Hlen|]]].
  - unfold pending_out.
    rewrite u64_id, i64_id by (unfold is_u64, is_i64; lia).
    rewrite slice_from_ok by (rewrite (inv_replay_len r Hinv H); lia).
    rewrite Hr, drop_drop_Z by lia.
    replace (ackedOffset r + (sentCursor r - ackedOffset r)) with (sentCursor r) by lia.
    fold chunk; rewrite u64_id by (unfold is_u64; lia); reflexivity.
  - inv_split; auto.
Qed.

Lemma number_out_spec r data :
  rel_inv sent got r -> len sent + len data < 2 ^ 63 ->
  (number_out r data).2 = len sent
  /\ rel_inv (sent ++ data) got (number_out r data).1
  /\ sentCursor (number_out r data).1 = len sent + len data
  /\ recvOffset (number_out r data).1 = recvOffset r
  /\ (broken (number_out r data).1 = false ->
      broken r = false /\ ackedOffset (number_out r data).1 = ackedOffset r).
Proof.
  intros [] Hmax; unfold number_out; rel_simp.
  rewrite u64_id by (unfold is_u64; len_lia).
  destruct (broken r) eqn:Hb; rel_simp.
  - rewrite ri_send0; split; [reflexivity|].
    split; [inv_split; destruct (ri_dead0 eq_refl); split; (assumption || len_lia)|].
    repeat split; rel_simp; len_lia || congruence.
  - destruct (ri_live0 eq_refl) as [Hr Hm]; case_if; breflect; rel_simp;
      (split; [assumption|]).
    + split; [inv_split; split; [reflexivity|len_lia]|].
      repeat split; rel_simp; len_lia || congruence.
    + assert (Hd : replay r ++ data = drop (Z.to_nat (ackedOffset r)) (sent ++ data)).
      { rewrite Hr, drop_app_le; [reflexivity|]; unfold len in *; lia. }
      split; [inv_split; split; [assumption|rewrite Hd in *; lia]|].
      repeat split; rel_simp; len_lia || congruence.
Qed.

Lemma recvIn_spec e off p :
  rel_inv sent got (ep_rl e) -> 0 <= off ->
  (off <= len got -> off + len p < 2 ^ 63) ->
  let fresh := drop (Z.to_nat (len got - off)) p in
  exists e' err, recvIn e off p = Some (e', err)
  /\ ((len got < off /\ err = Some errReplayGap
       /\ e' = on_rl markBroken e)
      \/ (off <= len got /\ off + len p <= len got /\ err = None /\ e' = e)
      \/ (off <= len got < off + len p /\ p_closed (ep_in e) = true
          /\ err = Some ErrClosedPipe /\ e' = e)
      \/ (off <= len got < off + len p /\ p_closed (ep_in e) = false /\ err = None
          /\ rel_inv sent (got ++ fresh) (ep_rl e')
          /\ ep_rl e' = set_recv (off + len p) (lastAck (ep_rl e)) (ep_rl e)
          /\ (ep_out e' = ep_out e \/ ep_out e' = pipe_interrupt (ep_out e))
          /\ ep_in e' = (pipe_Write (ep_in e) fresh).1.1)).
Proof.
  intros Hinv Hoff Hmax fresh; pose proof Hinv as Hinv'; destruct Hinv'.
  unfold recvIn; rewrite ri_recv0.
  destruct (Z.ltb_spec (len got) off).
  { do 2 eexists; split; [reflexivity|left; auto]. }
  rewrite u64_id by (unfold is_u64; len_lia).
  destruct (Z.leb_spec (off + len p) (len got)).
  { do 2 eexists; split; [reflexivity|right; left; auto]. }
  rewrite u64_id, slice_from_ok by (unfold is_u64; len_lia); fold fresh.
  assert (Hf : len fresh = off + len p - len got)
    by (unfold fresh; rewrite len_drop; lia).
  unfold pipe_Write; destruct (p_closed (ep_in e)) eqn:Hcl.
  { do 2 eexists; split; [reflexivity|right; right; left; auto]. }
  cbn [fst snd].
  do 2 eexists; split; [reflexivity|]; do 3 right.
  rewrite u64_id by (unfold is_u64; len_lia); cbn [ep_rl ep_out ep_in].
  replace (len got + len fresh) with (off + len p) by lia.
  split; [lia|]; split; [reflexivity|]; split; [reflexivity|].
  split; [inv_split; auto|]; split; [reflexivity|].
  split; [case_if; auto|reflexivity].
Qed.

Lemma rel_ack_spec r n :
  rel_inv sent got r -> 0 <= n ->
  exists r' err, rel_ack r n = Some (r', err)
  /\ rel_inv sent got r'
  /\ recvOffset r' = recvOffset r
  /\ ((len sent < n /\ err = Some errBadAck /\ r' = markBroken r)
      \/ (n <= len sent /\ err = None /\ broken r = true /\ r' = r)
      \/ (n <= len sent /\ err = None /\ broken r = false
          /\ r' = set_send (sendOffset r) (Z.max n (ackedOffset r)) (Z.max n (sentCursor r))
                    (drop (Z.to_nat (Z.max n (ackedOffset r))) sent) r)).
Proof.
  intros Hinv Hn; pose proof Hinv as Hinv'; destruct Hinv'; unfold rel_ack.
  rewrite ri_send0; destruct (Z.ltb_spec (len sent) n).
  { do 2 eexists; split; [reflexivity|]; split; [apply inv_markBroken, Hinv|].
    split; [reflexivity|]; left; auto. }
  destruct (broken r) eqn:Hb; cbn [orb].
  { do 2 eexists; split; [reflexivity|]; split; [exact Hinv|]; split; [reflexivity|].
    right; left; auto. }
  destruct (ri_live0 eq_refl) as [Hr Hm].
  destruct (Z.leb_spec n (ackedOffset r)).
  { do 2 eexists; split; [reflexivity|]; split; [exact Hinv|]; split; [reflexivity|].
    right; right; repeat split; auto.
    rewrite !Z.max_r, <- Hr, <- ?ri_send0 by lia; unfold set_send; destruct r; reflexivity. }
  rewrite u64_id, slice_from_ok
    by (rewrite ?(inv_replay_len r Hinv Hb); unfold is_u64; lia).
  rewrite Hr, drop_drop_Z by lia.
  replace (ackedOffset r + (n - ackedOffset r)) with n by lia.
  rewrite Z.max_l by lia.
  replace (if sentCursor r <? n then n else sentCursor r) with (Z.max n (sentCursor r))
    by (destruct (Z.ltb_spec (sentCursor r) n); lia).
  assert (len (drop (Z.to_nat n) sent) <= maxReplay r).
  { rewrite len_drop by len_lia; rewrite (inv_replay_len r Hinv Hb) in Hm; lia. }
  do 2 eexists; split; [reflexivity|]; split; [|split; [reflexivity|right; right; auto]].
  inv_split; auto.
Qed.

Lemma resumeOut_spec r n :
  rel_inv sent got r -> 0 <= n ->
  exists r' ok, resumeOut r n = Some (r', ok)
  /\ rel_inv sent got r'
  /\ recvOffset r' = recvOffset r
  /\ ok = negb (broken r) && (ackedOffset r <=? n) && (n <=? len sent)
  /\ (ok = false -> r' = r)
  /\ (ok = true -> r' = set_send (sendOffset r) n n (drop (Z.to_nat n) sent) r).
Proof.
  intros Hinv Hn; pose proof Hinv as Hinv'; destruct Hinv'; unfold resumeOut.
  rewrite ri_send0; destruct (broken r) eqn:Hb; cbn [orb negb andb].
  { do 2 eexists; split; [reflexivity|]; split_and!; auto; intros; discriminate. }
  destruct (ri_live0 eq_refl) as [Hr Hm].
  destruct (Z.ltb_spec n (ackedOffset r)); cbn [orb].
  { do 2 eexists; split; [reflexivity|]; rewrite (proj2 (Z.leb_gt _ _)) by lia.
    split_and!; auto; intros; discriminate. }
  rewrite (proj2 (Z.leb_le _ _)) by lia.
  destruct (Z.ltb_spec (len sent) n); cbn [andb].
  { do 2 eexists; split; [reflexivity|]; rewrite (proj2 (Z.leb_gt n _)) by lia.
    split_and!; auto; intros; discriminate. }
  rewrite (proj2 (Z.leb_le n _)) by lia.
  rewrite u64_id, slice_from_ok
    by (rewrite ?(inv_replay_len r Hinv Hb); unfold is_u64; lia).
  rewrite Hr, drop_drop_Z by lia.
  replace (ackedOffset r + (n - ackedOffset r)) with n by lia.
  assert (len (drop (Z.to_nat n) sent) <= maxReplay r).
  { rewrite len_drop by len_lia; rewrite (inv_replay_len r Hinv Hb) in Hm; lia. }
  do 2 eexists; split; [reflexivity|]; split; [|split_and!; auto; intros; discriminate].
  inv_split; auto.
Qed.
End Transitions.

Lemma newReliable_maxReplay m : 0 < maxReplay (newReliable m).
Proof. unfold newReliable; cbn; destruct (Z.leb_spec m 0); [reflexivity|assumption]. Qed.

Lemma inv_new m : rel_inv [] [] (newReliable m).
Proof.
  pose proof (newReliable_maxReplay m).
  constructor; auto; cbn; try discriminate; try len_lia.
  intros _; split; [reflexivity|]; cbn in *; len_lia.
Qed.

#[export] Hint Resolve inv_markBroken inv_resetAck inv_takeAck inv_rewind inv_disableEagerAck
  inv_new : pollmux.

(** ** Runs of the layer under an arbitrary peer and application *)

Inductive rel_op : Type :=
| OpWrite (data : list byte)                         (* the application writes to out *)
| OpRead (dst : Z)                                   (* the application reads from in *)
| OpNextOut (blen : Z) (sched : list (list pipe_event))
| OpRecv (off : Z) (p : list byte)
| OpAck (n : Z)
| OpTakeAck
| OpResetAck
| OpResume (n : Z)
| OpRewind
| OpMarkBroken
| OpInterrupt
| OpCloseOut
| OpCloseIn.

Definition rel_apply (e : endpoint) (op : rel_op) : option endpoint :=
  match op with
  | OpWrite d => Some (mk_ep (ep_rl e) (apply_event (ep_out e) (EvWrite d)) (ep_in e))
  | OpRead n => Some (mk_ep (ep_rl e) (ep_out e) (apply_event (ep_in e) (EvRead n)))
  | OpNextOut blen sched =>
      match nextOut e blen sched with Some (e, _, _) => Some e | None => None end
  | OpRecv off p => match recvIn e off p with Some (e, _) => Some e | None => None end
  | OpAck n =>
      match rel_ack (ep_rl e) n with Some (r, _) => Some (on_rl (fun _ => r) e) | None => None end
  | OpTakeAck => Some (on_rl (fun r => (takeAck r).1) e)
  | OpResetAck => Some (on_rl resetAck e)
  | OpResume n =>
      match resumeOut (ep_rl e) n with
      | Some (r, _) => Some (on_rl (fun _ => r) e)
      | None => None
      end
  | OpRewind => Some (on_rl rewindToAcked e)
  | OpMarkBroken => Some (on_rl markBroken e)
  | OpInterrupt => Some (interruptOut e)
  | OpCloseOut => Some (mk_ep (ep_rl e) (pipe_Close (ep_out e)) (ep_in e))
  | OpCloseIn => Some (mk_ep (ep_rl e) (ep_out e) (pipe_Close (ep_in e)))
  end.

Fixpoint rel_run (e : endpoint) (ops : list rel_op) : option endpoint :=
  match ops with
  | [] => Some e
  | op :: ops => match rel_apply e op with Some e => rel_run e ops | None => None end
  end.

(** The bytes an operation brings in. *)
Definition event_volume (ev : pipe_event) : Z :=
  match ev with EvWrite d => len d | _ => 0 end.
Definition events_volume (evs : list pipe_event) : Z :=
  foldr (fun ev n => event_volume ev + n) 0 evs.
Definition op_volume (op : rel_op) : Z :=
  match op with
  | OpWrite d => len d
  | OpNextOut _ sched => events_volume (concat sched)
  | OpRecv _ p => len p
  | _ => 0
  end.
Definition volume (ops : list rel_op) : Z := foldr (fun op n => op_volume op + n) 0 ops.

(** Offsets on the wire and buffer sizes are not negative. *)
Definition op_ok (op : rel_op) : Prop :=
  match op with
  | OpNextOut blen _ => 0 < blen
  | OpRecv off _ => 0 <= off
  | OpAck n => 0 <= n
  | OpResume n => 0 <= n
  | _ => True
  end.

(** nextOut is the only reader of the layer's out pipe. *)
Definition op_alone (op : rel_op) : Prop :=
  match op with OpNextOut _ sched => no_rival (concat sched) | _ => True end.

(** The bytes the out pipe accepts from the application during an operation,
    those of the writes nextOut waits through included, and the bytes the
    application reads from the in pipe. *)
Definition op_written (e : endpoint) (op : rel_op) : list byte :=
  match op with
  | OpWrite d => accepted (ep_out e) [EvWrite d]
  | OpNextOut blen sched =>
      if has_pending (ep_rl e) then [] else accepted (ep_out e) (waited (ep_out e) blen sched)
  | _ => []
  end.
Definition op_read (e : endpoint) (op : rel_op) : list byte :=
  match op with OpRead n => gets (event_labels (ep_in e) (EvRead n)) | _ => [] end.

(** An observation of every operation of a run. *)
Fixpoint rel_observed (obs : endpoint -> rel_op -> list byte) (e : endpoint) (ops : list rel_op)
    : list byte :=
  match ops with
  | [] => []
  | op :: ops =>
      obs e op ++ match rel_apply e op with Some e => rel_observed obs e ops | None => [] end
  end.

Lemma events_volume_cons ev evs :
  events_volume (ev :: evs) = event_volume ev + events_volume evs.
Proof. reflexivity. Qed.

Lemma volume_cons op ops : volume (op :: ops) = op_volume op + volume ops.
Proof. reflexivity. Qed.

Lemma events_volume_app evs evs' :
  events_volume (evs ++ evs') = events_volume evs + events_volume evs'.
Proof.
  induction evs as [|ev evs IH]; [reflexivity|].
  cbn [app]; rewrite !events_volume_cons, IH; lia.
Qed.

Lemma event_volume_nonneg ev : 0 <= event_volume ev.
Proof. destruct ev; cbn; len_lia. Qed.

Lemma events_volume_nonneg evs : 0 <= events_volume evs.
Proof.
  induction evs as [|ev evs IH]; [reflexivity|].
  rewrite events_volume_cons; pose proof (event_volume_nonneg ev); lia.
Qed.

Lemma op_volume_nonneg op : 0 <= op_volume op.
Proof. destruct op; cbn; try len_lia; apply events_volume_nonneg. Qed.

Lemma volume_nonneg ops : 0 <= volume ops.
Proof.
  induction ops as [|op ops IH]; [reflexivity|].
  rewrite volume_cons; pose proof (op_volume_nonneg op); lia.
Qed.

Lemma apply_event_volume p ev :
  len (p_buf (apply_event p ev)) <= len (p_buf p) + event_volume ev.
Proof.
  destruct ev as [d| | |dst|]; cbn; try lia.
  - unfold pipe_Write; case_if; cbn; len_lia.
  - unfold pipe_Read; destruct (p_buf p) as [|b l] eqn:Hb; [case_if; cbn; rewrite ?Hb; len_lia|].
    cbn; unfold uncopied, len; rewrite length_drop; lia.
Qed.

Lemma run_events_volume evs :
  forall p, len (p_buf (run_events p evs)) <= len (p_buf p) + events_volume evs.
Proof.
  induction evs as [|ev evs IH]; intros p; [cbn; lia|].
  rewrite run_events_cons, events_volume_cons; pose proof (IH (apply_event p ev)).
  pose proof (apply_event_volume p ev); lia.
Qed.

Lemma ReadAvailable_volume p dst sched :
  0 < dst ->
  match (ReadAvailable p dst sched).1 with
  | (p', Ok d) => len d + len (p_buf p') <= len (p_buf p) + events_volume (concat sched)
  | (p', Fail _) => len (p_buf p') <= len (p_buf p) + events_volume (concat sched)
  end.
Proof.
  intros Hd; destruct (ReadAvailable_unfolds p dst sched) as (used & p1 & Hs & -> & Hr).
  pose proof (run_events_volume (concat used) p) as Hv.
  assert (events_volume (concat used) <= events_volume (concat sched)).
  { rewrite Hs at 1; rewrite concat_app, events_volume_app.
    pose proof (events_volume_nonneg (concat (ReadAvailable p dst sched).2)); lia. }
  set (p1 := run_events p (concat used)) in *.
  destruct (ReadAvailable p dst sched) as [[p' r] rest]; cbn [fst snd] in *.
  unfold ra_result in Hr; destruct Hr as [[E H']|[[E H']|[[E H']|E]]]; injection E as -> ->;
    cbn; try len_lia.
  rewrite <- (copied_uncopied dst (p_buf p1)) in Hv at 1; rewrite len_app in Hv; lia.
Qed.

(** The invariant of an endpoint that has been fed at most [V] bytes. *)
Definition ep_inv (V : Z) (e : endpoint) : Prop :=
  exists sent got, rel_inv sent got (ep_rl e)
    /\ len sent + len (p_buf (ep_out e)) <= V /\ len got <= V.

Lemma ep_inv_rl V e r out inp :
  ep_inv V e ->
  (forall sent got, rel_inv sent got (ep_rl e) -> rel_inv sent got r) ->
  len (p_buf out) <= len (p_buf (ep_out e)) ->
  ep_inv V (mk_ep r out inp).
Proof.
  intros (sent & got & Hr & H1 & H2) Hstep Hout; exists sent, got; cbn.
  split; [apply Hstep, Hr|]; lia.
Qed.

Lemma ep_inv_weaken V V' e : ep_inv V e -> V <= V' -> ep_inv V' e.
Proof. intros (sent & got & Hr & H1 & H2) Hle; exists sent, got; split; [exact Hr|lia]. Qed.

Lemma nextOut_inv V e blen sched :
  ep_inv V e -> 0 < blen -> V + events_volume (concat sched) < 2 ^ 63 ->
  exists e' r rest, nextOut e blen sched = Some (e', r, rest)
    /\ ep_inv (V + events_volume (concat sched)) e'.
Proof.
  intros Hinv Hb Hmax; pose proof (events_volume_nonneg (concat sched)).
  unfold nextOut; destruct (has_pending (ep_rl e)) eqn:Hp.
  - destruct Hinv as (sent & got & Hr & H1 & H2).
    destruct (pending_out_spec sent got _ _ Hr Hp Hb) as (-> & _ & _ & Hr').
    do 3 eexists; split; [reflexivity|]; exists sent, got; split; [exact Hr'|cbn; lia].
  - pose proof (ReadAvailable_volume (ep_out e) blen sched Hb) as Hv.
    destruct (ReadAvailable (ep_out e) blen sched) as [[out [d|err]] rest]; cbn [fst] in Hv.
    + destruct Hinv as (sent & got & Hr & H1 & H2).
      destruct d as [|b d].
      { do 3 eexists; split; [reflexivity|]; exists sent, got; split; [exact Hr|cbn; len_lia]. }
      destruct (number_out_spec sent got _ (b :: d) Hr) as (_ & Hr' & _); [len_lia|].
      destruct (number_out (ep_rl e) (b :: d)) as [r off].
      do 3 eexists; split; [reflexivity|].
      exists (sent ++ b :: d), got; cbn [ep_rl ep_out]; split; [exact Hr'|].
      rewrite len_app; lia.
    + destruct Hinv as (sent & got & Hr & H1 & H2).
      do 3 eexists; split; [reflexivity|]; exists sent, got; split; [exact Hr|cbn; lia].
Qed.

Lemma recvIn_inv V e off p :
  ep_inv V e -> 0 <= off -> V + len p < 2 ^ 63 ->
  exists e' err, recvIn e off p = Some (e', err) /\ ep_inv (V + len p) e'.
Proof.
  intros Hinv Ho Hmax; pose proof Hinv as (sent & got & Hr & H1 & H2).
  destruct (recvIn_spec sent got e off p Hr Ho) as (e' & err & E & Hcase); [len_lia|].
  exists e', err; split; [exact E|]; pose proof (len_nonneg p).
  destruct Hcase as [(_ & _ & ->)|[(_ & _ & _ & ->)|[(_ & _ & _ & ->)|(Ho' & _ & _ & Hr' & _ & Hout & _)]]];
    try (eapply ep_inv_weaken; [exact Hinv|lia]).
  - exists sent, got; cbn; split; [apply inv_markBroken, Hr|lia].
  - exists sent; eexists; split; [exact Hr'|].
    split; [destruct Hout as [->| ->]; cbn; lia|].
    rewrite len_app, len_drop; lia.
Qed.

Lemma rel_apply_inv V e op :
  ep_inv V e -> op_ok op -> V + op_volume op < 2 ^ 63 ->
  exists e', rel_apply e op = Some e' /\ ep_inv (V + op_volume op) e'.
Proof.
  intros Hinv Hok Hmax; destruct op; cbn [rel_apply op_volume op_ok] in *;
    rewrite ?Z.add_0_r in *.
  - eexists; split; [reflexivity|].
    destruct Hinv as (sent & got & Hr & H1 & H2); exists sent, got; split; [exact Hr|].
    pose proof (apply_event_volume (ep_out e) (EvWrite data)); cbn in *; len_lia.
  - eexists; split; [reflexivity|]; eapply ep_inv_rl; eauto; lia.
  - destruct (nextOut_inv V e blen sched Hinv Hok Hmax) as (e' & r & rest & -> & H); eauto.
  - destruct (recvIn_inv V e off p Hinv Hok Hmax) as (e' & err & -> & H); eauto.
  - pose proof Hinv as (sent & got & Hr & H1 & H2).
    destruct (rel_ack_spec sent got _ n Hr Hok) as (r & err & -> & Hr' & _).
    eexists; split; [reflexivity|]; exists sent, got; auto.
  - eexists; split; [reflexivity|]; eapply ep_inv_rl; eauto with pollmux; lia.
  - eexists; split; [reflexivity|]; eapply ep_inv_rl; eauto with pollmux; lia.
  - pose proof Hinv as (sent & got & Hr & H1 & H2).
    destruct (resumeOut_spec sent got _ n Hr Hok) as (r & ok & -> & Hr' & _).
    eexists; split; [reflexivity|]; exists sent, got; auto.
  - eexists; split; [reflexivity|]; eapply ep_inv_rl; eauto with pollmux; lia.
  - eexists; split; [reflexivity|]; eapply ep_inv_rl; eauto with pollmux; lia.
  - eexists; split; [reflexivity|]; eapply ep_inv_rl; eauto; cbn; lia.
  - eexists; split; [reflexivity|]; eapply ep_inv_rl; eauto; cbn; lia.
  - eexists; split; [reflexivity|]; eapply ep_inv_rl; eauto; cbn; lia.
Qed.

Lemma rel_run_inv ops :
  forall V e, ep_inv V e -> Forall op_ok ops -> V + volume ops < 2 ^ 63 ->
  exists e', rel_run e ops = Some e' /\ ep_inv (V + volume ops) e'.
Proof.
  induction ops as [|op ops IH]; intros V e Hinv Hok Hmax.
  - exists e; cbn; rewrite Z.add_0_r; auto.
  - rewrite volume_cons in *; inversion Hok as [|? ? Ho Hos]; subst.
    pose proof (volume_nonneg ops).
    destruct (rel_apply_inv V e op Hinv Ho ltac:(lia)) as (e1 & E1 & H1).
    destruct (IH (V + op_volume op) e1 H1 Hos ltac:(lia)) as (e2 & E2 & H2).
    exists e2; cbn [rel_run]; rewrite E1, Z.add_assoc; auto.
Qed.

(** The same with the bytes: [written] is what the out pipe has accepted and
    [read] what the application has read from in. *)
Definition ep_bytes (V : Z) (written read : list byte) (e : endpoint) : Prop :=
  exists sent got, rel_inv sent got (ep_rl e)
    /\ sent ++ p_buf (ep_out e) = written /\ read ++ p_buf (ep_in e) = got
    /\ len written <= V /\ len got <= V.

Lemma ep_bytes_rl V written read e r out inp :
  ep_bytes V written read e ->
  (forall sent got, rel_inv sent got (ep_rl e) -> rel_inv sent got r) ->
  p_buf out = p_buf (ep_out e) -> p_buf inp = p_buf (ep_in e) ->
  ep_bytes V written read (mk_ep r out inp).
Proof.
  intros (sent & got & Hr & Hw & Hg & H1 & H2) Hstep Ho Hi; exists sent, got; cbn.
  rewrite Ho, Hi; split; [apply Hstep, Hr|auto].
Qed.

Lemma write_bytes p d :
  p_buf (apply_event p (EvWrite d)) = p_buf p ++ accepted p [EvWrite d]
  /\ len (accepted p [EvWrite d]) <= len d.
Proof.
  unfold accepted, puts; cbn; unfold pipe_Write; destruct (p_closed p); cbn;
    rewrite ?app_nil_r; split; auto; len_lia.
Qed.

Lemma read_bytes p n :
  gets (event_labels p (EvRead n)) ++ p_buf (apply_event p (EvRead n)) = p_buf p.
Proof.
  unfold gets; cbn; unfold pipe_Read; destruct (p_buf p) as [|b l] eqn:Hb.
  - destruct (p_closed p); cbn; exact Hb.
  - cbn; rewrite app_nil_r; apply copied_uncopied.
Qed.

Lemma accepted_volume evs : forall p, len (accepted p evs) <= events_volume evs.
Proof.
  induction evs as [|ev evs IH]; intros p; [reflexivity|].
  rewrite accepted_cons, events_volume_cons, len_app; specialize (IH (apply_event p ev)).
  enough (len (accepted p [ev]) <= event_volume ev) by lia.
  destruct ev; try apply write_bytes; cbn; try (destruct (pipe_Read _ _) as [[? []]|]); reflexivity.
Qed.

Lemma waited_volume p blen sched :
  events_volume (waited p blen sched) <= events_volume (concat sched).
Proof.
  unfold waited; set (k := (_ - _)%nat).
  rewrite <- (take_drop k sched) at 2; rewrite concat_app, events_volume_app.
  pose proof (events_volume_nonneg (concat (drop k sched))); lia.
Qed.

Lemma nextOut_bytes V written read e blen sched :
  ep_bytes V written read e -> op_ok (OpNextOut blen sched) -> no_rival (concat sched) ->
  V + events_volume (concat sched) < 2 ^ 63 ->
  exists e' r rest, nextOut e blen sched = Some (e', r, rest)
    /\ ep_bytes (V + events_volume (concat sched))
         (written ++ op_written e (OpNextOut blen sched)) read e'.
Proof.
  intros (sent & got & Hr & <- & <- & H1 & H2) Hb Hn Hmax; cbn in Hb.
  pose proof (events_volume_nonneg (concat sched)); cbn [op_written].
  unfold nextOut; destruct (has_pending (ep_rl e)) eqn:Hp.
  - destruct (pending_out_spec _ _ _ _ Hr Hp Hb) as (-> & _ & _ & Hr').
    do 3 eexists; split; [reflexivity|]; eexists _, _; split; [exact Hr'|]; cbn.
    rewrite app_nil_r; split_and!; auto; lia.
  - destruct (ReadAvailable (ep_out e) blen sched) as [[out r] rest] eqn:E.
    pose proof (read_conserves _ _ _ _ _ _ Hn E) as Hc.
    pose proof (accepted_volume (waited (ep_out e) blen sched) (ep_out e)) as Hv.
    pose proof (waited_volume (ep_out e) blen sched) as Hv'.
    rewrite <- app_assoc, Hc.
    assert (Hlen : len (sent ++ outcome_data r ++ p_buf out) <= V + events_volume (concat sched))
      by (rewrite <- Hc, app_assoc, len_app; lia).
    destruct r as [[|b d]|err]; cbn [outcome_data app] in *;
      try (do 3 eexists; split; [reflexivity|]; eexists _, _; split; [exact Hr|];
           split_and!; auto; lia).
    destruct (number_out_spec _ _ _ (b :: d) Hr) as (_ & Hr' & _);
      [rewrite !len_app in Hlen; pose proof (len_nonneg (p_buf out)); rewrite app_comm_cons, len_app in Hlen; lia|].
    destruct (number_out (ep_rl e) (b :: d)) as [r off].
    do 3 eexists; split; [reflexivity|]; eexists _, _; split; [exact Hr'|]; cbn [ep_out ep_in].
    rewrite <- app_assoc; split_and!; auto; lia.
Qed.

Lemma recvIn_bytes V written read e off p :
  ep_bytes V written read e -> 0 <= off -> V + len p < 2 ^ 63 ->
  exists e' err, recvIn e off p = Some (e', err) /\ ep_bytes (V + len p) written read e'.
Proof.
  intros (sent & got & Hr & Hw & Hg & H1 & H2) Ho Hmax; pose proof (len_nonneg p).
  destruct (recvIn_spec sent got e off p Hr Ho) as (e' & err & E & Hcase); [len_lia|].
  exists e', err; split; [exact E|].
  destruct Hcase as [(_ & _ & ->)|[(_ & _ & _ & ->)|[(_ & _ & _ & ->)|
    (Ho' & Hcl & _ & Hr' & _ & Hout & Hin)]]];
    try (exists sent, got; split_and!; auto; lia).
  - exists sent, got; cbn; split_and!; auto; [apply inv_markBroken, Hr|lia..].
  - exists sent; eexists; split; [exact Hr'|]; split_and!.
    + destruct Hout as [->| ->]; exact Hw.
    + rewrite Hin; unfold pipe_Write; rewrite Hcl; cbn; rewrite app_assoc, Hg; reflexivity.
    + lia.
    + rewrite len_app, len_drop; lia.
Qed.

Lemma rel_apply_bytes V written read e op :
  ep_bytes V written read e -> op_ok op -> op_alone op -> V + op_volume op < 2 ^ 63 ->
  exists e', rel_apply e op = Some e'
    /\ ep_bytes (V + op_volume op) (written ++ op_written e op) (read ++ op_read e op) e'.
Proof.
  intros Hinv Hok Ha Hmax; destruct op; cbn [rel_apply op_volume op_written op_read op_alone] in *;
    rewrite ?Z.add_0_r, ?app_nil_r in *;
    try (eexists; split; [reflexivity|]; eapply ep_bytes_rl; eauto with pollmux; reflexivity).
  - destruct Hinv as (sent & got & Hr & <- & <- & H1 & H2); eexists; split; [reflexivity|].
    destruct (write_bytes (ep_out e) data) as [Hb Hl].
    exists sent; eexists; split; [exact Hr|]; cbn [ep_out ep_in]; rewrite Hb.
    split_and!; [apply app_assoc|reflexivity|rewrite len_app; lia|pose proof (len_nonneg data); lia].
  - destruct Hinv as (sent & got & Hr & <- & <- & H1 & H2); eexists; split; [reflexivity|].
    exists sent; eexists; split; [exact Hr|]; cbn [ep_out ep_in].
    rewrite <- app_assoc, read_bytes; auto.
  - destruct (nextOut_bytes V written read e blen sched Hinv Hok Ha Hmax) as (e' & r & rest & -> & H); eauto.
  - destruct (recvIn_bytes V written read e off p Hinv Hok Hmax) as (e' & err & -> & H); eauto.
  - pose proof Hinv as (sent & got & Hr & H1 & H2).
    destruct (rel_ack_spec sent got _ n Hr Hok) as (r & err & -> & Hr' & _).
    eexists; split; [reflexivity|]; exists sent, got; auto.
  - pose proof Hinv as (sent & got & Hr & H1 & H2).
    destruct (resumeOut_spec sent got _ n Hr Hok) as (r & ok & -> & Hr' & _).
    eexists; split; [reflexivity|]; exists sent, got; auto.
Qed.

Lemma rel_run_bytes ops :
  forall V written read e, ep_bytes V written read e -> Forall op_ok ops -> Forall op_alone ops ->
  V + volume ops < 2 ^ 63 ->
  exists e', rel_run e ops = Some e'
    /\ ep_bytes (V + volume ops) (written ++ rel_observed op_written e ops)
         (read ++ rel_observed op_read e ops) e'.
Proof.
  induction ops as [|op ops IH]; intros V written read e Hinv Hok Hal Hmax.
  - exists e; cbn; rewrite Z.add_0_r, !app_nil_r; auto.
  - rewrite volume_cons in *; inversion Hok as [|? ? Ho Hos]; inversion Hal as [|? ? Ha Has]; subst.
    pose proof (volume_nonneg ops).
    destruct (rel_apply_bytes V written read e op Hinv Ho Ha ltac:(lia)) as (e1 & E1 & H1).
    destruct (IH _ _ _ e1 H1 Hos Has ltac:(lia)) as (e2 & E2 & H2).
    exists e2; cbn [rel_run rel_observed]; rewrite E1, Z.add_assoc, !app_assoc; auto.
Qed.

Lemma rel_apply_broken e op e' :
  rel_apply e op = Some e' -> broken (ep_rl e) = true -> broken (ep_rl e') = true.
Proof.
  intros E Hb; destruct op; cbn [rel_apply] in E; try (injection E as <-; cbn; auto; fail).
  - unfold nextOut, has_pending in E; rewrite Hb in E; cbn [negb andb] in E.
    destruct (ReadAvailable (ep_out e) blen sched) as [[out [[|b d]|err]] rest];
      try (injection E as <-; exact Hb).
    unfold number_out in E; cbn in E; rewrite Hb in E; cbn in E; injection E as <-; exact Hb.
  - unfold recvIn in E; repeat case_if_in E; try (injection E as <-; auto; fail).
    destruct (slice_from p _); [|discriminate].
    destruct (pipe_Write (ep_in e) l) as [[inp [n|err]] w]; injection E as <-; exact Hb.
  - unfold rel_ack in E; rewrite Hb in E; case_if_in E; cbn in E; injection E as <-; auto.
  - injection E as <-; cbn; unfold takeAck; case_if; exact Hb.
  - unfold resumeOut in E; rewrite Hb in E; cbn in E; injection E as <-; exact Hb.
  - injection E as <-; cbn; unfold rewindToAcked; rewrite Hb; exact Hb.
Qed.

Lemma rel_run_broken ops :
  forall e e', rel_run e ops = Some e' -> broken (ep_rl e) = true -> broken (ep_rl e') = true.
Proof.
  induction ops as [|op ops IH]; intros e e' E Hb; cbn in E; [injection E as <-; exact Hb|].
  destruct (rel_apply e op) as [e1|] eqn:E1; [|discriminate].
  eapply IH; [exact E|]; eapply rel_apply_broken; eauto.
Qed.

(** ** Draining the replay buffer *)

(** Up to [k] nextOut calls, as long as replay is pending. *)
Fixpoint drain (k : nat) (e : endpoint) (blen : Z) : list (Z * list byte) * endpoint :=
  match k with
  | O => ([], e)
  | S k =>
      if has_pending (ep_rl e) then
        match nextOut e blen [] with
        | Some (e, Ok oc, _) => let '(l, e) := drain k e blen in (oc :: l, e)
        | _ => ([], e)
        end
      else ([], e)
  end.

(** Numbered chunks that follow one another from offset [off]. *)
Fixpoint contiguous (off : Z) (l : list (Z * list byte)) : Prop :=
  match l with
  | [] => True
  | (o, d) :: l => o = off /\ contiguous (off + len d) l
  end.

Lemma drain_spec sent got blen k :
  forall e, rel_inv sent got (ep_rl e) -> broken (ep_rl e) = false -> 0 < blen ->
  (Z.to_nat (sendOffset (ep_rl e) - sentCursor (ep_rl e)) <= k)%nat ->
  concat (map snd (drain k e blen).1) = drop (Z.to_nat (sentCursor (ep_rl e))) sent
  /\ contiguous (sentCursor (ep_rl e)) (drain k e blen).1
  /\ Forall (fun oc => len oc.2 <= blen) (drain k e blen).1
  /\ rel_inv sent got (ep_rl (drain k e blen).2)
  /\ broken (ep_rl (drain k e blen).2) = false
  /\ has_pending (ep_rl (drain k e blen).2) = false
  /\ ep_out (drain k e blen).2 = ep_out e.
Proof.
  induction k as [|k IH]; intros e Hr Hb Hl Hk; pose proof Hr as Hr'; destruct Hr'.
  - assert (Hc : sentCursor (ep_rl e) = len sent) by lia.
    cbn [drain fst snd]; split_and!; cbn; auto.
    + rewrite Hc, drop_ge by (unfold len; lia); reflexivity.
    + unfold has_pending; rewrite Hc, <- ri_send0, Z.ltb_irrefl, andb_false_r; reflexivity.
  - cbn [drain]; destruct (has_pending (ep_rl e)) eqn:Hp.
    + destruct (pending_out_spec sent got _ blen Hr Hp Hl) as (E & Hc & Hlen & Hr1).
      unfold nextOut; rewrite Hp, E.
      set (chunk := copied blen (drop (Z.to_nat (sentCursor (ep_rl e))) sent)) in *.
      set (e1 := mk_ep _ _ _).
      pose proof Hp as Hp'; unfold has_pending in Hp'; breflect.
      destruct (IH e1 Hr1 Hb Hl) as (H1 & H2 & H3 & H4 & H5 & H6 & H7).
      { cbn; apply len_pos_iff in Hc; lia. }
      destruct (drain k e1 blen) as [l e2]; cbn [fst snd map concat contiguous] in *.
      split_and!; auto; [|constructor; [cbn [snd]; lia|exact H3]].
      rewrite H1; cbn [ep_rl sentCursor e1 set_send].
      unfold chunk at 1; rewrite <- drop_drop_Z by (apply len_pos_iff in Hc; lia).
      rewrite <- (copied_uncopied blen (drop (Z.to_nat (sentCursor (ep_rl e))) sent)) at 3.
      fold chunk; f_equal; unfold uncopied.
      destruct (Z.le_gt_cases blen (sendOffset (ep_rl e) - sentCursor (ep_rl e))).
      * f_equal; f_equal; lia.
      * rewrite !drop_ge; auto; unfold len in *; rewrite length_drop; lia.
    + unfold has_pending in Hp; rewrite Hb in Hp; cbn in Hp; breflect.
      assert (Hc : sentCursor (ep_rl e) = len sent) by lia.
      cbn [fst snd]; split_and!; cbn; auto.
      * rewrite Hc, drop_ge by (unfold len; lia); reflexivity.
      * unfold has_pending; rewrite Hb; cbn; apply Z.ltb_ge; exact Hp.
Qed.

(** ** Properties *)


(** Losing resumability is final: once the layer is broken it stays
    broken through every later operation, retains nothing and refuses every
    resume. *)
Theorem broken_is_final e ops e' n :
  broken (ep_rl e) = true -> rel_run e ops = Some e' ->
  isBroken (ep_rl e') = true
  /\ resumeOut (ep_rl e') n = Some (ep_rl e', false)
  /\ (forall sent got, rel_inv sent got (ep_rl e') -> unacked (ep_rl e') = 0).
Proof.
  intros Hb E; pose proof (rel_run_broken ops e e' E Hb) as Hb'.
  split; [exact Hb'|]; split; [unfold resumeOut; rewrite Hb'; reflexivity|].
  intros sent got []; unfold unacked; destruct (ri_dead0 Hb') as [-> _]; reflexivity.
Qed.

(** A resume is accepted exactly for offsets in [ackedOffset, sendOffset]
    of an unbroken layer, and then the next nextOut calls resend exactly the
    bytes from the peer's offset on, with their absolute offsets, in chunks
    that fit the buffer, without touching the application's queue. *)
Theorem resume_replays_exactly sent got e n blen k :
  rel_inv sent got (ep_rl e) -> 0 <= n -> 0 < blen -> len sent - n <= Z.of_nat k ->
  exists r ok, resumeOut (ep_rl e) n = Some (r, ok)
  /\ (ok = true <-> isBroken (ep_rl e) = false /\ ackedOffset (ep_rl e) <= n <= sendOffset (ep_rl e))
  /\ (ok = false -> r = ep_rl e)
  /\ (ok = true ->
      let '(chunks, e') := drain k (on_rl (fun _ => r) e) blen in
      contiguous n chunks
      /\ concat (map snd chunks) = drop (Z.to_nat n) sent
      /\ Forall (fun oc => len oc.2 <= blen) chunks
      /\ has_pending (ep_rl e') = false /\ ep_out e' = ep_out e).
Proof.
  intros Hr Hn Hl Hk.
  destruct (resumeOut_spec sent got _ n Hr Hn) as (r & ok & E & Hr' & _ & Hok & Hf & Ht).
  exists r, ok; split; [exact E|]; split_and!; auto.
  - destruct Hr; unfold isBroken; rewrite Hok, ri_send0, !andb_true_iff, negb_true_iff,
      !Z.leb_le; tauto.
  - intros Hyes; specialize (Ht Hyes).
    assert (Hb : broken r = false).
    { rewrite Ht; cbn; rewrite Hyes in Hok; symmetry in Hok; breflect; assumption. }
    pose proof (drain_spec sent got blen k (on_rl (fun _ => r) e) Hr' Hb Hl) as Hd.
    assert (Hc : sentCursor r = n /\ sendOffset r = len sent)
      by (destruct Hr; rewrite Ht; cbn; auto).
    destruct Hc as [Hc Hs]; cbn [on_rl ep_rl] in Hd; rewrite Hc, Hs in Hd.
    specialize (Hd ltac:(lia)); destruct (drain k _ blen) as [chunks e'];
      cbn [fst snd] in Hd; tauto.
Qed.

(** RecvIn delivers each byte once and in order: data that starts past the
    contiguous offset is refused as a gap and breaks the layer, data already
    received is dropped without a trace, an overlap contributes exactly its
    new suffix, and a closed pipe refuses without moving the offset. *)
Theorem recvIn_exactly_once sent got e off p :
  rel_inv sent got (ep_rl e) -> 0 <= off -> (off <= len got -> off + len p < 2 ^ 63) ->
  exists e' err, recvIn e off p = Some (e', err)
  /\ if len got <? off then err = Some errReplayGap /\ isBroken (ep_rl e') = true
                            /\ ep_in e' = ep_in e
     else if off + len p <=? len got then err = None /\ e' = e
     else if p_closed (ep_in e) then err = Some ErrClosedPipe /\ e' = e
     else err = None
          /\ recvOffsetNow (ep_rl e') = off + len p
          /\ p_buf (ep_in e') = p_buf (ep_in e) ++ drop (Z.to_nat (len got - off)) p
          /\ rel_inv sent (got ++ drop (Z.to_nat (len got - off)) p) (ep_rl e').
Proof.
  intros Hr Ho Hmax.
  destruct (recvIn_spec sent got e off p Hr Ho Hmax) as (e' & err & E & Hcase).
  exists e', err; split; [exact E|].
  destruct (Z.ltb_spec (len got) off), (Z.leb_spec (off + len p) (len got)),
    (p_closed (ep_in e)) eqn:Hcl;
  destruct Hcase as [(H1 & -> & ->)|[(H1 & H2 & -> & ->)|[(H1 & H2 & -> & ->)|
    (H1 & H2 & -> & Hr' & Hrl & _ & Hin)]]]; try lia; try congruence; auto;
  (split; [reflexivity|]; rewrite Hrl in *; split; [reflexivity|]; split; [|exact Hr'];
   rewrite Hin; unfold pipe_Write; rewrite Hcl; reflexivity).
Qed.

(** ** Witnesses *)

Definition ex_rel_ops : list rel_op :=
  [OpWrite [Byte.x41; Byte.x42]; OpNextOut 8 []; OpRecv 0 [Byte.x43]; OpAck 1; OpResume 1;
   OpNextOut 8 []; OpRecv 7 [Byte.x44]; OpTakeAck].


Definition ex_broken : endpoint := on_rl markBroken (new_endpoint 16).

Lemma broken_is_final_witness :
  isBroken (ep_rl ex_broken) = true
  /\ resumeOut (ep_rl ex_broken) 0 = Some (ep_rl ex_broken, false)
  /\ (forall sent got, rel_inv sent got (ep_rl ex_broken) -> unacked (ep_rl ex_broken) = 0).
Proof. apply (broken_is_final ex_broken [OpRewind; OpAck 0; OpResume 0]); reflexivity. Defined.

(** Three bytes sent, the first one acknowledged. *)
Definition ex_sent : list byte := [Byte.x41; Byte.x42; Byte.x43].
Definition ex_layer : reliable := mk_reliable 3 1 3 [Byte.x42; Byte.x43] 16 false 0 0 0.
Definition ex_ep : endpoint := mk_ep ex_layer NewBufferedPipe NewBufferedPipe.

Lemma ex_layer_inv : rel_inv ex_sent [] ex_layer.
Proof.
  constructor; cbn; try lia; try reflexivity; intros; try discriminate.
  split; [reflexivity|vm_compute; congruence].
Qed.

Lemma resume_replays_exactly_witness :
  exists r ok, resumeOut ex_layer 2 = Some (r, ok)
  /\ (ok = true <-> isBroken ex_layer = false /\ 1 <= 2 <= 3)
  /\ (ok = false -> r = ex_layer)
  /\ (ok = true ->
      let '(chunks, e') := drain 1 (on_rl (fun _ => r) ex_ep) 4 in
      contiguous 2 chunks
      /\ concat (map snd chunks) = [Byte.x43]
      /\ Forall (fun oc => len oc.2 <= 4) chunks
      /\ has_pending (ep_rl e') = false /\ ep_out e' = NewBufferedPipe).
Proof.
  apply (resume_replays_exactly ex_sent [] ex_ep 2 4 1 ex_layer_inv); vm_compute; congruence.
Defined.

Lemma recvIn_exactly_once_witness :
  exists e' err, recvIn ex_ep 0 [Byte.x44] = Some (e', err)
  /\ err = None /\ recvOffsetNow (ep_rl e') = 1
  /\ p_buf (ep_in e') = [Byte.x44] /\ rel_inv ex_sent [Byte.x44] (ep_rl e').
Proof.
  apply (recvIn_exactly_once ex_sent [] ex_ep 0 [Byte.x44] ex_layer_inv); vm_compute; congruence.
Defined.
