(* ===== verification/Channel.v ===== *)
(** * Channel.v: two byte layers and the network between them

    The end-to-end contract of the resumable transport.  Two endpoints run the
    operations of Reliable.v; whatever one of them ever put on the wire (data
    frames, acknowledgements, the offsets of a resume handshake) may reach the
    other any number of times, in any order, or never.  Each step is one
    critical section of the code, so the interleavings of the two directions,
    of application reads and writes, and of a nextOut caught between taking
    bytes from the pipe and numbering them, are all runs of the system. *)

From S2P Require Import Prelude Pipe Protocol Reliable.

(** ** The system *)

Inductive packet : Type :=
| PData (off : Z) (data : list byte)   (* frameSeqData, a batch body, a WebSocket message *)
| PAck (n : Z)                         (* frameAck, X-Recv-Offset *)
| PResume (n : Z).                     (* recv_offset of a resume request or response *)

(** One end: the layer, the bytes of a nextOut call not numbered yet, and the
    history of the application's writes and reads and of the two streams. *)
Record side := mk_side {
  sd_ep : endpoint;
  sd_taken : list byte;
  sd_written : list byte;   (* accepted by Write on out *)
  sd_read : list byte;      (* returned by Read on in *)
  sd_sent : list byte;      (* numbered so far *)
  sd_got : list byte;       (* written to in so far *)
}.

Definition new_side (m : Z) : side := mk_side (new_endpoint m) [] [] [] [] [].

Definition rl (x : side) : reliable := ep_rl (sd_ep x).

Definition with_ep (e : endpoint) (x : side) : side :=
  mk_side e (sd_taken x) (sd_written x) (sd_read x) (sd_sent x) (sd_got x).
Definition with_rl (r : reliable) (x : side) : side := with_ep (on_rl (fun _ => r) (sd_ep x)) x.

(** The bytes a recvIn call adds to the received stream. *)
Definition recv_gain (e e' : endpoint) (off : Z) (p : list byte) : list byte :=
  if recvOffset (ep_rl e) <? recvOffset (ep_rl e')
  then drop (Z.to_nat (recvOffset (ep_rl e) - off)) p else [].

(** The steps of one end, given what the other has put on the wire: the new
    state and what this end puts on the wire. *)
Inductive side_step (wire : list packet) (x : side) : side -> list packet -> Prop :=
| st_write d out n warned :
    pipe_Write (ep_out (sd_ep x)) d = (out, Ok n, warned) ->
    len (sd_written x ++ d) < 2 ^ 63 ->
    side_step wire x
      (mk_side (mk_ep (rl x) out (ep_in (sd_ep x))) (sd_taken x) (sd_written x ++ d)
         (sd_read x) (sd_sent x) (sd_got x)) []
| st_read dst inp d :
    pipe_Read (ep_in (sd_ep x)) dst = Some (inp, Ok d) ->
    side_step wire x
      (mk_side (mk_ep (rl x) (ep_out (sd_ep x)) inp) (sd_taken x) (sd_written x)
         (sd_read x ++ d) (sd_sent x) (sd_got x)) []
| st_pending blen r off chunk :
    0 < blen -> has_pending (rl x) = true ->
    pending_out (rl x) blen = Some (r, off, chunk) ->
    side_step wire x (with_rl r x) [PData off chunk]
| st_take blen out d rest :
    0 < blen -> sd_taken x = [] ->
    coalesce_and_take (ep_out (sd_ep x)) blen [] = (out, Ok d, rest) ->
    side_step wire x
      (mk_side (mk_ep (rl x) out (ep_in (sd_ep x))) d (sd_written x) (sd_read x)
         (sd_sent x) (sd_got x)) []
| st_take_fail blen out err rest :
    0 < blen -> sd_taken x = [] ->
    ReadAvailable (ep_out (sd_ep x)) blen [] = (out, Fail err, rest) ->
    side_step wire x (with_ep (mk_ep (rl x) out (ep_in (sd_ep x))) x) []
| st_number r off :
    sd_taken x <> [] -> number_out (rl x) (sd_taken x) = (r, off) ->
    side_step wire x
      (mk_side (on_rl (fun _ => r) (sd_ep x)) [] (sd_written x) (sd_read x)
         (sd_sent x ++ sd_taken x) (sd_got x)) [PData off (sd_taken x)]
| st_takeAck r n :
    takeAck (rl x) = (r, Some n) -> side_step wire x (with_rl r x) [PAck n]
| st_ackNow : side_step wire x x [PAck (recvOffsetNow (rl x))]
| st_resumeNow : side_step wire x x [PResume (recvOffsetNow (rl x))]
| st_recv off d e err :
    In (PData off d) wire -> recvIn (sd_ep x) off d = Some (e, err) ->
    side_step wire x
      (mk_side e (sd_taken x) (sd_written x) (sd_read x) (sd_sent x)
         (sd_got x ++ recv_gain (sd_ep x) e off d)) []
| st_ack n r err :
    In (PAck n) wire -> rel_ack (rl x) n = Some (r, err) ->
    side_step wire x (with_rl r x) []
| st_resume n r ok :
    In (PResume n) wire -> resumeOut (rl x) n = Some (r, ok) ->
    side_step wire x (with_rl (if ok then r else markBroken r) x) []
| st_rewind : side_step wire x (with_rl (rewindToAcked (rl x)) x) []
| st_resetAck : side_step wire x (with_rl (resetAck (rl x)) x) []
| st_markBroken : side_step wire x (with_rl (markBroken (rl x)) x) []
| st_interrupt : side_step wire x (with_ep (interruptOut (sd_ep x)) x) []
| st_closeOut :
    side_step wire x
      (with_ep (mk_ep (rl x) (pipe_Close (ep_out (sd_ep x))) (ep_in (sd_ep x))) x) []
| st_closeIn :
    side_step wire x
      (with_ep (mk_ep (rl x) (ep_out (sd_ep x)) (pipe_Close (ep_in (sd_ep x)))) x) [].

(** Both ends; [wires b] is everything end [b] ever sent. *)
Record sys := mk_sys { sides : bool -> side; wires : bool -> list packet }.

Definition upd {A} (b : bool) (a : A) (f : bool -> A) : bool -> A :=
  fun c => if Bool.eqb c b then a else f c.

Inductive sys_step (s : sys) : sys -> Prop :=
| sys_side b x out :
    side_step (wires s (negb b)) (sides s b) x out ->
    sys_step s (mk_sys (upd b x (sides s)) (upd b (wires s b ++ out) (wires s))).

Definition new_sys (m : bool -> Z) : sys :=
  mk_sys (fun b => new_side (m b)) (fun _ => []).

(** ** Invariant *)

(** What one end knows of itself. *)
Record side_inv (x : side) : Prop := {
  si_rel : rel_inv (sd_sent x) (sd_got x) (rl x);
  si_out : sd_sent x ++ sd_taken x ++ p_buf (ep_out (sd_ep x)) = sd_written x;
  si_in : sd_got x = sd_read x ++ p_buf (ep_in (sd_ep x));
  si_max : len (sd_written x) < 2 ^ 63;
}.

(** A packet is truthful about the end that sent it. *)
Definition packet_true (sent got : list byte) (p : packet) : Prop :=
  match p with
  | PData off d =>
      0 <= off /\ exists rest, drop (Z.to_nat off) sent = d ++ rest /\ off <= len sent
  | PAck n | PResume n => 0 <= n <= len got
  end.

Record sys_inv (s : sys) : Prop := {
  sy_side : forall b, side_inv (sides s b);
  sy_prefix : forall b, sd_got (sides s b) `prefix_of` sd_sent (sides s (negb b));
  sy_acked : forall b, broken (rl (sides s b)) = false ->
    ackedOffset (rl (sides s b)) <= len (sd_got (sides s (negb b)));
  sy_wire : forall b, Forall (packet_true (sd_sent (sides s b)) (sd_got (sides s b))) (wires s b);
}.

Lemma packet_true_mono sent got sent' got' p :
  sent `prefix_of` sent' -> len got <= len got' ->
  packet_true sent got p -> packet_true sent' got' p.
Proof.
  intros [more ->] Hg; destruct p as [off d|n|n]; cbn; [|lia|lia].
  intros [H0 (rest & E & Hle)]; split; [exact H0|].
  exists (rest ++ more); rewrite drop_app_le by (unfold len in *; lia).
  rewrite E, <- app_assoc; split; [reflexivity|len_lia].
Qed.

Lemma packet_data_end sent got off d :
  packet_true sent got (PData off d) -> off + len d <= len sent.
Proof.
  intros [H0 (rest & E & Hle)]; apply (f_equal len) in E.
  rewrite len_drop, len_app in E by len_lia; pose proof (len_nonneg rest); lia.
Qed.

(** A window of a stream extends a prefix of it. *)
Lemma prefix_extend (got sent d rest : list byte) off :
  got `prefix_of` sent -> 0 <= off <= len got -> len got < off + len d ->
  drop (Z.to_nat off) sent = d ++ rest ->
  got ++ drop (Z.to_nat (len got - off)) d `prefix_of` sent.
Proof.
  intros [more ->] Ho Hl E.
  apply (f_equal (drop (Z.to_nat (len got - off)))) in E.
  rewrite drop_drop_Z in E by lia; replace (off + (len got - off)) with (len got) in E by lia.
  rewrite drop_len_app, drop_app_le in E by (unfold len in *; lia).
  exists rest; rewrite E, app_assoc; reflexivity.
Qed.

Lemma with_rl_inv x r :
  side_inv x -> rel_inv (sd_sent x) (sd_got x) r -> side_inv (with_rl r x).
Proof. intros [] Hr; constructor; cbn; auto. Qed.

(** The last critical section of a ReadAvailable call, once its waits are over. *)
Lemma coalesce_now p dst :
  coalesce_and_take p dst [] = (set_buf (uncopied dst (p_buf p)) p, Ok (copied dst (p_buf p)), []).
Proof. unfold coalesce_and_take; cbn [wait_loop]; repeat case_if; reflexivity. Qed.

Section SideStep.
Context (wire : list packet) (P Q : list byte) (x : side).
Context (Hx : side_inv x) (Hwire : Forall (packet_true P Q) wire)
        (Hpre : sd_got x `prefix_of` P) (HQ : len Q <= len (sd_sent x))
        (HP : len P < 2 ^ 63).

(** A broken layer stays broken, and a live one is acknowledged only up to
    what the peer claimed. *)
Definition acked_ok (r : reliable) : Prop :=
  broken r = false ->
  broken (rl x) = false /\ ackedOffset r <= Z.max (ackedOffset (rl x)) (len Q).

(** What every step of an end preserves. *)
Definition step_good (x' : side) (out : list packet) : Prop :=
  side_inv x' /\ acked_ok (rl x')
  /\ sd_sent x `prefix_of` sd_sent x' /\ sd_got x `prefix_of` sd_got x'
  /\ sd_got x' `prefix_of` P
  /\ Forall (packet_true (sd_sent x') (sd_got x')) out.

Lemma wire_true p : In p wire -> packet_true P Q p.
Proof. intros Hin; rewrite Forall_forall in Hwire; apply Hwire, list_elem_of_In, Hin. Qed.

Lemma acked_same r :
  broken r = broken (rl x) -> ackedOffset r = ackedOffset (rl x) -> acked_ok r.
Proof. intros Hb Ha H; rewrite Hb in H; rewrite Ha; split; [exact H|lia]. Qed.

Lemma acked_broken r : broken r = true -> acked_ok r.
Proof. intros Hb H; congruence. Qed.

Lemma good_rl r out :
  rel_inv (sd_sent x) (sd_got x) r -> acked_ok r ->
  Forall (packet_true (sd_sent x) (sd_got x)) out -> step_good (with_rl r x) out.
Proof. intros; split_and!; auto using with_rl_inv. Qed.

Lemma good_ep out inp :
  p_buf out = p_buf (ep_out (sd_ep x)) -> p_buf inp = p_buf (ep_in (sd_ep x)) ->
  step_good (with_ep (mk_ep (rl x) out inp) x) [].
Proof.
  intros Ho Hi; destruct Hx; split_and!; auto using acked_same.
  constructor; cbn; rewrite ?Ho, ?Hi; auto.
Qed.

Lemma good_write d out n w :
  pipe_Write (ep_out (sd_ep x)) d = (out, Ok n, w) ->
  len (sd_written x ++ d) < 2 ^ 63 ->
  step_good (mk_side (mk_ep (rl x) out (ep_in (sd_ep x))) (sd_taken x) (sd_written x ++ d)
               (sd_read x) (sd_sent x) (sd_got x)) [].
Proof.
  intros E Hm; unfold pipe_Write in E; case_if_in E; [discriminate|]; injection E as <- _ _.
  destruct Hx; split_and!; auto using acked_same; constructor; cbn; auto.
  rewrite <- si_out0, !app_assoc; reflexivity.
Qed.

Lemma good_read dst inp d :
  pipe_Read (ep_in (sd_ep x)) dst = Some (inp, Ok d) ->
  step_good (mk_side (mk_ep (rl x) (ep_out (sd_ep x)) inp) (sd_taken x) (sd_written x)
               (sd_read x ++ d) (sd_sent x) (sd_got x)) [].
Proof.
  intros E; unfold pipe_Read in E.
  destruct (p_buf (ep_in (sd_ep x))) as [|b l] eqn:Hb; [case_if_in E; discriminate|].
  injection E as <- <-; destruct Hx; split_and!; auto using acked_same; constructor; cbn; auto.
  rewrite <- app_assoc, copied_uncopied, <- Hb; exact si_in0.
Qed.

Lemma good_take blen out d rest :
  0 < blen -> sd_taken x = [] ->
  coalesce_and_take (ep_out (sd_ep x)) blen [] = (out, Ok d, rest) ->
  step_good (mk_side (mk_ep (rl x) out (ep_in (sd_ep x))) d (sd_written x) (sd_read x)
               (sd_sent x) (sd_got x)) [].
Proof.
  intros Hb Ht E; rewrite coalesce_now in E; injection E as <- <- _.
  destruct Hx; split_and!; auto using acked_same; constructor; cbn; auto.
  rewrite copied_uncopied, <- si_out0, Ht; reflexivity.
Qed.

Lemma good_take_fail blen out err rest :
  ReadAvailable (ep_out (sd_ep x)) blen [] = (out, Fail err, rest) ->
  step_good (with_ep (mk_ep (rl x) out (ep_in (sd_ep x))) x) [].
Proof.
  intros E; apply good_ep; [|reflexivity].
  pose proof (ReadAvailable_fifo (ep_out (sd_ep x)) blen []) as Hf.
  rewrite E in Hf; destruct Hf as (used & Hs & _ & Hc).
  symmetry in Hs; apply app_eq_nil in Hs as [-> ->].
  destruct err; cbn in Hc; rewrite app_nil_r in Hc; auto.
Qed.

Lemma good_pending blen r off chunk :
  0 < blen -> has_pending (rl x) = true -> pending_out (rl x) blen = Some (r, off, chunk) ->
  step_good (with_rl r x) [PData off chunk].
Proof.
  intros Hb Hp E; pose proof (si_rel _ Hx) as [].
  destruct (pending_out_spec _ _ _ blen (si_rel _ Hx) Hp Hb) as (E' & Hc & Hl & Hr).
  rewrite E' in E; injection E as <- <- <-; apply good_rl; [exact Hr|apply acked_same; reflexivity|].
  constructor; [|constructor]; split; [lia|].
  eexists; split; [symmetry; apply (copied_uncopied blen)|lia].
Qed.

Lemma good_number r off :
  number_out (rl x) (sd_taken x) = (r, off) ->
  step_good (mk_side (on_rl (fun _ => r) (sd_ep x)) [] (sd_written x) (sd_read x)
               (sd_sent x ++ sd_taken x) (sd_got x)) [PData off (sd_taken x)].
Proof.
  intros E; destruct Hx.
  assert (Hlen : len (sd_sent x) + len (sd_taken x) < 2 ^ 63)
    by (rewrite <- si_out0 in si_max0; rewrite !len_app in si_max0; len_lia).
  destruct (number_out_spec _ _ _ (sd_taken x) si_rel0 Hlen) as (Ho & Hr & _ & _ & Ha).
  rewrite E in *; cbn in Ho, Hr, Ha; subst off; split_and!; cbn; auto.
  - constructor; cbn; auto; rewrite <- app_assoc; exact si_out0.
  - intros Hb; destruct (Ha Hb) as [Hb' ->]; split; [exact Hb'|lia].
  - eexists; reflexivity.
  - constructor; [|constructor]; split; [apply len_nonneg|].
    exists []; rewrite drop_len_app, app_nil_r; split; [reflexivity|len_lia].
Qed.

Lemma good_takeAck r n : takeAck (rl x) = (r, Some n) -> step_good (with_rl r x) [PAck n].
Proof.
  intros E; pose proof (si_rel _ Hx) as Hr; pose proof Hr as [].
  apply good_rl.
  - pose proof (inv_takeAck _ _ _ Hr) as H; rewrite E in H; exact H.
  - unfold takeAck in E; case_if_in E; [discriminate|]; injection E as <- _.
    apply acked_same; reflexivity.
  - unfold takeAck in E; case_if_in E; [discriminate|]; injection E as _ <-.
    repeat constructor; cbn; lia.
Qed.

Lemma good_offset p : p = PAck (recvOffsetNow (rl x)) \/ p = PResume (recvOffsetNow (rl x)) ->
  step_good x [p].
Proof.
  intros Hp; pose proof (ri_recv _ _ _ (si_rel _ Hx)) as Hr.
  unfold recvOffsetNow in Hp; rewrite Hr in Hp.
  split_and!; auto using acked_same; constructor; [|constructor].
  destruct Hp as [-> | ->]; cbn; len_lia.
Qed.

Lemma good_recv off d e err :
  In (PData off d) wire -> recvIn (sd_ep x) off d = Some (e, err) ->
  step_good (mk_side e (sd_taken x) (sd_written x) (sd_read x) (sd_sent x)
               (sd_got x ++ recv_gain (sd_ep x) e off d)) [].
Proof.
  intros Hin E; pose proof (wire_true _ Hin) as Hd.
  pose proof (packet_data_end _ _ _ _ Hd) as Hend; destruct Hd as [H0 (rest & Hw & _)].
  pose proof Hx as [Hr Hout Hi Hmax].
  destruct (recvIn_spec _ _ (sd_ep x) off d Hr H0 ltac:(intros; lia)) as (e' & err' & E' & Hc).
  rewrite E in E'; injection E' as <- <-; unfold recv_gain.
  assert (Hsame : recvOffset (ep_rl e) = recvOffset (ep_rl (sd_ep x)) ->
    rel_inv (sd_sent x) (sd_got x) (ep_rl e) ->
    acked_ok (ep_rl e) ->
    ep_out e = ep_out (sd_ep x) -> ep_in e = ep_in (sd_ep x) ->
    step_good (mk_side e (sd_taken x) (sd_written x) (sd_read x) (sd_sent x)
      (sd_got x ++ (if recvOffset (ep_rl (sd_ep x)) <? recvOffset (ep_rl e)
         then drop (Z.to_nat (recvOffset (ep_rl (sd_ep x)) - off)) d else []))) []).
  { intros -> Hr' Ha' Ho' Hi'; rewrite Z.ltb_irrefl, app_nil_r.
    split_and!; auto using acked_same; constructor; cbn; rewrite ?Ho', ?Hi'; auto. }
  destruct Hc as [(_ & _ & ->)|[(_ & _ & _ & ->)|[(_ & _ & _ & ->)|Hc]]];
    [apply Hsame; auto using acked_broken; apply inv_markBroken, Hr
    | apply Hsame; auto using acked_same | apply Hsame; auto using acked_same |].
  destruct Hc as (Ho & Hcl & _ & Hr' & Hrl & Houte & Hine).
  pose proof (ri_recv _ _ _ Hr) as Hrecv; unfold rl in Hrecv.
  rewrite Hrl; cbn [recvOffset set_recv]; rewrite Hrecv.
  rewrite (proj2 (Z.ltb_lt _ _)) by lia.
  pose proof (prefix_extend _ _ _ _ _ Hpre (conj H0 (proj1 Ho)) (proj2 Ho) Hw) as Hpre'.
  split_and!; cbn; auto; [|apply acked_same; unfold rl; cbn; rewrite Hrl; reflexivity
                          |apply prefix_app_r; reflexivity].
  constructor; cbn; auto.
  - destruct Houte as [-> | ->]; exact Hout.
  - rewrite Hine; unfold pipe_Write; rewrite Hcl; cbn; rewrite Hi, app_assoc; reflexivity.
Qed.

Lemma good_ack n r err :
  In (PAck n) wire -> rel_ack (rl x) n = Some (r, err) ->
  step_good (with_rl r x) [] /\ err = None.
Proof.
  intros Hin E; pose proof (wire_true _ Hin) as Hn; cbn in Hn.
  destruct (rel_ack_spec _ _ _ n (si_rel _ Hx) (proj1 Hn)) as (r' & err' & E' & Hr & _ & Hc).
  rewrite E in E'; injection E' as <- <-.
  destruct Hc as [(Hbad & _)|[(_ & H & Hb & ->)|(_ & H & Hb & ->)]]; [lia| |];
    (split; [apply good_rl; auto|exact H]).
  - apply acked_same; reflexivity.
  - intros _; split; [exact Hb|]; cbn; lia.
Qed.

Lemma good_resume n r ok :
  In (PResume n) wire -> resumeOut (rl x) n = Some (r, ok) ->
  step_good (with_rl (if ok then r else markBroken r) x) [].
Proof.
  intros Hin E; pose proof (wire_true _ Hin) as Hn; cbn in Hn.
  destruct (resumeOut_spec _ _ _ n (si_rel _ Hx) (proj1 Hn)) as (r' & ok' & E' & Hr & _ & _ & _ & Ht).
  rewrite E in E'; injection E' as <- <-; destruct ok; apply good_rl;
    auto using inv_markBroken, acked_broken.
  rewrite (Ht eq_refl); intros Hb; split; [exact Hb|cbn; lia].
Qed.

Lemma side_step_good x' out : side_step wire x x' out -> step_good x' out.
Proof.
  intros Hs; destruct Hs; eauto using good_write, good_read, good_pending, good_take,
    good_take_fail, good_number, good_takeAck, good_offset, good_recv, good_resume.
  - eapply good_ack; eauto.
  - apply good_rl; auto using inv_rewind, si_rel; unfold rewindToAcked; case_if;
      apply acked_same; reflexivity.
  - apply good_rl; auto using inv_resetAck, si_rel, acked_same.
  - apply good_rl; auto using inv_markBroken, si_rel, acked_broken.
  - apply good_ep; reflexivity.
  - apply good_ep; reflexivity.
  - apply good_ep; reflexivity.
Qed.
End SideStep.

Lemma upd_same {A} b (a : A) f : upd b a f b = a.
Proof. unfold upd; rewrite eqb_reflx; reflexivity. Qed.

Lemma upd_other {A} b (a : A) f : upd b a f (negb b) = f (negb b).
Proof. unfold upd; destruct b; reflexivity. Qed.

Lemma upd_other' {A} b (a : A) f : upd (negb b) a f b = f b.
Proof. unfold upd; destruct b; reflexivity. Qed.

Lemma side_max x : side_inv x -> len (sd_sent x) < 2 ^ 63.
Proof. intros [[] _ _ _]; assumption. Qed.

Lemma sys_step_inv s s' : sys_inv s -> sys_step s s' -> sys_inv s'.
Proof.
  intros [Hs Hp Ha Hw] [b x out Hstep].
  assert (Hgood : step_good (sd_sent (sides s (negb b))) (sd_got (sides s (negb b)))
                    (sides s b) x out).
  { eapply side_step_good; eauto using side_max.
    pose proof (Hp (negb b)) as Hq; rewrite negb_involutive in Hq.
    apply prefix_length in Hq; unfold len; lia. }
  destruct Hgood as (H1 & Hk & H2 & H3 & H4 & H5).
  assert (Hc : forall c, c = b \/ c = negb b) by (intros [] ; destruct b; auto).
  constructor; intros c; destruct (Hc c) as [-> | ->]; cbn [sides wires];
    rewrite ?upd_same, ?upd_other, ?negb_involutive, ?upd_same; auto.
  - pose proof (Hp (negb b)) as Hq; rewrite negb_involutive in Hq.
    etransitivity; eassumption.
  - intros Hb; destruct (Hk Hb) as [Hb' Hle]; specialize (Ha b Hb'); lia.
  - intros Hb; specialize (Ha _ Hb); rewrite negb_involutive in Ha.
    apply prefix_length in H3; unfold len in *; lia.
  - apply Forall_app; split; [|exact H5].
    eapply Forall_impl; [apply Hw|]; intros p; apply packet_true_mono; [exact H2|].
    apply prefix_length in H3; unfold len; lia.
Qed.

Lemma new_side_inv m : side_inv (new_side m).
Proof. constructor; cbn; [apply inv_new|reflexivity|reflexivity|reflexivity]. Qed.

Lemma new_sys_inv m : sys_inv (new_sys m).
Proof. constructor; intros b; cbn; auto using new_side_inv; reflexivity. Qed.

Lemma sys_reachable_inv m s : rtc sys_step (new_sys m) s -> sys_inv s.
Proof.
  intros H; eapply (rtc_invariant sys_step sys_inv); eauto using sys_step_inv, new_sys_inv.
Qed.

(** ** Completing a delivery *)

(** Hand numbered chunks to recvIn, in order, stopping at the first error. *)
Fixpoint deliver (e : endpoint) (chunks : list (Z * list byte)) : option (endpoint * option goerr) :=
  match chunks with
  | [] => Some (e, None)
  | (off, d) :: chunks =>
      match recvIn e off d with
      | Some (e, None) => deliver e chunks
      | other => other
      end
  end.

Lemma deliver_spec sent' chunks :
  forall e got, rel_inv sent' got (ep_rl e) -> p_closed (ep_in e) = false ->
  contiguous (len got) chunks -> len got + len (concat (map snd chunks)) < 2 ^ 63 ->
  exists e', deliver e chunks = Some (e', None)
    /\ rel_inv sent' (got ++ concat (map snd chunks)) (ep_rl e')
    /\ p_buf (ep_in e') = p_buf (ep_in e) ++ concat (map snd chunks)
    /\ broken (ep_rl e') = broken (ep_rl e)
    /\ p_closed (ep_in e') = false.
Proof.
  induction chunks as [|[off d] chunks IH]; intros e got Hr Hc Hk Hm; cbn in Hk, Hm |- *.
  - exists e; rewrite !app_nil_r; auto.
  - destruct Hk as [-> Hk]; rewrite len_app in Hm.
    destruct (recvIn_spec sent' got e (len got) d Hr (len_nonneg _) ltac:(intros; len_lia))
      as (e1 & err & -> & Hcase); rewrite Z.sub_diag in Hcase; cbn [Z.to_nat] in Hcase.
    rewrite drop_0 in Hcase.
    assert (H1 : err = None /\ rel_inv sent' (got ++ d) (ep_rl e1)
      /\ p_buf (ep_in e1) = p_buf (ep_in e) ++ d /\ broken (ep_rl e1) = broken (ep_rl e)
      /\ p_closed (ep_in e1) = false).
    { destruct Hcase as [(?&_)|[(_&Hz&->&->)|[(_&?&_)|(_&_&->&Hr1&Hrl&_&Hin)]]];
        [lia| |congruence|].
      - assert (d = []) as -> by (apply len_zero_iff; len_lia); rewrite !app_nil_r; auto.
      - rewrite Hin, Hrl in *; unfold pipe_Write; rewrite Hc; cbn; auto. }
    destruct H1 as (-> & Hr1 & Hb1 & Hk1 & Hc1).
    destruct (IH e1 (got ++ d) Hr1 Hc1) as (e2 & -> & Hr2 & Hb2 & Hk2 & Hc2);
      [rewrite len_app; exact Hk|len_lia|].
    exists e2; rewrite Hb2, Hb1, Hk2, <- !app_assoc in *; auto.
Qed.

(** ** One leg: an ordered transport between resumes

    A stream poll, a send stream or a WebSocket delivers in order what it
    delivers; when it breaks, what was under way is lost and the resume
    handshake rewinds the sender to what the receiver has. *)

Record leg := mk_leg {
  lg_snd : endpoint;
  lg_flight : list (Z * list byte);
  lg_rcv : endpoint;
  lg_refused : bool;       (* the last resume was refused (409) *)
}.

Definition new_leg (m m' : Z) : leg := mk_leg (new_endpoint m) [] (new_endpoint m') false.

Inductive leg_op : Type :=
| LWrite (d : list byte)     (* the application writes at the sending end *)
| LSend (blen : Z)           (* nextOut, and the frame goes on the wire *)
| LDeliver                   (* the oldest frame under way arrives *)
| LAck (lag : Z)             (* an acknowledgement issued [lag] bytes ago arrives *)
| LResume.                   (* the transport is lost; the resume handshake *)

Definition leg_apply (l : leg) (op : leg_op) : option (leg * option goerr) :=
  match op with
  | LWrite d =>
      let '(out, r, _) := pipe_Write (ep_out (lg_snd l)) d in
      Some (mk_leg (mk_ep (ep_rl (lg_snd l)) out (ep_in (lg_snd l))) (lg_flight l) (lg_rcv l)
              (lg_refused l), match r with Fail e => Some e | Ok _ => None end)
  | LSend blen =>
      match nextOut (lg_snd l) blen [] with
      | Some (e, Ok (off, []), _) => Some (mk_leg e (lg_flight l) (lg_rcv l) (lg_refused l), None)
      | Some (e, Ok (off, d), _) =>
          Some (mk_leg e (lg_flight l ++ [(off, d)]) (lg_rcv l) (lg_refused l), None)
      | Some (e, Fail err, _) => Some (mk_leg e (lg_flight l) (lg_rcv l) (lg_refused l), Some err)
      | None => None
      end
  | LDeliver =>
      match lg_flight l with
      | [] => Some (l, None)
      | (off, d) :: rest =>
          match recvIn (lg_rcv l) off d with
          | Some (e, err) => Some (mk_leg (lg_snd l) rest e (lg_refused l), err)
          | None => None
          end
      end
  | LAck lag =>
      match rel_ack (ep_rl (lg_snd l)) (Z.max 0 (recvOffsetNow (ep_rl (lg_rcv l)) - Z.max 0 lag)) with
      | Some (r, err) =>
          Some (mk_leg (on_rl (fun _ => r) (lg_snd l)) (lg_flight l) (lg_rcv l) (lg_refused l), err)
      | None => None
      end
  | LResume =>
      match resumeOut (ep_rl (lg_snd l)) (recvOffsetNow (ep_rl (lg_rcv l))) with
      | Some (r, true) =>
          Some (mk_leg (on_rl (fun _ => r) (lg_snd l)) [] (lg_rcv l) false, None)
      | Some (r, false) =>
          Some (mk_leg (on_rl markBroken (lg_snd l)) [] (lg_rcv l) true, None)
      | None => None
      end
  end.

(** A run of a leg; a refused resume ends it. *)
Fixpoint leg_run (l : leg) (ops : list leg_op) : option (leg * list (option goerr)) :=
  match ops with
  | [] => Some (l, [])
  | op :: ops =>
      if lg_refused l then Some (l, []) else
      match leg_apply l op with
      | None => None
      | Some (l, err) =>
          match leg_run l ops with
          | Some (l, errs) => Some (l, err :: errs)
          | None => None
          end
      end
  end.

Definition leg_written (ops : list leg_op) : list byte :=
  concat (map (fun op => match op with LWrite d => d | _ => [] end) ops).
Definition leg_op_ok (op : leg_op) : Prop :=
  match op with LSend blen => 0 < blen | _ => True end.

(** [w] is what the application wrote so far: the receiver holds a prefix of
    it, the frames under way follow it without a gap up to the send cursor. *)
Definition leg_inv (w : list byte) (l : leg) : Prop :=
  exists sent got,
    rel_inv sent [] (ep_rl (lg_snd l)) /\ rel_inv [] got (ep_rl (lg_rcv l))
    /\ sent ++ p_buf (ep_out (lg_snd l)) = w
    /\ p_buf (ep_in (lg_rcv l)) = got /\ got `prefix_of` sent
    /\ p_closed (ep_out (lg_snd l)) = false /\ p_closed (ep_in (lg_rcv l)) = false
    /\ p_intr (ep_out (lg_snd l)) = false
    /\ (broken (ep_rl (lg_snd l)) = false -> ackedOffset (ep_rl (lg_snd l)) <= len got)
    /\ if lg_refused l then broken (ep_rl (lg_snd l)) = true
       else contiguous (len got) (lg_flight l)
            /\ got ++ concat (map snd (lg_flight l))
               = take (Z.to_nat (sentCursor (ep_rl (lg_snd l)))) sent.

Lemma contiguous_app off l l' :
  contiguous off (l ++ l') <->
  contiguous off l /\ contiguous (off + len (concat (map snd l))) l'.
Proof.
  revert off; induction l as [|[o d] l IH]; intros off; cbn.
  - rewrite Z.add_0_r; tauto.
  - rewrite IH, len_app, Z.add_assoc; tauto.
Qed.

(** Without a schedule ReadAvailable returns what is buffered. *)
Lemma ReadAvailable_now p dst :
  0 < dst -> p_closed p = false -> p_intr p = false ->
  exists rest, ReadAvailable p dst []
    = (set_buf (uncopied dst (p_buf p)) p, Ok (copied dst (p_buf p)), rest).
Proof.
  destruct p as [buf cl hw wa wd lg it]; cbn; intros Hd -> ->; unfold ReadAvailable; cbn.
  destruct (Z.eqb_spec (len buf) 0) as [H0|H0].
  - apply len_zero_iff in H0; subst buf; cbn; eexists; unfold uncopied, copied, set_buf; cbn.
    rewrite drop_nil, take_nil; reflexivity.
  - unfold coalesce_and_take; eexists; destruct (cond2 _ _) eqn:Hc; cbn; [|reflexivity].
    rewrite Hc; reflexivity.
Qed.

Section LegSteps.
Context (w : list byte) (l : leg).
Context (Hl : leg_inv w l) (Hlive : lg_refused l = false) (Hw : len w < 2 ^ 63).

Definition leg_good (w' : list byte) (op : leg_op) : Prop :=
  exists l', leg_apply l op = Some (l', None) /\ leg_inv w' l'.

Lemma leg_write d : leg_good (w ++ d) (LWrite d).
Proof.
  destruct Hl as (sent & got & H1 & H2 & H3 & H4 & H5 & H6 & H7 & H8 & H9 & H10).
  unfold leg_good; cbn [leg_apply]; unfold pipe_Write; rewrite H6.
  eexists; split; [reflexivity|]; exists sent, got; cbn; split_and!; auto.
  rewrite <- H3, app_assoc; reflexivity.
Qed.

Lemma leg_send_pending blen :
  0 < blen -> has_pending (ep_rl (lg_snd l)) = true -> leg_good w (LSend blen).
Proof.
  intros Hb Hp; destruct Hl as (sent & got & H1 & H2 & H3 & H4 & H5 & H6 & H7 & H8 & H9 & H10).
  rewrite Hlive in H10; destruct H10 as [Hk Hf].
  destruct (pending_out_spec _ _ _ blen H1 Hp Hb) as (E & Hc & Hlen & Hr).
  unfold leg_good; cbn [leg_apply]; unfold nextOut; rewrite Hp, E.
  set (r := ep_rl (lg_snd l)) in *; set (chunk := copied blen _) in *.
  destruct chunk as [|b c] eqn:Hch; [done|]; rewrite <- Hch in *.
  pose proof H1 as []; eexists; split; [reflexivity|]; exists sent, got.
  split_and!; cbn [lg_snd lg_flight lg_rcv lg_refused ep_rl ep_out ep_in]; auto.
  rewrite Hlive; split.
  - apply contiguous_app; split; [exact Hk|]; cbn; split; [|exact I].
    apply (f_equal len) in Hf; rewrite len_app, len_take in Hf by lia; lia.
  - rewrite map_app, concat_app; cbn; rewrite app_nil_r, app_assoc, Hf.
    rewrite <- take_app_window by len_lia; f_equal.
    unfold chunk in Hlen |- *; rewrite Hlen; unfold copied.
    destruct (Z.le_gt_cases blen (sendOffset r - sentCursor r)); [f_equal; f_equal; lia|].
    rewrite !take_ge; auto; unfold len in *; rewrite length_drop; lia.
Qed.

Lemma leg_send_fresh blen :
  0 < blen -> has_pending (ep_rl (lg_snd l)) = false -> leg_good w (LSend blen).
Proof.
  intros Hb Hp; destruct Hl as (sent & got & H1 & H2 & H3 & H4 & H5 & H6 & H7 & H8 & H9 & H10).
  rewrite Hlive in H10; destruct H10 as [Hk Hf].
  destruct (ReadAvailable_now (ep_out (lg_snd l)) blen Hb H6 H8) as [rest E].
  unfold leg_good; cbn [leg_apply]; unfold nextOut; rewrite Hp, E.
  pose proof (copied_uncopied blen (p_buf (ep_out (lg_snd l)))) as Hcu.
  assert (Hcur : sentCursor (ep_rl (lg_snd l)) = len sent).
  { pose proof H1 as []; unfold has_pending in Hp; apply andb_false_iff in Hp.
    destruct Hp as [Hp|Hp]; breflect; [|lia]; destruct (ri_dead Hp); lia. }
  destruct (copied blen (p_buf (ep_out (lg_snd l)))) as [|b c] eqn:Hch.
  { eexists; split; [reflexivity|]; exists sent, got; cbn; rewrite Hlive; split_and!; auto.
    rewrite <- H3; cbn in Hcu; rewrite Hcu; reflexivity. }
  assert (Hm : len sent + len (b :: c) < 2 ^ 63).
  { rewrite <- H3, <- Hcu in Hw; autorewrite with golen in Hw |- *.
    pose proof (len_nonneg (uncopied blen (p_buf (ep_out (lg_snd l))))); lia. }
  destruct (number_out_spec _ _ _ (b :: c) H1 Hm) as (Ho & Hr & Hc & _ & Ha).
  destruct (number_out (ep_rl (lg_snd l)) (b :: c)) as [r off]; cbn [fst snd] in *.
  eexists; split; [reflexivity|]; exists (sent ++ b :: c), got.
  split_and!; cbn [lg_snd lg_flight lg_rcv lg_refused ep_rl ep_out ep_in]; auto.
  - cbn; rewrite <- app_assoc, Hcu; exact H3.
  - apply prefix_app_r; exact H5.
  - intros Hnb; destruct (Ha Hnb) as [Hnb' ->]; auto.
  - rewrite Hlive, Hc, <- len_app, take_ge by (unfold len; lia).
    rewrite Hcur, take_ge in Hf by (unfold len; lia).
    split; [apply contiguous_app; split; [exact Hk|]|].
    + cbn; split; [|exact I]; rewrite Ho, <- Hf, len_app; reflexivity.
    + rewrite map_app, concat_app; cbn; rewrite app_nil_r, app_assoc, Hf; reflexivity.
Qed.

Lemma leg_send blen : 0 < blen -> leg_good w (LSend blen).
Proof.
  destruct (has_pending (ep_rl (lg_snd l))) eqn:Hp; auto using leg_send_pending, leg_send_fresh.
Qed.

Lemma leg_deliver : leg_good w LDeliver.
Proof.
  pose proof Hl as (sent & got & H1 & H2 & H3 & H4 & H5 & H6 & H7 & H8 & H9 & H10).
  rewrite Hlive in H10; destruct H10 as [Hk Hf]; unfold leg_good; cbn [leg_apply].
  destruct (lg_flight l) as [|[off d] rest] eqn:Hfl; [eauto|].
  destruct Hk as [-> Hk]; cbn in Hf.
  assert (Hpre : got ++ d `prefix_of` sent).
  { transitivity (take (Z.to_nat (sentCursor (ep_rl (lg_snd l)))) sent);
      [|apply prefix_take]. rewrite <- Hf, app_assoc; apply prefix_app_r; reflexivity. }
  pose proof (ri_send_max _ _ _ H1) as Hmax; pose proof (prefix_length _ _ Hpre) as Hlen.
  destruct (deliver_spec [] [(len got, d)] (lg_rcv l) got H2 H7) as (e & E & Hr & Hbuf & _ & Hc).
  { split; [reflexivity|exact I]. }
  { cbn; rewrite app_nil_r, <- len_app; unfold len in *; lia. }
  cbn [deliver map concat snd] in *; rewrite app_nil_r in *.
  destruct (recvIn (lg_rcv l) (len got) d) as [[e' [err|]]|]; try discriminate.
  injection E as ->; eexists; split; [reflexivity|]; exists sent, (got ++ d).
  split_and!; cbn [lg_snd lg_flight lg_rcv lg_refused]; auto; [congruence| |].
  - intros Hnb; specialize (H9 Hnb); len_lia.
  - rewrite Hlive, len_app, <- app_assoc; auto.
Qed.

Lemma leg_ack lag : leg_good w (LAck lag).
Proof.
  pose proof Hl as (sent & got & H1 & H2 & H3 & H4 & H5 & H6 & H7 & H8 & H9 & H10).
  rewrite Hlive in H10; destruct H10 as [Hk Hf]; unfold leg_good; cbn [leg_apply].
  unfold recvOffsetNow; rewrite (ri_recv _ _ _ H2).
  set (n := Z.max 0 (len got - Z.max 0 lag)).
  assert (Hn : 0 <= n <= len got) by len_lia.
  assert (Hcur : len got <= sentCursor (ep_rl (lg_snd l))).
  { apply (f_equal len) in Hf; pose proof H1 as []; rewrite len_app, len_take in Hf by lia.
    pose proof (len_nonneg (concat (map snd (lg_flight l)))); lia. }
  destruct (rel_ack_spec _ _ _ n H1 (proj1 Hn)) as (r & err & -> & Hr & _ & Hc).
  pose proof H1 as [].
  destruct Hc as [(?&_)|[(_&->&_&->)|(_&->&Hb&->)]]; [lia| |];
    (eexists; split; [reflexivity|]; exists sent, got; rewrite Hlive;
     cbn [on_rl lg_snd lg_flight lg_rcv lg_refused ep_rl ep_out ep_in set_send ackedOffset broken
          sentCursor]; rewrite ?(Z.max_r n (sentCursor _)) in * by lia;
     split_and!; auto).
  intros _; specialize (H9 Hb); lia.
Qed.

Lemma leg_resume :
  leg_good w LResume
  /\ exists r, resumeOut (ep_rl (lg_snd l)) (recvOffsetNow (ep_rl (lg_rcv l)))
       = Some (r, negb (isBroken (ep_rl (lg_snd l)))).
Proof.
  pose proof Hl as (sent & got & H1 & H2 & H3 & H4 & H5 & H6 & H7 & H8 & H9 & H10).
  unfold leg_good; cbn [leg_apply]; unfold recvOffsetNow; rewrite (ri_recv _ _ _ H2).
  destruct (resumeOut_spec _ _ _ (len got) H1 (len_nonneg _))
    as (r & ok & -> & Hr & _ & Hok & Hf & Ht).
  assert (Hle : len got <= len sent) by (apply prefix_length in H5; unfold len; lia).
  unfold isBroken; destruct (broken (ep_rl (lg_snd l))) eqn:Hb; cbn in Hok.
  - subst ok; split; [|eauto]; eexists; split; [reflexivity|].
    exists sent, got; split_and!; cbn; auto; [apply inv_markBroken, H1|].
    intros; discriminate.
  - rewrite (proj2 (Z.leb_le _ _) (H9 eq_refl)), (proj2 (Z.leb_le _ _) Hle) in Hok.
    cbn in Hok; subst ok; specialize (Ht eq_refl); split; [|eauto].
    eexists; split; [reflexivity|].
    exists sent, got; split_and!; auto; cbn [lg_snd ep_rl on_rl]; rewrite Ht; cbn.
    + intros _; lia.
    + split; [exact I|]; destruct H5 as [k ->]; rewrite take_len_app, app_nil_r; reflexivity.
Qed.
End LegSteps.

(** What the application writes in one operation. *)
Definition leg_op_wrote (op : leg_op) : list byte := match op with LWrite d => d | _ => [] end.

Lemma leg_apply_good w l op :
  leg_inv w l -> lg_refused l = false -> leg_op_ok op -> len (w ++ leg_op_wrote op) < 2 ^ 63 ->
  leg_good l (w ++ leg_op_wrote op) op.
Proof.
  intros Hl Hlive Ho Hw; destruct op; cbn [leg_op_wrote] in *; rewrite ?app_nil_r in *;
    eauto using leg_write, leg_deliver, leg_ack;
    [apply leg_send; auto|apply leg_resume; auto].
Qed.

(** A send overflows the replay buffer when the bytes it takes from the pipe
    make more than [m] bytes numbered and unacknowledged. *)
Definition overflows (m : Z) (l : leg) (op : leg_op) : bool :=
  let r := ep_rl (lg_snd l) in
  match op with
  | LSend blen =>
      negb (has_pending r)
      && (0 <? len (p_buf (ep_out (lg_snd l))))
      && (m <? sendOffset r - ackedOffset r + Z.min blen (len (p_buf (ep_out (lg_snd l)))))
  | _ => false
  end.

(** Whether some send of a run overflows it. *)
Fixpoint leg_overflowed (m : Z) (l : leg) (ops : list leg_op) : bool :=
  match ops with
  | [] => false
  | op :: ops =>
      if lg_refused l then false else
      overflows m l op
      || match leg_apply l op with Some (l, _) => leg_overflowed m l ops | None => false end
  end.

Lemma number_out_overflow sent got r data :
  rel_inv sent got r -> broken r = false -> len sent + len data < 2 ^ 63 ->
  maxReplay (number_out r data).1 = maxReplay r
  /\ broken (number_out r data).1 = (maxReplay r <? sendOffset r - ackedOffset r + len data).
Proof.
  intros Hr Hb Hmax; pose proof (inv_replay_len sent got r Hr Hb) as Hlen; pose proof Hr as [].
  unfold number_out; rel_simp; rewrite u64_id, Hb by (unfold is_u64; len_lia); rel_simp.
  rewrite len_app, Hlen; case_if; auto.
Qed.

Lemma number_out_dead r data :
  broken r = true ->
  maxReplay (number_out r data).1 = maxReplay r /\ broken (number_out r data).1 = true.
Proof. intros Hb; unfold number_out; rel_simp; rewrite Hb; auto. Qed.

Lemma leg_apply_overflow w m l op l' err :
  leg_inv w l -> lg_refused l = false -> leg_op_ok op -> len w < 2 ^ 63 ->
  leg_apply l op = Some (l', err) -> maxReplay (ep_rl (lg_snd l)) = m ->
  maxReplay (ep_rl (lg_snd l')) = m
  /\ broken (ep_rl (lg_snd l'))
     = broken (ep_rl (lg_snd l)) || (negb (broken (ep_rl (lg_snd l))) && overflows m l op).
Proof.
  intros Hl Hlive Ho Hw E Hm.
  pose proof Hl as (sent & got & H1 & H2 & H3 & H4 & H5 & H6 & H7 & H8 & H9 & H10).
  destruct op as [d|blen| |lag|]; cbn [leg_apply overflows] in *; rewrite ?andb_false_r, ?orb_false_r.
  - destruct (pipe_Write _ d) as [[out r] ?]; injection E as <- _; auto.
  - unfold nextOut in E; destruct (has_pending (ep_rl (lg_snd l))) eqn:Hp.
    { destruct (pending_out_spec _ _ _ blen H1 Hp Ho) as (Ep & _); rewrite Ep in E.
      cbn [negb andb]; rewrite andb_false_r, orb_false_r.
      destruct (copied _ _); injection E as <- _; auto. }
    destruct (ReadAvailable_now (ep_out (lg_snd l)) blen Ho H6 H8) as [rest Er]; rewrite Er in E.
    pose proof (copied_uncopied blen (p_buf (ep_out (lg_snd l)))) as Hcu.
    pose proof (len_copied blen (p_buf (ep_out (lg_snd l))) (Z.lt_le_incl _ _ Ho)) as Hlc; cbn [negb andb].
    destruct (copied blen _) as [|b c] eqn:Hc.
    { injection E as <- _; cbn in Ho; change (len []) with 0 in Hlc; rewrite (proj2 (Z.ltb_ge 0 _)) by lia.
      cbn [lg_snd ep_rl andb]; rewrite andb_false_r, orb_false_r; auto. }
    assert (Hsz : len sent + len (b :: c) < 2 ^ 63).
    { rewrite <- H3, <- Hcu, !len_app in Hw.
      pose proof (len_nonneg (uncopied blen (p_buf (ep_out (lg_snd l))))); lia. }
    rewrite <- Hlc; rewrite (proj2 (Z.ltb_lt 0 (len (p_buf _)))) by (rewrite len_cons in Hlc; len_lia); cbn [andb].
    pose proof (number_out_overflow sent [] (ep_rl (lg_snd l)) (b :: c) H1) as Hn.
    pose proof (number_out_dead (ep_rl (lg_snd l)) (b :: c)) as Hd.
    destruct (number_out (ep_rl (lg_snd l)) (b :: c)) as [r off]; injection E as <- _.
    cbn [fst lg_snd ep_rl] in *; destruct (broken (ep_rl (lg_snd l))); cbn [negb andb orb].
    + destruct (Hd eq_refl); split; congruence.
    + destruct (Hn eq_refl Hsz); split; congruence.
  - destruct (lg_flight l) as [|[off d] rest]; [injection E as <- _; auto|].
    destruct (recvIn _ off d) as [[e e']|]; [|discriminate]; injection E as <- _; auto.
  - destruct (leg_ack w l Hl Hlive lag) as (l1 & E1 & _); cbn [leg_apply] in E1.
    rewrite E1 in E; injection E as <- <-; revert E1.
    destruct (rel_ack_spec _ _ _ (Z.max 0 (recvOffsetNow (ep_rl (lg_rcv l)) - Z.max 0 lag)) H1
                ltac:(lia)) as (r & err & -> & Hr & _ & Hc).
    intros E; injection E as <- ->; cbn [lg_snd on_rl ep_rl].
    destruct Hc as [(_&?&_)|[(_&_&_&->)|(Hn&_&Hb&->)]]; auto; done.
  - unfold recvOffsetNow in E; rewrite (ri_recv _ _ _ H2) in E.
    destruct (resumeOut_spec _ _ _ (len got) H1 (len_nonneg _)) as (r & ok & Er & Hr & _ & Hok & Hf & Ht).
    rewrite Er in E; assert (Hle : len got <= len sent) by (apply prefix_length in H5; unfold len; lia).
    destruct ok; injection E as <- _; cbn [lg_snd on_rl ep_rl]; [rewrite (Ht eq_refl); auto|].
    split; [exact Hm|]; cbn; destruct (broken (ep_rl (lg_snd l))) eqn:Hb; [reflexivity|].
    cbn in Hok; rewrite (proj2 (Z.leb_le _ _) (H9 eq_refl)), (proj2 (Z.leb_le _ _) Hle) in Hok; discriminate.
Qed.

Lemma leg_run_inv m ops :
  forall l w, leg_inv w l -> maxReplay (ep_rl (lg_snd l)) = m -> lg_refused l = false ->
  Forall leg_op_ok ops -> len w + len (leg_written ops) < 2 ^ 63 ->
  exists l' errs w', leg_run l ops = Some (l', errs)
    /\ Forall (fun e => e = None) errs /\ leg_inv w' l'
    /\ w' `prefix_of` w ++ leg_written ops
    /\ (broken (ep_rl (lg_snd l)) = true -> broken (ep_rl (lg_snd l')) = true)
    /\ (broken (ep_rl (lg_snd l)) = false ->
        broken (ep_rl (lg_snd l')) = leg_overflowed m l ops).
Proof.
  induction ops as [|op ops IH]; intros l w Hl Hx Hlive Hok Hv; cbn [leg_run leg_overflowed].
  { exists l, [], w; cbn; rewrite app_nil_r; split_and!; auto. }
  rewrite Hlive; inversion Hok as [|? ? Ho Hos]; subst; set (d := leg_op_wrote op).
  assert (Hd : leg_written (op :: ops) = d ++ leg_written ops) by reflexivity.
  rewrite Hd, len_app in Hv.
  destruct (leg_apply_good w l op Hl Hlive Ho) as (l1 & E & Hl1); [fold d; len_lia|].
  destruct (leg_apply_overflow w _ l op l1 None Hl Hlive Ho ltac:(len_lia) E eq_refl) as [Hx1 Hb1].
  rewrite E, Hd, app_assoc; fold d in Hl1; cbn zeta.
  destruct (lg_refused l1) eqn:Hr1.
  - assert (Hdead : broken (ep_rl (lg_snd l1)) = true)
      by (destruct Hl1 as (? & ? & Hz); destruct_and! Hz; rewrite Hr1 in *; assumption).
    assert (Hend : leg_overflowed (maxReplay (ep_rl (lg_snd l))) l1 ops = false)
      by (destruct ops; cbn; rewrite ?Hr1; reflexivity).
    destruct ops as [|op' ops']; cbn [leg_run]; rewrite ?Hr1;
      (exists l1, [None], (w ++ d); split_and!; auto;
       [apply prefix_app_r; reflexivity|intros Hb; rewrite Hb in Hb1; cbn in Hb1; rewrite <- Hb1, Hdead; reflexivity]).
  - destruct (IH l1 (w ++ d) Hl1 Hx1 Hr1 Hos ltac:(len_lia))
      as (l2 & errs & w2 & -> & H1 & H2 & H3 & H4 & H5).
    exists l2, (None :: errs), w2; split_and!; auto.
    + intros Hb; apply H4; rewrite Hb1, Hb; reflexivity.
    + intros Hb; rewrite Hb in Hb1; cbn in Hb1; rewrite <- Hb1.
      destruct (broken (ep_rl (lg_snd l1))); cbn; auto.
Qed.

Lemma new_leg_inv m m' : leg_inv [] (new_leg m m').
Proof.
  exists [], []; split_and!; auto; try apply inv_new; try (intros; reflexivity); cbn; auto.
Qed.

(** ** Properties *)

(** C7: exactly-once, in-order delivery end to end: whatever the network does
    to what the two ends send (loss, duplication, reordering, replay of stale
    frames, acknowledgements and handshakes) and however the calls of both ends
    interleave, what one application has read is a prefix of what the other
    application has written. *)
Theorem exactly_once_in_order m s b :
  rtc sys_step (new_sys m) s ->
  sd_read (sides s b) `prefix_of` sd_written (sides s (negb b)).
Proof.
  intros H; apply sys_reachable_inv in H as [Hs Hp _ _].
  transitivity (sd_got (sides s b)); [destruct (Hs b) as [_ _ -> _]; apply prefix_app_r; reflexivity|].
  etransitivity; [apply Hp|].
  destruct (Hs (negb b)) as [_ <- _ _]; apply prefix_app_r; reflexivity.
Qed.

(** Acknowledgements of an honest peer are always honoured: in every
    reachable state, however stale, an acknowledgement that is on the wire is
    accepted without errBadAck, never un-acknowledges and never discards a
    byte the peer lacks. *)
Theorem wire_ack_honoured m s b n :
  rtc sys_step (new_sys m) s -> In (PAck n) (wires s (negb b)) ->
  exists r, rel_ack (rl (sides s b)) n = Some (r, None)
    /\ isBroken r = isBroken (rl (sides s b))
    /\ ackedOffset (rl (sides s b)) <= ackedOffset r
    /\ (isBroken r = false -> ackedOffset r <= recvOffsetNow (rl (sides s (negb b)))).
Proof.
  intros H Hin; apply sys_reachable_inv in H as [Hs Hp Ha Hw].
  pose proof (Hw (negb b)) as Hwb; rewrite Forall_forall in Hwb.
  apply list_elem_of_In, Hwb in Hin; cbn in Hin.
  assert (Hle : len (sd_got (sides s (negb b))) <= len (sd_sent (sides s b))).
  { specialize (Hp (negb b)); rewrite negb_involutive in Hp; apply prefix_length in Hp.
    unfold len; lia. }
  destruct (rel_ack_spec _ _ _ n (si_rel _ (Hs b)) (proj1 Hin)) as (r & err & E & _ & _ & Hc).
  exists r; unfold isBroken, recvOffsetNow; rewrite (ri_recv _ _ _ (si_rel _ (Hs (negb b)))).
  destruct Hc as [(?&_)|[(_&->&Hb&->)|(_&->&Hb&->)]]; [lia| |]; split_and!; auto; cbn; try lia.
  intros _; specialize (Ha b Hb); lia.
Qed.

(** C8: a resume completes the delivery: in every reachable state whose sender
    is not broken, the handshake with the receiver's current offset is
    accepted, and handing the replayed chunks to recvIn succeeds and leaves the
    receiver with every byte the sender ever numbered. *)
Theorem resume_completes_delivery m s b blen k :
  rtc sys_step (new_sys m) s ->
  isBroken (rl (sides s b)) = false -> p_closed (ep_in (sd_ep (sides s (negb b)))) = false ->
  0 < blen -> len (sd_sent (sides s b)) <= Z.of_nat k ->
  exists r chunks e e',
    resumeOut (rl (sides s b)) (recvOffsetNow (rl (sides s (negb b)))) = Some (r, true)
    /\ drain k (on_rl (fun _ => r) (sd_ep (sides s b))) blen = (chunks, e)
    /\ deliver (sd_ep (sides s (negb b))) chunks = Some (e', None)
    /\ recvOffsetNow (ep_rl e') = sendOffset r
    /\ sd_read (sides s (negb b)) ++ p_buf (ep_in e') = sd_sent (sides s b).
Proof.
  intros H Hb Hcl Hl Hk; apply sys_reachable_inv in H as [Hs Hp Ha _].
  destruct (Hs b) as [Hr _ _ Hmax], (Hs (negb b)) as [Hr' _ Hin _].
  pose proof (Hp (negb b)) as Hq; rewrite negb_involutive in Hq; destruct Hq as [more Hq].
  set (got := sd_got (sides s (negb b))) in *; set (sent := sd_sent (sides s b)) in *.
  unfold recvOffsetNow; rewrite (ri_recv _ _ _ Hr').
  destruct (resumeOut_spec _ _ _ (len got) Hr (len_nonneg _)) as (r & ok & E & Hr1 & _ & Hok & _ & Ht).
  assert (Hab : ackedOffset (rl (sides s b)) <= len got) by apply (Ha b Hb).
  unfold isBroken in Hb; rewrite Hb, (proj2 (Z.leb_le _ _) Hab) in Hok.
  rewrite (proj2 (Z.leb_le _ _)) in Hok by (rewrite Hq; len_lia); cbn in Hok; subst ok.
  specialize (Ht eq_refl); assert (Hb1 : broken r = false) by (rewrite Ht; exact Hb).
  assert (Hsr : sendOffset r = len sent) by apply (ri_send _ _ _ Hr1).
  assert (Hcr : sentCursor r = len got) by (rewrite Ht; reflexivity).
  destruct (drain_spec _ _ blen k (on_rl (fun _ => r) (sd_ep (sides s b))) Hr1 Hb1 Hl)
    as (D1 & D2 & _); [cbn; len_lia|].
  cbn [on_rl ep_rl] in D1, D2; rewrite Hcr, Hq, drop_len_app in D1; rewrite Hcr in D2.
  destruct (drain k _ blen) as [chunks e] eqn:Hdr; cbn [fst] in *.
  assert (Hm : len got + len more < 2 ^ 63)
    by (rewrite <- len_app, <- Hq; apply (ri_send_max _ _ _ Hr)).
  destruct (deliver_spec _ chunks _ _ Hr' Hcl D2) as (e' & E' & Hr2 & Hbuf & _);
    [rewrite D1; exact Hm|].
  exists r, chunks, e, e'; rewrite D1 in *; split_and!; auto.
  - rewrite (ri_recv _ _ _ Hr2), Hsr, Hq; reflexivity.
  - rewrite Hbuf, Hq, Hin, <- app_assoc; reflexivity.
Qed.

(** C9: over ordered transports honest ends never lose synchronisation: in any
    run of writes, sends, deliveries, delayed acknowledgements and
    transport losses followed by the resume handshake, no call reports an
    error (so never errReplayGap or errBadAck), what arrived is a prefix of
    what was written, and a resume is accepted exactly as long as the replay
    buffer has not overflowed: the layer is broken if and only if some send of
    the run made more than maxReplay bytes numbered and unacknowledged, the
    handshake is accepted if and only if none did, and a run is cut short by a
    refused resume only after such a send. *)
Theorem ordered_leg_never_gaps m m' ops :
  Forall leg_op_ok ops -> len (leg_written ops) < 2 ^ 63 ->
  exists l errs, leg_run (new_leg m m') ops = Some (l, errs)
    /\ Forall (fun e => e = None) errs
    /\ p_buf (ep_in (lg_rcv l)) `prefix_of` leg_written ops
    /\ let overflowed := leg_overflowed (maxReplay (newReliable m)) (new_leg m m') ops in
       isBroken (ep_rl (lg_snd l)) = overflowed
       /\ (lg_refused l = true -> overflowed = true)
       /\ (lg_refused l = false ->
           exists r, resumeOut (ep_rl (lg_snd l)) (recvOffsetNow (ep_rl (lg_rcv l)))
             = Some (r, negb overflowed)).
Proof.
  intros Hok Hv.
  destruct (leg_run_inv (maxReplay (newReliable m)) ops (new_leg m m') [] (new_leg_inv m m'))
    as (l & errs & w & E & He & Hl & Hw & _ & Hx); auto; specialize (Hx eq_refl).
  exists l, errs; split; [exact E|]; split; [exact He|]; split; [|cbv zeta; rewrite <- Hx].
  - destruct Hl as (sent & got & _ & _ & H3 & -> & H5 & _); etransitivity; [exact H5|].
    etransitivity; [|exact Hw]; rewrite <- H3; apply prefix_app_r; reflexivity.
  - split; [reflexivity|]; split; [|intros Hr; eapply leg_resume; eauto].
    destruct Hl as (sent & got & _ & _ & _ & _ & _ & _ & _ & _ & _ & H10).
    intros Hr; rewrite Hr in H10; exact H10.
Qed.

(** ** Witnesses *)

(** End [true] writes two bytes and sends them; end [false] receives them,
    acknowledges and reads. *)
Definition after (s : sys) (b : bool) (x : side) (out : list packet) : sys :=
  mk_sys (upd b x (sides s)) (upd b (wires s b ++ out) (wires s)).

Definition ex_data : list byte := [Byte.x41; Byte.x42].
Definition ex_full : pipe := (pipe_Write NewBufferedPipe ex_data).1.1.
Definition ex_empty : pipe := set_buf [] ex_full.
Definition ex_sentrl : reliable := (number_out (newReliable 16) ex_data).1.
Definition ex_gotrl : reliable := set_recv 2 0 (newReliable 16).

Definition ex1 : sys := after (new_sys (fun _ => 16)) true
  (mk_side (mk_ep (newReliable 16) ex_full NewBufferedPipe) [] ex_data [] [] []) [].
Definition ex2 : sys := after ex1 true
  (mk_side (mk_ep (newReliable 16) ex_empty NewBufferedPipe) ex_data ex_data [] [] []) [].
Definition ex3 : sys := after ex2 true
  (mk_side (mk_ep ex_sentrl ex_empty NewBufferedPipe) [] ex_data [] ex_data []) [PData 0 ex_data].
Definition ex4 : sys := after ex3 false
  (mk_side (mk_ep ex_gotrl NewBufferedPipe ex_full) [] [] [] [] ex_data) [].
Definition ex5 : sys := after ex4 false
  (mk_side (mk_ep (takeAck ex_gotrl).1 NewBufferedPipe ex_full) [] [] [] [] ex_data) [PAck 2].
Definition ex6 : sys := after ex5 false
  (mk_side (mk_ep (takeAck ex_gotrl).1 NewBufferedPipe ex_empty) [] [] ex_data [] ex_data) [].

Lemma step_after s b x out :
  side_step (wires s (negb b)) (sides s b) x out -> sys_step s (after s b x out).
Proof. apply sys_side. Qed.

Lemma ex3_reachable : rtc sys_step (new_sys (fun _ => 16)) ex3.
Proof.
  apply (rtc_l _ _ ex1); [|apply (rtc_l _ _ ex2); [|apply rtc_once]]; apply step_after.
  - apply (st_write _ (new_side 16) ex_data ex_full 2 false); reflexivity.
  - apply (st_take _ (sides ex1 true) 16 ex_empty ex_data []); reflexivity.
  - apply (st_number _ (sides ex2 true) ex_sentrl 0); [discriminate|reflexivity].
Qed.

Lemma ex6_reachable : rtc sys_step (new_sys (fun _ => 16)) ex6.
Proof.
  etransitivity; [apply ex3_reachable|].
  apply (rtc_l _ _ ex4); [|apply (rtc_l _ _ ex5); [|apply rtc_once]]; apply step_after.
  - apply (st_recv _ (sides ex3 false) 0 ex_data (mk_ep ex_gotrl NewBufferedPipe ex_full) None);
      [left|]; reflexivity.
  - apply (st_takeAck _ (sides ex4 false) (takeAck ex_gotrl).1 2); reflexivity.
  - apply (st_read _ (sides ex5 false) 16 ex_empty ex_data); reflexivity.
Qed.

Lemma exactly_once_in_order_witness : ex_data `prefix_of` ex_data.
Proof. exact (exactly_once_in_order (fun _ => 16) ex6 false ex6_reachable). Defined.

Lemma wire_ack_honoured_witness :
  exists r, rel_ack (rl (sides ex6 true)) 2 = Some (r, None)
    /\ isBroken r = isBroken (rl (sides ex6 true))
    /\ ackedOffset (rl (sides ex6 true)) <= ackedOffset r
    /\ (isBroken r = false -> ackedOffset r <= recvOffsetNow (rl (sides ex6 false))).
Proof.
  apply (wire_ack_honoured (fun _ => 16) ex6 true 2 ex6_reachable); left; reflexivity.
Defined.

Lemma resume_completes_delivery_witness :
  exists r chunks e e',
    resumeOut (rl (sides ex3 true)) (recvOffsetNow (rl (sides ex3 false))) = Some (r, true)
    /\ drain 2 (on_rl (fun _ => r) (sd_ep (sides ex3 true))) 1 = (chunks, e)
    /\ deliver (sd_ep (sides ex3 false)) chunks = Some (e', None)
    /\ recvOffsetNow (ep_rl e') = sendOffset r
    /\ [] ++ p_buf (ep_in e') = ex_data.
Proof.
  apply (resume_completes_delivery (fun _ => 16) ex3 true 1 2 ex3_reachable);
    vm_compute; congruence.
Defined.

Definition ex_ops : list leg_op :=
  [LWrite ex_data; LSend 1; LSend 1; LDeliver; LAck 0; LResume; LSend 8; LDeliver; LAck 1].

(** Within the bound the resume is accepted; with room for one byte the second
    send overflows and the resume is refused. *)
Lemma ordered_leg_never_gaps_witness :
  (exists l errs, leg_run (new_leg 16 16) ex_ops = Some (l, errs)
     /\ p_buf (ep_in (lg_rcv l)) `prefix_of` leg_written ex_ops
     /\ isBroken (ep_rl (lg_snd l)) = false)
  /\ exists l errs, leg_run (new_leg 1 16) ex_ops = Some (l, errs)
     /\ Forall (fun e => e = None) errs
     /\ isBroken (ep_rl (lg_snd l)) = true /\ lg_refused l = true.
Proof.
  split.
  - destruct (ordered_leg_never_gaps 16 16 ex_ops) as (l & errs & E & _ & Hp & Hb & _);
      [repeat constructor|reflexivity|].
    exists l, errs; vm_compute in E; injection E as <- <-.
    split; [reflexivity|]; split; [exact Hp|exact Hb].
  - destruct (ordered_leg_never_gaps 1 16 ex_ops) as (l & errs & E & He & _ & Hb & _);
      [repeat constructor|reflexivity|].
    exists l, errs; vm_compute in E; injection E as <- <-.
    split; [reflexivity|]; split; [exact He|]; split; [exact Hb|reflexivity].
Defined.

(** The run above loses its second byte with the transport and delivers it
    after the resume. *)
Example ex_ops_run :
  option_map (fun le => p_buf (ep_in (lg_rcv le.1))) (leg_run (new_leg 16 16) ex_ops)
  = Some ex_data.
Proof. reflexivity. Qed.
