(* ===== verification/Attach.v ===== *)
(** * Attach.v: one transport per direction

    Models the attachment tracking of src/resume_server.go: the two slots of a
    resumable session, the claim/kick/wait protocol of attach, detach and
    kickAll, and the resume lock.  The lock sections of the methods are
    executable functions on [attachments]; the goroutines that run them are
    [thread]s of a step relation in which every interleaving is possible and a
    wait may end by its timeout at any moment. *)

From S2P Require Import Prelude.

Inductive attachKind : Type := attachDown | attachUp | attachBoth.

#[export] Instance attachKind_eq_dec : EqDecision attachKind.
Proof. solve_decision. Defined.

(** An attachment is named by its address; [a_done] are the attachments whose
    done channel is closed and [a_kicked] those whose kick callback has run. *)
Definition attachment : Type := nat.

Record attachments := mk_attachments {
  a_down : option attachment;
  a_up : option attachment;
  a_resuming : bool;
  a_done : gset attachment;
  a_kicked : gset attachment;
  a_next : attachment;
}.

Definition newAttachments : attachments := mk_attachments None None false ∅ ∅ 0%nat.

Definition detachWait : Z := 3 * Second.

(** [a.slot(kind)], read and written. *)
Definition slot (a : attachments) (kind : attachKind) : option attachment :=
  match kind with attachUp => a_up a | _ => a_down a end.
Definition set_slot (a : attachments) (kind : attachKind) (o : option attachment) : attachments :=
  match kind with
  | attachUp => mk_attachments (a_down a) o (a_resuming a) (a_done a) (a_kicked a) (a_next a)
  | _ => mk_attachments o (a_up a) (a_resuming a) (a_done a) (a_kicked a) (a_next a)
  end.

(** The directions attach goes through. *)
Definition attach_kinds (kind : attachKind) : list attachKind :=
  match kind with attachBoth => [attachDown; attachUp] | _ => [kind] end.

(** [att := &attachment{...}] *)
Definition new_attachment (a : attachments) : attachments * attachment :=
  (mk_attachments (a_down a) (a_up a) (a_resuming a) (a_done a) (a_kicked a) (S (a_next a)),
   a_next a).

Definition detach (a : attachments) (att : attachment) : attachments :=
  mk_attachments (if bool_decide (a_down a = Some att) then None else a_down a)
    (if bool_decide (a_up a = Some att) then None else a_up a)
    (a_resuming a) ({[att]} ∪ a_done a) (a_kicked a) (a_next a).

Definition isCurrent (a : attachments) (att : attachment) : bool :=
  bool_decide (a_down a = Some att) || bool_decide (a_up a = Some att).

(** [att.kick()], of which the attachments only see that it was called. *)
Definition kick (a : attachments) (att : attachment) : attachments :=
  mk_attachments (a_down a) (a_up a) (a_resuming a) (a_done a) ({[att]} ∪ a_kicked a) (a_next a).

(** One turn of attach's inner loop, under a.mu. *)
Inductive turn : Type :=
| TurnResuming                       (* a resume is in progress: give up *)
| TurnClaimed (a : attachments)      (* the slot was free and is ours *)
| TurnBusy (old : attachment).       (* someone owns it *)

Definition attach_turn (a : attachments) (att : attachment) (k : attachKind) : turn :=
  if a_resuming a then TurnResuming
  else match slot a k with
       | None => TurnClaimed (set_slot a k (Some att))
       | Some old => TurnBusy old
       end.

Definition set_resuming (b : bool) (a : attachments) : attachments :=
  mk_attachments (a_down a) (a_up a) b (a_done a) (a_kicked a) (a_next a).

Definition beginResume (a : attachments) : attachments * bool :=
  if a_resuming a then (a, false) else (set_resuming true a, true).
Definition endResume (a : attachments) : attachments := set_resuming false a.

(** The owners kickAll sees. *)
Definition kickAll_olds (a : attachments) : list attachment :=
  omap id [a_down a; a_up a].

(** ** Goroutines *)

Inductive thread : Type :=
| TAttach (att : attachment) (got todo : list attachKind)   (* before a turn of the loop *)
| TAttachWait (att : attachment) (got todo : list attachKind) (old : attachment)
| TRunning (att : attachment) (got : list attachKind)       (* attach returned att *)
| TResume                                                   (* before beginResume *)
| TKickAll                                                  (* before kickAll *)
| TKickWait (olds : list attachment)                        (* inside kickAll *)
| THandshake                                                (* kickAll returned nil *)
| TReturned (err : option goerr).

Inductive tstep (a : attachments) : thread -> attachments -> thread -> Prop :=
| ts_resuming att got k todo :
    attach_turn a att k = TurnResuming ->
    tstep a (TAttach att got (k :: todo)) (detach a att) (TReturned (Some errStillAttached))
| ts_claim att got k todo a' :
    attach_turn a att k = TurnClaimed a' ->
    tstep a (TAttach att got (k :: todo)) a'
      (match todo with [] => TRunning att (got ++ [k]) | _ => TAttach att (got ++ [k]) todo end)
| ts_busy att got k todo old :
    attach_turn a att k = TurnBusy old ->
    tstep a (TAttach att got (k :: todo)) (kick a old) (TAttachWait att got (k :: todo) old)
| ts_left att got todo old :
    old ∈ a_done a ->
    tstep a (TAttachWait att got todo old) a (TAttach att got todo)
| ts_timeout att got todo old :
    tstep a (TAttachWait att got todo old) (detach a att) (TReturned (Some errStillAttached))
| ts_leave att got : tstep a (TRunning att got) (detach a att) (TReturned None)
| ts_begin a' :
    beginResume a = (a', true) -> tstep a TResume a' TKickAll
| ts_refused a' :
    beginResume a = (a', false) -> tstep a TResume a' (TReturned (Some errStillAttached))
| ts_snapshot :
    tstep a TKickAll
      (match kickAll_olds a with [] => a | old :: _ => kick a old end)
      (match kickAll_olds a with [] => THandshake | olds => TKickWait olds end)
| ts_waited old olds :
    old ∈ a_done a ->
    tstep a (TKickWait (old :: olds))
      (match olds with [] => a | old :: _ => kick a old end)
      (match olds with [] => THandshake | _ => TKickWait olds end)
| ts_kick_timeout old olds :
    tstep a (TKickWait (old :: olds)) (endResume a) (TReturned (Some errStillAttached))
| ts_end : tstep a THandshake (endResume a) (TReturned None).

Record asys := mk_asys { as_att : attachments; as_threads : list thread }.

Inductive astep (s : asys) : asys -> Prop :=
| as_thread i t a' t' :
    as_threads s !! i = Some t -> tstep (as_att s) t a' t' ->
    astep s (mk_asys a' (<[i:=t']> (as_threads s)))
| as_attach kind a' att :
    new_attachment (as_att s) = (a', att) ->
    astep s (mk_asys a' (as_threads s ++ [TAttach att [] (attach_kinds kind)]))
| as_resume : astep s (mk_asys (as_att s) (as_threads s ++ [TResume])).

Definition new_asys : asys := mk_asys newAttachments [].

(** ** Invariant *)

(** The claim a goroutine holds. *)
Definition claim (t : thread) : option (attachment * list attachKind) :=
  match t with
  | TAttach att got _ | TAttachWait att got _ _ | TRunning att got => Some (att, got)
  | _ => None
  end.

(** The directions it holds and still wants are single ones. *)
Definition well_kinded (t : thread) : Prop :=
  match t with
  | TAttach _ got todo | TAttachWait _ got todo _ => attachBoth ∉ got ++ todo
  | TRunning _ got => (attachBoth ∉ got) /\ got <> []
  | _ => True
  end.

Definition resuming_thread (t : thread) : bool :=
  match t with TKickAll | TKickWait _ | THandshake => true | _ => false end.

(** What a resuming goroutine knows: the slots it has not seen emptied. *)
Definition knows (t : thread) (a : attachments) : Prop :=
  match t with
  | TKickWait olds => forall k x, slot a k = Some x -> x ∈ olds
  | THandshake => forall k, slot a k = None
  | _ => True
  end.

(** Ownership: a slot is held exactly by the one goroutine that claimed it,
    and no owner has announced that it left. *)
Record own_inv (a : attachments) (ts : list thread) : Prop := {
  oi_live : forall k x, slot a k = Some x -> x ∉ a_done a;
  oi_own : forall k x, k <> attachBoth -> (slot a k = Some x <->
    exists i t got, ts !! i = Some t /\ claim t = Some (x, got) /\ k ∈ got);
  oi_claim : forall i t att got, ts !! i = Some t -> claim t = Some (att, got) ->
    (att < a_next a)%nat /\ (att ∉ a_done a)
    /\ (forall j t' got', ts !! j = Some t' -> claim t' = Some (att, got') -> i = j);
  oi_want : forall i t, ts !! i = Some t -> well_kinded t;
  oi_done : forall x, x ∈ a_done a -> (x < a_next a)%nat;
}.

(** The resume lock: held by exactly one goroutine, which knows the slots. *)
Record res_inv (a : attachments) (ts : list thread) : Prop := {
  re_holder : forall i t, ts !! i = Some t -> resuming_thread t = true ->
    a_resuming a = true /\ knows t a
    /\ (forall j t', ts !! j = Some t' -> resuming_thread t' = true -> i = j);
  re_held : a_resuming a = true -> exists i t, ts !! i = Some t /\ resuming_thread t = true;
}.

(** Look a goroutine up in an updated list. *)
Ltac at_insert Hat :=
  apply list_lookup_insert_Some in Hat as [(<- & <- & ?)|(? & Hat)]; try discriminate.

Lemma lookup_snoc_Some {A} (l : list A) (y : A) (j : nat) (x : A) :
  (l ++ [y]) !! j = Some x <-> l !! j = Some x \/ (j = length l /\ x = y).
Proof.
  rewrite lookup_app_Some, list_lookup_singleton_Some; split.
  - intros [H|(Hj & H & <-)]; [auto|right; split; [lia|reflexivity]].
  - intros [H|[-> ->]]; [auto|right; split; [lia|split; [lia|reflexivity]]].
Qed.

Section Ownership.
Context (a : attachments) (ts : list thread) (i : nat) (t : thread).
Context (Hown : own_inv a ts) (Hi : ts !! i = Some t).

Lemma own_same a' t' :
  (forall k, slot a' k = slot a k) -> a_done a' = a_done a -> a_next a' = a_next a ->
  claim t' = claim t -> well_kinded t' -> own_inv a' (<[i:=t']> ts).
Proof.
  intros Hs Hd Hn Hc Hw; destruct Hown as [H1 H2 H3 H4 H5]; constructor; rewrite ?Hd, ?Hn; auto.
  - intros k x; rewrite Hs; apply H1.
  - intros k x Hk; rewrite Hs, (H2 k x Hk); split; intros (j & u & got & Hj & Hu & Hg).
    + destruct (decide (i = j)) as [<-|Hne].
      * simplify_eq; exists i, t', got; rewrite list_lookup_insert_eq by eauto using lookup_lt_Some.
        rewrite Hc; auto.
      * exists j, u, got; rewrite list_lookup_insert_ne by done; auto.
    + at_insert Hj; [exists i, t, got; rewrite Hc in Hu|exists j, u, got]; auto.
  - intros j u att got Hj Hu.
    assert (Hx : exists v, ts !! j = Some v /\ claim v = Some (att, got))
      by (at_insert Hj; [exists t; rewrite Hc in Hu|exists u]; auto).
    destruct Hx as (v & Hv & Hcv); destruct (H3 j v att got Hv Hcv) as (? & ? & Hq).
    split_and!; auto; intros j' u' got' Hj' Hu'.
    at_insert Hj'; [eapply Hq; [exact Hi|rewrite <- Hc; exact Hu']|eauto].
  - intros j u Hj; at_insert Hj; eauto.
Qed.

Lemma own_detach att got err :
  claim t = Some (att, got) -> own_inv (detach a att) (<[i:=TReturned err]> ts).
Proof.
  intros Hc; destruct Hown as [H1 H2 H3 H4 H5].
  assert (Hs : forall k x, slot (detach a att) k = Some x <-> slot a k = Some x /\ x <> att).
  { intros k x; destruct k; cbn; case_bool_decide; split; intros; simplify_eq;
      try (split; congruence); destruct_and!; congruence. }
  constructor; cbn [detach a_done a_next].
  - intros k x Hk; apply Hs in Hk as [Hk Hne]; apply H1 in Hk.
    rewrite not_elem_of_union, not_elem_of_singleton; auto.
  - intros k x Hk; rewrite Hs, (H2 k x Hk); split.
    + intros [(j & u & g & Hj & Hu & Hg) Hne]; exists j, u, g.
      rewrite list_lookup_insert_ne; auto; intros <-; congruence.
    + intros (j & u & g & Hj & Hu & Hg); at_insert Hj; split; [exists j, u, g; auto|].
      intros ->; destruct (H3 i t att got Hi Hc) as (_ & _ & Hq); eauto.
  - intros j u x g Hj Hu; at_insert Hj.
    destruct (H3 j u x g Hj Hu) as (? & ? & Hq); destruct (H3 i t att got Hi Hc) as (_ & _ & Hq').
    split_and!; auto.
    + assert (x <> att) by (intros ->; eauto).
      rewrite not_elem_of_union, not_elem_of_singleton; auto.
    + intros j' u' g' Hj' Hu'; at_insert Hj'; eauto.
  - intros j u Hj; at_insert Hj; [exact I|eauto].
  - intros x Hx; apply elem_of_union in Hx as [Hx|Hx]; [|auto].
    apply elem_of_singleton in Hx as ->; apply (H3 i t att got Hi Hc).
Qed.

Lemma own_claim att got k todo a' t' :
  t = TAttach att got (k :: todo) -> attach_turn a att k = TurnClaimed a' ->
  claim t' = Some (att, got ++ [k]) -> well_kinded t' ->
  own_inv a' (<[i:=t']> ts).
Proof.
  intros -> Ht Hc Hw; destruct Hown as [H1 H2 H3 H4 H5].
  unfold attach_turn in Ht; destruct (a_resuming a); [discriminate|].
  destruct (slot a k) eqn:Hk; [discriminate|]; injection Ht as <-.
  pose proof (H4 _ _ Hi) as Hw'; cbn in Hw'; rewrite not_elem_of_app, not_elem_of_cons in Hw'.
  destruct (H3 i _ att got Hi eq_refl) as (Ha & Hd & Hq).
  assert (Hs : forall k', k' <> attachBoth ->
    slot (set_slot a k (Some att)) k' = if decide (k' = k) then Some att else slot a k')
    by (intros k' ?; destruct_and!; destruct (decide (k' = k)) as [->|]; destruct k; try destruct k'; cbn; congruence).
  assert (Hdn : a_done (set_slot a k (Some att)) = a_done a
    /\ a_next (set_slot a k (Some att)) = a_next a) by (destruct k; auto).
  destruct Hdn as [Hdn Hnx]; constructor; rewrite ?Hdn, ?Hnx; auto.
  - intros k' x Hx; destruct (decide (k' = attachBoth)) as [->|Hb].
    + destruct k; cbn in Hx; simplify_eq; auto; apply (H1 attachDown x Hx).
    + rewrite Hs in Hx by done; destruct (decide (k' = k)); simplify_eq; [exact Hd|].
      apply (H1 k' x Hx).
  - intros k' x Hb; rewrite Hs by done; split.
    + intros Hx; destruct (decide (k' = k)) as [->|Hne].
      * simplify_eq; exists i, t', (got ++ [k]); rewrite list_lookup_insert_eq
          by eauto using lookup_lt_Some; rewrite elem_of_app, list_elem_of_singleton; auto.
      * apply H2 in Hx as (j & u & g & Hj & Hu & Hg); [|done].
        destruct (decide (i = j)) as [<-|Hij].
        -- rewrite Hi in Hj; injection Hj as <-; injection Hu as <- <-.
           exists i, t', (got ++ [k]); rewrite list_lookup_insert_eq
             by eauto using lookup_lt_Some; rewrite elem_of_app, list_elem_of_singleton; auto.
        -- exists j, u, g; rewrite list_lookup_insert_ne by done; auto.
    + intros (j & u & g & Hj & Hu & Hg); destruct (decide (k' = k)) as [->|Hne].
      * at_insert Hj; [congruence|].
        assert (slot a k = Some x) by (apply H2; eauto 6); congruence.
      * apply H2; [done|]; at_insert Hj; [|eauto 6].
        rewrite Hc in Hu; injection Hu as <- <-; eexists i, _, got; split; [exact Hi|].
        split; [reflexivity|]; apply elem_of_app in Hg as [Hg|Hg]; [exact Hg|].
        apply list_elem_of_singleton in Hg; done.
  - intros j u x g Hj Hu; at_insert Hj.
    + rewrite Hc in Hu; injection Hu as <- <-; split; [exact Ha|]; split; [exact Hd|].
      intros j' u' g' Hj' Hu'; at_insert Hj'; eauto.
    + destruct (H3 j u x g Hj Hu) as (? & ? & Hq'); split_and!; auto.
      intros j' u' g' Hj' Hu'; at_insert Hj'; eauto.
      rewrite Hc in Hu'; injection Hu' as <- <-; eapply Hq'; eauto; reflexivity.
  - intros j u Hj; at_insert Hj; [exact Hw|eauto].
Qed.
End Ownership.

Lemma own_spawn a ts kind a' att :
  own_inv a ts -> new_attachment a = (a', att) ->
  own_inv a' (ts ++ [TAttach att [] (attach_kinds kind)]).
Proof.
  intros [H1 H2 H3 H4 H5] E; injection E as <- <-; constructor; cbn [a_done a_next].
  - intros k x Hk; apply (H1 k x); destruct k; exact Hk.
  - intros k x Hb; transitivity (slot a k = Some x); [destruct k; reflexivity|].
    rewrite (H2 k x Hb); split; intros (j & u & g & Hj & Hu & Hg).
    + exists j, u, g; rewrite lookup_snoc_Some; auto.
    + apply lookup_snoc_Some in Hj as [Hj|[-> ->]]; [eauto 6|]; cbn in Hu; simplify_eq; set_solver.
  - intros j u x g Hj Hu; apply lookup_snoc_Some in Hj as [Hj|[-> ->]].
    + destruct (H3 j u x g Hj Hu) as (? & ? & Hq); split_and!; auto.
      intros j' u' g' Hj' Hu'; apply lookup_snoc_Some in Hj' as [Hj'|[-> ->]]; [eauto|].
      cbn in Hu'; simplify_eq; lia.
    + cbn in Hu; simplify_eq; split_and!; [lia|intros Hx; apply H5 in Hx; lia|].
      intros j' u' g' Hj' Hu'; apply lookup_snoc_Some in Hj' as [Hj'|[-> ->]]; [|done].
      destruct (H3 _ _ _ _ Hj' Hu') as (? & _); lia.
  - intros j u Hj; apply lookup_snoc_Some in Hj as [Hj|[-> ->]]; [eauto|].
    destruct kind; cbn; rewrite ?not_elem_of_cons; split_and?; try done; apply not_elem_of_nil.
  - intros x Hx; apply H5 in Hx; lia.
Qed.

Lemma own_spawn_resume a ts : own_inv a ts -> own_inv a (ts ++ [TResume]).
Proof.
  intros [H1 H2 H3 H4 H5]; constructor; auto.
  - intros k x Hb; rewrite (H2 k x Hb); split; intros (j & u & g & Hj & Hu & Hg).
    + exists j, u, g; rewrite lookup_snoc_Some; auto.
    + apply lookup_snoc_Some in Hj as [Hj|[-> ->]]; [eauto 6|discriminate].
  - intros j u x g Hj Hu; apply lookup_snoc_Some in Hj as [Hj|[-> ->]]; [|discriminate].
    destruct (H3 j u x g Hj Hu) as (? & ? & Hq); split_and!; auto.
    intros j' u' g' Hj' Hu'; apply lookup_snoc_Some in Hj' as [Hj'|[-> ->]]; [eauto|discriminate].
  - intros j u Hj; apply lookup_snoc_Some in Hj as [Hj|[-> ->]]; [eauto|exact I].
Qed.

Lemma knows_shrink t a a' :
  (forall k x, slot a' k = Some x -> slot a k = Some x) -> knows t a -> knows t a'.
Proof.
  intros Hs Hk; destruct t; cbn in *; auto; [intros k x Hx; eauto|].
  intros k; destruct (slot a' k) eqn:E; [|reflexivity]; apply Hs in E; congruence.
Qed.

Section ResumeLock.
Context (a : attachments) (ts : list thread) (i : nat) (t : thread).
Context (Hres : res_inv a ts) (Hi : ts !! i = Some t).

(** A step of a goroutine that does not hold the lock. *)
Lemma res_other a' t' :
  resuming_thread t = false -> resuming_thread t' = false -> a_resuming a' = a_resuming a ->
  (a_resuming a = true -> forall k x, slot a' k = Some x -> slot a k = Some x) ->
  res_inv a' (<[i:=t']> ts).
Proof.
  intros Ht Ht' Hr Hs; destruct Hres as [H1 H2]; constructor; rewrite Hr.
  - intros j u Hj Hu; at_insert Hj; [congruence|]; destruct (H1 j u Hj Hu) as (Hb & Hk & Hq).
    split_and!; [exact Hb|apply (knows_shrink u a); auto|].
    intros j' u' Hj' Hu'; at_insert Hj'; [congruence|eauto].
  - intros H; destruct (H2 H) as (j & u & Hj & Hu); exists j, u; split; [|exact Hu].
    rewrite list_lookup_insert_ne; [exact Hj|]; intros <-; congruence.
Qed.

(** A step of the holder that keeps the lock. *)
Lemma res_holder a' t' :
  resuming_thread t = true -> resuming_thread t' = true -> a_resuming a' = a_resuming a ->
  knows t' a' -> res_inv a' (<[i:=t']> ts).
Proof.
  intros Ht Ht' Hr Hk; destruct Hres as [H1 H2]; constructor; rewrite Hr.
  - destruct (H1 i t Hi Ht) as (H & _ & Hq).
    assert (Hone : forall j u, <[i:=t']> ts !! j = Some u -> resuming_thread u = true -> i = j)
      by (intros j u Hj Hu; at_insert Hj; [reflexivity|eapply Hq; eauto]).
    intros j u Hj Hu; pose proof (Hone j u Hj Hu) as <-.
    rewrite list_lookup_insert_eq in Hj by eauto using lookup_lt_Some; injection Hj as <-.
    split; [exact H|]; split; [exact Hk|exact Hone].
  - intros _; exists i, t'; rewrite list_lookup_insert_eq by eauto using lookup_lt_Some; auto.
Qed.

Lemma res_end err : resuming_thread t = true -> res_inv (endResume a) (<[i:=TReturned err]> ts).
Proof.
  intros Ht; destruct Hres as [H1 H2]; destruct (H1 i t Hi Ht) as (_ & _ & Hq).
  constructor; [|discriminate].
  intros j u Hj Hu; at_insert Hj; destruct (Hq j u Hj Hu); done.
Qed.

Lemma res_begin a' :
  t = TResume -> beginResume a = (a', true) -> res_inv a' (<[i:=TKickAll]> ts).
Proof.
  intros -> E; unfold beginResume in E; destruct (a_resuming a) eqn:Hr; [discriminate|].
  injection E as <-; destruct Hres as [H1 H2]; constructor; cbn.
  - assert (Hno : forall j u, ts !! j = Some u -> resuming_thread u = false).
    { intros j u Hj; destruct (resuming_thread u) eqn:Hu; [|reflexivity].
      destruct (H1 j u Hj Hu) as (? & _); congruence. }
    intros j u Hj Hu; at_insert Hj; [|rewrite (Hno _ _ Hj) in Hu; discriminate].
    split_and!; auto; [exact I|]; intros j' u' Hj' Hu'; at_insert Hj'; [reflexivity|].
    rewrite (Hno _ _ Hj') in Hu'; discriminate.
  - intros _; exists i, TKickAll; rewrite list_lookup_insert_eq by eauto using lookup_lt_Some; auto.
Qed.
End ResumeLock.

Lemma res_spawn a ts t a' :
  res_inv a ts -> resuming_thread t = false -> a_resuming a' = a_resuming a ->
  (forall k, slot a' k = slot a k) -> res_inv a' (ts ++ [t]).
Proof.
  intros [H1 H2] Ht Hr Hs; constructor; rewrite Hr.
  - intros j u Hj Hu; apply lookup_snoc_Some in Hj as [Hj|[-> ->]]; [|congruence].
    destruct (H1 j u Hj Hu) as (? & Hk & Hq); split_and!; auto.
    + eapply knows_shrink; [|exact Hk]; intros k x; rewrite Hs; auto.
    + intros j' u' Hj' Hu'; apply lookup_snoc_Some in Hj' as [Hj'|[-> ->]]; [eauto|congruence].
  - intros H; destruct (H2 H) as (j & u & Hj & Hu); exists j, u; rewrite lookup_snoc_Some; auto.
Qed.

Lemma detach_slot a att k x : slot (detach a att) k = Some x -> slot a k = Some x.
Proof. destruct k; cbn; case_bool_decide; congruence. Qed.

Lemma kickAll_olds_spec a x : x ∈ kickAll_olds a <-> exists k, slot a k = Some x.
Proof.
  unfold kickAll_olds; rewrite list_elem_of_omap; split.
  - intros (o & Ho & E); cbn in E; subst o; rewrite !elem_of_cons in Ho.
    destruct Ho as [H|[H|H]]; [exists attachDown|exists attachUp|apply not_elem_of_nil in H]; done.
  - intros [k Hk]; exists (Some x); split; [|reflexivity].
    rewrite <- Hk; destruct k; cbn; rewrite !elem_of_cons; auto.
Qed.

Definition att_inv (s : asys) : Prop :=
  own_inv (as_att s) (as_threads s) /\ res_inv (as_att s) (as_threads s).

Lemma tstep_own a ts i t a' t' :
  own_inv a ts -> ts !! i = Some t -> tstep a t a' t' -> own_inv a' (<[i:=t']> ts).
Proof.
  intros Ho Hi Hs; pose proof (oi_want _ _ Ho i t Hi) as Hw.
  destruct Hs; cbn [well_kinded] in Hw;
    try (eapply own_same; eauto; try (intros []; reflexivity); try reflexivity; exact I).
  - eapply own_detach; eauto; reflexivity.
  - eapply own_claim; eauto; destruct todo; try reflexivity; cbn.
    + split; [exact Hw|intros E; apply app_eq_nil in E as [_ E]; discriminate].
    + rewrite <- app_assoc; exact Hw.
  - eapply own_detach; eauto; reflexivity.
  - eapply own_detach; eauto; reflexivity.
  - eapply own_same; eauto; unfold beginResume in H; destruct (a_resuming a); simplify_eq;
      try reflexivity; try exact I; intros []; reflexivity.
  - eapply own_same; eauto; unfold beginResume in H; destruct (a_resuming a); simplify_eq;
      try reflexivity; exact I.
  - eapply own_same; eauto; destruct (kickAll_olds a); try reflexivity; try exact I;
      intros []; reflexivity.
  - eapply own_same; eauto; destruct olds; try reflexivity; try exact I;
      intros []; reflexivity.
Qed.

Lemma tstep_res a ts i t a' t' :
  own_inv a ts -> res_inv a ts -> ts !! i = Some t -> tstep a t a' t' -> res_inv a' (<[i:=t']> ts).
Proof.
  intros Ho Hr Hi Hs; destruct Hs; try (eapply res_other; eauto; fail).
  - eapply res_other; eauto using detach_slot.
  - unfold attach_turn in H; destruct (a_resuming a) eqn:E; [discriminate|].
    destruct (slot a k); [discriminate|]; injection H as <-.
    eapply res_other; eauto; [destruct todo; reflexivity|destruct k; auto|congruence].
  - eapply res_other; eauto using detach_slot.
  - eapply res_other; eauto using detach_slot.
  - eapply res_begin; eauto.
  - unfold beginResume in H; destruct (a_resuming a) eqn:E; simplify_eq.
    eapply res_other; eauto; congruence.
  - eapply res_holder; eauto; destruct (kickAll_olds a) as [|old olds] eqn:E; auto; cbn.
    + intros k; destruct (slot a k) eqn:Hk; [|reflexivity].
      assert (Hx : a0 ∈ kickAll_olds a) by (apply kickAll_olds_spec; eauto).
      rewrite E in Hx; apply not_elem_of_nil in Hx; done.
    + intros k x Hx; rewrite <- E; apply kickAll_olds_spec; exists k; destruct k; exact Hx.
  - destruct (re_holder _ _ Hr i _ Hi eq_refl) as (_ & Hk & _); cbn in Hk.
    assert (Hrest : forall k x, slot a k = Some x -> x ∈ olds).
    { intros k x Hx; pose proof (Hk k x Hx) as He; apply elem_of_cons in He as [->|He]; [|exact He].
      destruct (oi_live _ _ Ho k old Hx); assumption. }
    destruct olds; (eapply res_holder; [exact Hr|exact Hi|reflexivity..|]); cbn.
    + intros k; destruct (slot a k) eqn:E; [|reflexivity].
      apply Hrest, not_elem_of_nil in E; done.
    + intros k x Hx; eapply (Hrest k); destruct k; exact Hx.
  - eapply res_end; eauto.
  - eapply res_end; eauto.
Qed.

Lemma astep_inv s s' : att_inv s -> astep s s' -> att_inv s'.
Proof.
  intros [Ho Hr] Hs; destruct Hs; split; cbn [as_att as_threads].
  - eapply tstep_own; eauto.
  - eapply tstep_res; eauto.
  - eapply own_spawn; eauto.
  - injection H as <- <-; eapply res_spawn; eauto; intros []; reflexivity.
  - apply own_spawn_resume; assumption.
  - eapply res_spawn; eauto.
Qed.

Lemma new_asys_inv : att_inv new_asys.
Proof.
  split; constructor; cbn; try (intros; discriminate).
  - intros k x _; split; [destruct k; discriminate|].
    intros (i & t & got & H & _); discriminate.
Qed.

Lemma asys_reachable_inv s : rtc astep new_asys s -> att_inv s.
Proof. intros H; eapply rtc_invariant; eauto using astep_inv, new_asys_inv. Qed.

(** ** Properties *)

(** C11: one transport per direction: in every interleaving of attach, detach
    and resume calls, two goroutines whose attach returned never own the same
    direction, and an owner is current until it detaches itself; and no
    direction is left claimed by an attachment that has already let go: what a
    slot holds has not closed its done channel and belongs to exactly one
    goroutine, which has claimed that direction and is still inside attach or
    between attach and its detach. *)
Theorem one_owner_per_direction s :
  rtc astep new_asys s ->
  (forall i j att att' got got' k,
     as_threads s !! i = Some (TRunning att got) -> as_threads s !! j = Some (TRunning att' got') ->
     k ∈ got -> k ∈ got' -> k <> attachBoth ->
     i = j /\ att = att' /\ isCurrent (as_att s) att = true /\ att ∉ a_done (as_att s))
  /\ (forall k att, k <> attachBoth -> slot (as_att s) k = Some att ->
      (att ∉ a_done (as_att s))
      /\ exists i t got, as_threads s !! i = Some t /\ claim t = Some (att, got) /\ k ∈ got
         /\ (forall j t' got', as_threads s !! j = Some t' -> claim t' = Some (att, got') -> i = j)).
Proof.
  intros H; apply asys_reachable_inv in H as [[H1 H2 H3 _ _] _]; split.
  - intros i j att att' got got' k Hi Hj Hk Hk' Hb.
    assert (Hs : slot (as_att s) k = Some att) by (apply H2; eauto 6).
    assert (Hs' : slot (as_att s) k = Some att') by (apply H2; [done|]; eexists j, _, got'; eauto).
    rewrite Hs in Hs'; injection Hs' as <-; split_and!; auto.
    + eapply (H3 i _ att got Hi eq_refl); [exact Hj|reflexivity].
    + unfold isCurrent; destruct k; cbn in Hs; rewrite Hs; try done;
        rewrite ?(bool_decide_eq_true_2 (Some att = Some att)) by done; auto using orb_true_r.
    + eapply (H3 i _ att got Hi eq_refl).
  - intros k att Hb Hs; split; [eapply H1, Hs|].
    apply H2 in Hs as (i & t & got & Hi & Hc & Hg); [|done]; exists i, t, got; split_and!; auto.
    intros j t' got' Hj Hc'; eapply (H3 i t att got Hi Hc); eauto.
Qed.

(** C12: a resume handshake runs alone: while a goroutine is between kickAll's
    success and endResume, no transport owns a direction, no handler that
    attached is running, no attach can claim a direction, and no second resume
    is past beginResume, so the offsets it exchanges cannot move. *)
Theorem resume_handshake_is_exclusive s i :
  rtc astep new_asys s -> as_threads s !! i = Some THandshake ->
  a_down (as_att s) = None /\ a_up (as_att s) = None
  /\ (forall j att got, as_threads s !! j <> Some (TRunning att got))
  /\ (forall att k, attach_turn (as_att s) att k = TurnResuming)
  /\ (beginResume (as_att s)).2 = false
  /\ (forall j t, as_threads s !! j = Some t -> resuming_thread t = true -> j = i).
Proof.
  intros H Hi; apply asys_reachable_inv in H as [Ho [Hr _]].
  destruct (Hr i _ Hi eq_refl) as (Hb & Hk & Hq); cbn in Hk.
  split; [apply (Hk attachDown)|]; split; [apply (Hk attachUp)|]; split_and!.
  - intros j att got Hj; destruct Ho as [_ H2 _ H4 _].
    destruct (H4 _ _ Hj) as [Hnb Hne]; destruct got as [|k got]; [done|].
    apply not_elem_of_cons in Hnb as [Hnb _].
    assert (slot (as_att s) k = Some att).
    { apply H2; [congruence|]; eexists j, _, (k :: got); split; [exact Hj|].
      split; [reflexivity|]; apply elem_of_cons; auto. }
    rewrite Hk in *; discriminate.
  - intros att k; unfold attach_turn; rewrite Hb; reflexivity.
  - unfold beginResume; rewrite Hb; reflexivity.
  - intros j t Hj Ht; symmetry; eauto.
Qed.

(** A kick alone never takes a direction away: the kicked attachment stays
    current, so the handlers' isCurrent test cannot tell a kicked transport
    from one that was merely nudged; only its own detach releases it, and then
    it holds nothing and is done. *)
Theorem only_detach_releases a old att k :
  isCurrent (kick a old) att = isCurrent a att
  /\ slot (kick a old) k = slot a k
  /\ isCurrent (detach a att) att = false
  /\ att ∈ a_done (detach a att)
  /\ (forall x, x <> att -> isCurrent (detach a att) x = isCurrent a x).
Proof.
  split_and!; try reflexivity; try (destruct k; reflexivity).
  - unfold isCurrent; rewrite !bool_decide_eq_false_2 by
      (cbn; case_bool_decide; congruence); reflexivity.
  - cbn; apply elem_of_union; left; apply elem_of_singleton; reflexivity.
  - intros x Hx; unfold isCurrent; cbn.
    f_equal; apply bool_decide_ext; case_bool_decide; split; congruence.
Qed.

(** ** Witnesses *)

Definition ex_own : asys :=
  mk_asys (mk_attachments (Some 0%nat) None false ∅ ∅ 1%nat) [TRunning 0%nat [attachDown]].

Definition ex_claiming : asys :=
  mk_asys (mk_attachments None None false ∅ ∅ 1%nat) [TAttach 0%nat [] [attachDown]].

Lemma ex_own_reachable : rtc astep new_asys ex_own.
Proof.
  apply (rtc_l _ _ ex_claiming); [apply (as_attach new_asys attachDown); reflexivity|].
  apply rtc_once, (as_thread ex_claiming 0%nat (TAttach 0%nat [] [attachDown]) (as_att ex_own)
                     (TRunning 0%nat [attachDown]));
    [reflexivity|apply (ts_claim _ 0%nat [] attachDown []); reflexivity].
Qed.

Lemma one_owner_per_direction_witness :
  isCurrent (as_att ex_own) 0%nat = true
  /\ 0%nat ∉ a_done (as_att ex_own)
  /\ exists i t got, as_threads ex_own !! i = Some t /\ claim t = Some (0%nat, got) /\ attachDown ∈ got.
Proof.
  destruct (one_owner_per_direction ex_own ex_own_reachable) as [H1 H2].
  split; [|split].
  - apply (H1 0 0 0 0 [attachDown] [attachDown] attachDown)%nat;
      try reflexivity; try discriminate; apply list_elem_of_here.
  - apply (H2 attachDown 0%nat); [discriminate|reflexivity].
  - destruct (H2 attachDown 0%nat) as (_ & i & t & got & Ht & Hc & Hg & _);
      [discriminate|reflexivity|eauto 6].
Defined.

(** A resume kicks the owner above, waits for it to leave and runs. *)
Definition ex_kicked : attachments := kick (set_resuming true (as_att ex_own)) 0%nat.
Definition ex_left : attachments := detach ex_kicked 0%nat.
Definition ex_resume : asys := mk_asys ex_left [TReturned None; THandshake].

Lemma ex_resume_reachable : rtc astep new_asys ex_resume.
Proof.
  pose (run := TRunning 0%nat [attachDown]).
  etransitivity; [apply ex_own_reachable|].
  apply (rtc_l _ _ (mk_asys (as_att ex_own) [run; TResume])); [apply (as_resume ex_own)|].
  apply (rtc_l _ _ (mk_asys (set_resuming true (as_att ex_own)) [run; TKickAll])).
  { apply (as_thread (mk_asys (as_att ex_own) [run; TResume]) 1%nat TResume);
      [reflexivity|apply ts_begin; reflexivity]. }
  apply (rtc_l _ _ (mk_asys (kick (set_resuming true (as_att ex_own)) 0%nat)
                      [run; TKickWait [0%nat]])).
  { apply (as_thread (mk_asys (set_resuming true (as_att ex_own)) [run; TKickAll]) 1%nat TKickAll);
      [reflexivity|apply ts_snapshot]. }
  apply (rtc_l _ _ (mk_asys ex_left [TReturned None; TKickWait [0%nat]])).
  { apply (as_thread (mk_asys ex_kicked [run; TKickWait [0%nat]]) 0%nat run ex_left (TReturned None));
      [reflexivity|apply ts_leave]. }
  apply rtc_once, (as_thread (mk_asys ex_left [TReturned None; TKickWait [0%nat]]) 1%nat
                     (TKickWait [0%nat]) ex_left THandshake); [reflexivity|].
  apply (ts_waited ex_left 0%nat []), elem_of_union; left; apply elem_of_singleton; reflexivity.
Qed.

Lemma resume_handshake_is_exclusive_witness :
  a_down ex_left = None /\ a_up ex_left = None
  /\ (forall j att got, as_threads ex_resume !! j <> Some (TRunning att got))
  /\ (forall att k, attach_turn ex_left att k = TurnResuming)
  /\ (beginResume ex_left).2 = false
  /\ (forall j t, as_threads ex_resume !! j = Some t -> resuming_thread t = true -> j = 1%nat).
Proof. exact (resume_handshake_is_exclusive ex_resume 1 ex_resume_reachable eq_refl). Defined.
