(* ===== verification/Session.v ===== *)
(** * Session.v: the server's sessions and their store

    Models src/session.go and src/store.go, and the closing functions of
    src/handler.go (closeSession and its callers, StartSweeper).  Every method
    of Session holds s.mu, so it is a function on [session]; [now] is the
    clock it reads.  The store maps ids to the addresses of sessions; the
    sessions live in a heap, since several goroutines hold the same pointer
    and removeAndMarkClosed compares pointers. *)

From stdpp Require Import sorting.
From S2P Require Import Prelude Pipe Protocol Reliable Attach.

Definition i32 (z : Z) : Z := (z + 2 ^ 31) mod 2 ^ 32 - 2 ^ 31.

Lemma i32_id z : - 2 ^ 31 <= z < 2 ^ 31 -> i32 z = z.
Proof. unfold i32; intros; rewrite Z.mod_small; lia. Qed.

Record session := mk_session {
  s_ID : string;
  s_toServer : pipe;
  s_toClient : pipe;
  s_meta : meta_map;
  s_pollMode : string;
  s_uploadStream : bool;
  s_batchResume : bool;
  s_transport : string;
  s_wsAttached : bool;
  s_pollInFlight : Z;
  s_rs : option reliable;
  s_att : option attachments;
  s_resumeGrace : Z;
  s_pollGap : Z;
  s_lastActive : Z;
  s_closed : bool;
  s_detachedAt : Z;
}.

Definition newSession (id : string) (meta : meta_map) (now : Z) : session :=
  mk_session id NewBufferedPipe NewBufferedPipe meta "" false false "" false 0 None None 0 0
    now false now.

(** Field updates. *)
Definition set_pipes (up down : pipe) (s : session) : session :=
  mk_session (s_ID s) up down (s_meta s) (s_pollMode s) (s_uploadStream s) (s_batchResume s)
    (s_transport s) (s_wsAttached s) (s_pollInFlight s) (s_rs s) (s_att s) (s_resumeGrace s)
    (s_pollGap s) (s_lastActive s) (s_closed s) (s_detachedAt s).
Definition set_rs (r : option reliable) (s : session) : session :=
  mk_session (s_ID s) (s_toServer s) (s_toClient s) (s_meta s) (s_pollMode s) (s_uploadStream s)
    (s_batchResume s) (s_transport s) (s_wsAttached s) (s_pollInFlight s) r (s_att s)
    (s_resumeGrace s) (s_pollGap s) (s_lastActive s) (s_closed s) (s_detachedAt s).
Definition set_att (a : option attachments) (s : session) : session :=
  mk_session (s_ID s) (s_toServer s) (s_toClient s) (s_meta s) (s_pollMode s) (s_uploadStream s)
    (s_batchResume s) (s_transport s) (s_wsAttached s) (s_pollInFlight s) (s_rs s) a
    (s_resumeGrace s) (s_pollGap s) (s_lastActive s) (s_closed s) (s_detachedAt s).
Definition set_life (ws : bool) (polls : Z) (active : Z) (closed : bool) (detached : Z)
    (s : session) : session :=
  mk_session (s_ID s) (s_toServer s) (s_toClient s) (s_meta s) (s_pollMode s) (s_uploadStream s)
    (s_batchResume s) (s_transport s) ws polls (s_rs s) (s_att s) (s_resumeGrace s) (s_pollGap s)
    active closed detached.
(** What ConnectHandler fixes before it publishes the session. *)
Definition set_mode (pollMode : string) (uploadStream batchResume : bool) (transport : string)
    (grace gap : Z) (s : session) : session :=
  mk_session (s_ID s) (s_toServer s) (s_toClient s) (s_meta s) pollMode uploadStream
    batchResume transport (s_wsAttached s) (s_pollInFlight s) (s_rs s) (s_att s) grace gap
    (s_lastActive s) (s_closed s) (s_detachedAt s).

Definition enableResume (maxReplay grace : Z) (s : session) : session :=
  set_mode (s_pollMode s) (s_uploadStream s) (s_batchResume s) (s_transport s) grace (s_pollGap s)
    (set_att (Some newAttachments) (set_rs (Some (newReliable maxReplay)) s)).

(** [s.rs != nil && !s.rs.isBroken()] *)
Definition Resumable (s : session) : bool :=
  match s_rs s with Some r => negb (isBroken r) | None => false end.

Definition ResumeDeadline (s : session) : option Z :=
  if negb (Resumable s) then None
  else if negb (s_pollInFlight s =? 0) || s_closed s then None
  else Some (s_detachedAt s + s_resumeGrace s).

Definition inResumeGraceLocked (now : Z) (s : session) : bool :=
  match s_rs s with
  | Some r => (s_pollInFlight s =? 0) && negb (isBroken r)
              && (time_sub now (s_detachedAt s) <=? s_resumeGrace s)
  | None => false
  end.

Definition resumeExpiredLocked (now : Z) (s : session) : bool :=
  match s_rs s with
  | Some r => (s_pollInFlight s =? 0) && negb (isBroken r)
              && (s_resumeGrace s <? time_sub now (s_detachedAt s))
  | None => false
  end.

Definition detachedBeyondPollGapLocked (now : Z) (s : session) : bool :=
  (s_pollInFlight s =? 0) && (s_pollGap s <? time_sub now (s_detachedAt s)).

Definition watchHighWater (threshold : Z) (logger : bool) (s : session) : session :=
  if (threshold <=? 0) || negb logger then s
  else set_pipes (WatchHighWater threshold true (s_toServer s))
         (WatchHighWater threshold true (s_toClient s)) s.

Definition Session_Read (s : session) (dst : Z) : option (session * res (list byte)) :=
  match pipe_Read (s_toServer s) dst with
  | Some (p, r) => Some (set_pipes p (s_toClient s) s, r)
  | None => None
  end.
Definition Session_Write (s : session) (data : list byte) : session * res Z :=
  let '(p, r, _) := pipe_Write (s_toClient s) data in (set_pipes (s_toServer s) p s, r).
Definition writeUpstream (s : session) (data : list byte) : session * res Z :=
  let '(p, r, _) := pipe_Write (s_toServer s) data in (set_pipes p (s_toClient s) s, r).

Definition set_closed (s : session) : session :=
  set_life (s_wsAttached s) (s_pollInFlight s) (s_lastActive s) true (s_detachedAt s) s.

Definition markClosedLocked (s : session) : session * bool :=
  if s_closed s then (s, false) else (set_closed s, true).

Definition closePipes (s : session) : session :=
  set_pipes (pipe_Close (s_toServer s)) (pipe_Close (s_toClient s)) s.

Definition closeOnce (s : session) : session * bool :=
  let '(s, won) := markClosedLocked s in
  if won then (closePipes s, true) else (s, false).

Definition Session_Close (s : session) : session := (closeOnce s).1.

Definition beginPoll (now : Z) (s : session) : session * bool :=
  if s_closed s || resumeExpiredLocked now s then (s, false)
  else (set_life (s_wsAttached s) (i32 (s_pollInFlight s + 1)) (s_lastActive s) (s_closed s)
          (s_detachedAt s) s, true).

Definition noteDetachedLocked (now : Z) (s : session) : session :=
  match s_rs s with
  | Some _ =>
      if s_pollInFlight s =? 0
      then set_life (s_wsAttached s) (s_pollInFlight s) (s_lastActive s) (s_closed s) now s
      else s
  | None => s
  end.

Definition endPoll (now : Z) (s : session) : session :=
  noteDetachedLocked now
    (set_life (s_wsAttached s) (i32 (s_pollInFlight s - 1)) (s_lastActive s) (s_closed s)
       (s_detachedAt s) s).

Definition beginWebSocket (now : Z) (s : session) : session * bool :=
  if s_closed s || s_wsAttached s || resumeExpiredLocked now s then (s, false)
  else (set_life true (i32 (s_pollInFlight s + 1)) (s_lastActive s) (s_closed s)
          (s_detachedAt s) s, true).

Definition endWebSocket (now : Z) (s : session) : session :=
  noteDetachedLocked now
    (set_life false (i32 (s_pollInFlight s - 1)) (s_lastActive s) (s_closed s)
       (s_detachedAt s) s).

Definition refusesAttach (now : Z) (s : session) : bool :=
  s_closed s || resumeExpiredLocked now s.

Definition touch (now : Z) (s : session) : session :=
  set_life (s_wsAttached s) (s_pollInFlight s) now (s_closed s) (s_detachedAt s) s.

(** The byte layer sits between the two pipes: out = toClient, in = toServer. *)
Definition sess_ep (s : session) (r : reliable) : endpoint :=
  mk_ep r (s_toClient s) (s_toServer s).
Definition set_ep (e : endpoint) (s : session) : session :=
  set_rs (Some (ep_rl e)) (set_pipes (ep_in e) (ep_out e) s).

(** ** The store *)

Definition loc : Type := nat.

Record SessionStore := mk_store {
  st_sessions : gmap string loc;
  st_maxDetachedResumable : Z;
}.

Definition NewSessionStore : SessionStore := mk_store ∅ 0.

(** The server: the heap of sessions, the store, the closings whose callbacks
    are still to run, and the calls of Hooks.OnDisconnect made so far. *)
Record world := mk_world {
  w_heap : gmap loc session;
  w_store : SessionStore;
  w_pending : list (loc * DisconnectReason);
  w_log : list (loc * DisconnectReason);
}.

Definition set_heap (h : gmap loc session) (w : world) : world :=
  mk_world h (w_store w) (w_pending w) (w_log w).
Definition set_sessions (m : gmap string loc) (w : world) : world :=
  mk_world (w_heap w) (mk_store m (st_maxDetachedResumable (w_store w))) (w_pending w) (w_log w).
Definition sessions (w : world) : gmap string loc := st_sessions (w_store w).
Definition set_pending (p : list (loc * DisconnectReason)) (w : world) : world :=
  mk_world (w_heap w) (w_store w) p (w_log w).

Definition new_world : world := mk_world ∅ NewSessionStore [] [].

(** Run a method of the session at [l]. *)
Definition on_session (l : loc) (f : session -> session) (w : world) : world :=
  set_heap (alter f l (w_heap w)) w.

Definition store_add (l : loc) (s : session) (w : world) : world :=
  set_sessions (<[s_ID s := l]> (sessions w)) (set_heap (<[l := s]> (w_heap w)) w).
Definition store_Get (id : string) (w : world) : option loc := sessions w !! id.
Definition store_Remove (id : string) (w : world) : world :=
  set_sessions (delete id (sessions w)) w.
Definition store_All (w : world) : list loc := (map_to_list (sessions w)).*2.
Definition store_Len (w : world) : Z := Z.of_nat (size (sessions w)).

(** [removeAndMarkClosed]; a winner owes the pipes' closing and the callback,
    which the caller runs after the locks are released. *)
Definition removeAndMarkClosed (l : loc) (requireIdle : bool) (now : Z) (w : world)
    : world * bool :=
  match w_heap w !! l with
  | None => (w, false)
  | Some s =>
      if negb (bool_decide (sessions w !! s_ID s = Some l)) then (w, false)
      else if s_closed s || (requireIdle && (negb (s_pollInFlight s =? 0)
                                             || inResumeGraceLocked now s)) then (w, false)
      else (set_sessions (delete (s_ID s) (sessions w))
              (set_heap (<[l := set_closed s]> (w_heap w)) w), true)
  end.

(** Pipe closing and application callbacks, outside the locks. *)
Definition finish_close (l : loc) (reason : DisconnectReason) (w : world) : world :=
  let w := on_session l closePipes w in
  mk_world (w_heap w) (w_store w) (w_pending w) (w_log w ++ [(l, reason)]).

Definition closeSession (l : loc) (reason : DisconnectReason) (now : Z) (w : world) : world :=
  match removeAndMarkClosed l false now w with
  | (w, true) => finish_close l reason w
  | (w, false) => w
  end.

Definition CloseSession := closeSession.

Definition CloseSessionIfNoPollInFlight (l : loc) (reason : DisconnectReason) (now : Z)
    (w : world) : world * bool :=
  match removeAndMarkClosed l true now w with
  | (w, true) => (finish_close l reason w, true)
  | (w, false) => (w, false)
  end.

(** ** The sweeper *)

Inductive verdict : Type := Keep | Expired | Detached.

(** The lock section of sweep's first loop for one session. *)
Definition sweep_judge (timeout now : Z) (s : session) : verdict :=
  if negb (s_closed s) && (s_pollInFlight s =? 0) then
    if Resumable s then
      if s_resumeGrace s <? time_sub now (s_detachedAt s) then Expired
      else if detachedBeyondPollGapLocked now s then Detached else Keep
    else if timeout <? time_sub now (s_lastActive s) then Expired else Keep
  else Keep.

Definition evict (id : string) (l : loc) (w : world) : world :=
  set_sessions (delete id (sessions w)) (on_session l set_closed w).

(** The first loop, over the entries in the order Go's map iteration gives. *)
Fixpoint sweep_scan (timeout now : Z) (entries : list (string * loc)) (w : world)
    : world * list loc * list loc :=
  match entries with
  | [] => (w, [], [])
  | (id, l) :: entries =>
      match w_heap w !! l with
      | None => sweep_scan timeout now entries w
      | Some s =>
          match sweep_judge timeout now s with
          | Keep => sweep_scan timeout now entries w
          | Expired =>
              let '(w, expired, detached) := sweep_scan timeout now entries (evict id l w) in
              (w, l :: expired, detached)
          | Detached =>
              let '(w, expired, detached) := sweep_scan timeout now entries w in
              (w, expired, l :: detached)
          end
      end
  end.

(** The lock section of the second loop for one session. *)
Definition sweep_recheck (now : Z) (s : session) : bool :=
  negb (s_closed s) && detachedBeyondPollGapLocked now s.

Fixpoint sweep_excess (now : Z) (excess : list loc) (w : world) : world * list loc :=
  match excess with
  | [] => (w, [])
  | l :: excess =>
      match w_heap w !! l with
      | None => sweep_excess now excess w
      | Some s =>
          if sweep_recheck now s then
            let '(w, expired) := sweep_excess now excess (evict (s_ID s) l w) in
            (w, l :: expired)
          else sweep_excess now excess w
      end
  end.

Definition detachedAt_of (w : world) (l : loc) : Z :=
  match w_heap w !! l with Some s => s_detachedAt s | None => 0 end.

(** [detached[:len(detached)-max]] once sorted; none below the cap. *)
Definition over_cap (cap : Z) (sorted : list loc) : list loc :=
  if (0 <? cap) && (cap <? len sorted) then take (Z.to_nat (len sorted - cap)) sorted else [].

Fixpoint run_onEvict (expired : list loc) (w : world) : world :=
  match expired with
  | [] => w
  | l :: expired => run_onEvict expired (finish_close l ReasonEvicted w)
  end.

(** [sweep] with nothing else running.  [order] is the iteration order of the
    map and [sort] the result of sort.Slice by detachedAt. *)
Definition sweep (order : list (string * loc)) (sort : (loc -> Z) -> list loc -> list loc)
    (timeout now : Z) (w : world) : world :=
  let '(w, expired, detached) := sweep_scan timeout now order w in
  let excess := over_cap (st_maxDetachedResumable (w_store w)) (sort (detachedAt_of w) detached) in
  let '(w, expired') := sweep_excess now excess w in
  run_onEvict (expired ++ expired') w.

(** StartSweeper's configuration: the cap it installs and the timings the
    ticker loop passes on; [None] is the panic of a refused configuration. *)
Definition StartSweeper (cfg : ServerConfig) (w : world) : option (world * Z * Z) :=
  match check cfg with
  | Some _ => None
  | None =>
      let cfg := withDefaults cfg in
      Some (mk_world (w_heap w) (mk_store (sessions w) (Z.max (cfg_MaxDetachedResumable cfg) 0))
              (w_pending w) (w_log w),
            orDuration (cfg_SweepInterval cfg) DefaultSweepInterval,
            orDuration (cfg_SessionTimeout cfg) DefaultSessionTimeout)
  end.

(** ** Well-formed stores *)

(** Every entry names a live address holding a session with that id. *)
Definition store_ok (w : world) : Prop :=
  forall id l, sessions w !! id = Some l -> exists s, w_heap w !! l = Some s /\ s_ID s = id.

Lemma store_ok_inj w id id' l :
  store_ok w -> sessions w !! id = Some l -> sessions w !! id' = Some l -> id = id'.
Proof.
  intros H H1 H2; apply H in H1 as (s & Hs & <-); apply H in H2 as (s' & Hs' & <-); congruence.
Qed.

Lemma filter_ext_in {A} (P Q : A -> Prop) `{forall x, Decision (P x)} `{forall x, Decision (Q x)}
    (l : list A) :
  (forall x, x ∈ l -> P x <-> Q x) -> filter P l = filter Q l.
Proof.
  induction l as [|x l IH]; intros Hl; [reflexivity|].
  pose proof (Hl x (list_elem_of_here _ _)) as Hx.
  rewrite !filter_cons, IH by (intros; apply Hl; apply list_elem_of_further; assumption).
  destruct (decide (P x)), (decide (Q x)); tauto.
Qed.

Lemma evict_heap id l w l' :
  w_heap (evict id l w) !! l' = if decide (l = l') then set_closed <$> w_heap w !! l' else w_heap w !! l'.
Proof.
  unfold evict, on_session; cbn; destruct (decide (l = l')) as [<-|Hne].
  - apply lookup_alter_eq.
  - apply lookup_alter_ne; exact Hne.
Qed.

Lemma evict_sessions id l w : sessions (evict id l w) = delete id (sessions w).
Proof. reflexivity. Qed.

Lemma store_ok_evict id l w : store_ok w -> store_ok (evict id l w).
Proof.
  intros H id' l' E; rewrite evict_sessions in E; apply lookup_delete_Some in E as [_ E].
  apply H in E as (s & Hs & Hi); rewrite evict_heap, Hs.
  destruct (decide (l = l')); cbn; eauto.
Qed.

(** The judgement of the session at [l]. *)
Definition judged (timeout now : Z) (w : world) (l : loc) : verdict :=
  match w_heap w !! l with Some s => sweep_judge timeout now s | None => Keep end.

#[export] Instance verdict_eq_dec : EqDecision verdict.
Proof. solve_decision. Defined.

(** A world in which exactly the sessions [gone] were evicted. *)
Record evicted (gone : list loc) (w w' : world) : Prop := {
  ev_heap : forall l, w_heap w' !! l
    = if decide (l ∈ gone) then set_closed <$> w_heap w !! l else w_heap w !! l;
  ev_sessions : forall id l,
    sessions w' !! id = Some l <-> sessions w !! id = Some l /\ l ∉ gone;
  ev_cap : st_maxDetachedResumable (w_store w') = st_maxDetachedResumable (w_store w);
  ev_log : w_log w' = w_log w;
  ev_pending : w_pending w' = w_pending w;
}.

Lemma evicted_nil w : evicted [] w w.
Proof.
  constructor; auto; intros.
  split; [intros H; split; [exact H|apply not_elem_of_nil]|tauto].
Qed.

Lemma evicted_one id l w :
  store_ok w -> sessions w !! id = Some l -> evicted [l] w (evict id l w).
Proof.
  intros Hok Hid; constructor; auto; intros.
  - rewrite evict_heap; destruct (decide (l = l0)) as [<-|Hne].
    + rewrite decide_True by apply list_elem_of_here; reflexivity.
    + rewrite decide_False; [reflexivity|]; intros He.
      apply list_elem_of_singleton in He; done.
  - rewrite evict_sessions, lookup_delete_Some; split.
    + intros [Hne E]; split; [exact E|]; intros He; apply list_elem_of_singleton in He as ->.
      apply Hne; eapply store_ok_inj; eauto.
    + intros [E Hne]; split; [|exact E]; intros ->; apply Hne, list_elem_of_singleton; congruence.
Qed.

Lemma set_closed_twice s : set_closed (set_closed s) = set_closed s.
Proof. reflexivity. Qed.

Lemma evicted_app g1 g2 w1 w2 w3 :
  evicted g1 w1 w2 -> evicted g2 w2 w3 -> evicted (g1 ++ g2) w1 w3.
Proof.
  intros [H1 H2 H3 H4 H5] [K1 K2 K3 K4 K5]; constructor; try congruence; intros.
  - rewrite K1, H1.
    destruct (decide (l ∈ g1)) as [Hg|Hg]; destruct (decide (l ∈ g2)) as [Hg'|Hg'];
      destruct (decide (l ∈ g1 ++ g2)) as [Hg''|Hg'']; auto;
      rewrite elem_of_app in Hg''; try tauto.
    destruct (w_heap w1 !! l); reflexivity.
  - rewrite K2, H2, not_elem_of_app; tauto.
Qed.

Lemma evicted_judged gone w w' timeout now l :
  evicted gone w w' -> l ∉ gone -> judged timeout now w' l = judged timeout now w l.
Proof. intros [H _ _ _ _] Hl; unfold judged; rewrite H, decide_False by exact Hl; reflexivity. Qed.

Lemma evicted_store_ok gone w w' : evicted gone w w' -> store_ok w -> store_ok w'.
Proof.
  intros [H1 H2 _ _ _] Hok id l E; apply H2 in E as [E Hl].
  apply Hok in E; rewrite H1, decide_False by exact Hl; exact E.
Qed.

(** The first loop evicts exactly the expired sessions and collects exactly the
    detached ones. *)
Lemma sweep_scan_spec timeout now entries :
  forall w, store_ok w -> NoDup entries.*2 ->
  (forall id l, (id, l) ∈ entries -> sessions w !! id = Some l) ->
  exists w' expired detached,
    sweep_scan timeout now entries w = (w', expired, detached)
    /\ expired = filter (fun l => judged timeout now w l = Expired) entries.*2
    /\ detached = filter (fun l => judged timeout now w l = Detached) entries.*2
    /\ evicted expired w w'.
Proof.
  induction entries as [|[id l] entries IH]; intros w Hok Hnd Hin; cbn [sweep_scan fmap list_fmap].
  { exists w, [], []; split_and!; auto using evicted_nil. }
  cbn in Hnd; apply NoDup_cons in Hnd as [Hl Hnd].
  assert (Hid : sessions w !! id = Some l) by (apply Hin, list_elem_of_here).
  assert (Hrest : forall i k, (i, k) ∈ entries -> sessions w !! i = Some k)
    by (intros i k Hik; apply Hin, list_elem_of_further, Hik).
  destruct (Hok _ _ Hid) as (s & Hs & _).
  assert (Hj : judged timeout now w l = sweep_judge timeout now s)
    by (unfold judged; rewrite Hs; reflexivity).
  rewrite Hs, <- Hj.
  destruct (judged timeout now w l) eqn:Hv.
  - destruct (IH w Hok Hnd Hrest) as (w' & ex & de & E & -> & -> & Hev); rewrite E.
    do 3 eexists; split; [reflexivity|].
    rewrite !filter_cons_False by (cbn; congruence); auto.
  - pose proof (evicted_one id l w Hok Hid) as H1.
    destruct (IH (evict id l w)) as (w' & ex & de & E & Hex & Hde & Hev); auto.
    { eapply evicted_store_ok; eauto. }
    { intros i k Hik; apply H1; split; [auto|]; intros He.
      apply list_elem_of_singleton in He as ->; apply Hl.
      apply list_elem_of_fmap; exists (i, l); auto. }
    rewrite E; do 3 eexists; split; [reflexivity|].
    assert (Hsame : forall v, filter (fun k => judged timeout now (evict id l w) k = v) entries.*2
                    = filter (fun k => judged timeout now w k = v) entries.*2).
    { intros v; apply filter_ext_in; intros k Hk.
      rewrite (evicted_judged [l] w _ _ _ k H1); [reflexivity|].
      intros He; apply list_elem_of_singleton in He; congruence. }
    rewrite filter_cons_True, filter_cons_False by (cbn; congruence).
    rewrite Hsame in Hex, Hde. cbn [snd]; split; [congruence|]; split; [exact Hde|].
    exact (evicted_app [l] ex _ _ _ H1 Hev).
  - destruct (IH w Hok Hnd Hrest) as (w' & ex & de & E & -> & -> & Hev); rewrite E.
    do 3 eexists; split; [reflexivity|].
    rewrite filter_cons_False, filter_cons_True by (cbn; congruence); auto.
Qed.

(** The second loop evicts what it is given and is still detached. *)
Lemma sweep_excess_spec now excess :
  forall w, store_ok w -> NoDup excess ->
  (forall l, l ∈ excess -> exists s, w_heap w !! l = Some s /\ sessions w !! s_ID s = Some l
     /\ sweep_recheck now s = true) ->
  exists w', sweep_excess now excess w = (w', excess) /\ evicted excess w w'.
Proof.
  induction excess as [|l excess IH]; intros w Hok Hnd Hin; cbn [sweep_excess].
  { exists w; auto using evicted_nil. }
  apply NoDup_cons in Hnd as [Hl Hnd].
  destruct (Hin l (list_elem_of_here _ _)) as (s & -> & Hid & ->).
  pose proof (evicted_one (s_ID s) l w Hok Hid) as H1.
  destruct (IH (evict (s_ID s) l w)) as (w' & -> & Hev); auto.
  { eapply evicted_store_ok; eauto. }
  { intros k Hk; destruct (Hin k (list_elem_of_further _ _ _ Hk)) as (u & Hu & Hid' & Hr).
    assert (Hne : k ∉ [l]) by (intros He; apply list_elem_of_singleton in He; congruence).
    exists u; split_and!; auto.
    - destruct H1 as [H _ _ _ _]; rewrite H, decide_False by exact Hne; exact Hu.
    - apply H1; auto. }
  exists w'; split; [reflexivity|exact (evicted_app [l] excess _ _ _ H1 Hev)].
Qed.

(** Closing the pipes and reporting, for each session in turn. *)
Lemma run_onEvict_spec expired :
  forall w, let w' := run_onEvict expired w in
  sessions w' = sessions w
  /\ w_log w' = w_log w ++ map (fun l => (l, ReasonEvicted)) expired
  /\ (forall l, l ∉ expired -> w_heap w' !! l = w_heap w !! l)
  /\ (forall l s, w_heap w !! l = Some s -> l ∈ expired ->
      exists s', w_heap w' !! l = Some s' /\ s_closed s' = s_closed s /\ s_ID s' = s_ID s
        /\ p_closed (s_toServer s') = true /\ p_closed (s_toClient s') = true).
Proof.
  induction expired as [|l expired IH]; intros w; cbn [run_onEvict map].
  { split_and!; auto; [rewrite app_nil_r; reflexivity|].
    intros l s _ Hl; apply not_elem_of_nil in Hl; done. }
  set (w1 := finish_close l ReasonEvicted w).
  destruct (IH w1) as (H1 & H2 & H3 & H4).
  assert (Hh : forall k, w_heap w1 !! k = if decide (l = k) then closePipes <$> w_heap w !! k
                                          else w_heap w !! k).
  { intros k; cbn; destruct (decide (l = k)) as [<-|Hne];
      [apply lookup_alter_eq|apply lookup_alter_ne, Hne]. }
  split; [exact H1|]; split; [rewrite H2; cbn; rewrite <- app_assoc; reflexivity|]; split.
  - intros k Hk; apply not_elem_of_cons in Hk as [Hne Hk]; rewrite H3 by exact Hk.
    rewrite Hh, decide_False by congruence; reflexivity.
  - intros k s Hs Hk; pose proof (Hh k) as Hw1; rewrite Hs in Hw1.
    destruct (decide (l = k)) as [<-|Hne]; cbn [fmap option_fmap option_map] in Hw1.
    + destruct (decide (l ∈ expired)) as [He|He].
      * destruct (H4 l _ Hw1 He) as (s' & E & ? & ? & ?); exists s'; auto.
      * rewrite H3, Hw1 by exact He; eexists; split; [reflexivity|]; auto.
    + apply elem_of_cons in Hk as [->|Hk]; [done|].
      destruct (H4 k _ Hw1 Hk) as (s' & E & ?); exists s'; auto.
Qed.

(** ** The sweep as a whole *)

(** Sortedness only depends on the keys of the elements. *)
Lemma StronglySorted_ext_in (key key' : loc -> Z) (l : list loc) :
  (forall x, x ∈ l -> key' x = key x) ->
  StronglySorted (fun x y => key' x <= key' y) l -> StronglySorted (fun x y => key x <= key y) l.
Proof.
  intros Hk H; induction H as [|x l Hs IH Hx]; constructor.
  - apply IH; intros; apply Hk, list_elem_of_further; assumption.
  - rewrite Forall_forall in Hx |- *; intros y Hy.
    rewrite <- !Hk by (apply list_elem_of_here || apply list_elem_of_further, Hy); auto.
Qed.

(** What sort.Slice promises of the sessions ordered by a key. *)
Record sort_ok (sort : (loc -> Z) -> list loc -> list loc) : Prop := {
  so_perm : forall key l, sort key l ≡ₚ l;
  so_sorted : forall key l, StronglySorted (fun x y => key x <= key y) (sort key l);
}.

Section Sweep.
Context (order : list (string * loc)) (sort : (loc -> Z) -> list loc -> list loc).
Context (timeout now : Z) (w : world).
Context (Hok : store_ok w) (Horder : order ≡ₚ map_to_list (sessions w)) (Hsort : sort_ok sort).

(** The sessions sweep would evict for their age, and those it counts
    against the cap. *)
Definition aged (l : loc) : Prop :=
  l ∈ store_All w /\ judged timeout now w l = Expired.
Definition waiting (l : loc) : Prop :=
  l ∈ store_All w /\ judged timeout now w l = Detached.

Lemma order_in id l : (id, l) ∈ order <-> sessions w !! id = Some l.
Proof. rewrite Horder; apply elem_of_map_to_list. Qed.

Lemma order_locs l : l ∈ order.*2 <-> l ∈ store_All w.
Proof. unfold store_All; rewrite Horder; reflexivity. Qed.

Lemma order_NoDup : NoDup order.*2.
Proof.
  rewrite Horder; apply NoDup_fmap_2_strong; [|apply NoDup_map_to_list].
  intros [id l] [id' l'] H1 H2 E; cbn in E; subst l'.
  apply elem_of_map_to_list in H1, H2; f_equal; eapply store_ok_inj; eauto.
Qed.

(** Everything [sweep] does, in one place: [old] are the aged sessions,
    [excess] those beyond the cap among the waiting ones, [sorted]. *)
Lemma sweep_spec :
  exists old sorted w1,
    let excess := over_cap (st_maxDetachedResumable (w_store w)) sorted in
    sweep order sort timeout now w = run_onEvict (old ++ excess) w1
    /\ evicted (old ++ excess) w w1
    /\ NoDup (old ++ sorted)
    /\ (forall l, l ∈ old <-> aged l)
    /\ (forall l, l ∈ sorted <-> waiting l)
    /\ StronglySorted (fun x y => detachedAt_of w x <= detachedAt_of w y) sorted.
Proof.
  destruct (sweep_scan_spec timeout now order w Hok order_NoDup)
    as (w1 & old & de & E & Hex & Hde & Hev); [intros id l; apply order_in|].
  assert (Hold : forall l, l ∈ old <-> aged l)
    by (intros l; rewrite Hex, list_elem_of_filter, order_locs; unfold aged; tauto).
  assert (Hwait : forall l, l ∈ de <-> waiting l)
    by (intros l; rewrite Hde, list_elem_of_filter, order_locs; unfold waiting; tauto).
  assert (Hkeep : forall l, l ∈ de -> l ∉ old).
  { intros l Hl Ho; apply Hwait in Hl as [_ Hl]; apply Hold in Ho as [_ Ho]; congruence. }
  unfold sweep; rewrite E, (ev_cap _ _ _ Hev).
  set (sorted := sort (detachedAt_of w1) de).
  assert (Hperm : sorted ≡ₚ de) by apply Hsort.
  assert (Hnd : NoDup (old ++ sorted)).
  { rewrite Hperm; apply NoDup_app; split_and!.
    - rewrite Hex; apply NoDup_filter, order_NoDup.
    - intros l Ho Hl; exact (Hkeep l Hl Ho).
    - rewrite Hde; apply NoDup_filter, order_NoDup. }
  assert (Hsub : forall l, l ∈ over_cap (st_maxDetachedResumable (w_store w)) sorted -> l ∈ de).
  { intros l Hl; rewrite <- Hperm; unfold over_cap in Hl; case_if_in Hl.
    - eapply elem_of_take in Hl as (i & Hi & _); eapply list_elem_of_lookup_2; eauto.
    - apply not_elem_of_nil in Hl; done. }
  destruct (sweep_excess_spec now (over_cap (st_maxDetachedResumable (w_store w)) sorted) w1)
    as (w2 & E2 & Hev2).
  { eapply evicted_store_ok; eauto. }
  { apply NoDup_app in Hnd as (_ & _ & Hnd); unfold over_cap; case_if; [|constructor].
    eapply sublist_NoDup; [exact Hnd|apply sublist_take]. }
  { intros l Hl; apply Hsub in Hl; pose proof (Hkeep l Hl) as Hno; apply Hwait in Hl as [Hin Hj].
    apply order_locs, list_elem_of_fmap in Hin as ([id l'] & -> & Hid); apply order_in in Hid.
    destruct (Hok _ _ Hid) as (s & Hs & <-); exists s; cbn [snd] in *.
    rewrite (ev_heap _ _ _ Hev), decide_False by exact Hno; split; [exact Hs|].
    split; [apply Hev; auto|]; unfold judged in Hj; rewrite Hs in Hj.
    unfold sweep_judge in Hj; repeat case_if_in Hj; try discriminate.
    unfold sweep_recheck; breflect; rewrite H, Heqb2; reflexivity. }
  rewrite E2; exists old, sorted, w2; split_and!; auto.
  - eapply evicted_app; eauto.
  - intros l; rewrite Hperm; apply Hwait.
  - pose proof (so_sorted _ Hsort (detachedAt_of w1) de) as Hs; fold sorted in Hs.
    eapply StronglySorted_ext_in; [|exact Hs]; intros x Hx.
    rewrite Hperm in Hx; unfold detachedAt_of.
    rewrite (ev_heap _ _ _ Hev), decide_False by auto; reflexivity.
Qed.
(** The state a sweep leaves. *)
Lemma sweep_effect :
  exists old sorted,
    let gone := old ++ over_cap (st_maxDetachedResumable (w_store w)) sorted in
    let w' := sweep order sort timeout now w in
    (forall l, l ∈ old <-> aged l) /\ (forall l, l ∈ sorted <-> waiting l)
    /\ StronglySorted (fun x y => detachedAt_of w x <= detachedAt_of w y) sorted
    /\ NoDup (old ++ sorted)
    /\ (forall id l, sessions w' !! id = Some l <-> sessions w !! id = Some l /\ l ∉ gone)
    /\ (forall l, l ∉ gone -> w_heap w' !! l = w_heap w !! l)
    /\ (forall l s, w_heap w !! l = Some s -> l ∈ gone ->
        exists s', w_heap w' !! l = Some s' /\ s_closed s' = true /\ s_ID s' = s_ID s
          /\ p_closed (s_toServer s') = true /\ p_closed (s_toClient s') = true)
    /\ w_log w' = w_log w ++ map (fun l => (l, ReasonEvicted)) gone.
Proof.
  destruct sweep_spec as (old & sorted & w1 & E & Hev & Hnd & Ho & Hw & Hs).
  exists old, sorted; cbn zeta; rewrite E; set (gone := old ++ _) in *.
  destruct (run_onEvict_spec gone w1) as (H1 & H2 & H3 & H4); split_and!; auto.
  - intros id l; rewrite H1; apply Hev.
  - intros l Hl; rewrite H3, (ev_heap _ _ _ Hev), decide_False by exact Hl; reflexivity.
  - intros l s Hl Hin; destruct (H4 l (set_closed s)) as (s' & Hs' & Hc & Hi & Hp); auto.
    { rewrite (ev_heap _ _ _ Hev), decide_True, Hl by exact Hin; reflexivity. }
    exists s'; auto.
  - rewrite H2, (ev_log _ _ _ Hev); reflexivity.
Qed.

Lemma over_cap_in cap (l : list loc) x : x ∈ over_cap cap l -> x ∈ l.
Proof.
  unfold over_cap; case_if; [|intros H; apply not_elem_of_nil in H; done].
  intros H; apply elem_of_take in H as (i & Hi & _); eapply list_elem_of_lookup_2; eauto.
Qed.

Lemma store_All_in (v : world) l : l ∈ store_All v <-> exists id, sessions v !! id = Some l.
Proof.
  unfold store_All; rewrite list_elem_of_fmap; split.
  - intros ([id k] & -> & H); apply elem_of_map_to_list in H; eauto.
  - intros [id H]; exists (id, l); rewrite elem_of_map_to_list; auto.
Qed.

Lemma store_All_NoDup (v : world) : store_ok v -> NoDup (store_All v).
Proof.
  intros Hv; apply NoDup_fmap_2_strong; [|apply NoDup_map_to_list].
  intros [id l] [id' l'] H1 H2 E; cbn in E; subst l'.
  apply elem_of_map_to_list in H1, H2; f_equal; eapply store_ok_inj; eauto.
Qed.
End Sweep.

Lemma judged_attached timeout now w l s :
  w_heap w !! l = Some s -> s_pollInFlight s <> 0 -> judged timeout now w l = Keep.
Proof.
  intros Hl Hp; unfold judged, sweep_judge; rewrite Hl.
  rewrite (proj2 (Z.eqb_neq _ _) Hp), andb_false_r; reflexivity.
Qed.

Lemma judged_closed timeout now w l s :
  w_heap w !! l = Some s -> s_closed s = true -> judged timeout now w l = Keep.
Proof. intros Hl Hc; unfold judged, sweep_judge; rewrite Hl, Hc; reflexivity. Qed.

(** A sweep leaves alone what it judges Keep. *)
Lemma sweep_keeps order sort timeout now w l :
  store_ok w -> order ≡ₚ map_to_list (sessions w) -> sort_ok sort ->
  judged timeout now w l = Keep ->
  let w' := sweep order sort timeout now w in
  w_heap w' !! l = w_heap w !! l
  /\ (forall id, sessions w' !! id = Some l <-> sessions w !! id = Some l)
  /\ (forall r, (l, r) ∈ w_log w' <-> (l, r) ∈ w_log w).
Proof.
  intros Hok Ho Hs Hk; cbn zeta.
  destruct (sweep_effect order sort timeout now w Hok Ho Hs)
    as (old & sorted & H1 & H2 & _ & _ & H5 & H6 & _ & H8); cbn zeta in *.
  set (gone := old ++ _) in *.
  assert (Hno : l ∉ gone).
  { unfold gone; rewrite elem_of_app; intros [H|H]; [apply H1 in H as [_ H]; congruence|].
    apply over_cap_in, H2 in H as [_ H]; congruence. }
  split_and!; auto; [intros id; rewrite H5; tauto|].
  intros r; rewrite H8, elem_of_app, list_elem_of_fmap; split; [|auto].
  intros [H|(x & E & Hx)]; [exact H|]; congruence.
Qed.

Lemma sweep_store_ok order sort timeout now w :
  store_ok w -> order ≡ₚ map_to_list (sessions w) -> sort_ok sort ->
  store_ok (sweep order sort timeout now w).
Proof.
  intros Hok Ho Hs; destruct (sweep_effect order sort timeout now w Hok Ho Hs)
    as (old & sorted & _ & _ & _ & _ & H5 & H6 & _); cbn zeta in *.
  intros id l E; apply H5 in E as [E Hno]; rewrite H6 by exact Hno; auto.
Qed.

(** In a sorted list what is taken precedes what is dropped. *)
Lemma sorted_take_drop (key : loc -> Z) (l : list loc) n x y :
  StronglySorted (fun x y => key x <= key y) l -> x ∈ take n l -> y ∈ drop n l -> key x <= key y.
Proof.
  intros Hs; revert n; induction Hs as [|a l Hs IH Ha]; intros n Hx Hy.
  - rewrite take_nil in Hx; apply not_elem_of_nil in Hx; done.
  - destruct n as [|n]; [apply not_elem_of_nil in Hx; done|cbn in Hx, Hy].
    apply elem_of_cons in Hx as [->|Hx]; [|eauto].
    rewrite Forall_forall in Ha; apply Ha.
    rewrite <- (take_drop n l), elem_of_app; auto.
Qed.

(** ** Every interleaving of lock sections

    One constructor per critical section on the store or on a session, and one
    for the part of a closing that runs outside the locks. *)

(** Traffic on a session: pipes, byte layer and attachments move, the
    lifecycle fields do not. *)
Definition same_life (s s' : session) : Prop :=
  s_ID s' = s_ID s /\ s_closed s' = s_closed s /\ s_pollInFlight s' = s_pollInFlight s
  /\ s_wsAttached s' = s_wsAttached s
  /\ (p_closed (s_toServer s) = true -> p_closed (s_toServer s') = true)
  /\ (p_closed (s_toClient s) = true -> p_closed (s_toClient s') = true).

Inductive wstep (w : world) : world -> Prop :=
| ws_add l s :
    w_heap w !! l = None -> s_closed s = false -> s_pollInFlight s = 0 ->
    wstep w (store_add l s w)
| ws_remove id : wstep w (store_Remove id w)
| ws_session l s f :
    w_heap w !! l = Some s ->
    (same_life s (f s) \/ f = Session_Close
     \/ (exists now, f = touch now \/ f = (fun s => (beginPoll now s).1)
                     \/ f = (fun s => (beginWebSocket now s).1)
                     \/ (0 < s_pollInFlight s /\ (f = endPoll now \/ f = endWebSocket now)))) ->
    wstep w (on_session l f w)
| ws_mark l idle now reason w' :
    removeAndMarkClosed l idle now w = (w', true) ->
    wstep w (set_pending (w_pending w ++ [(l, reason)]) w')
| ws_expire id l s timeout now :
    sessions w !! id = Some l -> w_heap w !! l = Some s -> sweep_judge timeout now s = Expired ->
    wstep w (set_pending (w_pending w ++ [(l, ReasonEvicted)]) (evict id l w))
| ws_excess l s now :
    w_heap w !! l = Some s -> sessions w !! s_ID s = Some l -> sweep_recheck now s = true ->
    wstep w (set_pending (w_pending w ++ [(l, ReasonEvicted)]) (evict (s_ID s) l w))
| ws_finish l reason before after :
    w_pending w = before ++ (l, reason) :: after ->
    wstep w (finish_close l reason (set_pending (before ++ after) w)).

(** The closings that are owed or done. *)
Definition closings (w : world) : list loc := (w_pending w ++ w_log w).*1.

Record world_inv (w : world) : Prop := {
  wi_store : store_ok w;
  wi_once : NoDup (closings w);
  wi_closed : forall l, l ∈ closings w ->
    (exists s, w_heap w !! l = Some s /\ s_closed s = true) /\ l ∉ store_All w;
  wi_pipes : forall l r, (l, r) ∈ w_log w -> exists s, w_heap w !! l = Some s
    /\ p_closed (s_toServer s) = true /\ p_closed (s_toClient s) = true;
}.

Lemma session_step_life (l : loc) s f :
  same_life s (f s) \/ f = Session_Close
  \/ (exists now, f = touch now \/ f = (fun s => (beginPoll now s).1)
                  \/ f = (fun s => (beginWebSocket now s).1)
                  \/ (0 < s_pollInFlight s /\ (f = endPoll now \/ f = endWebSocket now))) ->
  s_ID (f s) = s_ID s
  /\ (s_closed s = true -> s_closed (f s) = true)
  /\ (p_closed (s_toServer s) = true -> p_closed (s_toServer (f s)) = true)
  /\ (p_closed (s_toClient s) = true -> p_closed (s_toClient (f s)) = true).
Proof.
  intros [(H1 & H2 & H3 & H4 & H5 & H6)|[->|[now H]]].
  - split_and!; auto; congruence.
  - unfold Session_Close, closeOnce, markClosedLocked; destruct (s_closed s) eqn:E; cbn; auto.
  - assert (Hn : forall s', s_ID (noteDetachedLocked now s') = s_ID s'
      /\ s_closed (noteDetachedLocked now s') = s_closed s'
      /\ s_toServer (noteDetachedLocked now s') = s_toServer s'
      /\ s_toClient (noteDetachedLocked now s') = s_toClient s')
      by (intros s'; unfold noteDetachedLocked; destruct (s_rs s'); [case_if|]; auto).
    unfold beginPoll, beginWebSocket, endPoll, endWebSocket in H.
    destruct H as [->|[->|[->|[_ [->| ->]]]]]; try (cbn; auto; fail);
      try (case_if; cbn; auto; fail);
      (match goal with |- context [noteDetachedLocked now ?x] =>
         destruct (Hn x) as (-> & -> & -> & ->) end; cbn; auto).
Qed.

Lemma world_inv_heap w l s s' :
  world_inv w -> w_heap w !! l = Some s -> s_ID s' = s_ID s ->
  (s_closed s = true -> s_closed s' = true) ->
  (p_closed (s_toServer s) = true -> p_closed (s_toServer s') = true) ->
  (p_closed (s_toClient s) = true -> p_closed (s_toClient s') = true) ->
  world_inv (set_heap (<[l := s']> (w_heap w)) w).
Proof.
  intros [H1 H2 H3 H4] Hl Hid Hc Hp Hq; constructor; auto; cbn.
  - intros id k E; destruct (H1 id k E) as (u & Hu & Hi); cbn.
    destruct (decide (l = k)) as [<-|Hne].
    + rewrite lookup_insert_eq; exists s'; split; [reflexivity|]; congruence.
    + rewrite lookup_insert_ne by exact Hne; eauto.
  - intros k Hk; destruct (H3 k Hk) as [(u & Hu & Hcu) Hno]; split; [|exact Hno].
    destruct (decide (l = k)) as [<-|Hne].
    + rewrite lookup_insert_eq; exists s'; split; [reflexivity|]; apply Hc; congruence.
    + rewrite lookup_insert_ne by exact Hne; eauto.
  - intros k r Hk; destruct (H4 k r Hk) as (u & Hu & Hcu & Hcv).
    destruct (decide (l = k)) as [<-|Hne].
    + rewrite lookup_insert_eq; exists s'; simplify_eq; auto.
    + rewrite lookup_insert_ne by exact Hne; eauto.
Qed.

Lemma alter_is_insert (f : session -> session) (l : loc) (m : gmap loc session) s :
  m !! l = Some s -> alter f l m = <[l := f s]> m.
Proof.
  intros H; apply map_eq; intros k; destruct (decide (l = k)) as [<-|Hne].
  - rewrite lookup_alter_eq, lookup_insert_eq, H; reflexivity.
  - rewrite lookup_alter_ne, lookup_insert_ne by exact Hne; reflexivity.
Qed.

Lemma world_inv_session w l s f :
  world_inv w -> w_heap w !! l = Some s ->
  s_ID (f s) = s_ID s /\ (s_closed s = true -> s_closed (f s) = true)
  /\ (p_closed (s_toServer s) = true -> p_closed (s_toServer (f s)) = true)
  /\ (p_closed (s_toClient s) = true -> p_closed (s_toClient (f s)) = true) ->
  world_inv (on_session l f w).
Proof.
  intros Hw Hl (H1 & H2 & H3 & H4); unfold on_session; rewrite (alter_is_insert f l _ s Hl).
  eapply world_inv_heap; eauto.
Qed.

Lemma world_inv_mark w id l s r :
  world_inv w -> sessions w !! id = Some l -> w_heap w !! l = Some s -> s_closed s = false ->
  world_inv (set_pending (w_pending w ++ [(l, r)]) (evict id l w)).
Proof.
  intros [H1 H2 H3 H4] Hid Hl Hopen; pose proof (evicted_one id l w H1 Hid) as Hev.
  assert (Hnew : l ∉ closings w) by (intros Hin; destruct (H3 l Hin) as [(u & ? & ?) _]; congruence).
  assert (Hcl : closings (set_pending (w_pending w ++ [(l, r)]) (evict id l w))
                ≡ₚ l :: closings w).
  { unfold closings; cbn; rewrite <- app_assoc, !fmap_app; cbn.
    symmetry; apply Permutation_middle. }
  constructor.
  - intros i k E; apply (evicted_store_ok _ _ _ Hev H1 i k E).
  - rewrite Hcl; constructor; auto.
  - intros k Hk; rewrite Hcl in Hk; apply elem_of_cons in Hk.
    assert (Hout : forall i, sessions (evict id l w) !! i = Some k -> sessions w !! i = Some k /\ k <> l).
    { intros i E; apply Hev in E as [E Hne]; split; [exact E|]; intros ->.
      apply Hne, list_elem_of_singleton; reflexivity. }
    destruct Hk as [->|Hk].
    + split; [|rewrite store_All_in; intros [i E]; apply Hout in E as [_ E]; done].
      exists (set_closed s); split; [|reflexivity]; cbn; rewrite lookup_alter_eq, Hl; reflexivity.
    + destruct (H3 k Hk) as [(u & Hu & Hc) Hno]; split.
      * destruct (decide (k = l)) as [->|Hne]; [done|]; exists u; split; [|exact Hc].
        cbn; rewrite lookup_alter_ne by congruence; exact Hu.
      * rewrite store_All_in in Hno |- *; intros [i E]; apply Hout in E as [E _]; eauto.
  - cbn; intros k q Hk; destruct (H4 k q Hk) as (u & Hu & Hp).
    destruct (decide (l = k)) as [<-|Hne].
    + exfalso; apply Hnew; unfold closings; rewrite list_elem_of_fmap; exists (l, q).
      rewrite elem_of_app; auto.
    + exists u; cbn; rewrite lookup_alter_ne by exact Hne; auto.
Qed.

Lemma removeAndMarkClosed_wins l idle now w w' :
  removeAndMarkClosed l idle now w = (w', true) ->
  exists s, w_heap w !! l = Some s /\ sessions w !! s_ID s = Some l /\ s_closed s = false
    /\ w' = evict (s_ID s) l w
    /\ (idle = true -> s_pollInFlight s = 0 /\ inResumeGraceLocked now s = false).
Proof.
  unfold removeAndMarkClosed; destruct (w_heap w !! l) as [s|] eqn:Hl; [|discriminate].
  case_bool_decide; cbn; [|discriminate].
  destruct (s_closed s || _) eqn:Hc; [discriminate|]; intros E; injection E as <-.
  apply orb_false_iff in Hc as [Hc Hi]; exists s; split_and!; auto.
  - unfold evict, on_session; rewrite (alter_is_insert _ l _ s Hl); reflexivity.
  - intros ->; cbn in Hi; apply orb_false_iff in Hi as [Hi Hg]; breflect; auto.
Qed.

Lemma wstep_inv w w' : world_inv w -> wstep w w' -> world_inv w'.
Proof.
  intros Hw Hs; pose proof Hw as [H1 H2 H3 H4]; destruct Hs as
    [l s Hl Hc Hp | id | l s f Hl Hf | l idle now r w' E | id l s timeout now Hid Hl Hj
    | l s now Hl Hid Hj | l r before after E].
  - assert (Hfresh : forall k, k ∈ closings w -> k <> l)
      by (intros k Hk ->; destruct (H3 l Hk) as [(u & ? & _) _]; congruence).
    constructor; auto; cbn.
    + intros id k E; cbn in *; destruct (decide (s_ID s = id)) as [<-|Hne].
      * rewrite lookup_insert_eq in E; injection E as <-; rewrite lookup_insert_eq; eauto.
      * rewrite lookup_insert_ne in E by exact Hne; destruct (H1 id k E) as (u & Hu & Hi).
        rewrite lookup_insert_ne by congruence; eauto.
    + intros k Hk; destruct (H3 k Hk) as [(u & Hu & Hcu) Hno].
      pose proof (Hfresh k Hk); rewrite lookup_insert_ne by congruence; split; [eauto|].
      rewrite store_All_in in Hno |- *; intros [i E]; cbn in E.
      apply lookup_insert_Some in E as [[_ E]|[_ E]]; [congruence|eauto].
    + intros k r Hk; destruct (H4 k r Hk) as (u & Hu & Hq); exists u.
      rewrite lookup_insert_ne by congruence; auto.
  - constructor; auto; cbn.
    + intros i k E; cbn in E; apply lookup_delete_Some in E as [_ E]; auto.
    + intros k Hk; destruct (H3 k Hk) as [Hu Hno]; split; [exact Hu|].
      rewrite store_All_in in Hno |- *; intros [i E]; cbn in E.
      apply lookup_delete_Some in E as [_ E]; eauto.
  - eapply world_inv_session; eauto using session_step_life.
  - apply removeAndMarkClosed_wins in E as (s & Hl & Hid & Hc & -> & _).
    eapply world_inv_mark; eauto.
  - eapply world_inv_mark; eauto; unfold sweep_judge in Hj; destruct (s_closed s); [discriminate|done].
  - eapply world_inv_mark; eauto; unfold sweep_recheck in Hj; destruct (s_closed s); [discriminate|done].
  - assert (Hin : l ∈ closings w)
      by (unfold closings; rewrite E, !fmap_app, fmap_cons, !elem_of_app, elem_of_cons; auto).
    destruct (H3 l Hin) as [(s & Hl & Hcl) _].
    assert (Hcl' : closings (finish_close l r (set_pending (before ++ after) w)) ≡ₚ closings w).
    { unfold closings; cbn; rewrite E, !fmap_app; cbn; solve_Permutation. }
    pose proof (world_inv_session w l s closePipes Hw Hl ltac:(cbn; auto)) as [K1 K2 K3 K4].
    constructor.
    + exact K1.
    + rewrite Hcl'; exact H2.
    + intros k Hk; rewrite Hcl' in Hk; exact (K3 k Hk).
    + cbn; intros k q Hk; apply elem_of_app in Hk as [Hk|Hk]; [exact (K4 k q Hk)|].
      apply list_elem_of_singleton in Hk; injection Hk as -> ->.
      exists (closePipes s); rewrite lookup_alter_eq, Hl; auto.
Qed.

Lemma new_world_inv : world_inv new_world.
Proof.
  constructor; cbn.
  - intros id l E; discriminate.
  - constructor.
  - intros l Hl; apply not_elem_of_nil in Hl; done.
  - intros l r Hl; apply not_elem_of_nil in Hl; done.
Qed.

Lemma world_reachable_inv w : rtc wstep new_world w -> world_inv w.
Proof. intros H; eapply rtc_invariant; eauto using wstep_inv, new_world_inv. Qed.

(** ** Properties *)

(** C13: OnDisconnect is reported at most once per session, however deletes,
    protocol violations, conditional closes, evictions, direct closes and
    rejected connects interleave: in every reachable state the sessions
    reported or about to be are distinct, and each of them is closed and gone
    from the store; a reported one has both pipes closed. *)
Theorem disconnect_reported_once w :
  rtc wstep new_world w ->
  NoDup (w_log w).*1
  /\ (forall l r, (l, r) ∈ w_log w -> exists s, w_heap w !! l = Some s
        /\ s_closed s = true /\ (forall id, sessions w !! id <> Some l)
        /\ p_closed (s_toServer s) = true /\ p_closed (s_toClient s) = true).
Proof.
  intros H; apply world_reachable_inv in H as [H1 H2 H3 H4].
  split; [unfold closings in H2; rewrite fmap_app in H2; apply NoDup_app in H2; tauto|].
  intros l r Hl; destruct (H4 l r Hl) as (s & Hs & Hp); exists s.
  destruct (H3 l) as [(s' & Hs' & Hc) Hno].
  { unfold closings; rewrite list_elem_of_fmap; exists (l, r); rewrite elem_of_app; auto. }
  split_and!; try tauto; [congruence|].
  intros id E; apply Hno, store_All_in; eauto.
Qed.

(** Idle closing never takes a transport away: whenever a lock section of
    the sweeper, or CloseSessionIfNoPollInFlight, closes a session, no poll or
    persistent transport is attached to it at that very moment, and if it can
    still be resumed its grace period is over or it was detached for longer
    than its normal gap between polls (the cap on waiting sessions). *)
Theorem idle_close_spares_live_sessions timeout now w l s w' :
  w_heap w !! l = Some s ->
  (sweep_judge timeout now s = Expired ->
     s_pollInFlight s = 0
     /\ (Resumable s = true -> s_resumeGrace s < time_sub now (s_detachedAt s))
     /\ (Resumable s = false -> timeout < time_sub now (s_lastActive s)))
  /\ (sweep_recheck now s = true ->
     s_pollInFlight s = 0 /\ s_pollGap s < time_sub now (s_detachedAt s))
  /\ (removeAndMarkClosed l true now w = (w', true) ->
     s_pollInFlight s = 0
     /\ (Resumable s = true -> s_resumeGrace s < time_sub now (s_detachedAt s))
     /\ sessions w !! s_ID s = Some l).
Proof.
  intros Hl; split_and!.
  - unfold sweep_judge; intros Hj; repeat case_if_in Hj; try discriminate; breflect;
      split_and!; auto; congruence.
  - unfold sweep_recheck, detachedBeyondPollGapLocked; intros Hj; breflect; auto.
  - intros E; apply removeAndMarkClosed_wins in E as (s' & Hl' & Hid & Hc & _ & Hi).
    assert (s' = s) as -> by congruence; destruct (Hi eq_refl) as [Hp Hg]; split_and!; auto.
    unfold Resumable, inResumeGraceLocked in *; destruct (s_rs s) as [r|]; [|discriminate].
    intros Hb; rewrite Hp, Hb in Hg; cbn in Hg; breflect; exact Hg.
Qed.

(** The resume deadline is exact: for a detached session that can be
    resumed, a late attach of either kind is refused, the sweeper evicts and
    CloseSessionIfNoPollInFlight stops sparing it from the same instant on,
    namely after detachedAt + resumeGrace, which is what ResumeDeadline
    reports. *)
Theorem resume_deadline_is_exact s now timeout d :
  ResumeDeadline s = Some d -> s_wsAttached s = false ->
  0 <= s_resumeGrace s < maxDuration ->
  d = s_detachedAt s + s_resumeGrace s
  /\ (beginPoll now s).2 = (now <=? d)
  /\ (beginWebSocket now s).2 = (now <=? d)
  /\ refusesAttach now s = (d <? now)
  /\ inResumeGraceLocked now s = (now <=? d)
  /\ (sweep_judge timeout now s = Expired <-> d < now).
Proof.
  intros Hd Hws Hg; unfold ResumeDeadline in Hd.
  destruct (Resumable s) eqn:Hr; [|discriminate]; cbn in Hd.
  destruct (s_pollInFlight s =? 0) eqn:Hp, (s_closed s) eqn:Hc; try discriminate.
  injection Hd as <-; split; [reflexivity|].
  assert (Ht : (s_resumeGrace s <? time_sub now (s_detachedAt s))
               = (s_detachedAt s + s_resumeGrace s <? now)).
  { rewrite time_sub_gt by (unfold is_i64, maxDuration in *; lia).
    destruct (Z.ltb_spec (s_resumeGrace s) (now - s_detachedAt s));
      symmetry; [apply Z.ltb_lt|apply Z.ltb_ge]; lia. }
  assert (Hx : resumeExpiredLocked now s = (s_detachedAt s + s_resumeGrace s <? now)).
  { unfold Resumable, resumeExpiredLocked in *; destruct (s_rs s) as [r|]; [|discriminate].
    rewrite Hp, Hr, Ht; reflexivity. }
  unfold beginPoll, beginWebSocket, refusesAttach; rewrite Hc, Hws, Hx; cbn [orb].
  rewrite (Z.leb_antisym _ now); split_and!; auto; try (case_if; reflexivity).
  - unfold Resumable, inResumeGraceLocked in *; destruct (s_rs s) as [r|]; [|discriminate].
    rewrite Hp, Hr, Z.leb_antisym, Ht; reflexivity.
  - unfold sweep_judge; rewrite Hc, Hp, Hr, Ht; cbn.
    destruct (Z.ltb_spec (s_detachedAt s + s_resumeGrace s) now); split; try lia; auto.
    case_if; discriminate.
Qed.

(** The limits as the documentation states them, on the session's fields: an
    open session with no transport has outlived its limit when it has been
    detached for longer than its grace period if it can be resumed, and idle for
    longer than the session timeout if it cannot; it waits for a resume when it
    is within its grace period but detached for longer than its normal gap
    between polls. *)
Definition idle_open (s : session) : Prop := s_closed s = false /\ s_pollInFlight s = 0.
Definition outlived (timeout now : Z) (s : session) : Prop :=
  idle_open s
  /\ if Resumable s then s_resumeGrace s < time_sub now (s_detachedAt s)
     else timeout < time_sub now (s_lastActive s).
Definition awaits_resume (now : Z) (s : session) : Prop :=
  idle_open s /\ Resumable s = true
  /\ s_pollGap s < time_sub now (s_detachedAt s) <= s_resumeGrace s.

(** A property of a session that is in the store. *)
Definition stored (w : world) (P : session -> Prop) (l : loc) : Prop :=
  l ∈ store_All w /\ exists s, w_heap w !! l = Some s /\ P s.

Lemma aged_outlived timeout now w l : aged timeout now w l <-> stored w (outlived timeout now) l.
Proof.
  unfold aged, stored, judged, sweep_judge, outlived, idle_open.
  destruct (w_heap w !! l) as [s|]; [|split; [intros [_ ?]; discriminate|intros (_ & s & ? & _); discriminate]].
  split.
  - intros [Hin Hj]; split; [exact Hin|]; exists s; split; [reflexivity|].
    repeat case_if_in Hj; try discriminate; breflect; auto.
  - intros (Hin & s' & E & [Hc Hp] & Hlim); injection E as <-; split; [exact Hin|].
    rewrite Hc, Hp; cbn; destruct (Resumable s); rewrite (proj2 (Z.ltb_lt _ _) Hlim); reflexivity.
Qed.

Lemma waiting_awaits timeout now w l : waiting timeout now w l <-> stored w (awaits_resume now) l.
Proof.
  unfold waiting, stored, judged, sweep_judge, awaits_resume, idle_open, detachedBeyondPollGapLocked.
  destruct (w_heap w !! l) as [s|]; [|split; [intros [_ ?]; discriminate|intros (_ & s & ? & _); discriminate]].
  split.
  - intros [Hin Hj]; split; [exact Hin|]; exists s; split; [reflexivity|].
    repeat case_if_in Hj; try discriminate; breflect; auto.
  - intros (Hin & s' & E & [Hc Hp] & Hr & Hg & Hl); injection E as <-; split; [exact Hin|].
    rewrite Hc, Hp, Hr; cbn; rewrite (proj2 (Z.ltb_ge _ _) Hl), (proj2 (Z.ltb_lt _ _) Hg); reflexivity.
Qed.

Lemma over_cap_take cap (l : list loc) :
  over_cap cap l = if 0 <? cap then take (Z.to_nat (len l - cap)) l else [].
Proof.
  unfold over_cap; destruct (0 <? cap); cbn [andb]; [|reflexivity].
  destruct (Z.ltb_spec cap (len l)); [reflexivity|].
  replace (Z.to_nat (len l - cap)) with 0%nat by lia; reflexivity.
Qed.

(** C14: a sweep is exact: the sessions it removes are those that have outlived
    their limit and, of those waiting for a resume, in the order in which they
    were detached, as many as exceed a positive cap; every one of them is
    closed with both pipes and reported as evicted exactly once; every other
    session keeps its state and its place in the store, and nothing else is
    reported. *)
Theorem sweep_is_exact order sort timeout now w :
  store_ok w -> order ≡ₚ map_to_list (sessions w) -> sort_ok sort ->
  let w' := sweep order sort timeout now w in
  let cap := st_maxDetachedResumable (w_store w) in
  exists waits gone,
    (forall l, l ∈ waits <-> stored w (awaits_resume now) l) /\ NoDup waits
    /\ StronglySorted (fun x y => detachedAt_of w x <= detachedAt_of w y) waits
    /\ NoDup gone
    /\ (forall l, l ∈ gone <-> stored w (outlived timeout now) l
          \/ l ∈ (if 0 <? cap then take (Z.to_nat (len waits - cap)) waits else []))
    /\ (forall id l, sessions w' !! id = Some l <-> sessions w !! id = Some l /\ l ∉ gone)
    /\ (forall l, l ∉ gone -> w_heap w' !! l = w_heap w !! l)
    /\ (forall l s, w_heap w !! l = Some s -> l ∈ gone ->
        exists s', w_heap w' !! l = Some s' /\ s_closed s' = true /\ s_ID s' = s_ID s
          /\ p_closed (s_toServer s') = true /\ p_closed (s_toClient s') = true)
    /\ w_log w' = w_log w ++ map (fun l => (l, ReasonEvicted)) gone
    /\ store_ok w'.
Proof.
  intros Hok Ho Hs; cbn zeta.
  pose proof (sweep_store_ok order sort timeout now w Hok Ho Hs) as Hok'.
  destruct (sweep_effect order sort timeout now w Hok Ho Hs)
    as (old & sorted & H1 & H2 & H3 & H4 & H5 & H6 & H7 & H8); cbn zeta in *.
  pose proof H4 as (Hnd & Hdis & Hnd')%NoDup_app.
  exists sorted; eexists; split_and!;
    [|exact Hnd'|exact H3| | |exact H5|exact H6|exact H7|exact H8|exact Hok'].
  - intros l; rewrite H2; apply waiting_awaits.
  - apply NoDup_app; split_and!; auto.
    + intros l Hl Hx; apply (Hdis l Hl); eapply over_cap_in, Hx.
    + rewrite over_cap_take; case_if; [|constructor].
      eapply sublist_NoDup; [exact Hnd'|apply sublist_take].
  - intros l; rewrite elem_of_app, H1, over_cap_take, aged_outlived; reflexivity.
Qed.

(** The cap on waiting sessions is enforced fairly: after a sweep with a
    positive cap at most that many detached sessions are left waiting for a
    resume, and every one that was evicted for the cap had been detached at
    least as long as each one that was kept. *)
Theorem sweep_enforces_cap order sort timeout now w :
  store_ok w -> order ≡ₚ map_to_list (sessions w) -> sort_ok sort ->
  0 < st_maxDetachedResumable (w_store w) ->
  let w' := sweep order sort timeout now w in
  len (filter (fun l => judged timeout now w' l = Detached) (store_All w'))
    <= st_maxDetachedResumable (w_store w)
  /\ (forall l l', waiting timeout now w l -> waiting timeout now w l' ->
      l ∉ store_All w' -> l' ∈ store_All w' -> detachedAt_of w l <= detachedAt_of w l').
Proof.
  intros Hok Ho Hs Hcap; cbn zeta.
  pose proof (sweep_store_ok order sort timeout now w Hok Ho Hs) as Hok'.
  destruct (sweep_effect order sort timeout now w Hok Ho Hs)
    as (old & sorted & H1 & H2 & H3 & H4 & H5 & H6 & _); cbn zeta in *.
  set (w' := sweep order sort timeout now w) in *; set (cap := st_maxDetachedResumable _) in *.
  set (excess := over_cap cap sorted) in *.
  (* what is left waiting is the tail of the sorted list *)
  assert (Hleft : forall l, l ∈ store_All w' -> waiting timeout now w l -> l ∈ sorted /\ l ∉ excess).
  { intros l Hin Hl; split; [apply H2, Hl|]; apply store_All_in in Hin as [id E].
    apply H5 in E as [_ Hno]; intros He; apply Hno, elem_of_app; auto. }
  assert (Hsplit : exists n, excess = take n sorted /\ len (drop n sorted) <= cap).
  { unfold excess, over_cap; case_if.
    - breflect; eexists; split; [reflexivity|]; rewrite len_drop by lia; lia.
    - exists 0%nat; rewrite drop_0; split; [reflexivity|].
      apply andb_false_iff in Heqb as [Heqb|Heqb]; apply Z.ltb_ge in Heqb; lia. }
  destruct Hsplit as (n & He & Hn).
  assert (Htail : forall l, l ∈ sorted -> l ∉ excess -> l ∈ drop n sorted).
  { intros l Hl Hno; rewrite <- (take_drop n sorted), elem_of_app, <- He in Hl; tauto. }
  split.
  - transitivity (len (drop n sorted)); [|exact Hn]; unfold len; apply inj_le.
    apply submseteq_length, NoDup_submseteq; [apply NoDup_filter, store_All_NoDup, Hok'|].
    intros l Hl; apply list_elem_of_filter in Hl as [Hj Hin].
    assert (Hw : waiting timeout now w l).
    { apply store_All_in in Hin as [id E]; pose proof E as E'; apply H5 in E' as [E' Hno].
      split; [apply store_All_in; eauto|]; unfold judged in *; rewrite H6 in Hj by exact Hno; exact Hj. }
    destruct (Hleft l Hin Hw); auto.
  - intros l l' Hl Hl' Hout Hin; destruct (Hleft l' Hin Hl') as [Hs1 Hs2].
    apply (sorted_take_drop _ sorted n); auto; rewrite <- He.
    destruct (decide (l ∈ excess)) as [Hx|Hx]; [exact Hx|exfalso; apply Hout].
    destruct Hl as [Hl Hj]; apply store_All_in in Hl as [id E]; apply store_All_in; exists id.
    apply H5; split; [exact E|]; rewrite elem_of_app; intros [Ho'|Ho']; [|done].
    apply H1 in Ho' as [_ Ho']; congruence.
Qed.

(** A session that was closed directly, through the io.Closer that an
    application hands to yamux, is never reaped: neither a sweep at any later
    time nor a delete, a conditional close or an application close removes it
    from the store or reports its disconnect. *)
Theorem direct_close_is_never_reaped order sort timeout now w l s reason :
  store_ok w -> order ≡ₚ map_to_list (sessions w) -> sort_ok sort ->
  w_heap w !! l = Some s -> s_closed s = true -> sessions w !! s_ID s = Some l ->
  (forall r, (l, r) ∉ w_log w) ->
  let stays w' := sessions w' !! s_ID s = Some l /\ forall r, (l, r) ∉ w_log w' in
  stays (sweep order sort timeout now w)
  /\ stays (closeSession l reason now w)
  /\ stays (CloseSessionIfNoPollInFlight l reason now w).1.
Proof.
  intros Hok Ho Hs Hl Hc Hid Hlog stays; subst stays; cbn beta.
  assert (Hr : forall idle, removeAndMarkClosed l idle now w = (w, false)).
  { intros idle; unfold removeAndMarkClosed; rewrite Hl, bool_decide_true, Hc by exact Hid.
    reflexivity. }
  unfold closeSession, CloseSessionIfNoPollInFlight; rewrite !Hr; split_and!; auto.
  - apply (sweep_keeps order sort timeout now w l); auto; eapply judged_closed; eauto.
  - intros r; rewrite (proj2 (proj2 (sweep_keeps order sort timeout now w l Hok Ho Hs
      (judged_closed timeout now w l s Hl Hc)))); auto.
Qed.

(** ** Witnesses *)

(** sort.Slice by a key, as a merge sort. *)
Definition key_le (key : loc -> Z) (x y : loc) : Prop := key x <= key y.

#[export] Instance key_le_dec key : RelDecision (key_le key).
Proof. intros x y; apply Z_le_dec. Defined.

Definition key_sort (key : loc -> Z) (l : list loc) : list loc := merge_sort (key_le key) l.

Lemma key_sort_ok : sort_ok key_sort.
Proof.
  constructor; intros key l; [apply merge_sort_Permutation|].
  assert (Transitive (key_le key)) by (intros x y z; unfold key_le; lia).
  assert (Total (key_le key)) by (intros x y; unfold key_le; lia).
  apply (StronglySorted_merge_sort (key_le key)).
Qed.

(** Three resumable sessions: "a" detached long ago, "b" detached recently,
    "c" attached. *)
Definition ex_session (id : string) (polls detached : Z) : session :=
  set_life false polls 0 false detached (enableResume 16 (30 * Second) (newSession id ∅ 0)).
Definition ex_world : world :=
  mk_world {[ 0%nat := ex_session "a" 0 0; 1%nat := ex_session "b" 0 (95 * Second);
              2%nat := ex_session "c" 1 0 ]}
    (mk_store {[ "a" := 0%nat; "b" := 1%nat; "c" := 2%nat ]} 1) [] [].
Definition ex_order : list (string * loc) := map_to_list (sessions ex_world).

Lemma ex_world_ok : store_ok ex_world.
Proof.
  assert (Hall : map_Forall (fun id l => exists s, w_heap ex_world !! l = Some s /\ s_ID s = id)
                   (sessions ex_world)).
  { unfold sessions; cbn; repeat apply map_Forall_insert_2; try apply map_Forall_empty;
      eexists; split; reflexivity. }
  intros id l E; exact (Hall id l E).
Qed.

(** "a" has outlived its grace and goes, "c" is attached and stays. *)
Lemma sweep_is_exact_witness :
  let w' := sweep ex_order key_sort (60 * Second) (100 * Second) ex_world in
  (0%nat ∉ store_All w') /\ sessions w' !! "c" = Some 2%nat
  /\ (0%nat, ReasonEvicted) ∈ w_log w'.
Proof.
  destruct (sweep_is_exact ex_order key_sort (60 * Second) (100 * Second) ex_world
              ex_world_ok (reflexivity _) key_sort_ok)
    as (waits & gone & Hw & _ & _ & _ & Hg & Hs & _ & _ & Hl & _); cbn zeta in *.
  assert (Ha : 0%nat ∈ gone).
  { apply Hg; left; split; [apply store_All_in; exists "a"; reflexivity|].
    exists (ex_session "a" 0 0); split; [reflexivity|split; [split; reflexivity|reflexivity]]. }
  assert (Hc : forall P, stored ex_world P 2%nat -> P (ex_session "c" 1 0)).
  { intros P (_ & s & E & HP).
    assert (E' : w_heap ex_world !! 2%nat = Some (ex_session "c" 1 0)) by reflexivity.
    pose proof (eq_trans (eq_sym E') E) as Es; apply (inj Some) in Es as ->; exact HP. }
  split; [|split].
  - intros [id E]%store_All_in; apply Hs in E as [_ E]; exact (E Ha).
  - apply Hs; split; [reflexivity|]; intros [H|H]%Hg.
    + apply Hc in H as [[_ H] _]; discriminate.
    + case_if_in H; [|apply not_elem_of_nil in H; exact H].
      apply elem_of_take in H as (i & Hi & _); apply list_elem_of_lookup_2, Hw, Hc in Hi as [[_ Hi] _].
      discriminate.
  - rewrite Hl; apply elem_of_app; right; apply list_elem_of_fmap; eauto.
Defined.

Lemma sweep_enforces_cap_witness :
  len (filter (fun l => judged (60 * Second) (20 * Second)
                 (sweep ex_order key_sort (60 * Second) (20 * Second) ex_world) l = Detached)
         (store_All (sweep ex_order key_sort (60 * Second) (20 * Second) ex_world))) <= 1.
Proof.
  apply (sweep_enforces_cap ex_order key_sort (60 * Second) (20 * Second) ex_world
           ex_world_ok (reflexivity _) key_sort_ok); reflexivity.
Defined.

Lemma resume_deadline_is_exact_witness :
  (beginPoll (125 * Second) (ex_session "b" 0 (95 * Second))).2 = true
  /\ (beginPoll (126 * Second) (ex_session "b" 0 (95 * Second))).2 = false.
Proof.
  split.
  - destruct (resume_deadline_is_exact (ex_session "b" 0 (95 * Second)) (125 * Second) 0
                (125 * Second)) as (_ & -> & _); try reflexivity; split; reflexivity || discriminate.
  - destruct (resume_deadline_is_exact (ex_session "b" 0 (95 * Second)) (126 * Second) 0
                (125 * Second)) as (_ & -> & _); try reflexivity; split; reflexivity || discriminate.
Defined.

Lemma idle_close_spares_live_sessions_witness :
  sweep_judge (60 * Second) (100 * Second) (ex_session "a" 0 0) = Expired
  /\ s_pollInFlight (ex_session "a" 0 0) = 0.
Proof.
  assert (H : sweep_judge (60 * Second) (100 * Second) (ex_session "a" 0 0) = Expired) by reflexivity.
  split; [exact H|].
  destruct (idle_close_spares_live_sessions (60 * Second) (100 * Second) ex_world 0%nat
              (ex_session "a" 0 0) ex_world) as [H1 _]; [reflexivity|apply H1, H].
Defined.

(** "a" was closed by the application. *)
Definition ex_closed : world := on_session 0%nat Session_Close ex_world.

Lemma ex_closed_ok : store_ok ex_closed.
Proof.
  intros id l E; destruct (ex_world_ok id l E) as (s & Hs & Hid).
  change (w_heap ex_closed) with (alter Session_Close 0%nat (w_heap ex_world)).
  destruct (decide (0%nat = l)) as [<-|Hne].
  - rewrite lookup_alter_eq, Hs; exists (Session_Close s); split; [reflexivity|].
    unfold Session_Close, closeOnce, markClosedLocked; destruct (s_closed s); exact Hid.
  - rewrite lookup_alter_ne by exact Hne; eauto.
Qed.

Lemma direct_close_is_never_reaped_witness :
  sessions (sweep ex_order key_sort (60 * Second) (1000 * Second) ex_closed) !! "a" = Some 0%nat.
Proof.
  apply (direct_close_is_never_reaped ex_order key_sort (60 * Second) (1000 * Second) ex_closed
           0%nat (Session_Close (ex_session "a" 0 0)) ReasonServerClose
           ex_closed_ok (reflexivity _) key_sort_ok); try reflexivity.
  intros r; apply not_elem_of_nil.
Defined.

(** A session is added, deleted and reported. *)
Definition ex_added : world := store_add 0%nat (newSession "a" ∅ 0) new_world.
Definition ex_marked : world := (removeAndMarkClosed 0%nat false 0 ex_added).1.
Definition ex_owed : world := set_pending [(0%nat, ReasonClientDelete)] ex_marked.
Definition ex_reported : world :=
  finish_close 0%nat ReasonClientDelete (set_pending [] ex_owed).

Lemma ex_reported_reachable : rtc wstep new_world ex_reported.
Proof.
  apply (rtc_l _ _ ex_added); [apply ws_add; reflexivity|].
  apply (rtc_l _ _ ex_owed).
  - apply (ws_mark ex_added 0%nat false 0 ReasonClientDelete ex_marked); reflexivity.
  - apply rtc_once, (ws_finish ex_owed 0%nat ReasonClientDelete [] []); reflexivity.
Qed.

Lemma disconnect_reported_once_witness :
  NoDup (w_log ex_reported).*1 /\ w_log ex_reported = [(0%nat, ReasonClientDelete)]
  /\ exists s, w_heap ex_reported !! 0%nat = Some s /\ s_closed s = true.
Proof.
  destruct (disconnect_reported_once ex_reported ex_reported_reachable) as [H1 H2].
  split; [exact H1|]; split; [reflexivity|].
  destruct (H2 0%nat ReasonClientDelete) as (s & Hs & Hc & _); [apply list_elem_of_here|eauto].
Defined.
