(* ===== verification/Connect.v ===== *)
(** * Connect.v: configuration and the connect handshake

    Models ConnectHandler (src/handler.go) on the server's world of Session.v
    and the connect path of the client (Connector.connect and doConnect in
    src/client.go), which asks, checks the answer and decides which transport
    to bring up.  HTTP, JSON and the application's hooks are parameters. *)

From S2P Require Import Prelude Pipe Protocol Reliable Attach Session.

(** ** The server's side *)

Definition StatusOK : Z := 200.
Definition StatusNoContent : Z := 204.
Definition StatusBadRequest : Z := 400.
Definition StatusUnauthorized : Z := 401.
Definition StatusNotFound : Z := 404.
Definition StatusConflict : Z := 409.
Definition StatusGone : Z := 410.
Definition StatusRequestEntityTooLarge : Z := 413.
Definition StatusUpgradeRequired : Z := 426.
Definition StatusInternalServerError : Z := 500.
Definition StatusServiceUnavailable : Z := 503.

(** [Hooks.Authenticate]: metadata, or the status its error asks for. *)
Inductive auth_result : Type :=
| AuthOk (meta : meta_map)
| AuthErr (status : option Z).   (* Some: a StatusError *)

Record Hooks := mk_Hooks {
  h_Authenticate : option (ConnectRequest -> auth_result);
  (** OnConnect may use the store; [false] is a non-nil error. *)
  h_OnConnect : option (loc -> meta_map -> world -> world * bool);
}.

(** The request's body as the JSON decoder sees it: an empty body decodes to
    the zero request. *)
Inductive body (A : Type) : Type := BodyMalformed | BodyEmpty | BodyJSON (a : A).
Arguments BodyMalformed {_}.
Arguments BodyEmpty {_}.
Arguments BodyJSON {_} _.

Definition zero_ConnectRequest : ConnectRequest := mk_ConnectRequest 0 ∅ false false false false false 0.
Definition zero_ResumeRequest : ResumeRequest := mk_ResumeRequest 0 0.

(** The session ConnectHandler builds, and what it negotiated. *)
Definition connect_session (cfg : ServerConfig) (req : ConnectRequest) (id : string)
    (meta : meta_map) (now : Z) : session :=
  let negotiatedMode := negotiatePollMode (cfg_PollMode cfg) (creq_PreferStreamMode req) in
  let negotiatedUpload := negotiatePollMode (cfg_PollMode cfg) (creq_PreferStreamUpload req) in
  let uploadStream := bool_decide (negotiatedUpload = PollModeStream) in
  let transport := if cfg_EnableWebSocket cfg && creq_PreferWebSocket req
                   then TransportWebSocket else "" in
  let s := set_mode negotiatedMode uploadStream false transport 0 0
             (watchHighWater (cfg_HighWaterWarn cfg) true (newSession id meta now)) in
  if negotiateResume cfg req transport negotiatedMode negotiatedUpload then
    let s := enableResume (cfg_MaxReplayBytes cfg) (cfg_ResumeGrace cfg) s in
    let eager := negb (bool_decide (transport = "") && negb uploadStream) in
    let gap := if negb eager && bool_decide (negotiatedMode = PollModeBatch)
               then i64 (duration_ms (Z.min (Z.max (creq_PollIntervalMS req) 0)
                                        (milliseconds (cfg_ResumeGrace cfg)))
                         + batchPollGapAllowance)
               else s_pollGap s in
    let s := set_mode (s_pollMode s) (s_uploadStream s) (creq_BatchResume req) (s_transport s)
               (s_resumeGrace s) gap s in
    if eager then s else set_rs (option_map disableEagerAck (s_rs s)) s
  else s.

(** [limitsMode]: whether the response carries the stream-mode limits. *)
Definition limits_mode (transport : string) (uploadStream : bool) (mode : string) : string :=
  let limitsMode := if uploadStream then PollModeStream else mode in
  if bool_decide (transport = TransportWebSocket) && negb (bool_decide (limitsMode = PollModeStream))
  then PollModeStream else limitsMode.

Definition connect_response (cfg : ServerConfig) (req : ConnectRequest) (s : session)
    : ConnectResponse :=
  let resumable := Resumable s in
  let uploadStreamMode := if s_uploadStream s then PollModeStream else "" in
  mk_ConnectResponse ProtocolVersion (s_ID s)
    (limits cfg (limits_mode (s_transport s) (s_uploadStream s) (s_pollMode s)) resumable)
    (s_meta s) (s_pollMode s) uploadStreamMode (s_transport s) resumable
    (resumable && creq_BatchResume req).

(** An answer to the client. *)
Inductive answer (A : Type) : Type := Answer (a : A) | AnswerError (status : Z).
Arguments Answer {_} _.
Arguments AnswerError {_} _.

Definition authenticate (h : Hooks) (req : ConnectRequest) : meta_map + Z :=
  match h_Authenticate h with
  | None => inl ∅
  | Some auth =>
      match auth req with
      | AuthOk meta => inl meta
      | AuthErr status => inr (default StatusUnauthorized status)
      end
  end.

(** [ConnectHandler] once the configuration passed [check] and got its
    defaults.  [id] is generateSessionID's result and [l] the address of the
    new session. *)
Definition ConnectHandler (cfg : ServerConfig) (h : Hooks) (b : body ConnectRequest)
    (id : option string) (l : loc) (now : Z) (w : world) : world * answer ConnectResponse :=
  match (match b with BodyMalformed => None | BodyEmpty => Some zero_ConnectRequest
                    | BodyJSON req => Some req end) with
  | None => (w, AnswerError StatusBadRequest)
  | Some req =>
      if negb (creq_ProtocolVersion req =? ProtocolVersion)
      then (w, AnswerError StatusUpgradeRequired)
      else match authenticate h req with
      | inr status => (w, AnswerError status)
      | inl authMeta =>
          match id with
          | None => (w, AnswerError StatusInternalServerError)
          | Some id =>
              (* maps.Copy: what the application says wins *)
              let meta := authMeta ∪ creq_Meta req in
              let s := connect_session cfg req id meta now in
              let w := store_add l s w in
              match h_OnConnect h with
              | None => (w, Answer (connect_response cfg req s))
              | Some onConnect =>
                  match onConnect l meta w with
                  | (w, true) => (w, Answer (connect_response cfg req s))
                  | (w, false) =>
                      (on_session l Session_Close (store_Remove id w),
                       AnswerError StatusInternalServerError)
                  end
              end
          end
      end
  end.

(** ** The client's side *)

Record Connector := mk_Connector {
  c_BaseURL : string;
  c_Meta : meta_map;
  c_PollInterval : Z;
  c_MaxSendChunk : Z;
  c_PreferStream : bool;
  c_UploadStreamPreference : string;
  c_PreferWebSocket : bool;
  c_PreferResume : bool;
  c_MaxReplayBytes : Z;
}.

Definition connect_request (c : Connector) (preferResume forceBatchUpload : bool) : ConnectRequest :=
  mk_ConnectRequest ProtocolVersion (c_Meta c) (c_PreferStream c)
    (negb forceBatchUpload && negb (bool_decide (c_UploadStreamPreference c = PollModeBatch)))
    (c_PreferWebSocket c) preferResume preferResume (milliseconds (c_PollInterval c)).

(** What the exchange brought back: no response, a status, an undecodable 200
    or a decoded one. *)
Inductive reply : Type :=
| ReplyNone
| ReplyStatus (status : Z)
| ReplyGarbled
| ReplyOK (cr : ConnectResponse).

Definition doConnect_check (r : reply) : res ConnectResponse :=
  match r with
  | ReplyNone => Fail (ErrNet false)
  | ReplyStatus status =>
      if status =? StatusUnauthorized then Fail ErrUnauthorized
      else if status =? StatusUpgradeRequired then Fail ErrProtocolVersion
      else Fail errBadResponse
  | ReplyGarbled => Fail errBadResponse
  | ReplyOK cr =>
      if bool_decide (cres_SessionID cr = "") then Fail errBadResponse
      else if negb (cres_ProtocolVersion cr =? 0)
              && negb (cres_ProtocolVersion cr =? ProtocolVersion)
      then Fail ErrProtocolVersion
      else Ok cr
  end.

(** The transport a successful connect brings up. *)
Inductive transport_plan : Type :=
| PlanWebSocket (cr : ConnectResponse) (resumable : bool)
| PlanResumable (cr : ConnectResponse)
| PlanHTTP (cr : ConnectResponse) (stream upload : bool) (chunk : Z).

(** The checks of connect on a decoded response. *)
Inductive checked : Type :=
| Refused (e : goerr)
| UseWebSocket
| UseHTTP (stream upload : bool).

Definition connect_check (c : Connector) (cr : ConnectResponse) : checked :=
  let lim := cres_Limits cr in
  let ws := bool_decide (cres_Transport cr = TransportWebSocket) in
  let stream := bool_decide (cres_PollMode cr = PollModeStream) in
  let upload := bool_decide (cres_UploadStreamMode cr = PollModeStream) in
  match Validate lim with
  | Some e => Refused e
  | None =>
      if cres_Resumable cr && (ResumeGraceMS lim <=? 0) then Refused errConfig
      else if cres_Resumable cr && negb ws && negb (cres_BatchResume cr)
              && (negb stream || negb upload) then Refused errConfig
      else if ws then
        if HeartbeatIntervalMS lim <=? 0 then Refused errConfig else UseWebSocket
      else if (stream || upload) && (HeartbeatIntervalMS lim <=? 0) then Refused errConfig
      else if (stream || upload) && (StreamMaxDurationMS lim <=? 0) then Refused errConfig
      else if Limits_SessionTimeout lim <=? i64 (Limits_PollTimeout lim + c_PollInterval c)
      then Refused errConfig
      else if cres_Resumable cr && negb stream && negb upload
              && (Limits_ResumeGrace lim <=? c_PollInterval c) then Refused errConfig
      else UseHTTP stream upload
  end.

Section Client.
Context {W : Type}.
(** The server as the client sees it: the connect exchange, the upload probe
    and a DELETE. *)
Context (exchange : W -> ConnectRequest -> W * reply)
        (probe : W -> string -> W * bool) (delete : W -> string -> W).

(** [connect]; [fuel] bounds the reconnects after a failed probe and [None]
    is running out of it. *)
Fixpoint connect (fuel : nat) (c : Connector) (preferResume forceBatchUpload : bool) (w : W)
    : option (W * res transport_plan) :=
  match fuel with
  | O => None
  | S fuel =>
      if bool_decide (c_BaseURL c = "") then Some (w, Fail errConfig)
      else if negb (bool_decide (c_UploadStreamPreference c = ""
                      \/ c_UploadStreamPreference c = PollModeBatch
                      \/ c_UploadStreamPreference c = PollModeStream))
      then Some (w, Fail errConfig)
      else
        let '(w, r) := exchange w (connect_request c preferResume forceBatchUpload) in
        match doConnect_check r with
        | Fail e => Some (w, Fail e)
        | Ok cr =>
            match connect_check c cr with
            | Refused e => Some (w, Fail e)
            | UseWebSocket => Some (w, Ok (PlanWebSocket cr (cres_Resumable cr)))
            | UseHTTP stream upload =>
                let auto := upload && bool_decide (c_UploadStreamPreference c = "") in
                if cres_Resumable cr then
                  if auto then
                    match probe w (cres_SessionID cr) with
                    | (w, true) => Some (w, Ok (PlanResumable cr))
                    | (w, false) =>
                        connect fuel c (cres_BatchResume cr) true (delete w (cres_SessionID cr))
                    end
                  else Some (w, Ok (PlanResumable cr))
                else
                  let chunk := Z.min (orInt (c_MaxSendChunk c) DefaultMaxSendChunk)
                                 (MaxSendBytes (cres_Limits cr)) in
                  let '(w, up) :=
                    if auto then probe w (cres_SessionID cr)
                    else (w, upload && bool_decide (c_UploadStreamPreference c = PollModeStream)) in
                  Some (w, Ok (PlanHTTP cr stream up chunk))
            end
        end
  end.
End Client.

(** ** Durations through the wire *)

(** A duration the server can announce: at least a millisecond. *)
Definition announceable (d : Z) : Prop := Millisecond <= d < 2 ^ 63.

Lemma milliseconds_pos d : announceable d -> 0 < milliseconds d.
Proof.
  unfold announceable, milliseconds, Millisecond; intros H.
  rewrite Z.quot_div_nonneg by lia; apply Z.div_str_pos; lia.
Qed.

(** Encoding a duration in milliseconds rounds it down, without overflow. *)
Lemma duration_ms_milliseconds d :
  0 <= d < 2 ^ 63 ->
  duration_ms (milliseconds d) = d - d mod Millisecond /\ d - Millisecond < duration_ms (milliseconds d) <= d.
Proof.
  unfold duration_ms, milliseconds, Millisecond; intros H.
  rewrite Z.quot_div_nonneg by lia.
  pose proof (Z.div_mod d 1000000 ltac:(lia)); pose proof (Z.mod_pos_bound d 1000000 ltac:(lia)).
  rewrite i64_id by (unfold is_i64; lia); lia.
Qed.

Record cfg_ok (cfg : ServerConfig) : Prop := {
  co_poll : announceable (cfg_PollTimeout cfg);
  co_session : announceable (cfg_SessionTimeout cfg);
  co_heartbeat : announceable (cfg_HeartbeatInterval cfg);
  co_stream : announceable (cfg_StreamMaxDuration cfg);
  co_grace : announceable (cfg_ResumeGrace cfg);
  co_send : 0 < cfg_MaxSendBytes cfg;
}.

(** A configuration whose durations are unset or at least a millisecond is
    announceable once it has its defaults. *)
Lemma withDefaults_ok cfg :
  let good d := d <= 0 \/ announceable d in
  good (cfg_PollTimeout cfg) -> good (cfg_SessionTimeout cfg) -> good (cfg_HeartbeatInterval cfg) ->
  good (cfg_StreamMaxDuration cfg) -> good (cfg_ResumeGrace cfg) -> cfg_ok (withDefaults cfg).
Proof.
  intros good H1 H2 H3 H4 H5.
  assert (Hd : forall v d, good v -> announceable d -> announceable (if v <=? 0 then d else v)).
  { unfold good, announceable, Millisecond; intros v d [Hv|Hv] Hd;
      destruct (Z.leb_spec v 0); lia. }
  constructor; cbn; try (apply Hd; [assumption|unfold announceable; vm_compute; split; congruence]).
  destruct (Z.leb_spec (cfg_MaxSendBytes cfg) 0); [reflexivity|lia].
Qed.

(** ** What ConnectHandler negotiates *)

Section Negotiated.
Context (cfg : ServerConfig) (req : ConnectRequest) (id : string) (meta : meta_map) (now : Z).

Lemma connect_session_fields :
  let s := connect_session cfg req id meta now in
  let mode := negotiatePollMode (cfg_PollMode cfg) (creq_PreferStreamMode req) in
  let upload := negotiatePollMode (cfg_PollMode cfg) (creq_PreferStreamUpload req) in
  let transport := if cfg_EnableWebSocket cfg && creq_PreferWebSocket req
                   then TransportWebSocket else "" in
  s_ID s = id /\ s_meta s = meta /\ s_pollMode s = mode
  /\ s_uploadStream s = bool_decide (upload = PollModeStream)
  /\ s_transport s = transport
  /\ Resumable s = negotiateResume cfg req transport mode upload
  /\ s_closed s = false /\ s_pollInFlight s = 0 /\ s_wsAttached s = false
  /\ s_detachedAt s = now /\ s_lastActive s = now
  /\ (Resumable s = true -> s_resumeGrace s = cfg_ResumeGrace cfg).
Proof.
  cbn zeta; unfold connect_session, watchHighWater.
  destruct (negotiateResume _ _ _ _ _), (_ || _); cbn -[negotiatePollMode];
    repeat (case_if; cbn -[negotiatePollMode]); split_and!; auto; intros; discriminate.
Qed.

Lemma negotiated_stream server client :
  negotiatePollMode server client = PollModeStream <-> server = PollModeStream /\ client = true.
Proof.
  unfold negotiatePollMode; case_bool_decide; destruct client; cbn; split; intros;
    try discriminate; try tauto; destruct_and!; congruence.
Qed.

Lemma negotiated_modes server client :
  negotiatePollMode server client = PollModeStream \/ negotiatePollMode server client = PollModeBatch.
Proof. unfold negotiatePollMode; case_if; auto. Qed.
End Negotiated.

(** A reply names upload streaming only if it was asked for. *)
Definition honest_upload (req : ConnectRequest) (r : reply) : Prop :=
  match r with
  | ReplyOK cr => cres_UploadStreamMode cr = PollModeStream -> creq_PreferStreamUpload req = true
  | _ => True
  end.

Lemma connect_response_honest cfg req id meta now :
  honest_upload req (ReplyOK (connect_response cfg req (connect_session cfg req id meta now))).
Proof.
  destruct (connect_session_fields cfg req id meta now) as (_ & _ & _ & Hu & _); cbn in *.
  rewrite Hu; case_bool_decide as Hs; cbn; [|discriminate].
  intros _; apply negotiated_stream in Hs; tauto.
Qed.

Lemma limits_mode_stream transport upload mode :
  transport = TransportWebSocket \/ mode = PollModeStream \/ upload = true ->
  limits_mode transport upload mode = PollModeStream.
Proof.
  unfold limits_mode; intros H; destruct upload; [case_if; reflexivity|].
  case_bool_decide; case_bool_decide; cbn; auto; destruct H as [?|[?|?]]; congruence.
Qed.

(** What the client reads in the response of a session. *)
Lemma response_limits cfg req s :
  cfg_ok cfg ->
  let lim := cres_Limits (connect_response cfg req s) in
  Validate lim = None
  /\ (Resumable s = true -> 0 < ResumeGraceMS lim)
  /\ (s_transport s = TransportWebSocket \/ s_pollMode s = PollModeStream \/ s_uploadStream s = true ->
      0 < HeartbeatIntervalMS lim /\ 0 < StreamMaxDurationMS lim).
Proof.
  intros [Hp Hse Hh Hst Hg Hsend]; cbn zeta; split_and!.
  - unfold Validate; cbn -[milliseconds].
    rewrite !(proj2 (Z.leb_gt _ _)) by auto using milliseconds_pos; reflexivity.
  - intros E; cbn -[milliseconds]; rewrite E; auto using milliseconds_pos.
  - intros Hany; cbn -[milliseconds]; rewrite limits_mode_stream, bool_decide_true by auto.
    auto using milliseconds_pos.
Qed.

Lemma resumable_is_batch_capable cfg c pr fb id meta now :
  let req := connect_request c pr fb in
  let s := connect_session cfg req id meta now in
  Resumable s = true -> cres_BatchResume (connect_response cfg req s) = true.
Proof.
  cbn zeta; destruct (connect_session_fields cfg (connect_request c pr fb) id meta now)
    as (_ & _ & _ & _ & _ & Hr & _); intros E; cbn [connect_response cres_BatchResume].
  rewrite E; rewrite Hr in E; unfold negotiateResume in E; cbn in *.
  destruct (cfg_EnableResume cfg), pr; cbn in E; congruence.
Qed.

(** The checks, given what the response says. *)
Lemma connect_check_passes c cr :
  let lim := cres_Limits cr in
  let ws := bool_decide (cres_Transport cr = TransportWebSocket) in
  let stream := bool_decide (cres_PollMode cr = PollModeStream) in
  let upload := bool_decide (cres_UploadStreamMode cr = PollModeStream) in
  Validate lim = None ->
  (cres_Resumable cr = true -> 0 < ResumeGraceMS lim /\ cres_BatchResume cr = true
     /\ c_PollInterval c < Limits_ResumeGrace lim) ->
  (ws || stream || upload = true -> 0 < HeartbeatIntervalMS lim /\ 0 < StreamMaxDurationMS lim) ->
  i64 (Limits_PollTimeout lim + c_PollInterval c) < Limits_SessionTimeout lim ->
  connect_check c cr = if ws then UseWebSocket else UseHTTP stream upload.
Proof.
  intros lim ws stream upload Hv Hr Hs Hcycle; unfold connect_check.
  fold lim ws stream upload; rewrite Hv, (proj2 (Z.leb_gt (Limits_SessionTimeout lim) _)) by exact Hcycle.
  destruct ws, stream, upload; cbn [orb andb negb] in *;
    destruct (cres_Resumable cr); cbn [andb];
    try (destruct (Hr eq_refl) as (H1 & H2 & H3); rewrite ?H2; cbn [negb andb];
         rewrite (proj2 (Z.leb_gt (ResumeGraceMS lim) 0) H1),
           ?(proj2 (Z.leb_gt (Limits_ResumeGrace lim) _) H3));
    try (destruct (Hs eq_refl) as (H4 & H5);
         rewrite (proj2 (Z.leb_gt (HeartbeatIntervalMS lim) 0) H4),
           ?(proj2 (Z.leb_gt (StreamMaxDurationMS lim) 0) H5)); reflexivity.
Qed.

(** ** Properties *)

(** The two ends always agree on the transport: the response of a server
    with any announceable configuration to any client's request passes every
    check the client makes, except the two that reject the client's own
    PollInterval, and the transport the client then brings up is the one the
    session was created for. *)
Theorem negotiation_agrees cfg c preferResume forceBatchUpload id meta now :
  cfg_ok cfg ->
  let req := connect_request c preferResume forceBatchUpload in
  let s := connect_session cfg req id meta now in
  let cr := connect_response cfg req s in
  i64 (Limits_PollTimeout (cres_Limits cr) + c_PollInterval c) < Limits_SessionTimeout (cres_Limits cr) ->
  (Resumable s = true -> c_PollInterval c < Limits_ResumeGrace (cres_Limits cr)) ->
  connect_check c cr
  = if bool_decide (s_transport s = TransportWebSocket) then UseWebSocket
    else UseHTTP (bool_decide (s_pollMode s = PollModeStream)) (s_uploadStream s).
Proof.
  intros Hcfg req s cr Hcycle Hgap.
  destruct (response_limits cfg req s Hcfg) as (Hv & Hg & Hs).
  assert (Hup : bool_decide (cres_UploadStreamMode cr = PollModeStream) = s_uploadStream s)
    by (cbn; destruct (s_uploadStream s); reflexivity).
  rewrite (connect_check_passes c cr); auto.
  - rewrite Hup; reflexivity.
  - intros E; split_and!; auto; apply resumable_is_batch_capable, E.
  - rewrite Hup; intros Hany; apply Hs; cbn in Hany; rewrite !orb_true_iff, !bool_decide_eq_true in Hany.
    tauto.
Qed.

(** Connect always returns against a server that streams uploads only for
    clients that asked: one probe failure leads to exactly one reconnect, which
    asks for batch uploads and therefore never probes again. *)
Theorem connect_terminates {W} exchange probe delete c preferResume (w : W) :
  (forall w req, honest_upload req (exchange w req).2) ->
  exists w' r, connect exchange probe delete 2 c preferResume false w = Some (w', r).
Proof.
  intros Hh; cbn [connect].
  repeat (case_if; [eauto|]).
  pose proof (Hh w (connect_request c preferResume false)) as _.
  destruct (exchange w _) as [w1 r1]; destruct (doConnect_check r1) as [cr|]; [|eauto].
  destruct (connect_check c cr) as [| |stream upload]; eauto.
  destruct (cres_Resumable cr).
  2: { destruct (upload && _); [destruct (probe w1 _)|]; eauto. }
  destruct (upload && _); [|eauto].
  destruct (probe w1 (cres_SessionID cr)) as [w2 []]; [eauto|].
  pose proof (Hh (delete w2 (cres_SessionID cr)) (connect_request c (cres_BatchResume cr) true)) as Hq.
  destruct (exchange _ _) as [w3 r3]; cbn [snd] in Hq.
  destruct (doConnect_check r3) as [cr'|] eqn:Hd; [|eauto].
  destruct (connect_check c cr') as [| |stream' upload'] eqn:Hc; eauto.
  assert (upload' = false) as ->.
  { destruct r3; cbn in Hd; repeat case_if_in Hd; try discriminate; injection Hd as ->.
    unfold connect_check in Hc; destruct (Validate _); [discriminate|].
    repeat case_if_in Hc; try discriminate; injection Hc as <- <-.
    apply bool_decide_false; intros E; specialize (Hq E); discriminate. }
  destruct (cres_Resumable cr'); cbn [andb]; eauto.
Qed.

(** A request body never exceeds what the server accepts: whenever connect
    brings up the plain HTTP transport, its send chunk is positive and at most
    the server's max_send_bytes. *)
Theorem send_chunk_is_clamped {W} exchange probe delete fuel c pr fb (w w' : W) cr stream up chunk :
  connect exchange probe delete fuel c pr fb w = Some (w', Ok (PlanHTTP cr stream up chunk)) ->
  0 < chunk <= MaxSendBytes (cres_Limits cr).
Proof.
  revert c pr fb w; induction fuel as [|fuel IH]; intros c pr fb w; cbn [connect]; [discriminate|].
  repeat (case_if; [discriminate|]).
  destruct (exchange w _) as [w1 r1]; destruct (doConnect_check r1) as [cr1|]; [|discriminate].
  destruct (connect_check c cr1) as [| |stream1 upload1] eqn:Hc; [discriminate|discriminate|].
  destruct (cres_Resumable cr1).
  - destruct (upload1 && _); [|discriminate]; destruct (probe _ _) as [w2 []]; [discriminate|apply IH].
  - destruct (if upload1 && _ then _ else _) as [w2 up2]; intros E; injection E as <- <- <- <- <-.
    unfold connect_check, Validate in Hc; destruct (Z.leb_spec (MaxSendBytes (cres_Limits cr1)) 0);
      [discriminate|].
    unfold orInt; change DefaultMaxSendChunk with 524288; destruct (Z.leb_spec (c_MaxSendChunk c) 0); lia.
Qed.

(** Registration order: OnConnect runs with the new session already in the
    store and open, so a poll that overtakes the callback finds it; if the
    callback fails the session is closed with both pipes and its id is gone
    from the store, and the client gets a 500. *)
Theorem connect_registers_first cfg h req id l now w onConnect authMeta w1 ok :
  creq_ProtocolVersion req = ProtocolVersion -> authenticate h req = inl authMeta ->
  h_OnConnect h = Some onConnect ->
  let meta := authMeta ∪ creq_Meta req in
  let s := connect_session cfg req id meta now in
  onConnect l meta (store_add l s w) = (w1, ok) ->
  let '(w2, a) := ConnectHandler cfg h (BodyJSON req) (Some id) l now w in
  store_Get id (store_add l s w) = Some l
  /\ w_heap (store_add l s w) !! l = Some s /\ s_closed s = false
  /\ (ok = true -> w2 = w1 /\ a = Answer (connect_response cfg req s))
  /\ (ok = false -> a = AnswerError StatusInternalServerError /\ store_Get id w2 = None
      /\ forall s1, w_heap w1 !! l = Some s1 -> s_closed s1 = false ->
         w_heap w2 !! l = Some (closePipes (set_closed s1))).
Proof.
  intros Hv Ha Ho meta s Hcb; unfold ConnectHandler; rewrite Hv, Ha, Ho; cbn [Z.eqb negb Pos.eqb].
  fold meta; change (connect_session cfg req id meta now) with s; rewrite Hcb.
  destruct (connect_session_fields cfg req id meta now) as (Hid & _ & _ & _ & _ & _ & Hc & _).
  fold s in Hid, Hc.
  assert (Hget : store_Get id (store_add l s w) = Some l)
    by (unfold store_Get; cbn; rewrite Hid; apply lookup_insert_eq).
  assert (Hheap : w_heap (store_add l s w) !! l = Some s) by apply lookup_insert_eq.
  destruct ok; split_and!; auto; try discriminate.
  intros _; split; [reflexivity|]; split; [apply lookup_delete_eq|].
  intros s1 H1 Hop; cbn; rewrite lookup_alter_eq, H1; cbn.
  unfold Session_Close, closeOnce, markClosedLocked; rewrite Hop; reflexivity.
Qed.

(** C39: check does not see the defaults it is followed by: every configuration
    with a poll timeout of a minute or more and no session timeout, and nothing
    else that check objects to, passes check; the same configuration with its
    defaults filled in would be refused for its session timeout; and every
    client whose connection is not a WebSocket refuses the limits this server
    announces (durations are below 2^62 ns throughout, and the client's poll
    interval is not negative). *)
Theorem check_misses_default_session_timeout cfg c pr fb id meta now :
  cfg_PollMode cfg ∈ ["" : string; PollModeBatch; PollModeStream] ->
  (cfg_PollMode cfg = PollModeStream -> 0 < cfg_StreamMaxDuration cfg ->
   0 <= cfg_HeartbeatInterval cfg < 2 ^ 62
   /\ 2 * cfg_HeartbeatInterval cfg <= cfg_StreamMaxDuration cfg) ->
  cfg_ResumeGrace cfg <= MaxResumeGrace -> cfg_SessionTimeout cfg <= 0 ->
  DefaultSessionTimeout <= cfg_PollTimeout cfg < 2 ^ 62 ->
  check cfg = None /\ check (withDefaults cfg) = Some PanicSessionTimeout
  /\ (0 <= c_PollInterval c < 2 ^ 62 ->
      let req := connect_request c pr fb in
      let s := connect_session (withDefaults cfg) req id meta now in
      s_transport s <> TransportWebSocket ->
      connect_check c (connect_response (withDefaults cfg) req s) = Refused errConfig).
Proof.
  intros Hmode Hstr Hg Hs Hp; change DefaultSessionTimeout with 60000000000 in Hp.
  assert (Hm : cfg_PollMode cfg = "" \/ cfg_PollMode cfg = PollModeBatch
               \/ cfg_PollMode cfg = PollModeStream)
    by (rewrite !elem_of_cons in Hmode; destruct Hmode as [|[|[|H]]]; auto;
        apply not_elem_of_nil in H; done).
  split; [|split]; [| |intros Hi req s Hws].
  { unfold check; rewrite (bool_decide_true _ Hm); cbn [negb].
    rewrite (proj2 (Z.ltb_ge 0 (cfg_SessionTimeout cfg))) by lia; cbn [andb].
    rewrite (proj2 (Z.ltb_ge MaxResumeGrace _)) by lia.
    case_bool_decide as Hst; cbn [andb]; [|reflexivity].
    destruct (Z.ltb_spec 0 (cfg_StreamMaxDuration cfg)); cbn [andb]; [|reflexivity].
    destruct (Hstr Hst) as [Hh Hle]; [lia|].
    rewrite (proj2 (Z.ltb_ge _ (i64 _))) by (rewrite i64_id; unfold is_i64; lia).
    rewrite andb_false_r; reflexivity. }
  { unfold check; cbn -[bool_decide]; rewrite (bool_decide_true _ Hm); cbn [negb].
    rewrite (proj2 (Z.leb_le (cfg_SessionTimeout cfg) 0)), (proj2 (Z.leb_gt (cfg_PollTimeout cfg) 0)) by lia.
    change DefaultSessionTimeout with 60000000000.
    rewrite !(proj2 (Z.ltb_lt _ _)) by (rewrite ?i64_id; unfold is_i64; lia); reflexivity. }
  set (cr := connect_response (withDefaults cfg) req s).
  assert (Hpoll : Limits_PollTimeout (cres_Limits cr) = duration_ms (milliseconds (cfg_PollTimeout cfg))).
  { unfold Limits_PollTimeout; cbn -[milliseconds duration_ms].
    rewrite (proj2 (Z.leb_gt _ _)) by lia; reflexivity. }
  assert (Hsess : Limits_SessionTimeout (cres_Limits cr) = 60000000000).
  { unfold Limits_SessionTimeout; cbn -[milliseconds duration_ms].
    rewrite (proj2 (Z.leb_le _ _) Hs); reflexivity. }
  assert (Hlong : 60000000000 <= duration_ms (milliseconds (cfg_PollTimeout cfg)) < 2 ^ 62).
  { destruct (duration_ms_milliseconds (cfg_PollTimeout cfg)) as [-> H]; [lia|].
    unfold Millisecond in *; pose proof (Z.div_mod (cfg_PollTimeout cfg) 1000000 ltac:(lia)).
    pose proof (Z.mod_pos_bound (cfg_PollTimeout cfg) 1000000 ltac:(lia)).
    pose proof (Z.div_le_mono 60000000000 (cfg_PollTimeout cfg) 1000000 ltac:(lia) ltac:(lia)) as Hd.
    change (60000000000 / 1000000) with 60000 in Hd; lia. }
  unfold connect_check; fold cr; rewrite Hpoll, Hsess.
  rewrite (proj2 (Z.leb_le 60000000000 _)) by (rewrite i64_id; unfold is_i64; lia).
  change (cres_Transport cr) with (s_transport s); rewrite (bool_decide_false _ Hws).
  destruct (Validate (cres_Limits cr)) as [e|] eqn:Hv.
  - unfold Validate in Hv; repeat case_if_in Hv; congruence.
  - repeat case_if; reflexivity.
Qed.

(** ** Witnesses *)

Definition ex_cfg : ServerConfig :=
  mk_ServerConfig 0 0 0 0 0 0 0 PollModeStream 0 0 false true 0 0 0.
Definition ex_connector : Connector :=
  mk_Connector "http://relay" ∅ 0 0 true "" false true 0.

Lemma ex_cfg_ok : cfg_ok (withDefaults ex_cfg).
Proof. apply withDefaults_ok; left; cbn; lia. Qed.

Lemma negotiation_agrees_witness :
  let req := connect_request ex_connector true false in
  let s := connect_session (withDefaults ex_cfg) req "id" ∅ 0 in
  connect_check ex_connector (connect_response (withDefaults ex_cfg) req s) = UseHTTP true true.
Proof.
  apply (negotiation_agrees (withDefaults ex_cfg) ex_connector true false "id" ∅ 0 ex_cfg_ok);
    vm_compute; congruence.
Defined.

(** A server that answers every connect from its configuration, a probe that
    always fails. *)
Definition ex_exchange (w : nat) (req : ConnectRequest) : nat * reply :=
  (S w, ReplyOK (connect_response (withDefaults ex_cfg) req
                   (connect_session (withDefaults ex_cfg) req "id" ∅ 0))).
Definition ex_probe (w : nat) (id : string) : nat * bool := (w, false).
Definition ex_delete (w : nat) (id : string) : nat := w.

Lemma connect_terminates_witness :
  exists w' r, connect ex_exchange ex_probe ex_delete 2 ex_connector true false 0%nat = Some (w', r).
Proof.
  apply (connect_terminates ex_exchange ex_probe ex_delete ex_connector true 0%nat).
  intros w req; apply connect_response_honest.
Defined.

(** After the failed probe it is a resumable session with batch uploads. *)
Example ex_connect_retries :
  option_map fst (connect ex_exchange ex_probe ex_delete 2 ex_connector true false 0%nat) = Some 2%nat.
Proof. reflexivity. Qed.

Definition ex_plain : Connector := mk_Connector "http://relay" ∅ 0 0 true "batch" false false 0.
Definition ex_plain_response : ConnectResponse :=
  let req := connect_request ex_plain false false in
  connect_response (withDefaults ex_cfg) req (connect_session (withDefaults ex_cfg) req "id" ∅ 0).

Lemma send_chunk_is_clamped_witness : 0 < 524288 <= MaxSendBytes (cres_Limits ex_plain_response).
Proof.
  apply (send_chunk_is_clamped ex_exchange ex_probe ex_delete 1 ex_plain false false 0%nat 1%nat
           ex_plain_response true false 524288); reflexivity.
Defined.

Definition ex_onConnect (l : loc) (meta : meta_map) (w : world) : world * bool := (w, false).
Definition ex_hooks : Hooks := mk_Hooks None (Some ex_onConnect).

Lemma connect_registers_first_witness :
  let req := connect_request ex_connector true false in
  let s := connect_session ex_cfg req "id" (∅ ∪ ∅) 0 in
  store_Get "id" (store_add 0%nat s new_world) = Some 0%nat
  /\ store_Get "id" (ConnectHandler ex_cfg ex_hooks (BodyJSON req) (Some "id") 0%nat 0 new_world).1 = None.
Proof.
  cbn zeta; pose proof (connect_registers_first ex_cfg ex_hooks
    (connect_request ex_connector true false) "id" 0%nat 0 new_world ex_onConnect ∅ _ false
    eq_refl eq_refl eq_refl eq_refl) as H.
  destruct (ConnectHandler _ _ _ _ _ _ _) as [w2 a]; destruct H as (H1 & _ & _ & _ & H2).
  split; [exact H1|apply H2; reflexivity].
Defined.

Definition ex_slow_cfg : ServerConfig :=
  mk_ServerConfig (60 * Second) 0 0 0 0 0 0 PollModeBatch 0 0 false false 0 0 0.

Lemma check_misses_default_session_timeout_witness :
  check ex_slow_cfg = None
  /\ check (withDefaults ex_slow_cfg) = Some PanicSessionTimeout
  /\ connect_check ex_connector (connect_response (withDefaults ex_slow_cfg)
       (connect_request ex_connector true false)
       (connect_session (withDefaults ex_slow_cfg) (connect_request ex_connector true false) "id" ∅ 0))
     = Refused errConfig.
Proof.
  destruct (check_misses_default_session_timeout ex_slow_cfg ex_connector true false "id" ∅ 0)
    as (H1 & H2 & H3); [apply list_elem_of_further, list_elem_of_here|discriminate|..].
  1-3: vm_compute; split || idtac; congruence.
  split; [exact H1|split; [exact H2|apply H3; vm_compute; split || idtac; congruence]].
Defined.
