(* ===== verification/Reconnect.v ===== *)
(** * Reconnect.v: reconnecting and the end of a connection

    Models src/reconnect.go (ReconnectLoop.Run and sleepOrDone), src/accept.go
    (AcceptLoop and classifyClose), src/session_guard.go and the failure
    reporting of httpConn in src/client.go.  What the outside world does in one
    turn of the loop (whether ctx is done, what Connect and Serve return, how
    long Serve ran, whether a sleep ran to its end) is a [round]; a run is
    driven by a sequence of them. *)

From S2P Require Import Prelude Pipe Protocol Connect.

Inductive Outcome : Type :=
| OutcomeTransportFailed
| OutcomePeerClosed
| OutcomeSuperseded
| OutcomeShutdown.

#[export] Instance Outcome_eq_dec : EqDecision Outcome.
Proof. solve_decision. Defined.

Definition Outcome_String (o : Outcome) : string :=
  match o with
  | OutcomeTransportFailed => "transport_failed"
  | OutcomePeerClosed => "peer_closed"
  | OutcomeSuperseded => "superseded"
  | OutcomeShutdown => "shutdown"
  end.

(** ** ReconnectLoop *)

Record ReconnectLoop := mk_ReconnectLoop {
  rl_InitialBackoff : Z;
  rl_MaxBackoff : Z;
  rl_PeerClosedPause : Z;
  rl_MinStableDuration : Z;
}.

Record round := mk_round {
  rd_ctx : option goerr;          (* ctx.Err() at the top of the loop *)
  rd_connect : option goerr;      (* Connect's error *)
  rd_ctx_after : option goerr;    (* ctx.Err() after a failed Connect, or at a return *)
  rd_outcome : Outcome;           (* what Serve returned *)
  rd_servedFor : Z;
  rd_slept : bool;                (* sleepOrDone: the sleep was not cut short *)
}.

(** [sleepOrDone]: with no time to wait only the context counts. *)
Definition sleepOrDone (ctxErr : option goerr) (d : Z) (slept : bool) : bool :=
  if d <=? 0 then match ctxErr with None => true | Some _ => false end else slept.

(** Why Run returned, or [Running] with the backoff of the next turn. *)
Inductive run_state : Type :=
| Running (backoff : Z)
| Returned (err : option goerr).

(** The settings of Run with their defaults. *)
Definition run_initial (l : ReconnectLoop) : Z := orDuration (rl_InitialBackoff l) DefaultInitialBackoff.
Definition run_max (l : ReconnectLoop) : Z := orDuration (rl_MaxBackoff l) DefaultMaxBackoff.
Definition run_pause (l : ReconnectLoop) : Z := orDuration (rl_PeerClosedPause l) DefaultPeerClosedPause.
Definition run_minStable (l : ReconnectLoop) : Z :=
  let m := if rl_MinStableDuration l =? 0 then DefaultMinStableDuration else rl_MinStableDuration l in
  if m <? 0 then 0 else m.

(** One turn of the loop: how long it slept, if it did, and where it is. *)
Definition run_turn (l : ReconnectLoop) (backoff : Z) (r : round) : option Z * run_state :=
  match rd_ctx r with
  | Some e => (None, Returned (Some e))
  | None =>
      match rd_connect r with
      | Some e =>
          if bool_decide (e = ErrProtocolVersion) then (None, Returned (Some e))
          else match rd_ctx_after r with
               | Some ce => (None, Returned (Some ce))
               | None =>
                   if sleepOrDone (rd_ctx_after r) backoff (rd_slept r)
                   then (Some backoff, Running (Z.min (i64 (backoff * 2)) (run_max l)))
                   else (Some backoff, Returned (Some ErrCtx))
               end
      | None =>
          match rd_outcome r with
          | OutcomeShutdown => (None, Returned (rd_ctx_after r))
          | OutcomeSuperseded => (None, Returned None)
          | OutcomePeerClosed =>
              if sleepOrDone (rd_ctx_after r) (run_pause l) (rd_slept r)
              then (Some (run_pause l), Running backoff)
              else (Some (run_pause l), Returned (Some ErrCtx))
          | OutcomeTransportFailed =>
              let backoff := if (0 <? run_minStable l) && (run_minStable l <=? rd_servedFor r)
                             then run_initial l else backoff in
              if sleepOrDone (rd_ctx_after r) backoff (rd_slept r)
              then (Some backoff, Running (Z.min (i64 (backoff * 2)) (run_max l)))
              else (Some backoff, Returned (Some ErrCtx))
          end
      end
  end.

Fixpoint run_loop (l : ReconnectLoop) (backoff : Z) (rounds : list round) : list Z * run_state :=
  match rounds with
  | [] => ([], Running backoff)
  | r :: rounds =>
      let '(slept, st) := run_turn l backoff r in
      let now := match slept with Some d => [d] | None => [] end in
      match st with
      | Running backoff => let '(ds, st) := run_loop l backoff rounds in (now ++ ds, st)
      | Returned e => (now, Returned e)
      end
  end.

Definition Run (l : ReconnectLoop) (rounds : list round) : list Z * run_state :=
  run_loop l (run_initial l) rounds.

(** ** AcceptLoop *)

(** What the select of AcceptLoop picks. *)
Inductive accept_event : Type :=
| EvCtxDone
| EvTransportFailed
| EvSuperseded
| EvMuxClosed          (* sess.CloseChan() *)
| EvAcceptErr
| EvAccepted (stream : nat).

(** [failed] is whether TransportFailed is closed at that moment. *)
Definition classifyClose (failed : bool) : Outcome :=
  if failed then OutcomeTransportFailed else OutcomePeerClosed.

(** The streams handed to [handle] and the outcome; [None] while it runs. *)
Fixpoint AcceptLoop (events : list (accept_event * bool)) : list nat * option Outcome :=
  match events with
  | [] => ([], None)
  | (ev, failed) :: events =>
      match ev with
      | EvCtxDone => ([], Some OutcomeShutdown)
      | EvTransportFailed => ([], Some OutcomeTransportFailed)
      | EvSuperseded => ([], Some OutcomeSuperseded)
      | EvMuxClosed | EvAcceptErr => ([], Some (classifyClose failed))
      | EvAccepted stream =>
          let '(handled, o) := AcceptLoop events in (stream :: handled, o)
      end
  end.

(** ** The failure signals of a connection *)

(** A Conn's session guard and failure channel, and the Connector's notion of
    its active session. *)
Record conn_state := mk_conn {
  cn_sessionID : string;
  cn_failed : bool;        (* transportFailed is closed *)
  cn_superseded : bool;    (* sessionSuperseded is closed *)
  cn_cancelled : bool;     (* ctx *)
  cn_readPipe : pipe;
  cn_writePipe : option pipe;
}.

Definition new_conn (id : string) (upload : bool) : conn_state :=
  mk_conn id false false false NewBufferedPipe (if upload then Some NewBufferedPipe else None).

(** [fail]: once. *)
Definition fail (c : conn_state) : conn_state :=
  if cn_failed c then c
  else mk_conn (cn_sessionID c) true (cn_superseded c) (cn_cancelled c)
         (pipe_Close (cn_readPipe c)) (cn_writePipe c).

(** [supersede]: once. *)
Definition supersede (c : conn_state) : conn_state :=
  if cn_superseded c then c
  else mk_conn (cn_sessionID c) (cn_failed c) true true (cn_readPipe c) (cn_writePipe c).

(** [supersededByNewerConnect], given the Connector's active session. *)
Definition supersededByNewerConnect (active : string) (c : conn_state) : conn_state * bool :=
  if negb (bool_decide (active = cn_sessionID c)) then (supersede c, true) else (c, false).

Definition close_conn_pipes (c : conn_state) : conn_state :=
  mk_conn (cn_sessionID c) (cn_failed c) (cn_superseded c) (cn_cancelled c)
    (pipe_Close (cn_readPipe c)) (option_map pipe_Close (cn_writePipe c)).

Definition isSessionClosedErr (e : goerr) : bool :=
  match e with
  | errSessionGone => true
  | fatalPollError status => (status =? StatusGone) || (status =? StatusNotFound)
  | _ => false
  end.

Definition onSessionClosed (active : string) (c : conn_state) : conn_state :=
  match supersededByNewerConnect active c with
  | (c, true) => close_conn_pipes c
  | (c, false) => fail c
  end.

Definition onTransportProblem (active : string) (e : goerr) (c : conn_state) : conn_state :=
  if isSessionClosedErr e then onSessionClosed active c
  else match supersededByNewerConnect active c with
       | (c, true) => close_conn_pipes c
       | (c, false) => fail c
       end.

(** A sequence of problems, each met with the Connector's active session of
    that moment. *)
Fixpoint problems (evs : list (string * goerr)) (c : conn_state) : conn_state :=
  match evs with
  | [] => c
  | (active, e) :: evs => problems evs (onTransportProblem active e c)
  end.

(** ** Lemmas on the backoff *)

Section Backoff.
Context (l : ReconnectLoop).
Context (Hmax : run_max l < 2 ^ 62) (Hinit : run_initial l < 2 ^ 62).

Lemma orDuration_pos v d : 0 < d -> 0 < orDuration v d.
Proof. unfold orDuration; destruct (Z.leb_spec v 0); lia. Qed.

Lemma run_initial_pos : 0 < run_initial l.
Proof. apply orDuration_pos; reflexivity. Qed.
Lemma run_max_pos : 0 < run_max l.
Proof. apply orDuration_pos; reflexivity. Qed.
Lemma run_pause_pos : 0 < run_pause l.
Proof. apply orDuration_pos; reflexivity. Qed.

(** The bound on every sleep of a run. *)
Definition sleep_bound : Z := Z.max (run_pause l) (Z.max (run_initial l) (run_max l)).
Definition backoff_ok (b : Z) : Prop := 0 < b <= Z.max (run_initial l) (run_max l).

Lemma backoff_doubles b : backoff_ok b -> backoff_ok (Z.min (i64 (b * 2)) (run_max l)).
Proof.
  unfold backoff_ok; intros H; pose proof run_max_pos; pose proof run_initial_pos.
  rewrite i64_id by (unfold is_i64; lia); lia.
Qed.

Lemma run_turn_sleeps b r :
  backoff_ok b ->
  (forall d, (run_turn l b r).1 = Some d -> 0 < d <= sleep_bound)
  /\ (forall b', (run_turn l b r).2 = Running b' -> backoff_ok b').
Proof.
  intros Hb; pose proof run_pause_pos; pose proof run_initial_pos; pose proof run_max_pos.
  pose proof (backoff_doubles b Hb) as Hd.
  assert (Hi : backoff_ok (run_initial l)) by (unfold backoff_ok; lia).
  pose proof (backoff_doubles _ Hi) as Hd'.
  unfold backoff_ok in Hb, Hi; unfold run_turn, sleep_bound.
  destruct (rd_ctx r); [split; intros; discriminate|].
  destruct (rd_connect r).
  - case_if; [split; intros; discriminate|].
    destruct (rd_ctx_after r); [split; intros; discriminate|].
    case_if; cbn [fst snd]; split; intros; simplify_eq; auto; lia.
  - destruct (rd_outcome r); cbn [fst snd]; repeat case_if; cbn [fst snd];
      split; intros; simplify_eq; auto; lia.
Qed.

Lemma run_loop_sleeps rounds :
  forall b, backoff_ok b -> Forall (fun d => 0 < d <= sleep_bound) (run_loop l b rounds).1.
Proof.
  induction rounds as [|r rounds IH]; intros b Hb; cbn [run_loop]; [constructor|].
  destruct (run_turn_sleeps b r Hb) as [H1 H2].
  destruct (run_turn l b r) as [slept st]; cbn [fst snd] in *.
  assert (Hnow : Forall (fun d => 0 < d <= sleep_bound)
                   (match slept with Some d => [d] | None => [] end))
    by (destruct slept; repeat constructor; apply H1; reflexivity).
  destruct st as [b'|e]; [|exact Hnow].
  specialize (IH b' (H2 b' eq_refl)); destruct (run_loop l b' rounds); cbn [fst] in *.
  apply Forall_app; auto.
Qed.
End Backoff.

(** A turn in which Connect fails for a reason worth retrying. *)
Definition failed_round (e : goerr) : round :=
  mk_round None (Some e) None OutcomeTransportFailed 0 true.

(** Why a turn may end the loop. *)
Definition ends_run (r : round) (err : option goerr) : Prop :=
  (exists e, rd_ctx r = Some e /\ err = Some e)
  \/ (rd_connect r = Some ErrProtocolVersion /\ err = Some ErrProtocolVersion)
  \/ (exists e, rd_connect r <> None /\ rd_ctx_after r = Some e /\ err = Some e)
  \/ (rd_connect r = None /\ rd_outcome r = OutcomeShutdown /\ err = rd_ctx_after r)
  \/ (rd_connect r = None /\ rd_outcome r = OutcomeSuperseded /\ err = None)
  \/ (rd_slept r = false /\ err = Some ErrCtx).

Lemma run_turn_ends l b r err :
  0 < b -> (run_turn l b r).2 = Returned err -> ends_run r err.
Proof.
  intros Hb; unfold run_turn, ends_run.
  assert (Hs : forall c d s, 0 < d -> sleepOrDone c d s = s)
    by (intros; unfold sleepOrDone; rewrite (proj2 (Z.leb_gt _ _)) by assumption; reflexivity).
  pose proof (run_pause_pos l); pose proof (run_initial_pos l).
  destruct (rd_ctx r) as [e|]; [intros E; injection E as <-; eauto|].
  destruct (rd_connect r) as [e|].
  - case_bool_decide; [subst; intros E; injection E as <-; auto|].
    destruct (rd_ctx_after r) as [ce|]; [intros E; injection E as <-; right; right; left; eauto|].
    rewrite Hs by exact Hb; destruct (rd_slept r); cbn; intros E; [discriminate|].
    injection E as <-; tauto.
  - destruct (rd_outcome r).
    + rewrite Hs by (case_if; lia); destruct (rd_slept r); cbn; intros E; [discriminate|].
      injection E as <-; tauto.
    + rewrite Hs by lia; destruct (rd_slept r); cbn; intros E; [discriminate|].
      injection E as <-; tauto.
    + intros E; injection E as <-; tauto.
    + intros E; injection E as <-; tauto.
Qed.

(** ** Properties *)

(** The backoff never runs away: every sleep of a run is positive and at
    most the largest of the pause, the initial and the maximal backoff,
    whatever Connect and Serve do. *)
Theorem run_sleeps_are_bounded l rounds :
  run_max l < 2 ^ 62 -> run_initial l < 2 ^ 62 ->
  Forall (fun d => 0 < d <= sleep_bound l) (Run l rounds).1.
Proof.
  intros Hm Hi; apply run_loop_sleeps; auto.
  unfold backoff_ok; pose proof (run_initial_pos l); lia.
Qed.

(** Repeated connect failures back off exponentially up to the maximum:
    the sleeps are initial, 2 initial, 4 initial, ... capped, and the loop is
    still running afterwards. *)
Theorem connect_failures_back_off l e k :
  run_max l < 2 ^ 62 -> run_initial l <= run_max l -> e <> ErrProtocolVersion ->
  Run l (repeat (failed_round e) k)
  = (map (fun i => Z.min (run_initial l * 2 ^ Z.of_nat i) (run_max l)) (seq 0 k),
     Running (Z.min (run_initial l * 2 ^ Z.of_nat k) (run_max l))).
Proof.
  intros Hm Hi He; unfold Run; pose proof (run_initial_pos l) as Hp.
  assert (Hgen : forall k j, run_loop l (Z.min (run_initial l * 2 ^ Z.of_nat j) (run_max l))
                     (repeat (failed_round e) k)
    = (map (fun i => Z.min (run_initial l * 2 ^ Z.of_nat i) (run_max l)) (seq j k),
       Running (Z.min (run_initial l * 2 ^ Z.of_nat (j + k)) (run_max l)))).
  { clear k; induction k as [|k IH]; intros j; cbn [repeat run_loop seq map].
    { rewrite Nat.add_0_r; reflexivity. }
    set (b := Z.min (run_initial l * 2 ^ Z.of_nat j) (run_max l)).
    assert (Hpow : 0 < 2 ^ Z.of_nat j) by (apply Z.pow_pos_nonneg; lia).
    assert (Hb : 0 < b) by (unfold b; nia).
    unfold run_turn; cbn; rewrite (bool_decide_false _ He).
    unfold sleepOrDone; rewrite (proj2 (Z.leb_gt _ _) Hb).
    rewrite i64_id by (unfold is_i64, b in *; lia).
    replace (Z.min (b * 2) (run_max l))
      with (Z.min (run_initial l * 2 ^ Z.of_nat (S j)) (run_max l))
      by (unfold b; rewrite Nat2Z.inj_succ, Z.pow_succ_r by lia; lia).
    rewrite IH; replace (j + S k)%nat with (S j + k)%nat by lia; reflexivity. }
  specialize (Hgen k 0%nat); cbn [Z.of_nat Z.pow Nat.add] in Hgen.
  rewrite Z.mul_1_r, Z.min_l in Hgen by lia; exact Hgen.
Qed.

(** The loop gives up only when retrying cannot help: if Run returns, the
    last turn it took saw its context end, a protocol-version rejection, a
    shutdown or a superseded session; no other connect error and no transport
    failure ever ends it. *)
Theorem run_returns_only_for_good l rounds ds err :
  run_max l < 2 ^ 62 -> run_initial l < 2 ^ 62 ->
  Run l rounds = (ds, Returned err) -> exists r, In r rounds /\ ends_run r err.
Proof.
  intros Hm Hi; unfold Run.
  assert (Hb : backoff_ok l (run_initial l)) by (unfold backoff_ok; pose proof (run_initial_pos l); lia).
  assert (Hgen : forall rounds ds b, backoff_ok l b -> run_loop l b rounds = (ds, Returned err) ->
                 exists r, In r rounds /\ ends_run r err); [|eauto].
  clear rounds ds Hb; induction rounds as [|r rounds IH]; intros ds b Hb; cbn [run_loop]; [discriminate|].
  destruct (run_turn_sleeps l Hm Hi b r Hb) as [_ H2].
  pose proof (run_turn_ends l b r) as He.
  destruct (run_turn l b r) as [slept [b'|e]]; cbn [snd] in *.
  - specialize (H2 b' eq_refl); destruct (run_loop l b' rounds) as [ds' st] eqn:E.
    intros Hr; injection Hr as <- ->; destruct (IH ds' b' H2 E) as (r' & Hin & Hr'); eauto using in_cons.
  - intros Hr; injection Hr as <- <-; exists r; split; [left; reflexivity|].
    apply He; [unfold backoff_ok in Hb; lia|reflexivity].
Qed.

(** An obsolete session is not a broken link: problems that a connection
    meets after a newer connect took over never raise TransportFailed; each
    problem raises exactly the signal its moment calls for, and any problem
    unblocks the reader. *)
Theorem superseded_is_not_failure id upload evs :
  let c := problems evs (new_conn id upload) in
  cn_failed c = existsb (fun ev => bool_decide (ev.1 = id)) evs
  /\ cn_superseded c = existsb (fun ev => negb (bool_decide (ev.1 = id))) evs
  /\ cn_cancelled c = cn_superseded c
  /\ p_closed (cn_readPipe c) = negb (bool_decide (evs = [])).
Proof.
  cbn zeta.
  assert (Hgen : forall c, cn_sessionID c = id -> cn_cancelled c = cn_superseded c ->
    (cn_failed c = true -> p_closed (cn_readPipe c) = true) ->
    let c' := problems evs c in
    cn_failed c' = cn_failed c || existsb (fun ev => bool_decide (ev.1 = id)) evs
    /\ cn_superseded c' = cn_superseded c || existsb (fun ev => negb (bool_decide (ev.1 = id))) evs
    /\ cn_cancelled c' = cn_superseded c'
    /\ p_closed (cn_readPipe c') = p_closed (cn_readPipe c) || negb (bool_decide (evs = []))).
  { induction evs as [|[active e] evs IH]; intros c Hid Hc Hp; cbn [problems existsb fst].
    { rewrite !orb_false_r; auto. }
    assert (Hstep : onTransportProblem active e c
      = if bool_decide (active = id) then fail c else close_conn_pipes (supersede c)).
    { unfold onTransportProblem, onSessionClosed, supersededByNewerConnect; rewrite Hid.
      destruct (isSessionClosedErr e), (bool_decide (active = id)); reflexivity. }
    rewrite Hstep; destruct (bool_decide (active = id)); cbn [negb orb].
    - destruct (IH (fail c)) as (-> & -> & -> & ->); unfold fail; destruct (cn_failed c) eqn:Hf; auto.
      + rewrite (Hp eq_refl), ?Hf; cbn; auto.
      + cbn; rewrite ?Hf, ?orb_true_r; auto.
    - destruct (IH (close_conn_pipes (supersede c))) as (-> & -> & -> & ->);
        unfold supersede; destruct (cn_superseded c) eqn:Hs; auto;
        cbn; rewrite ?Hs, ?orb_true_r; auto. }
  destruct (Hgen (new_conn id upload)) as (-> & -> & -> & ->); auto; cbn; discriminate.
Qed.

(** ** Witnesses *)

Definition ex_loop : ReconnectLoop := mk_ReconnectLoop 0 0 0 0.

Lemma run_sleeps_are_bounded_witness :
  Forall (fun d => 0 < d <= sleep_bound ex_loop) (Run ex_loop [failed_round (ErrNet true)]).1.
Proof. apply (run_sleeps_are_bounded ex_loop [failed_round (ErrNet true)]); reflexivity. Defined.

Lemma connect_failures_back_off_witness :
  Run ex_loop (repeat (failed_round (ErrNet true)) 10)
  = ([1 * Second; 2 * Second; 4 * Second; 8 * Second; 16 * Second; 32 * Second; 64 * Second;
      128 * Second; 180 * Second; 180 * Second], Running (180 * Second)).
Proof.
  rewrite (connect_failures_back_off ex_loop (ErrNet true) 10); [reflexivity|reflexivity| |];
    vm_compute; discriminate.
Defined.

Lemma run_returns_only_for_good_witness :
  exists r, In r [failed_round ErrProtocolVersion] /\ ends_run r (Some ErrProtocolVersion).
Proof.
  apply (run_returns_only_for_good ex_loop [failed_round ErrProtocolVersion] []); reflexivity.
Defined.
