(* ===== verification/Resume.v ===== *)
(** * Resume.v: the resume handshake and the client's supervisor

    Models resume_session (src/resume_server.go) on a session, and doResume,
    resume, the stability guard and supervise of src/resumable_client.go on the
    client's byte layer.  The handler waits in kickAll while other goroutines
    still use the session, so it is two lock-step halves, [resume_enter] and
    [resume_exit], with an arbitrary change of the session in between. *)

From S2P Require Import Prelude Pipe Protocol Reliable Attach Session Connect Reconnect.

(** ** ResumeHandler *)

Definition decode_body {A} (zero : A) (b : body A) : option A :=
  match b with BodyMalformed => None | BodyEmpty => Some zero | BodyJSON a => Some a end.

Definition on_att (f : attachments -> attachments) (s : session) : session :=
  set_att (option_map f (s_att s)) s.

(** Up to kickAll: an early answer, or the request's offset to go on with. *)
Definition resume_enter (b : body ResumeRequest) (now : Z) (s : session)
    : session * (answer ResumeResponse + Z) :=
  match decode_body zero_ResumeRequest b with
  | None => (s, inl (AnswerError StatusBadRequest))
  | Some req =>
      if negb (rreq_ProtocolVersion req =? ProtocolVersion)
      then (s, inl (AnswerError StatusUpgradeRequired))
      else match s_rs s, s_att s with
      | Some rs, Some att =>
          match beginPoll now s with
          | (s, false) => (s, inl (AnswerError StatusGone))
          | (s, true) =>
              let s := touch now s in
              if isBroken rs then (endPoll now s, inl (AnswerError StatusConflict))
              else match beginResume att with
                   | (_, false) => (endPoll now s, inl (AnswerError StatusServiceUnavailable))
                   | (att, true) => (set_att (Some att) s, inr (rreq_RecvOffset req))
                   end
          end
      | _, _ => (s, inl (AnswerError StatusConflict))
      end
  end.

(** After kickAll; [left] is whether every owner let go in time.  [None] is a
    run-time panic. *)
Definition resume_exit (recv : Z) (left : bool) (now : Z) (s : session)
    : option (session * answer ResumeResponse) :=
  let leave s := endPoll now (on_att endResume s) in
  if negb left then Some (leave s, AnswerError StatusServiceUnavailable)
  else match s_rs s with
  | None => None
  | Some rs =>
      match resumeOut rs recv with
      | None => None
      | Some (rs, false) =>
          Some (leave (set_rs (Some (markBroken rs)) s), AnswerError StatusConflict)
      | Some (rs, true) =>
          let s := set_rs (Some rs) s in
          Some (leave s, Answer (mk_ResumeResponse true (recvOffsetNow rs)))
      end
  end.

(** What the handler does with the session it found; [during] is what the
    transports that are kicked off do to it before they leave. *)
Definition resume_session (b : body ResumeRequest) (now now' : Z) (during : session -> session)
    (left : bool) (s : session) : option (session * answer ResumeResponse) :=
  match resume_enter b now s with
  | (s, inl a) => Some (s, a)
  | (s, inr recv) => resume_exit recv left now' (during s)
  end.

Definition put_session (l : loc) (s : session) (w : world) : world :=
  set_heap (<[l := s]> (w_heap w)) w.

(** [ResumeHandler]; a store entry without a session is a nil dereference. *)
Definition ResumeHandler (id : string) (b : body ResumeRequest) (now now' : Z)
    (during : session -> session) (left : bool) (w : world) : option (world * answer ResumeResponse) :=
  match store_Get id w with
  | None => Some (w, AnswerError StatusNotFound)
  | Some l =>
      match w_heap w !! l with
      | None => None
      | Some s =>
          match resume_session b now now' during left s with
          | None => None
          | Some (s, a) => Some (put_session l s w, a)
          end
      end
  end.

(** ** The client's handshake *)

Inductive resume_reply : Type :=
| RReplyNone
| RReplyStatus (status : Z)
| RReplyGarbled
| RReplyOK (rr : ResumeResponse).

Definition resume_request (r : reliable) : ResumeRequest :=
  mk_ResumeRequest ProtocolVersion (recvOffsetNow r).

Definition doResume (rep : resume_reply) : res Z :=
  match rep with
  | RReplyNone => Fail (ErrNet false)
  | RReplyStatus status => Fail (fatalPollError status)
  | RReplyGarbled => Fail errBadResponse
  | RReplyOK rr =>
      if negb (rres_Resumed rr) then Fail (fatalPollError StatusConflict)
      else Ok (rres_RecvOffset rr)
  end.

(** What the outside world does in one attempt. *)
Record attempt := mk_attempt {
  ra_reply : resume_reply;
  ra_dialed : bool;        (* dialWS succeeded *)
  ra_now : Z;              (* the clock after the attempt *)
  ra_slept : bool;         (* the wait was not cut short by ctx *)
}.

Inductive resumed : Type :=
| ResumeOK (r : reliable)
| ResumeErr (r : reliable) (e : goerr)
| ResumeTrying (r : reliable) (backoff : Z)
| ResumePanic.

(** [resume], one attempt after the other; [waits] collects the backoffs it
    jitters. *)
Fixpoint resume_loop (ws : bool) (deadline backoff : Z) (r : reliable) (attempts : list attempt)
    : list Z * resumed :=
  match attempts with
  | [] => ([], ResumeTrying r backoff)
  | a :: attempts =>
      let retry (r : reliable) (lastErr : goerr) :=
        if deadline <? ra_now a then ([], ResumeErr r lastErr)
        else if negb (ra_slept a) then ([backoff], ResumeErr r ErrCtx)
        else let '(ws', st) := resume_loop ws deadline (Z.min (i64 (backoff * 2)) (2 * Second)) r attempts in
             (backoff :: ws', st) in
      match doResume (ra_reply a) with
      | Ok serverRecv =>
          match resumeOut r serverRecv with
          | None => ([], ResumePanic)
          | Some (r, false) => ([], ResumeErr r errResumeRange)
          | Some (r, true) =>
              if negb ws then ([], ResumeOK r)
              else if ra_dialed a then ([], ResumeOK r)
              else retry r (ErrNet false)
          end
      | Fail (fatalPollError status) =>
          if status <? StatusInternalServerError then ([], ResumeErr r (fatalPollError status))
          else retry r (fatalPollError status)
      | Fail e => retry r e
      end
  end.

Definition resume (ws : bool) (grace start : Z) (r : reliable) (attempts : list attempt)
    : list Z * resumed :=
  resume_loop ws (start + grace) (250 * Millisecond) r attempts.

(** ** The stability guard *)

Definition resumableLegsMinStable : Z := 2 * Second.
Definition maxConsecutiveFastResumes : Z := 5.
Definition maxConsecutiveBatchBodyTimeouts : Z := 3.

Record resumeStabilityGuard := mk_guard {
  g_fast : Z;
  g_bodyTimeouts : Z;
}.

Definition recordBodyTimeout (g : resumeStabilityGuard) (bodyTimedOut received : bool)
    : resumeStabilityGuard * bool :=
  if negb bodyTimedOut || received then (mk_guard (g_fast g) 0, false)
  else let n := g_bodyTimeouts g + 1 in
       (mk_guard (g_fast g) n, maxConsecutiveBatchBodyTimeouts <=? n).

Definition guard_record (g : resumeStabilityGuard) (legsDuration : Z) (progressed : bool)
    : resumeStabilityGuard * bool :=
  if (resumableLegsMinStable <=? legsDuration) || progressed then (mk_guard 0 (g_bodyTimeouts g), false)
  else let n := g_fast g + 1 in
       (mk_guard n (g_bodyTimeouts g), maxConsecutiveFastResumes <=? n).

(** ** supervise *)

(** What one set of legs and the resume after it did. *)
Record leg_round := mk_leg_round {
  lr_err : goerr;              (* runLegs' result *)
  lr_after : reliable;         (* the byte layer when the legs are gone *)
  lr_duration : Z;
  lr_done : bool;              (* ctx done or Close called, after the legs *)
  lr_resume : reliable + goerr;  (* how resume ended *)
  lr_done' : bool;             (* ctx done or Close called, after resume *)
}.

Inductive supervisor : Type :=
| Serving (g : resumeStabilityGuard) (r : reliable)
| Stopped                     (* closed by the application *)
| SessionEnded                (* onSessionClosed *)
| GaveUp.                     (* fail *)

Definition supervise_turn (g : resumeStabilityGuard) (before : reliable) (lr : leg_round) : supervisor :=
  let after := lr_after lr in
  if lr_done lr then Stopped
  else if isSessionClosedErr (lr_err lr) then SessionEnded
  else if bool_decide (lr_err lr = errReplayGap) || bool_decide (lr_err lr = errBadAck) || isBroken after
  then GaveUp
  else
    let '(g, abandon) := recordBodyTimeout g (bool_decide (lr_err lr = errBatchBodyTimeout))
                           (negb (recvOffsetNow after =? (progress before).2)) in
    if abandon then GaveUp
    else match lr_resume lr with
    | inl r =>
        let '(g, abandon) := guard_record g (lr_duration lr) (negb (bool_decide (progress r = progress before))) in
        if abandon then GaveUp else Serving g r
    | inr e =>
        if lr_done' lr then Stopped
        else if isSessionClosedErr e then SessionEnded else GaveUp
    end.

Fixpoint supervise (g : resumeStabilityGuard) (r : reliable) (rounds : list leg_round) : supervisor :=
  match rounds with
  | [] => Serving g r
  | lr :: rounds =>
      match supervise_turn g r lr with
      | Serving g r => supervise g r rounds
      | st => st
      end
  end.

(** ** Lemmas *)

(** Repeating an accepted handshake changes nothing. *)
Lemma resumeOut_idempotent sent got r n r' :
  rel_inv sent got r -> 0 <= n -> resumeOut r n = Some (r', true) -> resumeOut r' n = Some (r', true).
Proof.
  intros Hr Hn E; destruct (resumeOut_spec _ _ r n Hr Hn) as (r1 & ok & E1 & Hr1 & _ & Hok & _ & Ht).
  rewrite E in E1; injection E1 as <- <-; specialize (Ht eq_refl).
  symmetry in Hok; rewrite !andb_true_iff, negb_true_iff, !Z.leb_le in Hok; destruct Hok as [[Hb Ha] Hs].
  destruct (resumeOut_spec _ _ r' n Hr1 Hn) as (r2 & ok2 & E2 & _ & _ & Hok2 & _ & Ht2).
  assert (ok2 = true) as ->.
  { rewrite Hok2, Ht; cbn; rewrite Hb, Z.leb_refl; cbn; apply Z.leb_le; exact Hs. }
  rewrite E2, (Ht2 eq_refl), Ht; reflexivity.
Qed.

(** The clock of a resume: each attempt ends at least the shortest jittered
    wait after the one before. *)
Definition min_wait : Z := 200 * Millisecond.

Fixpoint clock_ok (t : Z) (attempts : list attempt) : Prop :=
  match attempts with
  | [] => True
  | a :: attempts => t <= ra_now a /\ clock_ok (ra_now a + min_wait) attempts
  end.

Definition ended (st : resumed) : Prop :=
  match st with ResumeTrying _ _ => False | _ => True end.

Lemma resume_loop_ends ws deadline attempts :
  forall backoff r t, clock_ok t attempts -> t <= deadline + min_wait ->
  deadline - t < (Z.of_nat (length attempts) - 1) * min_wait ->
  ended (resume_loop ws deadline backoff r attempts).2.
Proof.
  induction attempts as [|a attempts IH]; intros backoff r t Hc Ht Hl.
  { cbn in Hl; unfold min_wait in *; lia. }
  destruct Hc as [Hn Hc]; cbn [length] in Hl; rewrite Nat2Z.inj_succ in Hl.
  assert (Hretry : forall r e,
    ended (if deadline <? ra_now a then ([], ResumeErr r e)
           else if negb (ra_slept a) then ([backoff], ResumeErr r ErrCtx)
           else let '(ws', st) := resume_loop ws deadline (Z.min (i64 (backoff * 2)) (2 * Second)) r attempts in
                (backoff :: ws', st)).2).
  { intros r' e; destruct (Z.ltb_spec deadline (ra_now a)); [exact I|].
    destruct (ra_slept a); [|exact I]; cbn [negb].
    specialize (IH (Z.min (i64 (backoff * 2)) (2 * Second)) r' _ Hc ltac:(lia) ltac:(lia)).
    destruct (resume_loop _ _ _ _ attempts); exact IH. }
  cbn [resume_loop]; destruct (doResume (ra_reply a)) as [recv|e].
  - destruct (resumeOut r recv) as [[r' []]|]; try exact I.
    destruct ws; [|exact I]; destruct (ra_dialed a); [exact I|apply Hretry].
  - destruct e; try apply Hretry; case_if; [exact I|apply Hretry].
Qed.

(** The waits of a resume: doubling from a quarter of a second to two. *)
Lemma resume_loop_waits ws deadline attempts :
  forall backoff r, 0 < backoff <= 2 * Second ->
  Forall (fun d => backoff <= d <= 2 * Second) (resume_loop ws deadline backoff r attempts).1.
Proof.
  induction attempts as [|a attempts IH]; intros backoff r Hb; [constructor|].
  assert (Hs : 2 * Second = 2000000000) by reflexivity.
  assert (Hdouble : Z.min (i64 (backoff * 2)) (2 * Second) = Z.min (backoff * 2) (2 * Second))
    by (rewrite i64_id; [reflexivity|unfold is_i64; lia]).
  assert (Hretry : forall r e, Forall (fun d => backoff <= d <= 2 * Second)
    (if deadline <? ra_now a then ([], ResumeErr r e)
     else if negb (ra_slept a) then ([backoff], ResumeErr r ErrCtx)
     else let '(ws', st) := resume_loop ws deadline (Z.min (i64 (backoff * 2)) (2 * Second)) r attempts in
          (backoff :: ws', st)).1).
  { intros r' e; case_if; [constructor|]; case_if; [repeat constructor; lia|].
    rewrite Hdouble; specialize (IH (Z.min (backoff * 2) (2 * Second)) r' ltac:(lia)).
    destruct (resume_loop _ _ _ _ attempts) as [l st]; cbn [fst] in *; constructor; [lia|].
    eapply Forall_impl; [exact IH|]; cbn; lia. }
  cbn [resume_loop]; destruct (doResume (ra_reply a)) as [recv|e].
  - destruct (resumeOut r recv) as [[r' []]|]; try constructor.
    destruct ws; [|constructor]; destruct (ra_dialed a); [constructor|apply Hretry].
  - destruct e; try apply Hretry; case_if; [constructor|apply Hretry].
Qed.

(** A resumable session as the handler meets it. *)
Record resumable_session (sent got : list byte) (rs : reliable) (att : attachments) (s : session)
    : Prop := {
  rsn_rs : s_rs s = Some rs;
  rsn_att : s_att s = Some att;
  rsn_inv : rel_inv sent got rs;
  rsn_live : broken rs = false;
  rsn_open : s_closed s = false;
  rsn_idle : a_resuming att = false;
  rsn_polls : 0 <= s_pollInFlight s < 2 ^ 31 - 1;
}.

Lemma beginPoll_expired_or_ok now s :
  s_closed s = false -> resumeExpiredLocked now s = false ->
  beginPoll now s = (set_life (s_wsAttached s) (i32 (s_pollInFlight s + 1)) (s_lastActive s)
                       (s_closed s) (s_detachedAt s) s, true).
Proof. intros Hc He; unfold beginPoll; rewrite Hc, He; reflexivity. Qed.

Lemma endPoll_rs now s : s_rs (endPoll now s) = s_rs s /\ s_att (endPoll now s) = s_att s.
Proof.
  unfold endPoll, noteDetachedLocked; cbn; destruct (s_rs s) eqn:E; [case_if|]; cbn; auto.
Qed.

(** The handler lets such a session in and leaves its byte layer alone. *)
Lemma resume_enter_in sent got rs att s now n :
  resumable_session sent got rs att s -> resumeExpiredLocked now s = false ->
  exists s1, resume_enter (BodyJSON (mk_ResumeRequest ProtocolVersion n)) now s = (s1, inr n)
    /\ s_rs s1 = Some rs.
Proof.
  intros [Hrs Hatt Hinv Hlive Hopen Hidle _] He.
  unfold resume_enter; cbn [decode_body rreq_ProtocolVersion Z.eqb negb].
  rewrite Hrs, Hatt, beginPoll_expired_or_ok by assumption.
  change (ProtocolVersion =? ProtocolVersion) with true; cbn [negb].
  unfold isBroken, beginResume; rewrite Hlive, Hidle; cbn [rreq_RecvOffset].
  eexists; split; [reflexivity|exact Hrs].
Qed.

(** The handler on such a session, whatever the leaving transports do to it
    meanwhile: the offsets it exchanges are those of the layer [rs1] they leave
    behind. *)
Lemma resume_session_exchange s s1 now now' during n sent1 got1 rs1 : 0 <= n ->
  resume_enter (BodyJSON (mk_ResumeRequest ProtocolVersion n)) now s = (s1, inr n) ->
  s_rs (during s1) = Some rs1 -> rel_inv sent1 got1 rs1 ->
  exists s' rs' ok, resumeOut rs1 n = Some (rs', ok)
    /\ resume_session (BodyJSON (mk_ResumeRequest ProtocolVersion n)) now now' during true s
       = Some (s', if ok then Answer (mk_ResumeResponse true (recvOffsetNow rs'))
                   else AnswerError StatusConflict)
    /\ s_rs s' = Some (if ok then rs' else markBroken rs').
Proof.
  intros Hn E1 Hd Hinv.
  destruct (resumeOut_spec _ _ rs1 n Hinv Hn) as (rs' & ok & E & _).
  unfold resume_session; rewrite E1; unfold resume_exit; cbn [negb]; rewrite Hd, E.
  destruct ok; eexists _, rs', _; (split; [reflexivity|]); (split; [reflexivity|]);
    rewrite (proj1 (endPoll_rs _ _)); reflexivity.
Qed.

Lemma ResumeHandler_found id l w s b now now' during left s' a :
  store_Get id w = Some l -> w_heap w !! l = Some s ->
  resume_session b now now' during left s = Some (s', a) ->
  ResumeHandler id b now now' during left w = Some (put_session l s' w, a).
Proof. intros Hg Hl E; unfold ResumeHandler; rewrite Hg, Hl, E; reflexivity. Qed.

(** The two ends of a session between transports: each has received a prefix of
    what the other sent and holds what the other lacks. *)
Record in_step (sentS gotS sentC gotC : list byte) (rs rc : reliable) : Prop := {
  is_server : rel_inv sentS gotS rs;
  is_client : rel_inv sentC gotC rc;
  is_down : gotC `prefix_of` sentS;
  is_up : gotS `prefix_of` sentC;
  is_down_acked : broken rs = false -> ackedOffset rs <= len gotC;
  is_up_acked : broken rc = false -> ackedOffset rc <= len gotS;
}.

Lemma in_step_resumeOut sent got peer r :
  rel_inv sent got r -> peer `prefix_of` sent -> broken r = false -> ackedOffset r <= len peer ->
  resumeOut r (len peer) = Some (set_send (len sent) (len peer) (len peer)
                                   (drop (Z.to_nat (len peer)) sent) r, true).
Proof.
  intros Hr Hp Hb Ha.
  destruct (resumeOut_spec _ _ r (len peer) Hr (len_nonneg _)) as (r' & ok & E & _ & _ & Hok & _ & Ht).
  assert (ok = true) as ->.
  { apply prefix_length in Hp; rewrite Hok, Hb, (proj2 (Z.leb_le _ _) Ha); cbn.
    apply Z.leb_le; unfold len; lia. }
  rewrite E, (Ht eq_refl), (ri_send _ _ _ Hr); reflexivity.
Qed.

(** A round in which nothing useful happened. *)
Definition idle_round (P : Z * Z) (lr : leg_round) : Prop :=
  lr_duration lr < resumableLegsMinStable /\
  match lr_resume lr with inl r => progress r = P | inr _ => True end.

Lemma supervise_idle P rounds :
  forall g r, progress r = P -> 0 <= g_fast g <= maxConsecutiveFastResumes ->
  Forall (idle_round P) rounds ->
  maxConsecutiveFastResumes - g_fast g <= len rounds -> rounds <> [] ->
  match supervise g r rounds with Serving _ _ => False | _ => True end.
Proof.
  induction rounds as [|lr rounds IH]; intros g r Hp Hg Hall Hl Hne; [done|].
  inversion Hall as [|? ? [Hd Hr] Hrest]; subst; rewrite len_cons in Hl.
  cbn [supervise]; unfold supervise_turn.
  destruct (lr_done lr); [exact I|]; destruct (isSessionClosedErr (lr_err lr)); [exact I|].
  destruct (_ || _); [exact I|].
  destruct (recordBodyTimeout g _ _) as [g1 ab] eqn:Hb.
  assert (Hg1 : g_fast g1 = g_fast g).
  { unfold recordBodyTimeout in Hb; case_if_in Hb; injection Hb as <- _; reflexivity. }
  destruct ab; [exact I|]; destruct (lr_resume lr) as [r'|e].
  2: { destruct (lr_done' lr); [exact I|]; destruct (isSessionClosedErr e); exact I. }
  unfold guard_record; rewrite Hr, bool_decide_true by reflexivity.
  rewrite (proj2 (Z.leb_gt _ _)) by exact Hd; cbn [negb orb].
  destruct (Z.leb_spec maxConsecutiveFastResumes (g_fast g1 + 1)); [exact I|].
  apply IH; auto; cbn [g_fast]; try lia.
  intros ->; rewrite len_nil in Hl; lia.
Qed.

(** A round in which bytes arrived. *)
Definition useful_round (before : reliable) (lr : leg_round) (r : reliable) : Prop :=
  lr_done lr = false /\ isSessionClosedErr (lr_err lr) = false
  /\ lr_err lr <> errReplayGap /\ lr_err lr <> errBadAck /\ isBroken (lr_after lr) = false
  /\ recvOffsetNow (lr_after lr) <> recvOffsetNow before
  /\ lr_resume lr = inl r /\ recvOffsetNow r = recvOffsetNow (lr_after lr).

Fixpoint useful_rounds (r : reliable) (rounds : list leg_round) : Prop :=
  match rounds with
  | [] => True
  | lr :: rounds => exists r', useful_round r lr r' /\ useful_rounds r' rounds
  end.

Lemma supervise_useful rounds :
  forall g r, useful_rounds r rounds -> exists g' r', supervise g r rounds = Serving g' r'.
Proof.
  induction rounds as [|lr rounds IH]; intros g r H; cbn [supervise]; [eauto|].
  destruct H as (r' & (H1 & H2 & H3 & H4 & H5 & H6 & H7 & H8) & Hrest).
  unfold supervise_turn; rewrite H1, H2, H5, !bool_decide_false by assumption; cbn [orb].
  unfold recordBodyTimeout, progress at 1; cbn [snd].
  unfold recvOffsetNow in H6, H8; unfold recvOffsetNow at 1.
  rewrite (proj2 (Z.eqb_neq _ _) H6); cbn [negb]; rewrite orb_true_r, H7.
  unfold guard_record, progress; rewrite (bool_decide_false (_ = _)) by congruence.
  cbn [negb]; rewrite orb_true_r; apply IH, Hrest.
Qed.

(** ** Properties *)

(** C31: the resume handshake synchronises both directions at once.  The old
    transports may move the server's byte layer until they have let go: [rs] is
    the layer when the request is let in, [rs1] the one they leave behind.  When
    both ends are unbroken and in step then, the grace has not expired and the
    transports let go in time, the server's handler answers 200, the client
    accepts (over WebSocket: once it has dialled), and afterwards each end's
    next byte on the wire is exactly the first byte the other lacks; repeating
    the exchange, as the client does when the dial after it fails, changes
    nothing.  When they do not let go in time the answer is 503 and no offset
    moves. *)
Theorem resume_synchronises sent got rs att s now now' during id l w sentS gotS sentC gotC rs1 rc :
  store_Get id w = Some l -> w_heap w !! l = Some s ->
  resumable_session sent got rs att s -> resumeExpiredLocked now s = false ->
  s_rs (during (resume_enter (BodyJSON (resume_request rc)) now s).1) = Some rs1 -> in_step sentS gotS sentC gotC rs1 rc ->
  broken rs1 = false -> broken rc = false ->
  (exists s' rs' rc' rr,
    ResumeHandler id (BodyJSON (resume_request rc)) now now' during true w
    = Some (put_session l s' w, Answer rr)
    /\ s_rs s' = Some rs'
    /\ (forall ws a attempts deadline, ra_reply a = RReplyOK rr -> (ws = true -> ra_dialed a = true) ->
        resume_loop ws deadline (250 * Millisecond) rc (a :: attempts) = ([], ResumeOK rc'))
    /\ sentCursor rs' = recvOffsetNow rc' /\ sentCursor rc' = recvOffsetNow rs'
    /\ in_step sentS gotS sentC gotC rs' rc' /\ isBroken rs' = false /\ isBroken rc' = false
    /\ resumeOut rs' (recvOffsetNow rc') = Some (rs', true)
    /\ resumeOut rc' (recvOffsetNow rs') = Some (rc', true))
  /\ exists s', ResumeHandler id (BodyJSON (resume_request rc)) now now' during false w
                = Some (put_session l s' w, AnswerError StatusServiceUnavailable)
       /\ s_rs s' = Some rs1.
Proof.
  intros Hget Hl Hs He Hdur [HS HC Hd Hu Had Hau] Hbs Hbc.
  destruct (resume_enter_in _ _ _ _ _ now (recvOffsetNow rc) Hs He) as (s1 & Een & _).
  change (mk_ResumeRequest ProtocolVersion (recvOffsetNow rc)) with (resume_request rc) in Een.
  rewrite Een in Hdur; cbn [fst] in Hdur; split.
  2: { eexists; split; [apply (ResumeHandler_found _ _ _ _ _ _ _ _ _ _ _ Hget Hl);
         unfold resume_session; rewrite Een; reflexivity|].
       rewrite (proj1 (endPoll_rs _ _)); unfold on_att; destruct (s_att (during s1)); exact Hdur. }
  pose proof (in_step_resumeOut _ _ _ _ HS Hd Hbs (Had Hbs)) as ES.
  pose proof (in_step_resumeOut _ _ _ _ HC Hu Hbc (Hau Hbc)) as EC.
  destruct (resumeOut_spec _ _ rs1 (len gotC) HS (len_nonneg _)) as (? & ? & ES' & HS' & _).
  destruct (resumeOut_spec _ _ rc (len gotS) HC (len_nonneg _)) as (? & ? & EC' & HC' & _).
  rewrite ES in ES'; injection ES' as <- <-; rewrite EC in EC'; injection EC' as <- <-.
  set (rs' := set_send _ _ _ _ rs1) in *; set (rc' := set_send _ _ _ _ rc) in *.
  assert (HrS : recvOffsetNow rs' = len gotS) by apply (ri_recv _ _ _ HS').
  assert (HrC : recvOffsetNow rc' = len gotC) by apply (ri_recv _ _ _ HC').
  unfold resume_request in *; change (recvOffsetNow rc) with (recvOffset rc) in *.
  rewrite (ri_recv _ _ _ HC) in *.
  destruct (resume_session_exchange s s1 now now' during (len gotC) _ _ rs1 (len_nonneg _) Een Hdur HS) as (s' & rs2 & ok & E1 & E2 & E3); rewrite ES in E1; injection E1 as <- <-.
  exists s', rs', rc', (mk_ResumeResponse true (len gotS)).
  split; [apply (ResumeHandler_found _ _ _ _ _ _ _ _ _ _ _ Hget Hl); rewrite E2, HrS; reflexivity|].
  split; [exact E3|]; split; [intros ws a attempts deadline Ha Hw; cbn [resume_loop]; rewrite Ha; cbn|].
  { rewrite EC; destruct ws; [rewrite Hw by reflexivity|]; reflexivity. }
  rewrite HrS, HrC; split; [reflexivity|]; split; [reflexivity|].
  split; [constructor; auto; intros _; cbn; lia|]; split; [exact Hbs|]; split; [exact Hbc|].
  split; [apply (resumeOut_idempotent _ _ rs1 _ rs' HS (len_nonneg _) ES)
         |apply (resumeOut_idempotent _ _ rc _ rc' HC (len_nonneg _) EC)].
Qed.

(** An offset the server cannot honour ends resumability for good: the
    handler answers 409 exactly for offsets outside [acked, sent], and then the
    session is no longer resumable, so no later guess can succeed. *)
Theorem bad_resume_offset_is_fatal sent got rs att s now now' during n id l w :
  store_Get id w = Some l -> w_heap w !! l = Some s ->
  resumable_session sent got rs att s -> resumeExpiredLocked now s = false -> 0 <= n ->
  (forall s, s_rs (during s) = s_rs s) ->
  exists s' a,
    ResumeHandler id (BodyJSON (mk_ResumeRequest ProtocolVersion n)) now now' during true w
    = Some (put_session l s' w, a)
    /\ (a = AnswerError StatusConflict <-> n < ackedOffset rs \/ sendOffset rs < n)
    /\ (a = AnswerError StatusConflict -> Resumable s' = false
        /\ forall n' now1 now2 during' left, exists w' status,
           ResumeHandler id (BodyJSON (mk_ResumeRequest ProtocolVersion n')) now1 now2 during' left
             (put_session l s' w) = Some (w', AnswerError status)).
Proof.
  intros Hget Hl Hs He Hn Hd.
  destruct (resume_enter_in _ _ _ _ _ now n Hs He) as (s1 & Een & Hrs1).
  destruct (resume_session_exchange s s1 now now' during n sent got rs Hn Een)
    as (s' & rs' & ok & E1 & E2 & E3); [rewrite Hd; exact Hrs1|apply (rsn_inv _ _ _ _ _ Hs)|].
  destruct Hs as [Hrs Hatt Hinv Hlive _ _ _].
  destruct (resumeOut_spec _ _ rs n Hinv Hn) as (rs1 & ok1 & E4 & _ & _ & Hok & _).
  rewrite E1 in E4; injection E4 as <- <-; rewrite (ri_send _ _ _ Hinv) in *; rewrite Hlive in Hok; cbn in Hok.
  do 2 eexists; split; [exact (ResumeHandler_found _ _ _ _ _ _ _ _ _ _ _ Hget Hl E2)|]; split.
  - rewrite Hok; destruct (Z.leb_spec (ackedOffset rs) n), (Z.leb_spec n (len sent)); cbn;
      split; intros; try discriminate; try reflexivity; lia.
  - destruct ok; [discriminate|]; intros _; split; [unfold Resumable; rewrite E3; reflexivity|].
    intros n' now1 now2 during' left; unfold ResumeHandler.
    change (store_Get id (put_session l s' w)) with (store_Get id w); rewrite Hget.
    unfold put_session at 1; cbn [w_heap set_heap]; rewrite lookup_insert_eq.
    unfold resume_session, resume_enter; cbn -[beginPoll touch endPoll].
    rewrite E3; destruct (s_att s'); [|eauto].
    destruct (beginPoll now1 s') as [s2 []]; cbn; eauto.
Qed.

(** Resuming terminates: attempts that fail transiently are retried with
    waits between a quarter of a second and two seconds, and by the time the
    server's grace is spent the loop has ended, with success or with an
    error. *)
Theorem resume_terminates ws grace start r attempts :
  0 <= grace -> clock_ok start attempts -> grace < (len attempts - 1) * min_wait ->
  ended (resume ws grace start r attempts).2
  /\ Forall (fun d => 250 * Millisecond <= d <= 2 * Second) (resume ws grace start r attempts).1.
Proof.
  intros Hg Hc Hl; unfold resume; split.
  - apply (resume_loop_ends ws (start + grace) attempts _ r start Hc); unfold min_wait, Millisecond, len in *; lia.
  - apply (resume_loop_waits ws (start + grace) attempts (250 * Millisecond) r); split; reflexivity || discriminate.
Qed.

(** C32: the supervisor cannot livelock: five consecutive sets of legs that each
    fail within two seconds without moving a byte in either direction end the
    session, although every resume handshake succeeded. *)
Theorem supervisor_never_livelocks g r rounds :
  0 <= g_fast g <= maxConsecutiveFastResumes -> Forall (idle_round (progress r)) rounds ->
  maxConsecutiveFastResumes <= len rounds ->
  match supervise g r rounds with Serving _ _ => False | _ => True end.
Proof.
  intros Hg Hall Hl; apply (supervise_idle (progress r)); auto; [lia|].
  intros ->; rewrite len_nil in Hl; unfold maxConsecutiveFastResumes in Hl; lia.
Qed.

(** The supervisor never abandons a session that makes progress: as long as
    every set of legs delivers downstream bytes and is resumed, the guards
    against livelock and against stalled batch bodies keep it going. *)
Theorem supervisor_keeps_useful_sessions g r rounds :
  useful_rounds r rounds -> exists g' r', supervise g r rounds = Serving g' r'.
Proof. apply supervise_useful. Qed.

(** ** Witnesses *)

(** The server has sent "AB", of which the client received "A"; the client has
    sent nothing. *)
Definition ex_srv : reliable := mk_reliable 2 0 2 [Byte.x41; Byte.x42] 16 false 0 0 0.
Definition ex_cli : reliable := mk_reliable 0 0 0 [] 16 false 1 0 0.
Definition ex_up : reliable := mk_reliable 1 0 1 [Byte.x43] 16 false 1 0 0.
Definition ex_sess : session :=
  set_att (Some newAttachments) (set_rs (Some ex_srv)
    (enableResume 16 (30 * Second) (newSession "id" ∅ 0))).

Lemma ex_in_step : in_step [Byte.x41; Byte.x42] [] [] [Byte.x41] ex_srv ex_cli.
Proof.
  constructor; try (constructor; cbn; try reflexivity; try lia; intros; try discriminate;
                    split; try reflexivity; vm_compute; congruence).
  - exists [Byte.x42]; reflexivity.
  - reflexivity.
  - intros _; vm_compute; discriminate.
  - intros _; vm_compute; discriminate.
Qed.

Lemma ex_resumable : resumable_session [Byte.x41; Byte.x42] [] ex_srv newAttachments ex_sess.
Proof. constructor; try reflexivity; [apply (is_server _ _ _ _ _ _ ex_in_step)|cbn; lia]. Qed.

Definition ex_server : world := store_add 0%nat ex_sess new_world.

(** A byte the client had sent before arrives at the server while its old upload
    is being kicked off. *)
Definition ex_late (s : session) : session :=
  set_rs (option_map (set_recv 1 0) (s_rs s)) s.
Lemma ex_in_step_late :
  in_step [Byte.x41; Byte.x42] [Byte.x43] [Byte.x43] [Byte.x41] (set_recv 1 0 ex_srv) ex_up.
Proof.
  constructor; try (constructor; cbn; try reflexivity; try lia; intros; try discriminate;
                    split; try reflexivity; vm_compute; congruence).
  - exists [Byte.x42]; reflexivity.
  - reflexivity.
  - intros _; vm_compute; discriminate.
  - intros _; vm_compute; discriminate.
Qed.

Lemma resume_synchronises_witness :
  exists w', ResumeHandler "id" (BodyJSON (resume_request ex_up)) 5 6 ex_late true ex_server
             = Some (w', Answer (mk_ResumeResponse true 1)).
Proof.
  destruct (resume_synchronises _ _ ex_srv newAttachments ex_sess 5 6 ex_late "id" 0%nat ex_server
    _ _ _ _ (set_recv 1 0 ex_srv) ex_up eq_refl eq_refl ex_resumable eq_refl eq_refl
    ex_in_step_late eq_refl eq_refl) as [(s' & rs' & rc' & rr & H & _) _].
  assert (E : option_map snd (ResumeHandler "id" (BodyJSON (resume_request ex_up)) 5 6 ex_late true ex_server)
              = Some (Answer (mk_ResumeResponse true 1))) by reflexivity.
  rewrite H in E; injection E as ->; eexists; exact H.
Defined.

Lemma bad_resume_offset_is_fatal_witness :
  exists s', ResumeHandler "id" (BodyJSON (mk_ResumeRequest ProtocolVersion 3)) 5 6 (fun s => s) true
               ex_server
             = Some (put_session 0%nat s' ex_server, AnswerError StatusConflict) /\ Resumable s' = false.
Proof.
  destruct (bad_resume_offset_is_fatal _ _ ex_srv newAttachments ex_sess 5 6 (fun s => s) 3
    "id" 0%nat ex_server eq_refl eq_refl ex_resumable eq_refl ltac:(lia) (fun _ => eq_refl)) as (s' & a & H & Hiff & Hf).
  exists s'; assert (E : a = AnswerError StatusConflict) by (apply Hiff; right; reflexivity).
  rewrite E in H; split; [exact H|apply Hf, E].
Defined.

(** A server that is unreachable for the whole of a one-second grace. *)
Definition ex_attempts : list attempt :=
  map (fun i => mk_attempt RReplyNone false (i * 300 * Millisecond) true) [0; 1; 2; 3; 4; 5; 6].

Lemma resume_terminates_witness : ended (resume false Second 0 ex_cli ex_attempts).2.
Proof.
  apply (resume_terminates false Second 0 ex_cli ex_attempts);
    vm_compute; repeat split; congruence.
Defined.

Definition ex_idle : leg_round := mk_leg_round (ErrNet false) ex_cli 0 false (inl ex_cli) false.

Lemma supervisor_never_livelocks_witness :
  match supervise (mk_guard 0 0) ex_cli (repeat ex_idle 5) with Serving _ _ => False | _ => True end.
Proof.
  apply (supervisor_never_livelocks (mk_guard 0 0) ex_cli (repeat ex_idle 5)).
  - split; discriminate.
  - repeat constructor.
  - discriminate.
Defined.

Definition ex_after : reliable := set_recv 2 0 ex_cli.
Definition ex_useful : leg_round := mk_leg_round errBatchBodyTimeout ex_after 0 false (inl ex_after) false.

Lemma supervisor_keeps_useful_sessions_witness :
  exists g' r', supervise (mk_guard 4 2) ex_cli [ex_useful] = Serving g' r'.
Proof.
  apply (supervisor_keeps_useful_sessions (mk_guard 4 2) ex_cli [ex_useful]).
  exists ex_after; split; [|exact I]; unfold useful_round; split_and!; auto; discriminate.
Defined.
