(* ===== verification/Batch.v ===== *)
(** * Batch.v: the resumable batch transport

    Models src/batch.go: the offset headers, the server's pollBatchResumable
    and the client's doBatchPoll, doBatchSend and batchUpLoop.  Each side is a
    function on its byte layer; the request and the response are values that
    the network may lose. *)

From Stdlib Require Import DecimalString DecimalN.
From S2P Require Import Prelude Pipe Protocol Reliable Channel Attach Session Connect Resume.

(** ** Offsets in headers *)

(** [strconv.FormatUint(off, 10)] and [strconv.ParseUint(v, 10, 64)]. *)
Definition FormatUint (n : Z) : string := NilZero.string_of_uint (N.to_uint (Z.to_N n)).

Definition ParseUint (v : string) : option Z :=
  match NilZero.uint_of_string v with
  | None => None
  | Some d => let n := Z.of_N (N.of_uint d) in if n <? 2 ^ 64 then Some n else None
  end.

(** A header is the list of its values. *)
Definition batchOffset (values : list string) : res Z :=
  match values with
  | [v] => match ParseUint v with Some n => Ok n | None => Fail errBadHeader end
  | _ => Fail errBadHeader
  end.

Definition setBatchOffset (off : Z) : list string := [FormatUint off].

(** ** The server *)

(** How the body of a request reads: complete, over MaxBytesReader's limit, or
    cut off. *)
Inductive read_body : Type :=
| BodyComplete (data : list byte)
| BodyTooLarge
| BodyBroken.

Record batch_request := mk_breq {
  bq_recvOffset : list string;      (* X-Recv-Offset *)
  bq_sendOffset : list string;      (* X-Send-Offset *)
  bq_body : list byte;
}.

Record batch_response := mk_bresp {
  br_status : Z;
  br_recvOffset : list string;
  br_sendOffset : list string;
  br_body : list byte;
}.

Definition error_response (status : Z) : batch_response := mk_bresp status [] [] [].

(** What happens around the handler: whether attach got the direction, how the
    request's body read, whether the request was cancelled (by its caller or by
    a kick) before the offsets were used and while nextOut waited. *)
Record batch_env := mk_benv {
  be_attached : bool;
  be_body : read_body;
  be_cancelled : bool;
  be_cancelled' : bool;
  be_sched : list (list pipe_event);
}.

(** The outcome for the session: a response, no response at all, or the close
    of the session for a protocol violation. *)
Inductive batch_result : Type :=
| Responded (e : endpoint) (r : batch_response)
| Silent (e : endpoint)
| Violation (e : endpoint)
| BatchPanic.

(** [bufsize] is cfg.PollBufferSize. *)
Definition pollBatchResumable (send : bool) (bufsize : Z) (q : batch_request) (env : batch_env)
    (e : endpoint) : batch_result :=
  match batchOffset (bq_recvOffset q) with
  | Fail _ => Responded e (error_response StatusBadRequest)
  | Ok ack =>
      match (if send then batchOffset (bq_sendOffset q)
             else match be_body env with BodyComplete [] => Ok 0 | _ => Fail errBadHeader end) with
      | Fail _ => Responded e (error_response StatusBadRequest)
      | Ok off =>
          if negb (be_attached env) then Responded e (error_response StatusServiceUnavailable)
          else match (if send then be_body env else BodyComplete []) with
          | BodyTooLarge => Violation e
          | BodyBroken => Responded e (error_response StatusBadRequest)
          | BodyComplete data =>
              if be_cancelled env then Silent e
              else match rel_ack (ep_rl e) ack with
              | None => BatchPanic
              | Some (r, Some _) => Responded (on_rl (fun _ => r) e) (error_response StatusBadRequest)
              | Some (r, None) =>
                  let e := on_rl (fun _ => r) e in
                  if send then
                    match recvIn e off data with
                    | None => BatchPanic
                    | Some (e, Some ErrClosedPipe) => Responded e (error_response StatusGone)
                    | Some (e, Some _) => Responded e (error_response StatusBadRequest)
                    | Some (e, None) =>
                        Responded e (mk_bresp StatusOK (setBatchOffset (recvOffsetNow (ep_rl e))) [] [])
                    end
                  else
                    let e := on_rl rewindToAcked e in
                    match nextOut e bufsize (be_sched env) with
                    | None => BatchPanic
                    | Some (e, r, _) =>
                        if be_cancelled' env then Silent e
                        else match r with
                        | Fail EOF => Responded e (error_response StatusGone)
                        | Fail errPipeInterrupted | Ok (_, []) =>
                            Responded e (mk_bresp StatusNoContent
                                           (setBatchOffset (recvOffsetNow (ep_rl e))) [] [])
                        | Fail _ => Responded e (error_response StatusInternalServerError)
                        | Ok (off, data) =>
                            Responded e (mk_bresp StatusOK (setBatchOffset (recvOffsetNow (ep_rl e)))
                                           (setBatchOffset off) data)
                        end
                    end
              end
          end
      end
  end.

(** ** The client *)

Definition batch_poll_request (r : reliable) : batch_request :=
  mk_breq (setBatchOffset (recvOffsetNow r)) [] [].
Definition batch_send_request (r : reliable) (off : Z) (data : list byte) : batch_request :=
  mk_breq (setBatchOffset (recvOffsetNow r)) (setBatchOffset off) data.

(** What the client gets back: nothing, a body that did not finish ([timeout]
    says why), or the whole response. *)
Inductive delivery : Type :=
| Lost
| Truncated (status : Z) (timeout : bool)
| Delivered (r : batch_response).

(** [doBatchPoll] after the exchange; the result is whether data arrived. *)
Definition doBatchPoll (maxFrame : Z) (e : endpoint) (d : delivery) : option (endpoint * res bool) :=
  match d with
  | Lost => Some (e, Fail (ErrNet false))
  | Truncated status timeout =>
      if negb (status =? StatusOK) && negb (status =? StatusNoContent)
      then Some (e, Fail (fatalPollError status))
      else Some (e, Fail (if (status =? StatusOK) && timeout then errBatchBodyTimeout else ErrNet false))
  | Delivered r =>
      if negb (br_status r =? StatusOK) && negb (br_status r =? StatusNoContent)
      then Some (e, Fail (fatalPollError (br_status r)))
      else if maxFrame <? len (br_body r) then Some (e, Fail errBadResponse)
      else if (br_status r =? StatusOK) && (len (br_body r) =? 0) then Some (e, Fail errBadResponse)
      else match batchOffset (br_recvOffset r) with
      | Fail err => Some (e, Fail err)
      | Ok ack =>
          let finish (e : endpoint) :=
            match rel_ack (ep_rl e) ack with
            | None => None
            | Some (rl, Some err) => Some (on_rl (fun _ => rl) e, Fail err)
            | Some (rl, None) => Some (on_rl (fun _ => rl) e, Ok (0 <? len (br_body r)))
            end in
          if br_status r =? StatusOK then
            match batchOffset (br_sendOffset r) with
            | Fail err => Some (e, Fail err)
            | Ok off =>
                match recvIn e off (br_body r) with
                | None => None
                | Some (e, Some err) => Some (e, Fail err)
                | Some (e, None) => finish e
                end
            end
          else finish e
      end
  end.

(** [doBatchSend] after the exchange. *)
Definition doBatchSend (e : endpoint) (d : delivery) : option (endpoint * option goerr) :=
  match d with
  | Lost => Some (e, Some (ErrNet false))
  | Truncated status _ =>
      Some (e, Some (if status =? StatusOK then ErrNet false else fatalPollError status))
  | Delivered r =>
      if negb (br_status r =? StatusOK) then Some (e, Some (fatalPollError (br_status r)))
      else if negb (len (br_body r) =? 0) then Some (e, Some errBadResponse)
      else match batchOffset (br_recvOffset r) with
      | Fail err => Some (e, Some err)
      | Ok ack =>
          match rel_ack (ep_rl e) ack with
          | None => None
          | Some (rl, err) => Some (on_rl (fun _ => rl) e, err)
          end
      end
  end.

(** One turn of batchUpLoop up to the request: what to send, if anything. *)
Inductive up_turn : Type :=
| UpStop (e : endpoint) (err : goerr)
| UpIdle (e : endpoint)
| UpSend (e : endpoint) (off : Z) (data : list byte)
| UpPanic.

Definition batchUpLoop_turn (pollStream ctxDone : bool) (maxSendChunk : Z)
    (sched : list (list pipe_event)) (e : endpoint) : up_turn :=
  match nextOut e maxSendChunk sched with
  | None => UpPanic
  | Some (e, r, _) =>
      if ctxDone then UpStop e ErrCtx
      else
        let continue (off : Z) (data : list byte) :=
          let '(rl, due) := takeAck (ep_rl e) in
          let e := on_rl (fun _ => rl) e in
          if (len data =? 0) && (negb (match due with Some _ => true | None => false end)
                                 || negb pollStream)
          then UpIdle e else UpSend e off data in
        match r with
        | Fail errPipeInterrupted => continue 0 []
        | Fail err => UpStop e err
        | Ok (off, data) => continue off data
        end
  end.

(** ** Lemmas *)

Lemma ParseUint_FormatUint n : is_u64 n -> ParseUint (FormatUint n) = Some n.
Proof.
  intros Hn; unfold ParseUint, FormatUint.
  assert (Hnil : N.to_uint (Z.to_N n) <> Decimal.Nil).
  { intros E; pose proof (Unsigned.of_to (Z.to_N n)) as Ho; rewrite E in Ho; cbn in Ho.
    destruct (Z.to_N n); [discriminate|]; cbn in Ho; discriminate. }
  rewrite NilZero.usu by exact Hnil; rewrite Unsigned.of_to, Z2N.id by apply Hn.
  rewrite (proj2 (Z.ltb_lt _ _)) by apply Hn; reflexivity.
Qed.

Lemma batchOffset_set n : is_u64 n -> batchOffset (setBatchOffset n) = Ok n.
Proof. intros Hn; cbn; rewrite ParseUint_FormatUint by exact Hn; reflexivity. Qed.

(** A session in batch mode, downstream: [w] is everything the server's
    application wrote. *)
Record batch_inv (w : list byte) (es ec : endpoint) (sent got : list byte) : Prop := {
  bi_server : rel_inv sent [] (ep_rl es);
  bi_client : rel_inv [] got (ep_rl ec);
  bi_prefix : got `prefix_of` sent;
  bi_acked : broken (ep_rl es) = false -> ackedOffset (ep_rl es) <= len got;
  bi_written : sent ++ p_buf (ep_out es) = w;
  bi_read : p_buf (ep_in ec) = got;
  bi_open : p_closed (ep_out es) = false /\ p_closed (ep_in ec) = false;
  bi_quiet : p_intr (ep_out es) = false;
  bi_max : len w < 2 ^ 63;
}.

(** What nextOut returns, from a cursor at [n]: nothing because everything was
    sent and nothing is queued, or the next bytes of the stream. *)
Lemma nextOut_from sent got e n blen :
  rel_inv sent got (ep_rl e) -> broken (ep_rl e) = false -> sentCursor (ep_rl e) = n -> 0 < blen ->
  p_closed (ep_out e) = false -> p_intr (ep_out e) = false ->
  len sent + len (p_buf (ep_out e)) < 2 ^ 63 ->
  exists e' off d rest sent',
    nextOut e blen [] = Some (e', Ok (off, d), rest)
    /\ rel_inv sent' got (ep_rl e') /\ sent `prefix_of` sent'
    /\ sent' ++ p_buf (ep_out e') = sent ++ p_buf (ep_out e)
    /\ p_closed (ep_out e') = false /\ p_intr (ep_out e') = false /\ ep_in e' = ep_in e
    /\ (broken (ep_rl e') = false -> ackedOffset (ep_rl e') = ackedOffset (ep_rl e))
    /\ recvOffset (ep_rl e') = recvOffset (ep_rl e)
    /\ ((d = [] /\ n = len sent /\ p_buf (ep_out e) = [])
        \/ (d <> [] /\ off = n /\ len d <= blen /\ exists more, drop (Z.to_nat n) sent' = d ++ more)).
Proof.
  intros Hr Hb Hn Hl Hc Hi Hm; unfold nextOut; destruct (has_pending (ep_rl e)) eqn:Hp.
  - destruct (pending_out_spec _ _ _ blen Hr Hp Hl) as (E & Hne & Hlen & Hr').
    rewrite E; rewrite Hn in *; eexists _, n, _, _, sent; split; [reflexivity|].
    split; [exact Hr'|]; split_and!; auto; right; split_and!; auto; [lia|].
    eexists; symmetry; apply copied_uncopied.
  - assert (Hend : n = len sent).
    { pose proof Hr as []; unfold has_pending in Hp; rewrite Hb in Hp; cbn in Hp; breflect; lia. }
    destruct (ReadAvailable_now (ep_out e) blen Hl Hc Hi) as [rest E]; rewrite E.
    pose proof (copied_uncopied blen (p_buf (ep_out e))) as Hcu.
    destruct (copied blen (p_buf (ep_out e))) as [|b d] eqn:Hd.
    + assert (Hempty : p_buf (ep_out e) = []).
      { destruct (p_buf (ep_out e)) eqn:Hq; [reflexivity|exfalso].
        eapply copied_nonempty; [exact Hl| |exact Hd]; discriminate. }
      eexists _, 0, [], _, sent; split; [reflexivity|]; split; [exact Hr|].
      cbn; rewrite <- Hcu at 2; split_and!; auto.
    + assert (Hmax : len sent + len (b :: d) < 2 ^ 63).
      { rewrite <- Hcu in Hm; rewrite len_app in Hm.
        pose proof (len_nonneg (uncopied blen (p_buf (ep_out e)))); lia. }
      destruct (number_out_spec _ _ _ (b :: d) Hr Hmax) as (Ho & Hr' & _ & Hrec & Ha).
      destruct (number_out (ep_rl e) (b :: d)) as [r off]; cbn [fst snd] in *.
      eexists _, off, (b :: d), _, (sent ++ b :: d); split; [reflexivity|]; split; [exact Hr'|].
      cbn [ep_out ep_in ep_rl set_buf p_buf p_closed p_intr]; split_and!; auto.
      * apply prefix_app_r; reflexivity.
      * rewrite <- app_assoc; f_equal; exact Hcu.
      * intros Hnb; apply Ha, Hnb.
      * right; split_and!; [discriminate|congruence| |].
        -- rewrite <- Hd, len_copied; lia.
        -- exists []; rewrite app_nil_r, Hend; apply drop_len_app.
Qed.

(** One poll of the batch transport; [lost] says whether its response reaches
    the client. *)
Definition poll_env : batch_env := mk_benv true (BodyComplete []) false false [].

Definition batch_poll (bufsize : Z) (lost : bool) (es ec : endpoint)
    : option (endpoint * endpoint * res bool) :=
  match pollBatchResumable false bufsize (batch_poll_request (ep_rl ec)) poll_env es with
  | Responded es r =>
      match doBatchPoll bufsize ec (if lost then Lost else Delivered r) with
      | Some (ec, out) => Some (es, ec, out)
      | None => None
      end
  | _ => None
  end.

Lemma rewound_ack sent got r :
  rel_inv sent [] r -> broken r = false -> ackedOffset r <= len got -> got `prefix_of` sent ->
  exists r', rel_ack r (len got) = Some (r', None)
    /\ rel_inv sent [] (rewindToAcked r') /\ broken (rewindToAcked r') = false
    /\ sentCursor (rewindToAcked r') = len got /\ ackedOffset (rewindToAcked r') = len got
    /\ recvOffset (rewindToAcked r') = recvOffset r.
Proof.
  intros Hr Hb Ha Hp; apply prefix_length in Hp.
  destruct (rel_ack_spec _ _ r (len got) Hr (len_nonneg _)) as (r' & err & E & Hr' & Hrec & Hc).
  exists r'; destruct Hc as [(?&_)|[(_&_&?&_)|(_&->&_&Hx)]]; [unfold len in *; lia|congruence|].
  split; [exact E|]; split; [apply inv_rewind, Hr'|].
  unfold rewindToAcked; rewrite Hx; cbn; rewrite Hb; cbn; rewrite Z.max_l by exact Ha; auto.
Qed.

(** The response of a poll that returned [d] from offset [off]. *)
Definition poll_response (ack off : Z) (d : list byte) : batch_response :=
  match d with
  | [] => mk_bresp StatusNoContent (setBatchOffset ack) [] []
  | _ => mk_bresp StatusOK (setBatchOffset ack) (setBatchOffset off) d
  end.

Lemma server_poll w es ec sent got bufsize :
  batch_inv w es ec sent got -> broken (ep_rl es) = false -> 0 < bufsize ->
  exists es' sent' d,
    pollBatchResumable false bufsize (batch_poll_request (ep_rl ec)) poll_env es
      = Responded es' (poll_response 0 (len got) d)
    /\ batch_inv w es' ec sent' got
    /\ len d <= bufsize /\ got ++ d `prefix_of` sent' /\ (d = [] -> got = w).
Proof.
  intros [H1 H2 H3 H4 H5 H6 [H7 H7'] H8 H9] Hb Hl.
  destruct (rewound_ack sent got _ H1 Hb (H4 Hb) H3) as (r1 & E1 & K1 & K2 & K3 & K4 & K5).
  set (e1 := on_rl rewindToAcked (on_rl (fun _ => r1) es)).
  destruct (nextOut_from sent [] e1 (len got) bufsize K1 K2 K3 Hl H7 H8)
    as (es' & off & d & rest & sent' & E2 & N1 & N2 & N3 & N4 & N5 & N6 & N7 & N8 & N9).
  { rewrite <- len_app; cbn; rewrite H5; exact H9. }
  exists es', sent', d; cbn in N3; split_and!.
  - unfold pollBatchResumable, batch_poll_request, recvOffsetNow.
    rewrite (ri_recv _ _ _ H2); cbn [bq_recvOffset].
    rewrite batchOffset_set by (pose proof (ri_recv_max _ _ _ H2); unfold is_u64; len_lia).
    cbn [be_body poll_env be_attached be_cancelled be_cancelled' be_sched negb]; rewrite E1.
    fold e1; rewrite E2; unfold recvOffsetNow; rewrite N8; cbn [e1 on_rl ep_rl].
    rewrite K5, (ri_recv _ _ _ H1); destruct d; [reflexivity|].
    destruct N9 as [(?&_)|(_&->&_)]; [discriminate|reflexivity].
  - constructor; auto; [etransitivity; eassumption| |congruence].
    intros Hnb; rewrite (N7 Hnb); cbn; lia.
  - destruct N9 as [(->&_)|(_&_&?&_)]; [cbn; len_lia|assumption].
  - pose proof (transitivity H3 N2) as [more Hs].
    destruct N9 as [(->&_)|(_&_&_&m&Hm)]; [rewrite app_nil_r; exists more; exact Hs|].
    rewrite Hs, drop_len_app in Hm; exists m; rewrite Hs, Hm, app_assoc; reflexivity.
  - intros ->; destruct N9 as [(_&Hlen&Hbuf)|(?&_)]; [|done].
    cbn in Hbuf; rewrite Hbuf, app_nil_r in H5; destruct H3 as [k ->].
    rewrite len_app in Hlen; assert (k = []) as -> by (apply len_zero_iff; lia).
    rewrite app_nil_r in H5; exact H5.
Qed.

Lemma client_poll ec got bufsize d :
  rel_inv [] got (ep_rl ec) -> p_closed (ep_in ec) = false -> len d <= bufsize ->
  len got + len d < 2 ^ 63 ->
  exists ec', doBatchPoll bufsize ec (Delivered (poll_response 0 (len got) d))
      = Some (ec', Ok (negb (bool_decide (d = []))))
    /\ rel_inv [] (got ++ d) (ep_rl ec') /\ p_buf (ep_in ec') = p_buf (ep_in ec) ++ d
    /\ p_closed (ep_in ec') = false.
Proof.
  intros Hr Hc Hl Hm.
  assert (Hack : forall e g, rel_inv [] g (ep_rl e) ->
    exists rl, rel_ack (ep_rl e) 0 = Some (rl, None) /\ rel_inv [] g rl).
  { intros e g He; destruct (rel_ack_spec _ _ _ 0 He ltac:(lia)) as (rl & err & -> & Hrl & _ & Hcase).
    exists rl; destruct Hcase as [(?&_)|[(_&->&_)|(_&->&_)]]; auto; len_lia. }
  destruct (deliver_spec [] [(len got, d)] ec got Hr Hc) as (e1 & E & Hr1 & Hb1 & _ & Hc1).
  { split; [reflexivity|exact I]. }
  { cbn; rewrite app_nil_r; exact Hm. }
  cbn [deliver map concat snd] in *; rewrite app_nil_r in *.
  destruct (recvIn ec (len got) d) as [[e2 [err|]]|] eqn:E2; try discriminate; injection E as ->.
  destruct d as [|b d].
  - destruct (Hack ec got Hr) as (rl & Ea & Hrl); exists (on_rl (fun _ => rl) ec).
    unfold doBatchPoll, poll_response; cbn [br_status br_body br_recvOffset br_sendOffset].
    change (StatusNoContent =? StatusOK) with false; cbn [negb andb].
    change (StatusNoContent =? StatusNoContent) with true; cbn [negb andb].
    rewrite (proj2 (Z.ltb_ge _ _)), batchOffset_set, Ea, !app_nil_r by (unfold is_u64; len_lia).
    auto.
  - destruct (Hack e1 _ Hr1) as (rl & Ea & Hrl); exists (on_rl (fun _ => rl) e1).
    unfold doBatchPoll, poll_response; cbn [br_status br_body br_recvOffset br_sendOffset].
    rewrite (proj2 (Z.ltb_ge _ _)) by exact Hl.
    rewrite (proj2 (Z.eqb_neq (len (b :: d)) 0)) by len_lia; cbn [Z.eqb Pos.eqb negb andb].
    rewrite !batchOffset_set by (unfold is_u64; len_lia).
    change (StatusOK =? StatusOK) with true; cbn [negb andb].
    rewrite E2, Ea, (proj2 (Z.ltb_lt 0 _)) by len_lia; auto.
Qed.

Lemma batch_poll_step w es ec sent got bufsize lost :
  batch_inv w es ec sent got -> broken (ep_rl es) = false -> 0 < bufsize ->
  exists es' ec' sent' d,
    batch_poll bufsize lost es ec
      = Some (es', ec', if lost then Fail (ErrNet false) else Ok (negb (bool_decide (d = []))))
    /\ batch_inv w es' ec' sent' (if lost then got else got ++ d)
    /\ (d = [] -> got = w).
Proof.
  intros Hi Hb Hl.
  destruct (server_poll w es ec sent got bufsize Hi Hb Hl) as (es' & sent' & d & E & Hi' & Hd & Hp & Hw).
  unfold batch_poll; rewrite E; destruct lost; [exists es', ec, sent', d; auto|].
  destruct Hi' as [H1 H2 H3 H4 H5 H6 [H7 H7'] H8 H9].
  destruct (client_poll ec got bufsize d H2 H7' Hd) as (ec' & -> & Hr & Hbuf & Hc).
  { pose proof (ri_send_max _ _ _ H1); apply prefix_length in Hp; rewrite <- len_app; unfold len in *; lia. }
  exists es', ec', sent', d; split; [reflexivity|]; split; [|exact Hw].
  constructor; auto; [|congruence].
  intros Hnb; specialize (H4 Hnb); len_lia.
Qed.

(** A run of a batch session: the application writes, the client polls. *)
Inductive batch_op : Type := BWrite (d : list byte) | BPoll (lost : bool).

Fixpoint batch_run (bufsize : Z) (es ec : endpoint) (ops : list batch_op)
    : option (endpoint * endpoint * list (res bool)) :=
  match ops with
  | [] => Some (es, ec, [])
  | BWrite d :: ops =>
      batch_run bufsize (mk_ep (ep_rl es) (pipe_Write (ep_out es) d).1.1 (ep_in es)) ec ops
  | BPoll lost :: ops =>
      if isBroken (ep_rl es) then Some (es, ec, []) else
      match batch_poll bufsize lost es ec with
      | None => None
      | Some (es, ec, out) =>
          match batch_run bufsize es ec ops with
          | Some (es, ec, outs) => Some (es, ec, out :: outs)
          | None => None
          end
      end
  end.

Definition batch_written (ops : list batch_op) : list byte :=
  concat (map (fun op => match op with BWrite d => d | BPoll _ => [] end) ops).

Definition poll_ok (r : res bool) : Prop := r = Fail (ErrNet false) \/ exists b, r = Ok b.

Lemma batch_run_inv bufsize ops :
  0 < bufsize ->
  forall w es ec sent got, batch_inv w es ec sent got -> len w + len (batch_written ops) < 2 ^ 63 ->
  exists es' ec' outs w' sent' got', batch_run bufsize es ec ops = Some (es', ec', outs)
    /\ batch_inv w' es' ec' sent' got' /\ w' `prefix_of` w ++ batch_written ops
    /\ Forall poll_ok outs.
Proof.
  intros Hl; induction ops as [|op ops IH]; intros w es ec sent got Hi Hm; cbn [batch_run].
  { exists es, ec, [], w, sent, got; cbn; rewrite app_nil_r; split_and!; auto. }
  destruct op as [d|lost].
  - unfold batch_written in Hm |- *; cbn [map concat] in *; fold (batch_written ops) in *.
    rewrite len_app in Hm.
    destruct (IH (w ++ d) (mk_ep (ep_rl es) (pipe_Write (ep_out es) d).1.1 (ep_in es)) ec sent got)
      as (es' & ec' & outs & w' & sent' & got' & E & H); [|len_lia|].
    { destruct Hi as [H1 H2 H3 H4 H5 H6 [H7 H7'] H8 H9]; unfold pipe_Write; rewrite H7.
      constructor; cbn; auto; [rewrite <- H5, app_assoc; reflexivity|len_lia]. }
    rewrite app_assoc; exists es', ec', outs, w', sent', got'; auto.
  - destruct (isBroken (ep_rl es)) eqn:Hb.
    { exists es, ec, [], w, sent, got; split_and!; auto; apply prefix_app_r; reflexivity. }
    destruct (batch_poll_step w es ec sent got bufsize lost Hi Hb Hl)
      as (es1 & ec1 & sent1 & d & -> & Hi1 & _).
    destruct (IH w es1 ec1 sent1 _ Hi1 Hm) as (es' & ec' & outs & w' & sent' & got' & -> & H2 & H3 & H4).
    do 3 eexists; exists w', sent', got'; split; [reflexivity|]; split_and!; auto.
    constructor; [destruct lost; [left|right; eexists]; reflexivity|exact H4].
Qed.

Lemma new_batch_inv m m' : batch_inv [] (new_endpoint m) (new_endpoint m') [] [].
Proof.
  constructor; [apply inv_new|apply inv_new|..]; try reflexivity; try (split; reflexivity).
Qed.

(** ** Properties *)

(** Offsets survive the headers: what setBatchOffset writes batchOffset
    reads back, for every 64-bit offset, and a missing or repeated header is
    refused. *)
Theorem batch_offset_roundtrip n v1 v2 rest :
  is_u64 n ->
  batchOffset (setBatchOffset n) = Ok n
  /\ batchOffset [] = Fail errBadHeader /\ batchOffset (v1 :: v2 :: rest) = Fail errBadHeader.
Proof. intros Hn; split; [apply batchOffset_set, Hn|]; split; reflexivity. Qed.

(** Lost poll responses never lose or repeat data: in any run of
    application writes and batch polls, of which any may lose its response, no
    poll that arrives reports an error as long as the replay buffer does not
    overflow, and what the client has received is a prefix of what the server's
    application wrote. *)
Theorem batch_polls_survive_loss m m' bufsize ops :
  0 < bufsize -> len (batch_written ops) < 2 ^ 63 ->
  exists es ec outs, batch_run bufsize (new_endpoint m) (new_endpoint m') ops = Some (es, ec, outs)
    /\ Forall poll_ok outs
    /\ p_buf (ep_in ec) `prefix_of` batch_written ops.
Proof.
  intros Hl Hm.
  destruct (batch_run_inv bufsize ops Hl [] _ _ _ _ (new_batch_inv m m') Hm)
    as (es & ec & outs & w & sent & got & E & Hi & Hw & Ho).
  exists es, ec, outs; split_and!; auto.
  destruct Hi as [H1 H2 H3 _ H5 -> _ _ _]; etransitivity; [exact H3|].
  etransitivity; [|exact Hw]; rewrite <- H5; apply prefix_app_r; reflexivity.
Qed.

(** A batch poll always makes progress when there is data: against an
    unbroken server, a poll whose response arrives extends what the client has
    by the next bytes of the stream, and returns nothing only if the client
    already has everything that was written. *)
Theorem batch_poll_makes_progress w es ec sent got bufsize :
  batch_inv w es ec sent got -> isBroken (ep_rl es) = false -> 0 < bufsize ->
  exists es' ec' sent' d, batch_poll bufsize false es ec = Some (es', ec', Ok (negb (bool_decide (d = []))))
    /\ batch_inv w es' ec' sent' (got ++ d) /\ (d = [] -> got = w).
Proof. intros Hi Hb Hl; exact (batch_poll_step w es ec sent got bufsize false Hi Hb Hl). Qed.

(** ** Witnesses *)

Lemma batch_offset_roundtrip_witness : batchOffset (setBatchOffset (2 ^ 64 - 1)) = Ok (2 ^ 64 - 1).
Proof. apply (batch_offset_roundtrip (2 ^ 64 - 1) "" "" []); split; reflexivity || discriminate. Defined.

Definition ex_batch_ops : list batch_op :=
  [BWrite [Byte.x41; Byte.x42; Byte.x43]; BPoll true; BPoll false; BPoll true; BPoll false; BPoll false].

Lemma batch_polls_survive_loss_witness :
  exists es ec outs, batch_run 2 (new_endpoint 16) (new_endpoint 16) ex_batch_ops = Some (es, ec, outs)
    /\ Forall poll_ok outs /\ p_buf (ep_in ec) `prefix_of` batch_written ex_batch_ops.
Proof. apply (batch_polls_survive_loss 16 16 2 ex_batch_ops); reflexivity. Defined.

(** The run above delivers everything in spite of two lost responses. *)
Example ex_batch_run :
  option_map (fun x => p_buf (ep_in x.1.2))
    (batch_run 2 (new_endpoint 16) (new_endpoint 16) ex_batch_ops)
  = Some [Byte.x41; Byte.x42; Byte.x43].
Proof. reflexivity. Qed.

Lemma batch_poll_makes_progress_witness :
  exists es' ec' sent' d, batch_poll 4 false (new_endpoint 16) (new_endpoint 16)
      = Some (es', ec', Ok (negb (bool_decide (d = []))))
    /\ batch_inv [] es' ec' sent' ([] ++ d) /\ (d = [] -> [] = ([] : list byte)).
Proof.
  apply (batch_poll_makes_progress [] (new_endpoint 16) (new_endpoint 16) [] [] 4 (new_batch_inv 16 16));
    reflexivity.
Defined.
