(* ===== verification/Stream.v ===== *)
(** * Stream.v: the frames of the streamed transports

    Models the loops that move numbered bytes as frames: the server's
    pollStreamResumable and pollSendStream (src/handler.go) and its WebSocket
    pumps (src/websocket.go), the client's doStreamPoll, feedSendStream,
    wsReadLoop and wsWriteLoop (src/resumable_client.go).  A streamed HTTP body
    and a WebSocket are two instances of one interface, [FrameSink]; each loop
    is modelled by its turn. *)

From S2P Require Import Prelude Frame Pipe Protocol Reliable Channel Attach Session Connect.

(** ** Where frames are written *)

Class FrameSink (W : Type) := {
  sink_frame : W -> frameType -> list byte -> W * option goerr;
  sink_seq : W -> Z -> list byte -> W * option goerr;
  (** The frames written so far, as the peer will decode them. *)
  sink_sent : W -> list (frameType * list byte);
}.

(** What a sink promises: a write that reports success puts exactly its frame
    behind the frames already there. *)
Class SinkLaws (W : Type) `{FrameSink W} (ok : W -> Prop) := {
  sink_frame_law : forall w typ p w', ok w -> sink_frame w typ p = (w', None) ->
    ok w' /\ sink_sent w' = sink_sent w ++ [(typ, p)];
  sink_seq_law : forall w off p w', ok w -> sink_seq w off p = (w', None) ->
    ok w' /\ sink_sent w' = sink_sent w ++ [(frameSeqData, be_put 8 off ++ p)];
}.

(** A WebSocket: the messages written, and the result of each coming write. *)
Record wsocket := mk_ws { ws_msgs : list (list byte); ws_plan : list (option goerr) }.

Definition ws_write (c : wsocket) (msg : list byte) : wsocket * option goerr :=
  match ws_plan c with
  | Some e :: plan => (mk_ws (ws_msgs c) plan, Some e)
  | _ => (mk_ws (ws_msgs c ++ [msg]) (tail (ws_plan c)), None)
  end.

Definition ws_decoded (msg : list byte) : frameType * list byte :=
  match wsDecode msg with Ok f => f | Fail _ => (frameData, []) end.

#[export] Instance ws_sink : FrameSink wsocket := {
  sink_frame c typ p := ws_write c (wsEncode typ p);
  sink_seq c off p := ws_write c (wsEncodeSeq off p);
  sink_sent c := map ws_decoded (ws_msgs c);
}.

#[export] Instance ws_sink_laws : SinkLaws wsocket (fun _ => True).
Proof.
  constructor; intros c x p c' _ E; unfold sink_frame, sink_seq, ws_sink, ws_write in E;
    destruct (ws_plan c) as [|[e|] plan]; try discriminate; injection E as <-;
    (split; [exact I|]); cbn; rewrite map_app; reflexivity.
Qed.

(** The body of a streamed request or response: the frames that were handed to
    writeFrame and writeSeqFrame, in front of the writer. *)
Record hbody := mk_hbody { hb_writer : writer; hb_frames : list (frameType * list byte) }.

Definition hbody_frame (b : hbody) (typ : frameType) (p : list byte) : hbody * option goerr :=
  let '(w, err) := writeFrame (hb_writer b) typ p in
  (mk_hbody w (match err with None => hb_frames b ++ [(typ, p)] | _ => hb_frames b end), err).
Definition hbody_seq (b : hbody) (off : Z) (p : list byte) : hbody * option goerr :=
  let '(w, err) := writeSeqFrame (hb_writer b) off p in
  (mk_hbody w (match err with None => hb_frames b ++ [(frameSeqData, be_put 8 off ++ p)]
               | _ => hb_frames b end), err).

#[export] Instance hbody_sink : FrameSink hbody := {
  sink_frame := hbody_frame;
  sink_seq := hbody_seq;
  sink_sent := hb_frames;
}.

Lemma io_write_ok w data w' : io_write w data = (w', None) -> w_out w' = w_out w ++ data.
Proof.
  unfold io_write; destruct (w_plan w) as [|[[n e]|] plan]; intros E; try discriminate;
    injection E as <-; reflexivity.
Qed.

Lemma write_parts_ok w a b (skip : bool) w' :
  (skip = true -> b = []) ->
  (let '(w1, err) := io_write w a in
   match err with Some e => (w1, Some e) | None => if skip then (w1, None) else io_write w1 b end)
  = (w', None) -> w_out w' = w_out w ++ a ++ b.
Proof.
  intros Hs; destruct (io_write w a) as [w1 [e|]] eqn:E1; [discriminate|]; intros E.
  apply io_write_ok in E1; destruct skip.
  - injection E as <-; rewrite E1, (Hs eq_refl), app_nil_r; reflexivity.
  - apply io_write_ok in E; rewrite E, E1, app_assoc; reflexivity.
Qed.

(** The bytes of a body are the encoding of its frames. *)
Definition hbody_ok (b : hbody) : Prop := w_out (hb_writer b) = encode_frames (hb_frames b).

Lemma encode_frames_app fs fs' : encode_frames (fs ++ fs') = encode_frames fs ++ encode_frames fs'.
Proof. unfold encode_frames; rewrite map_app, concat_app; reflexivity. Qed.

Lemma encode_frames_cons f fs : encode_frames (f :: fs) = encode_frame f.1 f.2 ++ encode_frames fs.
Proof. reflexivity. Qed.

Lemma encode_frames_one f : encode_frames [f] = encode_frame f.1 f.2.
Proof. unfold encode_frames; cbn [map concat]; apply app_nil_r. Qed.

#[export] Instance hbody_sink_laws : SinkLaws hbody hbody_ok.
Proof.
  constructor; intros b x p b' Hok E.
  - unfold sink_frame, hbody_sink, hbody_frame in E; destruct (writeFrame (hb_writer b) x p) as [w [e|]] eqn:Ew;
      [discriminate|]; apply pair_eq in E as [<- _]; split; [|reflexivity].
    apply write_parts_ok in Ew; [|intros Hs; apply Z.eqb_eq, len_zero_iff in Hs; exact Hs].
    unfold hbody_ok in *; cbn [hb_writer hb_frames]; rewrite encode_frames_app, encode_frames_one, Ew, Hok; reflexivity.
  - unfold sink_seq, hbody_sink, hbody_seq in E; destruct (writeSeqFrame (hb_writer b) x p) as [w [e|]] eqn:Ew;
      [discriminate|]; apply pair_eq in E as [<- _]; split; [|reflexivity].
    apply write_parts_ok in Ew; [|intros Hs; apply Z.eqb_eq, len_zero_iff in Hs; exact Hs].
    unfold hbody_ok in *; cbn [hb_writer hb_frames]; rewrite encode_frames_app, encode_frames_one, Ew, Hok.
    unfold encode_frame, frame_header; cbn [fst snd]; rewrite len_app, len_be_put.
    cbn [app]; rewrite <- !app_assoc; reflexivity.
Qed.

(** ** Sending *)

Section Sending.
Context {W : Type} `{FrameSink W}.

(** The part all four sending loops share: a due ack first, then the data or,
    when the wait was not interrupted, a heartbeat. *)
Definition emit (e : endpoint) (w : W) (off : Z) (data : list byte) (interrupted : bool)
    : endpoint * W * option goerr :=
  let '(rl, due) := takeAck (ep_rl e) in
  let e := on_rl (fun _ => rl) e in
  let '(w, err) := match due with
                   | Some ack => sink_frame w frameAck (encodeOffset ack)
                   | None => (w, None)
                   end in
  match err with
  | Some err => (e, w, Some err)
  | None =>
      let '(w, err) :=
        if negb (len data =? 0) then sink_seq w off data
        else if negb interrupted then sink_frame w frameHeartbeat []
        else (w, None) in
      (e, w, err)
  end.

(** Whether a loop goes on after its turn. *)
Inductive loop_end : Type :=
| Again
| Leave (err : option goerr)
| LoopPanic.

(** A turn of a sending loop.  [onEOF] is what the loop writes when the
    session is closed, [interrupted] decides an interrupted wait ([None]: go
    on, [Some err]: leave), [final] is what it writes when [expired], its
    deadline, has passed.  nextOut reports no other error than these two. *)
Definition send_turn (onEOF : option frameType) (eofErr : option goerr)
    (interrupted : option (option goerr)) (final : option frameType) (expired : bool)
    (blen : Z) (sched : list (list pipe_event)) (e : endpoint) (w : W)
    : endpoint * W * loop_end :=
  let quiet (w : W) (typ : option frameType) :=
    match typ with Some typ => (sink_frame w typ []).1 | None => w end in
  match nextOut e blen sched with
  | None => (e, w, LoopPanic)
  | Some (e, Fail EOF, _) => (e, quiet w onEOF, Leave eofErr)
  | Some (e, r, _) =>
      let go (off : Z) (data : list byte) (intr : bool) :=
        let '(e, w, err) := emit e w off data intr in
        match err with
        | Some err => (e, w, Leave (Some err))
        | None => if expired then (e, quiet w final, Leave None) else (e, w, Again)
        end in
      match r with
      | Fail errPipeInterrupted =>
          match interrupted with
          | Some err => (e, w, Leave err)
          | None => go 0 [] true
          end
      | Fail _ => go 0 [] false
      | Ok (off, data) => go off data false
      end
  end.
End Sending.

(** pollStreamResumable: a turn first looks at the request's context. *)
Definition pollStreamResumable_turn (bufsize : Z) (ctxDone expired : bool) (a : attachments)
    (att : attachment) (sched : list (list pipe_event)) (e : endpoint) (w : hbody)
    : endpoint * hbody * loop_end :=
  if ctxDone then (e, w, Leave None)
  else send_turn (Some frameGone) None (if isCurrent a att then None else Some None)
         (Some frameEnd) expired bufsize sched e w.

(** wsWritePumpResumable. *)
Definition wsWritePumpResumable_turn (bufsize : Z) (ctxDone : bool) (a : attachments)
    (att : attachment) (sched : list (list pipe_event)) (e : endpoint) (c : wsocket)
    : endpoint * wsocket * loop_end :=
  send_turn None (Some EOF)
    (if ctxDone then Some (Some ErrCtx) else if isCurrent a att then None else Some (Some errDetached))
    None false bufsize sched e c.

(** The client's feedSendStream and wsWriteLoop. *)
Definition feedSendStream_turn (maxFrame : Z) (ctxDone expired : bool)
    (sched : list (list pipe_event)) (e : endpoint) (w : hbody) : endpoint * hbody * loop_end :=
  send_turn (Some frameEnd) None (if ctxDone then Some (Some ErrCtx) else None)
    (Some frameEnd) expired maxFrame sched e w.

Definition wsWriteLoop_turn (maxFrame : Z) (ctxDone : bool) (sched : list (list pipe_event))
    (e : endpoint) (c : wsocket) : endpoint * wsocket * loop_end :=
  send_turn None (Some EOF) (if ctxDone then Some (Some ErrCtx) else None) None false
    maxFrame sched e c.

(** ** Receiving *)

Definition recv_seq (payload : list byte) (e : endpoint) : option (endpoint * option goerr) :=
  match splitSeq payload with
  | Fail err => Some (e, Some err)
  | Ok (off, data) => recvIn e off data
  end.

Definition recv_ack (payload : list byte) (e : endpoint) : option (endpoint * option goerr) :=
  match decodeAck payload with
  | Fail err => Some (e, Some err)
  | Ok n =>
      match rel_ack (ep_rl e) n with
      | None => None
      | Some (rl, err) => Some (on_rl (fun _ => rl) e, err)
      end
  end.

(** doStreamPoll and wsReadLoop on the client: a frame of the download leg. *)
Definition doStreamPoll_frame (f : frameType * list byte) (e : endpoint)
    : option (endpoint * option goerr) :=
  let '(typ, payload) := f in
  if bool_decide (typ = frameSeqData) then recv_seq payload e
  else if bool_decide (typ = frameAck) then recv_ack payload e
  else if bool_decide (typ = frameHeartbeat) then Some (e, None)
  else if bool_decide (typ = frameEnd) then Some (e, Some errStreamEnd)
  else if bool_decide (typ = frameGone) then Some (e, Some errSessionGone)
  else Some (e, Some errBadFrame).

Definition wsReadLoop_frame (f : frameType * list byte) (e : endpoint)
    : option (endpoint * option goerr) :=
  let '(typ, payload) := f in
  if bool_decide (typ = frameSeqData) then recv_seq payload e
  else if bool_decide (typ = frameAck) then recv_ack payload e
  else if bool_decide (typ = frameHeartbeat) then Some (e, None)
  else Some (e, Some errBadFrame).

(** The answer to a stream poll: none, a status other than 200, or the body. *)
Inductive poll_reply : Type :=
| PollNone (err : goerr)
| PollStatus (status : Z)
| PollBody (body : reader).

(** The frame loop of doStreamPoll: the error it returns, which is never nil.
    A read error keeps its identity (the watchdog's cancellation included);
    [fuel] bounds the number of frames. *)
Fixpoint doStreamPoll_loop (fuel : nat) (maxFrame : Z) (body : reader) (e : endpoint)
    : option (endpoint * goerr) :=
  match fuel with
  | O => None
  | S fuel =>
      match frame_next maxFrame body with
      | (Fail EOF, _) => Some (e, errStreamEnd)
      | (Fail err, _) => Some (e, err)
      | (Ok f, body) =>
          match doStreamPoll_frame f e with
          | None => None
          | Some (e, Some err) => Some (e, err)
          | Some (e, None) => doStreamPoll_loop fuel maxFrame body e
          end
      end
  end.

Definition doStreamPoll (fuel : nat) (maxFrame : Z) (rep : poll_reply) (e : endpoint)
    : option (endpoint * goerr) :=
  match rep with
  | PollNone err => Some (e, err)
  | PollStatus status => Some (e, fatalPollError status)
  | PollBody body => doStreamPoll_loop fuel maxFrame body e
  end.

(** On the server the layer is part of the session: run [act] on it. *)
Definition on_layer {A} (act : endpoint -> option (endpoint * A)) (rs : reliable) (s : session)
    : option (session * A) :=
  match act (sess_ep s rs) with
  | None => None
  | Some (e, o) => Some (set_ep e s, o)
  end.

(** wsReadPump: a binary message that decoded; [Some err] ends the pump. *)
Definition wsReadPump_frame (f : frameType * list byte) (s : session)
    : option (session * option goerr) :=
  let '(typ, payload) := f in
  match s_rs s with
  | Some rs =>
      if bool_decide (typ = frameData) then
        on_layer (fun e => Some (on_rl markBroken e, Some errBadFrame)) rs s
      else if bool_decide (typ = frameSeqData) then on_layer (recv_seq payload) rs s
      else if bool_decide (typ = frameAck) then on_layer (recv_ack payload) rs s
      else if bool_decide (typ = frameHeartbeat) then Some (s, None)
      else Some (s, Some errBadFrame)
  | None =>
      if bool_decide (typ = frameData) then
        if 0 <? len payload then
          match writeUpstream s payload with
          | (s, Fail err) => Some (s, Some err)
          | (s, Ok _) => Some (s, None)
          end
        else Some (s, None)
      else if bool_decide (typ = frameHeartbeat) then Some (s, None)
      else Some (s, Some errBadFrame)
  end.

(** pollSendStream: a frame of an upload leg; [Some status] ends the request.
    The session is resumable iff [rs] is there, and a probe's data is
    discarded. *)
Definition upload_error (err : goerr) : Z :=
  match err with ErrClosedPipe => StatusGone | _ => StatusBadRequest end.

Definition pollSendStream_frame (probe : bool) (f : frameType * list byte) (s : session)
    : option (session * option Z) :=
  let '(typ, payload) := f in
  let resumable := match s_rs s with Some _ => negb probe | None => false end in
  let with_layer (act : endpoint -> option (endpoint * option goerr)) (status : goerr -> Z) :=
    match s_rs s with
    | None => Some (s, Some StatusBadRequest)
    | Some rs =>
        if negb resumable then Some (s, Some StatusBadRequest)
        else on_layer (fun e => option_map (prod_map id (option_map status)) (act e)) rs s
    end in
  if bool_decide (typ = frameData) then
    if (len payload =? 0) || probe then Some (s, None)
    else if resumable then
      with_layer (fun e => Some (on_rl markBroken e, Some errBadFrame)) (fun _ => StatusBadRequest)
    else match writeUpstream s payload with
         | (s, Fail _) => Some (s, Some StatusGone)
         | (s, Ok _) => Some (s, None)
         end
  else if bool_decide (typ = frameSeqData) then with_layer (recv_seq payload) upload_error
  else if bool_decide (typ = frameAck) then with_layer (recv_ack payload) (fun _ => StatusBadRequest)
  else if bool_decide (typ = frameHeartbeat) then Some (s, None)
  else if bool_decide (typ = frameEnd) then Some (s, Some StatusOK)
  else Some (s, Some StatusBadRequest).

(** The request's body, frame by frame: the status it is answered with, if it
    is answered.  [fuel] bounds the number of frames. *)
Fixpoint pollSendStream_loop (fuel : nat) (maxSend : Z) (probe : bool) (body : reader) (s : session)
    : option (session * option Z) :=
  match fuel with
  | O => None
  | S fuel =>
      match frame_next maxSend body with
      | (Fail EOF, _) => Some (s, Some StatusOK)
      | (Fail _, _) => Some (s, None)
      | (Ok f, body) =>
          match pollSendStream_frame probe f s with
          | None => None
          | Some (s, Some status) => Some (s, Some status)
          | Some (s, None) => pollSendStream_loop fuel maxSend probe body s
          end
      end
  end.

(** The handler; [attached] is whether attach gave it the upstream direction
    (Attach.v has the attach protocol). *)
Definition pollSendStream (fuel : nat) (maxSend : Z) (probe attached : bool) (body : reader)
    (s : session) : option (session * option Z) :=
  let resumable := match s_rs s with Some _ => negb probe | None => false end in
  if resumable && negb attached then Some (s, Some StatusServiceUnavailable)
  else pollSendStream_loop fuel maxSend probe body s.

(** ** The loops as runs of one end of the channel *)

Inductive side_run (wire : list packet) : side -> side -> list packet -> Prop :=
| run_nil x : side_run wire x x []
| run_cons x y z o o' :
    side_step wire x y o -> side_run wire y z o' -> side_run wire x z (o ++ o').

Lemma side_run_one wire x y o : side_step wire x y o -> side_run wire x y o.
Proof. intros; rewrite <- (app_nil_r o); econstructor; [eassumption|constructor]. Qed.

Lemma side_run_trans wire x y z o o' :
  side_run wire x y o -> side_run wire y z o' -> side_run wire x z (o ++ o').
Proof.
  induction 1 as [|x y1 y2 o1 o2 Hs _ IH]; intros Hr; [exact Hr|].
  rewrite <- app_assoc; econstructor; eauto.
Qed.

Lemma side_run_silent wire x y z o :
  side_run wire x y [] -> side_run wire y z o -> side_run wire x z o.
Proof. intros H1 H2; exact (side_run_trans _ _ _ _ _ _ H1 H2). Qed.

#[export] Hint Resolve run_nil side_run_one : pollmux.

(** What a frame means to the byte layer of the end that receives it. *)
Definition frame_packets (f : frameType * list byte) : list packet :=
  if bool_decide (f.1 = frameSeqData) then
    match splitSeq f.2 with Ok (off, d) => [PData off d] | Fail _ => [] end
  else if bool_decide (f.1 = frameAck) then
    match decodeAck f.2 with Ok n => [PAck n] | Fail _ => [] end
  else [].

Lemma frame_packets_seq off d :
  0 <= off < 2 ^ 63 -> frame_packets (frameSeqData, be_put 8 off ++ d) = [PData off d].
Proof.
  intros Ho; unfold frame_packets; cbn [fst snd]; rewrite bool_decide_true by reflexivity.
  rewrite splitSeq_encoded by (unfold is_u64; lia); reflexivity.
Qed.

Lemma frame_packets_ack n :
  0 <= n < 2 ^ 63 -> frame_packets (frameAck, encodeOffset n) = [PAck n].
Proof.
  intros Ho; unfold frame_packets; cbn [fst snd]; rewrite bool_decide_false by discriminate.
  rewrite bool_decide_true, decodeAck_encoded by (reflexivity || (unfold is_u64; lia)); reflexivity.
Qed.

(** The bytes the application writes while nextOut waits. *)
Definition nextOut_written (e : endpoint) (blen : Z) (sched : list (list pipe_event)) : list byte :=
  if has_pending (ep_rl e) then [] else accepted (ep_out e) (waited (ep_out e) blen sched).

(** *** Waiting: what happens to the pipe meanwhile are steps of the end *)

Section Waiting.
Context (wire : list packet).
Implicit Types x : side.

(** [x'] differs from [x] by silent steps that leave the layer alone, put [out]
    and [taken] in place and write [wr]. *)
Definition waits_to x x' (out : pipe) (taken wr : list byte) : Prop :=
  side_run wire x x' [] /\ sd_ep x' = mk_ep (rl x) out (ep_in (sd_ep x)) /\ sd_taken x' = taken
  /\ sd_written x' = sd_written x ++ wr /\ sd_read x' = sd_read x.

Lemma event_waits x ev :
  no_rival [ev] -> len (sd_written x) + event_volume ev < 2 ^ 63 ->
  exists x', waits_to x x' (apply_event (ep_out (sd_ep x)) ev) (sd_taken x) (accepted (ep_out (sd_ep x)) [ev])
    /\ len (sd_written x') <= len (sd_written x) + event_volume ev.
Proof.
  destruct x as [[r out inp] tk wr rd se go]; unfold waits_to, rl, no_rival;
    cbn [sd_written sd_taken sd_ep ep_out ep_rl ep_in]; intros Hn Hv.
  destruct ev as [d| | |dst|]; cbn [apply_event event_volume accepted events_labels event_labels] in *;
    try discriminate; cbn [app puts].
  - unfold accepted, pipe_Write; cbn [events_labels event_labels]; destruct (p_closed out) eqn:Hc; cbn.
    { eexists; split_and!; [constructor|reflexivity|reflexivity|rewrite app_nil_r; reflexivity|reflexivity|cbn; len_lia]. }
    eexists; split_and!; [eapply side_run_one, st_write; [cbn; unfold pipe_Write; rewrite Hc; reflexivity|]
                         |reflexivity|reflexivity|rewrite app_nil_r; reflexivity|reflexivity|]; cbn; len_lia.
  - eexists; split_and!; [apply side_run_one, st_closeOut|reflexivity|reflexivity|symmetry; apply app_nil_r|reflexivity|cbn; lia].
  - eexists; split_and!; [apply side_run_one, st_interrupt|reflexivity|reflexivity|symmetry; apply app_nil_r|reflexivity|cbn; lia].
  - eexists; split_and!; [constructor|reflexivity|reflexivity|symmetry; apply app_nil_r|reflexivity|cbn; lia].
Qed.

Lemma events_wait evs : forall x,
  no_rival evs -> len (sd_written x) + events_volume evs < 2 ^ 63 ->
  exists x', waits_to x x' (run_events (ep_out (sd_ep x)) evs) (sd_taken x) (accepted (ep_out (sd_ep x)) evs)
    /\ len (sd_written x') <= len (sd_written x) + events_volume evs.
Proof.
  unfold no_rival; induction evs as [|ev evs IH]; intros x Hn Hv.
  - exists x; split; [|cbn; lia].
    split_and!; [constructor|destruct x as [[] ? ? ? ? ?]; reflexivity|reflexivity|symmetry; apply app_nil_r|reflexivity].
  - rewrite events_volume_cons in *; cbn in Hn; apply orb_false_iff in Hn as [He Hn].
    pose proof (events_volume_nonneg evs).
    destruct (event_waits x ev) as (y & (Hr & Hy & Ht & Hwr & Hrd) & Hw);
      [unfold no_rival; cbn; rewrite He; reflexivity|lia|].
    destruct (IH y Hn ltac:(lia)) as (z & (Hr' & Hz & Ht' & Hwr' & Hrd') & Hw').
    exists z; split; [|lia]; split_and!; [eapply side_run_silent; eassumption| |congruence| |congruence].
    + rewrite Hz; unfold rl; rewrite Hy; reflexivity.
    + rewrite Hwr', Hwr, Hy, (accepted_cons _ ev evs), app_assoc; reflexivity.
Qed.

Lemma read_waits x blen sched out r rest :
  sd_taken x = [] -> 0 < blen -> no_rival (concat sched) ->
  len (sd_written x) + events_volume (concat sched) < 2 ^ 63 ->
  ReadAvailable (ep_out (sd_ep x)) blen sched = (out, r, rest) ->
  exists x', waits_to x x' out (match r with Ok d => d | Fail _ => [] end)
    (accepted (ep_out (sd_ep x)) (waited (ep_out (sd_ep x)) blen sched)).
Proof.
  intros Ht Hb Hn Hv E.
  destruct (ReadAvailable_unfolds (ep_out (sd_ep x)) blen sched) as (used & p1 & Hs & Hp & Hr).
  rewrite E in Hs, Hr; cbn [fst snd] in Hs, Hr; subst sched.
  rewrite waited_used by (rewrite E; reflexivity).
  rewrite concat_app in *; rewrite events_volume_app in Hv.
  unfold no_rival in Hn; rewrite existsb_app in Hn; apply orb_false_iff in Hn as [Hn _].
  pose proof (events_volume_nonneg (concat rest)).
  destruct (events_wait (concat used) x Hn ltac:(lia)) as (y & (Hrun & Hy & Hty & Hwr & Hrd) & _).
  rewrite <- Hp in Hy; rewrite Ht in Hty.
  destruct Hr as [(E1 & Hi)|[(E1 & _)|[(E1 & _)|E1]]]; injection E1 as -> ->.
  - exists (with_ep (mk_ep (rl y) (set_intr false p1) (ep_in (sd_ep y))) y); split_and!.
    + eapply side_run_silent; [exact Hrun|]; apply side_run_one.
      eapply st_take_fail; [exact Hb|exact Hty|].
      rewrite Hy; cbn [ep_out]; unfold ReadAvailable; rewrite Hi; reflexivity.
    + unfold rl; rewrite Hy; reflexivity.
    + exact Hty.
    + exact Hwr.
    + exact Hrd.
  - exists y; split_and!; auto.
  - exists y; split_and!; auto.
  - eexists; split_and!.
    + eapply side_run_silent; [exact Hrun|]; apply side_run_one.
      eapply st_take; [exact Hb|exact Hty|apply coalesce_now].
    + unfold rl; rewrite Hy; reflexivity.
    + rewrite Hy; reflexivity.
    + exact Hwr.
    + exact Hrd.
Qed.
End Waiting.

(** *** Sending *)

Definition data_packets (off : Z) (data : list byte) : list packet :=
  if negb (len data =? 0) then [PData off data] else [].

Lemma data_packets_cons off b d : data_packets off (b :: d) = [PData off (b :: d)].
Proof.
  unfold data_packets; destruct (Z.eqb_spec (len (b :: d)) 0) as [H|H]; [|reflexivity].
  apply len_zero_iff in H; discriminate.
Qed.

Section Refinement.
Context {W : Type} {sink : FrameSink W} (ok : W -> Prop) {laws : SinkLaws W ok}
        (wire : list packet).
Implicit Types (x : side) (w : W).

Definition offset_ok (n : Z) : Prop := 0 <= n < 2 ^ 63.

(** The histories of the application's calls after a run. *)
Definition history x x' (wr : list byte) : Prop :=
  sd_written x' = sd_written x ++ wr /\ sd_read x' = sd_read x.

Lemma nextOut_refines x blen sched :
  side_inv x -> sd_taken x = [] -> 0 < blen -> no_rival (concat sched) ->
  len (sd_written x) + events_volume (concat sched) < 2 ^ 63 ->
  exists x' r rest,
    nextOut (sd_ep x) blen sched = Some (sd_ep x', r, rest) /\ sd_taken x' = []
    /\ recvOffset (rl x') = recvOffset (rl x) /\ history x x' (nextOut_written (sd_ep x) blen sched)
    /\ match r with
       | Ok (off, d) => side_run wire x x' (data_packets off d) /\ offset_ok off
       | Fail _ => side_run wire x x' []
       end.
Proof.
  intros Hx Ht Hb Hn Hv; pose proof (si_rel _ Hx) as Hr; pose proof Hr as [].
  unfold nextOut, nextOut_written, history; fold (rl x); destruct (has_pending (rl x)) eqn:Hp.
  - destruct (pending_out_spec _ _ _ blen Hr Hp Hb) as (E & Hc & _ & _); rewrite E.
    set (chunk := copied blen _) in *; destruct chunk as [|b l] eqn:Hch; [congruence|].
    eexists (with_rl _ x), (Ok (sentCursor (rl x), _)), _;
      split_and!; [reflexivity|exact Ht|reflexivity|symmetry; apply app_nil_r|reflexivity| |unfold offset_ok; lia].
    rewrite data_packets_cons; apply side_run_one; eapply st_pending; [exact Hb|exact Hp|exact E].
  - destruct (ReadAvailable (ep_out (sd_ep x)) blen sched) as [[out r] rest] eqn:E.
    destruct (read_waits wire x blen sched out r rest Ht Hb Hn Hv E) as (y & Hrun & Hy & Hty & Hwr & Hrd).
    destruct r as [[|b d]|err]; cbn [fst snd] in *.
    + exists y, (Ok (0, [])), rest; rewrite Hy; split_and!; auto; [unfold rl; rewrite Hy; reflexivity|unfold offset_ok; lia].
    + destruct (number_out (rl x) (b :: d)) as [r' off] eqn:En.
      assert (Ho : off = sendOffset (rl x) /\ recvOffset r' = recvOffset (rl x)).
      { unfold number_out in En; repeat case_if_in En; injection En as <- <-; auto. }
      destruct Ho as [-> Hrv].
      eexists (mk_side _ [] _ _ _ _), (Ok (_, _)), _; split_and!.
      6: { rewrite data_packets_cons; eapply side_run_silent; [exact Hrun|].
           apply side_run_one; rewrite <- Hty; eapply st_number; [congruence|].
           unfold rl; rewrite Hy, Hty; exact En. }
      * rewrite Hy; reflexivity.
      * reflexivity.
      * exact Hrv.
      * exact Hwr.
      * exact Hrd.
      * unfold offset_ok; lia.
    + exists y, (Fail err), rest; rewrite Hy; split_and!; auto; unfold rl; rewrite Hy; reflexivity.
Qed.

(** A finished write puts on the wire what the packets say. *)
Lemma emit_refines x w off data intr :
  sd_taken x = [] -> offset_ok (recvOffset (rl x)) -> offset_ok off -> ok w ->
  exists x' w' err acks,
    emit (sd_ep x) w off data intr = (sd_ep x', w', err) /\ sd_taken x' = [] /\ history x x' []
    /\ side_run wire x x' acks
    /\ (err = None -> ok w' /\ exists fs, sink_sent w' = sink_sent w ++ fs
          /\ flat_map frame_packets fs = acks ++ data_packets off data).
Proof.
  intros Ht Hrv Ho Hw; unfold emit; fold (rl x).
  (* the write after the ack *)
  assert (Hdata : forall w1 (e1 : endpoint), ok w1 -> exists w' err,
    (let '(w', err) := if negb (len data =? 0) then sink_seq w1 off data
                       else if negb intr then sink_frame w1 frameHeartbeat [] else (w1, None) in
     (e1, w', err)) = (e1, w', err)
    /\ (err = None -> ok w' /\ exists fs, sink_sent w' = sink_sent w1 ++ fs
          /\ flat_map frame_packets fs = data_packets off data)).
  { intros w1 e1 Hw1; unfold data_packets; destruct (negb (len data =? 0)).
    - destruct (sink_seq w1 off data) as [w' err] eqn:E; exists w', err; split; [reflexivity|].
      intros ->; destruct (sink_seq_law _ _ _ _ Hw1 E) as [Hok ->]; split; [exact Hok|].
      eexists; split; [reflexivity|]; cbn [flat_map]; rewrite frame_packets_seq by exact Ho; reflexivity.
    - destruct intr; cbn [negb].
      + exists w1, None; split; [reflexivity|]; intros _; split; [exact Hw1|].
        exists []; rewrite app_nil_r; auto.
      + destruct (sink_frame w1 frameHeartbeat []) as [w' err] eqn:E; exists w', err; split; [reflexivity|].
        intros ->; destruct (sink_frame_law _ _ _ _ Hw1 E) as [Hok ->]; split; [exact Hok|].
        eexists; split; reflexivity. }
  destruct (takeAck (rl x)) as [r due] eqn:Ea.
  assert (Hdue : due = None /\ r = rl x \/ due = Some (recvOffset (rl x)))
    by (unfold takeAck in Ea; case_if_in Ea; injection Ea as <- <-; auto).
  destruct Hdue as [[-> ->] | ->].
  - destruct (Hdata w (on_rl (fun _ => rl x) (sd_ep x)) Hw) as (w' & err & -> & Hok).
    exists x, w', err, []; split_and!; auto using run_nil; [|split; [symmetry; apply app_nil_r|reflexivity]].
    unfold on_rl, rl; destruct (sd_ep x); reflexivity.
  - destruct (sink_frame w frameAck (encodeOffset (recvOffset (rl x)))) as [w1 [e|]] eqn:E1.
    + exists (with_rl r x), w1, (Some e), [PAck (recvOffset (rl x))].
      split_and!; auto; [split; [symmetry; apply app_nil_r|reflexivity]|apply side_run_one, st_takeAck, Ea|discriminate].
    + destruct (sink_frame_law _ _ _ _ Hw E1) as [Hw1 Es].
      destruct (Hdata w1 (on_rl (fun _ => r) (sd_ep x)) Hw1) as (w' & err & -> & Hok).
      exists (with_rl r x), w', err, [PAck (recvOffset (rl x))].
      split_and!; auto; [split; [symmetry; apply app_nil_r|reflexivity]|apply side_run_one, st_takeAck, Ea|].
      intros He; destruct (Hok He) as (Hw' & fs & Hs & Hp); split; [exact Hw'|].
      exists ((frameAck, encodeOffset (recvOffset (rl x))) :: fs).
      rewrite Hs, Es, <- app_assoc; split; [reflexivity|].
      cbn [flat_map]; rewrite Hp, frame_packets_ack by exact Hrv; reflexivity.
Qed.

(** A turn of a sending loop as steps of the end: it does not panic; whatever
    it did to the byte layer is a run of the channel's end; and when the loop
    goes on, the frames it added carry exactly what that run sent. *)
Definition turn_refines x w (turn : endpoint * W * loop_end) : Prop :=
  exists x' out w' r,
    turn = (sd_ep x', w', r) /\ r <> LoopPanic /\ sd_taken x' = []
    /\ side_run wire x x' out
    /\ (r = Again -> ok w' /\ exists fs, sink_sent w' = sink_sent w ++ fs
          /\ flat_map frame_packets fs ≡ₚ out).

Lemma send_turn_refines onEOF eofErr interrupted final expired blen sched x w :
  side_inv x -> sd_taken x = [] -> 0 < blen -> no_rival (concat sched) ->
  len (sd_written x) + events_volume (concat sched) < 2 ^ 63 -> ok w ->
  turn_refines x w (send_turn onEOF eofErr interrupted final expired blen sched (sd_ep x) w).
Proof.
  intros Hx Ht Hb Hn Hv Hw; unfold send_turn.
  destruct (nextOut_refines x blen sched Hx Ht Hb Hn Hv) as (y & r & rest & -> & Hty & Hrv & Hh & Hr).
  assert (Hrec : offset_ok (recvOffset (rl y)))
    by (rewrite Hrv; destruct (si_rel _ Hx); unfold offset_ok; lia).
  set (quiet := fun (w : W) (typ : option frameType) =>
    match typ with Some typ => (sink_frame w typ []).1 | None => w end).
  assert (Hgo : forall off data intr, side_run wire x y (data_packets off data) -> offset_ok off ->
    turn_refines x w
      (let '(e, w, err) := emit (sd_ep y) w off data intr in
       match err with
       | Some err => (e, w, Leave (Some err))
       | None => if expired then (e, quiet w final, Leave None) else (e, w, Again)
       end)).
  { intros off data intr Hrun Ho.
    destruct (emit_refines y w off data intr Hty Hrec Ho Hw) as (z & w' & err & acks & -> & Htz & _ & Hz & Hok).
    pose proof (side_run_trans _ _ _ _ _ _ Hrun Hz) as Hall; unfold turn_refines.
    destruct err as [err|]; [|destruct expired];
      (eexists z, _, _, _; split; [reflexivity|]; split_and!; [discriminate|exact Htz|exact Hall|]);
      try discriminate.
    intros _; destruct (Hok eq_refl) as (Hw' & fs & Hs & Hp); split; [exact Hw'|].
    exists fs; split; [exact Hs|]; rewrite Hp; apply Permutation_app_comm. }
  assert (Hleave : forall w' err, side_run wire x y [] -> turn_refines x w (sd_ep y, w', Leave err)).
  { intros w' err Hrun; exists y, [], w', (Leave err); split_and!; auto; discriminate. }
  assert (H0 : offset_ok 0) by (unfold offset_ok; lia).
  destruct r as [[off data]|err]; [destruct Hr; apply Hgo; assumption|].
  destruct err; try (apply (Hgo 0 [] false); assumption); try (apply Hleave; assumption).
  destruct interrupted; [apply Hleave; assumption|apply (Hgo 0 [] true); assumption].
Qed.
End Refinement.

(** *** Receiving *)

Lemma sess_ep_set e s : sess_ep (set_ep e s) (ep_rl e) = e.
Proof. destruct e; reflexivity. Qed.

Section Receiving.
Context (wire : list packet) (P Q : list byte) (x : side).
Context (Hx : side_inv x) (Hwire : Forall (packet_true P Q) wire) (HP : len P < 2 ^ 63).

(** Handling a frame does not panic and is a silent run of the end. *)
Definition act_refines (act : endpoint -> option (endpoint * option goerr)) : Prop :=
  exists x' err, act (sd_ep x) = Some (sd_ep x', err)
    /\ sd_taken x' = sd_taken x /\ side_run wire x x' [].

Lemma act_error err : act_refines (fun e => Some (e, err)).
Proof. exists x, err; split_and!; auto with pollmux. Qed.

Lemma act_broken err : act_refines (fun e => Some (on_rl markBroken e, err)).
Proof.
  exists (with_rl (markBroken (rl x)) x), err; split_and!; [reflexivity..|].
  apply side_run_one, st_markBroken.
Qed.

Definition on_wire (f : frameType * list byte) : Prop :=
  forall p, In p (frame_packets f) -> In p wire.

Lemma recv_seq_refines payload :
  on_wire (frameSeqData, payload) -> act_refines (recv_seq payload).
Proof.
  unfold on_wire, frame_packets; cbn [fst snd]; rewrite bool_decide_true by reflexivity; intros Hin.
  unfold recv_seq, act_refines; destruct (splitSeq payload) as [[off d]|err];
    [|destruct (act_error (Some err)) as (y & e' & E & ?); injection E as -> ->; eauto].
  pose proof (wire_true _ _ _ Hwire _ (Hin _ (or_introl eq_refl))) as Htrue.
  pose proof (packet_data_end _ _ _ _ Htrue) as Hend; destruct Htrue as [Ho _].
  destruct (recvIn_spec _ _ (sd_ep x) off d (si_rel _ Hx) Ho ltac:(intros; lia)) as (e & err & E & _).
  rewrite E; eexists (mk_side e _ _ _ _ _), err; split_and!; [reflexivity| |].
  2: { apply side_run_one; eapply st_recv; [apply Hin; left; reflexivity|exact E]. }
  reflexivity.
Qed.

Lemma recv_ack_refines payload :
  on_wire (frameAck, payload) -> act_refines (recv_ack payload).
Proof.
  unfold on_wire, frame_packets; cbn [fst snd]; rewrite bool_decide_false by discriminate.
  rewrite bool_decide_true by reflexivity; intros Hin.
  unfold recv_ack, act_refines; destruct (decodeAck payload) as [n|err];
    [|destruct (act_error (Some err)) as (y & e' & E & ?); injection E as -> ->; eauto].
  pose proof (wire_true _ _ _ Hwire _ (Hin _ (or_introl eq_refl))) as [Hn _].
  destruct (rel_ack_spec _ _ _ n (si_rel _ Hx) Hn) as (r & err & E & _).
  fold (rl x); rewrite E; exists (with_rl r x), err; split_and!; [reflexivity..|].
  apply side_run_one; eapply st_ack; [apply Hin; left; reflexivity|exact E].
Qed.

(** What the two client loops do with the numbered frames and the others. *)
Lemma frame_cases_refine typ payload (act : endpoint -> option (endpoint * option goerr)) :
  on_wire (typ, payload) -> act_refines act ->
  act_refines (fun e => if bool_decide (typ = frameSeqData) then recv_seq payload e
                        else if bool_decide (typ = frameAck) then recv_ack payload e
                        else act e).
Proof.
  intros Hin Hact; destruct (decide (typ = frameSeqData)) as [->|Hs].
  { rewrite bool_decide_true by reflexivity; apply recv_seq_refines, Hin. }
  rewrite bool_decide_false by exact Hs; destruct (decide (typ = frameAck)) as [->|Ha].
  { rewrite bool_decide_true by reflexivity; apply recv_ack_refines, Hin. }
  rewrite bool_decide_false by exact Ha; exact Hact.
Qed.

Lemma doStreamPoll_frame_refines f : on_wire f -> act_refines (doStreamPoll_frame f).
Proof.
  destruct f as [typ payload]; intros Hin; apply frame_cases_refine; [exact Hin|].
  repeat case_if; apply act_error.
Qed.

Lemma wsReadLoop_frame_refines f : on_wire f -> act_refines (wsReadLoop_frame f).
Proof.
  destruct f as [typ payload]; intros Hin; apply frame_cases_refine; [exact Hin|].
  repeat case_if; apply act_error.
Qed.

(** The same on the server, whose end of the channel is the session's. *)
Definition sess_refines {A} (result : option (session * A)) : Prop :=
  exists x' s' o, result = Some (s', o)
    /\ s_rs s' = Some (rl x') /\ sess_ep s' (rl x') = sd_ep x'
    /\ sd_taken x' = sd_taken x /\ side_run wire x x' [].

Section Server.
Context (s : session) (Hrs : s_rs s = Some (rl x)) (Hep : sess_ep s (rl x) = sd_ep x).

Lemma sess_error {A} (o : A) : sess_refines (Some (s, o)).
Proof. exists x, s, o; split_and!; auto with pollmux. Qed.

Lemma on_layer_refines {A} (f : option goerr -> A) act :
  act_refines act ->
  sess_refines (on_layer (fun e => option_map (prod_map id f) (act e)) (rl x) s).
Proof.
  intros (x' & err & E & Ht & Hr); exists x', (set_ep (sd_ep x') s), (f err).
  unfold on_layer; rewrite Hep, E; split_and!; auto; apply sess_ep_set.
Qed.

Lemma on_layer_refines_id act :
  act_refines act -> sess_refines (on_layer act (rl x) s).
Proof.
  intros (x' & err & E & Ht & Hr); exists x', (set_ep (sd_ep x') s), err.
  unfold on_layer; rewrite Hep, E; split_and!; auto; apply sess_ep_set.
Qed.

Lemma wsReadPump_frame_refines f : on_wire f -> sess_refines (wsReadPump_frame f s).
Proof.
  destruct f as [typ payload]; intros Hin; unfold wsReadPump_frame; rewrite Hrs.
  repeat case_bool_decide; subst; try apply sess_error.
  - apply (on_layer_refines_id _ (act_broken _)).
  - apply on_layer_refines_id, recv_seq_refines, Hin.
  - apply on_layer_refines_id, recv_ack_refines, Hin.
Qed.

Lemma pollSendStream_frame_refines f : on_wire f -> sess_refines (pollSendStream_frame false f s).
Proof.
  destruct f as [typ payload]; intros Hin; unfold pollSendStream_frame; rewrite Hrs.
  cbn [negb]; repeat case_bool_decide; subst; try apply sess_error.
  - case_if; [apply sess_error|apply (on_layer_refines _ _ (act_broken _))].
  - apply on_layer_refines, recv_seq_refines, Hin.
  - apply on_layer_refines, recv_ack_refines, Hin.
Qed.
End Server.
End Receiving.

(** *** The upload stream of a request *)

Definition seq_frame (c : Z * list byte) : frameType * list byte :=
  (frameSeqData, be_put 8 c.1 ++ c.2).

Lemma contiguous_u64 chunks : forall off,
  contiguous off chunks -> 0 <= off -> off + len (concat (map snd chunks)) < 2 ^ 63 ->
  Forall (fun c => is_u64 c.1) chunks.
Proof.
  induction chunks as [|[o d] chunks IH]; intros off Hc Ho Hm; [constructor|].
  destruct Hc as [-> Hc]; cbn in Hm; rewrite len_app in Hm.
  pose proof (len_nonneg (concat (map snd chunks))); pose proof (len_nonneg d).
  constructor; [unfold is_u64; cbn; lia|eapply IH; [exact Hc|lia|lia]].
Qed.

Lemma set_ep_set e e' s : set_ep e' (set_ep e s) = set_ep e' s.
Proof. reflexivity. Qed.

Lemma upload_chunk s rs off d e :
  s_rs s = Some rs -> is_u64 off -> recvIn (sess_ep s rs) off d = Some (e, None) ->
  pollSendStream_frame false (seq_frame (off, d)) s = Some (set_ep e s, None).
Proof.
  intros Hrs Ho E; unfold pollSendStream_frame, seq_frame, recv_seq; cbn [fst snd].
  rewrite Hrs, bool_decide_false, bool_decide_true by (reflexivity || discriminate).
  cbn [negb]; unfold on_layer; rewrite splitSeq_encoded, E by exact Ho; reflexivity.
Qed.

Lemma upload_chunks maxSend rest chunks : 0 <= maxSend ->
  forall fuel s rs body e, s_rs s = Some rs ->
  deliver (sess_ep s rs) chunks = Some (e, None) ->
  Forall (fun c => is_u64 c.1) chunks -> Forall (frame_ok maxSend) (map seq_frame chunks) ->
  r_bytes body = encode_frames (map seq_frame chunks ++ [(frameEnd, [])]) ++ rest ->
  (length chunks < fuel)%nat ->
  exists s', pollSendStream_loop fuel maxSend false body s = Some (s', Some StatusOK)
    /\ s_rs s' = Some (ep_rl e) /\ sess_ep s' (ep_rl e) = e.
Proof.
  intros Hms; induction chunks as [|[off d] chunks IH]; intros fuel s rs body e Hrs Hd Hu Hf Hb Hl.
  - injection Hd as <-; destruct fuel as [|fuel]; [cbn in Hl; lia|]; cbn [map app] in Hb.
    rewrite encode_frames_one in Hb.
    destruct (frame_next_encoded maxSend _ _ _ _ Hb) as (r & E & _); [split; [vm_compute; reflexivity|exact Hms]|].
    cbn [pollSendStream_loop]; rewrite E; exists s; split_and!; auto.
  - destruct fuel as [|fuel]; [cbn in Hl; lia|].
    apply Forall_cons in Hu as [Ho Hu]; cbn [map] in Hf, Hb; apply Forall_cons in Hf as [Hf1 Hf].
    cbn [deliver] in Hd; destruct (recvIn (sess_ep s rs) off d) as [[e1 [err|]]|] eqn:E1; try discriminate.
    cbn [app] in Hb; rewrite encode_frames_cons, <- app_assoc in Hb.
    destruct (frame_next_encoded maxSend _ _ _ _ Hb Hf1) as (r & E & Hr & _).
    cbn [pollSendStream_loop]; rewrite E, <- surjective_pairing.
    rewrite (upload_chunk s rs off d e1 Hrs Ho E1).
    apply (IH fuel (set_ep e1 s) (ep_rl e1) r e); auto; [rewrite sess_ep_set; exact Hd|cbn in Hl; lia].
Qed.

(** *** The body of a stream poll *)

Definition poll_frame (item : option (Z * list byte)) : frameType * list byte :=
  match item with Some c => seq_frame c | None => (frameHeartbeat, []) end.
Definition poll_chunks (items : list (option (Z * list byte))) : list (Z * list byte) :=
  omap id items.

Lemma poll_frames maxFrame items :
  forall fuel body e e' p, deliver e (poll_chunks items) = Some (e', None) ->
  Forall (fun c => is_u64 c.1) (poll_chunks items) ->
  Forall (frame_ok maxFrame) (map poll_frame items) ->
  r_bytes body = encode_frames (map poll_frame items) ++ p ->
  (forall r, r_bytes r = p -> exists err, (frame_next maxFrame r).1 = Fail err) ->
  (length items < fuel)%nat ->
  exists err, doStreamPoll_loop fuel maxFrame body e = Some (e', err).
Proof.
  induction items as [|item items IH]; intros fuel body e e' p Hd Hu Hf Hb Hp Hl;
    (destruct fuel as [|fuel]; [cbn in Hl; lia|]); cbn [doStreamPoll_loop].
  - injection Hd as <-; destruct (Hp body Hb) as [err E].
    destruct (frame_next maxFrame body) as [r rest]; cbn in E; subst r; destruct err; eauto.
  - cbn [map] in Hf, Hb; apply Forall_cons in Hf as [Hf1 Hf].
    rewrite encode_frames_cons, <- app_assoc in Hb.
    destruct (frame_next_encoded maxFrame _ _ _ _ Hb) as (r & E & Hr & _);
      [rewrite <- surjective_pairing; exact Hf1|].
    rewrite E, <- surjective_pairing; cbn in Hl; destruct item as [[off d]|]; cbn [poll_frame].
    + change (poll_chunks (Some (off, d) :: items)) with ((off, d) :: poll_chunks items) in Hd, Hu.
      apply Forall_cons in Hu as [Ho Hu]; cbn [fst] in Ho; cbn [deliver] in Hd.
      assert (Es : doStreamPoll_frame (seq_frame (off, d)) e = recvIn e off d).
      { unfold doStreamPoll_frame, seq_frame, recv_seq; cbn [fst snd].
        rewrite bool_decide_true by reflexivity; rewrite splitSeq_encoded by exact Ho; reflexivity. }
      rewrite Es; destruct (recvIn e off d) as [[e1 [err|]]|]; try discriminate.
      eapply IH; eauto; lia.
    + change (doStreamPoll_frame (frameHeartbeat, []) e) with (Some (e, @None goerr)).
      eapply IH; eauto; lia.
Qed.

(** A handler between attach and detach owns a direction. *)
Lemma running_is_current s i att got :
  rtc astep new_asys s -> as_threads s !! i = Some (TRunning att got) ->
  isCurrent (as_att s) att = true.
Proof.
  intros Hs Hi; apply asys_reachable_inv in Hs as [Hown _].
  destruct (oi_want _ _ Hown _ _ Hi) as [Hb Hg]; destruct got as [|k got]; [congruence|].
  assert (Hk : k <> attachBoth) by (intros ->; apply Hb; left).
  assert (Hsl : slot (as_att s) k = Some att)
    by (apply (oi_own _ _ Hown); [exact Hk|]; do 3 eexists; split_and!; [exact Hi|reflexivity|left]).
  unfold isCurrent; apply orb_true_iff; rewrite !bool_decide_eq_true.
  destruct k; cbn in Hsl; [left|right|congruence]; exact Hsl.
Qed.

(** ** Properties *)

(** The four sending loops of a resumable session refine the channel.  One
    turn of the server's streamed poll or WebSocket write pump, or of the
    client's upload stream or WebSocket write loop, never panics; whatever
    happens to the outbound pipe while it waits, its effect on the byte layer
    is a run of one end of the channel of Channel.v; and when the loop goes on,
    the frames it added decode to exactly what that run put on the wire. *)
Theorem sending_loops_refine_channel wire x b c blen a att ctxDone expired sched :
  side_inv x -> sd_taken x = [] -> 0 < blen -> no_rival (concat sched) ->
  len (sd_written x) + events_volume (concat sched) < 2 ^ 63 -> hbody_ok b ->
  turn_refines hbody_ok wire x b
    (pollStreamResumable_turn blen ctxDone expired a att sched (sd_ep x) b)
  /\ turn_refines (fun _ => True) wire x c
       (wsWritePumpResumable_turn blen ctxDone a att sched (sd_ep x) c)
  /\ turn_refines hbody_ok wire x b (feedSendStream_turn blen ctxDone expired sched (sd_ep x) b)
  /\ turn_refines (fun _ => True) wire x c (wsWriteLoop_turn blen ctxDone sched (sd_ep x) c).
Proof.
  intros Hx Ht Hb Hn Hv Hok; unfold pollStreamResumable_turn.
  split_and!; [destruct ctxDone|..];
    [|apply send_turn_refines; auto; typeclasses eauto..].
  exists x, [], b, (Leave None); split_and!; auto with pollmux; discriminate.
Qed.

(** The receiving loops refine the channel.  A frame that carries only what
    the peer put on the wire, handled by the client's stream poll or WebSocket
    read loop, or by the server's WebSocket read pump or upload stream, never
    panics, and its effect on the byte layer is a run of one end of the channel:
    nothing enters the stream, and nothing leaves the replay buffer, by another
    way. *)
Theorem receiving_loops_refine_channel wire P Q x s f :
  side_inv x -> Forall (packet_true P Q) wire -> len P < 2 ^ 63 -> on_wire wire f ->
  s_rs s = Some (rl x) -> sess_ep s (rl x) = sd_ep x ->
  act_refines wire x (doStreamPoll_frame f) /\ act_refines wire x (wsReadLoop_frame f)
  /\ sess_refines wire x (wsReadPump_frame f s)
  /\ sess_refines wire x (pollSendStream_frame false f s).
Proof.
  intros Hx Hw HP Hf Hrs Hep; split_and!; [eapply doStreamPoll_frame_refines
    |eapply wsReadLoop_frame_refines|eapply wsReadPump_frame_refines
    |eapply pollSendStream_frame_refines]; eassumption.
Qed.

(** An upload stream delivers.  A request whose body holds numbered frames
    that continue what the session has received, then frameEnd, cut into reads
    in any way, is answered 200 (the loop needs one turn per frame), and the
    session's upstream pipe has gained exactly their bytes, in order. *)
Theorem upload_stream_delivers fuel maxSend chunks rest sent got s rs body :
  0 <= maxSend -> s_rs s = Some rs -> rel_inv sent got rs -> p_closed (s_toServer s) = false ->
  contiguous (len got) chunks -> len got + len (concat (map snd chunks)) < 2 ^ 63 ->
  Forall (frame_ok maxSend) (map seq_frame chunks) ->
  r_bytes body = encode_frames (map seq_frame chunks ++ [(frameEnd, [])]) ++ rest ->
  (length chunks < fuel)%nat ->
  exists s' rs', pollSendStream fuel maxSend false true body s = Some (s', Some StatusOK)
    /\ p_buf (s_toServer s') = p_buf (s_toServer s) ++ concat (map snd chunks)
    /\ s_rs s' = Some rs' /\ rel_inv sent (got ++ concat (map snd chunks)) rs'
    /\ isBroken rs' = isBroken rs.
Proof.
  intros Hms Hrs Hinv Hcl Hc Hm Hf Hb Hl.
  destruct (deliver_spec sent chunks (sess_ep s rs) got Hinv Hcl Hc Hm) as (e & Hd & Hr & Hbuf & Hbr & _).
  destruct (upload_chunks maxSend rest chunks Hms fuel s rs body e) as (s' & E & Hrs' & Hep); auto.
  { eapply contiguous_u64; [exact Hc|apply len_nonneg|lia]. }
  exists s', (ep_rl e); unfold pollSendStream; rewrite Hrs; split_and!; auto.
  change (s_toServer s') with (ep_in (sess_ep s' (ep_rl e))); rewrite Hep; exact Hbuf.
Qed.

(** A stream poll delivers exactly what arrived.  When the body holds
    numbered frames that continue what the client has, mixed with heartbeats,
    and then breaks off anywhere inside the next frame (or ends), with whatever
    error and however it is cut into reads, the poll returns and the client's
    inbound pipe has gained exactly the bytes of the complete frames; the torn
    frame adds nothing and breaks nothing. *)
Theorem stream_poll_delivers fuel maxFrame items typ payload p q sent got e body :
  rel_inv sent got (ep_rl e) -> p_closed (ep_in e) = false ->
  contiguous (len got) (poll_chunks items) ->
  len got + len (concat (map snd (poll_chunks items))) < 2 ^ 63 ->
  Forall (frame_ok maxFrame) (map poll_frame items) -> frame_ok maxFrame (typ, payload) ->
  encode_frame typ payload = p ++ q -> q <> [] ->
  r_bytes body = encode_frames (map poll_frame items) ++ p -> (length items < fuel)%nat ->
  exists e' err, doStreamPoll fuel maxFrame (PollBody body) e = Some (e', err)
    /\ p_buf (ep_in e') = p_buf (ep_in e) ++ concat (map snd (poll_chunks items))
    /\ rel_inv sent (got ++ concat (map snd (poll_chunks items))) (ep_rl e')
    /\ isBroken (ep_rl e') = isBroken (ep_rl e).
Proof.
  intros Hinv Hcl Hc Hm Hf Hok He Hq Hb Hl.
  destruct (deliver_spec sent (poll_chunks items) e got Hinv Hcl Hc Hm) as (e' & Hd & Hr & Hbuf & Hbr & _).
  destruct (poll_frames maxFrame items fuel body e e' p) as [err E]; auto.
  - eapply contiguous_u64; [exact Hc|apply len_nonneg|lia].
  - intros r Hr'; eexists; exact (frame_next_prefix maxFrame typ payload p q r Hok He Hq Hr').
  - exists e', err; split_and!; auto.
Qed.

(** C38: a replaced stream poll does not notice its kick.  In every reachable
    state of the attachments the handler that is running owns its direction,
    kicked or not, so isCurrent never tells it to leave: a turn that the kick's
    interrupt woke, with no replay pending and no acknowledgement due, writes
    nothing and waits again, for up to a heartbeat interval. *)
Theorem kicked_idle_stream_stays s i att got bufsize sched e w :
  rtc astep new_asys s -> as_threads s !! i = Some (TRunning att got) ->
  has_pending (ep_rl e) = false -> recvOffset (ep_rl e) = lastAck (ep_rl e) ->
  p_intr (ep_out e) = false ->
  pollStreamResumable_turn bufsize false false (kick (as_att s) att) att sched (interruptOut e) w
  = (e, w, Again).
Proof.
  intros Hs Hi Hp Ha Hint; unfold pollStreamResumable_turn.
  change (isCurrent (kick (as_att s) att) att) with (isCurrent (as_att s) att).
  rewrite (running_is_current s i att got Hs Hi).
  destruct e as [r [buf cl hw wt wd lg it] inp]; cbn in Hp, Ha, Hint; subst it.
  unfold send_turn, nextOut, interruptOut; cbn [ep_rl ep_out ep_in]; rewrite Hp.
  unfold emit, takeAck; cbn -[Z.eqb]; rewrite Ha, Z.eqb_refl; reflexivity.
Qed.

(** ** Witnesses *)

(** An end with one byte to send. *)
Definition ex_side : side :=
  mk_side (mk_ep (newReliable 16) (pipe_Write NewBufferedPipe [Byte.x41]).1.1 NewBufferedPipe)
    [] [Byte.x41] [] [] [].

Lemma ex_side_inv : side_inv ex_side.
Proof. constructor; [apply inv_new|reflexivity|reflexivity|vm_compute; reflexivity]. Defined.

Definition ex_body : hbody := mk_hbody (mk_writer [] []) [].

(** The frame that byte travels in. *)
Example ex_poll_frame :
  (pollStreamResumable_turn 16 false false newAttachments 0%nat [] (sd_ep ex_side) ex_body).1.2
  = mk_hbody (mk_writer (encode_seq 0 [Byte.x41]) []) [seq_frame (0, [Byte.x41])].
Proof. vm_compute; reflexivity. Qed.

Lemma sending_loops_refine_channel_witness :
  turn_refines hbody_ok [] ex_side ex_body
    (feedSendStream_turn 16 false false [[EvWrite [Byte.x42]]] (sd_ep ex_side) ex_body).
Proof.
  apply (sending_loops_refine_channel [] ex_side ex_body (mk_ws [] []) 16 newAttachments 0%nat
           false false [[EvWrite [Byte.x42]]] ex_side_inv);
    try reflexivity; vm_compute; reflexivity.
Defined.

Lemma receiving_loops_refine_channel_witness :
  sess_refines [PData 0 [Byte.x41]] ex_side
    (pollSendStream_frame false (seq_frame (0, [Byte.x41]))
       (set_ep (sd_ep ex_side) (newSession "s1" ∅ 0))).
Proof.
  apply (receiving_loops_refine_channel [PData 0 [Byte.x41]] [Byte.x41] [] ex_side
           (set_ep (sd_ep ex_side) (newSession "s1" ∅ 0)) (seq_frame (0, [Byte.x41])) ex_side_inv).
  - constructor; [|constructor]; split; [lia|]; exists []; split; [reflexivity|vm_compute; discriminate].
  - vm_compute; reflexivity.
  - intros p; vm_compute; auto.
  - reflexivity.
  - reflexivity.
Defined.

Definition ex_upload : session := enableResume 16 (30 * Second) (newSession "s1" ∅ 0).
Definition ex_chunks : list (Z * list byte) := [(0, [Byte.x41; Byte.x42]); (2, [Byte.x43])].

Lemma upload_stream_delivers_witness :
  exists s' rs', pollSendStream 3 16 false true
      (mk_reader (map (fun b => [b]) (encode_frames (map seq_frame ex_chunks ++ [(frameEnd, [])]))) EOF)
      ex_upload = Some (s', Some StatusOK)
    /\ p_buf (s_toServer s') = [Byte.x41; Byte.x42; Byte.x43]
    /\ s_rs s' = Some rs' /\ rel_inv [] [Byte.x41; Byte.x42; Byte.x43] rs'
    /\ isBroken rs' = false.
Proof.
  apply (upload_stream_delivers 3 16 ex_chunks [] [] [] ex_upload (newReliable 16)).
  - lia.
  - reflexivity.
  - apply inv_new.
  - reflexivity.
  - cbn; auto.
  - vm_compute; reflexivity.
  - repeat constructor; vm_compute; (reflexivity || discriminate).
  - vm_compute; reflexivity.
  - cbn; lia.
Defined.

Lemma kicked_idle_stream_stays_witness :
  pollStreamResumable_turn 16 false false (kick (as_att ex_own) 0%nat) 0%nat []
    (interruptOut (new_endpoint 16)) ex_body
  = (new_endpoint 16, ex_body, Again).
Proof.
  apply (kicked_idle_stream_stays ex_own 0%nat 0%nat [attachDown]);
    [exact ex_own_reachable|reflexivity..].
Defined.

Lemma stream_poll_delivers_witness :
  exists e' err, doStreamPoll 4 16 (PollBody
      (mk_reader [encode_frames [seq_frame (0, [Byte.x41; Byte.x42]); (frameHeartbeat, []);
                                 seq_frame (2, [Byte.x43])]; [frameEnd]] (ErrNet true)))
      (new_endpoint 16) = Some (e', err)
    /\ p_buf (ep_in e') = [Byte.x41; Byte.x42; Byte.x43]
    /\ rel_inv [] [Byte.x41; Byte.x42; Byte.x43] (ep_rl e') /\ isBroken (ep_rl e') = false.
Proof.
  apply (stream_poll_delivers 4 16
           [Some (0, [Byte.x41; Byte.x42]); None; Some (2, [Byte.x43])] frameEnd []
           [frameEnd] (be_put 4 0) [] [] (new_endpoint 16)).
  - apply inv_new.
  - reflexivity.
  - cbn; auto.
  - vm_compute; reflexivity.
  - repeat constructor; vm_compute; (reflexivity || discriminate).
  - split; vm_compute; (reflexivity || discriminate).
  - reflexivity.
  - discriminate.
  - vm_compute; reflexivity.
  - cbn; lia.
Defined.
