(* ===== verification/Plain.v ===== *)
(** * Plain.v: the streamed transports of sessions that cannot be resumed

    Without the byte layer a streamed transport carries unnumbered data frames.
    Models the four sending loops (pollStream in src/handler.go, wsWritePump and
    wsConn.writeLoop in src/websocket.go, httpConn.feedSendStream in
    src/client.go) by their turn, over the sinks of Stream.v, and the client's
    receiving loops (httpConn.doStreamPoll, wsConn.readLoop); the server's
    receiving loops are those of Stream.v on a session without a byte layer. *)

From S2P Require Import Prelude Frame Pipe Protocol Reliable Channel Attach Session Connect Reconnect Stream.

(** ** Sending *)

Section PlainSending.
Context {W : Type} {sink : FrameSink W}.

(** Data, or a heartbeat when there is none. *)
Definition plain_emit (w : W) (data : list byte) : W * option goerr :=
  if negb (len data =? 0) then sink_frame w frameData data else sink_frame w frameHeartbeat [].

(** A turn of a sending loop: [onEOF] and [eofErr] are what it writes and
    returns when the pipe is closed, [final] what it writes once [expired].
    Frames written on the way out are not checked. *)
Definition plain_turn (onEOF : option frameType) (eofErr : option goerr) (final : option frameType)
    (expired : bool) (blen : Z) (sched : list (list pipe_event)) (p : pipe) (w : W)
    : pipe * W * loop_end :=
  let quiet (w : W) (typ : option frameType) :=
    match typ with Some typ => (sink_frame w typ []).1 | None => w end in
  match ReadAvailable p blen sched with
  | (p, Fail EOF, _) => (p, quiet w onEOF, Leave eofErr)
  | (p, r, _) =>
      let '(w, err) := plain_emit w (match r with Ok data => data | Fail _ => [] end) in
      match err with
      | Some err => (p, w, Leave (Some err))
      | None => if expired then (p, quiet w final, Leave None) else (p, w, Again)
      end
  end.
End PlainSending.

(** [pollStream] on a session without a byte layer; a turn first looks at the
    request's context. *)
Definition pollStream_turn (bufsize : Z) (ctxDone expired : bool) (sched : list (list pipe_event))
    (p : pipe) (w : hbody) : pipe * hbody * loop_end :=
  if ctxDone then (p, w, Leave None)
  else plain_turn (Some frameGone) None (Some frameEnd) expired bufsize sched p w.

Definition http_feedSendStream_turn (maxFrame : Z) (expired : bool) (sched : list (list pipe_event))
    (p : pipe) (w : hbody) : pipe * hbody * loop_end :=
  plain_turn (Some frameEnd) None (Some frameEnd) expired maxFrame sched p w.

Definition wsWritePump_turn (bufsize : Z) (sched : list (list pipe_event)) (p : pipe) (c : wsocket)
    : pipe * wsocket * loop_end :=
  plain_turn None (Some EOF) None false bufsize sched p c.

(** [wsConn.writeLoop]: a failed write is reported unless the connection is
    being closed; [Leave None] is a quiet return. *)
Definition wsConn_writeLoop_turn (maxFrame : Z) (shutdown : bool) (sched : list (list pipe_event))
    (p : pipe) (c : wsocket) : pipe * wsocket * loop_end :=
  match plain_turn None None None false maxFrame sched p c with
  | (p, c, Leave (Some err)) => (p, c, Leave (if shutdown then None else Some err))
  | other => other
  end.

(** ** Receiving *)

(** A frame of httpConn.doStreamPoll, into the read pipe. *)
Definition http_doStreamPoll_frame (f : frameType * list byte) (p : pipe) : pipe * option goerr :=
  let '(typ, payload) := f in
  if bool_decide (typ = frameData) then
    if 0 <? len payload then
      match pipe_Write p payload with
      | (p, Fail err, _) => (p, Some err)
      | (p, Ok _, _) => (p, None)
      end
    else (p, None)
  else if bool_decide (typ = frameHeartbeat) then (p, None)
  else if bool_decide (typ = frameEnd) then (p, Some errStreamEnd)
  else if bool_decide (typ = frameGone) then (p, Some errSessionGone)
  else (p, Some errBadFrame).

Fixpoint http_doStreamPoll_loop (fuel : nat) (maxFrame : Z) (body : reader) (p : pipe)
    : option (pipe * goerr) :=
  match fuel with
  | O => None
  | S fuel =>
      match frame_next maxFrame body with
      | (Fail EOF, _) => Some (p, errStreamEnd)
      | (Fail err, _) => Some (p, err)
      | (Ok f, body) =>
          match http_doStreamPoll_frame f p with
          | (p, Some err) => Some (p, err)
          | (p, None) => http_doStreamPoll_loop fuel maxFrame body p
          end
      end
  end.

Definition http_doStreamPoll (fuel : nat) (maxFrame : Z) (rep : poll_reply) (p : pipe)
    : option (pipe * goerr) :=
  match rep with
  | PollNone err => Some (p, err)
  | PollStatus status => Some (p, fatalPollError status)
  | PollBody body => http_doStreamPoll_loop fuel maxFrame body p
  end.

(** [wsConn.readLoop]: what a binary message does. *)
Inductive read_msg : Type :=
| MsgNext (p : pipe)
| MsgReturn (p : pipe)                  (* the read pipe is closed already *)
| MsgProblem (p : pipe) (err : goerr).  (* onTransportProblem *)

Definition wsConn_readLoop_msg (msg : list byte) (p : pipe) : read_msg :=
  match wsDecode msg with
  | Fail err => MsgProblem p err
  | Ok (typ, payload) =>
      if bool_decide (typ = frameData) then
        if 0 <? len payload then
          match pipe_Write p payload with
          | (p, Fail _, _) => MsgReturn p
          | (p, Ok _, _) => MsgNext p
          end
        else MsgNext p
      else if bool_decide (typ = frameHeartbeat) then MsgNext p
      else MsgProblem p errBadFrame
  end.

Fixpoint wsConn_readLoop (msgs : list (list byte)) (p : pipe) : read_msg :=
  match msgs with
  | [] => MsgNext p
  | msg :: msgs =>
      match wsConn_readLoop_msg msg p with
      | MsgNext p => wsConn_readLoop msgs p
      | other => other
      end
  end.

(** [wsReadPump], message by message. *)
Fixpoint wsReadPump (msgs : list (list byte)) (s : session) : option (session * option goerr) :=
  match msgs with
  | [] => Some (s, None)
  | msg :: msgs =>
      match wsDecode msg with
      | Fail err => Some (s, Some err)
      | Ok f =>
          match wsReadPump_frame f s with
          | Some (s, None) => wsReadPump msgs s
          | other => other
          end
      end
  end.

(** ** Runs of a sending loop *)

Section PlainRun.
Context {W : Type}.

(** What a turn meets: whether the leg's time is up, and its schedule. *)
Definition turn_input : Type := bool * list (list pipe_event).

(** Turns until the loop leaves: the pipe, the sink, the bytes written to the
    pipe meanwhile, and how it stands. *)
Fixpoint plain_run (blen : Z)
    (turn : bool -> list (list pipe_event) -> pipe -> W -> pipe * W * loop_end)
    (ins : list turn_input) (p : pipe) (w : W) : pipe * W * list byte * loop_end :=
  match ins with
  | [] => (p, w, [], Again)
  | (expired, sched) :: ins =>
      let now := accepted p (waited p blen sched) in
      match turn expired sched p w with
      | (p, w, Again) =>
          let '(p, w, later, stands) := plain_run blen turn ins p w in (p, w, now ++ later, stands)
      | (p, w, stands) => (p, w, now, stands)
      end
  end.
End PlainRun.

(** What the data frames of a list carry. *)
Definition frame_data (f : frameType * list byte) : list byte :=
  if bool_decide (f.1 = frameData) then f.2 else [].
Definition frames_data (fs : list (frameType * list byte)) : list byte := concat (map frame_data fs).

(** Frames a loop that goes on may write: data of at most [blen] bytes and
    heartbeats. *)
Definition plain_frame (blen : Z) (f : frameType * list byte) : Prop :=
  (f.1 = frameData \/ f = (frameHeartbeat, [])) /\ len f.2 <= blen.

Lemma frames_data_app fs fs' : frames_data (fs ++ fs') = frames_data fs ++ frames_data fs'.
Proof. unfold frames_data; rewrite map_app, concat_app; reflexivity. Qed.

Lemma frames_data_cons f fs : frames_data (f :: fs) = frame_data f ++ frames_data fs.
Proof. reflexivity. Qed.

Lemma read_bounded p blen sched p' r rest :
  0 < blen -> ReadAvailable p blen sched = (p', r, rest) -> len (outcome_data r) <= blen.
Proof.
  intros Hb E; destruct (ReadAvailable_unfolds p blen sched) as (used & p1 & _ & _ & Hr).
  rewrite E in Hr; unfold ra_result in Hr; cbn [fst] in Hr.
  destruct Hr as [[H _]|[[H _]|[[H _]|H]]]; injection H as _ ->; cbn; try len_lia.
  rewrite len_copied; lia.
Qed.

(** What is on the way to the peer: the bytes of a body, the messages of a
    WebSocket.  A write that fails may leave a part of its frame. *)
Class Wire (W A : Type) {sink : FrameSink W} := {
  on_the_wire : W -> list A;
  as_sent : frameType * list byte -> list A;
  wire_law : forall w typ p w' err, sink_frame w typ p = (w', err) ->
    on_the_wire w' `prefix_of` on_the_wire w ++ as_sent (typ, p)
    /\ (err = None -> on_the_wire w' = on_the_wire w ++ as_sent (typ, p));
}.

Lemma io_write_torn w data w' err : io_write w data = (w', err) ->
  w_out w' `prefix_of` w_out w ++ data /\ (err = None -> w_out w' = w_out w ++ data).
Proof.
  unfold io_write; destruct (w_plan w) as [|[[n e]|] plan]; intros E; injection E as <- <-; cbn.
  - split; [reflexivity|auto].
  - split; [apply prefix_app, prefix_take|discriminate].
  - split; [reflexivity|auto].
Qed.

#[export] Instance hbody_wire : Wire hbody byte.
Proof.
  refine {| on_the_wire b := w_out (hb_writer b); as_sent f := encode_frame f.1 f.2 |}.
  intros b typ p b' err E; unfold sink_frame, hbody_sink, hbody_frame, writeFrame in E; cbn [fst snd].
  unfold encode_frame; destruct (io_write (hb_writer b) _) as [w1 [e|]] eqn:E1;
    apply io_write_torn in E1 as [Hp Ho].
  - apply pair_eq in E as [<- <-]; split; [|discriminate].
    rewrite app_assoc; etrans; [exact Hp|apply prefix_app_r; reflexivity].
  - specialize (Ho eq_refl); destruct (Z.eqb_spec (len p) 0) as [H0|_].
    + apply pair_eq in E as [<- <-]; apply len_zero_iff in H0; rewrite H0, app_nil_r.
      cbn [hb_writer]; rewrite Ho, H0; split; [reflexivity|auto].
    + destruct (io_write w1 p) as [w2 o] eqn:E2; apply pair_eq in E as [<- <-].
      apply io_write_torn in E2; rewrite Ho in E2; rewrite app_assoc; exact E2.
Defined.

#[export] Instance ws_wire : Wire wsocket (list byte).
Proof.
  refine {| on_the_wire := ws_msgs; as_sent f := [wsEncode f.1 f.2] |}.
  intros c typ p c' err E; unfold sink_frame, ws_sink, ws_write in E.
  destruct (ws_plan c) as [|[e|] plan]; injection E as <- <-; cbn;
    (split; [|auto; discriminate]); try reflexivity; apply prefix_app_r; reflexivity.
Defined.

Section PlainLaws.
Context {W A : Type} {sink : FrameSink W} {wired : Wire W A} (blen : Z) (Hblen : 0 < blen).
Implicit Types (p : pipe) (w : W).

Definition all_sent (fs : list (frameType * list byte)) : list A := concat (map as_sent fs).

Lemma all_sent_app fs fs' : all_sent (fs ++ fs') = all_sent fs ++ all_sent fs'.
Proof. unfold all_sent; rewrite map_app, concat_app; reflexivity. Qed.

(** A frame a loop writes on its way out. *)
Definition closing_frames (fs : list (frameType * list byte)) : Prop :=
  fs = [] \/ fs = [(frameEnd, [])] \/ fs = [(frameGone, [])].
Definition closes_with (typ : option frameType) : Prop :=
  match typ with Some typ => closing_frames [(typ, [])] | None => True end.

(** What a part of a loop's run has done: what is on the wire is what was
    there and a part of the frames [fs] and of a closing frame; [fs] carry
    exactly the bytes taken from the pipe; nothing is missing while the loop
    goes on. *)
Definition sends p (wr : list byte) w (p' : pipe) (w' : W) (stands : loop_end) (turns : nat) : Prop :=
  exists fs closing, closing_frames closing /\ Forall (plain_frame blen) fs
    /\ (length fs <= turns)%nat
    /\ on_the_wire w' `prefix_of` on_the_wire w ++ all_sent (fs ++ closing)
    /\ (stands = Again -> closing = [] /\ on_the_wire w' = on_the_wire w ++ all_sent fs)
    /\ p_buf p ++ wr = frames_data fs ++ p_buf p'.

Definition turn_law (turn : list (list pipe_event) -> pipe -> W -> pipe * W * loop_end) : Prop :=
  forall sched p w p' w' stands, no_rival (concat sched) -> turn sched p w = (p', w', stands) ->
  sends p (accepted p (waited p blen sched)) w p' w' stands 1.

(** One frame, and possibly a closing one. *)
Lemma sends_one p wr w f w1 err typ w' p' stands :
  plain_frame blen f -> p_buf p ++ wr = frame_data f ++ p_buf p' ->
  sink_frame w f.1 f.2 = (w1, err) ->
  (w' = w1 /\ (stands = Again -> err = None)
   \/ err = None /\ closes_with typ /\ stands <> Again
      /\ w' = match typ with Some typ => (sink_frame w1 typ []).1 | None => w1 end) ->
  sends p wr w p' w' stands 1.
Proof.
  intros Hf Hc E Hw; apply wire_law in E as [Hp Ho]; rewrite <- surjective_pairing in Hp, Ho.
  assert (Hone : all_sent [f] = as_sent f) by apply app_nil_r.
  assert (Hdata : p_buf p ++ wr = frames_data [f] ++ p_buf p').
  { rewrite Hc; unfold frames_data; cbn [map concat]; rewrite app_nil_r; reflexivity. }
  destruct Hw as [[-> Hs]|(-> & Ht & Hs & ->)].
  - exists [f], []; rewrite app_nil_r, Hone; split_and!; auto; left; reflexivity.
  - specialize (Ho eq_refl); destruct typ as [typ|].
    + destruct (sink_frame w1 typ []) as [w2 o] eqn:E2; apply wire_law in E2 as [Hp2 _].
      exists [f], [(typ, [])]; split_and!; auto; try tauto.
      cbn [fst]; rewrite all_sent_app, Hone, app_assoc, <- Ho; unfold all_sent; cbn [map concat].
      rewrite app_nil_r; exact Hp2.
    + exists [f], []; rewrite app_nil_r, Hone, <- Ho; split_and!; auto;
        first [left; reflexivity | intros; tauto].
Qed.

Lemma plain_turn_law onEOF eofErr final expired : closes_with onEOF -> closes_with final ->
  turn_law (plain_turn onEOF eofErr final expired blen).
Proof.
  intros Hon Hfin sched p w p' w' stands Hn E; unfold plain_turn in E.
  destruct (ReadAvailable p blen sched) as [[p1 r] rest] eqn:Er.
  pose proof (read_conserves p blen sched p1 r rest Hn Er) as Hc.
  pose proof (read_bounded p blen sched p1 r rest Hblen Er) as Hl.
  assert (Hcase : r = Fail EOF \/ r <> Fail EOF)
    by (destruct r as [|[]]; ((left; reflexivity) || (right; discriminate))).
  destruct Hcase as [-> | Hr].
  - injection E as <- <- <-; cbn [outcome_data app] in Hc.
    exists [], (match onEOF with Some typ => [(typ, [])] | None => [] end).
    cbn [app]; split_and!; [destruct onEOF; [exact Hon|left; reflexivity]|constructor|cbn; lia| |
      discriminate|exact Hc].
    destruct onEOF as [typ|]; [|apply prefix_app_r; reflexivity].
    destruct (sink_frame w typ []) as [w2 o] eqn:E2; apply wire_law in E2 as [Hp _].
    unfold all_sent; cbn [map concat fst]; rewrite app_nil_r; exact Hp.
  - set (f := if negb (len (outcome_data r) =? 0) then (frameData, outcome_data r)
              else (frameHeartbeat, [])).
    assert (Hf : plain_frame blen f /\ frame_data f = outcome_data r).
    { unfold f; destruct (Z.eqb_spec (len (outcome_data r)) 0) as [H0|H0]; cbn [negb].
      - apply len_zero_iff in H0; rewrite H0; repeat split; [right; reflexivity|cbn; len_lia].
      - repeat split; [left; reflexivity|exact Hl]. }
    destruct Hf as [Hf Hd]; rewrite <- Hd in Hc.
    assert (Ee : exists w1 err, sink_frame w f.1 f.2 = (w1, err) /\ p1 = p'
      /\ (w' = w1 /\ (stands = Again -> err = None)
          \/ err = None /\ closes_with final /\ stands <> Again
             /\ w' = match final with Some typ => (sink_frame w1 typ []).1 | None => w1 end)).
    { assert (Hem : plain_emit w (outcome_data r) = sink_frame w f.1 f.2)
        by (unfold plain_emit, f; destruct (len (outcome_data r) =? 0); reflexivity).
      change (match r with Ok data => data | Fail _ => [] end) with (outcome_data r) in E.
      rewrite Hem in E; destruct (sink_frame w f.1 f.2) as [w1 err]; exists w1, err.
      destruct r as [d|e]; [|destruct e; try congruence];
        (destruct err as [err|]; [|destruct expired]; injection E as <- <- <-;
         (split; [reflexivity|]); (split; [reflexivity|]); auto; try (left; split; [reflexivity|discriminate]);
         right; split_and!; auto; discriminate). }
    destruct Ee as (w1 & err & Ew & -> & Hw); exact (sends_one _ _ _ f _ _ final _ _ _ Hf Hc Ew Hw).
Qed.

Lemma plain_run_law turn ins : (forall expired, turn_law (turn expired)) ->
  forall p w p' w' wr stands, Forall (fun i => no_rival (concat i.2)) ins ->
  plain_run blen turn ins p w = (p', w', wr, stands) ->
  sends p wr w p' w' stands (length ins).
Proof.
  intros Hturn; induction ins as [|[expired sched] ins IH]; intros p w p' w' wr stands Hn E; cbn [plain_run] in E.
  - injection E as <- <- <- <-; exists [], []; cbn; rewrite !app_nil_r.
    split_and!; auto; left; reflexivity.
  - apply Forall_cons in Hn as [Hn1 Hn].
    destruct (turn expired sched p w) as [[p1 w1] st] eqn:Et.
    destruct (Hturn expired sched p w p1 w1 st Hn1 Et) as (fs1 & cl1 & Hcl1 & Hf1 & Hl1 & Hp1 & Ha1 & Hc1).
    destruct st as [|err|];
      [|injection E as <- <- <- <-; exists fs1, cl1; split_and!; auto; cbn; lia..].
    destruct (Ha1 eq_refl) as [-> Hw1].
    destruct (plain_run blen turn ins p1 w1) as [[[p2 w2] later] st] eqn:Er.
    injection E as -> -> <- ->.
    destruct (IH p1 w1 p' w' later stands Hn Er) as (fs2 & cl2 & Hcl2 & Hf2 & Hl2 & Hp2 & Ha2 & Hc2).
    exists (fs1 ++ fs2), cl2; rewrite Hw1, <- app_assoc, <- all_sent_app in Hp2.
    split_and!; auto.
    + apply Forall_app; auto.
    + rewrite length_app; cbn [length]; lia.
    + rewrite <- app_assoc; exact Hp2.
    + intros Hs; destruct (Ha2 Hs) as [-> ->]; rewrite Hw1, <- app_assoc, <- all_sent_app; auto.
    + rewrite app_assoc, Hc1, frames_data_app, <- !app_assoc, Hc2; reflexivity.
Qed.
End PlainLaws.

(** ** Receiving what a loop wrote *)

(** Any initial part of a body: complete frames, then a part of the next on
    which a reader fails. *)
Lemma take_encoded maxPayload fs : forall n, Forall (frame_ok maxPayload) fs ->
  exists fs1 fs2 rest, fs = fs1 ++ fs2 /\ take n (encode_frames fs) = encode_frames fs1 ++ rest
    /\ (forall r, r_bytes r = rest -> exists err, (frame_next maxPayload r).1 = Fail err).
Proof.
  induction fs as [|f fs IH]; intros n Hok.
  - exists [], [], []; change (encode_frames []) with (@nil byte); rewrite take_nil; split_and!; auto.
    intros r Hr; eexists; apply frame_next_at_end, Hr.
  - apply Forall_cons in Hok as [Hf Hok]; rewrite encode_frames_cons.
    destruct (decide (length (encode_frame f.1 f.2) <= n)%nat) as [Hle|Hlt].
    + destruct (IH (n - length (encode_frame f.1 f.2))%nat Hok) as (fs1 & fs2 & rest & -> & Ht & Hr).
      exists (f :: fs1), fs2, rest; split; [reflexivity|]; split; [|exact Hr].
      rewrite take_app_ge by lia; rewrite Ht, encode_frames_cons, app_assoc; reflexivity.
    + exists [], (f :: fs), (take n (encode_frame f.1 f.2)); split; [reflexivity|].
      split; [rewrite take_app_le by lia; reflexivity|].
      intros r Hr; eexists.
      apply (frame_next_prefix maxPayload f.1 f.2 (take n (encode_frame f.1 f.2))
               (drop n (encode_frame f.1 f.2))); [destruct f; exact Hf|symmetry; apply take_drop| |exact Hr].
      intros E; apply (f_equal length) in E; rewrite length_drop in E;
      change (length (@nil byte)) with 0%nat in E; lia.
Qed.

Lemma plain_frame_ok blen maxPayload f :
  blen <= maxPayload -> blen < 2 ^ 32 -> plain_frame blen f -> frame_ok maxPayload f.
Proof.
  intros Hm H32 [Ht Hl]; split; [lia|].
  destruct Ht as [E | ->]; [rewrite E|]; unfold frame_bound;
    rewrite !bool_decide_false by discriminate; lia.
Qed.

(** Writing the data frames into an open pipe. *)
Lemma write_open p d : p_closed p = false ->
  exists p' w, pipe_Write p d = (p', Ok (len d), w) /\ p_buf p' = p_buf p ++ d /\ p_closed p' = false.
Proof. intros Hc; unfold pipe_Write; rewrite Hc; do 2 eexists; split_and!; reflexivity. Qed.

Lemma poll_frame_plain blen f p : plain_frame blen f -> p_closed p = false ->
  exists p', http_doStreamPoll_frame f p = (p', None)
    /\ p_buf p' = p_buf p ++ frame_data f /\ p_closed p' = false.
Proof.
  destruct f as [typ d]; intros [Ht _] Hc; unfold http_doStreamPoll_frame, frame_data; cbn [fst snd] in *.
  destruct Ht as [-> | E]; [|injection E as -> ->].
  - rewrite bool_decide_true by reflexivity; destruct (write_open p d Hc) as (p' & w & E & Hb & Hc').
    destruct (Z.ltb_spec 0 (len d)) as [H|H]; [rewrite E; eauto|].
    assert (d = []) as -> by (apply len_zero_iff; len_lia); exists p; rewrite app_nil_r; auto.
  - exists p; cbn; rewrite app_nil_r; auto.
Qed.

(** What stops a reader where it stands: nothing decodable, or a closing frame. *)
Definition stops (maxPayload : Z) (rest : list byte) : Prop :=
  forall r, r_bytes r = rest ->
  (exists err, (frame_next maxPayload r).1 = Fail err)
  \/ exists typ r', frame_next maxPayload r = (Ok (typ, []), r') /\ (typ = frameEnd \/ typ = frameGone).

Lemma closing_frame_ok maxPayload closing : 0 <= maxPayload -> closing_frames closing ->
  Forall (frame_ok maxPayload) closing.
Proof.
  intros Hm [-> |[-> | ->]]; [apply Forall_nil; exact I|..];
    (apply Forall_singleton; split; cbn [fst snd]; [vm_compute; reflexivity|];
     unfold frame_bound; rewrite !bool_decide_false by discriminate; exact Hm).
Qed.

Lemma body_parts maxPayload fs closing bytes :
  0 <= maxPayload -> Forall (frame_ok maxPayload) fs -> closing_frames closing ->
  bytes `prefix_of` encode_frames (fs ++ closing) ->
  exists fs1 fs2 rest, fs = fs1 ++ fs2 /\ bytes = encode_frames fs1 ++ rest /\ stops maxPayload rest.
Proof.
  intros Hm Hok Hc [more E]; pose proof (closing_frame_ok _ _ Hm Hc) as Hcok.
  destruct (take_encoded maxPayload (fs ++ closing) (length bytes)) as (g1 & g2 & rest & Hg & Ht & Hr);
    [apply Forall_app; auto|].
  rewrite E, take_app_length in Ht.
  destruct Hc as [-> | Hc].
  { rewrite app_nil_r in Hg; exists g1, g2, rest; split_and!; auto; intros r Hb; left; auto. }
  assert (exists typ, closing = [(typ, [])] /\ (typ = frameEnd \/ typ = frameGone)) as (typ & -> & Htyp)
    by (destruct Hc as [-> | ->]; eauto).
  destruct g2 as [|f g2] using rev_ind.
  - rewrite app_nil_r in Hg; subst g1; exists fs, [], (encode_frame typ [] ++ rest).
    rewrite app_nil_r, Ht, encode_frames_app, encode_frames_one, <- app_assoc; split_and!; auto.
    intros r Hb; right; apply Forall_cons in Hcok as [Hcok _].
    destruct (frame_next_encoded maxPayload _ _ _ _ Hb Hcok) as (r' & -> & _); eauto.
  - rewrite app_assoc in Hg; apply app_inj_tail in Hg as [-> _].
    exists g1, g2, rest; split_and!; auto; intros r Hb; left; auto.
Qed.

Lemma frame_next_oversize maxPayload r typ payload rest :
  r_bytes r = encode_frame typ payload ++ rest -> len payload < 2 ^ 32 ->
  0 < len payload -> frame_bound maxPayload typ < len payload ->
  exists r', frame_next maxPayload r = (Fail errBadFrame, r').
Proof.
  intros Hr H32 H0 Hb; unfold encode_frame in Hr; rewrite <- app_assoc in Hr.
  destruct (readFull_enough r 5 _ _ Hr) as (r1 & E1 & _ & _).
  { unfold frame_header; cbn [length]; rewrite length_be_put; reflexivity. }
  unfold frame_next; rewrite E1; unfold frame_header.
  rewrite u32_id, be_get_put_u32 by len_lia.
  rewrite (proj2 (Z.eqb_neq _ _)), (proj2 (Z.ltb_lt _ _)) by lia; eauto.
Qed.

(** The header of a frame beyond the bound stops the reader, however much of the
    frame has arrived. *)
Lemma frame_next_oversize_part maxPayload r typ payload rest :
  r_bytes r `prefix_of` encode_frame typ payload ++ rest -> len payload < 2 ^ 32 ->
  0 < len payload -> frame_bound maxPayload typ < len payload ->
  exists err, (frame_next maxPayload r).1 = Fail err.
Proof.
  intros [more Hr] H32 H0 Hb.
  destruct (decide (length (r_bytes r) < 5)%nat) as [Hs|Hs].
  - unfold frame_next; rewrite readFull_short by exact Hs; eexists; reflexivity.
  - assert (Hh : length (frame_header typ payload) = 5%nat)
      by (unfold frame_header; cbn [length]; rewrite length_be_put; reflexivity).
    assert (Hsplit : r_bytes r = frame_header typ payload ++ drop 5 (r_bytes r)).
    { rewrite <- (take_drop 5 (r_bytes r)) at 1; f_equal.
      rewrite <- (take_app_le (r_bytes r) more 5), <- Hr by lia.
      unfold encode_frame; rewrite <- app_assoc, take_app_length' by lia; reflexivity. }
    destruct (readFull_enough r 5 _ _ Hsplit Hh) as (r1 & E1 & _ & _).
    unfold frame_next; rewrite E1; unfold frame_header.
    rewrite u32_id, be_get_put_u32 by len_lia.
    rewrite (proj2 (Z.eqb_neq _ _)), (proj2 (Z.ltb_lt _ _)) by lia; eexists; reflexivity.
Qed.

(** The frames up to the first one that is beyond the receiver's bound. *)
Lemma fitting_frames blen maxPayload fs :
  0 <= maxPayload -> blen < 2 ^ 32 -> Forall (plain_frame blen) fs ->
  exists good bad, fs = good ++ bad /\ Forall (frame_ok maxPayload) good
    /\ (bad = [] \/ exists f bad', bad = f :: bad' /\ len f.2 < 2 ^ 32 /\ 0 < len f.2
         /\ frame_bound maxPayload f.1 < len f.2).
Proof.
  intros Hm H32; induction fs as [|f fs IH]; intros Hf.
  - exists [], []; split_and!; [reflexivity|apply Forall_nil; exact I|left; reflexivity].
  - apply Forall_cons in Hf as [[Ht Hl] Hf].
    assert (Hbd : frame_bound maxPayload f.1 = maxPayload)
      by (destruct Ht as [-> | ->]; unfold frame_bound; rewrite !bool_decide_false by discriminate; reflexivity).
    destruct (Z.le_gt_cases (len f.2) maxPayload) as [Hle|Hgt].
    + destruct (IH Hf) as (good & bad & -> & Hg & Hb); exists (f :: good), bad; split_and!; auto.
      apply Forall_cons; split; [split; lia|exact Hg].
    + exists [], (f :: fs); split_and!; [reflexivity|apply Forall_nil; exact I|right].
      exists f, fs; split_and!; [reflexivity|lia|len_lia|lia].
Qed.

(** Whatever the bound: complete frames within it, then what stops the reader. *)
Lemma body_parts_any blen maxPayload fs closing bytes :
  0 <= maxPayload -> blen < 2 ^ 32 -> Forall (plain_frame blen) fs -> closing_frames closing ->
  bytes `prefix_of` encode_frames (fs ++ closing) ->
  exists fs1 fs2 rest, fs = fs1 ++ fs2 /\ Forall (frame_ok maxPayload) fs1
    /\ bytes = encode_frames fs1 ++ rest /\ stops maxPayload rest.
Proof.
  intros Hm H32 Hf Hc Hpre.
  destruct (fitting_frames blen maxPayload fs Hm H32 Hf) as (good & bad & -> & Hg & Hb).
  destruct Hb as [->|(f & bad' & -> & H32' & H0 & Hbd)].
  { rewrite app_nil_r in *; destruct (body_parts maxPayload good closing bytes Hm Hg Hc Hpre)
      as (fs1 & fs2 & rest & -> & Hby & Hst).
    exists fs1, fs2, rest; apply Forall_app in Hg as [Hg _]; auto. }
  rewrite <- app_assoc, encode_frames_app in Hpre; cbn [app] in Hpre.
  rewrite encode_frames_cons in Hpre.
  destruct (decide (length bytes <= length (encode_frames good))%nat) as [Hle|Hgt].
  - destruct (take_encoded maxPayload good (length bytes) Hg) as (g1 & g2 & rest & -> & Ht & Hr).
    exists g1, (g2 ++ f :: bad'), rest; apply Forall_app in Hg as [Hg _].
    split_and!; [symmetry; apply app_assoc|exact Hg| |intros r Hb; left; auto].
    destruct Hpre as [more E]; rewrite <- Ht; apply (f_equal (take (length bytes))) in E.
    rewrite take_app_length, take_app_le in E by exact Hle; symmetry; exact E.
  - exists good, (f :: bad'), (drop (length (encode_frames good)) bytes).
    split; [reflexivity|]; split; [exact Hg|]; destruct Hpre as [more E].
    assert (Hby : bytes = encode_frames good ++ drop (length (encode_frames good)) bytes).
    { rewrite <- (take_drop (length (encode_frames good)) bytes) at 1; f_equal.
      apply (f_equal (take (length (encode_frames good)))) in E.
      rewrite take_app_length, take_app_le in E by lia; symmetry; exact E. }
    split; [exact Hby|]; intros r Hr; left.
    apply (frame_next_oversize_part maxPayload r f.1 f.2 (encode_frames (bad' ++ closing))); auto.
    rewrite Hr; rewrite Hby, <- app_assoc in E; apply app_inv_head in E; exists more; exact E.
Qed.

Lemma poll_frames_plain maxFrame blen rest fs : stops maxFrame rest ->
  Forall (plain_frame blen) fs -> Forall (frame_ok maxFrame) fs ->
  forall fuel body p, p_closed p = false -> r_bytes body = encode_frames fs ++ rest ->
  (length fs < fuel)%nat ->
  exists p' err, http_doStreamPoll_loop fuel maxFrame body p = Some (p', err)
    /\ p_buf p' = p_buf p ++ frames_data fs /\ p_closed p' = false.
Proof.
  intros Hrest; induction fs as [|f fs IH]; intros Hpl Hok fuel body p Hc Hb Hl;
    (destruct fuel as [|fuel]; [cbn in Hl; lia|]); cbn [http_doStreamPoll_loop].
  - rewrite app_nil_r; destruct (Hrest body Hb) as [[err E]|(typ & r' & E & Ht)].
    + destruct (frame_next maxFrame body) as [r rb]; cbn in E; subst r; destruct err; eauto.
    + rewrite E; destruct Ht as [-> | ->]; eexists _, _; split_and!; auto; reflexivity.
  - apply Forall_cons in Hpl as [Hp1 Hpl]; apply Forall_cons in Hok as [Ho1 Hok].
    rewrite encode_frames_cons, <- app_assoc in Hb.
    destruct (frame_next_encoded maxFrame _ _ _ _ Hb) as (r & E & Hr & _);
      [rewrite <- surjective_pairing; exact Ho1|].
    rewrite E, <- surjective_pairing; destruct (poll_frame_plain blen f p Hp1 Hc) as (p1 & -> & Hb1 & Hc1).
    destruct (IH Hpl Hok fuel r p1 Hc1 Hr ltac:(cbn in Hl; lia)) as (p2 & err & E2 & Hb2 & Hc2).
    exists p2, err; rewrite Hb2, Hb1, frames_data_cons, app_assoc; auto.
Qed.

(** The server's side: an upload frame of a session without a byte layer. *)
Lemma upload_frame_plain blen f s : s_rs s = None -> plain_frame blen f -> p_closed (s_toServer s) = false ->
  exists s', pollSendStream_frame false f s = Some (s', None) /\ wsReadPump_frame f s = Some (s', None)
    /\ s_rs s' = None /\ p_closed (s_toServer s') = false
    /\ p_buf (s_toServer s') = p_buf (s_toServer s) ++ frame_data f.
Proof.
  destruct f as [typ d]; intros Hrs [Ht _] Hc; unfold pollSendStream_frame, wsReadPump_frame, frame_data;
    cbn [fst snd] in *; rewrite Hrs.
  destruct Ht as [-> | E]; [|injection E as -> ->].
  - rewrite !bool_decide_true by reflexivity; unfold writeUpstream.
    destruct (write_open (s_toServer s) d Hc) as (p' & w & E & Hb & Hc').
    destruct (Z.eqb_spec (len d) 0) as [H|H].
    + apply len_zero_iff in H; subst d; exists s; cbn; rewrite app_nil_r; auto.
    + replace (0 <? len d) with true by (symmetry; apply Z.ltb_lt; len_lia).
      rewrite E; cbn [orb]; eexists; split_and!; [reflexivity|reflexivity|exact Hrs|exact Hc'|exact Hb].
  - exists s; cbn; rewrite app_nil_r; auto.
Qed.

Lemma upload_frames_plain maxSend blen rest fs : stops maxSend rest ->
  Forall (plain_frame blen) fs -> Forall (frame_ok maxSend) fs ->
  forall fuel body s, s_rs s = None -> p_closed (s_toServer s) = false ->
  r_bytes body = encode_frames fs ++ rest -> (length fs < fuel)%nat ->
  exists s' status, pollSendStream_loop fuel maxSend false body s = Some (s', status)
    /\ p_buf (s_toServer s') = p_buf (s_toServer s) ++ frames_data fs.
Proof.
  intros Hrest; induction fs as [|f fs IH]; intros Hpl Hok fuel body s Hrs Hc Hb Hl;
    (destruct fuel as [|fuel]; [cbn in Hl; lia|]); cbn [pollSendStream_loop].
  - rewrite app_nil_r; destruct (Hrest body Hb) as [[err E]|(typ & r' & E & Ht)].
    + destruct (frame_next maxSend body) as [r rb]; cbn in E; subst r; destruct err; eauto.
    + rewrite E; destruct Ht as [-> | ->]; eexists _, _; split; reflexivity.
  - apply Forall_cons in Hpl as [Hp1 Hpl]; apply Forall_cons in Hok as [Ho1 Hok].
    rewrite encode_frames_cons, <- app_assoc in Hb.
    destruct (frame_next_encoded maxSend _ _ _ _ Hb) as (r & E & Hr & _);
      [rewrite <- surjective_pairing; exact Ho1|].
    rewrite E, <- surjective_pairing.
    destruct (upload_frame_plain blen f s Hrs Hp1 Hc) as (s1 & -> & _ & Hrs1 & Hc1 & Hb1).
    destruct (IH Hpl Hok fuel r s1 Hrs1 Hc1 Hr ltac:(cbn in Hl; lia)) as (s2 & st & E2 & Hb2).
    exists s2, st; rewrite Hb2, Hb1, frames_data_cons, app_assoc; auto.
Qed.

Lemma list_eq_cons {A} (a b : A) l m : a :: l = b :: m -> a = b /\ l = m.
Proof. intros E; injection E; auto. Qed.

(** The WebSocket receivers; [msgs] are the messages Read returned. *)
Lemma read_msgs_plain blen closing fs : closing_frames closing -> Forall (plain_frame blen) fs ->
  forall msgs p, p_closed p = false ->
  msgs `prefix_of` map (fun f => wsEncode f.1 f.2) (fs ++ closing) ->
  exists p' fs1 fs2, fs = fs1 ++ fs2 /\ p_buf p' = p_buf p ++ frames_data fs1
    /\ (wsConn_readLoop msgs p = MsgNext p' \/ exists err, wsConn_readLoop msgs p = MsgProblem p' err)
    /\ (length fs <= length msgs -> fs2 = [])%nat.
Proof.
  intros Hc; induction fs as [|f fs IH]; intros Hpl msgs p Hp Hm.
  - exists p, [], []; change (frames_data []) with (@nil byte); rewrite !app_nil_r; split_and!; auto.
    destruct msgs as [|m msgs]; [auto|]; destruct Hm as [more E].
    destruct Hc as [-> |[-> | ->]]; try discriminate; injection E as <- _; right; eexists; reflexivity.
  - apply Forall_cons in Hpl as [Hf Hpl]; destruct msgs as [|m msgs].
    { exists p, [], (f :: fs); change (frames_data []) with (@nil byte); rewrite !app_nil_r; split_and!; auto; cbn; lia. }
    destruct Hm as [more E]; cbn [map app] in E; apply list_eq_cons in E as [<- E].
    destruct (poll_frame_plain blen f p Hf Hp) as (p1 & E1 & Hb1 & Hc1).
    assert (Em : wsConn_readLoop_msg (wsEncode f.1 f.2) p = MsgNext p1).
    { clear - E1 Hf; destruct f as [typ d]; unfold wsConn_readLoop_msg; cbn [wsDecode wsEncode fst snd].
      unfold http_doStreamPoll_frame in E1; destruct Hf as [Hf _]; cbn [fst] in Hf.
      destruct Hf as [-> | Hf]; [|injection Hf as -> ->; apply (f_equal fst) in E1; cbn in E1; subst; reflexivity].
      rewrite !bool_decide_true in * by reflexivity; destruct (0 <? len d); [|congruence].
      destruct (pipe_Write p d) as [[p2 [n|e]] w]; congruence. }
    destruct (IH Hpl msgs p1 Hc1 (ex_intro _ more E)) as (p2 & fs1 & fs2 & -> & Hb2 & Hr & Hl).
    exists p2, (f :: fs1), fs2; cbn [wsConn_readLoop]; rewrite Em, Hb2, Hb1, frames_data_cons, app_assoc.
    split_and!; auto; cbn [length]; intros; apply Hl; cbn in *; lia.
Qed.

Lemma pump_msgs_plain blen closing fs : closing_frames closing -> Forall (plain_frame blen) fs ->
  forall msgs s, s_rs s = None -> p_closed (s_toServer s) = false ->
  msgs `prefix_of` map (fun f => wsEncode f.1 f.2) (fs ++ closing) ->
  exists s' err fs1 fs2, wsReadPump msgs s = Some (s', err) /\ fs = fs1 ++ fs2
    /\ p_buf (s_toServer s') = p_buf (s_toServer s) ++ frames_data fs1
    /\ (length fs <= length msgs -> fs2 = [])%nat.
Proof.
  intros Hc; induction fs as [|f fs IH]; intros Hpl msgs s Hrs Hp Hm.
  - destruct msgs as [|m msgs];
      [exists s, None, [], [];
       change (frames_data []) with (@nil byte); rewrite !app_nil_r; split_and!; auto|].
    exists s, (Some errBadFrame), [], [];
      change (frames_data []) with (@nil byte); rewrite !app_nil_r; split_and!; auto; destruct Hm as [more E].
    destruct Hc as [-> |[-> | ->]]; try discriminate; injection E as <- _;
      cbn [wsReadPump wsDecode wsEncode fst snd]; unfold wsReadPump_frame; rewrite Hrs; reflexivity.
  - apply Forall_cons in Hpl as [Hf Hpl]; destruct msgs as [|m msgs].
    { exists s, None, [], (f :: fs); change (frames_data []) with (@nil byte); rewrite !app_nil_r; split_and!; auto; cbn; lia. }
    destruct Hm as [more E]; cbn [map app] in E; apply list_eq_cons in E as [<- E].
    destruct (upload_frame_plain blen f s Hrs Hf Hp) as (s1 & _ & E1 & Hrs1 & Hc1 & Hb1).
    destruct (IH Hpl msgs s1 Hrs1 Hc1 (ex_intro _ more E)) as (s2 & err & fs1 & fs2 & Hr & -> & Hb2 & Hl).
    exists s2, err, (f :: fs1), fs2; cbn [wsReadPump wsDecode wsEncode]; rewrite <- surjective_pairing, E1, Hr.
    rewrite Hb2, Hb1, frames_data_cons, app_assoc.
    split_and!; auto; cbn [length]; intros; apply Hl; cbn in *; lia.
Qed.

(** ** The size of an upload frame *)

(** The read buffer of the client's upload loops: httpConn.streamMaxFrame,
    resumableConn.maxFrame and wsConn.maxFrame. *)
Definition streamMaxFrame (l : Limits) : Z := orInt (PollBufferBytes l) DefaultPollBufferSize.

Lemma oversize_upload fuel maxSend typ payload body s :
  r_bytes body = encode_frame typ payload -> len payload < 2 ^ 32 -> 0 < len payload ->
  frame_bound maxSend typ < len payload ->
  pollSendStream (S fuel) maxSend false true body s = Some (s, None).
Proof.
  intros Hb H32 H0 Hlt; rewrite <- (app_nil_r (encode_frame _ _)) in Hb.
  destruct (frame_next_oversize maxSend body typ payload [] Hb H32 H0 Hlt) as [r' E].
  unfold pollSendStream; cbn [pollSendStream_loop]; rewrite E, andb_false_r; reflexivity.
Qed.

Lemma withDefaults_sizes cfg mode resumable :
  0 < cfg_MaxSendBytes (withDefaults cfg)
  /\ streamMaxFrame (limits (withDefaults cfg) mode resumable) = cfg_PollBufferSize (withDefaults cfg).
Proof.
  unfold streamMaxFrame, orInt, withDefaults, limits; cbn.
  destruct (Z.leb_spec (cfg_MaxSendBytes cfg) 0), (Z.leb_spec (cfg_PollBufferSize cfg) 0);
    (split; [first [assumption|reflexivity]|]);
    try reflexivity; rewrite (proj2 (Z.leb_gt _ _)) by lia; reflexivity.
Qed.

Lemma number_out_acks r d :
  recvOffset (number_out r d).1 = recvOffset r /\ lastAck (number_out r d).1 = lastAck r.
Proof.
  unfold number_out, set_send, markBroken; cbn.
  destruct (broken r); [auto|]; cbn; destruct (maxReplay r <? _); auto.
Qed.

(** A pipe that holds at most a buffer is emptied at once. *)
Lemma ReadAvailable_all p blen : p_intr p = false -> 0 < len (p_buf p) <= blen ->
  ReadAvailable p blen [] = (set_buf [] p, Ok (p_buf p), []).
Proof.
  intros Hi Hl; unfold ReadAvailable; rewrite Hi.
  rewrite (proj2 (Z.eqb_neq _ _)) by lia; unfold coalesce_and_take; cbn [wait_loop].
  replace (if cond2 blen p then if cond2 blen p && negb false then (p, []) else (p, []) else (p, []))
    with (p, @nil (list pipe_event)) by (destruct (cond2 blen p); reflexivity).
  unfold copied, uncopied; rewrite firstn_all2, skipn_all2 by (unfold len in *; lia); reflexivity.
Qed.

(** What an upload loop writes to a fresh body for such a pipe. *)
Lemma feed_one_frame p blen : p_intr p = false -> 0 < len (p_buf p) <= blen ->
  w_out (hb_writer (http_feedSendStream_turn blen false [] p ex_body).1.2)
  = encode_frame frameData (p_buf p).
Proof.
  intros Hi Hl; unfold http_feedSendStream_turn, plain_turn, plain_emit.
  rewrite ReadAvailable_all by auto; cbn [sink_frame hbody_sink].
  assert (Hd : (len (p_buf p) =? 0) = false) by (apply Z.eqb_neq; lia).
  unfold hbody_frame, writeFrame, io_write; cbn [hb_writer w_plan ex_body]; rewrite !Hd; reflexivity.
Qed.

Lemma feed_one_seq r p inp blen : p_intr p = false -> 0 < len (p_buf p) <= blen ->
  has_pending r = false -> recvOffset r = lastAck r ->
  exists off, w_out (hb_writer (feedSendStream_turn blen false false [] (mk_ep r p inp) ex_body).1.2)
              = encode_frame frameSeqData (be_put 8 off ++ p_buf p).
Proof.
  intros Hi Hl Hp Ha; unfold feedSendStream_turn, send_turn, nextOut; cbn [ep_rl ep_out ep_in].
  rewrite Hp, ReadAvailable_all by auto.
  assert (Hd : (len (p_buf p) =? 0) = false) by (apply Z.eqb_neq; lia).
  destruct (p_buf p) as [|b0 data]; [discriminate|].
  destruct (number_out_acks r (b0 :: data)) as [H1 H2].
  destruct (number_out r (b0 :: data)) as [r' off]; cbn [fst] in H1, H2; exists off.
  unfold emit, takeAck; cbn [ep_rl]; rewrite H1, H2, Ha, Z.eqb_refl, Hd; cbn [negb sink_seq hbody_sink].
  unfold hbody_seq, writeSeqFrame, io_write; cbn [hb_writer w_plan ex_body]; rewrite Hd.
  cbn [fst snd w_plan w_out app hb_writer].
  unfold encode_frame, frame_header; rewrite len_app, len_be_put, <- !app_assoc; reflexivity.
Qed.

(** ** Properties *)

Lemma writeLoop_turn_law blen shutdown : 0 < blen ->
  turn_law blen (wsConn_writeLoop_turn blen shutdown).
Proof.
  intros Hb sched p w p' w' stands Hn E; unfold wsConn_writeLoop_turn in E.
  destruct (plain_turn None None None false blen sched p w) as [[p1 w1] st] eqn:Et.
  pose proof (plain_turn_law blen Hb None None None false I I _ _ _ _ _ _ Hn Et) as H.
  destruct st as [|[err|]|]; injection E as <- <- <-; try exact H.
  destruct H as (fs & cl & H1 & H2 & H3 & H4 & _ & H5); exists fs, cl; split_and!; auto; discriminate.
Qed.

Lemma stands_whole stands (a b : list byte) :
  (stands = Again /\ a = b) \/ (stands = Again -> a = b -> False).
Proof. destruct stands; [destruct (decide (a = b))|right|right]; auto; discriminate. Qed.

Section InOrder.
Context (blen maxPayload : Z) (ins : list turn_input) (p p' : pipe) (wr : list byte)
        (stands : loop_end) (Hb : 0 < blen) (Hm : 0 <= maxPayload) (H32 : blen < 2 ^ 32)
        (Hn : Forall (fun i => no_rival (concat i.2)) ins).

Lemma http_parts_any fs closing bytes (b' : hbody) :
  closing_frames closing -> Forall (plain_frame blen) fs -> (length fs <= length ins)%nat ->
  bytes `prefix_of` encode_frames (fs ++ closing) -> p_buf p ++ wr = frames_data fs ++ p_buf p' ->
  (stands = Again -> bytes = w_out (hb_writer b') -> blen <= maxPayload -> False) ->
  exists fs rest tl, bytes = encode_frames fs ++ tl /\ stops maxPayload tl
    /\ Forall (plain_frame blen) fs /\ Forall (frame_ok maxPayload) fs
    /\ (length fs <= length ins)%nat /\ p_buf p ++ wr = frames_data fs ++ rest
    /\ (stands = Again -> bytes = w_out (hb_writer b') -> blen <= maxPayload -> rest = p_buf p').
Proof.
  intros Hc Hf Hl Hpre Hd Hno.
  destruct (body_parts_any blen maxPayload fs closing bytes)
    as (fs1 & fs2 & tl & -> & Hok & Hby & Hst); auto.
  apply Forall_app in Hf as [Hf _]; rewrite length_app in Hl.
  exists fs1, (frames_data fs2 ++ p_buf p'), tl; split_and!; auto.
  - etrans; [|exact Hl]; apply Nat.le_add_r.
  - rewrite Hd, frames_data_app, <- app_assoc; reflexivity.
  - intros Hs Hw Hle; destruct (Hno Hs Hw Hle).
Qed.

(** A body cut anywhere: complete frames, a prefix of what was written to the
    pipe, in front of something that stops the reader. *)
Lemma http_run_parts turn (b b' : hbody) bytes :
  (forall expired, turn_law (W := hbody) blen (turn expired)) ->
  w_out (hb_writer b) = [] -> plain_run blen turn ins p b = (p', b', wr, stands) ->
  bytes `prefix_of` w_out (hb_writer b') ->
  exists fs rest tl, bytes = encode_frames fs ++ tl /\ stops maxPayload tl
    /\ Forall (plain_frame blen) fs /\ Forall (frame_ok maxPayload) fs
    /\ (length fs <= length ins)%nat /\ p_buf p ++ wr = frames_data fs ++ rest
    /\ (stands = Again -> bytes = w_out (hb_writer b') -> blen <= maxPayload -> rest = p_buf p').
Proof.
  intros Ht H0 E Hpre.
  destruct (plain_run_law blen turn ins Ht p b p' b' wr stands Hn E)
    as (fs & closing & Hc & Hf & Hl & Hp & Ha & Hd).
  change (on_the_wire b) with (w_out (hb_writer b)) in Hp, Ha; rewrite H0 in Hp, Ha; cbn [app] in Hp, Ha.
  destruct (stands_whole stands bytes (w_out (hb_writer b'))) as [[Hs Hw]|Hnot].
  { destruct (Z.le_gt_cases blen maxPayload) as [Hle|Hgt].
    - exists fs, (p_buf p'), []; destruct (Ha Hs) as [_ Ho]; rewrite app_nil_r; split_and!; auto.
      + rewrite Hw; exact Ho.
      + intros r Hr; left; eexists; apply frame_next_at_end, Hr.
      + eapply Forall_impl; [exact Hf|]; intros f; apply plain_frame_ok; auto.
    - apply (http_parts_any fs closing bytes b' Hc Hf Hl); auto; [etrans; eauto|intros; lia]. }
  apply (http_parts_any fs closing bytes b' Hc Hf Hl); auto; etrans; eauto.
Qed.

Lemma ws_run_parts turn (c c' : wsocket) msgs :
  (forall expired, turn_law (W := wsocket) blen (turn expired)) ->
  ws_msgs c = [] -> plain_run blen turn ins p c = (p', c', wr, stands) ->
  msgs `prefix_of` ws_msgs c' ->
  exists fs closing, closing_frames closing /\ Forall (plain_frame blen) fs
    /\ msgs `prefix_of` map (fun f => wsEncode f.1 f.2) (fs ++ closing)
    /\ p_buf p ++ wr = frames_data fs ++ p_buf p'
    /\ (stands = Again -> msgs = ws_msgs c' -> (length fs <= length msgs)%nat).
Proof.
  intros Ht H0 E Hpre.
  destruct (plain_run_law blen turn ins Ht p c p' c' wr stands Hn E)
    as (fs & closing & Hc & Hf & Hl & Hp & Ha & Hd).
  change (on_the_wire c) with (ws_msgs c) in Hp, Ha; rewrite H0 in Hp, Ha; cbn [app] in Hp, Ha.
  change (on_the_wire c') with (ws_msgs c') in Hp, Ha.
  assert (Hall : forall fs, all_sent (W := wsocket) fs = map (fun f => wsEncode f.1 f.2) fs)
    by (intros gs; induction gs as [|g gs IH]; [reflexivity|];
        change (all_sent (g :: gs)) with ([wsEncode g.1 g.2] ++ all_sent gs); rewrite IH; reflexivity).
  rewrite !Hall in *; exists fs, closing; split_and!; auto; [etrans; eauto|].
  intros Hs ->; destruct (Ha Hs) as [_ ->]; rewrite length_map; lia.
Qed.
End InOrder.

(** C23: a streamed HTTP transport of a session without the byte layer delivers a
    prefix, in order.  Whatever is written to the source pipe while the sender
    runs (the server's pollStream, the client's feedSendStream, rollover and
    failed writes included), wherever the connection cuts the body, and whatever
    frame limit the receiver has, the receiver (the client's doStreamPoll, the
    server's pollSendStream) returns, and its pipe has gained a prefix of
    exactly those bytes; when the sender is still running, the whole body
    arrived and the sender's read buffer is within the receiver's limit, nothing
    is missing but what is still in the source pipe.  A frame beyond the limit
    stops the receiver; the limits of the downloads never meet that case, those
    of the uploads can. *)
Theorem plain_http_in_order fuel blen maxPayload ins p b p' b' wr stands body dst s :
  0 < blen < 2 ^ 32 -> 0 <= maxPayload ->
  Forall (fun i => no_rival (concat i.2)) ins -> w_out (hb_writer b) = [] ->
  r_bytes body `prefix_of` w_out (hb_writer b') -> (length ins < fuel)%nat ->
  p_closed dst = false -> s_rs s = None -> p_closed (s_toServer s) = false ->
  let whole := r_bytes body = w_out (hb_writer b') /\ blen <= maxPayload in
  (plain_run blen (pollStream_turn blen false) ins p b = (p', b', wr, stands) ->
   exists dst' err got rest, http_doStreamPoll fuel maxPayload (PollBody body) dst = Some (dst', err)
     /\ p_buf dst' = p_buf dst ++ got /\ p_buf p ++ wr = got ++ rest
     /\ (stands = Again -> whole -> rest = p_buf p'))
  /\ (plain_run blen (http_feedSendStream_turn blen) ins p b = (p', b', wr, stands) ->
      exists s' status got rest, pollSendStream fuel maxPayload false true body s = Some (s', status)
        /\ p_buf (s_toServer s') = p_buf (s_toServer s) ++ got /\ p_buf p ++ wr = got ++ rest
        /\ (stands = Again -> whole -> rest = p_buf p')).
Proof.
  intros [Hb H32] Hm Hn H0 Hpre Hfuel Hdst Hrs Hcs whole; split; intros E;
    (eapply http_run_parts in E as (fs & rest & tl & Hby & Hst & Hf & Hok & Hl & Hd & Hw);
     [|eauto..|intros expired; apply plain_turn_law; cbn; unfold closing_frames; auto|auto|exact Hpre]).
  - destruct (poll_frames_plain maxPayload blen tl fs Hst Hf Hok fuel body dst Hdst Hby
               (Nat.le_lt_trans _ _ _ Hl Hfuel))
      as (dst' & err & E' & Hb' & _).
    exists dst', err, (frames_data fs), rest; unfold whole; split_and!; auto; intros Hs []; auto.
  - destruct (upload_frames_plain maxPayload blen tl fs Hst Hf Hok fuel body s Hrs Hcs Hby
               (Nat.le_lt_trans _ _ _ Hl Hfuel))
      as (s' & st & E' & Hb').
    exists s', st, (frames_data fs), rest; unfold pollSendStream, whole; rewrite Hrs.
    split_and!; auto; intros Hs []; auto.
Qed.

(** C24: a WebSocket transport of a session without the byte layer delivers a
    prefix, in order: the server's wsWritePump to the client's readLoop, the
    client's writeLoop to the server's wsReadPump, when any initial part of the
    messages arrives. *)
Theorem plain_ws_in_order blen shutdown ins p c p' c' wr stands msgs dst s :
  0 < blen -> Forall (fun i => no_rival (concat i.2)) ins -> ws_msgs c = [] ->
  msgs `prefix_of` ws_msgs c' ->
  p_closed dst = false -> s_rs s = None -> p_closed (s_toServer s) = false ->
  let whole := msgs = ws_msgs c' in
  (plain_run blen (fun _ => wsWritePump_turn blen) ins p c = (p', c', wr, stands) ->
   exists dst' got rest,
     (wsConn_readLoop msgs dst = MsgNext dst' \/ exists err, wsConn_readLoop msgs dst = MsgProblem dst' err)
     /\ p_buf dst' = p_buf dst ++ got /\ p_buf p ++ wr = got ++ rest
     /\ (stands = Again -> whole -> rest = p_buf p'))
  /\ (plain_run blen (fun _ => wsConn_writeLoop_turn blen shutdown) ins p c = (p', c', wr, stands) ->
      exists s' err got rest, wsReadPump msgs s = Some (s', err)
        /\ p_buf (s_toServer s') = p_buf (s_toServer s) ++ got /\ p_buf p ++ wr = got ++ rest
        /\ (stands = Again -> whole -> rest = p_buf p')).
Proof.
  intros Hb Hn H0 Hpre Hdst Hrs Hcs whole; split; intros E.
  - eapply ws_run_parts in E as (fs & cl & Hc & Hf & Hp & Hd & Hw);
      [|eauto..|intros expired; apply plain_turn_law; cbn; auto|auto|exact Hpre].
    destruct (read_msgs_plain blen cl fs Hc Hf msgs dst Hdst Hp) as (d' & fs1 & fs2 & -> & Hb' & Hr & Hl).
    exists d', (frames_data fs1), (frames_data fs2 ++ p_buf p'); split_and!; auto.
    + rewrite Hd, frames_data_app, <- app_assoc; reflexivity.
    + intros Hs Hwh; rewrite (Hl (Hw Hs Hwh)); reflexivity.
  - eapply ws_run_parts in E as (fs & cl & Hc & Hf & Hp & Hd & Hw);
      [|eauto..|intros expired; apply writeLoop_turn_law; auto|auto|exact Hpre].
    destruct (pump_msgs_plain blen cl fs Hc Hf msgs s Hrs Hcs Hp)
      as (s' & err & fs1 & fs2 & E' & -> & Hb' & Hl).
    exists s', err, (frames_data fs1), (frames_data fs2 ++ p_buf p'); split_and!; auto.
    + rewrite Hd, frames_data_app, <- app_assoc; reflexivity.
    + intros Hs Hwh; rewrite (Hl (Hw Hs Hwh)); reflexivity.
Qed.

(** C30: streamed uploads ignore max_send_bytes.  The client sizes the frames of
    an upload stream by poll_buffer_bytes, and the server bounds them by
    MaxSendBytes: whenever a configuration (its check has no complaint about
    it) makes MaxSendBytes the smaller one, a write in between travels in one
    frame, numbered or not, that the server's reader refuses; the request ends
    without an answer and nothing is delivered. *)
Theorem upload_frames_ignore_max_send_bytes cfg0 mode resumable fuel p r inp s :
  let cfg := withDefaults cfg0 in
  let blen := streamMaxFrame (limits cfg mode resumable) in
  cfg_MaxSendBytes cfg < len (p_buf p) -> len (p_buf p) <= cfg_PollBufferSize cfg ->
  cfg_PollBufferSize cfg < 2 ^ 31 -> p_intr p = false ->
  has_pending r = false -> recvOffset r = lastAck r ->
  let b := (http_feedSendStream_turn blen false [] p ex_body).1.2 in
  let b' := (feedSendStream_turn blen false false [] (mk_ep r p inp) ex_body).1.2 in
  (forall body, r_bytes body = w_out (hb_writer b) ->
     pollSendStream (S fuel) (cfg_MaxSendBytes cfg) false true body s = Some (s, None))
  /\ (forall body, r_bytes body = w_out (hb_writer b') ->
        pollSendStream (S fuel) (cfg_MaxSendBytes cfg) false true body s = Some (s, None)).
Proof.
  intros cfg blen Hlt Hle H31 Hi Hp Ha.
  destruct (withDefaults_sizes cfg0 mode resumable) as [H0 Hblen]; fold cfg in H0, Hblen.
  fold blen in Hblen; rewrite Hblen; clearbody cfg.
  split; intros body Hbody.
  - rewrite feed_one_frame in Hbody by (auto; lia).
    eapply oversize_upload; [exact Hbody|lia..|].
    unfold frame_bound; rewrite !bool_decide_false by discriminate; lia.
  - destruct (feed_one_seq r p inp (cfg_PollBufferSize cfg) Hi ltac:(lia) Hp Ha) as [off E].
    rewrite E in Hbody; eapply oversize_upload; [exact Hbody|rewrite ?len_app, ?len_be_put; lia..|].
    unfold frame_bound; rewrite bool_decide_true by reflexivity.
    rewrite i64_id by (unfold is_i64, seqHeaderLen; lia).
    rewrite len_app, len_be_put; unfold seqHeaderLen; lia.
Qed.

(** ** Witnesses *)

Definition ex_src : pipe := (pipe_Write NewBufferedPipe [Byte.x41; Byte.x42; Byte.x43]).1.1.
Definition ex_ins : list turn_input := [(false, []); (false, [[EvWrite [Byte.x44]]]); (true, [[EvTimer]])].
Definition ex_plain : session := newSession "s1" ∅ 0.

(** Three frames of at most two bytes; the body is cut in the second. *)
Definition ex_run := plain_run 2 (pollStream_turn 2 false) ex_ins ex_src ex_body.
Definition ex_out : hbody := ex_run.1.1.2.
Definition ex_cut : reader := 
  mk_reader [take 9 (w_out (hb_writer ex_out)); take 4 (drop 9 (w_out (hb_writer ex_out)))] (ErrNet false).

Lemma plain_http_in_order_witness :
  exists dst' err got rest, http_doStreamPoll 4 16 (PollBody ex_cut) NewBufferedPipe = Some (dst', err)
    /\ p_buf dst' = [] ++ got /\ p_buf ex_src ++ [Byte.x44] = got ++ rest
    /\ (Leave None = Again -> r_bytes ex_cut = w_out (hb_writer ex_out) /\ 2 <= 16 -> rest = []).
Proof.
  apply (plain_http_in_order 4 2 16 ex_ins ex_src ex_body ex_run.1.1.1 ex_out [Byte.x44] (Leave None)
           ex_cut NewBufferedPipe ex_plain); try reflexivity; try (cbn; lia).
  - repeat constructor.
  - eexists (drop 13 (w_out (hb_writer ex_out))); vm_compute; reflexivity.
Defined.

Definition ex_ws_run :=
  plain_run 2 (fun _ => wsConn_writeLoop_turn 2 false) ex_ins ex_src
    (mk_ws [] [None; None; Some (ErrNet false)]).
Definition ex_ws : wsocket := ex_ws_run.1.1.2.

Lemma plain_ws_in_order_witness :
  exists s' err got rest, wsReadPump (ws_msgs ex_ws) ex_plain = Some (s', err)
    /\ p_buf (s_toServer s') = [] ++ got /\ p_buf ex_src ++ [Byte.x44] = got ++ rest
    /\ (Leave (Some (ErrNet false)) = Again -> ws_msgs ex_ws = ws_msgs ex_ws -> rest = []).
Proof.
  apply (plain_ws_in_order 2 false ex_ins ex_src (mk_ws [] [None; None; Some (ErrNet false)])
           ex_ws_run.1.1.1 ex_ws [Byte.x44] (Leave (Some (ErrNet false)))
           (ws_msgs ex_ws) NewBufferedPipe ex_plain); try reflexivity; try (cbn; lia).
  repeat constructor.
Defined.

(** A server that accepts two bytes a frame and answers polls with sixteen. *)
Definition ex_small : ServerConfig :=
  mk_ServerConfig 0 0 0 0 16 2 0 PollModeStream 0 0 false false 0 0 0.

Lemma upload_frames_ignore_max_send_bytes_witness :
  check ex_small = None /\
  pollSendStream 1 2 false true
    (mk_reader [w_out (hb_writer (feedSendStream_turn 16 false false []
       (mk_ep (newReliable 16) ex_src NewBufferedPipe) ex_body).1.2)] EOF) ex_plain
  = Some (ex_plain, None).
Proof.
  split; [reflexivity|].
  apply (upload_frames_ignore_max_send_bytes ex_small PollModeStream false 0 ex_src (newReliable 16)
           NewBufferedPipe ex_plain); vm_compute; (reflexivity || discriminate).
Defined.
