(* ===== verification/Poll.v ===== *)
(** * Poll.v: the server's poll and delete handlers

    Models PollHandler, pollStream and DeleteHandler (src/handler.go) over the
    world of Session.v, on top of the transports of Stream.v, Plain.v and
    Batch.v.  A request is a value; what the rest of the program does to the
    session's pipes while the handler waits is in the schedules of its
    environment.  [cfg] has passed check and got its defaults. *)

From Stdlib Require Import DecimalString.
From S2P Require Import Prelude Frame Pipe Protocol Reliable Channel Attach Session.
From S2P Require Import Connect Resume Batch Reconnect Stream Plain.

(** ** The request and what happens around the handler *)

Record poll_request := mk_preq {
  pq_SendStream : bool;             (* X-Send-Stream: true *)
  pq_SendStreamProbe : bool;
  pq_SendOnly : bool;
  pq_ReceiveOnly : bool;
  pq_RecvOffset : list string;      (* the values of X-Recv-Offset *)
  pq_SendOffset : list string;
  pq_body : reader;
}.

(** A turn of a streamed response: what it finds, and what happens while it
    waits. *)
Record stream_turn := mk_turn {
  tn_ctxDone : bool;
  tn_att : attachments;
  tn_expired : bool;
  tn_sched : list (list pipe_event);
}.

Record serve_env := mk_env {
  se_now : Z;                       (* beginPoll and touch *)
  se_end : Z;                       (* endPoll *)
  se_flusher : bool;                (* the response writer is an http.Flusher *)
  se_attached : option attachment;  (* what attach gives; None: errStillAttached *)
  se_cancelled : bool;
  se_cancelled' : bool;
  se_sched : list (list pipe_event);
  se_turns : list stream_turn;
  se_plan : list (option (nat * goerr));   (* the writes to the response *)
}.

(** What the client is sent. *)
Inductive poll_answer : Type :=
| PollError (status : Z)                       (* writeError *)
| PollHeader (status : Z)                      (* a status and no body *)
| PollData (data : list byte)                  (* 200 with a body *)
| PollBatched (r : batch_response)
| PollStreamed (b : hbody) (running : bool)    (* 200, then frames *)
| PollSilent.                                  (* nothing *)

(** [io.ReadAll(http.MaxBytesReader(w, r.Body, limit))] *)
Definition ReadAll (limit : Z) (body : reader) : read_body :=
  if limit <? len (r_bytes body) then BodyTooLarge
  else if bool_decide (r_end body = EOF) then BodyComplete (r_bytes body)
  else BodyBroken.

(** ** The handlers *)

(** A turn of pollStream's loop, with or without the byte layer. *)
Definition pollStream_step (bufsize : Z) (att : attachment) (t : stream_turn) (s : session) (b : hbody)
    : session * hbody * loop_end :=
  match s_rs s with
  | Some rs =>
      let '(e, b, stands) :=
        pollStreamResumable_turn bufsize (tn_ctxDone t) (tn_expired t) (tn_att t) att (tn_sched t)
          (sess_ep s rs) b in
      (set_ep e s, b, stands)
  | None =>
      let '(p, b, stands) :=
        pollStream_turn bufsize (tn_ctxDone t) (tn_expired t) (tn_sched t) (s_toClient s) b in
      (set_pipes (s_toServer s) p s, b, stands)
  end.

(** The loop; [true] when it is still running after [turns].  [None] is a
    panic. *)
Fixpoint pollStream_loop (bufsize : Z) (att : attachment) (turns : list stream_turn) (s : session)
    (b : hbody) : option (session * hbody * bool) :=
  match turns with
  | [] => Some (s, b, true)
  | t :: turns =>
      match pollStream_step bufsize att t s b with
      | (s, b, Again) => pollStream_loop bufsize att turns s b
      | (s, b, Leave _) => Some (s, b, false)
      | (_, _, LoopPanic) => None
      end
  end.

Definition pollStream (cfg : ServerConfig) (env : serve_env) (s : session)
    : option (session * poll_answer) :=
  let serve (att : attachment) (s : session) :=
    match pollStream_loop (cfg_PollBufferSize cfg) att (se_turns env) s (mk_hbody (mk_writer [] (se_plan env)) []) with
    | None => None
    | Some (s, b, running) => Some (s, PollStreamed b running)
    end in
  if negb (se_flusher env) then Some (s, PollError StatusInternalServerError)
  else match s_rs s, s_att s with
  | None, _ => serve 0%nat s
  | Some _, None => None     (* s.att is nil *)
  | Some rs, Some _ =>
      match se_attached env with
      | None => Some (s, PollError StatusServiceUnavailable)
      | Some att => serve att (set_rs (Some (resetAck rs)) s)
      end
  end.

(** An upload stream needs at most a turn for every byte of its body. *)
Definition serve_upload (cfg : ServerConfig) (q : poll_request) (env : serve_env) (s : session)
    : option (session * poll_answer) :=
  match s_rs s, s_att s, pq_SendStreamProbe q with
  | Some _, None, false => None
  | _, _, _ =>
      match pollSendStream (S (length (r_bytes (pq_body q)))) (cfg_MaxSendBytes cfg) (pq_SendStreamProbe q)
              (bool_decide (is_Some (se_attached env))) (pq_body q) s with
      | None => None
      | Some (s, None) => Some (s, PollSilent)
      | Some (s, Some status) =>
          Some (s, if status =? StatusOK then PollHeader status else PollError status)
      end
  end.

(** The poll of a session without the byte layer, in batch mode. *)
Definition poll_plain (cfg : ServerConfig) (env : serve_env) (s : session) : session * poll_answer :=
  match ReadAvailable (s_toClient s) (cfg_PollBufferSize cfg) (se_sched env) with
  | (p, r, _) =>
      let s := set_pipes (s_toServer s) p s in
      match r with
      | Ok (b :: data) => (s, PollData (b :: data))
      | Fail EOF => (s, PollError StatusGone)
      | _ => (s, PollHeader StatusNoContent)
      end
  end.

(** Run a handler of the session on the session at [l]. *)
Definition at_session (l : loc) (f : session -> option (session * poll_answer)) (w : world)
    : option (world * poll_answer) :=
  match w_heap w !! l with
  | None => None
  | Some s =>
      match f s with
      | None => None
      | Some (s, a) => Some (set_heap (<[l := s]> (w_heap w)) w, a)
      end
  end.

(** Between OnPoll and the deferred endPoll. *)
Definition poll_serve (cfg : ServerConfig) (q : poll_request) (env : serve_env) (l : loc) (s : session)
    (w : world) : option (world * poll_answer) :=
  if pq_SendStream q then
    if match s_rs s with
       | Some _ => bool_decide (s_transport s = TransportWebSocket) || negb (s_uploadStream s)
       | None => false
       end
    then Some (w, PollError StatusBadRequest)
    else at_session l (serve_upload cfg q env) w
  else match s_rs s with
  | Some rs =>
      let send := pq_SendOnly q in
      let receive := pq_ReceiveOnly q in
      if bool_decide (s_transport s = TransportWebSocket) || Bool.eqb send receive
      then Some (w, PollError StatusBadRequest)
      else if receive && bool_decide (s_pollMode s = PollModeStream)
      then at_session l (pollStream cfg env) w
      else if s_batchResume s && (negb send || negb (s_uploadStream s)) then
        let limit := if send then cfg_MaxSendBytes cfg else 0 in
        match s_att s with
        | None => None
        | Some _ =>
            match pollBatchResumable send (cfg_PollBufferSize cfg)
                    (mk_breq (pq_RecvOffset q) (pq_SendOffset q) (r_bytes (pq_body q)))
                    (mk_benv (bool_decide (is_Some (se_attached env))) (ReadAll limit (pq_body q))
                       (se_cancelled env) (se_cancelled' env) (se_sched env))
                    (sess_ep s rs) with
            | Responded e r => Some (set_heap (<[l := set_ep e s]> (w_heap w)) w, PollBatched r)
            | Silent e => Some (set_heap (<[l := set_ep e s]> (w_heap w)) w, PollSilent)
            | Violation e =>
                Some (closeSession l ReasonProtocolViolation (se_now env)
                        (set_heap (<[l := set_ep e s]> (w_heap w)) w),
                      PollError StatusRequestEntityTooLarge)
            | BatchPanic => None
            end
        end
      else Some (w, PollError StatusBadRequest)
  | None =>
      match ReadAll (cfg_MaxSendBytes cfg) (pq_body q) with
      | BodyTooLarge =>
          Some (closeSession l ReasonProtocolViolation (se_now env) w,
                PollError StatusRequestEntityTooLarge)
      | BodyBroken => Some (w, PollError StatusBadRequest)
      | BodyComplete data =>
          let s := if 0 <? len data then (writeUpstream s data).1 else s in
          let w := set_heap (<[l := s]> (w_heap w)) w in
          if pq_SendOnly q then Some (w, PollHeader StatusOK)
          else if bool_decide (s_pollMode s = PollModeStream) then at_session l (pollStream cfg env) w
          else at_session l (fun s => Some (poll_plain cfg env s)) w
      end
  end.

(** [PollHandler] as a request goes through it.  Each phase ends where the
    handler lets go of the locks; [PhBegun], [PhServing] and [PhLeaving] are
    between beginPoll and the deferred endPoll. *)
Inductive poll_phase : Type :=
| PhArrived
| PhFound (l : loc)
| PhBegun (l : loc)
| PhServing (l : loc)
| PhLeaving (l : loc) (a : poll_answer)
| PhDone (a : poll_answer).

(** One phase; [onPoll] is Hooks.OnPoll, and [None] a panic. *)
Definition poll_next (cfg : ServerConfig) (onPoll : option (loc -> world -> world)) (id : string)
    (q : poll_request) (env : serve_env) (ph : poll_phase) (w : world) : option (world * poll_phase) :=
  match ph with
  | PhArrived =>
      match store_Get id w with
      | None => Some (w, PhDone (PollError StatusNotFound))
      | Some l => Some (w, PhFound l)
      end
  | PhFound l =>
      match w_heap w !! l with
      | None => None
      | Some s =>
          match beginPoll (se_now env) s with
          | (_, false) => Some (w, PhDone (PollError StatusGone))
          | (s, true) => Some (set_heap (<[l := s]> (w_heap w)) w, PhBegun l)
          end
      end
  | PhBegun l =>
      let w := on_session l (touch (se_now env)) w in
      Some (match onPoll with None => w | Some hook => hook l w end, PhServing l)
  | PhServing l =>
      match w_heap w !! l with
      | None => None
      | Some s =>
          match poll_serve cfg q env l s w with
          | None => None
          | Some (w, a) => Some (w, PhLeaving l a)
          end
      end
  | PhLeaving l a => Some (on_session l (endPoll (se_end env)) w, PhDone a)
  | PhDone a => Some (w, PhDone a)
  end.

(** The phases in a row; five of them suffice. *)
Fixpoint poll_phases (fuel : nat) (cfg : ServerConfig) (onPoll : option (loc -> world -> world))
    (id : string) (q : poll_request) (env : serve_env) (ph : poll_phase) (w : world)
    : option (world * poll_answer) :=
  match ph, fuel with
  | PhDone a, _ => Some (w, a)
  | _, O => None
  | _, S fuel =>
      match poll_next cfg onPoll id q env ph w with
      | None => None
      | Some (w, ph) => poll_phases fuel cfg onPoll id q env ph w
      end
  end.

(** [PollHandler] with nothing else running between its phases. *)
Definition PollHandler (cfg : ServerConfig) (onPoll : option (loc -> world -> world)) (id : string)
    (q : poll_request) (env : serve_env) (w : world) : option (world * poll_answer) :=
  poll_phases 5 cfg onPoll id q env PhArrived w.

Definition DeleteHandler (id : string) (now : Z) (w : world) : world * Z :=
  match store_Get id w with
  | None => (w, StatusNotFound)
  | Some l => (closeSession l ReasonClientDelete now w, StatusOK)
  end.

(** The handler as one piece of code. *)
Lemma PollHandler_eq cfg onPoll id q env w :
  PollHandler cfg onPoll id q env w =
  match store_Get id w with
  | None => Some (w, PollError StatusNotFound)
  | Some l =>
      match w_heap w !! l with
      | None => None
      | Some s =>
          match beginPoll (se_now env) s with
          | (_, false) => Some (w, PollError StatusGone)
          | (s, true) =>
              let w := set_heap (<[l := touch (se_now env) s]> (w_heap w)) w in
              let w := match onPoll with None => w | Some hook => hook l w end in
              match w_heap w !! l with
              | None => None
              | Some s =>
                  match poll_serve cfg q env l s w with
                  | None => None
                  | Some (w, a) => Some (on_session l (endPoll (se_end env)) w, a)
                  end
              end
          end
      end
  end.
Proof.
  unfold PollHandler; cbn [poll_phases poll_next]; destruct (store_Get id w) as [l|]; [|reflexivity].
  cbn [poll_phases poll_next]; destruct (w_heap w !! l) as [s|] eqn:Hl; [|reflexivity].
  destruct (beginPoll (se_now env) s) as [s1 [|]]; [|reflexivity].
  cbn [poll_phases poll_next].
  assert (E : on_session l (touch (se_now env)) (set_heap (<[l:=s1]> (w_heap w)) w)
              = set_heap (<[l:=touch (se_now env) s1]> (w_heap w)) w).
  { unfold on_session; cbn [w_heap set_heap].
    rewrite (alter_is_insert _ l _ s1) by apply lookup_insert_eq; rewrite insert_insert_eq; reflexivity. }
  rewrite E; clear E; set (w1 := match onPoll with Some _ => _ | None => _ end).
  destruct (w_heap w1 !! l) as [s2|]; [|reflexivity].
  destruct (poll_serve cfg q env l s2 w1) as [[w2 a]|]; reflexivity.
Qed.

(** ** What a handler does to a session *)

(** The operations of the byte layer that lead from one endpoint to another;
    [v] bounds the bytes they bring in. *)
Definition layer_runs (v : Z) (e e' : endpoint) : Prop :=
  exists ops, rel_run e ops = Some e' /\ Forall op_ok ops /\ volume ops <= v.

Lemma layer_refl v e : 0 <= v -> layer_runs v e e.
Proof. intros; exists []; auto. Qed.

Lemma layer_op v e op e' : rel_apply e op = Some e' -> op_ok op -> op_volume op <= v -> layer_runs v e e'.
Proof.
  intros E Ho Hv; exists [op]; cbn [rel_run]; rewrite E; split_and!; [reflexivity|repeat constructor; exact Ho|].
  rewrite volume_cons; cbn; lia.
Qed.

Lemma rel_run_app ops ops' : forall e e', rel_run e ops = Some e' ->
  rel_run e (ops ++ ops') = rel_run e' ops'.
Proof.
  induction ops as [|op ops IH]; intros e e' E; cbn in *; [injection E as <-; reflexivity|].
  destruct (rel_apply e op); [auto|discriminate].
Qed.

Lemma volume_app ops ops' : volume (ops ++ ops') = volume ops + volume ops'.
Proof.
  induction ops as [|op ops IH]; [reflexivity|]; cbn [app]; rewrite !volume_cons, IH; lia.
Qed.

Lemma layer_trans v v' e e1 e2 : layer_runs v e e1 -> layer_runs v' e1 e2 -> layer_runs (v + v') e e2.
Proof.
  intros (ops & E & Ho & Hv) (ops' & E' & Ho' & Hv'); exists (ops ++ ops').
  rewrite (rel_run_app ops ops' e e1 E), volume_app; split_and!; [exact E'|apply Forall_app; auto|lia].
Qed.

Lemma layer_more v v' e e' : layer_runs v e e' -> v <= v' -> layer_runs v' e e'.
Proof. intros (ops & E & Ho & Hv) Hle; exists ops; split_and!; auto; lia. Qed.

Lemma layer_inv V v e e' : ep_inv V e -> V + v < 2 ^ 63 -> layer_runs v e e' -> ep_inv (V + v) e'.
Proof.
  intros Hi Hm (ops & E & Ho & Hv).
  destruct (rel_run_inv ops V e Hi Ho ltac:(lia)) as (e1 & E1 & H1).
  rewrite E in E1; injection E1 as <-; eapply ep_inv_weaken; [exact H1|lia].
Qed.

(** A closed pipe stays closed. *)
Lemma apply_event_closed p ev : p_closed p = true -> p_closed (apply_event p ev) = true.
Proof.
  intros Hc; destruct ev as [d| | |n|]; cbn; auto.
  - unfold pipe_Write; rewrite Hc; exact Hc.
  - unfold pipe_Read; destruct (p_buf p); [rewrite Hc|]; cbn; exact Hc.
Qed.

Lemma run_events_closed evs : forall p, p_closed p = true -> p_closed (run_events p evs) = true.
Proof.
  induction evs as [|ev evs IH]; intros p Hc; [exact Hc|].
  rewrite run_events_cons; apply IH, apply_event_closed, Hc.
Qed.

Lemma ReadAvailable_closed p blen sched :
  p_closed p = true -> p_closed (ReadAvailable p blen sched).1.1 = true.
Proof.
  intros Hc; destruct (ReadAvailable_unfolds p blen sched) as (used & p1 & _ & -> & Hr).
  pose proof (run_events_closed (concat used) p Hc).
  unfold ra_result in Hr; destruct Hr as [[-> _]|[[-> _]|[[-> _]| ->]]]; cbn; auto.
Qed.

Definition stays_closed (e e' : endpoint) : Prop :=
  (p_closed (ep_out e) = true -> p_closed (ep_out e') = true)
  /\ (p_closed (ep_in e) = true -> p_closed (ep_in e') = true).

Lemma rel_apply_closed e op e' : rel_apply e op = Some e' -> stays_closed e e'.
Proof.
  unfold stays_closed; destruct op; cbn [rel_apply]; intros E;
    try (injection E as <-; cbn; auto using apply_event_closed; fail).
  - injection E as <-; split; [apply (apply_event_closed _ (EvWrite data))|auto].
  - injection E as <-; split; [auto|apply (apply_event_closed _ (EvRead dst))].
  - unfold nextOut in E; destruct (has_pending (ep_rl e)).
    + destruct (pending_out (ep_rl e) blen) as [[[r off] chunk]|]; [|discriminate].
      injection E as <-; cbn; auto.
    + pose proof (ReadAvailable_closed (ep_out e) blen sched) as H.
      destruct (ReadAvailable (ep_out e) blen sched) as [[out [[|b d]|err]] rest]; cbn in H.
      * injection E as <-; cbn; auto.
      * destruct (number_out (ep_rl e) (b :: d)) as [r off]; injection E as <-; cbn; auto.
      * injection E as <-; cbn; auto.
  - unfold recvIn in E; repeat case_match; simplify_eq; cbn; auto.
    all: unfold pipe_Write in *; repeat case_match; simplify_eq; cbn; split; intros; congruence.
  - unfold rel_ack in E; repeat case_match; simplify_eq; cbn; auto.
  - unfold resumeOut in E; repeat case_match; simplify_eq; cbn; auto.
Qed.

Lemma layer_closed v e e' : layer_runs v e e' -> stays_closed e e'.
Proof.
  intros (ops & E & _); revert e E; induction ops as [|op ops IH]; intros e E; cbn in E.
  - injection E as <-; split; auto.
  - destruct (rel_apply e op) as [e1|] eqn:E1; [|discriminate].
    destruct (rel_apply_closed e op e1 E1), (IH e1 E); split; auto.
Qed.

(** An action on the layer that cannot panic, whatever the peer sent. *)
Definition runs_total {A} (v : Z) (act : endpoint -> option (endpoint * A)) : Prop :=
  forall V e, ep_inv V e -> V + v < 2 ^ 63 -> exists e' a, act e = Some (e', a) /\ layer_runs v e e'.

Lemma recvIn_total off p : 0 <= off -> runs_total (len p) (fun e => recvIn e off p).
Proof.
  intros Ho V e Hi Hm; destruct (recvIn_inv V e off p Hi Ho Hm) as (e' & err & E & _).
  exists e', err; split; [exact E|]; apply (layer_op _ e (OpRecv off p)); cbn; [rewrite E; reflexivity|exact Ho|lia].
Qed.

Lemma ack_total n : 0 <= n ->
  runs_total 0 (fun e => match rel_ack (ep_rl e) n with
                         | None => None
                         | Some (rl, err) => Some (on_rl (fun _ => rl) e, err)
                         end).
Proof.
  intros Hn V e (sent & got & Hr & _) _; destruct (rel_ack_spec sent got _ n Hr Hn) as (r & err & E & _).
  rewrite E; do 2 eexists; split; [reflexivity|].
  apply (layer_op _ e (OpAck n)); cbn; [rewrite E; reflexivity|exact Hn|lia].
Qed.

Lemma silent_total {A} v (f : endpoint -> endpoint) (a : A) op :
  0 <= v -> (forall e, rel_apply e op = Some (f e)) -> op_ok op -> op_volume op = 0 ->
  runs_total v (fun e => Some (f e, a)).
Proof.
  intros Hv Hop Ho H0 V e _ _; do 2 eexists; split; [reflexivity|].
  apply (layer_op _ e op); [apply Hop|exact Ho|lia].
Qed.

Lemma id_total {A} v (a : A) : 0 <= v -> runs_total v (fun e => Some (e, a)).
Proof. intros Hv V e _ _; do 2 eexists; split; [reflexivity|apply layer_refl, Hv]. Qed.

Lemma recv_seq_total payload : runs_total (len payload) (recv_seq payload).
Proof.
  unfold recv_seq, splitSeq; intros V e Hi Hm; pose proof (len_nonneg payload).
  destruct (Z.ltb_spec (len payload) seqHeaderLen) as [Hs|Hs]; [apply (id_total (len payload)) with V; auto; lia|].
  assert (Hl : len (drop 8 payload) <= len payload) by (unfold len; rewrite length_drop; lia).
  destruct (recvIn_total (be_get (take 8 payload)) (drop 8 payload) (proj1 (be_get_range _)) V e Hi ltac:(lia))
    as (e' & err & E & Hr).
  exists e', err; split; [exact E|]; eapply layer_more; eauto.
Qed.

Lemma recv_ack_total payload : runs_total 0 (recv_ack payload).
Proof.
  unfold recv_ack, decodeAck; intros V e Hi Hm.
  destruct (len payload =? seqHeaderLen); cbn [negb]; [|apply (id_total 0) with V; auto; lia].
  exact (ack_total (be_get (take 8 payload)) (proj1 (be_get_range _)) V e Hi Hm).
Qed.

Lemma nextOut_total blen sched V e :
  0 < blen -> ep_inv V e -> V + events_volume (concat sched) < 2 ^ 63 ->
  exists e' r rest, nextOut e blen sched = Some (e', r, rest)
    /\ layer_runs (events_volume (concat sched)) e e'.
Proof.
  intros Hb Hi Hm; destruct (nextOut_inv V e blen sched Hi Hb Hm) as (e' & r & rest & E & _).
  exists e', r, rest; split; [exact E|].
  apply (layer_op _ e (OpNextOut blen sched)); cbn; [rewrite E; reflexivity|exact Hb|lia].
Qed.

Lemma emit_runs {W} `{FrameSink W} e (w : W) off data intr e' w' err :
  emit e w off data intr = (e', w', err) -> layer_runs 0 e e'.
Proof.
  unfold emit; intros E.
  assert (Hrun : layer_runs 0 e (on_rl (fun r => (takeAck r).1) e))
    by (apply (layer_op _ e OpTakeAck); cbn; auto; lia).
  unfold on_rl in Hrun; destruct (takeAck (ep_rl e)) as [rl due]; cbn [fst] in Hrun.
  destruct (match due with Some ack => _ | None => _ end) as [w1 [err1|]];
    [injection E as <- <- <-; exact Hrun|].
  destruct (if negb (len data =? 0) then _ else _) as [w2 err2]; injection E as <- <- <-; exact Hrun.
Qed.

Lemma send_turn_total {W} `{FrameSink W} onEOF eofErr intr final expired blen sched V e (w : W) :
  0 < blen -> ep_inv V e -> V + events_volume (concat sched) < 2 ^ 63 ->
  exists e' w' st, send_turn onEOF eofErr intr final expired blen sched e w = (e', w', st)
    /\ st <> LoopPanic /\ layer_runs (events_volume (concat sched)) e e'.
Proof.
  intros Hb Hi Hm; destruct (nextOut_total blen sched V e Hb Hi Hm) as (e1 & r & rest & E & Hr).
  unfold send_turn; rewrite E.
  assert (Hgo : forall off data b, exists e' w' st,
    (let '(e, w, err) := emit e1 w off data b in
     match err with
     | Some err => (e, w, Leave (Some err))
     | None => if expired then (e, match final with Some typ => (sink_frame w typ []).1 | None => w end,
                                Leave None) else (e, w, Again)
     end) = (e', w', st) /\ st <> LoopPanic /\ layer_runs (events_volume (concat sched)) e e').
  { intros off data b; destruct (emit e1 w off data b) as [[e2 w2] err] eqn:Ee.
    apply emit_runs in Ee; pose proof (layer_trans _ _ _ _ _ Hr Ee) as Ht; rewrite Z.add_0_r in Ht.
    destruct err as [err|]; [|destruct expired]; do 3 eexists; split_and!; eauto; discriminate. }
  destruct r as [[off d]|err]; [apply Hgo|].
  destruct err; try apply Hgo;
    [do 3 eexists; split_and!; eauto; discriminate|].
  destruct intr as [o|]; [do 3 eexists; split_and!; eauto; discriminate|apply Hgo].
Qed.

(** Traffic on a session: only its pipes and its byte layer move, the layer by
    its own operations. *)
Definition traffic (v : Z) (s s' : session) : Prop :=
  exists up down rs', s' = set_rs rs' (set_pipes up down s)
    /\ (p_closed (s_toServer s) = true -> p_closed up = true)
    /\ (p_closed (s_toClient s) = true -> p_closed down = true)
    /\ match s_rs s with
       | None => rs' = None
       | Some r => exists r', rs' = Some r' /\ layer_runs v (sess_ep s r) (mk_ep r' down up)
       end.

(** A session whose layer has been fed at most [V] bytes and is usable. *)
Definition typed (V : Z) (s : session) : Prop :=
  (is_Some (s_rs s) -> is_Some (s_att s))
  /\ match s_rs s with Some r => ep_inv V (sess_ep s r) | None => True end.

Lemma traffic_refl v s : 0 <= v -> traffic v s s.
Proof.
  intros Hv; exists (s_toServer s), (s_toClient s), (s_rs s); split; [destruct s; reflexivity|].
  split_and!; auto; destruct (s_rs s) as [r|] eqn:E; [|reflexivity].
  exists r; split; [reflexivity|apply layer_refl, Hv].
Qed.

Lemma traffic_trans v v' s s1 s2 : traffic v s s1 -> traffic v' s1 s2 -> traffic (v + v') s s2.
Proof.
  intros (up & down & rs & -> & H1 & H2 & H3) (up' & down' & rs' & -> & H1' & H2' & H3').
  exists up', down', rs'; split; [reflexivity|]; cbn in *; split_and!; auto.
  destruct (s_rs s) as [r|]; [|subst rs; exact H3'].
  destruct H3 as (r1 & -> & Hr1), H3' as (r2 & -> & Hr2); exists r2; split; [reflexivity|].
  exact (layer_trans _ _ _ _ _ Hr1 Hr2).
Qed.

Lemma traffic_more v v' s s' : traffic v s s' -> v <= v' -> traffic v' s s'.
Proof.
  intros (up & down & rs & -> & H1 & H2 & H3) Hv; exists up, down, rs; split_and!; auto.
  destruct (s_rs s); [|exact H3]; destruct H3 as (r' & -> & Hr); eauto using layer_more.
Qed.

Lemma traffic_typed V v s s' : typed V s -> V + v < 2 ^ 63 -> traffic v s s' -> typed (V + v) s'.
Proof.
  intros [Ha Hi] Hm (up & down & rs & -> & _ & _ & H3); split; cbn.
  - intros [r Hr]; apply Ha; destruct (s_rs s); [eauto|congruence].
  - destruct (s_rs s) as [r|]; [|subst rs; exact I]; destruct H3 as (r' & -> & Hr).
    exact (layer_inv _ _ _ _ Hi Hm Hr).
Qed.

Lemma traffic_same_life v s s' : traffic v s s' -> same_life s s'.
Proof. intros (up & down & rs & -> & H1 & H2 & _); repeat split; auto. Qed.

Lemma traffic_layer v s r e : s_rs s = Some r -> layer_runs v (sess_ep s r) e -> traffic v s (set_ep e s).
Proof.
  intros Hr Hl; destruct (layer_closed _ _ _ Hl) as [Ho Hi].
  exists (ep_in e), (ep_out e), (Some (ep_rl e)); split_and!; auto.
  rewrite Hr; exists (ep_rl e); split; [reflexivity|]; destruct e; exact Hl.
Qed.

(** Without the layer only the pipes move. *)
Lemma traffic_plain v s up down : s_rs s = None ->
  (p_closed (s_toServer s) = true -> p_closed up = true) ->
  (p_closed (s_toClient s) = true -> p_closed down = true) -> traffic v s (set_pipes up down s).
Proof.
  intros Hr H1 H2; exists up, down, None; split_and!; auto; [|rewrite Hr; reflexivity].
  unfold set_rs, set_pipes; cbn; rewrite Hr; reflexivity.
Qed.

Lemma traffic_upstream v s data : s_rs s = None -> traffic v s (writeUpstream s data).1.
Proof.
  intros Hr; unfold writeUpstream; pose proof (apply_event_closed (s_toServer s) (EvWrite data)) as Hc.
  cbn in Hc; destruct (pipe_Write (s_toServer s) data) as [[p r] w]; cbn in *.
  apply traffic_plain; auto.
Qed.

(** A handler of a session that cannot panic. *)
Definition serves {A} (v : Z) (f : session -> option (session * A)) : Prop :=
  forall V s, typed V s -> V + v < 2 ^ 63 -> exists s' a, f s = Some (s', a) /\ traffic v s s'.

Lemma serves_id {A} v (a : A) : 0 <= v -> serves v (fun s => Some (s, a)).
Proof. intros Hv V s _ _; do 2 eexists; split; [reflexivity|apply traffic_refl, Hv]. Qed.

Lemma on_layer_serves {A} v (act : endpoint -> option (endpoint * A)) V s r :
  runs_total v act -> s_rs s = Some r -> typed V s -> V + v < 2 ^ 63 ->
  exists s' a, on_layer act r s = Some (s', a) /\ traffic v s s'.
Proof.
  intros Ht Hr [_ Hi] Hm; rewrite Hr in Hi; destruct (Ht V _ Hi Hm) as (e & a & E & Hl).
  unfold on_layer; rewrite E; do 2 eexists; split; [reflexivity|eapply traffic_layer; eauto].
Qed.

Lemma option_map_total {A B} v (act : endpoint -> option (endpoint * A)) (g : A -> B) :
  runs_total v act -> runs_total v (fun e => option_map (prod_map id g) (act e)).
Proof.
  intros Ht V e Hi Hm; destruct (Ht V e Hi Hm) as (e' & a & E & Hl).
  exists e', (g a); rewrite E; auto.
Qed.

Lemma runs_total_more {A} v v' (act : endpoint -> option (endpoint * A)) :
  runs_total v act -> v <= v' -> runs_total v' act.
Proof.
  intros Ht Hv V e Hi Hm; destruct (Ht V e Hi ltac:(lia)) as (e' & a & E & Hl).
  exists e', a; split; [exact E|eapply layer_more; eauto].
Qed.

Lemma pollSendStream_frame_serves probe f : serves (len f.2) (pollSendStream_frame probe f).
Proof.
  destruct f as [typ payload]; intros V s Hs Hm; cbn [snd] in *; unfold pollSendStream_frame.
  pose proof (len_nonneg payload) as Hn.
  assert (Hid : forall a : option Z, exists s' a', Some (s, a) = Some (s', a') /\ traffic (len payload) s s')
    by (intros a; do 2 eexists; split; [reflexivity|apply traffic_refl; lia]).
  destruct (s_rs s) as [r|] eqn:Hr; [destruct probe; cbn [negb]; rewrite ?orb_true_r|].
  - repeat case_bool_decide; apply Hid.
  - repeat case_bool_decide; try apply Hid.
    + destruct (len payload =? 0); cbn [orb]; [apply Hid|].
      eapply on_layer_serves; eauto; apply option_map_total.
      apply (silent_total _ (on_rl markBroken) _ OpMarkBroken); cbn; auto.
    + eapply on_layer_serves; eauto; apply option_map_total, recv_seq_total.
    + eapply on_layer_serves; eauto; apply option_map_total.
      eapply runs_total_more; [apply recv_ack_total|lia].
  - repeat case_bool_decide; try apply Hid.
    destruct ((len payload =? 0) || probe); [apply Hid|].
    pose proof (traffic_upstream (len payload) s payload Hr) as Ht.
    destruct (writeUpstream s payload) as [s' [n|err]]; do 2 eexists; split; eauto.
Qed.

(** A frame takes its header and its payload off the body. *)
Lemma frame_next_consumes maxPayload r f r' : frame_next maxPayload r = (Ok f, r') ->
  (length (r_bytes r') + length f.2 < length (r_bytes r))%nat.
Proof.
  unfold frame_next; intros E.
  destruct (Nat.le_gt_cases 5 (length (r_bytes r))) as [Hh|Hh];
    [|rewrite (readFull_short r 5 Hh) in E; discriminate].
  destruct (readFull_enough r 5 (take 5 (r_bytes r)) (drop 5 (r_bytes r))) as (r1 & E1 & Hb1 & _);
    [symmetry; apply take_drop|apply firstn_length_le; exact Hh|].
  rewrite E1 in E; pose proof (f_equal length Hb1) as Hl; rewrite length_drop in Hl.
  destruct (take 5 (r_bytes r)) as [|typ hdr]; [discriminate|].
  repeat case_match; simplify_eq; cbn [snd length]; [lia|].
  match goal with H : readFull r1 ?n = _ |- _ => set (k := n) in *; rename H into E2 end.
  destruct (Nat.le_gt_cases k (length (r_bytes r1))) as [Hk|Hk];
    [|rewrite (readFull_short r1 k Hk) in E2; discriminate].
  destruct (readFull_enough r1 k (take k (r_bytes r1)) (drop k (r_bytes r1))) as (r2 & E3 & Hb2 & _);
    [symmetry; apply take_drop|apply firstn_length_le; exact Hk|].
  rewrite E3 in E2; injection E2 as <- <-.
  rewrite Hb2, length_drop, firstn_length_le by exact Hk; lia.
Qed.

Lemma pollSendStream_loop_serves maxSend probe fuel : forall body,
  (length (r_bytes body) < fuel)%nat ->
  serves (len (r_bytes body)) (pollSendStream_loop fuel maxSend probe body).
Proof.
  induction fuel as [|fuel IH]; intros body Hf V s Hs Hm; [lia|]; cbn [pollSendStream_loop].
  pose proof (len_nonneg (r_bytes body)) as Hn.
  assert (Hid : forall a : option Z, exists s' a', Some (s, a) = Some (s', a') /\ traffic (len (r_bytes body)) s s')
    by (intros a; do 2 eexists; split; [reflexivity|apply traffic_refl; lia]).
  destruct (frame_next maxSend body) as [[f|err] body'] eqn:E; [|destruct err; apply Hid].
  apply frame_next_consumes in E.
  assert (Hlen : len (r_bytes body') + len f.2 <= len (r_bytes body)) by (unfold len; lia).
  pose proof (len_nonneg (r_bytes body')); pose proof (len_nonneg f.2).
  assert (Hf1 : V + len f.2 < 2 ^ 63) by lia.
  destruct (pollSendStream_frame_serves probe f V s Hs Hf1) as (s1 & st & -> & Ht).
  destruct st as [st|]; [do 2 eexists; split; [reflexivity|eapply traffic_more; eauto; lia]|].
  destruct (IH body' ltac:(lia) (V + len f.2) s1 (traffic_typed _ _ _ _ Hs Hf1 Ht) ltac:(lia))
    as (s2 & st2 & E2 & Ht2).
  exists s2, st2; split; [exact E2|]; eapply traffic_more; [eapply traffic_trans; eauto|lia].
Qed.

Lemma serve_upload_serves cfg q env : serves (len (r_bytes (pq_body q))) (serve_upload cfg q env).
Proof.
  intros V s Hs Hm; unfold serve_upload, pollSendStream; pose proof (len_nonneg (r_bytes (pq_body q))).
  assert (Hgo : exists s' a,
    match (if match s_rs s with Some _ => negb (pq_SendStreamProbe q) | None => false end
              && negb (bool_decide (is_Some (se_attached env)))
           then Some (s, Some StatusServiceUnavailable)
           else pollSendStream_loop (S (length (r_bytes (pq_body q)))) (cfg_MaxSendBytes cfg)
                  (pq_SendStreamProbe q) (pq_body q) s) with
    | None => None
    | Some (s, None) => Some (s, PollSilent)
    | Some (s, Some status) => Some (s, if status =? StatusOK then PollHeader status else PollError status)
    end = Some (s', a) /\ traffic (len (r_bytes (pq_body q))) s s').
  { destruct (_ && _); [do 2 eexists; split; [reflexivity|apply traffic_refl; lia]|].
    destruct (pollSendStream_loop_serves (cfg_MaxSendBytes cfg) (pq_SendStreamProbe q) _ (pq_body q)
                (Nat.lt_succ_diag_r _) V s Hs Hm) as (s' & [st|] & -> & Ht); eauto. }
  destruct (s_rs s) as [r|] eqn:Hr, (s_att s) as [att|] eqn:Ha, (pq_SendStreamProbe q); try apply Hgo.
  destruct Hs as [Hs _]; rewrite Hr, Ha in Hs; destruct (Hs ltac:(eauto)) as [x Hx]; discriminate.
Qed.

(** A streamed response brings in what the application writes meanwhile. *)
Definition turns_volume (turns : list stream_turn) : Z :=
  foldr (fun t n => events_volume (concat (tn_sched t)) + n) 0 turns.

Lemma turns_volume_nonneg turns : 0 <= turns_volume turns.
Proof.
  induction turns as [|t turns IH]; cbn; [lia|].
  pose proof (events_volume_nonneg (concat (tn_sched t))); unfold turns_volume in IH; lia.
Qed.

Lemma plain_turn_closed {W} `{FrameSink W} onEOF eofErr final expired blen sched p (w : W) p' w' st :
  plain_turn onEOF eofErr final expired blen sched p w = (p', w', st) ->
  st <> LoopPanic /\ (p_closed p = true -> p_closed p' = true).
Proof.
  unfold plain_turn; intros E; pose proof (ReadAvailable_closed p blen sched) as Hc.
  destruct (ReadAvailable p blen sched) as [[p1 r] rest]; cbn [fst] in Hc.
  destruct r as [d|e]; [|destruct e];
    try (destruct (plain_emit w _) as [w1 [err|]]; [|destruct expired]);
    injection E as <- <- <-; split; auto; discriminate.
Qed.

Lemma pollStream_step_serves bufsize att t V s b : 0 < bufsize -> typed V s ->
  V + events_volume (concat (tn_sched t)) < 2 ^ 63 ->
  exists s' b' st, pollStream_step bufsize att t s b = (s', b', st) /\ st <> LoopPanic
    /\ traffic (events_volume (concat (tn_sched t))) s s'.
Proof.
  intros Hb Hs Hm; pose proof (events_volume_nonneg (concat (tn_sched t))) as Hv.
  unfold pollStream_step; destruct (s_rs s) as [r|] eqn:Hr.
  - unfold pollStreamResumable_turn; destruct (tn_ctxDone t).
    + do 3 eexists; split_and!; [reflexivity|discriminate|].
      eapply traffic_layer; [exact Hr|apply layer_refl, Hv].
    + destruct Hs as [_ Hi]; rewrite Hr in Hi.
      edestruct (send_turn_total (W := hbody)) as (e & b1 & st & E & Hst & Hl); [exact Hb|exact Hi|exact Hm|].
      rewrite E; do 3 eexists; split_and!; [reflexivity|exact Hst|eapply traffic_layer; eauto].
  - destruct (pollStream_turn _ _ _ _ _ _) as [[p b1] st] eqn:E; unfold pollStream_turn in E.
    assert (Hp : st <> LoopPanic /\ (p_closed (s_toClient s) = true -> p_closed p = true)).
    { destruct (tn_ctxDone t); [injection E as <- <- <-; split; [discriminate|auto]|].
      eapply plain_turn_closed; exact E. }
    do 3 eexists; split_and!; [reflexivity|apply Hp|apply traffic_plain; [exact Hr|auto|apply Hp]].
Qed.

Lemma pollStream_loop_serves bufsize att turns : 0 < bufsize ->
  forall V s b, typed V s -> V + turns_volume turns < 2 ^ 63 ->
  exists s' b' running, pollStream_loop bufsize att turns s b = Some (s', b', running)
    /\ traffic (turns_volume turns) s s'.
Proof.
  intros Hb; induction turns as [|t turns IH]; intros V s b Hs Hm; cbn [pollStream_loop].
  { do 3 eexists; split; [reflexivity|apply traffic_refl; cbn; lia]. }
  change (turns_volume (t :: turns)) with (events_volume (concat (tn_sched t)) + turns_volume turns) in *.
  pose proof (turns_volume_nonneg turns); pose proof (events_volume_nonneg (concat (tn_sched t))) as Hv.
  set (v := events_volume (concat (tn_sched t))) in *.
  assert (Hm1 : V + v < 2 ^ 63) by lia.
  destruct (pollStream_step_serves bufsize att t V s b Hb Hs Hm1) as (s1 & b1 & st & -> & Hst & Ht).
  destruct st as [|err|]; [| |congruence].
  - destruct (IH (V + v) s1 b1 (traffic_typed _ _ _ _ Hs Hm1 Ht) ltac:(lia))
      as (s2 & b2 & run & E & Ht2).
    do 3 eexists; split; [exact E|eapply traffic_trans; eauto].
  - do 3 eexists; split; [reflexivity|eapply traffic_more; [exact Ht|lia]].
Qed.

Lemma pollStream_serves cfg env : 0 < cfg_PollBufferSize cfg ->
  serves (turns_volume (se_turns env)) (pollStream cfg env).
Proof.
  intros Hb V s Hs Hm; unfold pollStream; pose proof (turns_volume_nonneg (se_turns env)).
  assert (Hid : forall a : poll_answer, exists s' a', Some (s, a) = Some (s', a')
                  /\ traffic (turns_volume (se_turns env)) s s')
    by (intros a; do 2 eexists; split; [reflexivity|apply traffic_refl; lia]).
  destruct (se_flusher env); cbn [negb]; [|apply Hid].
  assert (Hgo : forall att s1 v, typed V s1 -> traffic v s s1 -> v = 0 -> exists s' a,
    match pollStream_loop (cfg_PollBufferSize cfg) att (se_turns env) s1
            (mk_hbody (mk_writer [] (se_plan env)) []) with
    | None => None
    | Some (s, b, running) => Some (s, PollStreamed b running)
    end = Some (s', a) /\ traffic (turns_volume (se_turns env)) s s').
  { intros att s1 v Hs1 Ht ->.
    destruct (pollStream_loop_serves (cfg_PollBufferSize cfg) att (se_turns env) Hb V s1
                (mk_hbody (mk_writer [] (se_plan env)) []) Hs1 Hm) as (s' & b & run & -> & Ht').
    do 2 eexists; split; [reflexivity|exact (traffic_trans _ _ _ _ _ Ht Ht')]. }
  destruct (s_rs s) as [r|] eqn:Hr.
  - pose proof Hs as [Ha Hi]; rewrite Hr in Ha, Hi; destruct (Ha ltac:(eauto)) as [att ->].
    destruct (se_attached env) as [k|]; [|apply Hid].
    assert (Hl : layer_runs 0 (sess_ep s r) (on_rl resetAck (sess_ep s r)))
      by (apply (layer_op _ _ OpResetAck); cbn; auto; lia).
    pose proof (traffic_layer 0 s r _ Hr Hl) as Ht.
    apply (Hgo k _ 0); [|exact Ht|reflexivity].
    pose proof (traffic_typed V 0 s _ Hs ltac:(lia) Ht) as Hs1; rewrite Z.add_0_r in Hs1; exact Hs1.
  - apply (Hgo 0%nat s 0); auto; apply traffic_refl; lia.
Qed.

Lemma poll_plain_serves cfg env : serves 0 (fun s => match s_rs s with
                                                     | None => Some (poll_plain cfg env s)
                                                     | Some _ => Some (s, PollSilent)
                                                     end).
Proof.
  intros V s _ _; destruct (s_rs s) eqn:Hr; [do 2 eexists; split; [reflexivity|apply traffic_refl; lia]|].
  unfold poll_plain; pose proof (ReadAvailable_closed (s_toClient s) (cfg_PollBufferSize cfg) (se_sched env)) as Hc.
  destruct (ReadAvailable _ _ _) as [[p r] rest]; cbn in Hc.
  assert (Ht : traffic 0 s (set_pipes (s_toServer s) p s)) by (apply traffic_plain; auto).
  destruct r as [[|b d]|err]; [| |destruct err]; do 2 eexists; eauto.
Qed.

Lemma batchOffset_nonneg vs n : batchOffset vs = Ok n -> 0 <= n.
Proof.
  unfold batchOffset, ParseUint; intros E; destruct vs as [|v [|v' vs]]; try discriminate.
  destruct (NilZero.uint_of_string v) as [d|]; [|discriminate].
  destruct (_ <? _); [|discriminate]; injection E as <-; lia.
Qed.

Definition batch_ep (r : batch_result) : option endpoint :=
  match r with Responded e _ | Silent e | Violation e => Some e | BatchPanic => None end.

Definition body_volume (b : read_body) : Z :=
  match b with BodyComplete data => len data | _ => 0 end.

Lemma body_volume_nonneg b : 0 <= body_volume b.
Proof. destruct b; cbn; len_lia. Qed.

(** What the handler does once it has the body. *)
Lemma pollBatchResumable_total send bufsize q env V e : 0 < bufsize -> ep_inv V e ->
  V + (body_volume (be_body env) + events_volume (concat (be_sched env))) < 2 ^ 63 ->
  exists e', batch_ep (pollBatchResumable send bufsize q env e) = Some e'
    /\ layer_runs (body_volume (be_body env) + events_volume (concat (be_sched env))) e e'.
Proof.
  intros Hb Hi Hm; pose proof (body_volume_nonneg (be_body env)) as Hbv.
  pose proof (events_volume_nonneg (concat (be_sched env))) as Hev.
  set (v := body_volume (be_body env) + events_volume (concat (be_sched env))) in *.
  assert (Hv0 : 0 <= v) by (unfold v; lia).
  assert (Hid : exists e', Some e = Some e' /\ layer_runs v e e') by eauto using layer_refl.
  unfold pollBatchResumable; destruct (batchOffset (bq_recvOffset q)) as [ack|] eqn:Ea; [|exact Hid].
  apply batchOffset_nonneg in Ea.
  destruct (if send then _ else _) as [off|] eqn:Eo; [|exact Hid].
  assert (Hoff : send = true -> 0 <= off) by (intros ->; exact (batchOffset_nonneg _ _ Eo)).
  destruct (be_attached env); cbn [negb]; [|exact Hid].
  assert (Hdata : forall data, (if send then be_body env else BodyComplete []) = BodyComplete data ->
                  len data <= body_volume (be_body env)).
  { intros data E; destruct send; [rewrite E; cbn; lia|injection E as <-; exact Hbv]. }
  destruct (if send then be_body env else BodyComplete []) as [data| |]; try exact Hid.
  specialize (Hdata data eq_refl); destruct (be_cancelled env); [exact Hid|].
  destruct (ack_total ack Ea V e Hi ltac:(lia)) as (e1 & err & E1 & Hl1).
  assert (Hi1 : ep_inv V e1).
  { pose proof (layer_inv V 0 e e1 Hi ltac:(lia) Hl1) as H; rewrite Z.add_0_r in H; exact H. }
  destruct (rel_ack (ep_rl e) ack) as [[r err']|]; [|discriminate]; injection E1 as <- <-.
  destruct err' as [err|]; [exists (on_rl (fun _ => r) e); split; [reflexivity|eapply layer_more; eauto]|].
  set (e1 := on_rl (fun _ => r) e) in *; destruct send.
  - destruct (recvIn_total off data (Hoff eq_refl) V e1 Hi1 ltac:(lia)) as (e2 & err & E2 & Hl2).
    rewrite E2; exists e2; pose proof (layer_trans _ _ _ _ _ Hl1 Hl2) as Hl.
    split; [destruct err as [[]|]; reflexivity|eapply layer_more; [exact Hl|lia]].
  - assert (Hlr : layer_runs 0 e1 (on_rl rewindToAcked e1))
      by (apply (layer_op _ _ OpRewind); cbn; auto; lia).
    assert (Hi2 : ep_inv V (on_rl rewindToAcked e1)).
    { pose proof (layer_inv V 0 _ _ Hi1 ltac:(lia) Hlr) as H; rewrite Z.add_0_r in H; exact H. }
    destruct (nextOut_total bufsize (be_sched env) V _ Hb Hi2 ltac:(lia)) as (e3 & r3 & rest & E3 & Hl3).
    rewrite E3; exists e3; pose proof (layer_trans _ _ _ _ _ Hl1 (layer_trans _ _ _ _ _ Hlr Hl3)) as Hl.
    split; [destruct (be_cancelled' env); [reflexivity|]; destruct r3 as [[o [|b d]]|[]]; reflexivity
           |eapply layer_more; [exact Hl|lia]].
Qed.

(** The effect of a request on the world: traffic on its session, and possibly
    the session's closing. *)
Definition served (v : Z) (l : loc) (s : session) (w w' : world) : Prop :=
  exists s', traffic v s s'
    /\ (w' = set_heap (<[l := s']> (w_heap w)) w
        \/ exists now, w' = closeSession l ReasonProtocolViolation now (set_heap (<[l := s']> (w_heap w)) w)).

Definition poll_volume (q : poll_request) (env : serve_env) : Z :=
  len (r_bytes (pq_body q)) + events_volume (concat (se_sched env)) + turns_volume (se_turns env).

Lemma served_same v l s w : 0 <= v -> w_heap w !! l = Some s -> served v l s w w.
Proof.
  intros Hv Hl; exists s; split; [apply traffic_refl, Hv|left].
  rewrite insert_id by exact Hl; destruct w; reflexivity.
Qed.

Lemma at_session_served v f V l s w : w_heap w !! l = Some s -> typed V s -> V + v < 2 ^ 63 ->
  serves v f -> exists w' a, at_session l f w = Some (w', a) /\ served v l s w w'.
Proof.
  intros Hl Hs Hm Hf; destruct (Hf V s Hs Hm) as (s' & a & E & Ht).
  unfold at_session; rewrite Hl, E; do 2 eexists; split; [reflexivity|exists s'; auto].
Qed.

Lemma served_more v v' l s w w' : served v l s w w' -> v <= v' -> served v' l s w w'.
Proof. intros (s' & Ht & H) Hv; exists s'; split; [eapply traffic_more; eauto|exact H]. Qed.

(** Serving after the body was passed on. *)
Lemma served_after v v' l s s1 w w' : traffic v s s1 ->
  served v' l s1 (set_heap (<[l := s1]> (w_heap w)) w) w' -> served (v + v') l s w w'.
Proof.
  intros Ht (s2 & Ht2 & H); exists s2; split; [eapply traffic_trans; eauto|].
  cbn in H; rewrite insert_insert_eq in H; exact H.
Qed.

Lemma ReadAll_volume limit body : body_volume (ReadAll limit body) <= len (r_bytes body).
Proof. unfold ReadAll; repeat case_match; cbn; len_lia. Qed.

(** Serving a request never panics. *)
Lemma poll_serve_served cfg q env V l s w : 0 < cfg_PollBufferSize cfg ->
  w_heap w !! l = Some s -> typed V s -> V + poll_volume q env < 2 ^ 63 ->
  exists w' a, poll_serve cfg q env l s w = Some (w', a) /\ served (poll_volume q env) l s w w'.
Proof.
  intros Hb Hl Hs Hm; unfold poll_volume in *.
  pose proof (len_nonneg (r_bytes (pq_body q))); pose proof (events_volume_nonneg (concat (se_sched env))).
  pose proof (turns_volume_nonneg (se_turns env)).
  set (v := len (r_bytes (pq_body q)) + events_volume (concat (se_sched env)) + turns_volume (se_turns env)) in *.
  assert (Hid : forall a : poll_answer, exists w' a', Some (w, a) = Some (w', a') /\ served v l s w w')
    by (intros a; do 2 eexists; split; [reflexivity|apply served_same; [lia|exact Hl]]).
  assert (Hm1 : V + len (r_bytes (pq_body q)) < 2 ^ 63) by lia.
  unfold poll_serve; destruct (pq_SendStream q).
  { destruct (match s_rs s with Some _ => _ | None => _ end); [apply Hid|].
    destruct (at_session_served _ _ V l s w Hl Hs Hm1
                (serve_upload_serves cfg q env)) as (w' & a & E & Hsv).
    rewrite E; do 2 eexists; split; [reflexivity|eapply served_more; [exact Hsv|lia]]. }
  assert (Hstream : forall s1 w1, w_heap w1 !! l = Some s1 -> typed V s1 -> exists w' a,
    at_session l (pollStream cfg env) w1 = Some (w', a) /\ served (turns_volume (se_turns env)) l s1 w1 w').
  { intros s1 w1 Hl1 Hs1; eapply at_session_served; [exact Hl1|exact Hs1|lia|apply pollStream_serves, Hb]. }
  destruct (s_rs s) as [rs|] eqn:Hr.
  - destruct (_ || Bool.eqb _ _); [apply Hid|].
    destruct (_ && _); [destruct (Hstream s w Hl Hs) as (w' & a & E & Hsv); rewrite E; do 2 eexists;
                          split; [reflexivity|eapply served_more; [exact Hsv|lia]]|].
    destruct (_ && _); [|apply Hid].
    pose proof Hs as [Ha Hi]; rewrite Hr in Ha, Hi; destruct (Ha ltac:(eauto)) as [att ->].
    set (limit := if pq_SendOnly q then cfg_MaxSendBytes cfg else 0).
    pose proof (ReadAll_volume limit (pq_body q)); pose proof (body_volume_nonneg (ReadAll limit (pq_body q))).
    destruct (pollBatchResumable_total (pq_SendOnly q) (cfg_PollBufferSize cfg)
      (mk_breq (pq_RecvOffset q) (pq_SendOffset q) (r_bytes (pq_body q)))
      (mk_benv (bool_decide (is_Some (se_attached env))) (ReadAll limit (pq_body q)) (se_cancelled env)
         (se_cancelled' env) (se_sched env)) V (sess_ep s rs) Hb Hi) as (e' & Ee & Hrun); [cbn [be_body be_sched]; lia|].
    cbn [be_body be_sched] in Hrun.
    assert (Ht : traffic v s (set_ep e' s))
      by (eapply traffic_more; [exact (traffic_layer _ _ _ _ Hr Hrun)|lia]).
    destruct (pollBatchResumable _ _ _ _ _) as [e r|e|e|]; cbn in Ee; [..|discriminate]; injection Ee as ->;
      do 2 eexists; (split; [reflexivity|]); exists (set_ep e' s); split; eauto.
  - destruct (ReadAll _ _) as [data| |] eqn:Eb; [|do 2 eexists; split; [reflexivity|]|apply Hid].
    + assert (Ht : traffic 0 s (if 0 <? len data then (writeUpstream s data).1 else s))
        by (destruct (0 <? len data); [apply traffic_upstream, Hr|apply traffic_refl; lia]).
      set (s1 := if 0 <? len data then (writeUpstream s data).1 else s) in *.
      set (w1 := set_heap (<[l := s1]> (w_heap w)) w).
      assert (Hl1 : w_heap w1 !! l = Some s1) by apply lookup_insert_eq.
      assert (Hs1 : typed V s1).
      { pose proof (traffic_typed V 0 s s1 Hs ltac:(lia) Ht) as H'; rewrite Z.add_0_r in H'; exact H'. }
      destruct (pq_SendOnly q); [do 2 eexists; split; [reflexivity|
        exists s1; split; [eapply traffic_more; [exact Ht|lia]|left; reflexivity]]|].
      assert (Hr1 : s_rs s1 = None) by (destruct Ht as (? & ? & rs' & -> & _ & _ & Hx); rewrite Hr in Hx; exact Hx).
      destruct (bool_decide _).
      * destruct (Hstream s1 w1 Hl1 Hs1) as (w' & a & E & Hsv); rewrite E; do 2 eexists; split; [reflexivity|].
        eapply served_more; [exact (served_after _ _ _ _ _ _ _ Ht Hsv)|lia].
      * unfold at_session; rewrite Hl1.
        destruct (poll_plain_serves cfg env V s1 Hs1 ltac:(lia)) as (s2 & a & E & Ht2); rewrite Hr1 in E.
        injection E as E; rewrite E; do 2 eexists; split; [reflexivity|].
        exists s2; split; [eapply traffic_more; [exact (traffic_trans _ _ _ _ _ Ht Ht2)|lia]|left].
        unfold w1; cbn; rewrite insert_insert_eq; reflexivity.
    + exists s; split; [apply traffic_refl; lia|right; exists (se_now env)].
      f_equal; rewrite insert_id by exact Hl; destruct w; reflexivity.
Qed.

(** ** The handler as lock sections of the world *)

Lemma session_wstep w l s s' : w_heap w !! l = Some s -> same_life s s' ->
  wstep w (set_heap (<[l := s']> (w_heap w)) w).
Proof.
  intros Hl Hs; replace (set_heap _ w) with (on_session l (fun _ => s') w).
  - eapply ws_session; eauto.
  - unfold on_session; rewrite (alter_is_insert _ l _ s Hl); reflexivity.
Qed.

Lemma closeSession_wsteps l reason now w : rtc wstep w (closeSession l reason now w).
Proof.
  unfold closeSession; destruct (removeAndMarkClosed l false now w) as [w1 [|]] eqn:E.
  - eapply rtc_l; [eapply ws_mark; exact E|]; apply rtc_once.
    replace (finish_close l reason w1) with
      (finish_close l reason (set_pending (w_pending w ++ []) (set_pending (w_pending w ++ [(l, reason)]) w1))).
    + eapply ws_finish; reflexivity.
    + apply removeAndMarkClosed_wins in E as (s & _ & _ & _ & -> & _); rewrite app_nil_r; reflexivity.
  - unfold removeAndMarkClosed in E; repeat case_match; simplify_eq; constructor.
Qed.

Lemma closeSession_session l reason now w s : w_heap w !! l = Some s ->
  exists s', w_heap (closeSession l reason now w) !! l = Some s'
    /\ (s' = s \/ s' = closePipes (set_closed s)).
Proof.
  intros Hl; unfold closeSession; destruct (removeAndMarkClosed l false now w) as [w1 [|]] eqn:E.
  - apply removeAndMarkClosed_wins in E as (s0 & Hl0 & _ & _ & -> & _); simplify_eq.
    cbn; rewrite !lookup_alter_eq, Hl; eauto.
  - unfold removeAndMarkClosed in E; repeat case_match; simplify_eq; eauto.
Qed.

Lemma served_wsteps v l s w w' : w_heap w !! l = Some s -> served v l s w w' -> rtc wstep w w'.
Proof.
  intros Hl (s' & Ht & H).
  pose proof (session_wstep w l s s' Hl (traffic_same_life _ _ _ Ht)) as Hstep.
  destruct H as [-> |[now ->]]; [apply rtc_once, Hstep|].
  eapply rtc_l; [exact Hstep|apply closeSession_wsteps].
Qed.

(** What the session is like when it has been served. *)
Lemma served_session v l s w w' : served v l s w w' ->
  exists s1 s', w_heap w' !! l = Some s' /\ traffic v s s1 /\ (s' = s1 \/ s' = closePipes (set_closed s1)).
Proof.
  intros (s1 & Ht & [-> |[now ->]]).
  - exists s1, s1; cbn; rewrite lookup_insert_eq; auto.
  - destruct (closeSession_session l ReasonProtocolViolation now
                (set_heap (<[l := s1]> (w_heap w)) w) s1) as (s' & H1 & H2); [apply lookup_insert_eq|].
    exists s1, s'; auto.
Qed.

Lemma typed_life V ws polls active closed detached s :
  typed V s -> typed V (set_life ws polls active closed detached s).
Proof. intros H; exact H. Qed.

Lemma typed_closed V s : typed V s -> typed V (closePipes (set_closed s)).
Proof.
  intros [Ha Hi]; split; [exact Ha|]; cbn; destruct (s_rs s) as [r|]; [|exact I].
  eapply ep_inv_rl; [exact Hi|auto|reflexivity].
Qed.

Lemma endPoll_typed V now s : typed V s -> typed V (endPoll now s).
Proof. intros H; unfold endPoll, noteDetachedLocked; repeat case_match; apply H. Qed.

(** Hooks.OnPoll may use the session and the store as any application does; it
    does not attach, detach or touch. *)
Record hook_ok (vh : Z) (hook : loc -> world -> world) : Prop := {
  hk_nonneg : 0 <= vh;
  hk_steps : forall l w, rtc wstep w (hook l w);
  hk_session : forall l w s, w_heap w !! l = Some s -> exists s', w_heap (hook l w) !! l = Some s'
    /\ s_pollInFlight s' = s_pollInFlight s /\ s_lastActive s' = s_lastActive s
    /\ (s_rs s' = None <-> s_rs s = None)
    /\ forall V, typed V s -> V + vh < 2 ^ 63 -> typed (V + vh) s';
}.

Definition run_hook (onPoll : option (loc -> world -> world)) (l : loc) (w : world) : world :=
  match onPoll with None => w | Some hook => hook l w end.

(** The hook as the handler runs it. *)
Lemma run_hook_ok vh onPoll : (forall hook, onPoll = Some hook -> hook_ok vh hook) -> 0 <= vh ->
  hook_ok vh (run_hook onPoll).
Proof.
  intros H Hv; destruct onPoll as [hook|]; [apply H; reflexivity|]; constructor; cbn; auto.
  - intros; constructor.
  - intros l w s Hl; exists s; split_and!; auto; intros V [Ha Hi] Hm; split; [exact Ha|].
    destruct (s_rs s); [|exact I]; eapply ep_inv_weaken; [exact Hi|lia].
Qed.

(** The first lock sections: beginPoll and touch. *)
Definition admitted (now : Z) (l : loc) (s : session) (w : world) : world :=
  set_heap (<[l := touch now (beginPoll now s).1]> (w_heap w)) w.

Lemma admitted_wsteps now l s w : w_heap w !! l = Some s -> rtc wstep w (admitted now l s w).
Proof.
  intros Hl.
  eapply rtc_l; [eapply ws_session with (f := fun s => (beginPoll now s).1); [exact Hl|eauto 10]|].
  apply rtc_once; replace (admitted now l s w) with
    (on_session l (touch now) (on_session l (fun s => (beginPoll now s).1) w)).
  - eapply ws_session; [unfold on_session; cbn; rewrite lookup_alter_eq, Hl; reflexivity|eauto 10].
  - unfold on_session, admitted; cbn; rewrite (alter_is_insert _ l (w_heap w) s Hl).
    rewrite (alter_is_insert _ l _ (beginPoll now s).1) by apply lookup_insert_eq.
    rewrite insert_insert_eq; reflexivity.
Qed.

Lemma served_fields V v l s w w' : served v l s w w' -> typed V s -> V + v < 2 ^ 63 ->
  exists s', w_heap w' !! l = Some s' /\ s_pollInFlight s' = s_pollInFlight s
    /\ s_lastActive s' = s_lastActive s /\ (s_rs s' = None <-> s_rs s = None) /\ typed (V + v) s'.
Proof.
  intros Hsv Hty Hm; destruct (served_session _ _ _ _ _ Hsv) as (s1 & s' & Hl' & Ht & Hs').
  pose proof (traffic_typed _ _ _ _ Hty Hm Ht) as Hty'.
  destruct Ht as (up & down & rs & -> & _ & _ & Hrs); exists s'; split; [exact Hl'|].
  assert (Hn : rs = None <-> s_rs s = None)
    by (destruct (s_rs s); [destruct Hrs as (? & -> & _)|subst rs]; split; congruence).
  destruct Hs' as [-> | ->]; cbn; split_and!; auto using typed_closed; tauto.
Qed.

(** A request that is let in, from its first lock section to its last. *)
Section Serving.
Context (cfg : ServerConfig) (vh : Z) (onPoll : option (loc -> world -> world)) (id : string)
        (q : poll_request) (env : serve_env) (w : world) (V : Z) (l : loc) (s : session).
Context (Hget : store_Get id w = Some l) (Hl : w_heap w !! l = Some s)
        (Hopen : s_closed s || resumeExpiredLocked (se_now env) s = false)
        (Hb : 0 < cfg_PollBufferSize cfg) (Hv : 0 <= vh)
        (Hhook : forall hook, onPoll = Some hook -> hook_ok vh hook)
        (Hs : typed V s) (Hm : V + vh + poll_volume q env < 2 ^ 63)
        (Hp : 0 <= s_pollInFlight s < 2 ^ 31 - 1).

Lemma poll_volume_nonneg : 0 <= poll_volume q env.
Proof.
  unfold poll_volume; pose proof (len_nonneg (r_bytes (pq_body q))).
  pose proof (events_volume_nonneg (concat (se_sched env))); pose proof (turns_volume_nonneg (se_turns env)); lia.
Qed.

Lemma begin_fields : let sb := touch (se_now env) (beginPoll (se_now env) s).1 in
  s_pollInFlight sb = s_pollInFlight s + 1 /\ s_lastActive sb = se_now env
  /\ s_rs sb = s_rs s /\ typed V sb.
Proof. unfold beginPoll; rewrite Hopen; cbn; rewrite i32_id by lia; auto. Qed.

Lemma PollHandler_admitted : exists w' a s1, PollHandler cfg onPoll id q env w = Some (w', a)
  /\ rtc wstep w w' /\ w_heap w' !! l = Some (endPoll (se_end env) s1)
  /\ s_pollInFlight s1 = s_pollInFlight s + 1 /\ s_lastActive s1 = se_now env
  /\ (s_rs s1 = None <-> s_rs s = None) /\ typed (V + vh + poll_volume q env) s1.
Proof.
  pose proof (run_hook_ok vh onPoll Hhook Hv) as [_ Hst Hse]; pose proof poll_volume_nonneg as Hvol.
  destruct begin_fields as (Hb1 & Hb2 & Hb3 & Hb4).
  pose proof (admitted_wsteps (se_now env) l s w Hl) as Hwb.
  set (wb := admitted (se_now env) l s w) in *.
  destruct (Hse l wb _ (lookup_insert_eq _ _ _)) as (sh & Hlh & Hh1 & Hh2 & Hh3 & Hh4).
  pose proof (Hh4 V Hb4 ltac:(lia)) as Hty.
  destruct (poll_serve_served cfg q env (V + vh) l sh (run_hook onPoll l wb) Hb Hlh Hty Hm) as (w' & a & E & Hsv).
  destruct (served_fields _ _ _ _ _ _ Hsv Hty Hm) as (s1 & Hl1 & H1 & H2 & H3 & H4).
  exists (on_session l (endPoll (se_end env)) w'), a, s1; split_and!; auto; try congruence.
  - rewrite PollHandler_eq; cbv zeta;
    rewrite Hget, Hl.
    assert (Eb : beginPoll (se_now env) s = ((beginPoll (se_now env) s).1, true))
      by (unfold beginPoll; rewrite Hopen; reflexivity).
    rewrite Eb; fold (admitted (se_now env) l s w); fold wb; fold (run_hook onPoll l wb).
    rewrite Hlh, E; reflexivity.
  - etrans; [exact Hwb|]; etrans; [apply Hst|].
    etrans; [eapply served_wsteps; eauto|]; apply rtc_once.
    eapply ws_session; [exact Hl1|]; right; right; eexists; right; right; right; split; [lia|eauto].
  - cbn; rewrite lookup_alter_eq, Hl1; reflexivity.
  - rewrite H3, Hh3, Hb3; reflexivity.
Qed.
End Serving.

(** Closing an open session that is in the store. *)
Lemma closeSession_wins l reason now w s :
  w_heap w !! l = Some s -> sessions w !! s_ID s = Some l -> s_closed s = false ->
  closeSession l reason now w = finish_close l reason (evict (s_ID s) l w).
Proof.
  intros Hl Hid Hc; unfold closeSession, removeAndMarkClosed.
  rewrite Hl, bool_decide_true by exact Hid; cbn [negb andb]; rewrite Hc; cbn [orb].
  unfold evict, on_session; rewrite (alter_is_insert _ l _ s Hl); reflexivity.
Qed.

(** A read that is waiting, or not, when the pipe is closed. *)
Lemma ReadAvailable_at_close p blen evs : 0 < blen -> p_intr p = false ->
  run_events p evs = pipe_Close p ->
  (ReadAvailable p blen [evs]).1.2
  = if bool_decide (p_buf p = []) then Fail EOF else Ok (copied blen (p_buf p)).
Proof.
  intros Hb Hi Hev; unfold ReadAvailable; rewrite Hi; case_bool_decide as He.
  - assert (H0 : (len (p_buf p) =? 0) = true) by (rewrite He; reflexivity).
    rewrite H0; destruct (p_closed p) eqn:Hc; [reflexivity|].
    cbn [wait_loop]; unfold cond1 at 1; rewrite H0, Hc, Hi, Hev; cbn [andb negb orb].
    destruct (cond1 _ && _); cbn; rewrite H0; reflexivity.
  - rewrite (proj2 (Z.eqb_neq _ _)) by (intros E; apply len_zero_iff in E; congruence).
    unfold coalesce_and_take; destruct (cond2 blen p) eqn:Hc; [|reflexivity].
    cbn [wait_loop]; rewrite Hc, Hev; cbn [negb andb]; unfold cond2; cbn.
    destruct (_ && _); reflexivity.
Qed.

Lemma nextOut_at_close e blen evs : 0 < blen -> p_intr (ep_out e) = false ->
  run_events (ep_out e) evs = pipe_Close (ep_out e) -> has_pending (ep_rl e) = false ->
  exists e' rest, recvOffsetNow (ep_rl e') = recvOffsetNow (ep_rl e)
    /\ nextOut e blen [evs]
       = Some (e', if bool_decide (p_buf (ep_out e) = []) then Fail EOF
                   else Ok (sendOffset (ep_rl e), copied blen (p_buf (ep_out e))), rest).
Proof.
  intros Hb Hi Hev Hp; pose proof (ReadAvailable_at_close _ _ _ Hb Hi Hev) as Hra.
  unfold nextOut; rewrite Hp; destruct (ReadAvailable (ep_out e) blen [evs]) as [[p r] rest].
  cbn in Hra; subst r; case_bool_decide as He.
  { do 2 eexists; split; [|reflexivity]; reflexivity. }
  pose proof (copied_nonempty _ _ Hb He); destruct (copied blen _) as [|x l]; [congruence|].
  unfold number_out; repeat case_if; (do 2 eexists; split; [|reflexivity]; reflexivity).
Qed.

(** A body over the limit is a protocol violation in both batch paths. *)
Lemma oversize_serve cfg q env l s w :
  pq_SendStream q = false -> cfg_MaxSendBytes cfg < len (r_bytes (pq_body q)) ->
  (s_rs s = None
   \/ s_rs s <> None /\ s_att s <> None /\ s_transport s <> TransportWebSocket /\ pq_SendOnly q = true
      /\ pq_ReceiveOnly q = false /\ s_batchResume s = true /\ s_uploadStream s = false
      /\ (exists n, batchOffset (pq_RecvOffset q) = Ok n) /\ (exists n, batchOffset (pq_SendOffset q) = Ok n)
      /\ is_Some (se_attached env)) ->
  w_heap w !! l = Some s ->
  poll_serve cfg q env l s w
  = Some (closeSession l ReasonProtocolViolation (se_now env) w, PollError StatusRequestEntityTooLarge).
Proof.
  intros Hst Hlen Hcase Hl; apply Z.ltb_lt in Hlen; unfold poll_serve, ReadAll; rewrite Hst.
  destruct Hcase as [-> | (Hr & Ha & Ht & -> & -> & -> & -> & [n Hn] & [m Hm] & Hatt)];
    [rewrite Hlen; reflexivity|].
  destruct (s_rs s) as [rs|] eqn:Er, (s_att s); try congruence.
  rewrite bool_decide_false by exact Ht; cbn [orb andb negb Bool.eqb].
  rewrite Hlen; unfold pollBatchResumable; cbn [bq_recvOffset bq_sendOffset be_attached be_body].
  rewrite Hn, Hm, bool_decide_true by exact Hatt; cbn [negb].
  do 2 f_equal; f_equal.
  replace (set_ep (sess_ep s rs) s) with s by (destruct s; cbn in Er; subst; reflexivity).
  rewrite insert_id by exact Hl; destruct w; reflexivity.
Qed.

(** ** Properties *)

(** C19: the poll handler is type safe.  Whatever a client sends to a session
    (any headers, any body, well-formed or not, for any mode the session
    negotiated) and whatever the rest of the program does to its pipes
    meanwhile, the handler does not panic: no slice of the replay buffer is out
    of range, no nil layer or attachment is used, every frame of a body is
    handled within the turns its length allows; and the session that remains is
    as well-formed as before. *)
Theorem poll_handler_is_total cfg vh onPoll id q env w V l s :
  store_Get id w = Some l -> w_heap w !! l = Some s -> 0 < cfg_PollBufferSize cfg -> 0 <= vh ->
  (forall hook, onPoll = Some hook -> hook_ok vh hook) -> typed V s ->
  V + vh + poll_volume q env < 2 ^ 63 -> 0 <= s_pollInFlight s < 2 ^ 31 - 1 ->
  exists w' a s', PollHandler cfg onPoll id q env w = Some (w', a)
    /\ w_heap w' !! l = Some s' /\ typed (V + vh + poll_volume q env) s'.
Proof.
  intros Hget Hl Hb Hv Hhook Hs Hm Hp; pose proof (poll_volume_nonneg q env) as Hvol.
  destruct (s_closed s || resumeExpiredLocked (se_now env) s) eqn:Hopen.
  - exists w, (PollError StatusGone), s; rewrite PollHandler_eq; cbv zeta; unfold beginPoll; rewrite Hget, Hl, Hopen.
    split_and!; auto; destruct Hs as [Ha Hi]; split; [exact Ha|].
    destruct (s_rs s); [eapply ep_inv_weaken; [exact Hi|lia]|exact I].
  - destruct (PollHandler_admitted cfg vh onPoll id q env w V l s Hget Hl Hopen Hb Hv Hhook Hs Hm Hp)
      as (w' & a & s1 & E & _ & Hl' & _ & _ & _ & Hty).
    exists w', a, (endPoll (se_end env) s1); auto using endPoll_typed.
Qed.

(** A poll is balanced.  An admitted request counts as attached while it
    runs and no longer, on every path (errors, streams, uploads, protocol
    violations); it marks the session active when it arrives, and when it was
    the last one of a resumable session it starts the resume grace.  The whole
    handler is a sequence of the lock sections of Session.v, so what holds of
    every interleaving of those holds while polls run. *)
Theorem poll_is_balanced cfg vh onPoll id q env w V l s :
  store_Get id w = Some l -> w_heap w !! l = Some s ->
  s_closed s || resumeExpiredLocked (se_now env) s = false ->
  0 < cfg_PollBufferSize cfg -> 0 <= vh -> (forall hook, onPoll = Some hook -> hook_ok vh hook) ->
  typed V s -> V + vh + poll_volume q env < 2 ^ 63 -> 0 <= s_pollInFlight s < 2 ^ 31 - 1 ->
  exists w' a s', PollHandler cfg onPoll id q env w = Some (w', a) /\ rtc wstep w w'
    /\ w_heap w' !! l = Some s' /\ s_pollInFlight s' = s_pollInFlight s
    /\ s_lastActive s' = se_now env
    /\ (s_rs s <> None -> s_pollInFlight s = 0 -> s_detachedAt s' = se_end env).
Proof.
  intros Hget Hl Hopen Hb Hv Hhook Hs Hm Hp.
  destruct (PollHandler_admitted cfg vh onPoll id q env w V l s Hget Hl Hopen Hb Hv Hhook Hs Hm Hp)
    as (w' & a & s1 & E & Hsteps & Hl' & H1 & H2 & H3 & _).
  exists w', a, (endPoll (se_end env) s1); split_and!; auto;
    unfold endPoll, noteDetachedLocked; cbn; rewrite H1, Z.add_simpl_r, i32_id by lia.
  - destruct (s_rs s1); [case_if|]; reflexivity.
  - destruct (s_rs s1); [case_if|]; exact H2.
  - intros Hr H0; destruct (s_rs s1) as [r|]; [|tauto]; rewrite H0; reflexivity.
Qed.

(** A body over max_send_bytes ends the session.  On the plain path and on
    the resumable batch path, the request is answered 413, the session leaves
    the store and is closed, both pipes refuse further bytes, the violation is
    reported once, and none of the body reaches the application. *)
Theorem oversize_body_ends_session cfg q env id w l s :
  store_Get id w = Some l -> w_heap w !! l = Some s -> s_ID s = id ->
  s_closed s || resumeExpiredLocked (se_now env) s = false ->
  pq_SendStream q = false -> cfg_MaxSendBytes cfg < len (r_bytes (pq_body q)) ->
  (s_rs s = None
   \/ s_rs s <> None /\ s_att s <> None /\ s_transport s <> TransportWebSocket /\ pq_SendOnly q = true
      /\ pq_ReceiveOnly q = false /\ s_batchResume s = true /\ s_uploadStream s = false
      /\ (exists n, batchOffset (pq_RecvOffset q) = Ok n) /\ (exists n, batchOffset (pq_SendOffset q) = Ok n)
      /\ is_Some (se_attached env)) ->
  exists w' s', PollHandler cfg None id q env w = Some (w', PollError StatusRequestEntityTooLarge)
    /\ store_Get id w' = None /\ w_log w' = w_log w ++ [(l, ReasonProtocolViolation)]
    /\ w_heap w' !! l = Some s' /\ s_closed s' = true
    /\ p_buf (s_toServer s') = p_buf (s_toServer s)
    /\ p_closed (s_toServer s') = true /\ p_closed (s_toClient s') = true.
Proof.
  intros Hget Hl Hid Hopen Hst Hlen Hcase; pose proof Hopen as Hc; apply orb_false_iff in Hc as [Hc _].
  rewrite PollHandler_eq; cbv zeta;
    rewrite Hget, Hl; unfold beginPoll; rewrite Hopen.
  set (sb := touch (se_now env) _); set (wb := set_heap (<[l := sb]> (w_heap w)) w).
  assert (Hlb : w_heap wb !! l = Some sb) by apply lookup_insert_eq.
  rewrite Hlb, (oversize_serve cfg q env l sb wb Hst Hlen Hcase Hlb).
  rewrite (closeSession_wins l _ _ wb sb) by (auto; cbn; rewrite Hid; exact Hget).
  eexists _, (endPoll (se_end env) (closePipes (set_closed sb))); split; [reflexivity|].
  unfold store_Get, sessions; cbn; rewrite Hid, lookup_delete_eq, !lookup_alter_eq, lookup_insert_eq.
  split_and!; auto; unfold endPoll, noteDetachedLocked; cbn; destruct (s_rs s); try case_if; reflexivity.
Qed.


(** ** Witnesses *)

Definition ex_cfg1 : ServerConfig := withDefaults (mk_ServerConfig 0 0 0 0 0 4 0 PollModeStream 0 0 false true 0 0 0).

(** A resumable session with streamed polls and uploads. *)
Definition ex_sess : session :=
  enableResume 16 (30 * Second) (set_mode PollModeStream true false "" 0 0 (newSession "s1" ∅ 0)).
Definition ex_served : world := store_add 0%nat ex_sess new_world.

Lemma ex_sess_typed : typed 0 ex_sess.
Proof. split; [intros _; cbn; eauto|]; exists [], []; split; [apply inv_new|vm_compute; split; discriminate]. Qed.

(** An upload whose only frame is numbered from the middle of nowhere. *)
Definition ex_garbage : poll_request :=
  mk_preq true false false false [] [] (mk_reader [encode_seq (2 ^ 64 - 1) [Byte.x41]] EOF).
Definition ex_quiet : serve_env := mk_env 5 7 true (Some 0%nat) false false [[EvClose]] [] [].

Lemma poll_handler_is_total_witness :
  exists w' a s', PollHandler ex_cfg1 None "s1" ex_garbage ex_quiet ex_served = Some (w', a)
    /\ w_heap w' !! 0%nat = Some s' /\ typed (0 + 0 + poll_volume ex_garbage ex_quiet) s'.
Proof.
  apply (poll_handler_is_total ex_cfg1 0 None "s1" ex_garbage ex_quiet ex_served 0 0%nat ex_sess).
  - reflexivity.
  - reflexivity.
  - vm_compute; reflexivity.
  - lia.
  - discriminate.
  - exact ex_sess_typed.
  - vm_compute; reflexivity.
  - cbn; lia.
Defined.

Lemma poll_is_balanced_witness :
  exists w' a s', PollHandler ex_cfg1 None "s1" ex_garbage ex_quiet ex_served = Some (w', a)
    /\ rtc wstep ex_served w' /\ w_heap w' !! 0%nat = Some s' /\ s_pollInFlight s' = 0
    /\ s_lastActive s' = 5 /\ (s_rs ex_sess <> None -> s_pollInFlight ex_sess = 0 -> s_detachedAt s' = 7).
Proof.
  apply (poll_is_balanced ex_cfg1 0 None "s1" ex_garbage ex_quiet ex_served 0 0%nat ex_sess).
  - reflexivity.
  - reflexivity.
  - reflexivity.
  - vm_compute; reflexivity.
  - lia.
  - discriminate.
  - exact ex_sess_typed.
  - vm_compute; reflexivity.
  - cbn; lia.
Defined.

(** A session without the byte layer, and a body of five bytes where four are
    allowed. *)
Definition ex_open : session := newSession "s1" ∅ 0.
Definition ex_open_world : world := store_add 0%nat ex_open new_world.
Definition ex_large : poll_request :=
  mk_preq false false true false [] [] (mk_reader [[Byte.x41; Byte.x42; Byte.x43; Byte.x44; Byte.x45]] EOF).

Lemma oversize_body_ends_session_witness :
  exists w' s', PollHandler ex_cfg1 None "s1" ex_large ex_quiet ex_open_world
                = Some (w', PollError StatusRequestEntityTooLarge)
    /\ store_Get "s1" w' = None /\ w_log w' = [(0%nat, ReasonProtocolViolation)]
    /\ w_heap w' !! 0%nat = Some s' /\ s_closed s' = true /\ p_buf (s_toServer s') = []
    /\ p_closed (s_toServer s') = true /\ p_closed (s_toClient s') = true.
Proof.
  apply (oversize_body_ends_session ex_cfg1 ex_large ex_quiet "s1" ex_open_world 0%nat ex_open);
    try reflexivity; left; reflexivity.
Defined.

Definition ex_turn : stream_turn := mk_turn false newAttachments false [[EvClose]].
Definition ex_batch_poll : batch_request := batch_poll_request (newReliable 16).
Definition ex_batch_env : batch_env := mk_benv true (BodyComplete []) false false [[EvClose]].

