(* ===== verification/InFlight.v ===== *)
(** * InFlight.v: requests in flight

    PollHandler's requests (Poll.v, poll_next) interleaved, phase by phase, with
    one another, with WebSocket requests, with resume handshakes and with every
    other lock section of Session.v: the sweeper, the closings, the
    application's use of the session.
    A session's pollInFlight, on which the sweeper and
    CloseSessionIfNoPollInFlight rely, is exactly the number of requests between
    their beginPoll and their endPoll. *)

From S2P Require Import Prelude Frame Pipe Protocol Reliable Attach Session.
From S2P Require Import Connect Resume Batch Reconnect Stream Plain Poll.

(** ** Requests and the rest of the program *)

Record poll_job := mk_job { jb_id : string; jb_req : poll_request; jb_env : serve_env }.

(** A connection the server is handling. *)
Inductive conn : Type :=
| CPoll (j : poll_job) (ph : poll_phase)
| CSocket (l : loc) (attached : bool)
| CResume (l : loc) (recv : Z) (attached : bool).

(** The session a connection is attached to: a poll from beginPoll to endPoll, a
    WebSocket from beginWebSocket to endWebSocket, a handshake between the halves
    of ResumeHandler. *)
Definition in_flight (c : conn) : option loc :=
  match c with
  | CPoll _ (PhBegun l) | CPoll _ (PhServing l) | CPoll _ (PhLeaving l _) => Some l
  | CSocket l true | CResume l _ true => Some l
  | _ => None
  end.

Definition attached_to (l : loc) (c : conn) : Z := if decide (in_flight c = Some l) then 1 else 0.
Definition attached (cs : list conn) (l : loc) : Z := foldr (fun c n => attached_to l c + n) 0 cs.

(** The lock sections of everything that is not the begin or the end of a
    request. *)
Inductive other_step (w : world) : world -> Prop :=
| os_add l s :
    w_heap w !! l = None -> s_closed s = false -> s_pollInFlight s = 0 ->
    other_step w (store_add l s w)
| os_remove id : other_step w (store_Remove id w)
| os_session l s f :
    w_heap w !! l = Some s ->
    same_life s (f s) \/ f = Session_Close \/ (exists now, f = touch now) ->
    other_step w (on_session l f w)
| os_mark l idle now reason w' :
    removeAndMarkClosed l idle now w = (w', true) ->
    other_step w (set_pending (w_pending w ++ [(l, reason)]) w')
| os_expire id l s timeout now :
    sessions w !! id = Some l -> w_heap w !! l = Some s -> sweep_judge timeout now s = Expired ->
    other_step w (set_pending (w_pending w ++ [(l, ReasonEvicted)]) (evict id l w))
| os_excess l s now :
    w_heap w !! l = Some s -> sessions w !! s_ID s = Some l -> sweep_recheck now s = true ->
    other_step w (set_pending (w_pending w ++ [(l, ReasonEvicted)]) (evict (s_ID s) l w))
| os_finish l reason before after :
    w_pending w = before ++ (l, reason) :: after ->
    other_step w (finish_close l reason (set_pending (before ++ after) w)).

Record pool := mk_pool { pl_world : world; pl_conns : list conn }.

Section Pool.
Context (cfg : ServerConfig) (onPoll : option (loc -> world -> world)).

Inductive pool_step (p : pool) : pool -> Prop :=
| ps_poll_arrives j : pool_step p (mk_pool (pl_world p) (pl_conns p ++ [CPoll j PhArrived]))
| ps_poll i j ph w' ph' :
    pl_conns p !! i = Some (CPoll j ph) ->
    poll_next cfg onPoll (jb_id j) (jb_req j) (jb_env j) ph (pl_world p) = Some (w', ph') ->
    pool_step p (mk_pool w' (<[i := CPoll j ph']> (pl_conns p)))
| ps_socket_begins l s now s' :
    w_heap (pl_world p) !! l = Some s -> beginWebSocket now s = (s', true) ->
    pool_step p (mk_pool (set_heap (<[l := s']> (w_heap (pl_world p))) (pl_world p))
                   (pl_conns p ++ [CSocket l true]))
| ps_socket_ends i l now :
    pl_conns p !! i = Some (CSocket l true) ->
    pool_step p (mk_pool (on_session l (endWebSocket now) (pl_world p))
                   (<[i := CSocket l false]> (pl_conns p)))
| ps_resume_enters l s b now s' recv :
    w_heap (pl_world p) !! l = Some s -> resume_enter b now s = (s', inr recv) ->
    pool_step p (mk_pool (put_session l s' (pl_world p)) (pl_conns p ++ [CResume l recv true]))
| ps_resume_refused l s b now s' a :
    w_heap (pl_world p) !! l = Some s -> resume_enter b now s = (s', inl a) ->
    pool_step p (mk_pool (put_session l s' (pl_world p)) (pl_conns p ++ [CResume l 0 false]))
| ps_resume_exits i l recv s free now s' a :
    pl_conns p !! i = Some (CResume l recv true) ->
    w_heap (pl_world p) !! l = Some s -> resume_exit recv free now s = Some (s', a) ->
    pool_step p (mk_pool (put_session l s' (pl_world p)) (<[i := CResume l recv false]> (pl_conns p)))
| ps_other w' : other_step (pl_world p) w' -> pool_step p (mk_pool w' (pl_conns p)).

(** ** Counting *)

Definition count_at (w : world) (l : loc) : Z :=
  match w_heap w !! l with Some s => s_pollInFlight s | None => 0 end.

Lemma attached_cons c cs l : attached (c :: cs) l = attached_to l c + attached cs l.
Proof. reflexivity. Qed.

Lemma attached_snoc cs c l : attached (cs ++ [c]) l = attached cs l + attached_to l c.
Proof.
  induction cs as [|x cs IH]; cbn [app]; rewrite !attached_cons; [cbn; lia|rewrite IH; lia].
Qed.

Lemma attached_insert cs i c c' l : cs !! i = Some c ->
  attached (<[i := c']> cs) l = attached cs l - attached_to l c + attached_to l c'.
Proof.
  revert i; induction cs as [|x cs IH]; intros [|i] E; try discriminate; cbn in E.
  - injection E as ->; change (<[0%nat := c']> (c :: cs)) with (c' :: cs); rewrite !attached_cons; lia.
  - change (<[S i := c']> (x :: cs)) with (x :: <[i := c']> cs); rewrite !attached_cons, (IH i E); lia.
Qed.

Lemma attached_to_bounds l c : 0 <= attached_to l c <= 1.
Proof. unfold attached_to; case_decide; lia. Qed.

Lemma attached_bounds cs l : 0 <= attached cs l <= len cs.
Proof.
  induction cs as [|c cs IH]; [split; reflexivity|]; rewrite attached_cons, len_cons.
  pose proof (attached_to_bounds l c); lia.
Qed.

Lemma attached_pos cs i c l : cs !! i = Some c -> in_flight c = Some l -> 0 < attached cs l.
Proof.
  intros E Hf; pose proof (attached_insert cs i c (CSocket l false) l E) as H.
  unfold attached_to in H; rewrite Hf in H; cbn in H.
  rewrite decide_True, decide_False in H by (reflexivity || discriminate).
  pose proof (attached_bounds (<[i := CSocket l false]> cs) l); lia.
Qed.

Lemma count_at_put w l s l' : count_at (set_heap (<[l := s]> (w_heap w)) w) l'
  = if decide (l = l') then s_pollInFlight s else count_at w l'.
Proof.
  unfold count_at; cbn; destruct (decide (l = l')) as [<-|Hne].
  - rewrite lookup_insert_eq; reflexivity.
  - rewrite lookup_insert_ne by exact Hne; reflexivity.
Qed.

Lemma count_at_on w l f l' :
  count_at (on_session l f w) l'
  = match w_heap w !! l with
    | Some s => if decide (l = l') then s_pollInFlight (f s) else count_at w l'
    | None => count_at w l'
    end.
Proof.
  unfold count_at, on_session; cbn; destruct (decide (l = l')) as [<-|Hne].
  - rewrite lookup_alter_eq; destruct (w_heap w !! l); reflexivity.
  - rewrite lookup_alter_ne by exact Hne; destruct (w_heap w !! l); reflexivity.
Qed.

Lemma count_at_on_same w l f l' :
  (forall s, w_heap w !! l = Some s -> s_pollInFlight (f s) = s_pollInFlight s) ->
  count_at (on_session l f w) l' = count_at w l'.
Proof.
  intros Hf; rewrite count_at_on; destruct (w_heap w !! l) as [s|] eqn:E; [|reflexivity].
  destruct (decide (l = l')) as [<-|]; [|reflexivity]; unfold count_at; rewrite E; auto.
Qed.

Lemma evict_count id l w l' : count_at (evict id l w) l' = count_at w l'.
Proof. apply (count_at_on_same w l set_closed); reflexivity. Qed.

Lemma finish_count l reason w l' : count_at (finish_close l reason w) l' = count_at w l'.
Proof. apply (count_at_on_same w l closePipes); reflexivity. Qed.

Lemma removeAndMark_count l idle now w w' won l' :
  removeAndMarkClosed l idle now w = (w', won) -> count_at w' l' = count_at w l'.
Proof.
  unfold removeAndMarkClosed; destruct (w_heap w !! l) as [s|] eqn:E; [|intros H; injection H as <- _; reflexivity].
  repeat case_if; intros H; injection H as <- _; try reflexivity.
  transitivity (count_at (set_heap (<[l := set_closed s]> (w_heap w)) w) l'); [reflexivity|].
  rewrite count_at_put; destruct (decide (l = l')) as [<-|]; [|reflexivity].
  unfold count_at; rewrite E; reflexivity.
Qed.

Lemma closeSession_count l reason now w l' : count_at (closeSession l reason now w) l' = count_at w l'.
Proof.
  unfold closeSession; destruct (removeAndMarkClosed l false now w) as [w1 won] eqn:E.
  pose proof (removeAndMark_count _ _ _ _ _ _ l' E) as H; destruct won; [rewrite finish_count|]; exact H.
Qed.

Lemma other_count w w' l : other_step w w' -> count_at w' l = count_at w l.
Proof.
  intros H; destruct H as [l0 s Hn Hc Hp|id|l0 s f Hl Hf|l0 idle now reason w' E|id l0 s t now|l0 s now|l0 reason b a].
  - transitivity (count_at (set_heap (<[l0 := s]> (w_heap w)) w) l); [reflexivity|].
    rewrite count_at_put; destruct (decide (l0 = l)) as [<-|]; [|reflexivity].
    unfold count_at; rewrite Hn; exact Hp.
  - reflexivity.
  - apply count_at_on_same; intros s' Hl'; assert (s' = s) as -> by congruence.
    destruct Hf as [Hf|[->|[now ->]]]; [apply Hf| |reflexivity].
    unfold Session_Close, closeOnce, markClosedLocked; destruct (s_closed s); reflexivity.
  - exact (removeAndMark_count _ _ _ _ _ _ l E).
  - apply (evict_count id l0 w l).
  - apply (evict_count (s_ID s) l0 w l).
  - apply (finish_count l0 reason (set_pending (b ++ a) w) l).
Qed.

Lemma others_count w w' l : rtc other_step w w' -> count_at w' l = count_at w l.
Proof. induction 1 as [|w w1 w2 H _ IH]; [reflexivity|]; rewrite IH; apply other_count, H. Qed.

(** ** Serving does not move the count *)

(** What a handler's body does to a session leaves its count alone. *)
Definition keeps_count {A} (f : session -> option (session * A)) : Prop :=
  forall s s' a, f s = Some (s', a) -> s_pollInFlight s' = s_pollInFlight s.

Lemma upload_frame_count probe f : keeps_count (pollSendStream_frame probe f).
Proof.
  intros s s' a E; destruct f as [typ payload]; unfold pollSendStream_frame, writeUpstream, on_layer in E.
  destruct (s_rs s) as [rs|]; cbn [negb] in E.
  - destruct (pipe_Write (s_toServer s) payload) as [[p [n|e]] b];
      repeat case_match; simplify_eq; reflexivity.
  - destruct (pipe_Write (s_toServer s) payload) as [[p [n|e]] b];
      repeat case_match; simplify_eq; reflexivity.
Qed.

Lemma upload_loop_count maxSend probe fuel : forall body,
  keeps_count (pollSendStream_loop fuel maxSend probe body).
Proof.
  induction fuel as [|fuel IH]; intros body s s' a E; [discriminate|]; cbn [pollSendStream_loop] in E.
  destruct (frame_next maxSend body) as [[f|e] body']; [|destruct e; injection E as <- _; reflexivity].
  destruct (pollSendStream_frame probe f s) as [[s1 [st|]]|] eqn:Ef; [injection E as <- _| |discriminate];
    apply upload_frame_count in Ef; [exact Ef|]; rewrite (IH _ _ _ _ E); exact Ef.
Qed.

Lemma serve_upload_count q env : keeps_count (serve_upload cfg q env).
Proof.
  intros s s' a E; unfold serve_upload in E.
  assert (H : exists fuel st, pollSendStream fuel (cfg_MaxSendBytes cfg) (pq_SendStreamProbe q)
    (bool_decide (is_Some (se_attached env))) (pq_body q) s = Some (s', st)).
  { exists (S (length (r_bytes (pq_body q)))).
    destruct (pollSendStream _ _ _ _ _ s) as [[s1 st]|];
      [exists st|repeat case_match; discriminate].
    repeat case_match; try discriminate; injection E as <- _; reflexivity. }
  destruct H as (fuel & st & Hp); unfold pollSendStream in Hp; destruct (_ && _).
  - injection Hp as <- _; reflexivity.
  - eapply upload_loop_count, Hp.
Qed.

Lemma stream_loop_count bufsize att turns : forall s b s' b' run,
  pollStream_loop bufsize att turns s b = Some (s', b', run) -> s_pollInFlight s' = s_pollInFlight s.
Proof.
  induction turns as [|t turns IH]; intros s b s' b' run E; cbn [pollStream_loop] in E.
  - injection E as <- _ _; reflexivity.
  - assert (Hstep : s_pollInFlight (pollStream_step bufsize att t s b).1.1 = s_pollInFlight s).
    { unfold pollStream_step; destruct (s_rs s) as [rs|].
      - destruct (pollStreamResumable_turn _ _ _ _ _ _ _ _) as [[e b1] st]; reflexivity.
      - destruct (pollStream_turn _ _ _ _ _ _) as [[p b1] st]; reflexivity. }
    destruct (pollStream_step bufsize att t s b) as [[s1 b1] [|err|]]; cbn [fst] in Hstep.
    + rewrite (IH _ _ _ _ _ E); exact Hstep.
    + injection E as <- _ _; exact Hstep.
    + discriminate.
Qed.

Lemma pollStream_count env : keeps_count (pollStream cfg env).
Proof.
  intros s s' a E; unfold pollStream in E; case_if_in E; [injection E as <- _; reflexivity|].
  destruct (s_rs s) as [rs|], (s_att s); try discriminate; try destruct (se_attached env) as [att|];
    try (injection E as <- _; reflexivity);
    destruct (pollStream_loop _ _ _ _ _) as [[[s1 b1] run]|] eqn:El; try discriminate;
    injection E as <- _; apply stream_loop_count in El; exact El.
Qed.

Lemma at_session_count l f w w' a l' : keeps_count f -> at_session l f w = Some (w', a) ->
  count_at w' l' = count_at w l'.
Proof.
  intros Hf E; unfold at_session in E; destruct (w_heap w !! l) as [s|] eqn:Hl; [|discriminate].
  destruct (f s) as [[s1 a1]|] eqn:Ef; [|discriminate]; injection E as <- _; apply Hf in Ef.
  rewrite count_at_put; destruct (decide (l = l')) as [<-|]; [|reflexivity].
  unfold count_at; rewrite Hl; exact Ef.
Qed.

Lemma put_same_count w l s s' l' : w_heap w !! l = Some s -> s_pollInFlight s' = s_pollInFlight s ->
  count_at (set_heap (<[l := s']> (w_heap w)) w) l' = count_at w l'.
Proof.
  intros Hl E; rewrite count_at_put; destruct (decide (l = l')) as [<-|]; [|reflexivity].
  unfold count_at; rewrite Hl; exact E.
Qed.

Lemma poll_serve_count q env l s w w' a l' : w_heap w !! l = Some s ->
  poll_serve cfg q env l s w = Some (w', a) -> count_at w' l' = count_at w l'.
Proof.
  intros Hl E; unfold poll_serve in E; destruct (pq_SendStream q).
  { destruct (match s_rs s with Some _ => _ | None => _ end); [injection E as <- _; reflexivity|].
    eapply at_session_count; [apply serve_upload_count|exact E]. }
  destruct (s_rs s) as [rs|].
  - case_if_in E; [injection E as <- _; reflexivity|].
    case_if_in E; [eapply at_session_count; [apply pollStream_count|exact E]|].
    case_if_in E; [|injection E as <- _; reflexivity].
    destruct (s_att s); [|discriminate].
    destruct (pollBatchResumable _ _ _ _ _); try discriminate; injection E as <- _;
      try (apply (put_same_count w l s); [exact Hl|reflexivity]).
    rewrite closeSession_count; apply (put_same_count w l s); [exact Hl|reflexivity].
  - destruct (ReadAll _ _) as [data| |];
      [|injection E as <- _; apply closeSession_count|injection E as <- _; reflexivity].
    set (s1 := if 0 <? len data then _ else s) in E.
    assert (Hs1 : s_pollInFlight s1 = s_pollInFlight s).
    { unfold s1, writeUpstream; case_if; [|reflexivity].
      destruct (pipe_Write _ _) as [[p r] b]; reflexivity. }
    assert (Hw : count_at (set_heap (<[l := s1]> (w_heap w)) w) l' = count_at w l')
      by (apply (put_same_count w l s); auto).
    rewrite <- Hw; case_if_in E; [injection E as <- _; reflexivity|].
    case_if_in E; (eapply at_session_count; [|exact E]); [apply pollStream_count|].
    intros s0 s2 a2 E2; unfold poll_plain in E2.
    destruct (ReadAvailable _ _ _) as [[p r] rest]; repeat case_match; simplify_eq; reflexivity.
Qed.

(** ** The invariant *)

Context (Hhook : forall hook, onPoll = Some hook -> forall l w, rtc other_step w (hook l w)).

Definition counted (w : world) (cs : list conn) : Prop := forall l, count_at w l = attached cs l.

Lemma note_count now s : s_pollInFlight (noteDetachedLocked now s) = s_pollInFlight s.
Proof. unfold noteDetachedLocked; destruct (s_rs s); [case_if|]; reflexivity. Qed.

Lemma endPoll_count now s : s_pollInFlight (endPoll now s) = i32 (s_pollInFlight s - 1).
Proof. apply (note_count now (set_life _ _ _ _ _ s)). Qed.

Lemma endWebSocket_count now s : s_pollInFlight (endWebSocket now s) = i32 (s_pollInFlight s - 1).
Proof. apply (note_count now (set_life _ _ _ _ _ s)). Qed.

(** The halves of the handshake. *)
Lemma resume_enter_count b now s : let s' := (resume_enter b now s).1 in
  match (resume_enter b now s).2 with
  | inr _ => s_pollInFlight s' = i32 (s_pollInFlight s + 1)
  | inl _ => s_pollInFlight s' = s_pollInFlight s \/ s_pollInFlight s' = i32 (i32 (s_pollInFlight s + 1) - 1)
  end.
Proof.
  unfold resume_enter, beginPoll; repeat (case_match; simplify_eq/=); rewrite ?endPoll_count; cbn; auto.
Qed.

Lemma resume_exit_count recv free now s s' a : resume_exit recv free now s = Some (s', a) ->
  s_pollInFlight s' = i32 (s_pollInFlight s - 1).
Proof. unfold resume_exit; intros E; repeat (case_match; simplify_eq/=); rewrite endPoll_count; reflexivity. Qed.

Lemma attached_at l c : in_flight c = Some l -> forall l', attached_to l' c = if decide (l = l') then 1 else 0.
Proof.
  intros E l'; unfold attached_to; rewrite E; destruct (decide (l = l')) as [->|Hne].
  - rewrite decide_True by reflexivity; reflexivity.
  - rewrite decide_False by congruence; reflexivity.
Qed.

Lemma attached_none c : in_flight c = None -> forall l', attached_to l' c = 0.
Proof. intros E l'; unfold attached_to; rewrite E, decide_False by discriminate; reflexivity. Qed.

Section Steps.
Context (w : world) (cs : list conn) (Hcount : counted w cs) (Hlen : len cs < 2 ^ 31).

(** A connection that stays attached, or stays out. *)
Lemma counted_same i c c' w' : cs !! i = Some c -> in_flight c' = in_flight c ->
  (forall l, count_at w' l = count_at w l) -> counted w' (<[i := c']> cs).
Proof.
  intros Hi Hf Hw l; rewrite Hw, Hcount, (attached_insert cs i c c' l Hi).
  unfold attached_to; rewrite Hf; lia.
Qed.

(** The count of a session one of whose requests begins or ends. *)
Lemma counted_begin cs' l s s' : w_heap w !! l = Some s -> s_pollInFlight s' = i32 (s_pollInFlight s + 1) ->
  len cs' < 2 ^ 31 ->
  (forall l', attached cs' l' = attached cs l' + if decide (l = l') then 1 else 0) ->
  counted (set_heap (<[l := s']> (w_heap w)) w) cs'.
Proof.
  intros Hl Hs Hlen' Ha l'; rewrite count_at_put, Ha; pose proof (Hcount l') as Hc.
  destruct (decide (l = l')) as [<-|]; [|lia].
  pose proof (Ha l) as Hal; rewrite decide_True in Hal by reflexivity.
  pose proof (attached_bounds cs' l); pose proof (attached_bounds cs l).
  unfold count_at in Hc; rewrite Hl in Hc; rewrite Hs, Hc, i32_id by lia; reflexivity.
Qed.

Lemma counted_end i l c c' s s' : cs !! i = Some c -> in_flight c = Some l -> in_flight c' = None ->
  w_heap w !! l = Some s -> s_pollInFlight s' = i32 (s_pollInFlight s - 1) ->
  counted (set_heap (<[l := s']> (w_heap w)) w) (<[i := c']> cs).
Proof.
  intros Hi Hf Hn Hl Hs l'; pose proof (attached_pos cs i c l Hi Hf) as Hpos.
  rewrite count_at_put, (attached_insert cs i c c' l' Hi), (attached_at l c Hf), (attached_none c' Hn).
  pose proof (Hcount l) as H; pose proof (Hcount l') as H'; unfold count_at at 1 in H; rewrite Hl in H.
  destruct (decide (l = l')) as [<-|]; [|lia].
  pose proof (attached_bounds cs l); rewrite Hs, H, i32_id by lia; lia.
Qed.

Lemma counted_end_on i l c c' f : cs !! i = Some c -> in_flight c = Some l -> in_flight c' = None ->
  (forall s, s_pollInFlight (f s) = i32 (s_pollInFlight s - 1)) ->
  counted (on_session l f w) (<[i := c']> cs).
Proof.
  intros Hi Hf Hn Hs; pose proof (attached_pos cs i c l Hi Hf) as Hpos.
  pose proof (Hcount l) as H; unfold count_at in H; destruct (w_heap w !! l) as [s|] eqn:Hl; [|lia].
  unfold on_session; rewrite (alter_is_insert _ l _ s) by exact Hl; eapply counted_end; eauto.
Qed.

(** A handshake that is turned away leaves the count as it was. *)
Lemma counted_refused l s s' c : w_heap w !! l = Some s -> in_flight c = None -> len (cs ++ [c]) < 2 ^ 31 ->
  s_pollInFlight s' = s_pollInFlight s \/ s_pollInFlight s' = i32 (i32 (s_pollInFlight s + 1) - 1) ->
  counted (set_heap (<[l := s']> (w_heap w)) w) (cs ++ [c]).
Proof.
  intros Hl Hn Hlen' Hs l'; rewrite count_at_put, attached_snoc, (attached_none c Hn), Z.add_0_r.
  destruct (decide (l = l')) as [<-|]; [|apply Hcount].
  pose proof (Hcount l) as H; unfold count_at in H; rewrite Hl in H.
  pose proof (attached_bounds cs l); unfold len in *; rewrite length_app in Hlen'; cbn in Hlen'.
  destruct Hs as [->| ->]; [exact H|]; rewrite H, !i32_id by (rewrite ?i32_id by lia; lia); lia.
Qed.

Lemma poll_counted i j ph w' ph' : cs !! i = Some (CPoll j ph) ->
  poll_next cfg onPoll (jb_id j) (jb_req j) (jb_env j) ph w = Some (w', ph') ->
  counted w' (<[i := CPoll j ph']> cs).
Proof.
  intros Hi E; destruct ph as [|l|l|l|l a|a]; cbn [poll_next] in E.
  - destruct (store_Get (jb_id j) w); injection E as <- <-; eapply counted_same; eauto.
  - destruct (w_heap w !! l) as [s|] eqn:Hl; [|discriminate].
    unfold beginPoll in E; case_if_in E; injection E as <- <-; [eapply counted_same; eauto|].
    eapply counted_begin; [exact Hl|reflexivity|unfold len; rewrite length_insert; exact Hlen|].
    intros l'; rewrite (attached_insert cs i _ _ l' Hi), (attached_none (CPoll j (PhFound l)) eq_refl).
    rewrite (attached_at l (CPoll j (PhBegun l)) eq_refl); lia.
  - injection E as <- <-; eapply counted_same; [exact Hi|reflexivity|]; intros l'.
    assert (Ht : count_at (on_session l (touch (se_now (jb_env j))) w) l' = count_at w l')
      by (apply count_at_on_same; reflexivity).
    rewrite <- Ht; destruct onPoll as [hook|]; [|reflexivity].
    eapply others_count, Hhook; reflexivity.
  - destruct (w_heap w !! l) as [s|] eqn:Hl; [|discriminate].
    destruct (poll_serve cfg (jb_req j) (jb_env j) l s w) as [[w1 a]|] eqn:Es; [|discriminate].
    injection E as <- <-; eapply counted_same; [exact Hi|reflexivity|].
    intros l'; eapply poll_serve_count; eauto.
  - injection E as <- <-; eapply counted_end_on; eauto; [reflexivity..|intros; apply endPoll_count].
  - injection E as <- <-; eapply counted_same; eauto.
Qed.
End Steps.

Lemma pool_step_len p p' : pool_step p p' -> len (pl_conns p) <= len (pl_conns p').
Proof. destruct 1; cbn; unfold len; rewrite ?length_app, ?length_insert; cbn; lia. Qed.

Lemma pool_step_counted p p' : pool_step p p' -> len (pl_conns p') < 2 ^ 31 ->
  counted (pl_world p) (pl_conns p) -> counted (pl_world p') (pl_conns p').
Proof.
  intros Hs Hlen Hc; pose proof (pool_step_len p p' Hs) as Hle.
  destruct Hs as [j|i j ph w' ph' Hi E|l s now s' Hl E|i l now Hi|l s b now s' recv Hl E|l s b now s' a Hl E
                |i l recv s free now s' a Hi Hl E|w' Ho]; cbn [pl_world pl_conns] in *.
  - intros l; rewrite attached_snoc, (attached_none (CPoll j PhArrived) eq_refl), Hc; lia.
  - eapply poll_counted; eauto; lia.
  - unfold beginWebSocket in E; case_if_in E; [discriminate|]; injection E as <-.
    eapply counted_begin; [exact Hc|exact Hl|reflexivity|exact Hlen|].
    intros l'; rewrite attached_snoc, (attached_at l (CSocket l true) eq_refl); reflexivity.
  - eapply counted_end_on; eauto; [lia|reflexivity..|intros; apply endWebSocket_count].
  - pose proof (resume_enter_count b now s) as Hn; rewrite E in Hn; cbn [fst snd] in Hn.
    eapply counted_begin; [exact Hc|exact Hl|exact Hn|exact Hlen|].
    intros l'; rewrite attached_snoc, (attached_at l (CResume l recv true) eq_refl); reflexivity.
  - pose proof (resume_enter_count b now s) as Hn; rewrite E in Hn; eapply counted_refused; eauto.
  - eapply counted_end; eauto; [lia|reflexivity..|eapply resume_exit_count, E].
  - intros l; rewrite (other_count _ _ l Ho); apply Hc.
Qed.

Definition new_pool : pool := mk_pool new_world [].

Lemma pool_counted p : rtc pool_step new_pool p -> len (pl_conns p) < 2 ^ 31 ->
  counted (pl_world p) (pl_conns p).
Proof.
  revert p; apply (rtc_ind_r (fun p => len (pl_conns p) < 2 ^ 31 -> counted (pl_world p) (pl_conns p))).
  - intros _ l; reflexivity.
  - intros p p' _ Hs IH Hlen; eapply pool_step_counted; eauto.
    apply IH; pose proof (pool_step_len _ _ Hs); lia.
Qed.

(** A session with a request in flight is nobody's to close for being idle. *)
Lemma in_flight_spared w l s timeout now reason :
  w_heap w !! l = Some s -> s_pollInFlight s <> 0 ->
  sweep_judge timeout now s = Keep /\ sweep_recheck now s = false
  /\ CloseSessionIfNoPollInFlight l reason now w = (w, false)
  /\ resumeExpiredLocked now s = false /\ ResumeDeadline s = None.
Proof.
  intros Hl Hp; apply Z.eqb_neq in Hp.
  unfold sweep_judge, sweep_recheck, detachedBeyondPollGapLocked, CloseSessionIfNoPollInFlight,
    removeAndMarkClosed, resumeExpiredLocked, ResumeDeadline; rewrite Hl, Hp.
  rewrite !andb_false_r; cbn [negb orb andb]; rewrite orb_true_r.
  destruct (s_rs s); split_and!; repeat case_if; reflexivity.
Qed.

(** ** Properties *)

(** C21: a poll counts as attached while it runs and no longer.  However the
    phases of any number of polls interleave with one another, with WebSocket
    requests, with resume handshakes, with the sweeper, with closings and with
    the application,
    pollInFlight of a session is exactly the number of polls that are past
    their beginPoll and have not run their deferred endPoll, plus the attached
    WebSockets and the handshakes under way (fewer than 2^31 requests in all); so as long as one of them is
    there, whatever branch serves it, the sweeper keeps the session,
    CloseSessionIfNoPollInFlight refuses, the resume grace cannot expire and
    there is no resume deadline; and a poll that leaves takes one off and
    starts the grace of a resumable session exactly if it was the last.  The
    serving of a request is one step, with anything before and after it. *)
Theorem poll_counts_while_it_runs p l s :
  rtc pool_step new_pool p -> len (pl_conns p) < 2 ^ 31 -> w_heap (pl_world p) !! l = Some s ->
  s_pollInFlight s = attached (pl_conns p) l
  /\ (forall i c, pl_conns p !! i = Some c -> in_flight c = Some l ->
      forall timeout now reason,
        sweep_judge timeout now s = Keep /\ sweep_recheck now s = false
        /\ CloseSessionIfNoPollInFlight l reason now (pl_world p) = (pl_world p, false)
        /\ resumeExpiredLocked now s = false /\ ResumeDeadline s = None)
  /\ (forall i j a, pl_conns p !! i = Some (CPoll j (PhLeaving l a)) ->
      exists w' s', poll_next cfg onPoll (jb_id j) (jb_req j) (jb_env j) (PhLeaving l a) (pl_world p)
                    = Some (w', PhDone a)
        /\ w_heap w' !! l = Some s' /\ s_pollInFlight s' = attached (pl_conns p) l - 1
        /\ s_detachedAt s' = if bool_decide (s_rs s <> None) && (attached (pl_conns p) l =? 1)
                             then se_end (jb_env j) else s_detachedAt s).
Proof.
  intros H Hlen Hl; pose proof (pool_counted p H Hlen l) as Hc; unfold count_at in Hc; rewrite Hl in Hc.
  split; [exact Hc|]; split.
  - intros i c Hi Hf timeout now reason; apply in_flight_spared; [exact Hl|].
    pose proof (attached_pos _ i c l Hi Hf); lia.
  - intros i j a Hi; pose proof (attached_pos _ i _ l Hi eq_refl) as Hpos.
    pose proof (attached_bounds (pl_conns p) l); cbn [poll_next].
    eexists _, (endPoll (se_end (jb_env j)) s); split; [reflexivity|].
    cbn; rewrite lookup_alter_eq, Hl, endPoll_count, Hc, i32_id by lia.
    split; [reflexivity|]; split; [reflexivity|].
    unfold endPoll, noteDetachedLocked; cbn; rewrite Hc, i32_id by lia.
    destruct (s_rs s) as [rs|].
    + rewrite bool_decide_true by discriminate; cbn [andb].
      destruct (Z.eqb_spec (attached (pl_conns p) l - 1) 0), (Z.eqb_spec (attached (pl_conns p) l) 1);
        reflexivity || lia.
    + rewrite bool_decide_false by tauto; reflexivity.
Qed.
End Pool.

(** ** Witnesses *)

(** A session is added, a poll arrives, finds it and begins; the sweeper looks
    an hour later. *)
Definition ex_job : poll_job := mk_job "s1" ex_garbage ex_quiet.
Definition ex_begun : world := set_heap {[ 0%nat := (beginPoll 5 ex_sess).1 ]} ex_served.
Definition ex_pool : pool := mk_pool ex_begun [CPoll ex_job (PhBegun 0%nat)].

Lemma ex_pool_reachable : rtc (pool_step ex_cfg1 None) new_pool ex_pool.
Proof.
  apply (rtc_l _ _ (mk_pool ex_served [])); [apply (ps_other ex_cfg1 None new_pool), os_add; reflexivity|].
  apply (rtc_l _ _ (mk_pool ex_served [CPoll ex_job PhArrived]));
    [apply (ps_poll_arrives ex_cfg1 None (mk_pool ex_served []))|].
  apply (rtc_l _ _ (mk_pool ex_served [CPoll ex_job (PhFound 0%nat)])).
  { apply (ps_poll ex_cfg1 None (mk_pool ex_served [CPoll ex_job PhArrived]) 0%nat ex_job PhArrived);
      reflexivity. }
  apply rtc_once.
  apply (ps_poll ex_cfg1 None (mk_pool ex_served [CPoll ex_job (PhFound 0%nat)]) 0%nat ex_job (PhFound 0%nat));
    reflexivity.
Qed.

Lemma poll_counts_while_it_runs_witness :
  s_pollInFlight (beginPoll 5 ex_sess).1 = 1
  /\ sweep_judge (60 * Second) (3600 * Second) (beginPoll 5 ex_sess).1 = Keep
  /\ sweep_judge (60 * Second) (3600 * Second) ex_sess = Expired.
Proof.
  destruct (poll_counts_while_it_runs ex_cfg1 None ltac:(discriminate) ex_pool 0%nat (beginPoll 5 ex_sess).1
              ex_pool_reachable) as (H1 & H2 & _); [reflexivity|reflexivity|].
  split; [exact H1|]; split; [|reflexivity].
  apply (H2 0%nat (CPoll ex_job (PhBegun 0%nat)) eq_refl eq_refl (60 * Second) (3600 * Second) ReasonEvicted).
Defined.
