(* ===== verification/HttpConn.v ===== *)
(** * HttpConn.v: the client's plain HTTP connection

    Models httpConn (src/client.go): Write and its flusher (flushLoop, doSend,
    clearFlight), Close, the batch poll loop (doPoll, poll_rounds) and the upload
    probe (probeUploadStream).  The flusher is a goroutine of its own, so the
    upload side is a step relation on the connection, its flushers and the
    server's session; the streamed loops of the same connection are in
    Plain.v, and the failure signals in Reconnect.v. *)

From S2P Require Import Prelude Frame Pipe Protocol Reliable Channel Attach Session.
From S2P Require Import Connect Resume Batch Reconnect Stream Plain Poll.

(** ** The connection *)

Record httpConn := mk_http {
  hc_conn : conn_state;
  hc_closed : bool;
  hc_writeBuf : list byte;
  hc_writeFlightOn : bool;
  hc_maxSendChunk : Z;
}.

Definition on_conn (f : conn_state -> conn_state) (c : httpConn) : httpConn :=
  mk_http (f (hc_conn c)) (hc_closed c) (hc_writeBuf c) (hc_writeFlightOn c) (hc_maxSendChunk c).
Definition set_buffer (buf : list byte) (on : bool) (c : httpConn) : httpConn :=
  mk_http (hc_conn c) (hc_closed c) buf on (hc_maxSendChunk c).

(** [Write]; the last component says that it started a flusher. *)
Definition http_Write (c : httpConn) (p : list byte) : httpConn * res Z * bool :=
  if hc_closed c then (c, Fail ErrClosedPipe, false)
  else if len p =? 0 then (c, Ok 0, false)
  else match cn_writePipe (hc_conn c) with
  | Some wp =>
      let '(wp, r, _) := pipe_Write wp p in
      (on_conn (fun cn => mk_conn (cn_sessionID cn) (cn_failed cn) (cn_superseded cn) (cn_cancelled cn)
                            (cn_readPipe cn) (Some wp)) c, r, false)
  | None =>
      (set_buffer (hc_writeBuf c ++ p) true c, Ok (len p), negb (hc_writeFlightOn c))
  end.

Definition clearFlight (c : httpConn) : httpConn := set_buffer (hc_writeBuf c) false c.

(** [Close] up to its wait for the goroutines, which the cancellation ends. *)
Definition http_Close (c : httpConn) : httpConn :=
  if hc_closed c then c
  else
    let cn := hc_conn c in
    mk_http (mk_conn (cn_sessionID cn) (cn_failed cn) (cn_superseded cn) true (cn_readPipe cn)
               (option_map pipe_Close (cn_writePipe cn)))
      true (hc_writeBuf c) (hc_writeFlightOn c) (hc_maxSendChunk c).

(** The rest of Close, once the goroutines are gone. *)
Definition http_Close_waited (c : httpConn) : httpConn :=
  on_conn (fun cn => mk_conn (cn_sessionID cn) (cn_failed cn) (cn_superseded cn) (cn_cancelled cn)
                       (pipe_Close (cn_readPipe cn)) (cn_writePipe cn)) c.

(** [doSend]: what the answer to a send-only request means. *)
Definition doSend_status (status : Z) : option goerr :=
  if (status =? StatusOK) || (status =? StatusNoContent) then None else Some (fatalPollError status).

(** ** The flusher *)

Inductive flusher : Type :=
| FlWait                      (* the coalesce window *)
| FlTake                      (* before the lock section that takes the buffer *)
| FlSend (buf : list byte)    (* sending what it took *)
| FlClear                     (* before clearFlight *)
| FlDone.

(** The lock section of flushLoop. *)
Definition flush_take (c : httpConn) : httpConn * flusher :=
  match hc_writeBuf c with
  | [] => (set_buffer [] false c, FlDone)
  | buf => (set_buffer [] (hc_writeFlightOn c) c, FlSend buf)
  end.

(** The next chunk and what is left of the buffer. *)
Definition flush_chunk (c : httpConn) (buf : list byte) : list byte * list byte :=
  let n := Z.min (len buf) (hc_maxSendChunk c) in (copied n buf, uncopied n buf).

(** A send that failed: it is reported unless the connection is going down. *)
Definition flush_failed (active : string) (err : goerr) (c : httpConn) : httpConn :=
  if negb (cn_cancelled (hc_conn c)) && negb (hc_closed c)
  then on_conn (onTransportProblem active err) c else c.

(** ** The upload side as a system *)

Record hsys := mk_hsys {
  h_conn : httpConn;
  h_flushers : list flusher;
  h_sess : session;              (* the server's session, without a byte layer *)
  h_written : list byte;         (* accepted by Write *)
  h_arrived : list (list byte);  (* the bodies the server was given *)
  h_read : list byte;            (* read by the server's application *)
  h_lost : bool;                 (* some send has failed *)
}.

Definition set_conn (c : httpConn) (s : hsys) : hsys :=
  mk_hsys c (h_flushers s) (h_sess s) (h_written s) (h_arrived s) (h_read s) (h_lost s).
Definition set_flusher (i : nat) (f : flusher) (s : hsys) : hsys :=
  mk_hsys (h_conn s) (<[i := f]> (h_flushers s)) (h_sess s) (h_written s) (h_arrived s) (h_read s) (h_lost s).

(** A send-only request at the server: PollHandler appends the body. *)
Definition post (chunk : list byte) (s : hsys) : hsys :=
  mk_hsys (h_conn s) (h_flushers s) (writeUpstream (h_sess s) chunk).1 (h_written s)
    (h_arrived s ++ [chunk]) (h_read s) (h_lost s).

Inductive hstep (s : hsys) : hsys -> Prop :=
| hs_write p c n started :
    http_Write (h_conn s) p = (c, Ok n, started) ->
    hstep s (mk_hsys c (h_flushers s ++ (if started then [FlWait] else [])) (h_sess s)
               (h_written s ++ p) (h_arrived s) (h_read s) (h_lost s))
| hs_coalesced i :
    h_flushers s !! i = Some FlWait -> hstep s (set_flusher i FlTake s)
| hs_cancelled i :
    h_flushers s !! i = Some FlWait -> cn_cancelled (hc_conn (h_conn s)) = true ->
    hstep s (set_flusher i FlClear s)
| hs_take i c f :
    h_flushers s !! i = Some FlTake -> flush_take (h_conn s) = (c, f) ->
    hstep s (set_flusher i f (set_conn c s))
| hs_sent_all i :
    h_flushers s !! i = Some (FlSend []) -> hstep s (set_flusher i FlTake s)
| hs_sent i buf chunk rest :
    h_flushers s !! i = Some (FlSend buf) -> buf <> [] -> flush_chunk (h_conn s) buf = (chunk, rest) ->
    hstep s (set_flusher i (FlSend rest) (post chunk s))
| hs_failed i buf chunk rest (arrived : bool) active err :
    h_flushers s !! i = Some (FlSend buf) -> buf <> [] -> flush_chunk (h_conn s) buf = (chunk, rest) ->
    let s1 := if arrived then post chunk s else s in
    hstep s (mk_hsys (flush_failed active err (h_conn s)) (<[i := FlClear]> (h_flushers s)) (h_sess s1)
               (h_written s) (h_arrived s1) (h_read s) true)
| hs_clear i :
    h_flushers s !! i = Some FlClear -> hstep s (set_flusher i FlDone (set_conn (clearFlight (h_conn s)) s))
| hs_close : hstep s (set_conn (http_Close (h_conn s)) s)
| hs_closed :
    hc_closed (h_conn s) = true -> Forall (eq FlDone) (h_flushers s) ->
    hstep s (set_conn (http_Close_waited (h_conn s)) s)
| hs_problem active err :      (* the poll loop's *)
    hstep s (set_conn (on_conn (onTransportProblem active err) (h_conn s)) s)
| hs_read_server dst u d :
    Session_Read (h_sess s) dst = Some (u, Ok d) ->
    hstep s (mk_hsys (h_conn s) (h_flushers s) u (h_written s) (h_arrived s) (h_read s ++ d) (h_lost s))
| hs_server_close :
    hstep s (mk_hsys (h_conn s) (h_flushers s) (Session_Close (h_sess s)) (h_written s) (h_arrived s)
               (h_read s) (h_lost s)).

Definition new_hsys (maxSendChunk : Z) : hsys :=
  mk_hsys (mk_http (new_conn "s1" false) false [] false maxSendChunk) [] (newSession "s1" ∅ 0) [] [] [] false.

(** ** At most one flusher *)

(** [o] is the only flusher that is not done, if there is one. *)
Inductive shape : list flusher -> option flusher -> Prop :=
| shape_none fl : Forall (eq FlDone) fl -> shape fl None
| shape_some l1 f l2 : f <> FlDone -> Forall (eq FlDone) (l1 ++ l2) -> shape (l1 ++ f :: l2) (Some f).

Definition alive (f : flusher) : option flusher := match f with FlDone => None | _ => Some f end.
Definition held (o : option flusher) : list byte := match o with Some (FlSend buf) => buf | _ => [] end.

Lemma shape_lookup fl o i g : shape fl o -> fl !! i = Some g -> g <> FlDone ->
  o = Some g /\ forall f, shape (<[i := f]> fl) (alive f).
Proof.
  intros [fl' Hd|l1 f l2 Hf Hd] Hi Hg.
  - apply Forall_lookup_1 with (i := i) (x := g) in Hd; [congruence|exact Hi].
  - apply Forall_app in Hd as [Hd1 Hd2].
    assert (i = length l1 /\ g = f) as [-> ->].
    { apply lookup_app_Some in Hi as [Hi|[Hle Hi]].
      - pose proof (Forall_lookup_1 _ _ _ _ Hd1 Hi); congruence.
      - destruct (i - length l1)%nat as [|k] eqn:E; cbn in Hi; [split; [lia|congruence]|].
        pose proof (Forall_lookup_1 _ _ _ _ Hd2 Hi); congruence. }
    split; [reflexivity|]; intros f'; rewrite insert_app_r_alt, Nat.sub_diag by lia; cbn.
    assert (Hd : Forall (eq FlDone) (l1 ++ l2)) by (apply Forall_app; auto).
    destruct f'; cbn; try (constructor; [discriminate|exact Hd]).
    constructor; apply Forall_app; auto.
Qed.

Lemma shape_push fl f : shape fl None -> f <> FlDone -> shape (fl ++ [f]) (Some f).
Proof.
  intros Hs Hf; inversion Hs; subst; apply (shape_some _ _ []); [exact Hf|rewrite app_nil_r; assumption].
Qed.

Record hinv (max : Z) (s : hsys) : Prop := {
  hi_max : hc_maxSendChunk (h_conn s) = max /\ 0 < max;
  hi_mode : cn_writePipe (hc_conn (h_conn s)) = None;
  hi_flight : exists o, shape (h_flushers s) o
    /\ hc_writeFlightOn (h_conn s) = bool_decide (is_Some o)
    /\ (h_lost s = false ->
        h_written s = concat (h_arrived s) ++ held o ++ hc_writeBuf (h_conn s)
        /\ (o = Some FlClear -> cn_cancelled (hc_conn (h_conn s)) = true)
        /\ (o = None -> hc_writeBuf (h_conn s) <> [] -> cn_cancelled (hc_conn (h_conn s)) = true));
  hi_chunks : Forall (fun c => 0 < len c <= max) (h_arrived s);
  hi_server : h_read s ++ p_buf (s_toServer (h_sess s)) `prefix_of` concat (h_arrived s)
    /\ (p_closed (s_toServer (h_sess s)) = false ->
        h_read s ++ p_buf (s_toServer (h_sess s)) = concat (h_arrived s));
}.

Lemma problem_keeps active err cn :
  cn_writePipe cn = None ->
  cn_writePipe (onTransportProblem active err cn) = None
  /\ (cn_cancelled cn = true -> cn_cancelled (onTransportProblem active err cn) = true).
Proof.
  intros Hw; unfold onTransportProblem, onSessionClosed, supersededByNewerConnect, supersede, fail, close_conn_pipes.
  repeat case_match; simplify_eq; cbn; rewrite ?Hw; auto.
Qed.

(** The server's side of a request. *)
Lemma post_server chunk s :
  h_read s ++ p_buf (s_toServer (h_sess s)) `prefix_of` concat (h_arrived s)
  /\ (p_closed (s_toServer (h_sess s)) = false ->
      h_read s ++ p_buf (s_toServer (h_sess s)) = concat (h_arrived s)) ->
  h_read s ++ p_buf (s_toServer (h_sess (post chunk s))) `prefix_of` concat (h_arrived (post chunk s))
  /\ (p_closed (s_toServer (h_sess (post chunk s))) = false ->
      h_read s ++ p_buf (s_toServer (h_sess (post chunk s))) = concat (h_arrived (post chunk s))).
Proof.
  intros [Hp Ho]; unfold post, writeUpstream, pipe_Write; cbn.
  rewrite concat_app; cbn; rewrite app_nil_r.
  destruct (p_closed (s_toServer (h_sess s))) eqn:Hc; cbn.
  - split; [apply prefix_app_r; exact Hp|congruence].
  - rewrite app_assoc, (Ho eq_refl); split; [reflexivity|auto].
Qed.

(** What is sent next. *)
Lemma flush_chunk_spec c buf chunk rest : 0 < hc_maxSendChunk c -> buf <> [] ->
  flush_chunk c buf = (chunk, rest) -> buf = chunk ++ rest /\ 0 < len chunk <= hc_maxSendChunk c.
Proof.
  intros Hm Hb E; unfold flush_chunk in E; injection E as <- <-.
  assert (Hl : 0 < len buf).
  { pose proof (len_nonneg buf); destruct (Z.eq_dec (len buf) 0) as [E|E];
      [apply len_zero_iff in E; congruence|lia]. }
  rewrite copied_uncopied, len_copied by lia; split; [reflexivity|lia].
Qed.

(** A flusher moves from [f] to [f']; [c] is the connection it leaves. *)
Section Move.
Context (max : Z) (s : hsys) (Hinv : hinv max s) (i : nat) (f : flusher)
        (Hi : h_flushers s !! i = Some f) (Hf : f <> FlDone).

Lemma move_inv f' c s1 :
  h_flushers s1 = <[i := f']> (h_flushers s) -> h_conn s1 = c ->
  hc_maxSendChunk c = max -> cn_writePipe (hc_conn c) = None ->
  hc_writeFlightOn c = bool_decide (is_Some (alive f')) ->
  (h_lost s1 = false -> h_lost s = false) ->
  (h_lost s1 = false -> h_written s = concat (h_arrived s) ++ held (Some f) ++ hc_writeBuf (h_conn s) ->
   h_written s1 = concat (h_arrived s1) ++ held (alive f') ++ hc_writeBuf c
   /\ (f' = FlClear -> cn_cancelled (hc_conn c) = true)
   /\ (f' = FlDone -> (f = FlClear -> cn_cancelled (hc_conn (h_conn s)) = true) ->
       hc_writeBuf c <> [] -> cn_cancelled (hc_conn c) = true)) ->
  Forall (fun c => 0 < len c <= max) (h_arrived s1) ->
  h_read s1 ++ p_buf (s_toServer (h_sess s1)) `prefix_of` concat (h_arrived s1)
  /\ (p_closed (s_toServer (h_sess s1)) = false ->
      h_read s1 ++ p_buf (s_toServer (h_sess s1)) = concat (h_arrived s1)) ->
  hinv max s1.
Proof.
  destruct Hinv as [[Hmx Hpos] _ (o & Hsh & Hon & Hord) _ _]; intros Hfl Hc Hm Hw Hfo Hls Ho Hch Hsv.
  destruct (shape_lookup _ _ _ _ Hsh Hi Hf) as [-> Hsh'].
  constructor; rewrite ?Hc; auto; exists (alive f'); rewrite Hfl; split_and!; auto.
  intros Hl; destruct (Hord (Hls Hl)) as (H1 & H2 & _); destruct (Ho Hl H1) as (H3 & H4 & H5).
  split_and!; [exact H3|intros E; apply H4; destruct f'; cbn in E; congruence|].
  intros E; apply H5; [destruct f'; cbn in E; congruence|]; intros ->; auto.
Qed.
End Move.

Lemma flies max s i f : hinv max s -> h_flushers s !! i = Some f -> f <> FlDone ->
  hc_writeFlightOn (h_conn s) = true.
Proof.
  intros [_ _ (o & Hsh & -> & _) _ _] Hi Hf; destruct (shape_lookup _ _ _ _ Hsh Hi Hf) as [-> _].
  apply bool_decide_true; eauto.
Qed.

Lemma conn_inv max s f : hinv max s ->
  (forall c, hc_maxSendChunk (f c) = hc_maxSendChunk c /\ hc_writeBuf (f c) = hc_writeBuf c
     /\ hc_writeFlightOn (f c) = hc_writeFlightOn c) ->
  (cn_writePipe (hc_conn (h_conn s)) = None -> cn_writePipe (hc_conn (f (h_conn s))) = None
   /\ (cn_cancelled (hc_conn (h_conn s)) = true -> cn_cancelled (hc_conn (f (h_conn s))) = true)) ->
  hinv max (set_conn (f (h_conn s)) s).
Proof.
  intros [[Hm Hp] Hw (o & Hsh & Hon & Hord) Hch Hsv] Hk Hcn.
  destruct (Hk (h_conn s)) as (E1 & E2 & E3), (Hcn Hw) as [Hw' Hca].
  constructor; cbn; auto; [rewrite E1; auto|].
  exists o; rewrite E2, E3; split_and!; auto; intros Hl; destruct (Hord Hl) as (H1 & H2 & H3).
  split_and!; auto.
Qed.

Lemma write_inv max s p c n started : hinv max s -> http_Write (h_conn s) p = (c, Ok n, started) ->
  hinv max (mk_hsys c (h_flushers s ++ (if started then [FlWait] else [])) (h_sess s)
              (h_written s ++ p) (h_arrived s) (h_read s) (h_lost s)).
Proof.
  intros [[Hm Hp] Hw (o & Hsh & Hon & Hord) Hch Hsv] E; unfold http_Write in E; rewrite Hw in E.
  destruct (hc_closed (h_conn s)); [discriminate|]; destruct (Z.eqb_spec (len p) 0) as [H0|H0].
  - injection E as <- <- <-; apply len_zero_iff in H0; subst p; rewrite !app_nil_r.
    constructor; cbn; auto; exists o; auto.
  - injection E as <- <- <-; constructor; cbn; auto.
    destruct (hc_writeFlightOn (h_conn s)) eqn:Hfl; cbn [negb].
    + exists o; rewrite app_nil_r; split_and!; [exact Hsh|exact Hon|].
      intros Hl; destruct (Hord Hl) as (H1 & H2 & H3); rewrite H1, <- !app_assoc; split_and!; auto.
      intros ->; symmetry in Hon; apply bool_decide_eq_true in Hon; destruct Hon; discriminate.
    + assert (o = None) as -> by (destruct o; [symmetry in Hon; apply bool_decide_eq_false in Hon;
                                                exfalso; eauto|reflexivity]).
      exists (Some FlWait); split_and!; [apply shape_push; [exact Hsh|discriminate]|reflexivity|].
      intros Hl; destruct (Hord Hl) as (H1 & _); rewrite H1; cbn; rewrite <- !app_assoc; split_and!; auto; discriminate.
Qed.

Lemma take_inv max s i c f : hinv max s -> h_flushers s !! i = Some FlTake ->
  flush_take (h_conn s) = (c, f) -> hinv max (set_flusher i f (set_conn c s)).
Proof.
  intros Hinv Hi E; pose proof (flies _ _ _ _ Hinv Hi ltac:(discriminate)) as Hon.
  pose proof Hinv as [[Hm Hp] Hw _ Hch Hsv]; unfold flush_take in E.
  destruct (hc_writeBuf (h_conn s)) as [|b buf] eqn:Hb; injection E as <- <-;
    (eapply (move_inv max s Hinv i FlTake Hi); [discriminate|reflexivity|reflexivity|..]; cbn; auto;
     intros Hl H1; rewrite H1, Hb; cbn; rewrite ?app_nil_r; split_and!; auto; try discriminate; congruence).
Qed.

Lemma sent_inv max s i buf chunk rest : hinv max s -> h_flushers s !! i = Some (FlSend buf) -> buf <> [] ->
  flush_chunk (h_conn s) buf = (chunk, rest) -> hinv max (set_flusher i (FlSend rest) (post chunk s)).
Proof.
  intros Hinv Hi Hb E; pose proof (flies _ _ _ _ Hinv Hi ltac:(discriminate)) as Hon.
  pose proof Hinv as [[Hm Hp] Hw _ Hch Hsv].
  assert (Hpos : 0 < hc_maxSendChunk (h_conn s)) by lia.
  destruct (flush_chunk_spec _ _ _ _ Hpos Hb E) as [-> Hl]; rewrite Hm in Hl.
  eapply (move_inv max s Hinv i _ Hi); [discriminate|reflexivity|reflexivity|..]; auto.
  - intros Hlost H1; cbn [h_written h_arrived set_flusher post h_conn held alive] in *.
    rewrite H1, concat_app; cbn [concat]; rewrite app_nil_r, <- !app_assoc; split_and!; auto; discriminate.
  - cbn; apply Forall_app; auto.
  - exact (post_server chunk s Hsv).
Qed.

Lemma failed_inv max s i buf chunk rest (arrived : bool) active err : hinv max s ->
  h_flushers s !! i = Some (FlSend buf) -> buf <> [] -> flush_chunk (h_conn s) buf = (chunk, rest) ->
  let s1 := if arrived then post chunk s else s in
  hinv max (mk_hsys (flush_failed active err (h_conn s)) (<[i := FlClear]> (h_flushers s)) (h_sess s1)
              (h_written s) (h_arrived s1) (h_read s) true).
Proof.
  intros Hinv Hi Hb E s1; pose proof (flies _ _ _ _ Hinv Hi ltac:(discriminate)) as Hon.
  pose proof Hinv as [[Hm Hp] Hw _ Hch Hsv].
  assert (Hpos : 0 < hc_maxSendChunk (h_conn s)) by lia.
  destruct (flush_chunk_spec _ _ _ _ Hpos Hb E) as [_ Hl]; rewrite Hm in Hl.
  eapply (move_inv max s Hinv i _ Hi); [discriminate|reflexivity|reflexivity|..]; auto; try discriminate.
  - unfold flush_failed; case_match; cbn; auto.
  - unfold flush_failed; case_match; cbn; [apply problem_keeps, Hw|exact Hw].
  - unfold flush_failed; case_match; cbn; auto.
  - unfold s1; destruct arrived; cbn; [apply Forall_app; auto|exact Hch].
  - unfold s1; destruct arrived; [exact (post_server chunk s Hsv)|exact Hsv].
Qed.

Lemma hstep_inv max s s' : hinv max s -> hstep s s' -> hinv max s'.
Proof.
  intros Hinv Hs; pose proof Hinv as [[Hm Hp] Hw Hfl Hch Hsv]; destruct Hs.
  - eapply write_inv; eauto.
  - pose proof (flies _ _ _ _ Hinv H ltac:(discriminate)).
    eapply (move_inv max s Hinv i FlWait H); [discriminate|reflexivity|reflexivity|..]; cbn; auto.
    intros _ ->; split_and!; auto; discriminate.
  - pose proof (flies _ _ _ _ Hinv H ltac:(discriminate)).
    eapply (move_inv max s Hinv i FlWait H); [discriminate|reflexivity|reflexivity|..]; cbn; auto.
  - eapply take_inv; eauto.
  - pose proof (flies _ _ _ _ Hinv H ltac:(discriminate)).
    eapply (move_inv max s Hinv i _ H); [discriminate|reflexivity|reflexivity|..]; cbn; auto.
    intros _ ->; split_and!; auto; discriminate.
  - eapply sent_inv; eauto.
  - eapply failed_inv; eauto.
  - eapply (move_inv max s Hinv i FlClear H); [discriminate|reflexivity|reflexivity|..]; cbn; auto.
    intros _ ->; split_and!; auto; discriminate.
  - apply conn_inv; [exact Hinv|intros c; unfold http_Close; case_match; cbn; auto|].
    intros Hn; unfold http_Close; case_match; cbn; rewrite ?Hn; auto.
  - apply conn_inv; [exact Hinv|intros c; auto|intros Hn; auto].
  - apply conn_inv; [exact Hinv|intros c; auto|intros Hn; apply problem_keeps, Hn].
  - constructor; cbn; auto.
    unfold Session_Read, pipe_Read in H; destruct (p_buf (s_toServer (h_sess s))) as [|b l] eqn:Eb;
      [destruct (p_closed _); discriminate|]; injection H as <- <-; cbn.
    rewrite <- app_assoc, copied_uncopied; exact Hsv.
  - constructor; cbn; auto.
    unfold Session_Close, closeOnce, markClosedLocked; destruct (s_closed (h_sess s)); cbn; [exact Hsv|].
    split; [apply Hsv|discriminate].
Qed.

Lemma hsys_reachable max s : 0 < max -> rtc hstep (new_hsys max) s -> hinv max s.
Proof.
  intros Hm H; eapply (rtc_invariant hstep (hinv max)); [intros; eapply hstep_inv; eauto|exact H|].
  constructor; cbn; auto.
  exists None; split_and!; [apply shape_none, Forall_nil; exact I|reflexivity|].
  intros _; split_and!; [reflexivity|discriminate|congruence].
Qed.

(** ** The batch poll loop *)

(** What the client gets back for a poll: nothing, a status, or a 200 and a
    body. *)
Definition doPoll (readCap : Z) (rep : poll_reply) (p : pipe) : pipe * res bool :=
  match rep with
  | PollNone err => (p, Fail err)
  | PollBody body =>
      (* io.ReadAll(io.LimitReader(resp.Body, readCap)) *)
      let data := copied readCap (r_bytes body) in
      if (len (r_bytes body) <? readCap) && negb (bool_decide (r_end body = EOF))
      then (p, Fail (r_end body))
      else if len data =? 0 then (p, Ok false)
      else match pipe_Write p data with
           | (p, Fail err, _) => (p, Fail err)
           | (p, Ok _, _) => (p, Ok true)
           end
  | PollStatus status =>
      if status =? StatusNoContent then (p, Ok false) else (p, Fail (fatalPollError status))
  end.

(** What happens to the server's answer on its way. *)
Inductive fate : Type :=
| FateWhole
| FateCut (n : nat) (err : goerr)
| FateNone (err : goerr).

Definition deliver_answer (a : poll_answer) (f : fate) : poll_reply :=
  match f with
  | FateNone err => PollNone err
  | FateWhole =>
      match a with
      | PollData d => PollBody (mk_reader [d] EOF)
      | PollHeader status | PollError status => PollStatus status
      | _ => PollNone (ErrNet false)
      end
  | FateCut n err =>
      match a with
      | PollData d => PollBody (mk_reader [take n d] (if bool_decide (err = EOF) then ErrUnexpectedEOF else err))
      | PollHeader status | PollError status => PollStatus status
      | _ => PollNone (ErrNet false)
      end
  end.

(** Polls until one fails ([poll_rounds]), against PollHandler's plain branch: the
    server's session, the client's read pipe, the bytes the application wrote
    meanwhile, and whether the loop goes on. *)
Fixpoint poll_rounds (cfg : ServerConfig) (rounds : list (serve_env * fate)) (s : session) (p : pipe)
    : session * pipe * list byte * bool :=
  match rounds with
  | [] => (s, p, [], true)
  | (env, f) :: rounds =>
      let now := accepted (s_toClient s) (waited (s_toClient s) (cfg_PollBufferSize cfg) (se_sched env)) in
      let '(s, a) := poll_plain cfg env s in
      match doPoll (orInt (cfg_PollBufferSize cfg) DefaultPollBufferSize) (deliver_answer a f) p with
      | (p, Fail _) => (s, p, now, false)
      | (p, Ok _) =>
          let '(s, p, later, on) := poll_rounds cfg rounds s p in (s, p, now ++ later, on)
      end
  end.

(** One poll: what left the server's pipe is in the client's, or the poll
    failed. *)
Lemma poll_round cfg env f s p s' a :
  0 < cfg_PollBufferSize cfg -> no_rival (concat (se_sched env)) -> p_closed p = false ->
  poll_plain cfg env s = (s', a) ->
  exists d, p_buf (s_toClient s) ++ accepted (s_toClient s)
              (waited (s_toClient s) (cfg_PollBufferSize cfg) (se_sched env)) = d ++ p_buf (s_toClient s')
    /\ forall p' r, doPoll (cfg_PollBufferSize cfg) (deliver_answer a f) p = (p', r) ->
       match r with
       | Ok _ => p_buf p' = p_buf p ++ d /\ p_closed p' = false
       | Fail _ => p' = p
       end.
Proof.
  intros Hb Hn Hc E; unfold poll_plain in E.
  destruct (ReadAvailable (s_toClient s) (cfg_PollBufferSize cfg) (se_sched env)) as [[q r] rest] eqn:Er.
  pose proof (read_conserves _ _ _ _ _ _ Hn Er) as Hcv; pose proof (read_bounded _ _ _ _ _ _ Hb Er) as Hl.
  exists (outcome_data r); split; [rewrite Hcv; destruct r as [[|b d]|[]]; injection E as <- <-; reflexivity|].
  intros p' r' Ep.
  assert (Hempty : outcome_data r = [] -> match r' with Ok _ => p' = p | Fail _ => p' = p end ->
    match r' with Ok _ => p_buf p' = p_buf p ++ outcome_data r /\ p_closed p' = false | Fail _ => p' = p end).
  { intros -> Hr; destruct r'; [subst p'; rewrite app_nil_r; auto|exact Hr]. }
  destruct r as [[|b d]|err].
  - injection E as <- <-; apply Hempty; [reflexivity|].
    destruct f; cbn in Ep; injection Ep as <- <-; reflexivity.
  - injection E as <- <-; cbn [outcome_data] in *; set (data := b :: d) in *.
    assert (Hpos : 0 < len data) by (unfold data; len_lia).
    unfold doPoll in Ep; destruct f as [|n e|e]; cbn [deliver_answer r_bytes r_pieces r_end concat] in Ep;
      rewrite ?app_nil_r in Ep; [| |injection Ep as <- <-; reflexivity].
    + rewrite copied_all in Ep by exact Hl; rewrite bool_decide_true in Ep by reflexivity.
      rewrite andb_false_r, (proj2 (Z.eqb_neq _ _)) in Ep by lia.
      unfold pipe_Write in Ep; rewrite Hc in Ep; injection Ep as <- <-; auto.
    + set (bytes := take n data) in *.
      assert (He : bool_decide ((if bool_decide (e = EOF) then ErrUnexpectedEOF else e) = EOF) = false)
        by (destruct (bool_decide (e = EOF)) eqn:Ee; apply bool_decide_false;
            [discriminate|apply bool_decide_eq_false in Ee; exact Ee]).
      rewrite He, andb_true_r in Ep.
      destruct (Z.ltb_spec (len bytes) (cfg_PollBufferSize cfg)) as [Hs|Hs];
        [injection Ep as <- <-; reflexivity|].
      assert (Hd : bytes = data)
        by (unfold bytes in *; apply firstn_all2; unfold len in *; rewrite length_take in Hs; lia).
      rewrite Hd, copied_all, (proj2 (Z.eqb_neq _ _)) in Ep by lia.
      unfold pipe_Write in Ep; rewrite Hc in Ep; injection Ep as <- <-; auto.
  - destruct err; injection E as <- <-; apply Hempty; try reflexivity; destruct f; cbn in Ep;
      injection Ep as <- <-; reflexivity.
Qed.

Lemma poll_rounds_law cfg rounds : 0 < cfg_PollBufferSize cfg ->
  Forall (fun r => no_rival (concat (se_sched r.1))) rounds ->
  forall s p s' p' wr on, p_closed p = false -> poll_rounds cfg rounds s p = (s', p', wr, on) ->
  exists got rest, p_buf p' = p_buf p ++ got /\ p_buf (s_toClient s) ++ wr = got ++ rest
    /\ (on = true -> rest = p_buf (s_toClient s')).
Proof.
  intros Hb; induction rounds as [|[env f] rounds IH]; intros Hn s p s' p' wr on Hc E; cbn [poll_rounds] in E.
  - injection E as <- <- <- <-; exists [], (p_buf (s_toClient s)); rewrite !app_nil_r; auto.
  - apply Forall_cons in Hn as [Hn1 Hn].
    unfold orInt in E; rewrite (proj2 (Z.leb_gt _ _)) in E by lia.
    destruct (poll_plain cfg env s) as [s1 a] eqn:E1.
    destruct (poll_round cfg env f s p s1 a Hb Hn1 Hc E1) as (d & Hd & Hp).
    destruct (doPoll _ _ p) as [p1 [b|err]]; specialize (Hp _ _ eq_refl).
    + destruct Hp as [Hp1 Hc1]; destruct (poll_rounds cfg rounds s1 p1) as [[[s2 p2] later] on2] eqn:E2.
      injection E as -> -> <- ->; destruct (IH Hn s1 p1 s' p' later on Hc1 E2) as (got & rest & G1 & G2 & G3).
      exists (d ++ got), rest; split_and!; auto; [rewrite G1, Hp1, <- app_assoc; reflexivity|].
      rewrite app_assoc, Hd, <- !app_assoc, G2; reflexivity.
    + apply pair_eq in E as [E <-]; apply pair_eq in E as [E <-]; apply pair_eq in E as [<- <-].
      exists [], (d ++ p_buf (s_toClient s1)); rewrite Hp, app_nil_r; split_and!; auto; discriminate.
Qed.

(** ** The upload probe *)

Definition probeChunk : Z := Z.shiftl 32 10.

(** The filler; [fuel] bounds the number of chunks. *)
Fixpoint probe_filler (fuel : nat) (sent : Z) : list (frameType * list byte) :=
  match fuel with
  | O => []
  | S fuel =>
      if sent <? uploadProbeFillerBytes then
        let n := Z.min probeChunk (uploadProbeFillerBytes - sent) in
        (frameData, repeat Byte.x00 (Z.to_nat n)) :: probe_filler fuel (sent + n)
      else []
  end.

Definition probe_frames : list (frameType * list byte) := probe_filler 16 0 ++ [(frameEnd, [])].

(** What probeUploadStream makes of the answer. *)
Definition probe_result (reply : goerr + Z) : bool :=
  match reply with inl _ => false | inr status => status =? StatusOK end.

Lemma probe_filler_frames fuel : forall sent,
  Forall (fun f => f.1 = frameData /\ len f.2 <= probeChunk) (probe_filler fuel sent).
Proof.
  assert (Hp : 0 < probeChunk) by reflexivity.
  induction fuel as [|fuel IH]; intros sent; cbn [probe_filler]; [constructor|].
  destruct (Z.ltb_spec sent uploadProbeFillerBytes); [|constructor].
  constructor; [|apply IH]; split; [reflexivity|]; cbn [snd]; unfold len; rewrite repeat_length; lia.
Qed.

(** The whole filler is sent. *)
Lemma probe_filler_total fuel : forall sent, sent <= uploadProbeFillerBytes ->
  uploadProbeFillerBytes - sent <= probeChunk * Z.of_nat fuel ->
  len (frames_data (probe_filler fuel sent)) = uploadProbeFillerBytes - sent.
Proof.
  assert (Hp : 0 < probeChunk) by reflexivity.
  induction fuel as [|fuel IH]; intros sent Hs Hf; cbn [probe_filler];
    [unfold frames_data, len; cbn; lia|].
  destruct (Z.ltb_spec sent uploadProbeFillerBytes); [|unfold frames_data, len; cbn; lia].
  rewrite frames_data_cons, len_app, IH by lia.
  unfold frame_data, len; cbn [fst snd]; rewrite bool_decide_true by reflexivity.
  rewrite repeat_length; lia.
Qed.

Lemma probe_frames_ignored maxSend attached s fs : probeChunk <= maxSend ->
  Forall (fun f => f.1 = frameData /\ len f.2 <= probeChunk) fs ->
  forall fuel body, r_bytes body = encode_frames (fs ++ [(frameEnd, [])]) -> (length fs < fuel)%nat ->
  pollSendStream fuel maxSend true attached body s = Some (s, Some StatusOK).
Proof.
  intros Hm Hfs; unfold pollSendStream.
  replace (match s_rs s with Some _ => negb true | None => false end) with false by (destruct (s_rs s); reflexivity).
  cbn [andb]; assert (H32 : 0 < probeChunk < 2 ^ 32) by (split; reflexivity).
  induction Hfs as [|[typ d] fs [Ht Hl] _ IH]; intros fuel body Hb Hf;
    (destruct fuel as [|fuel]; [cbn in Hf; lia|]); cbn [pollSendStream_loop].
  - cbn [app] in Hb; rewrite encode_frames_one, <- (app_nil_r (encode_frame _ _)) in Hb.
    destruct (frame_next_encoded maxSend _ _ _ _ Hb) as (r & -> & _); [|reflexivity].
    apply Forall_singleton, closing_frame_ok; [lia|right; left; reflexivity].
  - cbn in Ht; subst typ; cbn [app] in Hb; rewrite encode_frames_cons in Hb.
    destruct (frame_next_encoded maxSend _ _ _ _ Hb) as (r & -> & Hr & _).
    { split; cbn [fst snd] in *; [lia|]; unfold frame_bound; rewrite !bool_decide_false by discriminate; lia. }
    unfold pollSendStream_frame; cbn [fst snd]; rewrite bool_decide_true, orb_true_r by reflexivity.
    apply IH; [exact Hr|cbn in Hf; lia].
Qed.

(** A send-only request to PollHandler, as [post] has it. *)
Lemma send_only_poll_appends cfg q env id w l s : store_Get id w = Some l -> w_heap w !! l = Some s ->
  s_closed s = false -> s_rs s = None -> pq_SendStream q = false -> pq_SendOnly q = true ->
  r_end (pq_body q) = EOF -> 0 < len (r_bytes (pq_body q)) <= cfg_MaxSendBytes cfg ->
  exists w' s', PollHandler cfg None id q env w = Some (w', PollHeader StatusOK)
    /\ w_heap w' !! l = Some s'
    /\ s_toServer s' = s_toServer (writeUpstream s (r_bytes (pq_body q))).1
    /\ s_toClient s' = s_toClient s.
Proof.
  intros Hget Hl Hc Hr Hss Hso He Hlen; rewrite PollHandler_eq; cbv zeta; rewrite Hget, Hl.
  unfold beginPoll, resumeExpiredLocked; rewrite Hc, Hr; cbn [orb].
  cbn [w_heap set_heap]; rewrite lookup_insert_eq.
  unfold poll_serve; rewrite Hss; cbn [s_rs touch set_life]; rewrite Hr; unfold ReadAll.
  rewrite (proj2 (Z.ltb_ge _ _)) by lia; rewrite bool_decide_true by exact He.
  rewrite (proj2 (Z.ltb_lt _ _)) by lia; rewrite Hso.
  eexists _, _; split; [reflexivity|]; unfold on_session; cbn [w_heap set_heap].
  rewrite lookup_alter_eq, lookup_insert_eq; split; [reflexivity|].
  unfold writeUpstream, endPoll, noteDetachedLocked; cbn.
  destruct (pipe_Write (s_toServer s) (r_bytes (pq_body q))) as [[p r] wk]; cbn; rewrite Hr; auto.
Qed.

(** ** Properties *)

(** C22: the plain upload is in order.  However Writes, flushers, the poll
    loop's problems, Close and the server's application interleave, as long as
    no send has failed: the server was given the accepted bytes in order,
    without gap or repetition, in bodies that are not empty and within the
    negotiated chunk; its application reads a prefix of them; and the bytes
    still to be sent are held by the one flusher that is running or wait in the
    buffer, where an active flusher takes them unless the connection was
    cancelled. *)
Theorem plain_upload_in_order max s :
  0 < max -> rtc hstep (new_hsys max) s ->
  Forall (fun c => 0 < len c <= max) (h_arrived s)
  /\ h_read s ++ p_buf (s_toServer (h_sess s)) `prefix_of` concat (h_arrived s)
  /\ (h_lost s = false -> exists o, shape (h_flushers s) o
      /\ h_written s = concat (h_arrived s) ++ held o ++ hc_writeBuf (h_conn s)
      /\ (hc_writeBuf (h_conn s) <> [] -> o <> None \/ cn_cancelled (hc_conn (h_conn s)) = true)).
Proof.
  intros Hm Hs; destruct (hsys_reachable max s Hm Hs) as [_ _ (o & Hsh & _ & Hord) Hch [Hsv _]].
  split_and!; auto; intros Hl; destruct (Hord Hl) as (H1 & _ & H3); exists o; split_and!; auto.
  destruct o; [left; discriminate|right; auto].
Qed.

(** The plain download is in order.  Polls run one after the other and the
    loop stops at the first that fails: whatever the application writes, and
    whichever answer is lost or cut off, the read pipe has gained a prefix of
    what was written, and nothing is missing as long as the loop goes on. *)
Theorem plain_download_in_order cfg rounds s p s' p' wr on :
  0 < cfg_PollBufferSize cfg -> Forall (fun r => no_rival (concat (se_sched r.1))) rounds ->
  p_closed p = false -> poll_rounds cfg rounds s p = (s', p', wr, on) ->
  exists got rest, p_buf p' = p_buf p ++ got /\ p_buf (s_toClient s) ++ wr = got ++ rest
    /\ (on = true -> rest = p_buf (s_toClient s')).
Proof. intros Hb Hn Hc; apply poll_rounds_law; auto. Qed.

(** The upload probe is harmless and conclusive.  It sends the whole filler
    and an end frame in chunks any server with max_send_bytes of at least
    32 KiB accepts; the server, resumable or not, answers 200 and leaves the
    session exactly as it was, however the body is cut into reads; and only
    that answer makes the client choose streamed uploads. *)
Theorem probe_is_harmless fuel maxSend attached body s :
  probeChunk <= maxSend -> (16 < fuel)%nat -> r_bytes body = encode_frames probe_frames ->
  len (frames_data probe_frames) = uploadProbeFillerBytes
  /\ pollSendStream fuel maxSend true attached body s = Some (s, Some StatusOK)
  /\ forall reply, probe_result reply = true <-> reply = inr StatusOK.
Proof.
  intros Hm Hf Hb; split_and!.
  - unfold probe_frames; rewrite frames_data_app, len_app, probe_filler_total by (vm_compute; discriminate).
    change (len (frames_data [(frameEnd, [])])) with 0; lia.
  - eapply probe_frames_ignored; [exact Hm|apply probe_filler_frames|exact Hb|].
    assert (Hl : forall k sent, (length (probe_filler k sent) <= k)%nat)
      by (induction k as [|k IH]; intros sent; cbn [probe_filler]; [cbn; lia|];
          destruct (_ <? _); cbn [length]; [specialize (IH (sent + Z.min probeChunk (uploadProbeFillerBytes - sent)))|]; lia).
    specialize (Hl 16%nat 0); lia.
  - intros [err|status]; cbn; split; intros E; try discriminate; [apply Z.eqb_eq in E|injection E as ->]; auto; congruence.
Qed.

(** C29: a failed send leaves a hole in the stream.  A send that fails drops the
    bytes the flusher had taken and clears the flight; Write goes on accepting
    until Close, and the next flusher posts the later bytes to the same
    session: there is a run in which the server's application reads bytes that
    are not a prefix of what was written, while the failure has been signalled. *)
Theorem failed_send_leaves_gap :
  exists s, rtc hstep (new_hsys 4) s /\ h_written s = [Byte.x41; Byte.x42] /\ h_read s = [Byte.x42]
    /\ cn_failed (hc_conn (h_conn s)) = true.
Proof.
  eexists; split.
  - eapply rtc_l; [eapply (hs_write _ [Byte.x41]); vm_compute; reflexivity|].
    eapply rtc_l; [eapply (hs_coalesced _ 0); reflexivity|].
    eapply rtc_l; [eapply (hs_take _ 0); [reflexivity|vm_compute; reflexivity]|].
    eapply rtc_l; [eapply (hs_failed _ 0 [Byte.x41] [Byte.x41] [] false "s1" (ErrNet false));
                   [reflexivity|discriminate|vm_compute; reflexivity]|].
    eapply rtc_l; [eapply (hs_clear _ 0); reflexivity|].
    eapply rtc_l; [eapply (hs_write _ [Byte.x42]); vm_compute; reflexivity|].
    eapply rtc_l; [eapply (hs_coalesced _ 1); reflexivity|].
    eapply rtc_l; [eapply (hs_take _ 1); [reflexivity|vm_compute; reflexivity]|].
    eapply rtc_l; [eapply (hs_sent _ 1 [Byte.x42] [Byte.x42] []);
                   [reflexivity|discriminate|vm_compute; reflexivity]|].
    eapply rtc_l; [eapply (hs_read_server _ 16); vm_compute; reflexivity|apply rtc_refl].
  - vm_compute; auto.
Qed.

(** ** Witnesses *)

(** Two bytes written, the first chunk sent. *)
Lemma ex_upload_run : exists s, rtc hstep (new_hsys 1) s
  /\ h_arrived s = [[Byte.x41]] /\ h_lost s = false /\ h_written s = [Byte.x41; Byte.x42].
Proof.
  eexists; split.
  - eapply rtc_l; [eapply (hs_write _ [Byte.x41; Byte.x42]); vm_compute; reflexivity|].
    eapply rtc_l; [eapply (hs_coalesced _ 0); reflexivity|].
    eapply rtc_l; [eapply (hs_take _ 0); [reflexivity|vm_compute; reflexivity]|].
    eapply rtc_l; [eapply (hs_sent _ 0 [Byte.x41; Byte.x42] [Byte.x41] [Byte.x42]);
                   [reflexivity|discriminate|vm_compute; reflexivity]|apply rtc_refl].
  - vm_compute; auto.
Defined.

Lemma plain_upload_in_order_witness :
  exists s, h_arrived s = [[Byte.x41]]
    /\ exists o, shape (h_flushers s) o
      /\ [Byte.x41; Byte.x42] = concat (h_arrived s) ++ held o ++ hc_writeBuf (h_conn s).
Proof.
  destruct ex_upload_run as (s & Hs & Ha & Hl & Hw); exists s; split; [exact Ha|].
  destruct (plain_upload_in_order 1 s eq_refl Hs) as (_ & _ & H); destruct (H Hl) as (o & H1 & H2 & _).
  rewrite Hw in H2; eauto.
Defined.

(** Two polls; the answer of the second is cut off. *)
Definition ex_rounds : list (serve_env * fate) :=
  [(mk_env 0 0 true None false false [] [] [], FateWhole);
   (mk_env 0 0 true None false false [[EvWrite [Byte.x42]]] [] [], FateCut 0 EOF)].

Lemma plain_download_in_order_witness :
  exists got rest, p_buf (poll_rounds ex_cfg1 ex_rounds (Session_Write ex_open [Byte.x41]).1 NewBufferedPipe).1.1.2
                   = [] ++ got
    /\ [Byte.x41] ++ [Byte.x42] = got ++ rest
    /\ (false = true -> rest = p_buf (s_toClient
           (poll_rounds ex_cfg1 ex_rounds (Session_Write ex_open [Byte.x41]).1 NewBufferedPipe).1.1.1)).
Proof.
  apply (plain_download_in_order ex_cfg1 ex_rounds (Session_Write ex_open [Byte.x41]).1 NewBufferedPipe).
  - vm_compute; reflexivity.
  - repeat constructor.
  - reflexivity.
  - vm_compute; reflexivity.
Defined.

Lemma probe_is_harmless_witness :
  pollSendStream 17 DefaultMaxSendBytes true false (mk_reader [encode_frames probe_frames] EOF) ex_sess
  = Some (ex_sess, Some StatusOK).
Proof.
  apply (probe_is_harmless 17 DefaultMaxSendBytes false (mk_reader [encode_frames probe_frames] EOF) ex_sess).
  - vm_compute; discriminate.
  - lia.
  - unfold r_bytes; cbn [r_pieces concat]; apply app_nil_r.
Defined.
