(* ===== verification/WebSocket.v ===== *)
(** * WebSocket.v: the WebSocket transport

    Models WebSocketHandler (src/websocket.go) with its two pumps over the world
    of Session.v, and the client's wsConn (onTransportProblem, fail, Write,
    Close).  The pumps' turns are those of Stream.v and Plain.v; here they are
    interleaved, with the first that ends deciding.  A product of the handler's
    phases with the attach protocol of Attach.v shows what the order of its
    deferred calls is for. *)

From S2P Require Import Prelude Frame Pipe Protocol Reliable Channel Attach Session.
From S2P Require Import Connect Resume Batch Reconnect Stream Plain Poll.

(** ** The pumps *)

Inductive pump_step : Type :=
| PumpRead (binary : bool) (msg : list byte)
| PumpReadErr (err : goerr)                     (* Read failed: peer, idle timeout, cancel *)
| PumpWrite (ctxDone : bool) (a : attachments) (sched : list (list pipe_event)).

(** One step of the pump that moves: the session, the socket, and the error it
    ends with. *)
Definition pump (bufsize : Z) (att : attachment) (step : pump_step) (s : session) (c : wsocket)
    : option (session * wsocket * option goerr) :=
  match step with
  | PumpReadErr err => Some (s, c, Some err)
  | PumpRead false _ => Some (s, c, None)
  | PumpRead true msg =>
      match wsDecode msg with
      | Fail err => Some (s, c, Some err)
      | Ok f =>
          match wsReadPump_frame f s with
          | None => None
          | Some (s, err) => Some (s, c, err)
          end
      end
  | PumpWrite ctxDone a sched =>
      let '(s, c, stands) :=
        match s_rs s with
        | Some rs =>
            let '(e, c, stands) :=
              wsWritePumpResumable_turn bufsize ctxDone a att sched (sess_ep s rs) c in
            (set_ep e s, c, stands)
        | None =>
            let '(p, c, stands) := wsWritePump_turn bufsize sched (s_toClient s) c in
            (set_pipes (s_toServer s) p s, c, stands)
        end in
      match stands with
      | Again => Some (s, c, None)
      | Leave err => Some (s, c, Some (default EOF err))
      | LoopPanic => None
      end
  end.

(** Both pumps, until the first ends. *)
Fixpoint pumps (bufsize : Z) (att : attachment) (steps : list pump_step) (s : session) (c : wsocket)
    : option (session * wsocket * option goerr) :=
  match steps with
  | [] => Some (s, c, None)
  | step :: steps =>
      match pump bufsize att step s c with
      | None => None
      | Some (s, c, Some err) => Some (s, c, Some err)
      | Some (s, c, None) => pumps bufsize att steps s c
      end
  end.

(** cancel and interruptOut. *)
Definition stop_pumps (s : session) : session :=
  match s_rs s with Some rs => set_ep (interruptOut (sess_ep s rs)) s | None => s end.

(** ** The handler *)

Record ws_env := mk_wsenv {
  we_now : Z;
  we_end : Z;
  we_attached : option attachment;   (* what attach gives; None: errStillAttached *)
  we_accepted : bool;                (* websocket.Accept succeeded *)
  we_current : bool;                 (* still current after Accept *)
  we_steps : list pump_step;
  we_last : option pump_step;        (* what the other pump still does *)
  we_plan : list (option goerr);     (* how the writes on the connection end *)
}.

Inductive ws_answer : Type :=
| WsError (status : Z)
| WsNotAccepted                      (* Accept wrote its own answer *)
| WsKicked                           (* replaced before Accept returned *)
| WsServed (c : wsocket) (first : option goerr).

(** The pumps: the first that ends decides; then the other is stopped. *)
Definition ws_pumps (cfg : ServerConfig) (env : ws_env) (att : attachment) (s : session)
    : option (session * ws_answer) :=
  match pumps (cfg_PollBufferSize cfg) att (we_steps env) s (mk_ws [] (we_plan env)) with
  | None => None
  | Some (s, c, first) =>
      let s := stop_pumps s in
      match we_last env with
      | None => Some (s, WsServed c first)
      | Some step =>
          (* the connection is closed: nothing can be written any more *)
          match pump (cfg_PollBufferSize cfg) att step s (mk_ws (ws_msgs c) [Some ErrCtx; Some ErrCtx]) with
          | None => None
          | Some (s, _, _) => Some (s, WsServed c first)
          end
      end
  end.

(** Between beginWebSocket and endWebSocket. *)
Definition ws_serve (cfg : ServerConfig) (env : ws_env) (att : attachment) (s : session)
    : option (session * ws_answer) :=
  if negb (we_accepted env) then Some (s, WsNotAccepted)
  else match s_rs s with
  | None => ws_pumps cfg env att s
  | Some rs =>
      if negb (we_current env) then Some (s, WsKicked)
      else ws_pumps cfg env att (set_rs (Some (resetAck rs)) s)
  end.

(** From beginWebSocket to the deferred endWebSocket. *)
Definition ws_enter (cfg : ServerConfig) (env : ws_env) (att : attachment) (s : session)
    : option (session * ws_answer) :=
  match beginWebSocket (we_now env) s with
  | (_, false) =>
      Some (s, WsError (if refusesAttach (we_now env) s then StatusGone else StatusConflict))
  | (s, true) =>
      match ws_serve cfg env att (touch (we_now env) s) with
      | None => None
      | Some (s, a) => Some (endWebSocket (we_end env) s, a)
      end
  end.

(** A resumable session is claimed first; the claim itself is in Attach.v. *)
Definition ws_request (cfg : ServerConfig) (env : ws_env) (s : session) : option (session * ws_answer) :=
  match s_rs s, s_att s with
  | None, _ => ws_enter cfg env 0%nat s
  | Some _, None => None
  | Some _, Some _ =>
      match we_attached env with
      | None => Some (s, WsError StatusServiceUnavailable)
      | Some att => ws_enter cfg env att s
      end
  end.

Definition WebSocketHandler (cfg : ServerConfig) (id : string) (env : ws_env) (w : world)
    : option (world * ws_answer) :=
  match store_Get id w with
  | None => Some (w, WsError StatusNotFound)
  | Some l =>
      match w_heap w !! l with
      | None => None
      | Some s =>
          if negb (bool_decide (s_transport s = TransportWebSocket))
          then Some (w, WsError StatusBadRequest)
          else match ws_request cfg env s with
               | None => None
               | Some (s, a) => Some (set_heap (<[l := s]> (w_heap w)) w, a)
               end
      end
  end.

(** ** wsConn *)

(** Both pipes are there from the start; unlike httpConn's, a superseded
    connection closes only its read pipe. *)
Definition ws_onTransportProblem (active : string) (c : conn_state) : conn_state :=
  match supersededByNewerConnect active c with
  | (c, true) => mk_conn (cn_sessionID c) (cn_failed c) (cn_superseded c) (cn_cancelled c)
                   (pipe_Close (cn_readPipe c)) (cn_writePipe c)
  | (c, false) => fail c
  end.

Definition ws_Write (closed : bool) (p : list byte) (c : conn_state) : conn_state * res Z :=
  if closed then (c, Fail ErrClosedPipe)
  else match cn_writePipe c with
       | None => (c, Fail ErrClosedPipe)
       | Some wp =>
           let '(wp, r, _) := pipe_Write wp p in
           (mk_conn (cn_sessionID c) (cn_failed c) (cn_superseded c) (cn_cancelled c) (cn_readPipe c) (Some wp), r)
       end.

(** [Close], with its wait for the loops, which the closed write pipe and the
    cancelled context end. *)
Definition ws_Close (closed : bool) (c : conn_state) : conn_state :=
  if closed then c
  else mk_conn (cn_sessionID c) (cn_failed c) (cn_superseded c) true (pipe_Close (cn_readPipe c))
         (option_map pipe_Close (cn_writePipe c)).

(** ** What the pumps do to the session *)

Definition step_volume (step : pump_step) : Z :=
  match step with
  | PumpRead _ msg => len msg
  | PumpReadErr _ => 0
  | PumpWrite _ _ sched => events_volume (concat sched)
  end.
Definition steps_volume (steps : list pump_step) : Z := foldr (fun st n => step_volume st + n) 0 steps.
Definition ws_volume (env : ws_env) : Z :=
  steps_volume (we_steps env) + match we_last env with Some st => step_volume st | None => 0 end.

Lemma step_volume_nonneg step : 0 <= step_volume step.
Proof. destruct step; cbn; try len_lia; apply events_volume_nonneg. Qed.

Lemma steps_volume_nonneg steps : 0 <= steps_volume steps.
Proof.
  induction steps as [|st steps IH]; [reflexivity|].
  change (0 <= step_volume st + steps_volume steps); pose proof (step_volume_nonneg st); lia.
Qed.

Lemma wsReadPump_frame_serves f : serves (len f.2) (wsReadPump_frame f).
Proof.
  destruct f as [typ payload]; intros V s Hs Hm; cbn [snd] in *; unfold wsReadPump_frame.
  pose proof (len_nonneg payload) as Hn.
  assert (Hid : forall a : option goerr, exists s' a', Some (s, a) = Some (s', a') /\ traffic (len payload) s s')
    by (intros a; do 2 eexists; split; [reflexivity|apply traffic_refl; lia]).
  destruct (s_rs s) as [r|] eqn:Hr; repeat case_bool_decide; try apply Hid.
  - eapply on_layer_serves; eauto; apply (silent_total _ (on_rl markBroken) _ OpMarkBroken); cbn; auto.
  - eapply on_layer_serves; eauto using recv_seq_total.
  - eapply on_layer_serves; eauto; eapply runs_total_more; [apply recv_ack_total|lia].
  - destruct (0 <? len payload); [|apply Hid].
    pose proof (traffic_upstream (len payload) s payload Hr) as Ht.
    destruct (writeUpstream s payload) as [s' [n|err]]; do 2 eexists; split; eauto.
Qed.

Lemma wsDecode_len msg f : wsDecode msg = Ok f -> len f.2 <= len msg.
Proof. destruct msg as [|typ p]; [discriminate|]; intros E; injection E as <-; cbn; len_lia. Qed.

Lemma pump_serves bufsize att step V s c : 0 < bufsize -> typed V s -> V + step_volume step < 2 ^ 63 ->
  exists s' c' err, pump bufsize att step s c = Some (s', c', err) /\ traffic (step_volume step) s s'.
Proof.
  intros Hb Hs Hm; pose proof (step_volume_nonneg step) as Hv.
  assert (Hid : forall err : option goerr, exists s' c' err', Some (s, c, err) = Some (s', c', err')
                  /\ traffic (step_volume step) s s')
    by (intros err; do 3 eexists; split; [reflexivity|apply traffic_refl, Hv]).
  destruct step as [binary msg|err|ctxDone a sched]; cbn [pump step_volume] in *; [|apply Hid|].
  - destruct binary; [|apply Hid]; destruct (wsDecode msg) as [f|err] eqn:Ed; [|apply Hid].
    apply wsDecode_len in Ed.
    destruct (wsReadPump_frame_serves f V s Hs ltac:(lia)) as (s' & err & -> & Ht).
    do 3 eexists; split; [reflexivity|eapply traffic_more; eauto].
  - destruct (s_rs s) as [r|] eqn:Hr.
    + unfold wsWritePumpResumable_turn; destruct Hs as [_ Hi]; rewrite Hr in Hi.
      edestruct (send_turn_total (W := wsocket)) as (e & c1 & st & E & Hst & Hl); [exact Hb|exact Hi|exact Hm|].
      rewrite E; pose proof (traffic_layer _ _ _ _ Hr Hl) as Ht.
      destruct st; [do 3 eexists; eauto..|congruence].
    + destruct (wsWritePump_turn bufsize sched (s_toClient s) c) as [[p c1] st] eqn:E.
      destruct (plain_turn_closed _ _ _ _ _ _ _ _ _ _ _ E) as [Hst Hp].
      assert (Ht : traffic (events_volume (concat sched)) s (set_pipes (s_toServer s) p s))
        by (apply traffic_plain; auto).
      destruct st; [do 3 eexists; eauto..|congruence].
Qed.

Lemma pumps_serve bufsize att steps : 0 < bufsize ->
  forall V s c, typed V s -> V + steps_volume steps < 2 ^ 63 ->
  exists s' c' err, pumps bufsize att steps s c = Some (s', c', err) /\ traffic (steps_volume steps) s s'.
Proof.
  intros Hb; induction steps as [|st steps IH]; intros V s c Hs Hm; cbn [pumps].
  { do 3 eexists; split; [reflexivity|apply traffic_refl; cbn; lia]. }
  change (steps_volume (st :: steps)) with (step_volume st + steps_volume steps) in *.
  pose proof (steps_volume_nonneg steps); pose proof (step_volume_nonneg st).
  assert (Hm1 : V + step_volume st < 2 ^ 63) by lia.
  destruct (pump_serves bufsize att st V s c Hb Hs Hm1) as (s1 & c1 & err & -> & Ht).
  destruct err as [err|].
  - do 3 eexists; split; [reflexivity|eapply traffic_more; [exact Ht|lia]].
  - destruct (IH (V + step_volume st) s1 c1 (traffic_typed _ _ _ _ Hs Hm1 Ht) ltac:(lia))
      as (s2 & c2 & err & E & Ht2).
    do 3 eexists; split; [exact E|eapply traffic_trans; eauto].
Qed.

Lemma stop_pumps_traffic s : traffic 0 s (stop_pumps s).
Proof.
  unfold stop_pumps; destruct (s_rs s) as [r|] eqn:Hr; [|apply traffic_refl; lia].
  eapply traffic_layer; [exact Hr|]; apply (layer_op _ _ OpInterrupt); cbn; auto; lia.
Qed.

Lemma typed_same V s s' : typed V s -> V < 2 ^ 63 -> traffic 0 s s' -> typed V s'.
Proof.
  intros Hs Hm Ht; pose proof (traffic_typed V 0 s s' Hs ltac:(lia) Ht) as H.
  rewrite Z.add_0_r in H; exact H.
Qed.

Lemma ws_pumps_serve cfg env att : 0 < cfg_PollBufferSize cfg -> serves (ws_volume env) (ws_pumps cfg env att).
Proof.
  intros Hb V s Hs Hm; unfold ws_pumps, ws_volume in *; pose proof (steps_volume_nonneg (we_steps env)).
  assert (Hlast : 0 <= match we_last env with Some st => step_volume st | None => 0 end)
    by (destruct (we_last env); [apply step_volume_nonneg|lia]).
  assert (Hm1 : V + steps_volume (we_steps env) < 2 ^ 63) by lia.
  destruct (pumps_serve _ att (we_steps env) Hb V s (mk_ws [] (we_plan env)) Hs Hm1) as (s1 & c & first & -> & Ht1).
  pose proof (traffic_trans _ _ _ _ _ Ht1 (stop_pumps_traffic s1)) as Ht2; rewrite Z.add_0_r in Ht2.
  pose proof (traffic_typed _ _ _ _ Hs Hm1 Ht2) as Hs2.
  destruct (we_last env) as [st|].
  - destruct (pump_serves _ att st _ (stop_pumps s1) (mk_ws (ws_msgs c) [Some ErrCtx; Some ErrCtx]) Hb Hs2
                ltac:(lia)) as (s3 & c3 & err & -> & Ht3).
    do 2 eexists; split; [reflexivity|exact (traffic_trans _ _ _ _ _ Ht2 Ht3)].
  - do 2 eexists; split; [reflexivity|rewrite Z.add_0_r; exact Ht2].
Qed.

Lemma ws_volume_nonneg env : 0 <= ws_volume env.
Proof.
  unfold ws_volume; pose proof (steps_volume_nonneg (we_steps env)).
  destruct (we_last env) as [st|]; [pose proof (step_volume_nonneg st)|]; lia.
Qed.

Lemma ws_serve_serves cfg env att : 0 < cfg_PollBufferSize cfg -> serves (ws_volume env) (ws_serve cfg env att).
Proof.
  intros Hb V s Hs Hm; unfold ws_serve; pose proof (ws_volume_nonneg env).
  assert (Hid : forall a : ws_answer, exists s' a', Some (s, a) = Some (s', a') /\ traffic (ws_volume env) s s')
    by (intros a; do 2 eexists; split; [reflexivity|apply traffic_refl; lia]).
  destruct (we_accepted env); cbn [negb]; [|apply Hid].
  destruct (s_rs s) as [r|] eqn:Hr; [|exact (ws_pumps_serve cfg env att Hb V s Hs Hm)].
  destruct (we_current env); cbn [negb]; [|apply Hid].
  assert (Ht : traffic 0 s (set_rs (Some (resetAck r)) s)).
  { refine (traffic_layer 0 s r (on_rl resetAck (sess_ep s r)) Hr _).
    apply (layer_op _ _ OpResetAck); cbn; auto; lia. }
  destruct (ws_pumps_serve cfg env att Hb V _ (typed_same _ _ _ Hs ltac:(lia) Ht) Hm) as (s' & a & -> & Ht').
  do 2 eexists; split; [reflexivity|exact (traffic_trans _ _ _ _ _ Ht Ht')].
Qed.

(** ** The handler as lock sections *)

Section Serving.
Context (cfg : ServerConfig) (env : ws_env) (w : world) (V : Z) (l : loc) (s : session) (att : attachment).
Context (Hl : w_heap w !! l = Some s) (Hb : 0 < cfg_PollBufferSize cfg) (Hs : typed V s)
        (Hm : V + ws_volume env < 2 ^ 63) (Hp : 0 <= s_pollInFlight s < 2 ^ 31 - 1)
        (Hopen : s_closed s || s_wsAttached s || resumeExpiredLocked (we_now env) s = false).

Lemma ws_begin_fields : let sb := touch (we_now env) (beginWebSocket (we_now env) s).1 in
  s_pollInFlight sb = s_pollInFlight s + 1 /\ s_lastActive sb = we_now env /\ s_wsAttached sb = true
  /\ s_rs sb = s_rs s /\ typed V sb.
Proof. unfold beginWebSocket; rewrite Hopen; cbn; rewrite i32_id by lia; auto. Qed.

Lemma ws_admitted : exists s1 a,
  ws_serve cfg env att (touch (we_now env) (beginWebSocket (we_now env) s).1) = Some (s1, a)
  /\ s_pollInFlight s1 = s_pollInFlight s + 1 /\ s_lastActive s1 = we_now env
  /\ (s_rs s1 = None <-> s_rs s = None) /\ typed (V + ws_volume env) s1
  /\ rtc wstep w (set_heap (<[l := endWebSocket (we_end env) s1]> (w_heap w)) w).
Proof.
  destruct ws_begin_fields as (H1 & H2 & H3 & H4 & H5).
  set (sb := touch (we_now env) (beginWebSocket (we_now env) s).1) in *.
  destruct (ws_serve_serves cfg env att Hb V sb H5 Hm) as (s1 & a & E & Ht).
  exists s1, a; pose proof (traffic_typed _ _ _ _ H5 Hm Ht) as Hty.
  pose proof (traffic_same_life _ _ _ Ht) as Hlife; pose proof Hlife as (_ & _ & Hpoll & _).
  destruct Ht as (up & down & rs & Es1 & _ & _ & Hrs).
  split_and!; auto; [congruence|rewrite Es1; exact H2| |].
  { rewrite Es1; cbn; rewrite H4 in Hrs.
    destruct (s_rs s); [destruct Hrs as (? & -> & _)|subst rs]; split; congruence. }
  set (put x := set_heap (<[l := x]> (w_heap w)) w).
  assert (Hput : forall x, w_heap (put x) !! l = Some x) by (intros x; apply lookup_insert_eq).
  assert (Hon : forall x f, on_session l f (put x) = put (f x)).
  { intros x f; unfold on_session, put; cbn; rewrite (alter_is_insert f l _ x) by apply lookup_insert_eq.
    rewrite insert_insert_eq; reflexivity. }
  assert (Hw0 : w = put s) by (unfold put; rewrite insert_id by exact Hl; destruct w; reflexivity).
  change (rtc wstep w (put (endWebSocket (we_end env) s1))); rewrite Hw0 at 1.
  eapply rtc_l; [eapply ws_session with (f := fun s => (beginWebSocket (we_now env) s).1); [apply Hput|eauto 10]|].
  rewrite Hon; eapply rtc_l; [eapply ws_session with (f := touch (we_now env)); [apply Hput|eauto 10]|].
  rewrite Hon; fold sb; eapply rtc_l; [eapply ws_session with (f := fun _ => s1); [apply Hput|left; exact Hlife]|].
  rewrite Hon; eapply rtc_l; [eapply ws_session with (f := endWebSocket (we_end env)); [apply Hput|]|].
  { right; right; exists (we_end env); right; right; right; split; [lia|auto]. }
  rewrite Hon; apply rtc_refl.
Qed.
End Serving.

(** Past beginWebSocket there is no 409. *)
Lemma ws_serve_answer cfg env att s s' a : ws_serve cfg env att s = Some (s', a) -> a <> WsError StatusConflict.
Proof. unfold ws_serve, ws_pumps; intros E; repeat case_match; simplify_eq; discriminate. Qed.

(** The whole of it, admitted or not. *)
Definition ws_outcome (env : ws_env) (V : Z) (l : loc) (s : session) (w : world) (s' : session)
    (a : ws_answer) : Prop :=
  rtc wstep w (set_heap (<[l := s']> (w_heap w)) w) /\ typed (V + ws_volume env) s'
  /\ s_pollInFlight s' = s_pollInFlight s /\ s_wsAttached s' = s_wsAttached s
  /\ (forall c first, a = WsServed c first -> s_lastActive s' = we_now env
      /\ (s_rs s <> None -> s_pollInFlight s = 0 -> s_detachedAt s' = we_end env)).

Lemma ws_refused env V l s w a : w_heap w !! l = Some s -> typed V s ->
  (forall c first, a <> WsServed c first) -> ws_outcome env V l s w s a.
Proof.
  intros Hl [Ha Hi] Hr; unfold ws_outcome; split_and!; auto.
  - rewrite insert_id by exact Hl; destruct w; apply rtc_refl.
  - split; [exact Ha|]; pose proof (ws_volume_nonneg env).
    destruct (s_rs s); [eapply ep_inv_weaken; [exact Hi|lia]|exact I].
  - intros c first E; destruct (Hr c first E).
Qed.

Lemma ws_enter_outcome cfg env w V l s att : w_heap w !! l = Some s -> 0 < cfg_PollBufferSize cfg -> typed V s ->
  V + ws_volume env < 2 ^ 63 -> 0 <= s_pollInFlight s < 2 ^ 31 - 1 ->
  exists s' a, ws_enter cfg env att s = Some (s', a) /\ ws_outcome env V l s w s' a.
Proof.
  intros Hl Hb Hs Hm Hp; unfold ws_enter.
  destruct (s_closed s || s_wsAttached s || resumeExpiredLocked (we_now env) s) eqn:Hopen.
  - unfold beginWebSocket; rewrite Hopen; do 2 eexists; split; [reflexivity|].
    apply ws_refused; auto; discriminate.
  - destruct (ws_admitted cfg env w V l s att Hl Hb Hs Hm Hp Hopen)
      as (s1 & a & E & H1 & H2 & H3 & H4 & H5).
    assert (Eb : beginWebSocket (we_now env) s = ((beginWebSocket (we_now env) s).1, true))
      by (unfold beginWebSocket; rewrite Hopen; reflexivity).
    rewrite Eb, E; do 2 eexists; split; [reflexivity|].
    apply orb_false_iff in Hopen as [Ho _]; apply orb_false_iff in Ho as [_ Hws].
    unfold ws_outcome, endWebSocket, noteDetachedLocked in *; cbn in *.
    rewrite H1, Z.add_simpl_r, i32_id in * by lia.
    destruct (s_rs s1) as [r|]; cbn in *.
    + destruct (s_pollInFlight s =? 0) eqn:H0; cbn; split_and!; auto.
      intros c first _; split; [exact H2|]; intros _ Hz; rewrite Hz in H0; discriminate.
    + split_and!; auto; intros c first _; split; [exact H2|]; intros Hr; tauto.
Qed.

(** ** The handler's order and the attach protocol *)

(** Where the handler of a goroutine whose attach returned stands: it has
    called beginWebSocket and will call endWebSocket, or it is past that and
    its deferred detach is next. *)
Inductive phase : Type := PhaseAttached | PhaseOver.

Record wsys := mk_wsys {
  wy_asys : asys;
  wy_sess : session;
  wy_phase : gmap nat phase;
}.

(** Goroutine [i] holds both directions. *)
Definition holds_both (s : asys) (i : nat) : Prop :=
  exists att got, as_threads s !! i = Some (TRunning att got) /\ attachDown ∈ got /\ attachUp ∈ got.

(** The deferred calls run in reverse: endWebSocket, then detach. *)
Inductive wystep (s : wsys) : wsys -> Prop :=
| wy_attach a : astep (wy_asys s) a ->
    (forall i, wy_phase s !! i = Some PhaseAttached -> as_threads a !! i = as_threads (wy_asys s) !! i) ->
    wystep s (mk_wsys a (wy_sess s) (wy_phase s))
| wy_begin i now u ok : holds_both (wy_asys s) i -> wy_phase s !! i = None ->
    beginWebSocket now (wy_sess s) = (u, ok) ->
    wystep s (mk_wsys (wy_asys s) u (<[i := if ok then PhaseAttached else PhaseOver]> (wy_phase s)))
| wy_end i now : wy_phase s !! i = Some PhaseAttached ->
    wystep s (mk_wsys (wy_asys s) (endWebSocket now (wy_sess s)) (<[i := PhaseOver]> (wy_phase s)))
| wy_other u : s_wsAttached u = s_wsAttached (wy_sess s) ->
    wystep s (mk_wsys (wy_asys s) u (wy_phase s)).

Definition new_wsys (u : session) : wsys := mk_wsys new_asys u ∅.

Record wyinv (s : wsys) : Prop := {
  wyi_asys : rtc astep new_asys (wy_asys s);
  wyi_held : forall i, wy_phase s !! i = Some PhaseAttached -> holds_both (wy_asys s) i;
  wyi_flag : s_wsAttached (wy_sess s) = true -> exists i, wy_phase s !! i = Some PhaseAttached;
}.

(** Two goroutines cannot both hold both directions. *)
Lemma holds_both_unique s i j : rtc astep new_asys s -> holds_both s i -> holds_both s j -> i = j.
Proof.
  intros Hs (att & got & Hi & Hd & _) (att' & got' & Hj & Hd' & _).
  destruct (asys_reachable_inv s Hs) as [[_ Hown Hcl _ _] _].
  assert (H1 : slot (as_att s) attachDown = Some att) by (apply Hown; [discriminate|eauto 6]).
  assert (H2 : slot (as_att s) attachDown = Some att')
    by (apply Hown; [discriminate|]; eexists j, _, got'; eauto).
  rewrite H1 in H2; injection H2 as <-.
  destruct (Hcl i _ att got Hi eq_refl) as (_ & _ & Hu); apply (Hu j _ got' Hj eq_refl).
Qed.

Lemma endWebSocket_flag now u : s_wsAttached (endWebSocket now u) = false.
Proof. unfold endWebSocket, noteDetachedLocked; cbn; destruct (s_rs u); [case_if|]; reflexivity. Qed.

Lemma wystep_inv s s' : wyinv s -> wystep s s' -> wyinv s'.
Proof.
  intros [Ha Hh Hf] Hs; destruct Hs as [a Hstep Hkeep|i now u ok Hi Hnone E|i now Hi|u Hu]; constructor; cbn; auto.
  - eapply rtc_r; eauto.
  - intros i Hi; destruct (Hh i Hi) as (att & got & Ht & Hd); exists att, got; rewrite (Hkeep i Hi); auto.
  - intros j Hj; apply lookup_insert_Some in Hj as [[<- _]|[_ Hj]]; auto.
  - intros Hw; destruct ok; [exists i; apply lookup_insert_eq|].
    assert (u = wy_sess s) as -> by (unfold beginWebSocket in E; case_match; simplify_eq; reflexivity).
    destruct (Hf Hw) as [j Hj]; exists j; rewrite lookup_insert_ne; [exact Hj|congruence].
  - intros j Hj; apply lookup_insert_Some in Hj as [[_ E]|[_ Hj]]; [discriminate|auto].
  - rewrite endWebSocket_flag; discriminate.
  - rewrite Hu; auto.
Qed.

(** ** Properties *)

(** C20: the WebSocket handler is total and balanced.  Whatever messages arrive
    and however the two pumps interleave, it does not panic; the session stays
    well-formed; the handler is a sequence of the lock sections of Session.v;
    when it returns, the session counts the attachments it counted before and
    its WebSocket slot is as before; and a served connection marked the session
    active and, as the last attachment of a resumable one, started its grace. *)
Theorem websocket_is_total_and_balanced cfg id env w V l s :
  store_Get id w = Some l -> w_heap w !! l = Some s -> 0 < cfg_PollBufferSize cfg -> typed V s ->
  V + ws_volume env < 2 ^ 63 -> 0 <= s_pollInFlight s < 2 ^ 31 - 1 ->
  exists w' a s', WebSocketHandler cfg id env w = Some (w', a) /\ rtc wstep w w'
    /\ w_heap w' !! l = Some s' /\ typed (V + ws_volume env) s'
    /\ s_pollInFlight s' = s_pollInFlight s /\ s_wsAttached s' = s_wsAttached s
    /\ (forall c first, a = WsServed c first -> s_lastActive s' = we_now env
        /\ (s_rs s <> None -> s_pollInFlight s = 0 -> s_detachedAt s' = we_end env)).
Proof.
  intros Hget Hl Hb Hs Hm Hp; pose proof (ws_volume_nonneg env) as Hv.
  unfold WebSocketHandler; rewrite Hget, Hl.
  assert (Hdone : forall s' a, ws_outcome env V l s w s' a ->
    exists w' a' s'', Some (set_heap (<[l := s']> (w_heap w)) w, a) = Some (w', a') /\ rtc wstep w w'
    /\ w_heap w' !! l = Some s'' /\ typed (V + ws_volume env) s''
    /\ s_pollInFlight s'' = s_pollInFlight s /\ s_wsAttached s'' = s_wsAttached s
    /\ (forall c first, a' = WsServed c first -> s_lastActive s'' = we_now env
        /\ (s_rs s <> None -> s_pollInFlight s = 0 -> s_detachedAt s'' = we_end env))).
  { intros s' a (H1 & H2); do 3 eexists; split; [reflexivity|]; split; [exact H1|].
    split; [apply lookup_insert_eq|exact H2]. }
  case_bool_decide; cbn [negb].
  - unfold ws_request; pose proof Hs as [Ha _].
    destruct (s_rs s) as [r|]; [destruct (Ha ltac:(eauto)) as [x ->]; destruct (we_attached env) as [att|]|].
    + destruct (ws_enter_outcome cfg env w V l s att Hl Hb Hs Hm Hp) as (s' & a & -> & Ho); apply Hdone, Ho.
    + apply Hdone, ws_refused; auto; discriminate.
    + destruct (ws_enter_outcome cfg env w V l s 0%nat Hl Hb Hs Hm Hp) as (s' & a & -> & Ho); apply Hdone, Ho.
  - destruct (Hdone s (WsError StatusBadRequest)) as (w' & a' & s'' & E & H'); [apply ws_refused; auto; discriminate|].
    injection E as <- <-; rewrite insert_id in H' by exact Hl.
    exists w, (WsError StatusBadRequest), s''; split; [reflexivity|]; destruct w; exact H'.
Qed.

(** C27: a new WebSocket displaces the old one, and is never told 409.  In every
    interleaving of the handlers of a resumable session with attaches,
    detaches and resumes, a handler whose claim succeeded finds the session's
    WebSocket slot free, because a handler frees it (endWebSocket) before it
    lets go of its claim (detach): beginWebSocket refuses it only when the
    session is closed or past its grace, which is answered 410. *)
Theorem resumable_websocket_is_never_409 u s i now cfg env att :
  s_wsAttached u = false -> rtc wystep (new_wsys u) s ->
  holds_both (wy_asys s) i -> wy_phase s !! i = None ->
  s_wsAttached (wy_sess s) = false
  /\ ((beginWebSocket now (wy_sess s)).2 = false -> refusesAttach now (wy_sess s) = true)
  /\ forall s' a, ws_enter cfg env att (wy_sess s) = Some (s', a) -> a <> WsError StatusConflict.
Proof.
  intros Hu Hs Hi Hn.
  assert (Hinv : wyinv s).
  { eapply (rtc_invariant wystep wyinv); [intros; eapply wystep_inv; eauto|exact Hs|].
    constructor; cbn; [apply rtc_refl|intros j Hj; rewrite lookup_empty in Hj; discriminate|congruence]. }
  destruct Hinv as [Ha Hh Hf].
  assert (Hfree : s_wsAttached (wy_sess s) = false).
  { destruct (s_wsAttached (wy_sess s)) eqn:Hw; [exfalso|reflexivity].
    destruct (Hf eq_refl) as [j Hj]; pose proof (holds_both_unique _ _ _ Ha Hi (Hh j Hj)); congruence. }
  assert (Hrefuse : forall now, (beginWebSocket now (wy_sess s)).2 = false -> refusesAttach now (wy_sess s) = true).
  { intros t; unfold beginWebSocket, refusesAttach; rewrite Hfree, orb_false_r.
    destruct (_ || _); [reflexivity|discriminate]. }
  split_and!; auto; intros s' a E; unfold ws_enter in E.
  pose proof (Hrefuse (we_now env)) as Hr.
  destruct (beginWebSocket (we_now env) (wy_sess s)) as [v [|]]; cbn in Hr.
  - destruct (ws_serve cfg env att _) as [[s1 a1]|] eqn:Es; [|discriminate]; injection E as <- <-.
    apply (ws_serve_answer _ _ _ _ _ _ Es).
  - rewrite (Hr eq_refl) in E; injection E as <- <-; discriminate.
Qed.

(** ** Witnesses *)

Definition ex_wscfg : ServerConfig := withDefaults (mk_ServerConfig 0 0 0 0 4 0 0 "" 0 0 true true 0 0 0).
Definition ex_wssess : session :=
  enableResume 16 (30 * Second) (set_mode PollModeBatch false false TransportWebSocket 0 0 (newSession "s1" ∅ 0)).

(** A numbered message, a text message, a turn of the writer, and the end. *)
Definition ex_wsenv : ws_env :=
  mk_wsenv 5 9 (Some 0%nat) true true
    [PumpRead true (wsEncodeSeq 0 [Byte.x41]); PumpRead false [Byte.x7f];
     PumpWrite false newAttachments [[EvWrite [Byte.x42]]]; PumpReadErr EOF]
    (Some (PumpWrite true newAttachments [])) [].

Lemma websocket_is_total_and_balanced_witness :
  exists w' a s', WebSocketHandler ex_wscfg "s1" ex_wsenv (store_add 0%nat ex_wssess new_world) = Some (w', a)
    /\ rtc wstep (store_add 0%nat ex_wssess new_world) w' /\ w_heap w' !! 0%nat = Some s'
    /\ typed (0 + ws_volume ex_wsenv) s' /\ s_pollInFlight s' = 0 /\ s_wsAttached s' = false
    /\ (forall c first, a = WsServed c first -> s_lastActive s' = 5
        /\ (s_rs ex_wssess <> None -> s_pollInFlight ex_wssess = 0 -> s_detachedAt s' = 9)).
Proof.
  apply (websocket_is_total_and_balanced ex_wscfg "s1" ex_wsenv (store_add 0%nat ex_wssess new_world) 0 0%nat ex_wssess).
  - reflexivity.
  - reflexivity.
  - vm_compute; reflexivity.
  - split; [intros _; cbn; eauto|]; exists [], []; split; [apply inv_new|vm_compute; split; discriminate].
  - vm_compute; reflexivity.
  - cbn; lia.
Defined.

Example ex_ws_served :
  option_map snd (WebSocketHandler ex_wscfg "s1" ex_wsenv (store_add 0%nat ex_wssess new_world))
  = Some (WsServed (mk_ws [wsEncode frameAck (encodeOffset 1); wsEncodeSeq 0 [Byte.x42]] []) (Some EOF)).
Proof. vm_compute; reflexivity. Qed.

(** The write of the data message fails: the writer is the pump that ends first. *)
Example ex_ws_write_fails :
  option_map snd (WebSocketHandler ex_wscfg "s1"
    (mk_wsenv 5 9 (Some 0%nat) true true (we_steps ex_wsenv) None [None; Some (ErrNet false)])
    (store_add 0%nat ex_wssess new_world))
  = Some (WsServed (mk_ws [wsEncode frameAck (encodeOffset 1)] []) (Some (ErrNet false))).
Proof. vm_compute; reflexivity. Qed.

(** One goroutine claims both directions. *)
Definition ex_claim (n : nat) : asys :=
  match n with
  | 0%nat => mk_asys (mk_attachments None None false ∅ ∅ 1%nat) [TAttach 0%nat [] [attachDown; attachUp]]
  | 1%nat => mk_asys (mk_attachments (Some 0%nat) None false ∅ ∅ 1%nat) [TAttach 0%nat [attachDown] [attachUp]]
  | _ => mk_asys (mk_attachments (Some 0%nat) (Some 0%nat) false ∅ ∅ 1%nat) [TRunning 0%nat [attachDown; attachUp]]
  end.

Lemma ex_claim_run : rtc wystep (new_wsys ex_wssess) (mk_wsys (ex_claim 2) ex_wssess ∅).
Proof.
  apply (rtc_l _ _ (mk_wsys (ex_claim 0) ex_wssess ∅)).
  { apply (wy_attach (new_wsys ex_wssess)); [apply (as_attach new_asys attachBoth); reflexivity|].
    intros i Hi; cbn in Hi; rewrite lookup_empty in Hi; discriminate. }
  apply (rtc_l _ _ (mk_wsys (ex_claim 1) ex_wssess ∅)).
  { apply (wy_attach (mk_wsys (ex_claim 0) ex_wssess ∅)).
    - apply (as_thread (ex_claim 0) 0%nat (TAttach 0%nat [] [attachDown; attachUp]) (as_att (ex_claim 1))
               (TAttach 0%nat [attachDown] [attachUp]));
        [reflexivity|apply (ts_claim _ 0%nat [] attachDown [attachUp]); reflexivity].
    - intros i Hi; cbn in Hi; rewrite lookup_empty in Hi; discriminate. }
  apply rtc_once; apply (wy_attach (mk_wsys (ex_claim 1) ex_wssess ∅)).
  - apply (as_thread (ex_claim 1) 0%nat (TAttach 0%nat [attachDown] [attachUp]) (as_att (ex_claim 2))
             (TRunning 0%nat [attachDown; attachUp]));
      [reflexivity|apply (ts_claim _ 0%nat [attachDown] attachUp []); reflexivity].
  - intros i Hi; cbn in Hi; rewrite lookup_empty in Hi; discriminate.
Defined.

Lemma resumable_websocket_is_never_409_witness :
  s_wsAttached ex_wssess = false
  /\ ((beginWebSocket 1 ex_wssess).2 = false -> refusesAttach 1 ex_wssess = true)
  /\ forall s' a, ws_enter ex_wscfg ex_wsenv 0%nat ex_wssess = Some (s', a) -> a <> WsError StatusConflict.
Proof.
  apply (resumable_websocket_is_never_409 ex_wssess (mk_wsys (ex_claim 2) ex_wssess ∅) 0%nat 1).
  - reflexivity.
  - exact ex_claim_run.
  - exists 0%nat, [attachDown; attachUp]; split; [reflexivity|]; rewrite !elem_of_cons; auto.
  - reflexivity.
Defined.
