(* ===== verification/Legs.v ===== *)
(** * Legs.v: a resumable connection of the client

    Models resumableConn (src/resumable_client.go) as a machine: the
    connection's state, the two legs runLegs starts (wsReadLoop and wsWriteLoop;
    downLoop or batchDownLoop; upLoop or batchUpLoop), and the supervisor that
    joins them, resumes and starts them again.  An event is one thing that
    happens: a call of the application, an answer, a frame or a failure that
    reaches a leg, a turn of a sending leg.  The legs' turns are those of
    Stream.v and Batch.v, the judgements those of Resume.v. *)

From S2P Require Import Prelude Frame Pipe Protocol Reliable Channel Attach Session.
From S2P Require Import Connect Resume Batch Reconnect Stream Plain Poll.

(** ** The connection *)

(** What connectResumable fixes for the life of the connection. *)
Record rconf := mk_rconf {
  rf_sessionID : string;
  rf_ws : bool;                  (* transport is TransportWebSocket *)
  rf_pollStream : bool;
  rf_uploadStream : bool;
  rf_maxSendChunk : Z;
  rf_pollInterval : Z;
  rf_maxFrame : Z;
  rf_resumeGrace : Z;
}.

Record rconn := mk_rc {
  rc_ep : endpoint;              (* rl with its two pipes *)
  rc_failed : bool;              (* transportFailed is closed *)
  rc_superseded : bool;          (* sessionSuperseded is closed *)
  rc_closed : bool;
  rc_cancelled : bool;           (* ctx *)
}.

Definition on_ep (f : endpoint -> endpoint) (c : rconn) : rconn :=
  mk_rc (f (rc_ep c)) (rc_failed c) (rc_superseded c) (rc_closed c) (rc_cancelled c).
Definition close_in (e : endpoint) : endpoint := mk_ep (ep_rl e) (ep_out e) (pipe_Close (ep_in e)).
Definition close_out (e : endpoint) : endpoint := mk_ep (ep_rl e) (pipe_Close (ep_out e)) (ep_in e).

(** [connectResumable]; [dialed] is whether dialWS succeeded. *)
Definition connectResumable (c : Connector) (cr : ConnectResponse) (dialed : bool) : res (rconf * rconn) :=
  let lim := cres_Limits cr in
  let ws := bool_decide (cres_Transport cr = TransportWebSocket) in
  let pollStream := bool_decide (cres_PollMode cr = PollModeStream) in
  let cf := mk_rconf (cres_SessionID cr) ws pollStream
              (bool_decide (cres_UploadStreamMode cr = PollModeStream))
              (Z.min (orInt (c_MaxSendChunk c) DefaultMaxSendChunk) (MaxSendBytes lim))
              (c_PollInterval c) (orInt (PollBufferBytes lim) DefaultPollBufferSize)
              (Limits_ResumeGrace lim) in
  let rl := new_endpoint (c_MaxReplayBytes c) in
  if ws then
    if dialed then Ok (cf, mk_rc rl false false false false) else Fail (ErrNet false)
  else Ok (cf, mk_rc (if pollStream then rl else on_rl disableEagerAck rl) false false false false).

(** [Read]; [None] is a call that blocks. *)
Definition rc_Read (c : rconn) (dst : Z) : option (rconn * res (list byte)) :=
  match pipe_Read (ep_in (rc_ep c)) dst with
  | None => None
  | Some (inp, r) => Some (on_ep (fun e => mk_ep (ep_rl e) (ep_out e) inp) c, r)
  end.

Definition rc_Write (c : rconn) (p : list byte) : rconn * res Z :=
  if rc_closed c then (c, Fail ErrClosedPipe)
  else if len p =? 0 then (c, Ok 0)
  else let '(out, r, _) := pipe_Write (ep_out (rc_ep c)) p in
       (on_ep (fun e => mk_ep (ep_rl e) out (ep_in e)) c, r).

(** [Close] up to its wait for the supervisor, and after it. *)
Definition rc_Close (c : rconn) : rconn :=
  if rc_closed c then c
  else mk_rc (interruptOut (close_out (rc_ep c))) (rc_failed c) (rc_superseded c) true true.
Definition rc_Close_waited (c : rconn) : rconn := on_ep close_in c.

(** [fail]: once. *)
Definition rc_fail (c : rconn) : rconn :=
  if rc_failed c then c
  else mk_rc (close_in (rc_ep c)) true (rc_superseded c) (rc_closed c) (rc_cancelled c).

Definition rc_onSessionClosed (id active : string) (c : rconn) : rconn :=
  if bool_decide (active = id) then rc_fail c
  else let c := if rc_superseded c then c
                else mk_rc (rc_ep c) (rc_failed c) true (rc_closed c) true in
       on_ep close_in c.

(** ** The legs *)

Inductive leg : Type :=
| LegOver (err : goerr)
| Opening (l : leg)                      (* about to call resetAck *)
| WsReading
| WsWriting (c : wsocket)
| DownPolling                            (* downLoop: a stream poll waits for its answer *)
| DownReading (body : reader)            (* doStreamPoll: between two frames *)
| DownBatch                              (* batchDownLoop: a poll is in flight *)
| UpFeeding (b : hbody) (answer : option (goerr + Z))   (* doSendStream, its feeder running *)
| UpWaiting (feedErr : option goerr)     (* doSendStream, its feeder done *)
| UpBatch                                (* batchUpLoop: before nextOut *)
| UpSending (off : Z) (data : list byte).   (* doBatchSend in flight *)

(** What a leg meets. *)
Inductive leg_input : Type :=
| InOpen
| InFail (err : goerr)                   (* a read of the WebSocket or of a body failed *)
| InMsg (binary : bool) (msg : list byte)
| InTurn (expired : bool) (plan : list (option (nat * goerr))) (sched : list (list pipe_event))
| InReply (rep : poll_reply)             (* the answer to a stream poll *)
| InFrame                                (* the next frame of its body *)
| InPolled (d : delivery) (slept : bool) (* the answer to a batch poll; [slept]: PollInterval passed *)
| InAnswer (a : goerr + Z)               (* the answer to a send-stream *)
| InSent (d : delivery).                 (* the answer to a batch send *)

Definition new_body : hbody := mk_hbody (mk_writer [] []) [].

(** [doSendStream]'s result, given the answer and the feeder's. *)
Definition doSendStream_result (a : goerr + Z) (feedErr : option goerr) : option goerr :=
  match a with
  | inl err => Some err
  | inr status => if status =? StatusOK then feedErr else Some (fatalPollError status)
  end.

(** [upLoop] after doSendStream, [downLoop] after doStreamPoll. *)
Definition upLoop_next (done : bool) (r : option goerr) : leg :=
  match r with
  | Some err => LegOver err
  | None => if done then LegOver ErrCtx else Opening (UpFeeding new_body None)
  end.

Definition downLoop_next (done : bool) (err : goerr) : leg :=
  if bool_decide (err = errStreamEnd) then if done then LegOver ErrCtx else DownPolling
  else LegOver err.

Definition acted (l : leg) (r : option (endpoint * option goerr)) : option (endpoint * leg) :=
  match r with
  | None => None
  | Some (e, Some err) => Some (e, LegOver err)
  | Some (e, None) => Some (e, l)
  end.

(** A step of a leg; [done] is whether its context is.  [None] is a panic; an
    input the leg is not waiting for changes nothing. *)
Definition leg_step (cf : rconf) (done : bool) (i : leg_input) (l : leg) (e : endpoint)
    : option (endpoint * leg) :=
  match l, i with
  | Opening l, InOpen => Some (on_rl resetAck e, l)
  | WsReading, InFail err => Some (e, LegOver err)
  | WsReading, InMsg false _ => Some (e, WsReading)
  | WsReading, InMsg true msg =>
      match wsDecode msg with
      | Fail err => Some (e, LegOver err)
      | Ok f => acted WsReading (wsReadLoop_frame f e)
      end
  | WsWriting c, InTurn _ plan sched =>
      match wsWriteLoop_turn (rf_maxFrame cf) done sched e (mk_ws (ws_msgs c) (map (option_map snd) plan)) with
      | (e, c, Again) => Some (e, WsWriting c)
      | (e, _, Leave err) => Some (e, LegOver (default EOF err))
      | (_, _, LoopPanic) => None
      end
  | DownPolling, InReply rep =>
      match rep with
      | PollNone err => Some (e, downLoop_next done err)
      | PollStatus status => Some (e, downLoop_next done (fatalPollError status))
      | PollBody body => Some (e, DownReading body)
      end
  | DownReading _, InFail err =>
      Some (e, downLoop_next done (if bool_decide (err = EOF) then errStreamEnd else err))
  | DownReading body, InFrame =>
      match frame_next (rf_maxFrame cf) body with
      | (Fail EOF, _) => Some (e, downLoop_next done errStreamEnd)
      | (Fail err, _) => Some (e, downLoop_next done err)
      | (Ok f, body) =>
          match doStreamPoll_frame f e with
          | None => None
          | Some (e, Some err) => Some (e, downLoop_next done err)
          | Some (e, None) => Some (e, DownReading body)
          end
      end
  | DownBatch, InPolled d slept =>
      match doBatchPoll (rf_maxFrame cf) e d with
      | None => None
      | Some (e, Fail err) => Some (e, LegOver err)
      | Some (e, Ok got) =>
          if negb got && (0 <? rf_pollInterval cf) && negb slept then Some (e, LegOver ErrCtx)
          else if done then Some (e, LegOver ErrCtx) else Some (e, DownBatch)
      end
  | UpFeeding b answer, InTurn expired plan sched =>
      match feedSendStream_turn (rf_maxFrame cf) done expired sched e
              (mk_hbody (mk_writer (w_out (hb_writer b)) plan) (hb_frames b)) with
      | (e, b, Again) => Some (e, UpFeeding b answer)
      | (e, _, Leave feedErr) =>
          Some (e, match answer with
                   | Some a => upLoop_next done (doSendStream_result a feedErr)
                   | None => UpWaiting feedErr
                   end)
      | (_, _, LoopPanic) => None
      end
  | UpFeeding b answer, InAnswer a => Some (e, UpFeeding b (Some (default a answer)))
  | UpWaiting feedErr, InAnswer a => Some (e, upLoop_next done (doSendStream_result a feedErr))
  | UpBatch, InTurn _ _ sched =>
      match batchUpLoop_turn (rf_pollStream cf) done (rf_maxSendChunk cf) sched e with
      | UpPanic => None
      | UpStop e err => Some (e, LegOver err)
      | UpIdle e => Some (e, UpBatch)
      | UpSend e off data => Some (e, UpSending off data)
      end
  | UpSending _ _, InSent d => acted UpBatch (doBatchSend e d)
  | _, _ => Some (e, l)
  end.

(** The legs runLegs starts. *)
Definition start_legs (cf : rconf) : leg * leg :=
  if rf_ws cf then (WsReading, Opening (WsWriting (mk_ws [] [])))
  else (if rf_pollStream cf then DownPolling else DownBatch,
        Opening (if rf_uploadStream cf then UpFeeding new_body None else UpBatch)).

(** ** The supervisor *)

Inductive sup : Type :=
| SupLegs (before : Z * Z) (first : option goerr) (down up : leg)
    (* runLegs; [first] is the error of the leg that ended_with first *)
| SupResume (before : Z * Z) (duration deadline backoff : Z)
| SupOver (why : supervisor).

Record client := mk_client {
  cl_conn : rconn;
  cl_guard : resumeStabilityGuard;
  cl_sup : sup;
}.

Definition set_sup (st : sup) (x : client) : client := mk_client (cl_conn x) (cl_guard x) st.
Definition on_rc (f : rconn -> rconn) (x : client) : client :=
  mk_client (f (cl_conn x)) (cl_guard x) (cl_sup x).

(** ctx.Err() != nil || closed *)
Definition rc_done (c : rconn) : bool := rc_cancelled c || rc_closed c.

Inductive cl_event : Type :=
| AppWrite (d : list byte)
| AppRead (dst : Z)
| AppClose
| AppClosed                                  (* Close goes on: the supervisor has returned *)
| LegIn (up : bool) (i : leg_input)
| Joined (duration start : Z) (active : string)   (* runLegs returns *)
| Attempt (a : attempt) (active : string).   (* one attempt of resume *)

(** A leg moves; the first to end cancels the other and wakes the sender. *)
Definition legs_step (cf : rconf) (up : bool) (i : leg_input) (before : Z * Z) (first : option goerr)
    (d u : leg) (x : client) : option client :=
  let c := cl_conn x in
  let done := rc_cancelled c || bool_decide (is_Some first) in
  match leg_step cf done i (if up then u else d) (rc_ep c) with
  | None => None
  | Some (e, l) =>
      let '(first, e) := match first, l with
                         | None, LegOver err => (Some err, interruptOut e)
                         | _, _ => (first, e)
                         end in
      Some (mk_client (on_ep (fun _ => e) c) (cl_guard x)
              (if up then SupLegs before first d l else SupLegs before first l u))
  end.

(** [supervise] after runLegs. *)
Definition sup_joined (cf : rconf) (before : Z * Z) (err : goerr) (duration start : Z) (active : string)
    (x : client) : client :=
  let c := cl_conn x in
  let r := ep_rl (rc_ep c) in
  if rc_done c then set_sup (SupOver Stopped) x
  else if isSessionClosedErr err
  then set_sup (SupOver SessionEnded) (on_rc (rc_onSessionClosed (rf_sessionID cf) active) x)
  else if bool_decide (err = errReplayGap) || bool_decide (err = errBadAck) || isBroken r
  then set_sup (SupOver GaveUp) (on_rc rc_fail x)
  else
    let '(g, abandon) := recordBodyTimeout (cl_guard x) (bool_decide (err = errBatchBodyTimeout))
                           (negb (recvOffsetNow r =? before.2)) in
    let x := mk_client c g (cl_sup x) in
    if abandon then set_sup (SupOver GaveUp) (on_rc rc_fail x)
    else set_sup (SupResume before duration (start + rf_resumeGrace cf) (250 * Millisecond)) x.

(** [supervise] after an attempt to resume. *)
Definition sup_attempt (cf : rconf) (before : Z * Z) (duration deadline backoff : Z) (a : attempt)
    (active : string) (x : client) : option client :=
  let c := cl_conn x in
  let with_r (r : reliable) (x : client) := on_rc (on_ep (on_rl (fun _ => r))) x in
  match (resume_loop (rf_ws cf) deadline backoff (ep_rl (rc_ep c)) [a]).2 with
  | ResumePanic => None
  | ResumeTrying r backoff => Some (set_sup (SupResume before duration deadline backoff) (with_r r x))
  | ResumeErr r err =>
      let x := with_r r x in
      Some (if rc_done c then set_sup (SupOver Stopped) x
            else if isSessionClosedErr err
            then set_sup (SupOver SessionEnded) (on_rc (rc_onSessionClosed (rf_sessionID cf) active) x)
            else set_sup (SupOver GaveUp) (on_rc rc_fail x))
  | ResumeOK r =>
      let x := with_r r x in
      let '(g, abandon) := guard_record (cl_guard x) duration (negb (bool_decide (progress r = before))) in
      let x := mk_client (cl_conn x) g (cl_sup x) in
      Some (if abandon then set_sup (SupOver GaveUp) (on_rc rc_fail x)
            else let '(d, u) := start_legs cf in set_sup (SupLegs (progress r) None d u) x)
  end.

(** An event; one that cannot happen in the state changes nothing. *)
Definition cl_step (cf : rconf) (ev : cl_event) (x : client) : option client :=
  match ev with
  | AppWrite d => Some (on_rc (fun c => (rc_Write c d).1) x)
  | AppRead dst => Some (on_rc (fun c => match rc_Read c dst with Some (c, _) => c | None => c end) x)
  | AppClose => Some (on_rc rc_Close x)
  | AppClosed =>
      Some (match cl_sup x with
            | SupOver _ => if rc_closed (cl_conn x) then on_rc rc_Close_waited x else x
            | _ => x
            end)
  | LegIn up i =>
      match cl_sup x with
      | SupLegs before first d u => legs_step cf up i before first d u x
      | _ => Some x
      end
  | Joined duration start active =>
      Some (match cl_sup x with
            | SupLegs before (Some err) (LegOver _) (LegOver _) =>
                sup_joined cf before err duration start active x
            | _ => x
            end)
  | Attempt a active =>
      match cl_sup x with
      | SupResume before duration deadline backoff =>
          sup_attempt cf before duration deadline backoff a active x
      | _ => Some x
      end
  end.

Fixpoint cl_run (cf : rconf) (evs : list cl_event) (x : client) : option client :=
  match evs with
  | [] => Some x
  | ev :: evs => match cl_step cf ev x with Some x => cl_run cf evs x | None => None end
  end.

Definition new_client (cf : rconf) (c : rconn) : client :=
  let '(d, u) := start_legs cf in
  mk_client c (mk_guard 0 0) (SupLegs (progress (ep_rl (rc_ep c))) None d u).

(** ** What a leg does to the layer and its pipes *)

(** While a sender waits, the application writes and others interrupt; Close is
    an event of its own. *)
Definition calm_event (ev : pipe_event) : bool :=
  match ev with EvClose | EvRead _ => false | _ => true end.
Definition calm (sched : list (list pipe_event)) : Prop := forallb calm_event (concat sched) = true.

Definition keeps (e e' : endpoint) : Prop :=
  p_closed (ep_in e') = p_closed (ep_in e) /\ p_closed (ep_out e') = p_closed (ep_out e).

(** The same, and no interrupt of the sender is lost. *)
Definition keeps_out (e e' : endpoint) : Prop :=
  keeps e e' /\ (p_intr (ep_out e) = true -> p_intr (ep_out e') = true).

Lemma calm_events_closed evs : forall p, forallb calm_event evs = true ->
  p_closed (run_events p evs) = p_closed p.
Proof.
  induction evs as [|ev evs IH]; intros p H; [reflexivity|]; cbn in H; apply andb_true_iff in H as [He H].
  rewrite run_events_cons, IH by exact H.
  destruct ev; try discriminate; cbn; auto; unfold pipe_Write; destruct (p_closed p) eqn:Hc; auto.
Qed.

Lemma nextOut_keeps e blen sched e' r rest : calm sched -> nextOut e blen sched = Some (e', r, rest) ->
  ep_in e' = ep_in e /\ p_closed (ep_out e') = p_closed (ep_out e).
Proof.
  intros Hc E; unfold nextOut in E; destruct (has_pending (ep_rl e)).
  { destruct (pending_out (ep_rl e) blen) as [[[r1 off] chunk]|]; simplify_eq; auto. }
  destruct (ReadAvailable_unfolds (ep_out e) blen sched) as (used & p1 & Hs & Hp & Hr).
  assert (Hk : p_closed (ReadAvailable (ep_out e) blen sched).1.1 = p_closed (ep_out e)).
  { unfold calm in Hc; rewrite Hs, concat_app, forallb_app in Hc; apply andb_true_iff in Hc as [Hc _].
    rewrite <- (calm_events_closed _ (ep_out e) Hc), <- Hp.
    destruct Hr as [[-> _]|[[-> _]|[[-> _]| ->]]]; reflexivity. }
  destruct (ReadAvailable (ep_out e) blen sched) as [[out [[|b d]|err]] rest']; cbn in Hk; simplify_eq; auto.
  destruct (number_out (ep_rl e) (b :: d)); simplify_eq; auto.
Qed.

(** With an interrupt pending a sender does not wait: it has bytes to replay,
    or it returns at once. *)
Lemma nextOut_interrupted e blen sched e' r rest :
  p_intr (ep_out e) = true -> nextOut e blen sched = Some (e', r, rest) ->
  rest = sched /\ (r = Fail errPipeInterrupted
                   \/ (exists off d, r = Ok (off, d)) /\ p_intr (ep_out e') = true).
Proof.
  intros Hi E; unfold nextOut in E; destruct (has_pending (ep_rl e)).
  - destruct (pending_out (ep_rl e) blen) as [[[r1 off] chunk]|]; simplify_eq; eauto 6.
  - unfold ReadAvailable in E; rewrite Hi in E; simplify_eq; auto.
Qed.

Section Turn.
Context {W : Type} {sink : FrameSink W}.

Lemma emit_pipes e (w : W) off data intr e' w' err :
  emit e w off data intr = (e', w', err) -> ep_in e' = ep_in e /\ ep_out e' = ep_out e.
Proof.
  unfold emit; destruct (takeAck (ep_rl e)) as [rl due].
  destruct (match due with Some ack => _ | None => _ end) as [w1 [err1|]]; [intros E; simplify_eq; auto|].
  destruct (if negb (len data =? 0) then _ else _) as [w2 err2]; intros E; simplify_eq; auto.
Qed.

Lemma send_turn_pipes onEOF eofErr intr final expired blen sched e (w : W) e' w' st :
  send_turn onEOF eofErr intr final expired blen sched e w = (e', w', st) -> st <> LoopPanic ->
  exists e1 r rest, nextOut e blen sched = Some (e1, r, rest)
    /\ ep_in e' = ep_in e1 /\ ep_out e' = ep_out e1
    /\ (r = Fail errPipeInterrupted -> forall err, intr = Some err -> st = Leave err).
Proof.
  unfold send_turn; intros E Hst.
  destruct (nextOut e blen sched) as [[[e1 r] rest]|]; [|simplify_eq].
  exists e1, r, rest; split; [reflexivity|].
  assert (Hgo : forall off data b,
    (let '(e, w, err) := emit e1 w off data b in
     match err with
     | Some err => (e, w, Leave (Some err))
     | None => if expired then (e, match final with Some typ => (sink_frame w typ []).1 | None => w end,
                                Leave None) else (e, w, Again)
     end) = (e', w', st) -> ep_in e' = ep_in e1 /\ ep_out e' = ep_out e1).
  { intros off data b Ee; destruct (emit e1 w off data b) as [[e2 w2] err] eqn:Em.
    apply emit_pipes in Em as [Hi Ho]; destruct err as [err|]; [|destruct expired]; simplify_eq; auto. }
  destruct r as [[off d]|err]; [split_and!; try eapply Hgo; eauto; discriminate|].
  destruct err; try (split_and!; try eapply Hgo; eauto; discriminate); [simplify_eq; split_and!; auto; discriminate|].
  destruct intr as [o|]; [simplify_eq; split_and!; auto; congruence|].
  split_and!; try eapply Hgo; eauto; discriminate.
Qed.

(** After an interrupt, with its context done, a turn that could not write ends. *)
Lemma send_turn_stops onEOF eofErr err final expired blen sched e (w : W) e' w' st :
  (forall typ p w' o, sink_frame w typ p = (w', o) -> o <> None) ->
  (forall off p w' o, sink_seq w off p = (w', o) -> o <> None) ->
  p_intr (ep_out e) = true ->
  send_turn onEOF eofErr (Some err) final expired blen sched e w = (e', w', st) -> st <> LoopPanic ->
  exists err', st = Leave err'.
Proof.
  intros Hf Hs Hi E Hst; unfold send_turn in E.
  destruct (nextOut e blen sched) as [[[e1 r] rest]|] eqn:En; [|simplify_eq].
  destruct (nextOut_interrupted _ _ _ _ _ _ Hi En) as [_ [-> |[(off & d & ->) _]]]; [simplify_eq; eauto|].
  unfold emit in E; destruct (takeAck (ep_rl e1)) as [rl due].
  destruct due as [ack|].
  - destruct (sink_frame w frameAck (encodeOffset ack)) as [w1 [o|]] eqn:Ew; [simplify_eq; eauto|].
    destruct (Hf _ _ _ _ Ew eq_refl).
  - destruct (negb (len d =? 0)).
    + destruct (sink_seq w off d) as [w1 [o|]] eqn:Ew; [simplify_eq; eauto|destruct (Hs _ _ _ _ Ew eq_refl)].
    + cbn [negb] in E; destruct (sink_frame w frameHeartbeat []) as [w1 [o|]] eqn:Ew;
        [simplify_eq; eauto|destruct (Hf _ _ _ _ Ew eq_refl)].
Qed.
End Turn.

Lemma recvIn_pipes e off p e' err : recvIn e off p = Some (e', err) -> keeps_out e e'.
Proof.
  unfold recvIn, keeps_out, keeps; intros E; repeat case_match; simplify_eq; cbn; auto.
  all: unfold pipe_Write in *; repeat case_match; simplify_eq; cbn; auto.
Qed.

Lemma keeps_out_refl e : keeps_out e e.
Proof. split; [split|]; auto. Qed.

Lemma keeps_out_rl e r : keeps_out e (on_rl r e).
Proof. split; [split|]; auto. Qed.

Lemma keeps_out_keeps e e' : keeps_out e e' -> keeps e e'.
Proof. intros [H _]; exact H. Qed.

Lemma keeps_trans e e1 e2 : keeps e e1 -> keeps e1 e2 -> keeps e e2.
Proof. intros [H1 H2] [H3 H4]; split; congruence. Qed.

Lemma keeps_out_trans e e1 e2 : keeps_out e e1 -> keeps_out e1 e2 -> keeps_out e e2.
Proof. intros [H1 H2] [H3 H4]; split; eauto using keeps_trans. Qed.

#[local] Hint Resolve keeps_out_refl keeps_out_rl keeps_out_keeps recvIn_pipes : core.

(** An action of a receiving leg: it cannot panic, it runs operations of the
    layer, and it leaves the pipes open. *)
Definition receives {A} (v : Z) (act : endpoint -> option (endpoint * A)) : Prop :=
  forall V e, ep_inv V e -> V + v < 2 ^ 63 ->
  exists e' a, act e = Some (e', a) /\ layer_runs v e e' /\ keeps_out e e'.

Lemma receives_total {A} v (act : endpoint -> option (endpoint * A)) :
  runs_total v act -> (forall e e' a, act e = Some (e', a) -> keeps_out e e') -> receives v act.
Proof. intros Ht Hk V e Hi Hm; destruct (Ht V e Hi Hm) as (e' & a & E & Hr); eauto 6. Qed.

Lemma receives_id {A} v (a : A) : 0 <= v -> receives v (fun e => Some (e, a)).
Proof. intros Hv; apply receives_total; [apply id_total, Hv|intros; simplify_eq; auto]. Qed.

Lemma receives_recv off p : 0 <= off -> receives (len p) (fun e => recvIn e off p).
Proof. intros Ho; apply receives_total; [apply recvIn_total, Ho|eauto]. Qed.

Lemma receives_ack n : 0 <= n ->
  receives 0 (fun e => match rel_ack (ep_rl e) n with
                       | None => None
                       | Some (rl, err) => Some (on_rl (fun _ => rl) e, err)
                       end).
Proof.
  intros Hn; apply receives_total; [apply ack_total, Hn|].
  intros e e' a E; destruct (rel_ack (ep_rl e) n) as [[r err]|]; simplify_eq; auto.
Qed.

Lemma recv_seq_receives payload : receives (len payload) (recv_seq payload).
Proof.
  apply receives_total; [apply recv_seq_total|]; unfold recv_seq; intros e e' a E.
  destruct (splitSeq payload) as [[off d]|]; [eauto|simplify_eq; auto].
Qed.

Lemma recv_ack_receives payload : receives 0 (recv_ack payload).
Proof.
  apply receives_total; [apply recv_ack_total|]; unfold recv_ack; intros e e' a E.
  destruct (decodeAck payload); [|simplify_eq; auto]; destruct (rel_ack (ep_rl e) a0) as [[r err]|]; simplify_eq; auto.
Qed.

Lemma receives_more {A} v v' (act : endpoint -> option (endpoint * A)) :
  receives v act -> v <= v' -> receives v' act.
Proof.
  intros H Hv V e Hi Hm; destruct (H V e Hi ltac:(lia)) as (e' & a & E & Hr & Hk).
  exists e', a; split_and!; eauto using layer_more.
Qed.

Lemma doStreamPoll_frame_receives f : receives (len f.2) (doStreamPoll_frame f).
Proof.
  destruct f as [typ payload]; pose proof (len_nonneg payload); unfold doStreamPoll_frame; cbn [snd].
  repeat case_bool_decide; [apply recv_seq_receives|eapply receives_more; [apply recv_ack_receives|lia]|..];
    apply receives_id; lia.
Qed.

Lemma wsReadLoop_frame_receives f : receives (len f.2) (wsReadLoop_frame f).
Proof.
  destruct f as [typ payload]; pose proof (len_nonneg payload); unfold wsReadLoop_frame; cbn [snd].
  repeat case_bool_decide; [apply recv_seq_receives|eapply receives_more; [apply recv_ack_receives|lia]|..];
    apply receives_id; lia.
Qed.

Definition delivery_volume (d : delivery) : Z := match d with Delivered r => len (br_body r) | _ => 0 end.

Lemma doBatchPoll_receives maxFrame d : receives (delivery_volume d) (fun e => doBatchPoll maxFrame e d).
Proof.
  assert (Hid : forall v (r : res bool), 0 <= v -> receives v (fun e => Some (e, r)))
    by (intros; apply receives_id; auto).
  destruct d as [|status timeout|r]; unfold doBatchPoll; cbn [delivery_volume].
  - apply Hid; lia.
  - case_if; apply Hid; lia.
  - pose proof (len_nonneg (br_body r)); do 3 (case_if; [apply Hid; lia|]).
    destruct (batchOffset (br_recvOffset r)) as [ack|] eqn:Ea; [|apply Hid; lia].
    apply batchOffset_nonneg in Ea.
    assert (Hfin : forall (b : bool), receives 0 (fun e => match rel_ack (ep_rl e) ack with
      | None => None
      | Some (rl, Some err) => Some (on_rl (fun _ => rl) e, Fail err)
      | Some (rl, None) => Some (on_rl (fun _ => rl) e, Ok b)
      end)).
    { intros b V e Hi Hm; destruct (receives_ack ack Ea V e Hi Hm) as (e' & err & E & Hr & Hk).
      destruct (rel_ack (ep_rl e) ack) as [[rl [err'|]]|]; simplify_eq; eauto 6. }
    case_if; [|eapply receives_more; [apply Hfin|lia]].
    destruct (batchOffset (br_sendOffset r)) as [off|] eqn:Eo; [|apply Hid; lia].
    apply batchOffset_nonneg in Eo; intros V e Hi Hm.
    destruct (receives_recv off (br_body r) Eo V e Hi Hm) as (e1 & err & E1 & Hr1 & Hk1); rewrite E1.
    destruct err as [err|]; [eauto 6|].
    destruct (Hfin (0 <? len (br_body r)) (V + len (br_body r)) e1 (layer_inv _ _ _ _ Hi Hm Hr1) ltac:(lia))
      as (e2 & a & E2 & Hr2 & Hk2).
    exists e2, a; split_and!; [exact E2| |eauto using keeps_out_trans].
    pose proof (layer_trans _ _ _ _ _ Hr1 Hr2) as H'; rewrite Z.add_0_r in H'; exact H'.
Qed.

Lemma doBatchSend_receives d : receives 0 (fun e => doBatchSend e d).
Proof.
  assert (Hid : forall (r : option goerr), receives 0 (fun e => Some (e, r))) by (intros; apply receives_id; lia).
  destruct d as [|status timeout|r]; unfold doBatchSend; auto.
  do 2 (case_if; [apply Hid|]); destruct (batchOffset (br_recvOffset r)) as [ack|] eqn:Ea; [|apply Hid].
  apply receives_ack; eapply batchOffset_nonneg; eassumption.
Qed.

(** ** A step of a leg *)

Fixpoint leg_volume (l : leg) : Z :=
  match l with Opening l => leg_volume l | DownReading body => len (r_bytes body) | _ => 0 end.

Definition input_volume (i : leg_input) : Z :=
  match i with
  | InMsg _ msg => len msg
  | InTurn _ _ sched => events_volume (concat sched)
  | InReply (PollBody body) => len (r_bytes body)
  | InPolled d _ => delivery_volume d
  | _ => 0
  end.

Definition input_ok (i : leg_input) : Prop :=
  match i with InTurn _ _ sched => calm sched | _ => True end.

(** Legs that call nextOut. *)
Fixpoint sender (l : leg) : bool :=
  match l with
  | Opening l => sender l
  | WsWriting _ | UpFeeding _ _ | UpBatch | UpSending _ _ => true
  | _ => false
  end.

Record moves (done : bool) (i : leg_input) (l l' : leg) (e e' : endpoint) : Prop := {
  mv_layer : exists v, 0 <= v /\ layer_runs v e e' /\ v + leg_volume l' <= leg_volume l + input_volume i;
  mv_keeps : keeps e e';
  mv_intr : done = true -> p_intr (ep_out e) = true -> sender l = false \/ sender l' = true ->
    p_intr (ep_out e') = true;
}.

Lemma leg_volume_nonneg l : 0 <= leg_volume l.
Proof. induction l; cbn; auto using len_nonneg; lia. Qed.

Lemma input_volume_nonneg i : 0 <= input_volume i.
Proof.
  destruct i as [| |b m|x pl sc|[]| |[]| |]; cbn; auto using len_nonneg, events_volume_nonneg; lia.
Qed.

Section Leg.
Context (cf : rconf) (Hframe : 0 < rf_maxFrame cf) (Hchunk : 0 < rf_maxSendChunk cf).

Lemma moves_out done i l l' e e' v :
  0 <= v -> layer_runs v e e' -> keeps_out e e' -> v + leg_volume l' <= leg_volume l + input_volume i ->
  moves done i l l' e e'.
Proof. intros Hv Hr [Hk Hi] Hl; constructor; eauto. Qed.

Lemma moves_same done i l l' e : leg_volume l' <= leg_volume l + input_volume i -> moves done i l l' e e.
Proof.
  intros; apply (moves_out _ _ _ _ _ _ 0); [lia|apply layer_refl; lia|auto|lia].
Qed.

Lemma moves_idle done i l e : moves done i l l e e.
Proof. apply moves_same; pose proof (input_volume_nonneg i); lia. Qed.

Lemma upLoop_next_light done r : leg_volume (upLoop_next done r) = 0.
Proof. destruct r, done; reflexivity. Qed.

Lemma downLoop_next_light done err : leg_volume (downLoop_next done err) = 0.
Proof. unfold downLoop_next; case_if; [destruct done|]; reflexivity. Qed.

Lemma upLoop_next_done r : sender (upLoop_next true r) = false.
Proof. destruct r; reflexivity. Qed.

(** A turn of a sending leg. *)
Lemma leg_turn {W} `{FrameSink W} onEOF eofErr err final (done expired : bool) sched V e (w : W) :
  ep_inv V e -> V + events_volume (concat sched) < 2 ^ 63 -> calm sched ->
  exists e' w' st,
    send_turn onEOF eofErr (if done then Some err else None) final expired (rf_maxFrame cf) sched e w
    = (e', w', st)
    /\ st <> LoopPanic /\ layer_runs (events_volume (concat sched)) e e' /\ keeps e e'
    /\ (done = true -> p_intr (ep_out e) = true -> st = Again -> p_intr (ep_out e') = true).
Proof.
  intros Hi Hm Hc.
  destruct (send_turn_total onEOF eofErr (if done then Some err else None) final expired
              (rf_maxFrame cf) sched V e w Hframe Hi Hm) as (e' & w' & st & E & Hst & Hr).
  destruct (send_turn_pipes _ _ _ _ _ _ _ _ _ _ _ _ E Hst) as (e1 & r & rest & En & Hin & Hout & Hintr).
  destruct (nextOut_keeps _ _ _ _ _ _ Hc En) as [H1 H2].
  exists e', w', st; split_and!; auto; [split; congruence|].
  intros -> Hp ->; destruct (nextOut_interrupted _ _ _ _ _ _ Hp En) as [_ [-> |[_ Hp']]].
  - specialize (Hintr eq_refl err eq_refl); discriminate.
  - congruence.
Qed.

Definition up_ep (t : up_turn) : option endpoint :=
  match t with UpStop e _ | UpIdle e | UpSend e _ _ => Some e | UpPanic => None end.

Lemma batch_turn done sched V e :
  ep_inv V e -> V + events_volume (concat sched) < 2 ^ 63 -> calm sched ->
  let t := batchUpLoop_turn (rf_pollStream cf) done (rf_maxSendChunk cf) sched e in
  exists e', up_ep t = Some e' /\ (done = true -> t = UpStop e' ErrCtx)
    /\ layer_runs (events_volume (concat sched)) e e' /\ keeps e e'.
Proof.
  intros Hi Hm Hc t; unfold t, batchUpLoop_turn.
  destruct (nextOut_total (rf_maxSendChunk cf) sched V e Hchunk Hi Hm) as (e1 & r & rest & En & Hr).
  destruct (nextOut_keeps _ _ _ _ _ _ Hc En) as [H1 H2]; rewrite En.
  assert (Hk : keeps e e1) by (split; congruence).
  destruct done; [exists e1; auto|].
  assert (Hta : layer_runs (events_volume (concat sched)) e (on_rl (fun r => (takeAck r).1) e1)).
  { rewrite <- (Z.add_0_r (events_volume (concat sched))); eapply layer_trans; [exact Hr|].
    apply (layer_op _ _ OpTakeAck); cbn; auto; lia. }
  unfold on_rl in *; destruct (takeAck (ep_rl e1)) as [rl due]; cbn [fst] in Hta.
  destruct r as [[off data]|err]; [|destruct err];
    try (exists e1; split_and!; auto; discriminate);
    (eexists; split_and!; [destruct ((_ && _)%bool); reflexivity|discriminate|exact Hta|exact Hk]).
Qed.

Lemma leg_step_moves done i l V e :
  ep_inv V e -> V + leg_volume l + input_volume i < 2 ^ 63 -> input_ok i ->
  exists e' l', leg_step cf done i l e = Some (e', l') /\ moves done i l l' e e'.
Proof.
  intros Hi Hm Hok; pose proof (leg_volume_nonneg l) as Hl0; pose proof (input_volume_nonneg i) as Hi0.
  assert (Hidle : exists e' l', Some (e, l) = Some (e', l') /\ moves done i l l' e e')
    by (exists e, l; eauto using moves_idle).
  assert (Hover : forall l', leg_volume l' <= 0 ->
    exists e' l'', Some (e, l') = Some (e', l'') /\ moves done i l l'' e e')
    by (intros l' Hl; exists e, l'; split; [reflexivity|apply moves_same; lia]).
  destruct l; destruct i; try exact Hidle; cbn [leg_step leg_volume input_volume input_ok] in *.
  - exists (on_rl resetAck e), l; split; [reflexivity|].
    apply (moves_out _ _ _ _ _ _ 0); [lia|apply (layer_op _ _ OpResetAck); cbn; auto; lia|auto|cbn [leg_volume input_volume]; lia].
  - apply Hover; cbn [leg_volume input_volume]; lia.
  - destruct binary; [|exact Hidle].
    destruct (wsDecode msg) as [f|] eqn:Ef; [|apply Hover; cbn [leg_volume input_volume]; lia].
    assert (Hf : len f.2 <= len msg).
    { unfold wsDecode in Ef; destruct msg as [|b m]; simplify_eq; cbn; rewrite len_cons; lia. }
    destruct (wsReadLoop_frame_receives f V e Hi ltac:(lia)) as (e' & a & E & Hr & Hk); rewrite E.
    pose proof (len_nonneg f.2); destruct a as [err|]; cbn [acted]; do 2 eexists; (split; [reflexivity|]);
      apply (moves_out _ _ _ _ _ _ (len f.2)); auto; cbn [leg_volume input_volume]; lia.
  - unfold wsWriteLoop_turn; set (w := mk_ws _ _).
    destruct (leg_turn None (Some EOF) (Some ErrCtx) None done false sched V e w Hi ltac:(lia) Hok)
      as (e' & w' & st & E & Hst & Hr & Hk & Hp); rewrite E.
    destruct st as [|err|]; [..|destruct (Hst eq_refl)]; do 2 eexists; (split; [reflexivity|]);
      (constructor; [exists (events_volume (concat sched)); split_and!; auto; cbn [leg_volume input_volume]; lia|exact Hk|]); auto.
    intros _ _ [?|?]; discriminate.
  - destruct rep as [err|status|body]; [apply Hover; rewrite downLoop_next_light; lia|apply Hover; rewrite downLoop_next_light; lia|].
    do 2 eexists; split; [reflexivity|]; apply moves_same; cbn [leg_volume input_volume]; lia.
  - do 2 eexists; split; [reflexivity|]; apply moves_same; case_if; rewrite ?downLoop_next_light; cbn [leg_volume input_volume]; lia.
  - destruct (frame_next (rf_maxFrame cf) body) as [[f|err] body'] eqn:Ef.
    2: { destruct err; do 2 eexists; (split; [reflexivity|]); apply moves_same;
         rewrite ?downLoop_next_light; cbn [leg_volume input_volume]; lia. }
    pose proof (frame_next_consumes _ _ _ _ Ef) as Hf0; pose proof (len_nonneg f.2).
    assert (Hf : len (r_bytes body') + len f.2 <= len (r_bytes body)) by (unfold len; lia).
    destruct (doStreamPoll_frame_receives f V e Hi ltac:(pose proof (len_nonneg (r_bytes body')); lia))
      as (e' & a & E & Hr & Hk); rewrite E.
    destruct a as [err|]; do 2 eexists; (split; [reflexivity|]);
      apply (moves_out _ _ _ _ _ _ (len f.2)); auto; rewrite ?downLoop_next_light; cbn [leg_volume input_volume];
      pose proof (len_nonneg (r_bytes body')); lia.
  - destruct (doBatchPoll_receives (rf_maxFrame cf) d V e Hi ltac:(lia)) as (e' & a & E & Hr & Hk); rewrite E.
    assert (Hd : 0 <= delivery_volume d) by exact Hi0.
    destruct a as [got|err]; [case_if; [|case_if]|]; do 2 eexists; (split; [reflexivity|]);
      apply (moves_out _ _ _ _ _ _ (delivery_volume d)); auto; cbn [leg_volume input_volume]; lia.
  - unfold feedSendStream_turn; set (w := mk_hbody _ _).
    destruct (leg_turn (Some frameEnd) None (Some ErrCtx) (Some frameEnd) done expired sched V e w Hi ltac:(lia) Hok)
      as (e' & w' & st & E & Hst & Hr & Hk & Hp); rewrite E.
    destruct st as [|err|]; [..|destruct (Hst eq_refl)]; do 2 eexists; (split; [reflexivity|]);
      (constructor; [exists (events_volume (concat sched)); split_and!; auto|exact Hk|]); auto.
    + cbn [leg_volume input_volume]; lia.
    + destruct answer; rewrite ?upLoop_next_light; cbn [leg_volume input_volume]; lia.
    + intros -> _ [?|Hs]; [discriminate|]; destruct answer; rewrite ?upLoop_next_done in Hs; discriminate.
  - do 2 eexists; (split; [reflexivity|]); apply moves_same; cbn [leg_volume input_volume]; lia.
  - do 2 eexists; (split; [reflexivity|]); apply moves_same; rewrite upLoop_next_light; cbn [leg_volume input_volume]; lia.
  - destruct (batch_turn done sched V e Hi ltac:(lia) Hok) as (e' & He & Hd & Hr & Hk).
    destruct (batchUpLoop_turn _ _ _ _ _) as [e1 err|e1|e1 off d|]; simplify_eq/=;
      do 2 eexists; (split; [reflexivity|]);
      (constructor; [exists (events_volume (concat sched)); split_and!; auto; cbn [leg_volume input_volume]; lia|exact Hk|]);
      intros Hdn _ [?|?]; try discriminate; specialize (Hd Hdn); discriminate.
  - destruct (doBatchSend_receives d V e Hi ltac:(lia)) as (e' & a & E & Hr & Hk); rewrite E.
    destruct a as [err|]; cbn [acted]; do 2 eexists; (split; [reflexivity|]);
      apply (moves_out _ _ _ _ _ _ 0); auto; cbn [leg_volume input_volume]; lia.
Qed.
End Leg.

(** ** The client's invariant *)

Definition down (l : leg) : bool :=
  match l with LegOver _ | WsReading | DownPolling | DownReading _ | DownBatch => true | _ => false end.
Definition over (l : leg) : bool := match l with LegOver _ => true | _ => false end.

Lemma down_no_sender l : down l = true -> sender l = false.
Proof. destruct l; cbn; congruence. Qed.

Lemma leg_step_down cf done i l e e' l' :
  down l = true -> leg_step cf done i l e = Some (e', l') -> down l' = true.
Proof.
  intros Hd E; destruct l; try discriminate; destruct i; cbn [leg_step] in E;
    unfold acted, downLoop_next in E; repeat case_match; simplify_eq; auto.
Qed.

(** Once its context is done, a leg that sends no more does not start again. *)
Lemma leg_step_no_sender cf i l e e' l' :
  sender l = false -> leg_step cf true i l e = Some (e', l') -> sender l' = false.
Proof.
  intros Hs E; destruct l; try discriminate; destruct i; cbn [leg_step] in E;
    unfold acted, downLoop_next in E; repeat case_match; simplify_eq; auto using upLoop_next_done.
Qed.

Definition sup_volume (st : sup) : Z :=
  match st with SupLegs _ _ d u => leg_volume d + leg_volume u | _ => 0 end.

(** The connection while its supervisor runs: nothing tells the application of
    the state of its transport. *)
Record running (c : rconn) : Prop := {
  rn_in : p_closed (ep_in (rc_ep c)) = false;
  rn_failed : rc_failed c = false;
  rn_superseded : rc_superseded c = false;
  rn_cancelled : rc_cancelled c = rc_closed c;
}.

Definition ended_with (why : supervisor) (c : rconn) : Prop :=
  match why with
  | Serving _ _ => False
  | Stopped => rc_closed c = true /\ rc_failed c = false /\ rc_superseded c = false
  | SessionEnded => p_closed (ep_in (rc_ep c)) = true /\ rc_failed c = negb (rc_superseded c)
  | GaveUp => p_closed (ep_in (rc_ep c)) = true /\ rc_failed c = true /\ rc_superseded c = false
  end.

Definition sup_ok (c : rconn) (st : sup) : Prop :=
  match st with
  | SupLegs _ first d u =>
      running c /\ down d = true
      /\ (rc_cancelled c || bool_decide (is_Some first) = true -> sender u = true ->
          p_intr (ep_out (rc_ep c)) = true)
      /\ (first = None -> over d = false /\ over u = false)
  | SupResume _ _ _ _ => running c /\ (rc_cancelled c = true -> p_intr (ep_out (rc_ep c)) = true)
  | SupOver why => ended_with why c
  end.

Record cl_inv (B : Z) (x : client) : Prop := {
  ci_ep : exists V, ep_inv V (rc_ep (cl_conn x)) /\ V + sup_volume (cl_sup x) <= B;
  ci_out : p_closed (ep_out (rc_ep (cl_conn x))) = rc_closed (cl_conn x);
  ci_sup : sup_ok (cl_conn x) (cl_sup x);
}.

Definition attempt_ok (a : attempt) : Prop :=
  match ra_reply a with RReplyOK rr => 0 <= rres_RecvOffset rr | _ => True end.

Definition ev_ok (ev : cl_event) : Prop :=
  match ev with LegIn _ i => input_ok i | Attempt a _ => attempt_ok a | _ => True end.

Definition ev_volume (ev : cl_event) : Z :=
  match ev with AppWrite d => len d | LegIn _ i => input_volume i | _ => 0 end.

Definition evs_volume (evs : list cl_event) : Z := foldr (fun ev n => ev_volume ev + n) 0 evs.

Lemma ev_volume_nonneg ev : 0 <= ev_volume ev.
Proof. destruct ev; cbn; auto using len_nonneg, input_volume_nonneg; lia. Qed.

(** An attempt to resume is an operation of the layer, or none. *)
Lemma resume_attempt ws deadline backoff a V e : ep_inv V e -> attempt_ok a ->
  match (resume_loop ws deadline backoff (ep_rl e) [a]).2 with
  | ResumePanic => False
  | ResumeOK r | ResumeErr r _ | ResumeTrying r _ => layer_runs 0 e (on_rl (fun _ => r) e)
  end.
Proof.
  intros (sent & got & Hr & _) Ha.
  assert (Hid : layer_runs 0 e (on_rl (fun _ => ep_rl e) e)) by (destruct e; apply layer_refl; lia).
  cbn [resume_loop]; unfold attempt_ok, doResume in *; destruct (ra_reply a) as [|status| |rr];
    try (repeat case_if; exact Hid).
  destruct (rres_Resumed rr); cbn [negb]; [|repeat case_if; exact Hid].
  destruct (resumeOut_spec sent got (ep_rl e) _ Hr Ha) as (r & ok & E & _); rewrite E.
  assert (Hop : layer_runs 0 e (on_rl (fun _ => r) e))
    by (apply (layer_op _ _ (OpResume (rres_RecvOffset rr))); cbn; rewrite ?E; auto; lia).
  destruct ok; repeat case_if; exact Hop.
Qed.

Section Client.
Context (cf : rconf) (Hframe : 0 < rf_maxFrame cf) (Hchunk : 0 < rf_maxSendChunk cf).

Lemma start_legs_ok : let '(d, u) := start_legs cf in
  down d = true /\ over d = false /\ over u = false /\ leg_volume d + leg_volume u = 0.
Proof.
  unfold start_legs; destruct (rf_ws cf), (rf_pollStream cf), (rf_uploadStream cf); cbn; auto.
Qed.

(** Changes of the connection that bring in no bytes. *)
Lemma inv_conn B x c st :
  cl_inv B x -> layer_runs 0 (rc_ep (cl_conn x)) (rc_ep c) -> B < 2 ^ 63 ->
  sup_volume st <= sup_volume (cl_sup x) -> 0 <= sup_volume st ->
  p_closed (ep_out (rc_ep c)) = rc_closed c -> sup_ok c st ->
  forall g, cl_inv B (mk_client c g st).
Proof.
  intros [(V & Hi & HV) _ _] Hr HB Hs H0 Ho Hok g; constructor; auto; exists V; cbn [cl_conn cl_sup].
  pose proof (layer_inv V 0 _ _ Hi ltac:(lia) Hr) as H; rewrite Z.add_0_r in H; split; [exact H|lia].
Qed.

Lemma sup_volume_nonneg st : 0 <= sup_volume st.
Proof. destruct st; cbn; pose proof leg_volume_nonneg; [|lia..]. pose proof (H down0); pose proof (H up); lia. Qed.

Lemma layer_close_in v e : 0 <= v -> layer_runs v e (close_in e).
Proof. intros; apply (layer_op _ _ OpCloseIn); cbn; auto. Qed.

Lemma fail_ok c : running c -> p_closed (ep_out (rc_ep c)) = rc_closed c ->
  layer_runs 0 (rc_ep c) (rc_ep (rc_fail c)) /\ p_closed (ep_out (rc_ep (rc_fail c))) = rc_closed (rc_fail c)
  /\ ended_with GaveUp (rc_fail c).
Proof.
  intros [] Ho; unfold rc_fail; rewrite rn_failed0; cbn; split_and!; auto.
  apply layer_close_in; lia.
Qed.

Lemma sessionClosed_ok id active c : running c -> p_closed (ep_out (rc_ep c)) = rc_closed c ->
  let c' := rc_onSessionClosed id active c in
  layer_runs 0 (rc_ep c) (rc_ep c') /\ p_closed (ep_out (rc_ep c')) = rc_closed c' /\ ended_with SessionEnded c'.
Proof.
  intros Hr Ho; unfold rc_onSessionClosed; case_bool_decide.
  - destruct (fail_ok c Hr Ho) as (H1 & H2 & H3 & H4 & H5); cbn; split_and!; auto; rewrite H4, H5; reflexivity.
  - destruct Hr; rewrite rn_superseded0; cbn; rewrite rn_failed0; split_and!; auto; apply layer_close_in; lia.
Qed.

Lemma inv_grow B B' x c st g v :
  cl_inv B x -> layer_runs v (rc_ep (cl_conn x)) (rc_ep c) -> B' < 2 ^ 63 ->
  sup_volume st + v <= sup_volume (cl_sup x) + (B' - B) -> 0 <= v <= B' - B + sup_volume (cl_sup x) ->
  p_closed (ep_out (rc_ep c)) = rc_closed c -> sup_ok c st -> cl_inv B' (mk_client c g st).
Proof.
  intros [(V & Hi & HV) _ _] Hr HB Hs H0 Ho Hok; constructor; auto; exists (V + v); cbn [cl_conn cl_sup].
  split; [apply (layer_inv V v _ _ Hi ltac:(lia) Hr)|lia].
Qed.

(** What the application does leaves the supervisor where it is. *)
Lemma sup_ok_same c c' st :
  p_closed (ep_in (rc_ep c')) = p_closed (ep_in (rc_ep c)) ->
  p_intr (ep_out (rc_ep c')) = p_intr (ep_out (rc_ep c)) ->
  rc_failed c' = rc_failed c -> rc_superseded c' = rc_superseded c ->
  rc_closed c' = rc_closed c -> rc_cancelled c' = rc_cancelled c -> sup_ok c st -> sup_ok c' st.
Proof.
  intros H1 H2 H3 H4 H5 H6; unfold sup_ok, ended_with.
  assert (Hr : running c -> running c') by (intros []; constructor; congruence).
  destruct st as [b first d u|b dur dl bo|[g r| | |]]; rewrite ?H1, ?H2, ?H3, ?H4, ?H5, ?H6; intuition.
Qed.

Lemma write_step B d x : cl_inv B x -> B + len d < 2 ^ 63 ->
  cl_inv (B + len d) (on_rc (fun c => (rc_Write c d).1) x).
Proof.
  intros Hx HB; pose proof (len_nonneg d) as Hd; destruct x as [c g st]; pose proof Hx as [_ Ho Hs]; cbn in Ho, Hs.
  assert (Hsame : cl_inv (B + len d) (mk_client c g st)).
  { pose proof (sup_volume_nonneg st).
    apply (inv_grow B _ _ _ _ _ 0 Hx); cbn [cl_conn cl_sup]; [apply layer_refl|..]; auto; lia. }
  unfold on_rc, rc_Write; cbn [cl_conn cl_guard cl_sup].
  destruct (rc_closed c) eqn:Hc; [exact Hsame|]; destruct (len d =? 0); [exact Hsame|].
  unfold pipe_Write; rewrite Ho; cbn [fst].
  pose proof (sup_volume_nonneg st).
  apply (inv_grow B _ _ _ _ _ (len d) Hx); cbn [cl_conn cl_sup]; [|lia|lia|lia| |].
  - apply (layer_op _ _ (OpWrite d)); cbn; [unfold pipe_Write; rewrite Ho; reflexivity|auto|lia].
  - cbn; congruence.
  - eapply sup_ok_same; [..|exact Hs]; cbn; congruence.
Qed.

Lemma read_step B dst x : cl_inv B x -> B < 2 ^ 63 ->
  cl_inv B (on_rc (fun c => match rc_Read c dst with Some (c, _) => c | None => c end) x).
Proof.
  intros Hx HB; destruct x as [c g st]; pose proof Hx as [_ Ho Hs]; cbn in Ho, Hs.
  unfold on_rc, rc_Read; cbn [cl_conn cl_guard cl_sup].
  destruct (pipe_Read (ep_in (rc_ep c)) dst) as [[inp r]|] eqn:E; [|exact Hx].
  assert (Hcl : p_closed inp = p_closed (ep_in (rc_ep c)))
    by (unfold pipe_Read in E; repeat case_match; simplify_eq; auto).
  apply (inv_conn B _ _ _ Hx); cbn [cl_conn cl_sup rc_ep]; [|exact HB|lia|apply sup_volume_nonneg|exact Ho|].
  - apply (layer_op _ _ (OpRead dst)); cbn; [rewrite E; reflexivity|auto|lia].
  - eapply sup_ok_same; [..|exact Hs]; cbn; auto.
Qed.

Lemma close_step B x : cl_inv B x -> B < 2 ^ 63 -> cl_inv B (on_rc rc_Close x).
Proof.
  intros Hx HB; destruct x as [c g st]; pose proof Hx as [_ Ho Hs]; cbn in Ho, Hs.
  unfold on_rc, rc_Close; cbn [cl_conn cl_guard cl_sup]; destruct (rc_closed c) eqn:Hc; [exact Hx|].
  apply (inv_conn B _ _ _ Hx); cbn [cl_conn cl_sup rc_ep];
    [|exact HB|lia|apply sup_volume_nonneg|reflexivity|].
  - rewrite <- (Z.add_0_r 0); eapply layer_trans; [apply (layer_op _ _ OpCloseOut)|apply (layer_op _ _ OpInterrupt)];
      cbn; auto; lia.
  - destruct st as [b first d u|b dur dl bo|[|  | |]]; cbn in *; rewrite ?Hc in *; intuition; try discriminate.
    + destruct H; constructor; auto.
    + destruct H; constructor; auto.
Qed.

Lemma running_keeps c e : running c -> keeps (rc_ep c) e -> running (on_ep (fun _ => e) c).
Proof. intros [] [H _]; constructor; cbn; congruence. Qed.

Lemma legs_step_inv B up i before first d u x :
  cl_inv B x -> cl_sup x = SupLegs before first d u -> input_ok i -> B + input_volume i < 2 ^ 63 ->
  exists x', legs_step cf up i before first d u x = Some x' /\ cl_inv (B + input_volume i) x'.
Proof.
  intros Hx Es Hok HB; pose proof Hx as [(V & Hi & HV) Ho Hs]; rewrite Es in Hs, HV; cbn in Hs, HV.
  destruct Hs as (Hrun & Hd & Hint & Hov).
  pose proof (leg_volume_nonneg d); pose proof (leg_volume_nonneg u).
  set (c := cl_conn x) in *; set (done := rc_cancelled c || bool_decide (is_Some first)) in *.
  unfold legs_step; fold c; fold done.
  set (l := if up then u else d).
  assert (Hl : leg_volume l <= leg_volume d + leg_volume u) by (unfold l; destruct up; lia).
  destruct (leg_step_moves cf Hframe Hchunk done i l V (rc_ep c) Hi ltac:(lia) Hok) as (e & l' & E & Hm).
  rewrite E; destruct Hm as [(v & Hv & Hr & Hvol) Hk Hmi].
  set (d' := if up then d else l'); set (u' := if up then l' else u).
  assert (Hd' : down d' = true)
    by (unfold d'; destruct up; [exact Hd|eapply leg_step_down; [exact Hd|exact E]]).
  assert (Hvol' : leg_volume d' + leg_volume u' + v <= leg_volume d + leg_volume u + input_volume i)
    by (unfold d', u', l in *; destruct up; lia).
  assert (Hi' : done = true -> sender u' = true -> p_intr (ep_out e) = true).
  { intros Hdn Hs; unfold u', l in *; destruct up.
    - destruct (sender u) eqn:Hsu; [apply Hmi; auto|].
      rewrite Hdn in E; rewrite (leg_step_no_sender _ _ _ _ _ _ Hsu E) in Hs; discriminate.
    - apply Hmi; auto using down_no_sender. }
  assert (Hfin : forall first' e', (first' = first /\ e' = e) \/ (e' = interruptOut e /\ first' <> None) ->
    (first' = None -> over l' = false) ->
    exists x', Some (mk_client (on_ep (fun _ => e') c) (cl_guard x)
                      (if up then SupLegs before first' d l' else SupLegs before first' l' u)) = Some x'
      /\ cl_inv (B + input_volume i) x').
  { intros first' e' He' Hnone; eexists; split; [reflexivity|].
    replace (if up then SupLegs before first' d l' else SupLegs before first' l' u)
      with (SupLegs before first' d' u') by (unfold d', u'; destruct up; reflexivity).
    assert (Hr' : layer_runs v (rc_ep c) e').
    { destruct He' as [[_ ->]|[-> _]]; [exact Hr|]; rewrite <- (Z.add_0_r v).
      eapply layer_trans; [exact Hr|apply (layer_op _ _ OpInterrupt); cbn; auto; lia]. }
    assert (Hk' : keeps (rc_ep c) e').
    { destruct He' as [[_ ->]|[-> _]]; [exact Hk|exact Hk]. }
    pose proof (leg_volume_nonneg d'); pose proof (leg_volume_nonneg u').
    eapply (inv_grow B); [exact Hx|exact Hr'|exact HB|rewrite Es; cbn [sup_volume]; lia|rewrite Es; cbn [sup_volume]; lia| |].
    - destruct Hk' as [_ Hk2]; cbn; congruence.
    - cbn; split_and!; auto using running_keeps.
      + intros Hdn Hsn; destruct He' as [[-> ->]|[-> _]]; [apply Hi'; auto|reflexivity].
      + intros ->; assert (first = None) as Hf by (destruct He' as [[-> _]|[_ ?]]; congruence).
        destruct (Hov Hf); unfold d', u'; destruct up; auto. }
  destruct first as [err|]; [apply Hfin; [auto|discriminate]|].
  destruct l'; try (apply Hfin; [auto|reflexivity]).
  apply Hfin; [right; split; [reflexivity|discriminate]|discriminate].
Qed.

Lemma joined_step B before err duration start active x d u :
  cl_inv B x -> cl_sup x = SupLegs before (Some err) d u -> B < 2 ^ 63 ->
  cl_inv B (sup_joined cf before err duration start active x).
Proof.
  intros Hx Es HB; pose proof Hx as [_ Ho Hs]; rewrite Es in Hs; destruct Hs as [Hrun _].
  pose proof (leg_volume_nonneg d); pose proof (leg_volume_nonneg u).
  destruct (fail_ok _ Hrun Ho) as (F1 & F2 & F3).
  destruct (sessionClosed_ok (rf_sessionID cf) active _ Hrun Ho) as (S1 & S2 & S3).
  assert (Hid : layer_runs 0 (rc_ep (cl_conn x)) (rc_ep (cl_conn x))) by (apply layer_refl; lia).
  assert (Hdone : rc_done (cl_conn x) = rc_closed (cl_conn x))
    by (unfold rc_done; destruct Hrun; rewrite rn_cancelled0; destruct (rc_closed _); reflexivity).
  unfold sup_joined; rewrite Hdone; destruct (rc_closed (cl_conn x)) eqn:Hc.
  { apply (inv_conn B x); auto; rewrite ?Es; cbn; try lia; [congruence|]; destruct Hrun; auto. }
  case_if; [apply (inv_conn B x); auto; rewrite ?Es; cbn; lia|].
  case_if; [apply (inv_conn B x); auto; rewrite ?Es; cbn; lia|].
  destruct (recordBodyTimeout _ _ _) as [g abandon]; destruct abandon;
    apply (inv_conn B x); auto; rewrite ?Es; cbn; try lia; auto; [congruence|].
  split; [exact Hrun|]; destruct Hrun; congruence.
Qed.

Lemma attempt_step B before duration deadline backoff a active x :
  cl_inv B x -> cl_sup x = SupResume before duration deadline backoff -> attempt_ok a -> B < 2 ^ 63 ->
  exists x', sup_attempt cf before duration deadline backoff a active x = Some x' /\ cl_inv B x'.
Proof.
  intros Hx Es Ha HB; pose proof Hx as [(V & Hi & HV) Ho Hs]; rewrite Es in Hs; destruct Hs as [Hs Hintr].
  pose proof (resume_attempt (rf_ws cf) deadline backoff a V _ Hi Ha) as Hres.
  unfold sup_attempt; set (c := cl_conn x) in *.
  assert (Hdone : rc_done c = rc_closed c)
    by (unfold rc_done; destruct Hs; rewrite rn_cancelled0; destruct (rc_closed c); reflexivity).
  assert (Hrun : forall r, running (on_ep (on_rl (fun _ => r)) c)) by (intros r; destruct Hs; constructor; auto).
  assert (Hfail : forall r g, layer_runs 0 (rc_ep c) (on_rl (fun _ => r) (rc_ep c)) ->
    cl_inv B (mk_client (rc_fail (on_ep (on_rl (fun _ => r)) c)) g (SupOver GaveUp))).
  { intros r g Hr; destruct (fail_ok _ (Hrun r) Ho) as (F1 & F2 & F3).
    apply (inv_conn B x); auto; rewrite ?Es; cbn; try lia.
    rewrite <- (Z.add_0_r 0); eapply layer_trans; [exact Hr|exact F1]. }
  destruct (resume_loop _ _ _ _ _).2 as [r|r err|r backoff'|]; [| | |destruct Hres].
  - cbn [on_rc cl_guard]; destruct (guard_record _ _ _) as [g abandon]; eexists; split; [reflexivity|].
    destruct abandon; [apply Hfail, Hres|].
    pose proof start_legs_ok as Hst; destruct (start_legs cf) as [d u]; destruct Hst as (H1 & H2 & H3 & H4).
    apply (inv_conn B x); auto; rewrite ?Es; cbn; try lia.
    split_and!; auto; intros Hcc Hsn; cbn in Hcc.
    rewrite orb_false_r in Hcc; apply Hintr, Hcc.
  - eexists; split; [reflexivity|]; rewrite Hdone; destruct (rc_closed c) eqn:Hc.
    + apply (inv_conn B x); auto; rewrite ?Es; cbn; try lia; fold c; destruct Hs; auto; congruence.
    + case_if; [|apply Hfail, Hres].
      destruct (sessionClosed_ok (rf_sessionID cf) active _ (Hrun r) ltac:(cbn; congruence)) as (S1 & S2 & S3).
      apply (inv_conn B x); auto; rewrite ?Es; cbn; try lia.
      rewrite <- (Z.add_0_r 0); eapply layer_trans; [exact Hres|exact S1].
  - eexists; split; [reflexivity|]; apply (inv_conn B x); auto; rewrite ?Es; cbn; try lia; auto.
Qed.

Lemma cl_step_inv B ev x : cl_inv B x -> ev_ok ev -> B + ev_volume ev < 2 ^ 63 ->
  exists x', cl_step cf ev x = Some x' /\ cl_inv (B + ev_volume ev) x'.
Proof.
  intros Hx Hok HB; destruct ev as [d|dst| | |up i|duration start active|a active];
    cbn [cl_step ev_ok ev_volume] in *; rewrite ?Z.add_0_r in *.
  - eexists; split; [reflexivity|apply write_step; auto].
  - eexists; split; [reflexivity|apply read_step; auto].
  - eexists; split; [reflexivity|apply close_step; auto].
  - eexists; split; [reflexivity|].
    destruct (cl_sup x) as [| |why] eqn:Es; [exact Hx..|]; destruct (rc_closed (cl_conn x)) eqn:Hc; [|exact Hx].
    pose proof Hx as [_ Ho Hs]; rewrite Es in Hs; unfold on_rc, rc_Close_waited.
    apply (inv_conn B x); rewrite ?Es; cbn; auto; try lia; [apply layer_close_in; lia|].
    destruct why; cbn in *; intuition.
  - destruct (cl_sup x) as [before first d u| |] eqn:Es; [eapply legs_step_inv; eauto|..];
      (exists x; split; [reflexivity|]; pose proof (input_volume_nonneg i);
       destruct x as [c g st]; pose proof Hx as [_ Ho Hs]; apply (inv_grow B _ _ _ _ _ 0 Hx); auto;
       [apply layer_refl; lia|cbn in *; subst; cbn; lia..]).
  - destruct (cl_sup x) as [before [err|] d u| |] eqn:Es; eauto; destruct d; eauto; destruct u; eauto.
    eexists; split; [reflexivity|]; eapply joined_step; eauto.
  - destruct (cl_sup x) as [|before duration deadline backoff|] eqn:Es; eauto.
    eapply attempt_step; eauto.
Qed.

Lemma cl_run_inv evs : forall B x, cl_inv B x -> Forall ev_ok evs -> B + evs_volume evs < 2 ^ 63 ->
  exists x', cl_run cf evs x = Some x' /\ cl_inv (B + evs_volume evs) x'.
Proof.
  induction evs as [|ev evs IH]; intros B x Hx Hok HB; cbn [cl_run evs_volume foldr] in *.
  { rewrite Z.add_0_r; eauto. }
  inversion_clear Hok; fold (evs_volume evs) in *.
  assert (0 <= evs_volume evs) by (clear; induction evs as [|ev evs IH]; cbn; [lia|]; pose proof (ev_volume_nonneg ev);
    fold (evs_volume evs); lia).
  destruct (cl_step_inv B ev x Hx ltac:(assumption) ltac:(lia)) as (x1 & E & Hx1); rewrite E, Z.add_assoc.
  apply IH; auto; lia.
Qed.
End Client.

Lemma connectResumable_ok c cr dialed cf c0 :
  connectResumable c cr dialed = Ok (cf, c0) -> Validate (cres_Limits cr) = None ->
  0 < rf_maxFrame cf /\ 0 < rf_maxSendChunk cf /\ cl_inv 0 (new_client cf c0).
Proof.
  intros E Hv.
  assert (Hsize : 0 < MaxSendBytes (cres_Limits cr))
    by (unfold Validate in Hv; destruct (Z.leb_spec (MaxSendBytes (cres_Limits cr)) 0); [discriminate|lia]).
  assert (Hor : forall v d, 0 < d -> 0 < orInt v d) by (intros v d; unfold orInt; destruct (Z.leb_spec v 0); lia).
  assert (Hsh : exists r, c0 = mk_rc (mk_ep r NewBufferedPipe NewBufferedPipe) false false false false
    /\ rel_inv [] [] r /\ 0 < rf_maxFrame cf /\ 0 < rf_maxSendChunk cf).
  { unfold connectResumable in E; repeat case_match; simplify_eq; cbn [rf_maxFrame rf_maxSendChunk].
    all: eexists; split_and!; [reflexivity|try apply inv_disableEagerAck; apply inv_new|apply Hor; reflexivity|].
    all: apply Z.min_glb_lt; auto; apply Hor; reflexivity. }
  destruct Hsh as (r & -> & Hr & Hf & Hch); split_and!; auto; unfold new_client.
  pose proof (start_legs_ok cf) as Hst; destruct (start_legs cf) as [d u]; destruct Hst as (H1 & H2 & H3 & H4).
  constructor; cbn [cl_conn cl_sup sup_volume]; [|reflexivity|].
  - exists 0; split; [|lia]; exists [], []; split_and!; [exact Hr|vm_compute; discriminate..].
  - split_and!; auto; constructor; auto.
Qed.

(** ** Joining the legs *)

(** What is left for a leg to meet once its context is done: every operation of
    the network it waits for fails, and it takes its turns. *)
Definition write_fails : list (option (nat * goerr)) := [Some (0%nat, ErrCtx)].

Fixpoint closing (sched : list (list pipe_event)) (l : leg) : list leg_input :=
  match l with
  | LegOver _ => []
  | Opening l => InOpen :: closing sched l
  | WsReading | DownReading _ => [InFail ErrCtx]
  | WsWriting _ | UpBatch | UpFeeding _ (Some _) => [InTurn false write_fails sched]
  | DownPolling => [InReply (PollNone ErrCtx)]
  | DownBatch => [InPolled Lost true]
  | UpFeeding _ None => [InAnswer (inl ErrCtx); InTurn false write_fails sched]
  | UpWaiting _ => [InAnswer (inl ErrCtx)]
  | UpSending _ _ => [InSent Lost]
  end.

Lemma closing_over sched l : closing sched l = [] -> exists err, l = LegOver err.
Proof. destruct l; cbn; try discriminate; [eauto|destruct answer; discriminate]. Qed.

Lemma ws_write_fails msgs :
  let c := mk_ws msgs (map (option_map snd) write_fails) in
  (forall typ p c' o, sink_frame c typ p = (c', o) -> o <> None)
  /\ (forall off p c' o, sink_seq c off p = (c', o) -> o <> None).
Proof. split; intros x p c' o E; cbn in E; simplify_eq; discriminate. Qed.

Lemma body_write_fails out fs :
  let b := mk_hbody (mk_writer out write_fails) fs in
  (forall typ p b' o, sink_frame b typ p = (b', o) -> o <> None)
  /\ (forall off p b' o, sink_seq b off p = (b', o) -> o <> None).
Proof.
  split; intros x p c' o E; cbn in E; unfold hbody_frame, hbody_seq, writeFrame, writeSeqFrame, io_write in E;
    cbn in E; simplify_eq; discriminate.
Qed.

(** Each of these inputs brings the leg one step nearer to its end. *)
Lemma closing_step cf sched i js l e e' l' :
  (sender l = true -> p_intr (ep_out e) = true) ->
  closing sched l = i :: js -> leg_step cf true i l e = Some (e', l') -> closing sched l' = js.
Proof.
  intros Hi Hcl E; destruct l; try destruct answer; cbn [closing sender] in *; simplify_eq; cbn [leg_step] in E;
    simplify_eq; auto; try (cbn in E; simplify_eq; reflexivity).
  - specialize (Hi eq_refl); unfold wsWriteLoop_turn in E.
    destruct (ws_write_fails (ws_msgs c)) as [W1 W2].
    destruct (send_turn _ _ _ _ _ _ _ _ _) as [[e1 w1] st] eqn:Et.
    destruct st as [|err|]; [|simplify_eq; reflexivity|discriminate].
    destruct (send_turn_stops _ _ _ _ _ _ _ _ _ _ _ _ W1 W2 Hi Et ltac:(discriminate)); discriminate.
  - specialize (Hi eq_refl); unfold feedSendStream_turn in E.
    destruct (body_write_fails (w_out (hb_writer b)) (hb_frames b)) as [W1 W2].
    destruct (send_turn _ _ _ _ _ _ _ _ _) as [[e1 w1] st] eqn:Et.
    destruct st as [|err|]; [|simplify_eq; destruct (doSendStream_result _ _); reflexivity|discriminate].
    destruct (send_turn_stops _ _ _ _ _ _ _ _ _ _ _ _ W1 W2 Hi Et ltac:(discriminate)); discriminate.
  - unfold batchUpLoop_turn in E; destruct (nextOut _ _ _) as [[[e1 r] rest]|]; simplify_eq; reflexivity.
Qed.

(** And no turn among them waits: it is the same whatever could have happened
    meanwhile. *)
Lemma nextOut_nowait e blen sched : p_intr (ep_out e) = true ->
  nextOut e blen sched = option_map (fun r => (r.1, sched)) (nextOut e blen []).
Proof.
  intros Hi; unfold nextOut; destruct (has_pending (ep_rl e)).
  - destruct (pending_out (ep_rl e) blen) as [[[r off] chunk]|]; reflexivity.
  - unfold ReadAvailable; rewrite Hi; reflexivity.
Qed.

Lemma turn_nowait cf done x plan sched l e : sender l = true -> p_intr (ep_out e) = true ->
  leg_step cf done (InTurn x plan sched) l e = leg_step cf done (InTurn x plan []) l e.
Proof.
  intros Hs Hi.
  assert (Hturn : forall {W} `{FrameSink W} a b c d ex blen (w : W),
    send_turn a b c d ex blen sched e w = send_turn a b c d ex blen [] e w).
  { intros W S a b c d ex blen w; unfold send_turn; rewrite (nextOut_nowait e blen sched Hi).
    destruct (nextOut e blen []) as [[[e1 r] rest]|]; reflexivity. }
  destruct l; try discriminate; cbn [leg_step]; auto.
  - unfold wsWriteLoop_turn; rewrite Hturn; reflexivity.
  - unfold feedSendStream_turn; rewrite Hturn; reflexivity.
  - unfold batchUpLoop_turn; rewrite (nextOut_nowait e _ sched Hi).
    destruct (nextOut e (rf_maxSendChunk cf) []) as [[[e1 r] rest]|]; reflexivity.
Qed.

Lemma closing_first cf sched l i js e : (sender l = true -> p_intr (ep_out e) = true) ->
  closing [] l = i :: js ->
  input_ok i /\ input_volume i = 0
  /\ exists i' js', closing sched l = i' :: js' /\ leg_step cf true i' l e = leg_step cf true i l e.
Proof.
  intros Hi Hcl; destruct l; try destruct answer; cbn [closing] in *; simplify_eq;
    (split; [try exact I; reflexivity|split; [reflexivity|]]); do 2 eexists; (split; [reflexivity|]);
    auto using turn_nowait.
Qed.

Section Joining.
Context (cf : rconf) (Hframe : 0 < rf_maxFrame cf) (Hchunk : 0 < rf_maxSendChunk cf).

(** One leg is brought to its end. *)
Lemma close_leg (up : bool) js : forall B x before first (d u : leg),
  closing [] (if up then u else d) = js -> cl_inv B x -> B < 2 ^ 63 ->
  cl_sup x = SupLegs before first d u -> rc_cancelled (cl_conn x) || bool_decide (is_Some first) = true ->
  exists x' first' l',
    (forall sched, cl_run cf (map (LegIn up) (closing sched (if up then u else d))) x = Some x')
    /\ cl_inv B x' /\ rc_cancelled (cl_conn x') = rc_cancelled (cl_conn x)
    /\ cl_sup x' = (if up then SupLegs before first' d l' else SupLegs before first' l' u)
    /\ over l' = true /\ (first <> None -> first' <> None) /\ (js <> [] -> first' <> None).
Proof.
  induction js as [|i js IH]; intros B x before first d u Hcl Hx HB Es Hdone.
  - set (l := if up then u else d) in *; destruct (closing_over _ _ Hcl) as [err Hl].
    exists x, first, l; unfold cl_run, closing; rewrite Hl; split_and!; auto; try done.
    rewrite <- Hl, Es; unfold l; destruct up; reflexivity.
  - set (l := if up then u else d) in *; set (e := rc_ep (cl_conn x)).
    assert (Hi : sender l = true -> p_intr (ep_out e) = true).
    { pose proof Hx as [_ _ Hs]; rewrite Es in Hs; destruct Hs as (_ & Hd & Hp & _).
      unfold l; destruct up; [apply Hp, Hdone|intros Hsd; rewrite (down_no_sender d Hd) in Hsd; discriminate]. }
    destruct (closing_first cf [] l i js e Hi Hcl) as (Hok & Hv & _).
    destruct (legs_step_inv cf Hframe Hchunk B up i before first d u x Hx Es Hok ltac:(lia)) as (x1 & E1 & Hx1).
    rewrite Hv, Z.add_0_r in Hx1; pose proof E1 as E2; unfold legs_step in E2.
    rewrite Hdone in E2; fold l in E2; fold e in E2.
    destruct (leg_step cf true i l e) as [[e1 l1]|] eqn:El; [|discriminate].
    destruct (match first, l1 with None, LegOver err => _ | _, _ => _ end) as [first1 e2] eqn:Ef.
    assert (Hf : (first <> None -> first1 = first) /\ (over l1 = true -> first1 <> None)).
    { destruct first, l1; simplify_eq; split; intros; try discriminate; auto; congruence. }
    injection E2 as E2.
    assert (Es1 : cl_sup x1 = (if up then SupLegs before first1 d l1 else SupLegs before first1 l1 u))
      by (rewrite <- E2; reflexivity).
    assert (Hc1 : rc_cancelled (cl_conn x1) = rc_cancelled (cl_conn x)) by (rewrite <- E2; reflexivity).
    set (d1 := if up then d else l1); set (u1 := if up then l1 else u).
    assert (Hl1 : (if up then u1 else d1) = l1) by (unfold u1, d1; destruct up; reflexivity).
    assert (Es1' : cl_sup x1 = SupLegs before first1 d1 u1) by (rewrite Es1; unfold d1, u1; destruct up; reflexivity).
    destruct (IH B x1 before first1 d1 u1) as (x' & first' & l' & Hrun & Hx' & Hc' & Es' & Ho & Hf1 & Hf2); auto.
    { rewrite Hl1; eapply closing_step; eauto. }
    { rewrite Hc1; destruct first; [|destruct (rc_cancelled (cl_conn x)); [reflexivity|discriminate]].
      rewrite (proj1 Hf) by discriminate; exact Hdone. }
    exists x', first', l'; split_and!; auto.
    + intros sched; destruct (closing_first cf sched l i js e Hi Hcl) as (_ & _ & i' & js' & Hcl' & Esame).
      rewrite Hcl'; cbn [map cl_run cl_step]; rewrite Es.
      assert (legs_step cf up i' before first d u x = Some x1) as ->.
      { rewrite <- E1; unfold legs_step; rewrite Hdone; fold l; fold e; rewrite Esame; reflexivity. }
      rewrite <- (Hrun sched), Hl1; f_equal; f_equal; symmetry; eapply closing_step; eauto.
      rewrite Esame; exact El.
    + congruence.
    + rewrite Es'; unfold d1, u1; destruct up; reflexivity.
    + intros Hne; apply Hf1; rewrite (proj1 Hf Hne); exact Hne.
    + intros _; destruct js; [|apply Hf2; discriminate].
      apply Hf1, Hf; rewrite <- Hl1.
      assert (Hcl1 : closing [] l1 = []) by (eapply closing_step; eauto).
      destruct (closing_over _ _ Hcl1) as [err ->]; rewrite Hl1; reflexivity.
Qed.
End Joining.

(** ** The machine and the supervisor's loop *)

Lemma supervise_snoc lr rounds : forall g r,
  supervise g r (rounds ++ [lr]) =
  match supervise g r rounds with Serving g' r' => supervise_turn g' r' lr | st => st end.
Proof.
  induction rounds as [|lr1 rounds IH]; intros g r; cbn [app supervise].
  - destruct (supervise_turn g r lr); reflexivity.
  - destruct (supervise_turn g r lr1); auto.
Qed.

(** The rounds the supervisor has been through. *)
Definition supervised (g0 : resumeStabilityGuard) (r0 : reliable) (g : resumeStabilityGuard) (st : sup) : Prop :=
  match st with
  | SupLegs before _ _ _ =>
      exists rounds r, supervise g0 r0 rounds = Serving g r /\ progress r = before
  | SupResume before _ _ _ =>
      exists rounds r g1 err after, supervise g0 r0 rounds = Serving g1 r /\ progress r = before
        /\ isSessionClosedErr err = false
        /\ bool_decide (err = errReplayGap) || bool_decide (err = errBadAck) || isBroken after = false
        /\ recordBodyTimeout g1 (bool_decide (err = errBatchBodyTimeout))
             (negb (recvOffsetNow after =? before.2)) = (g, false)
  | SupOver why => exists rounds, supervise g0 r0 rounds = why
  end.

Section Supervised.
Context (cf : rconf) (g0 : resumeStabilityGuard) (r0 : reliable).

Lemma joined_supervised before err duration start active d u x :
  cl_sup x = SupLegs before (Some err) d u -> supervised g0 r0 (cl_guard x) (cl_sup x) ->
  let x' := sup_joined cf before err duration start active x in
  supervised g0 r0 (cl_guard x') (cl_sup x').
Proof.
  intros Es Hs; rewrite Es in Hs; destruct Hs as (rounds & r & Hr & Hp); unfold sup_joined.
  set (after := ep_rl (rc_ep (cl_conn x))).
  assert (Hover : forall done why, supervise_turn (cl_guard x) r
    (mk_leg_round err after duration done (inr EOF) false) = why -> exists rounds, supervise g0 r0 rounds = why)
    by (intros done why Hw; eexists; rewrite supervise_snoc, Hr; exact Hw).
  destruct (rc_done (cl_conn x)); [apply (Hover true); reflexivity|].
  specialize (Hover false); unfold supervise_turn in Hover; cbn [lr_done lr_err lr_after] in Hover.
  destruct (isSessionClosedErr err) eqn:Hc; [apply Hover; reflexivity|].
  destruct (_ || _ || isBroken after) eqn:Hb; [apply Hover; reflexivity|].
  rewrite Hp in Hover.
  destruct (recordBodyTimeout _ _ _) as [g abandon] eqn:Hg; destruct abandon; [apply Hover; reflexivity|].
  cbn; exists rounds, r, (cl_guard x), err, after; auto.
Qed.

Lemma attempt_supervised before duration deadline backoff a active x x' :
  cl_sup x = SupResume before duration deadline backoff -> supervised g0 r0 (cl_guard x) (cl_sup x) ->
  sup_attempt cf before duration deadline backoff a active x = Some x' ->
  supervised g0 r0 (cl_guard x') (cl_sup x').
Proof.
  intros Es Hs E; rewrite Es in Hs; destruct Hs as (rounds & r & g1 & err & after & Hr & Hp & Hc & Hb & Hg).
  assert (Hlast : forall res done' why, supervise_turn g1 r (mk_leg_round err after duration false res done') = why ->
    exists rounds, supervise g0 r0 rounds = why)
    by (intros res done' why Hw; eexists; rewrite supervise_snoc, Hr; exact Hw).
  unfold supervise_turn in Hlast; cbn [lr_done lr_err lr_after lr_resume lr_done' lr_duration] in Hlast.
  rewrite Hc, Hb, Hp, Hg in Hlast.
  unfold sup_attempt in E; destruct (resume_loop _ _ _ _ _).2 as [r'|r' err'|r' backoff'|]; [| | |discriminate].
  - cbn [on_rc cl_guard] in E; specialize (Hlast (inl r') false); cbn in Hlast.
    destruct (guard_record _ _ _) as [g abandon] eqn:Hgr; injection E as <-.
    destruct abandon; [apply Hlast; reflexivity|].
    destruct (start_legs cf) as [d u]; cbn.
    exists (rounds ++ [mk_leg_round err after duration false (inl r') false]), r'; split; [|reflexivity].
    rewrite supervise_snoc, Hr; unfold supervise_turn; cbn [lr_done lr_err lr_after lr_resume lr_done' lr_duration].
    rewrite Hc, Hb, Hp, Hg, Hgr; reflexivity.
  - injection E as <-; destruct (rc_done (cl_conn x)); [apply (Hlast (inr err') true); reflexivity|].
    specialize (Hlast (inr err') false); cbn in Hlast; destruct (isSessionClosedErr err'); apply Hlast; reflexivity.
  - injection E as <-; cbn; exists rounds, r, g1, err, after; auto.
Qed.

Lemma step_supervised ev x x' : supervised g0 r0 (cl_guard x) (cl_sup x) -> cl_step cf ev x = Some x' ->
  supervised g0 r0 (cl_guard x') (cl_sup x').
Proof.
  intros Hs E; destruct ev as [d|dst| | |up i|duration start active|a active]; cbn [cl_step] in E;
    try (injection E as <-; exact Hs).
  - injection E as <-; destruct (cl_sup x) eqn:Es; try (rewrite Es; exact Hs).
    destruct (rc_closed _); cbn; rewrite Es; exact Hs.
  - destruct (cl_sup x) as [before first d u| |] eqn:Es; [|injection E as <-; rewrite Es; exact Hs..].
    unfold legs_step in E; destruct (leg_step _ _ _ _ _) as [[e l]|]; [|discriminate].
    destruct (match first, l with None, LegOver err => _ | _, _ => _ end) as [first1 e1].
    injection E as <-; destruct up; exact Hs.
  - injection E as <-; destruct (cl_sup x) as [before [err|] d u| |] eqn:Es; try (rewrite Es; exact Hs).
    destruct d; try (rewrite Es; exact Hs); destruct u; try (rewrite Es; exact Hs).
    eapply joined_supervised; [exact Es|rewrite Es; exact Hs].
  - destruct (cl_sup x) eqn:Es; try (injection E as <-; rewrite Es; exact Hs).
    eapply attempt_supervised; [exact Es|rewrite Es; exact Hs|exact E].
Qed.

Lemma run_supervised evs : forall x x', supervised g0 r0 (cl_guard x) (cl_sup x) -> cl_run cf evs x = Some x' ->
  supervised g0 r0 (cl_guard x') (cl_sup x').
Proof.
  induction evs as [|ev evs IH]; intros x x' Hs E; cbn in E; [injection E as <-; exact Hs|].
  destruct (cl_step cf ev x) as [x1|] eqn:E1; [|discriminate].
  eapply IH; [eapply step_supervised; eauto|exact E].
Qed.
End Supervised.

(** ** A stream poll, frame by frame *)

Fixpoint frame_steps (cf : rconf) (k : nat) (l : leg) (e : endpoint) : option (endpoint * leg) :=
  match k with
  | O => Some (e, l)
  | S k => match leg_step cf false InFrame l e with Some (e, l) => frame_steps cf k l e | None => None end
  end.

Lemma frame_steps_poll cf fuel : forall body e e' err,
  doStreamPoll_loop fuel (rf_maxFrame cf) body e = Some (e', err) ->
  exists k, (k <= fuel)%nat /\ frame_steps cf k (DownReading body) e = Some (e', downLoop_next false err).
Proof.
  induction fuel as [|fuel IH]; intros body e e' err E; cbn in E; [discriminate|].
  destruct (frame_next (rf_maxFrame cf) body) as [[f|err1] body1] eqn:Ef.
  - destruct (doStreamPoll_frame f e) as [[e1 [err1|]]|] eqn:Ea; [|..|discriminate].
    + injection E as <- <-; exists 1%nat; split; [lia|]; cbn; rewrite Ef, Ea; reflexivity.
    + destruct (IH _ _ _ _ E) as (k & Hk & Hs); exists (S k); split; [lia|]; cbn; rewrite Ef, Ea; exact Hs.
  - exists 1%nat; split; [lia|]; cbn; rewrite Ef.
    destruct err1; simplify_eq; reflexivity.
Qed.

(** ** Properties *)

Lemma cl_run_app cf evs evs' : forall x x1, cl_run cf evs x = Some x1 ->
  cl_run cf (evs ++ evs') x = cl_run cf evs' x1.
Proof.
  induction evs as [|ev evs IH]; intros x x1 E; cbn in *; [injection E as <-; reflexivity|].
  destruct (cl_step cf ev x); [auto|discriminate].
Qed.

Section Reached.
Context (c : Connector) (cr : ConnectResponse) (dialed : bool) (cf : rconf) (c0 : rconn) (evs : list cl_event).
Context (Hcon : connectResumable c cr dialed = Ok (cf, c0)) (Hval : Validate (cres_Limits cr) = None).
Context (Hevs : Forall ev_ok evs) (Hvol : evs_volume evs < 2 ^ 63).

Lemma client_reached : exists x, cl_run cf evs (new_client cf c0) = Some x /\ cl_inv (evs_volume evs) x
  /\ 0 < rf_maxFrame cf /\ 0 < rf_maxSendChunk cf.
Proof.
  destruct (connectResumable_ok _ _ _ _ _ Hcon Hval) as (Hf & Hch & Hnew).
  destruct (cl_run_inv cf Hf Hch evs 0 _ Hnew Hevs ltac:(lia)) as (x & E & Hx); eauto.
Qed.
End Reached.

(** C16: the resumable client is total.  Whatever the server and the network do
    (answers, statuses, bodies cut anywhere, frames of any content, resume
    offsets) and however the application's calls, the two legs and the
    supervisor interleave, no step panics and the byte layer keeps its
    invariant, for every negotiated transport. *)
Theorem client_is_total c cr dialed cf c0 evs :
  connectResumable c cr dialed = Ok (cf, c0) -> Validate (cres_Limits cr) = None ->
  Forall ev_ok evs -> evs_volume evs < 2 ^ 63 ->
  exists x, cl_run cf evs (new_client cf c0) = Some x /\ ep_inv (evs_volume evs) (rc_ep (cl_conn x)).
Proof.
  intros Hc Hv He HB; destruct (client_reached c cr dialed cf c0 evs Hc Hv He HB) as (x & E & Hx & _).
  exists x; split; [exact E|]; destruct Hx as [(V & Hi & HV) _ _].
  eapply ep_inv_weaken; [exact Hi|]; pose proof (sup_volume_nonneg (cl_sup x)); lia.
Qed.

(** C17: transport failures are invisible to the application.  As long as the
    supervisor has not given up, however many legs failed and resumes were
    tried, Read never reports an error or the end of the stream, neither
    failure channel is closed, and Write takes everything until Close.  When it
    has stopped, either the application closed the connection and no failure is
    signalled, or the read side is closed and exactly one of TransportFailed
    and SessionSuperseded is. *)
Theorem failures_are_invisible c cr dialed cf c0 evs x :
  connectResumable c cr dialed = Ok (cf, c0) -> Validate (cres_Limits cr) = None ->
  Forall ev_ok evs -> evs_volume evs < 2 ^ 63 -> cl_run cf evs (new_client cf c0) = Some x ->
  match cl_sup x with
  | SupOver Stopped =>
      rc_closed (cl_conn x) = true /\ rc_failed (cl_conn x) = false /\ rc_superseded (cl_conn x) = false
  | SupOver _ =>
      p_closed (ep_in (rc_ep (cl_conn x))) = true /\ rc_failed (cl_conn x) = negb (rc_superseded (cl_conn x))
  | _ =>
      rc_failed (cl_conn x) = false /\ rc_superseded (cl_conn x) = false
      /\ (forall dst, match rc_Read (cl_conn x) dst with Some (_, Fail _) => False | _ => True end)
      /\ (rc_closed (cl_conn x) = false -> forall p, (rc_Write (cl_conn x) p).2 = Ok (len p))
  end.
Proof.
  intros Hc Hv He HB E; destruct (client_reached c cr dialed cf c0 evs Hc Hv He HB) as (x' & E' & Hx & _).
  rewrite E in E'; injection E' as <-; destruct Hx as [_ Ho Hs].
  assert (Hrun : running (cl_conn x) -> rc_failed (cl_conn x) = false /\ rc_superseded (cl_conn x) = false
      /\ (forall dst, match rc_Read (cl_conn x) dst with Some (_, Fail _) => False | _ => True end)
      /\ (rc_closed (cl_conn x) = false -> forall p, (rc_Write (cl_conn x) p).2 = Ok (len p))).
  { intros [Hin Hf Hsu _]; split_and!; auto.
    - intros dst; unfold rc_Read, pipe_Read; rewrite Hin; destruct (p_buf _); exact I.
    - intros Hcl p; unfold rc_Write, pipe_Write; rewrite Hcl, Ho, Hcl.
      destruct (Z.eqb_spec (len p) 0) as [-> |]; reflexivity. }
  destruct (cl_sup x) as [before first d u|before dur dl bo|[g r| | |]]; cbn in Hs; auto.
  - apply Hrun, Hs.
  - apply Hrun, Hs.
  - destruct Hs.
  - destruct Hs as (? & -> & ->); auto.
Qed.

(** C18: a set of legs that lost one leg, or whose connection was closed, is
    joined.  The leg still running ends after the failure of the network call it
    is in and one turn, which does not wait whatever could have happened
    meanwhile (an interrupt is pending and is not lost), so runLegs returns and
    the supervisor judges; after Close it stops. *)
Theorem legs_are_joined c cr dialed cf c0 evs x before first d u duration start active :
  connectResumable c cr dialed = Ok (cf, c0) -> Validate (cres_Limits cr) = None ->
  Forall ev_ok evs -> evs_volume evs < 2 ^ 63 -> cl_run cf evs (new_client cf c0) = Some x ->
  cl_sup x = SupLegs before first d u -> rc_cancelled (cl_conn x) = true \/ first <> None ->
  exists x', (forall sched sched',
      cl_run cf (map (LegIn false) (closing sched d) ++ map (LegIn true) (closing sched' u)
                 ++ [Joined duration start active]) x = Some x')
    /\ match cl_sup x' with SupLegs _ _ _ _ => False | _ => True end
    /\ (rc_cancelled (cl_conn x) = true -> cl_sup x' = SupOver Stopped).
Proof.
  intros Hc Hv He HB E Es Hd; destruct (client_reached c cr dialed cf c0 evs Hc Hv He HB) as (x0 & E' & Hx & Hf & Hch).
  rewrite E in E'; injection E' as <-.
  assert (Hdone : rc_cancelled (cl_conn x) || bool_decide (is_Some first) = true)
    by (destruct Hd as [-> |Hne]; [reflexivity|destruct first; [apply orb_true_r|congruence]]).
  destruct (close_leg cf Hf Hch false _ _ _ _ _ _ _ eq_refl Hx HB Es Hdone)
    as (x1 & first1 & d1 & Hr1 & Hx1 & Hc1 & Es1 & Hd1 & Hf1 & Hn1); cbn in Hr1, Es1, Hn1.
  assert (Hdone1 : rc_cancelled (cl_conn x1) || bool_decide (is_Some first1) = true).
  { rewrite Hc1; destruct first; [destruct first1; [apply orb_true_r|destruct (Hf1 ltac:(discriminate) eq_refl)]|].
    destruct Hd as [-> |Hne]; [reflexivity|congruence]. }
  destruct (close_leg cf Hf Hch true _ _ _ _ _ _ _ eq_refl Hx1 HB Es1 Hdone1)
    as (x2 & first2 & u2 & Hr2 & Hx2 & Hc2 & Es2 & Hu2 & Hf2 & Hn2); cbn in Hr2, Es2, Hn2.
  assert (Hsome : exists err, first2 = Some err).
  { destruct first2 as [err|]; [eauto|exfalso].
    pose proof Hx2 as [_ _ Hs]; rewrite Es2 in Hs; destruct Hs as (_ & _ & _ & Hov).
    destruct (Hov eq_refl); congruence. }
  destruct Hsome as [err ->]; destruct d1; try discriminate; destruct u2; try discriminate.
  eexists; split.
  - intros sched sched'; rewrite (cl_run_app _ _ _ _ _ (Hr1 sched)), (cl_run_app _ _ _ _ _ (Hr2 sched')).
    cbn [cl_run cl_step]; rewrite Es2; reflexivity.
  - unfold sup_joined, rc_done; rewrite Hc2, Hc1; split.
    + repeat case_if; try exact I; destruct (recordBodyTimeout _ _ _) as [g []]; exact I.
    + intros ->; reflexivity.
Qed.

(** The client's machine refines the supervisor's loop.  At every moment of
    every run the rounds it has been through are rounds of [supervise] with the
    same guard, and when it is over it is over for the reason [supervise] gives;
    so the termination and the liveness of supervision hold of the machine. *)
Theorem client_refines_supervisor cf c0 evs x :
  cl_run cf evs (new_client cf c0) = Some x ->
  supervised (mk_guard 0 0) (ep_rl (rc_ep c0)) (cl_guard x) (cl_sup x).
Proof.
  apply run_supervised; unfold new_client; destruct (start_legs cf) as [d u]; cbn.
  exists [], (ep_rl (rc_ep c0)); auto.
Qed.

(** ** Witnesses *)

(** A session with streamed polls and batch uploads.  The application writes;
    the upload goes out but its answer is lost; the stream poll is cancelled;
    the supervisor resumes, and the application closes the connection. *)
Definition ex_connector : Connector := mk_Connector "http://server" ∅ 0 0 true "" false true 0.
Definition ex_response : ConnectResponse :=
  mk_ConnectResponse ProtocolVersion "s1" (mk_Limits 1024 1000 60000 4096 10000 60000 30000) ∅
    PollModeStream PollModeBatch "" true true.

Definition ex_rconf : rconf := mk_rconf "s1" false true false 1024 0 4096 (30 * Second).
Definition ex_rconn : rconn := mk_rc (new_endpoint 0) false false false false.

Example ex_connected : connectResumable ex_connector ex_response true = Ok (ex_rconf, ex_rconn).
Proof. reflexivity. Qed.

Definition ex_lost : list cl_event :=
  [AppWrite [Byte.x41; Byte.x42]; LegIn true InOpen; LegIn true (InTurn false [] []); LegIn true (InSent Lost)].

Definition ex_resumed : list cl_event :=
  ex_lost ++ [LegIn false (InReply (PollNone ErrCtx)); Joined 0 0 "s1";
              Attempt (mk_attempt (RReplyOK (mk_ResumeResponse true 1)) false 0 true) "s1"; AppClose].

(** After the resume the legs run again, with one byte to replay. *)
Example ex_resumed_run : exists x, cl_run ex_rconf ex_resumed (new_client ex_rconf ex_rconn) = Some x
  /\ cl_sup x = SupLegs (1, 0) None DownPolling (Opening UpBatch)
  /\ replay (ep_rl (rc_ep (cl_conn x))) = [Byte.x42].
Proof. eexists; split; [vm_compute; reflexivity|vm_compute; auto]. Qed.

Lemma ex_resumed_ok : Forall ev_ok ex_resumed.
Proof. repeat constructor; vm_compute; discriminate. Qed.

Lemma client_is_total_witness :
  exists x, cl_run ex_rconf ex_resumed (new_client ex_rconf ex_rconn) = Some x
    /\ ep_inv 2 (rc_ep (cl_conn x)).
Proof.
  apply (client_is_total ex_connector ex_response true ex_rconf ex_rconn ex_resumed);
    [reflexivity|reflexivity|exact ex_resumed_ok|reflexivity].
Defined.

Definition ex_before_close : list cl_event := take 7 ex_resumed.

Definition ex_open_client : client :=
  default (new_client ex_rconf ex_rconn) (cl_run ex_rconf ex_before_close (new_client ex_rconf ex_rconn)).

Lemma failures_are_invisible_witness :
  cl_run ex_rconf ex_before_close (new_client ex_rconf ex_rconn) = Some ex_open_client
  /\ forall p, (rc_Write (cl_conn ex_open_client) p).2 = Ok (len p).
Proof.
  assert (E : cl_run ex_rconf ex_before_close (new_client ex_rconf ex_rconn) = Some ex_open_client)
    by (vm_compute; reflexivity).
  split; [exact E|].
  pose proof (failures_are_invisible ex_connector ex_response true ex_rconf ex_rconn ex_before_close ex_open_client
                eq_refl eq_refl ltac:(repeat constructor; vm_compute; discriminate) eq_refl E) as H.
  assert (Es : cl_sup ex_open_client = SupLegs (1, 0) None DownPolling (Opening UpBatch)) by (vm_compute; reflexivity).
  rewrite Es in H; destruct H as (_ & _ & _ & H); apply H; vm_compute; reflexivity.
Defined.

Lemma legs_are_joined_witness :
  exists x x', cl_run ex_rconf ex_lost (new_client ex_rconf ex_rconn) = Some x
    /\ forall sched sched',
       cl_run ex_rconf (map (LegIn false) (closing sched DownPolling) ++ map (LegIn true) (closing sched' (LegOver (ErrNet false)))
                        ++ [Joined 0 0 "s1"]) x = Some x'.
Proof.
  eexists.
  destruct (legs_are_joined ex_connector ex_response true ex_rconf ex_rconn ex_lost _ (0, 0) (Some (ErrNet false))
              DownPolling (LegOver (ErrNet false)) 0 0 "s1" eq_refl eq_refl
              ltac:(repeat constructor) eq_refl ltac:(vm_compute; reflexivity) ltac:(vm_compute; reflexivity)
              ltac:(right; discriminate)) as (x' & Hr & _).
  exists x'; split; [vm_compute; reflexivity|exact Hr].
Defined.

Lemma client_refines_supervisor_witness :
  exists x, cl_run ex_rconf ex_resumed (new_client ex_rconf ex_rconn) = Some x
    /\ supervised (mk_guard 0 0) (newReliable 0) (cl_guard x) (cl_sup x).
Proof.
  eexists; split; [vm_compute; reflexivity|].
  apply (client_refines_supervisor ex_rconf ex_rconn ex_resumed); vm_compute; reflexivity.
Defined.
