(* ===== verification/Loops.v ===== *)
(** * Loops.v: the streamed loops of a connection without the byte layer

    Models pollLoop, pollLoopStream, sendLoopStream and doSendStream of httpConn
    (src/client.go) and connectWebSocket (src/websocket.go): how a loop goes on
    after each request and how its end is reported.  The requests themselves
    are in Plain.v and HttpConn.v.  On top of them: streams that are rolled
    over any number of times lose nothing. *)

From S2P Require Import Prelude Frame Pipe Protocol Reliable Channel Attach Session.
From S2P Require Import Connect Resume Batch Reconnect Stream Plain Poll HttpConn Legs.

(** ** The loops, one iteration at a time *)

Definition set_read (p : pipe) (c : conn_state) : conn_state :=
  mk_conn (cn_sessionID c) (cn_failed c) (cn_superseded c) (cn_cancelled c) p (cn_writePipe c).
Definition set_write (p : pipe) (c : conn_state) : conn_state :=
  mk_conn (cn_sessionID c) (cn_failed c) (cn_superseded c) (cn_cancelled c) (cn_readPipe c) (Some p).

(** The end of a loop on [err]; [shut] is whether the context was cancelled or
    Close called by then, [active] the Connector's active session. *)
Definition loop_failed (shut : bool) (active : string) (err : goerr) (c : conn_state)
    : conn_state * loop_end :=
  if shut then (c, Leave None)
  else if isSessionClosedErr err then (onSessionClosed active c, Leave (Some err))
  else (onTransportProblem active err c, Leave (Some err)).

(** [pollLoop]; [slept] is whether the pause of an idle poll was not cut short. *)
Definition pollLoop_turn (readCap pollInterval : Z) (rep : poll_reply) (shut slept : bool) (active : string)
    (c : conn_state) : conn_state * loop_end :=
  if cn_cancelled c then (c, Leave None)
  else match doPoll readCap rep (cn_readPipe c) with
       | (p, Fail err) => loop_failed shut active err (set_read p c)
       | (p, Ok gotData) =>
           if negb gotData && (0 <? pollInterval) && negb slept then (set_read p c, Leave None)
           else (set_read p c, Again)
       end.

(** [pollLoopStream]; [None] is doStreamPoll's fuel running out. *)
Definition pollLoopStream_turn (fuel : nat) (maxFrame : Z) (rep : poll_reply) (shut : bool) (active : string)
    (c : conn_state) : option (conn_state * loop_end) :=
  if cn_cancelled c then Some (c, Leave None)
  else match http_doStreamPoll fuel maxFrame rep (cn_readPipe c) with
       | None => None
       | Some (p, err) =>
           let c := set_read p c in
           Some (if bool_decide (err = errStreamEnd) then (c, Again) else loop_failed shut active err c)
       end.

(** [doSendStream]: the feeder's turns, the writes of its body, and the answer.
    [None] is a feeder that has not returned, or a connection without a write
    pipe. *)
Definition http_doSendStream (maxFrame : Z) (ins : list turn_input) (plan : list (option (nat * goerr)))
    (answer : goerr + Z) (c : conn_state) : option (conn_state * option goerr) :=
  match cn_writePipe c with
  | None => None
  | Some wp =>
      match plain_run maxFrame (http_feedSendStream_turn maxFrame) ins wp (mk_hbody (mk_writer [] plan) []) with
      | (wp, _, _, Leave feedErr) => Some (set_write wp c, doSendStream_result answer feedErr)
      | _ => None
      end
  end.

Definition sendLoopStream_turn (maxFrame : Z) (ins : list turn_input) (plan : list (option (nat * goerr)))
    (answer : goerr + Z) (shut : bool) (active : string) (c : conn_state) : option (conn_state * loop_end) :=
  if cn_cancelled c then Some (c, Leave None)
  else match http_doSendStream maxFrame ins plan answer c with
       | None => None
       | Some (c, None) => Some (c, Again)
       | Some (c, Some err) =>
           Some (if shut then (c, Leave None) else (onTransportProblem active err c, Leave (Some err)))
       end.

(** ** A connection over a WebSocket *)

(** The largest message each side reads: SetReadLimit on the client of a
    session without and with the byte layer, and on the server. *)
Definition ws_read_limit (maxFrame : Z) : Z := maxFrame + 1.
Definition ws_read_limit_resumable (maxFrame : Z) : Z := maxFrame + 1 + seqHeaderLen.

(** [connectWebSocket]; [dialed] is whether the dial succeeded.  The result is
    the connection, its frame size and its read limit. *)
Definition connectWebSocket (cr : ConnectResponse) (dialed : bool) : res (conn_state * Z * Z) :=
  if negb dialed then Fail (ErrNet false)
  else let maxFrame := orInt (PollBufferBytes (cres_Limits cr)) DefaultPollBufferSize in
       Ok (new_conn (cres_SessionID cr) true, maxFrame, ws_read_limit maxFrame).

(** ** A body whose writes succeeded *)

(** What a run of a sending loop did when none of its writes failed: all the
    frames it wrote are there, and possibly a part of a closing frame; they
    carry exactly the bytes it took. *)
Definition lossless (blen : Z) (p : pipe) (wr out : list byte) (p' : pipe) (out' : list byte) : Prop :=
  exists fs closing tail more, closing_frames closing /\ Forall (plain_frame blen) fs
    /\ out' = out ++ encode_frames fs ++ tail /\ encode_frames closing = tail ++ more
    /\ p_buf p ++ wr = frames_data fs ++ p_buf p'.

Lemma quiet_frame (b : hbody) typ : exists tail more,
  w_out (hb_writer (sink_frame b typ []).1) = w_out (hb_writer b) ++ tail
  /\ encode_frame typ [] = tail ++ more.
Proof.
  unfold sink_frame, hbody_sink, hbody_frame, writeFrame, io_write; cbn [len length Z.of_nat Z.eqb].
  assert (He : encode_frame typ [] = frame_header typ []) by apply app_nil_r.
  destruct (w_plan (hb_writer b)) as [|[[n e]|] plan]; cbn [fst hb_writer w_out]; rewrite He.
  - exists (frame_header typ []), []; rewrite app_nil_r; auto.
  - exists (take n (frame_header typ [])), (drop n (frame_header typ [])); rewrite take_drop; auto.
  - exists (frame_header typ []), []; rewrite app_nil_r; auto.
Qed.

Lemma quiet_closing (b : hbody) typ : closes_with typ ->
  exists closing tail more, closing_frames closing /\ encode_frames closing = tail ++ more
    /\ w_out (hb_writer (match typ with Some typ => (sink_frame b typ []).1 | None => b end))
       = w_out (hb_writer b) ++ tail.
Proof.
  destruct typ as [typ|]; intros Hc.
  - destruct (quiet_frame b typ) as (tail & more & Ho & He).
    exists [(typ, [])], tail, more; rewrite encode_frames_one; auto.
  - exists [], [], []; rewrite !app_nil_r; split_and!; auto; left; reflexivity.
Qed.

Lemma turn_lossless blen onEOF final expired sched p (b : hbody) p' b' stands :
  0 < blen -> closes_with onEOF -> closes_with final -> no_rival (concat sched) ->
  plain_turn onEOF None final expired blen sched p b = (p', b', stands) ->
  (forall err, stands <> Leave (Some err)) ->
  lossless blen p (accepted p (waited p blen sched)) (w_out (hb_writer b)) p' (w_out (hb_writer b'))
  /\ (stands = Again -> exists fs, Forall (plain_frame blen) fs
      /\ w_out (hb_writer b') = w_out (hb_writer b) ++ encode_frames fs
      /\ p_buf p ++ accepted p (waited p blen sched) = frames_data fs ++ p_buf p').
Proof.
  intros Hb Hon Hfin Hn E Hst; unfold plain_turn in E.
  destruct (ReadAvailable p blen sched) as [[p1 r] rest] eqn:Er.
  pose proof (read_conserves p blen sched p1 r rest Hn Er) as Hc.
  pose proof (read_bounded p blen sched p1 r rest Hb Er) as Hl.
  assert (Hcase : r = Fail EOF \/ r <> Fail EOF)
    by (destruct r as [|[]]; ((left; reflexivity) || (right; discriminate))).
  destruct Hcase as [-> | Hr].
  - injection E as <- <- <-; split; [|discriminate].
    destruct (quiet_closing b onEOF Hon) as (closing & tail & more & H1 & H2 & H3).
    exists [], closing, tail, more; split_and!; auto.
  - change (match r with Ok data => data | Fail _ => [] end) with (outcome_data r) in E.
    set (f := if negb (len (outcome_data r) =? 0) then (frameData, outcome_data r) else (frameHeartbeat, [])).
    assert (Hem : plain_emit b (outcome_data r) = sink_frame b f.1 f.2)
      by (unfold plain_emit, f; destruct (len (outcome_data r) =? 0); reflexivity).
    assert (Hf : plain_frame blen f /\ frame_data f = outcome_data r).
    { unfold f; destruct (Z.eqb_spec (len (outcome_data r)) 0) as [H0|H0]; cbn [negb].
      - apply len_zero_iff in H0; rewrite H0; repeat split; [right; reflexivity|cbn; len_lia].
      - repeat split; [left; reflexivity|exact Hl]. }
    assert (Hone : frames_data [f] = frame_data f) by apply app_nil_r.
    destruct Hf as [Hf0 Hd]; rewrite <- Hd, <- Hone in Hc; rewrite Hem in E.
    assert (Hf : Forall (plain_frame blen) [f]) by (apply Forall_singleton, Hf0).
    destruct (sink_frame b f.1 f.2) as [w1 err] eqn:Ew; pose proof (wire_law _ _ _ _ _ Ew) as [_ Ho].
    assert (Ee : err = None /\ p' = p1 /\ (stands = Again /\ b' = w1
        \/ stands = Leave None /\ b' = match final with Some typ => (sink_frame w1 typ []).1 | None => w1 end)).
    { destruct r as [d|[]]; try congruence;
        (destruct err as [err|]; [|destruct expired]; injection E as <- <- <-; auto;
         destruct (Hst _ eq_refl)). }
    destruct Ee as (-> & -> & Hb'); specialize (Ho eq_refl).
    change (w_out (hb_writer w1) = w_out (hb_writer b) ++ encode_frame (f.1, f.2).1 (f.1, f.2).2) in Ho.
    cbn [fst snd] in Ho; rewrite <- encode_frames_one in Ho.
    destruct Hb' as [[-> ->]|[-> ->]]; split; try discriminate.
    + exists [f], [], [], []; rewrite app_nil_r; split_and!; auto; left; reflexivity.
    + intros _; exists [f]; auto.
    + destruct (quiet_closing w1 final Hfin) as (closing & tail & more & H1 & H2 & H3).
      exists [f], closing, tail, more; rewrite Ho, <- app_assoc in H3; split_and!; auto.
Qed.

Lemma run_lossless blen turn ins :
  (forall expired sched p (b : hbody) p' b' stands, no_rival (concat sched) ->
    turn expired sched p b = (p', b', stands) -> (forall err, stands <> Leave (Some err)) ->
    lossless blen p (accepted p (waited p blen sched)) (w_out (hb_writer b)) p' (w_out (hb_writer b'))
    /\ (stands = Again -> exists fs, Forall (plain_frame blen) fs
        /\ w_out (hb_writer b') = w_out (hb_writer b) ++ encode_frames fs
        /\ p_buf p ++ accepted p (waited p blen sched) = frames_data fs ++ p_buf p')) ->
  forall p (b : hbody) p' b' wr stands, Forall (fun i => no_rival (concat i.2)) ins ->
  plain_run blen turn ins p b = (p', b', wr, stands) -> (forall err, stands <> Leave (Some err)) ->
  lossless blen p wr (w_out (hb_writer b)) p' (w_out (hb_writer b')).
Proof.
  intros Ht; induction ins as [|[expired sched] ins IH]; intros p b p' b' wr stands Hn E Hst; cbn [plain_run] in E.
  - injection E as <- <- <- <-; exists [], [], [], []; cbn; rewrite !app_nil_r; split_and!; auto; left; reflexivity.
  - apply Forall_cons in Hn as [Hn1 Hn].
    destruct (turn expired sched p b) as [[p1 b1] st] eqn:Et.
    assert (Hst1 : forall err, st <> Leave (Some err))
      by (intros err ->; injection E as _ _ _ <-; destruct (Hst err eq_refl)).
    destruct (Ht _ _ _ _ _ _ _ Hn1 Et Hst1) as [Hl Ha].
    destruct st as [|err|]; [|injection E as <- <- <- <-; exact Hl..].
    destruct (Ha eq_refl) as (fs1 & Hf1 & Ho1 & Hd1); cbn [snd] in Hd1.
    destruct (plain_run blen turn ins p1 b1) as [[[p2 b2] later] st] eqn:Er.
    injection E as -> -> <- ->.
    destruct (IH p1 b1 p' b' later stands Hn Er Hst) as (fs2 & cl & tail & more & H1 & H2 & H3 & H4 & H5).
    exists (fs1 ++ fs2), cl, tail, more; split_and!; auto.
    + apply Forall_app; auto.
    + rewrite H3, Ho1, encode_frames_app, <- !app_assoc; reflexivity.
    + rewrite app_assoc, Hd1, frames_data_app, <- !app_assoc, H5; reflexivity.
Qed.

(** ** Reading such a body *)

(** An initial part of a list of frames: complete frames, then a proper part of
    the next. *)
Lemma take_frames fs : forall n, (n < length (encode_frames fs))%nat ->
  exists g1 f g2 rest q, fs = g1 ++ f :: g2 /\ take n (encode_frames fs) = encode_frames g1 ++ rest
    /\ encode_frame f.1 f.2 = rest ++ q /\ q <> [].
Proof.
  induction fs as [|f fs IH]; intros n Hn; [cbn in Hn; lia|].
  rewrite encode_frames_cons in *; rewrite length_app in Hn.
  destruct (decide (length (encode_frame f.1 f.2) <= n)%nat) as [Hle|Hlt].
  - destruct (IH (n - length (encode_frame f.1 f.2))%nat ltac:(lia)) as (g1 & f' & g2 & rest & q & -> & Ht & He & Hq).
    exists (f :: g1), f', g2, rest, q; split_and!; auto.
    rewrite take_app_ge by lia; rewrite Ht, encode_frames_cons, app_assoc; reflexivity.
  - exists [], f, fs, (take n (encode_frame f.1 f.2)), (drop n (encode_frame f.1 f.2)).
    rewrite take_app_le by lia; rewrite take_drop; split_and!; auto.
    intros E; apply (f_equal length) in E; rewrite length_drop in E; cbn [length] in E; lia.
Qed.

(** A part of the closing frame carries nothing. *)
Lemma closing_stops maxPayload closing tail more t : 0 <= maxPayload -> closing_frames closing ->
  encode_frames closing = tail ++ more -> t `prefix_of` tail -> stops maxPayload t.
Proof.
  intros Hm Hc He [t' ->]; destruct (body_parts maxPayload [] closing t) as (g1 & g2 & rest & Hg & Ht & Hs); auto.
  - cbn [app]; rewrite He, <- app_assoc; apply prefix_app_r; reflexivity.
  - symmetry in Hg; apply app_eq_nil in Hg as [-> ->]; rewrite Ht; exact Hs.
Qed.

(** A read that fails in the middle of a frame, on a body that was cut off. *)
Lemma cut_error maxPayload f rest q r err :
  frame_ok maxPayload f -> encode_frame f.1 f.2 = rest ++ q -> q <> [] -> r_bytes r = rest ->
  (frame_next maxPayload r).1 = Fail err -> r_end r <> EOF -> err = r_end r.
Proof.
  intros Hok He Hq Hr E Hne; destruct f as [typ d].
  rewrite (frame_next_prefix maxPayload typ d rest q r Hok He Hq Hr) in E.
  injection E as <-; destruct (decide _); [reflexivity|]; unfold short_err.
  destruct rest; auto; rewrite bool_decide_false by exact Hne; reflexivity.
Qed.

(** The client's reader and the server's, past complete frames. *)
Lemma poll_past blen maxFrame fs : Forall (plain_frame blen) fs -> Forall (frame_ok maxFrame) fs ->
  forall fuel body rest p res, p_closed p = false -> r_bytes body = encode_frames fs ++ rest ->
  http_doStreamPoll_loop fuel maxFrame body p = Some res ->
  exists fuel' body' p', http_doStreamPoll_loop (S fuel') maxFrame body' p' = Some res
    /\ r_bytes body' = rest /\ r_end body' = r_end body
    /\ p_buf p' = p_buf p ++ frames_data fs /\ p_closed p' = false.
Proof.
  induction fs as [|f fs IH]; intros Hpl Hok fuel body rest p res Hc Hb E;
    (destruct fuel as [|fuel]; [discriminate|]).
  { exists fuel, body, p; rewrite app_nil_r; auto. }
  apply Forall_cons in Hpl as [Hp1 Hpl]; apply Forall_cons in Hok as [Ho1 Hok].
  rewrite encode_frames_cons, <- app_assoc in Hb; cbn [http_doStreamPoll_loop] in E.
  destruct (frame_next_encoded maxFrame _ _ _ _ Hb) as (r & E1 & Hr & He);
    [rewrite <- surjective_pairing; exact Ho1|].
  rewrite E1, <- surjective_pairing in E; destruct (poll_frame_plain blen f p Hp1 Hc) as (p1 & Ep & Hb1 & Hc1).
  rewrite Ep in E; destruct (IH Hpl Hok fuel r rest p1 res Hc1 Hr E) as (fuel' & b' & p' & H1 & H2 & H3 & H4 & H5).
  exists fuel', b', p'; split_and!; auto; [congruence|].
  rewrite H4, Hb1, frames_data_cons, app_assoc; reflexivity.
Qed.

Lemma upload_past blen maxSend fs : Forall (plain_frame blen) fs -> Forall (frame_ok maxSend) fs ->
  forall fuel body rest s res, s_rs s = None -> p_closed (s_toServer s) = false ->
  r_bytes body = encode_frames fs ++ rest -> pollSendStream_loop fuel maxSend false body s = Some res ->
  exists fuel' body' s', pollSendStream_loop (S fuel') maxSend false body' s' = Some res
    /\ r_bytes body' = rest /\ r_end body' = r_end body /\ s_rs s' = None
    /\ p_buf (s_toServer s') = p_buf (s_toServer s) ++ frames_data fs /\ p_closed (s_toServer s') = false.
Proof.
  induction fs as [|f fs IH]; intros Hpl Hok fuel body rest s res Hrs Hc Hb E;
    (destruct fuel as [|fuel]; [discriminate|]).
  { exists fuel, body, s; rewrite app_nil_r; auto 6. }
  apply Forall_cons in Hpl as [Hp1 Hpl]; apply Forall_cons in Hok as [Ho1 Hok].
  rewrite encode_frames_cons, <- app_assoc in Hb; cbn [pollSendStream_loop] in E.
  destruct (frame_next_encoded maxSend _ _ _ _ Hb) as (r & E1 & Hr & He);
    [rewrite <- surjective_pairing; exact Ho1|].
  rewrite E1, <- surjective_pairing in E.
  destruct (upload_frame_plain blen f s Hrs Hp1 Hc) as (s1 & Ep & _ & Hrs1 & Hc1 & Hb1).
  rewrite Ep in E; destruct (IH Hpl Hok fuel r rest s1 res Hrs1 Hc1 Hr E)
    as (fuel' & b' & s' & H1 & H2 & H3 & H4 & H5 & H6).
  exists fuel', b', s'; split_and!; auto; [congruence|].
  rewrite H5, Hb1, frames_data_cons, app_assoc; reflexivity.
Qed.

(** ** One leg *)

(** A body on its way: it may be cut off, but then its end is not a clean one
    (HTTP marks the end of a body). *)
Definition http_delivers (out : list byte) (body : reader) : Prop :=
  r_bytes body `prefix_of` out /\ (r_end body = EOF -> r_bytes body = out) /\ r_end body <> errStreamEnd.

Section Leg.
Context (blen maxPayload : Z) (Hb : 0 < blen) (Hm : blen <= maxPayload) (H32 : blen < 2 ^ 32).
Context (p p' : pipe) (wr out : list byte) (Hl : lossless blen p wr [] p' out).
Context (body : reader) (Hd : http_delivers out body).

(** What arrived: all the frames and a part of the closing one, or fewer and
    then no clean end. *)
Lemma leg_parts : exists fs rest, Forall (plain_frame blen) fs /\ Forall (frame_ok maxPayload) fs
  /\ r_bytes body = encode_frames fs ++ rest
  /\ (stops maxPayload rest /\ p_buf p ++ wr = frames_data fs ++ p_buf p'
      \/ forall r, r_bytes r = rest -> r_end r = r_end body ->
         exists err, (frame_next maxPayload r).1 = Fail err /\ err <> EOF /\ err <> errStreamEnd).
Proof.
  destruct Hl as (fs & cl & tail & more & Hcl & Hf & Ho & Hmore & Hdata); cbn [app] in Ho.
  destruct Hd as ([t Ht] & Heof & Hne).
  assert (Hok : Forall (frame_ok maxPayload) fs)
    by (eapply Forall_impl; [exact Hf|]; intros f; apply plain_frame_ok; auto).
  destruct (decide (length (encode_frames fs) <= length (r_bytes body))%nat) as [Hle|Hlt].
  - exists fs, (drop (length (encode_frames fs)) (r_bytes body)).
    assert (Hsplit : r_bytes body = encode_frames fs ++ drop (length (encode_frames fs)) (r_bytes body)).
    { rewrite <- (take_drop (length (encode_frames fs)) (r_bytes body)) at 1; f_equal.
      apply (f_equal (take (length (encode_frames fs)))) in Ho; rewrite Ht, take_app_length in Ho.
      rewrite take_app_le in Ho by exact Hle; exact Ho. }
    split_and!; auto; left; split; [|exact Hdata].
    eapply closing_stops; [lia|exact Hcl|exact Hmore|].
    rewrite Hsplit in Ht; rewrite Ho, <- app_assoc in Ht; apply app_inv_head in Ht.
    exists t; exact Ht.
  - destruct (take_frames fs (length (r_bytes body)) ltac:(lia)) as (g1 & f & g2 & rest & q & -> & Htake & He & Hq).
    assert (Hbytes : r_bytes body = encode_frames g1 ++ rest).
    { rewrite <- Htake; apply (f_equal (take (length (r_bytes body)))) in Ht.
      rewrite Ho, take_app_length, take_app_le in Ht by lia; symmetry; exact Ht. }
    apply Forall_app in Hf as [Hf _]; apply Forall_app in Hok as [Hok1 Hok2].
    apply Forall_cons in Hok2 as [Hokf _].
    exists g1, rest; split_and!; auto; right; intros r Hr Hend.
    assert (Hnoteof : r_end body <> EOF).
    { intros Eo; specialize (Heof Eo); rewrite Heof, Ho, length_app in Hlt; lia. }
    destruct f as [typ d]; pose proof (frame_next_prefix maxPayload typ d rest q r Hokf He Hq Hr) as En.
    eexists; split; [exact En|].
    rewrite (cut_error maxPayload (typ, d) rest q r _ Hokf He Hq Hr En ltac:(congruence)), Hend; auto.
Qed.

(** The download: a poll that ended cleanly has brought everything. *)
Lemma poll_leg fuel dst dst' : p_closed dst = false ->
  http_doStreamPoll fuel maxPayload (PollBody body) dst = Some (dst', errStreamEnd) ->
  exists got, p_buf dst' = p_buf dst ++ got /\ p_closed dst' = false /\ p_buf p ++ wr = got ++ p_buf p'.
Proof.
  intros Hc E; destruct leg_parts as (fs & rest & Hf & Hok & Hby & Hst); cbn [http_doStreamPoll] in E.
  destruct (poll_past blen maxPayload fs Hf Hok fuel body rest dst _ Hc Hby E)
    as (fuel' & b' & d1 & E1 & Hr & He & Hb1 & Hc1); cbn [http_doStreamPoll_loop] in E1.
  destruct Hst as [[Hst Hdata]|Hcut].
  - exists (frames_data fs).
    assert (dst' = d1) as ->; [|auto].
    destruct (Hst b' Hr) as [[err En]|(typ & r' & En & Ht)].
    + destruct (frame_next maxPayload b') as [x rb]; cbn in En; subst x; destruct err; simplify_eq; auto.
    + rewrite En in E1; destruct Ht as [-> | ->];
        [change (http_doStreamPoll_frame (frameEnd, []) d1) with (d1, Some errStreamEnd) in E1
        |change (http_doStreamPoll_frame (frameGone, []) d1) with (d1, Some errSessionGone) in E1];
        cbv beta iota in E1; simplify_eq; auto.
  - destruct (Hcut b' Hr He) as (err & En & Hne & Hne').
    destruct (frame_next maxPayload b') as [x rb]; cbn in En; subst x; destruct err; simplify_eq; congruence.
Qed.

(** The upload: a request answered 200 has brought everything. *)
Lemma upload_leg fuel s s' : s_rs s = None -> p_closed (s_toServer s) = false ->
  pollSendStream fuel maxPayload false true body s = Some (s', Some StatusOK) ->
  exists got, p_buf (s_toServer s') = p_buf (s_toServer s) ++ got /\ p_closed (s_toServer s') = false
    /\ s_rs s' = None /\ p_buf p ++ wr = got ++ p_buf p'.
Proof.
  intros Hrs Hc E; destruct leg_parts as (fs & rest & Hf & Hok & Hby & Hst).
  unfold pollSendStream in E; rewrite Hrs in E; cbn [andb negb] in E.
  destruct (upload_past blen maxPayload fs Hf Hok fuel body rest s _ Hrs Hc Hby E)
    as (fuel' & b' & s1 & E1 & Hr & He & Hrs1 & Hb1 & Hc1); cbn [pollSendStream_loop] in E1.
  destruct Hst as [[Hst Hdata]|Hcut].
  - exists (frames_data fs).
    assert (s' = s1) as ->; [|auto].
    destruct (Hst b' Hr) as [[err En]|(typ & r' & En & Ht)].
    + destruct (frame_next maxPayload b') as [x rb]; cbn in En; subst x; destruct err; simplify_eq; auto.
    + rewrite En in E1; destruct Ht as [-> | ->];
        [change (pollSendStream_frame false (frameEnd, []) s1) with (Some (s1, Some StatusOK)) in E1
        |change (pollSendStream_frame false (frameGone, []) s1) with (Some (s1, Some StatusBadRequest)) in E1];
        cbv beta iota in E1; simplify_eq; auto.
  - destruct (Hcut b' Hr He) as (err & En & Hne & Hne').
    destruct (frame_next maxPayload b') as [x rb]; cbn in En; subst x; destruct err; simplify_eq; congruence.
Qed.
End Leg.

(** ** A leg whose last write failed *)

Lemma turn_torn blen onEOF final expired sched p (b : hbody) p' b' err :
  0 < blen -> no_rival (concat sched) ->
  plain_turn onEOF None final expired blen sched p b = (p', b', Leave (Some err)) ->
  exists f, plain_frame blen f /\ w_out (hb_writer b') `prefix_of` w_out (hb_writer b) ++ encode_frames [f].
Proof.
  intros Hb Hn E; unfold plain_turn in E.
  destruct (ReadAvailable p blen sched) as [[p1 r] rest] eqn:Er.
  pose proof (read_bounded p blen sched p1 r rest Hb Er) as Hl.
  assert (Hem : exists w1, plain_emit b (outcome_data r) = (w1, Some err) /\ b' = w1).
  { change (match r with Ok data => data | Fail _ => [] end) with (outcome_data r) in E.
    destruct (plain_emit b (outcome_data r)) as [w1 [e|]]; destruct r as [d|[]]; simplify_eq; eauto;
      destruct expired; discriminate. }
  destruct Hem as (w1 & Hem & ->); unfold plain_emit in Hem.
  destruct (negb (len (outcome_data r) =? 0)); apply wire_law in Hem as [Hp _];
    (eexists; split; [|rewrite encode_frames_one; exact Hp]); split; cbn [fst snd]; auto; cbn; len_lia.
Qed.

Lemma run_torn blen turn ins :
  (forall expired sched p (b : hbody) p' b' err, no_rival (concat sched) ->
    turn expired sched p b = (p', b', Leave (Some err)) ->
    exists f, plain_frame blen f /\ w_out (hb_writer b') `prefix_of` w_out (hb_writer b) ++ encode_frames [f]) ->
  (forall expired sched p (b : hbody) p' b', no_rival (concat sched) -> turn expired sched p b = (p', b', Again) ->
    exists fs, Forall (plain_frame blen) fs /\ w_out (hb_writer b') = w_out (hb_writer b) ++ encode_frames fs) ->
  forall p (b : hbody) p' b' wr err, Forall (fun i => no_rival (concat i.2)) ins ->
  plain_run blen turn ins p b = (p', b', wr, Leave (Some err)) ->
  exists fs, Forall (plain_frame blen) fs /\ w_out (hb_writer b') `prefix_of` w_out (hb_writer b) ++ encode_frames fs.
Proof.
  intros Ht Ha; induction ins as [|[expired sched] ins IH]; intros p b p' b' wr err Hn E; cbn [plain_run] in E;
    [discriminate|].
  apply Forall_cons in Hn as [Hn1 Hn]; destruct (turn expired sched p b) as [[p1 b1] st] eqn:Et.
  destruct st as [|o|]; [|..|discriminate].
  - destruct (Ha _ _ _ _ _ _ Hn1 Et) as (fs1 & Hf1 & Ho1).
    destruct (plain_run blen turn ins p1 b1) as [[[p2 b2] later] st] eqn:Er; injection E as -> -> _ ->.
    destruct (IH _ _ _ _ _ _ Hn Er) as (fs2 & Hf2 & Ho2).
    exists (fs1 ++ fs2); rewrite encode_frames_app, app_assoc, <- Ho1; split; [apply Forall_app; auto|exact Ho2].
  - injection E as <- <- _ ->; destruct (Ht _ _ _ _ _ _ _ Hn1 Et) as (f & Hf & Ho).
    exists [f]; split; [apply Forall_singleton, Hf|exact Ho].
Qed.

Lemma torn_poll blen maxPayload fs body fuel dst dst' err :
  blen <= maxPayload -> blen < 2 ^ 32 -> Forall (plain_frame blen) fs -> p_closed dst = false ->
  r_bytes body `prefix_of` encode_frames fs -> r_end body <> EOF -> r_end body <> errStreamEnd ->
  http_doStreamPoll fuel maxPayload (PollBody body) dst = Some (dst', err) -> err <> errStreamEnd.
Proof.
  intros Hm H32 Hf Hc [t Ht] Heof Hend E; cbn [http_doStreamPoll] in E.
  assert (Hok : Forall (frame_ok maxPayload) fs)
    by (eapply Forall_impl; [exact Hf|]; intros f; apply plain_frame_ok; auto).
  assert (Hparts : exists g rest, Forall (plain_frame blen) g /\ Forall (frame_ok maxPayload) g
    /\ r_bytes body = encode_frames g ++ rest
    /\ forall r, r_bytes r = rest -> r_end r = r_end body -> (frame_next maxPayload r).1 = Fail (r_end body)).
  { destruct (decide (length (encode_frames fs) <= length (r_bytes body))%nat) as [Hle|Hlt].
    - exists fs, []; rewrite app_nil_r; split_and!; auto.
      + apply (f_equal length) in Ht as Hlen; rewrite length_app in Hlen.
        destruct t; [rewrite app_nil_r in Ht; auto|cbn in Hlen; lia].
      + intros r Hr He; rewrite frame_next_at_end, He; auto.
    - destruct (take_frames fs (length (r_bytes body)) ltac:(lia)) as (g1 & [typ d] & g2 & rest & q & -> & Htk & He & Hq).
      rewrite Ht, take_app_length in Htk; apply Forall_app in Hf as [Hf _]; apply Forall_app in Hok as [Hok1 Hok2].
      apply Forall_cons in Hok2 as [Hokf _]; exists g1, rest; split_and!; auto; intros r Hr Hre.
      pose proof (frame_next_prefix maxPayload typ d rest q r Hokf He Hq Hr) as En.
      rewrite En; f_equal; rewrite <- Hre; eapply (cut_error maxPayload (typ, d)); eauto; congruence. }
  destruct Hparts as (g & rest & Hg & Hgok & Hby & Hnext).
  destruct (poll_past blen maxPayload g Hg Hgok fuel body rest dst _ Hc Hby E)
    as (fuel' & b' & d1 & E1 & Hr & He & _); cbn [http_doStreamPoll_loop] in E1.
  specialize (Hnext b' Hr He); destruct (frame_next maxPayload b') as [x rb]; cbn in Hnext; subst x.
  destruct (r_end body); simplify_eq; congruence.
Qed.

(** ** Legs one after the other *)

(** A stream poll after another, each served by a run of the server's
    pollStream on the session's outbound pipe, as long as the client's loop
    goes on: the pipe, the connection, and what the application wrote
    meanwhile. *)
Inductive rolled_download (blen maxFrame : Z) : pipe -> conn_state -> list byte -> pipe -> conn_state -> Prop :=
| rd_none p c : rolled_download blen maxFrame p c [] p c
| rd_leg p c ins plan p1 b wr stands body fuel shut active c1 wr' p2 c2 :
    Forall (fun i => no_rival (concat i.2)) ins ->
    plain_run blen (pollStream_turn blen false) ins p (mk_hbody (mk_writer [] plan) []) = (p1, b, wr, stands) ->
    http_delivers (w_out (hb_writer b)) body ->
    (r_end body = EOF -> forall err, stands <> Leave (Some err)) ->
    pollLoopStream_turn fuel maxFrame (PollBody body) shut active c = Some (c1, Again) ->
    rolled_download blen maxFrame p1 c1 wr' p2 c2 -> rolled_download blen maxFrame p c (wr ++ wr') p2 c2.

(** One send-stream request after another, each answered 200 by the server. *)
Inductive rolled_upload (maxFrame maxSend : Z) : conn_state -> session -> list byte -> conn_state -> session -> Prop :=
| ru_none c s : rolled_upload maxFrame maxSend c s [] c s
| ru_leg c s wp ins plan wp1 b wr stands body fuel s1 shut active c1 wr' c2 s2 :
    Forall (fun i => no_rival (concat i.2)) ins -> cn_writePipe c = Some wp ->
    plain_run maxFrame (http_feedSendStream_turn maxFrame) ins wp (mk_hbody (mk_writer [] plan) [])
    = (wp1, b, wr, stands) ->
    http_delivers (w_out (hb_writer b)) body ->
    pollSendStream fuel maxSend false true body s = Some (s1, Some StatusOK) ->
    sendLoopStream_turn maxFrame ins plan (inr StatusOK) shut active c = Some (c1, Again) ->
    rolled_upload maxFrame maxSend c1 s1 wr' c2 s2 -> rolled_upload maxFrame maxSend c s (wr ++ wr') c2 s2.

Definition write_buf (c : conn_state) : list byte :=
  match cn_writePipe c with Some wp => p_buf wp | None => [] end.

Lemma download_leg blen maxFrame ins plan p p1 b wr stands body fuel shut active c c1 :
  0 < blen -> blen <= maxFrame -> blen < 2 ^ 32 -> Forall (fun i => no_rival (concat i.2)) ins ->
  plain_run blen (pollStream_turn blen false) ins p (mk_hbody (mk_writer [] plan) []) = (p1, b, wr, stands) ->
  http_delivers (w_out (hb_writer b)) body -> (r_end body = EOF -> forall err, stands <> Leave (Some err)) ->
  pollLoopStream_turn fuel maxFrame (PollBody body) shut active c = Some (c1, Again) ->
  p_closed (cn_readPipe c) = false ->
  exists got, p_buf (cn_readPipe c1) = p_buf (cn_readPipe c) ++ got /\ p_closed (cn_readPipe c1) = false
    /\ p_buf p ++ wr = got ++ p_buf p1.
Proof.
  intros Hb Hm H32 Hn Erun Hd Hclean Eturn Hc.
  assert (Hend : closes_with (Some frameEnd) /\ closes_with (Some frameGone))
    by (split; cbn; unfold closing_frames; auto).
  unfold pollLoopStream_turn in Eturn; destruct (cn_cancelled c); [discriminate|].
  destruct (http_doStreamPoll fuel maxFrame (PollBody body) (cn_readPipe c)) as [[dst err]|] eqn:Ep; [|discriminate].
  case_bool_decide as Herr; [|unfold loop_failed in Eturn; repeat case_match; discriminate].
  injection Eturn as <-; subst err; cbn [set_read cn_readPipe].
  assert (Hst : (exists err, stands = Leave (Some err)) \/ forall err, stands <> Leave (Some err))
    by (destruct stands as [|[]|]; eauto; right; discriminate).
  destruct Hst as [[err ->]|Hst].
  - exfalso; destruct Hd as (Hpre & _ & Hne).
    destruct (run_torn blen (pollStream_turn blen false) ins) with (4 := Erun) as (fs & Hf & Ho); auto.
    { intros; eapply turn_torn; eauto. }
    { intros expired sched q b0 q' b1 Hq Eq.
      destruct (turn_lossless blen _ _ _ _ _ _ _ _ _ Hb (proj2 Hend) (proj1 Hend) Hq Eq ltac:(discriminate))
        as [_ Ha]; destruct (Ha eq_refl) as (fs & H1 & H2 & _); eauto. }
    eapply torn_poll; [exact Hm|exact H32|exact Hf|exact Hc| | |exact Hne|exact Ep|reflexivity].
    + etrans; [exact Hpre|exact Ho].
    + intros He; destruct (Hclean He err eq_refl).
  - eapply (poll_leg blen maxFrame Hb Hm H32 p p1 wr (w_out (hb_writer b)));
      [|exact Hd|exact Hc|exact Ep].
    change (@nil byte) with (w_out (hb_writer (mk_hbody (mk_writer [] plan) []))).
    eapply run_lossless; [|exact Hn|exact Erun|exact Hst].
    intros; eapply turn_lossless; eauto; apply Hend.
Qed.

Lemma upload_leg_turn maxFrame maxSend ins plan wp wp1 b wr stands body fuel s s1 shut active c c1 :
  0 < maxFrame -> maxFrame <= maxSend -> maxFrame < 2 ^ 32 -> Forall (fun i => no_rival (concat i.2)) ins ->
  cn_writePipe c = Some wp ->
  plain_run maxFrame (http_feedSendStream_turn maxFrame) ins wp (mk_hbody (mk_writer [] plan) []) = (wp1, b, wr, stands) ->
  http_delivers (w_out (hb_writer b)) body ->
  pollSendStream fuel maxSend false true body s = Some (s1, Some StatusOK) ->
  sendLoopStream_turn maxFrame ins plan (inr StatusOK) shut active c = Some (c1, Again) ->
  s_rs s = None -> p_closed (s_toServer s) = false ->
  exists got, p_buf (s_toServer s1) = p_buf (s_toServer s) ++ got /\ p_closed (s_toServer s1) = false
    /\ s_rs s1 = None /\ cn_writePipe c1 = Some wp1 /\ p_buf wp ++ wr = got ++ p_buf wp1.
Proof.
  intros Hb Hm H32 Hn Hwp Erun Hd Eup Eturn Hrs Hc.
  assert (Hend : closes_with (Some frameEnd)) by (cbn; unfold closing_frames; auto).
  unfold sendLoopStream_turn, http_doSendStream in Eturn; destruct (cn_cancelled c); [discriminate|].
  rewrite Hwp, Erun in Eturn; destruct stands as [|o|]; try discriminate; cbn in Eturn.
  destruct o as [err|]; [destruct shut; discriminate|]; injection Eturn as <-.
  destruct (upload_leg maxFrame maxSend Hb Hm H32 wp wp1 wr (w_out (hb_writer b))) with (2 := Hd) (5 := Eup)
    as (got & H1 & H2 & H3 & H4); auto.
  - change (@nil byte) with (w_out (hb_writer (mk_hbody (mk_writer [] plan) []))).
    eapply run_lossless; [|exact Hn|exact Erun|discriminate].
    intros; eapply turn_lossless; eauto.
  - exists got; auto.
Qed.

(** ** The sizes of frames *)

Lemma nextOut_bounded e blen sched e' off d rest :
  0 < blen -> nextOut e blen sched = Some (e', Ok (off, d), rest) -> len d <= blen.
Proof.
  intros Hb E; unfold nextOut in E; destruct (has_pending (ep_rl e)).
  - unfold pending_out in E; repeat case_match; simplify_eq; rewrite len_copied; lia.
  - destruct (ReadAvailable (ep_out e) blen sched) as [[out r] rest'] eqn:Er.
    pose proof (read_bounded _ _ _ _ _ _ Hb Er) as Hl.
    destruct r as [[|x l]|]; [| |discriminate].
    + injection E as _ _ <- _; change (len (@nil byte)) with 0; lia.
    + destruct (number_out (ep_rl e) (x :: l)); injection E as _ _ <- _; exact Hl.
Qed.

(** A property of the sink that the frames of a sending loop preserve. *)
Section Preserved.
Context {W : Type} {sink : FrameSink W} (P : W -> Prop) (blen : Z) (Hblen : 0 < blen).
Context (Hempty : forall w typ, P w -> P (sink_frame w typ []).1)
        (Hack : forall w n, P w -> P (sink_frame w frameAck (encodeOffset n)).1)
        (Hdata : forall w d, P w -> len d <= blen -> P (sink_frame w frameData d).1)
        (Hseq : forall w off d, P w -> len d <= blen -> P (sink_seq w off d).1).

Lemma emit_preserves e w off data intr e' w' err :
  P w -> len data <= blen -> emit e w off data intr = (e', w', err) -> P w'.
Proof.
  intros Hw Hl E; unfold emit in E; destruct (takeAck (ep_rl e)) as [rl due].
  assert (H1 : P (match due with Some ack => sink_frame w frameAck (encodeOffset ack) | None => (w, None) end).1)
    by (destruct due; [apply Hack, Hw|exact Hw]).
  destruct (match due with Some ack => _ | None => _ end) as [w1 [err1|]]; cbn in H1; [simplify_eq; exact H1|].
  assert (H2 : P (if negb (len data =? 0) then sink_seq w1 off data
                  else if negb intr then sink_frame w1 frameHeartbeat [] else (w1, None)).1)
    by (repeat case_if; auto).
  destruct (if negb (len data =? 0) then _ else _) as [w2 err2]; simplify_eq; exact H2.
Qed.

Lemma send_turn_preserves onEOF eofErr intr final expired sched e w e' w' st :
  P w -> send_turn onEOF eofErr intr final expired blen sched e w = (e', w', st) -> P w'.
Proof.
  intros Hw E; unfold send_turn in E.
  destruct (nextOut e blen sched) as [[[e1 r] rest]|] eqn:En; [|simplify_eq; exact Hw].
  assert (Hquiet : forall w typ, P w -> P match typ with Some typ => (sink_frame w typ []).1 | None => w end)
    by (intros ? [typ|]; auto).
  assert (Hgo : forall off data b, len data <= blen ->
    (let '(e, w, err) := emit e1 w off data b in
     match err with
     | Some err => (e, w, Leave (Some err))
     | None => if expired then (e, match final with Some typ => (sink_frame w typ []).1 | None => w end,
                                Leave None) else (e, w, Again)
     end) = (e', w', st) -> P w').
  { intros off data b Hl Ee; destruct (emit e1 w off data b) as [[e2 w2] err] eqn:Em.
    pose proof (emit_preserves _ _ _ _ _ _ _ _ Hw Hl Em).
    destruct err as [err|]; [|destruct expired]; simplify_eq; auto. }
  assert (H0 : len (@nil byte) <= blen) by (change (len (@nil byte)) with 0; lia).
  destruct r as [[off d]|err]; [eapply Hgo; [eapply nextOut_bounded; eauto|exact E]|].
  destruct err; try (eapply Hgo; eassumption); [simplify_eq; auto|].
  destruct intr as [o|]; [simplify_eq; auto|eapply Hgo; eassumption].
Qed.

Lemma plain_turn_preserves onEOF eofErr final expired sched p w p' w' st :
  P w -> plain_turn onEOF eofErr final expired blen sched p w = (p', w', st) -> P w'.
Proof.
  intros Hw E; unfold plain_turn in E.
  destruct (ReadAvailable p blen sched) as [[p1 r] rest] eqn:Er.
  pose proof (read_bounded p blen sched p1 r rest Hblen Er) as Hl.
  assert (Hquiet : forall w typ, P w -> P match typ with Some typ => (sink_frame w typ []).1 | None => w end)
    by (intros ? [typ|]; auto).
  assert (He : P (plain_emit w (outcome_data r)).1) by (unfold plain_emit; case_if; auto).
  change (match r with Ok data => data | Fail _ => [] end) with (outcome_data r) in E.
  destruct (plain_emit w (outcome_data r)) as [w1 err]; cbn [fst] in He.
  destruct r as [d|[]]; try (destruct err as [err|]; [|destruct expired]); simplify_eq; auto.
Qed.
End Preserved.

(** ** Properties *)

(** C25: a rollover loses nothing.  A streamed poll, and an upload stream, of a
    session without the byte layer is ended and opened again any number of
    times; as long as the loop goes on, and given that HTTP marks the end of a
    body, the receiving pipe has gained exactly what was taken from the sending
    pipe, in order: nothing is lost or repeated between one leg and the next,
    wherever a write failed or a body was cut off. *)
Theorem rollover_loses_nothing blen maxPayload p c wr p' c' cu s wu cu' s' :
  0 < blen -> blen <= maxPayload -> blen < 2 ^ 32 ->
  p_closed (cn_readPipe c) = false -> s_rs s = None -> p_closed (s_toServer s) = false ->
  (rolled_download blen maxPayload p c wr p' c' ->
   exists got, p_buf (cn_readPipe c') = p_buf (cn_readPipe c) ++ got /\ p_buf p ++ wr = got ++ p_buf p')
  /\ (rolled_upload blen maxPayload cu s wu cu' s' ->
      exists got, p_buf (s_toServer s') = p_buf (s_toServer s) ++ got /\ write_buf cu ++ wu = got ++ write_buf cu').
Proof.
  intros Hb Hm H32 Hc Hrs Hcs; split.
  - intros H; revert Hc; induction H as [p c|p c ins plan p1 b wr stands body fuel shut active c1 wr' p2 c2 Hn E Hd Hcl Et _ IH];
      intros Hc; [exists []; rewrite !app_nil_r; auto|].
    destruct (download_leg _ _ _ _ _ _ _ _ _ _ _ _ _ _ _ Hb Hm H32 Hn E Hd Hcl Et Hc) as (got & H1 & H2 & H3).
    destruct (IH H2) as (got' & H4 & H5); exists (got ++ got'); split.
    + rewrite H4, H1, app_assoc; reflexivity.
    + rewrite app_assoc, H3, <- !app_assoc, H5; reflexivity.
  - intros H; revert Hrs Hcs;
      induction H as [c0 s0|c0 s0 wp ins plan wp1 b wr0 stands body fuel s1 shut active c1 wr' c2 s2 Hn Hwp E Hd Eup Et _ IH];
      intros Hrs Hcs; [exists []; rewrite !app_nil_r; auto|].
    destruct (upload_leg_turn _ _ _ _ _ _ _ _ _ _ _ _ _ _ _ _ _ Hb Hm H32 Hn Hwp E Hd Eup Et Hrs Hcs)
      as (got & H1 & H2 & H3 & H4 & H5).
    destruct (IH H3 H2) as (got' & H6 & H7); exists (got ++ got'); split.
    + rewrite H6, H1, app_assoc; reflexivity.
    + unfold write_buf in *; rewrite Hwp, H4 in *; rewrite app_assoc, H5, <- !app_assoc, H7; reflexivity.
Qed.

(** The frames and the messages a turn adds. *)
Definition adds_frames (ok : frameType * list byte -> Prop) (b b' : hbody) : Prop :=
  exists fs, hb_frames b' = hb_frames b ++ fs /\ Forall ok fs.
Definition adds_msgs (limit : Z) (c c' : wsocket) : Prop :=
  exists ms, ws_msgs c' = ws_msgs c ++ ms /\ Forall (fun m => len m <= limit) ms.

Lemma adds_frames_refl ok b : adds_frames ok b b.
Proof. exists []; rewrite app_nil_r; auto. Qed.

Lemma adds_frame ok b0 b typ d : adds_frames ok b0 b -> ok (typ, d) -> adds_frames ok b0 (sink_frame b typ d).1.
Proof.
  intros (fs & Hfs & Hok) Hd; unfold sink_frame, hbody_sink, hbody_frame.
  destruct (writeFrame (hb_writer b) typ d) as [w [err|]]; cbn [fst hb_frames]; [exists fs; auto|].
  exists (fs ++ [(typ, d)]); cbn; rewrite Hfs, app_assoc; split; [reflexivity|].
  apply Forall_app; auto.
Qed.

Lemma adds_seq ok b0 b off d : adds_frames ok b0 b -> ok (frameSeqData, be_put 8 off ++ d) ->
  adds_frames ok b0 (sink_seq b off d).1.
Proof.
  intros (fs & Hfs & Hok) Hd; unfold sink_seq, hbody_sink, hbody_seq.
  destruct (writeSeqFrame (hb_writer b) off d) as [w [err|]]; cbn [fst hb_frames]; [exists fs; auto|].
  exists (fs ++ [(frameSeqData, be_put 8 off ++ d)]); cbn [hb_frames]; rewrite Hfs, app_assoc; split; [reflexivity|].
  apply Forall_app; auto.
Qed.

Lemma adds_msg limit c0 c msg : adds_msgs limit c0 c -> len msg <= limit -> adds_msgs limit c0 (ws_write c msg).1.
Proof.
  intros (ms & Hms & Hok) Hm; unfold ws_write; destruct (ws_plan c) as [|[e|] plan]; cbn [fst ws_msgs];
    [|exists ms; auto|]; exists (ms ++ [msg]); cbn; rewrite Hms, app_assoc; (split; [reflexivity|]);
    apply Forall_app; auto.
Qed.

(** Frames of at most [size] bytes of data pass a reader of that size. *)
Lemma small_frames size : 0 < size -> size + seqHeaderLen < 2 ^ 32 ->
  (forall typ, frame_ok size (typ, [])) /\ (forall n, frame_ok size (frameAck, encodeOffset n))
  /\ (forall d, len d <= size -> frame_ok size (frameData, d))
  /\ (forall off d, len d <= size -> frame_ok size (frameSeqData, be_put 8 off ++ d)).
Proof.
  unfold seqHeaderLen; intros Hpos H32; split_and!.
  - intros typ; split; cbn [fst snd]; change (len (@nil byte)) with 0; [lia|].
    unfold frame_bound; repeat case_if; unfold seqHeaderLen; try lia; rewrite i64_id; unfold is_i64; lia.
  - intros n; assert (len (encodeOffset n) = 8) by apply len_be_put.
    split; cbn [fst snd]; [lia|]; unfold frame_bound.
    rewrite bool_decide_false, bool_decide_true by (reflexivity || discriminate); unfold seqHeaderLen; lia.
  - intros d Hd; split; cbn [fst snd]; [lia|]; unfold frame_bound; rewrite !bool_decide_false by discriminate; lia.
  - intros off d Hd; assert (len (be_put 8 off ++ d) = 8 + len d) as Hl by (rewrite len_app, len_be_put; reflexivity).
    split; cbn [fst snd]; rewrite Hl; [lia|]; unfold frame_bound; rewrite bool_decide_true by reflexivity.
    rewrite i64_id by (unfold is_i64, seqHeaderLen; lia); unfold seqHeaderLen; lia.
Qed.

(** Their encodings as messages. *)
Lemma small_messages : (forall typ, len (wsEncode typ []) = 1) /\ (forall n, len (wsEncode frameAck (encodeOffset n)) = 9)
  /\ (forall d, len (wsEncode frameData d) = len d + 1) /\ (forall off d, len (wsEncodeSeq off d) = len d + 9).
Proof.
  split_and!; intros; unfold wsEncode, wsEncodeSeq; rewrite len_cons, ?len_app, ?len_be_put; try lia; [reflexivity|].
  assert (len (encodeOffset n) = 8) by apply len_be_put; lia.
Qed.

(** C26: what the server sends down fits what the client reads.  For every
    configuration, the client sizes its readers by the poll_buffer_bytes the
    server announces, and no frame of a streamed poll and no message of a
    WebSocket, numbered or not, acknowledgements included, is larger than the
    client's bound for it. *)
Theorem downstream_frames_fit cfg0 mode resumable ctxDone expired a att sched e b p c :
  let cfg := withDefaults cfg0 in
  let size := cfg_PollBufferSize cfg in
  let maxFrame := streamMaxFrame (limits cfg mode resumable) in
  size + seqHeaderLen < 2 ^ 32 ->
  adds_frames (frame_ok maxFrame) b (pollStreamResumable_turn size ctxDone expired a att sched e b).1.2
  /\ adds_frames (frame_ok maxFrame) b (pollStream_turn size ctxDone expired sched p b).1.2
  /\ adds_msgs (ws_read_limit_resumable maxFrame) c (wsWritePumpResumable_turn size ctxDone a att sched e c).1.2
  /\ adds_msgs (ws_read_limit maxFrame) c (wsWritePump_turn size sched p c).1.2.
Proof.
  intros cfg size maxFrame H32; destruct (withDefaults_sizes cfg0 mode resumable) as [_ Hsize].
  assert (Hmf : maxFrame = size) by exact Hsize; rewrite Hmf; clear maxFrame Hmf Hsize.
  assert (Hpos : 0 < size) by (unfold size, cfg, withDefaults, orInt; cbn;
      destruct (Z.leb_spec (cfg_PollBufferSize cfg0) 0); [reflexivity|assumption]).
  destruct (small_frames size Hpos H32) as (Hempty & Hack & Hdata & Hseq).
  destruct small_messages as (Mempty & Mack & Mdata & Mseq).
  split_and!.
  - unfold pollStreamResumable_turn; destruct ctxDone; [apply adds_frames_refl|].
    destruct (send_turn _ _ _ _ _ _ _ _ _) as [[e' b'] st] eqn:E; cbn [fst snd].
    eapply (send_turn_preserves (adds_frames (frame_ok size) b)); [exact Hpos|..|exact E];
      auto using adds_frame, adds_seq, adds_frames_refl.
  - unfold pollStream_turn; destruct ctxDone; [apply adds_frames_refl|].
    destruct (plain_turn _ _ _ _ _ _ _ _) as [[p' b'] st] eqn:E; cbn [fst snd].
    eapply (plain_turn_preserves (adds_frames (frame_ok size) b)); [exact Hpos|..|exact E];
      auto using adds_frame, adds_frames_refl.
  - unfold wsWritePumpResumable_turn, ws_read_limit_resumable, seqHeaderLen.
    destruct (send_turn _ _ _ _ _ _ _ _ _) as [[e' c'] st] eqn:E; cbn [fst snd].
    eapply (send_turn_preserves (adds_msgs (size + 1 + 8) c)); [exact Hpos|..|exact E].
    + intros w typ Hw; apply adds_msg; [exact Hw|]; rewrite Mempty; lia.
    + intros w n Hw; apply adds_msg; [exact Hw|]; rewrite Mack; lia.
    + intros w off d Hw Hd; apply adds_msg; [exact Hw|]; rewrite Mseq; lia.
    + exists []; rewrite app_nil_r; auto.
  - unfold wsWritePump_turn, ws_read_limit.
    destruct (plain_turn _ _ _ _ _ _ _ _) as [[p' c'] st] eqn:E; cbn [fst snd].
    eapply (plain_turn_preserves (adds_msgs (size + 1) c)); [exact Hpos|..|exact E].
    + intros w typ Hw; apply adds_msg; [exact Hw|]; rewrite Mempty; lia.
    + intros w d Hw Hd; apply adds_msg; [exact Hw|]; rewrite Mdata; lia.
    + exists []; rewrite app_nil_r; auto.
Qed.

(** ** Witnesses *)

Definition ex_loop_conn : conn_state := new_conn "s1" true.
Definition ex_leg_in : list turn_input := [(false, []); (true, [[EvWrite [Byte.x44]]])].

(** A stream poll that takes what is there and what is written meanwhile, and
    is rolled over. *)
Definition ex_leg := plain_run 2 (pollStream_turn 2 false) ex_leg_in ex_src (mk_hbody (mk_writer [] []) []).
Definition ex_leg_body : reader := mk_reader [w_out (hb_writer ex_leg.1.1.2)] EOF.
Definition ex_after : conn_state :=
  match pollLoopStream_turn 4 16 (PollBody ex_leg_body) false "s1" ex_loop_conn with
  | Some (c, _) => c
  | None => ex_loop_conn
  end.

Lemma ex_rolled : rolled_download 2 16 ex_src ex_loop_conn (ex_leg.1.2 ++ []) ex_leg.1.1.1 ex_after.
Proof.
  apply (rd_leg 2 16 _ _ ex_leg_in [] ex_leg.1.1.1 ex_leg.1.1.2 _ ex_leg.2 ex_leg_body 4 false "s1" ex_after).
  - repeat constructor.
  - vm_compute; reflexivity.
  - assert (Hwhole : r_bytes ex_leg_body = w_out (hb_writer ex_leg.1.1.2)) by apply app_nil_r.
    split_and!; [rewrite Hwhole; reflexivity|auto|discriminate].
  - intros _ err; vm_compute; discriminate.
  - vm_compute; reflexivity.
  - constructor.
Defined.

Lemma rollover_loses_nothing_witness :
  exists got, p_buf (cn_readPipe ex_after) = [] ++ got
    /\ [Byte.x41; Byte.x42; Byte.x43] ++ ex_leg.1.2 ++ [] = got ++ p_buf ex_leg.1.1.1.
Proof.
  refine (proj1 (rollover_loses_nothing 2 16 ex_src ex_loop_conn (ex_leg.1.2 ++ []) ex_leg.1.1.1 ex_after
                   ex_loop_conn (newSession "s1" ∅ 0) [] ex_loop_conn (newSession "s1" ∅ 0)
                   _ _ _ _ _ _) ex_rolled); vm_compute; first [reflexivity|discriminate].
Defined.

Lemma downstream_frames_fit_witness :
  adds_msgs (ws_read_limit 4) (mk_ws [] []) (wsWritePump_turn 4 [] ex_src (mk_ws [] [])).1.2.
Proof.
  apply (downstream_frames_fit (mk_ServerConfig 0 0 0 0 4 0 0 "" 0 0 false false 0 0 0) "" false false false
           newAttachments 0%nat [] (new_endpoint 0) (mk_hbody (mk_writer [] []) []) ex_src (mk_ws [] [])).
  vm_compute; reflexivity.
Defined.
