(* ===== verification/Adopt.v ===== *)
(** * Adopt.v: when a new session becomes the active one

    Models adoptSession and isActiveSession of the Connector (src/client.go) and
    the end of connect (src/client.go) and of connectWebSocket
    (src/websocket.go): the goroutine that connects adopts the session and starts
    the loops, in one order or the other, while a loop that runs may already
    report a problem.  What the application then does is AcceptLoop and Run of
    Reconnect.v. *)

From S2P Require Import Prelude Pipe Protocol Connect Reconnect.
From S2P Require Import Frame Reliable Channel Attach Session Resume Batch Stream Plain Poll HttpConn WebSocket.

(** ** The Connector's active session *)

(** The state of a Connector that matters here is [activeSessionID]. *)
Definition adoptSession (id active : string) : string := id.
Definition isActiveSession (id active : string) : bool := bool_decide (active = id).

(** ** The end of connect *)

(** What the connecting goroutine does, and what a running loop may do. *)
Inductive own_step : Type :=
| AdoptSession
| StartLoops.
#[export] Instance own_step_eq_dec : EqDecision own_step.
Proof. solve_decision. Defined.

Inductive setup_event : Type :=
| Own (o : own_step)
| Problem (err : goerr).     (* a loop calls onTransportProblem *)

Record setup := mk_setup {
  su_active : string;
  su_conn : conn_state;
  su_loops : bool;
}.

(** [report] is the onTransportProblem of the connection. *)
Definition setup_step (report : string -> goerr -> conn_state -> conn_state) (ev : setup_event) (s : setup)
    : setup :=
  match ev with
  | Own AdoptSession => mk_setup (adoptSession (cn_sessionID (su_conn s)) (su_active s)) (su_conn s) (su_loops s)
  | Own StartLoops => mk_setup (su_active s) (su_conn s) true
  | Problem err =>
      if su_loops s then mk_setup (su_active s) (report (su_active s) err (su_conn s)) true else s
  end.

Fixpoint setup_run (report : string -> goerr -> conn_state -> conn_state) (evs : list setup_event) (s : setup)
    : setup :=
  match evs with
  | [] => s
  | ev :: evs => setup_run report evs (setup_step report ev s)
  end.

(** The order of the source in connect and in connectWebSocket. *)
Definition connect_order : list own_step := [AdoptSession; StartLoops].
Definition connectWebSocket_order : list own_step := [StartLoops; AdoptSession].

Definition own_steps (evs : list setup_event) : list own_step :=
  omap (fun ev => match ev with Own o => Some o | Problem _ => None end) evs.

(** A connection for [id] on a Connector whose active session is [old], the
    empty string before its first connect. *)
Definition new_setup (old id : string) (upload : bool) : setup := mk_setup old (new_conn id upload) false.

(** The problems that are met, each with whether the session was adopted. *)
Fixpoint met (adopted running : bool) (evs : list setup_event) : list bool :=
  match evs with
  | [] => []
  | Own AdoptSession :: evs => met true running evs
  | Own StartLoops :: evs => met adopted true evs
  | Problem _ :: evs => if running then adopted :: met adopted running evs else met adopted running evs
  end.

(** What AcceptLoop's select may pick on a connection. *)
Definition selectable (c : conn_state) (ev : accept_event * bool) : Prop :=
  ev.2 = cn_failed c
  /\ (ev.1 = EvTransportFailed -> cn_failed c = true)
  /\ (ev.1 = EvSuperseded -> cn_superseded c = true).

(** ** Lemmas *)

Lemma guard_uses_active (active : string) (c : conn_state) :
  (supersededByNewerConnect active c).2 = negb (isActiveSession (cn_sessionID c) active).
Proof. unfold supersededByNewerConnect, isActiveSession; case_bool_decide; reflexivity. Qed.

Lemma adopted_is_active report s :
  let s' := setup_step report (Own AdoptSession) s in
  isActiveSession (cn_sessionID (su_conn s')) (su_active s') = true.
Proof. apply bool_decide_eq_true_2; reflexivity. Qed.

(** What the connections' reports have in common. *)
Definition reports (report : string -> goerr -> conn_state -> conn_state) : Prop :=
  forall active err c,
    cn_sessionID (report active err c) = cn_sessionID c
    /\ cn_failed (report active err c) = cn_failed c || isActiveSession (cn_sessionID c) active
    /\ cn_superseded (report active err c) = cn_superseded c || negb (isActiveSession (cn_sessionID c) active).

Ltac solve_reports :=
  intros active err c; unfold isActiveSession, supersededByNewerConnect, fail, supersede;
  repeat case_bool_decide; repeat case_match; simplify_eq/=; rewrite ?orb_false_r, ?orb_true_r; auto; congruence.

Lemma http_reports : reports onTransportProblem.
Proof. unfold reports, onTransportProblem, onSessionClosed; solve_reports. Qed.

Lemma ws_reports : reports (fun active _ => ws_onTransportProblem active).
Proof. unfold reports, ws_onTransportProblem; solve_reports. Qed.

(** Each problem raises the signal of its moment. *)
Lemma setup_signals report evs s : reports report ->
  let adopted := isActiveSession (cn_sessionID (su_conn s)) (su_active s) in
  let c' := su_conn (setup_run report evs s) in
  cn_failed c' = cn_failed (su_conn s) || existsb (fun b => b) (met adopted (su_loops s) evs)
  /\ cn_superseded c' = cn_superseded (su_conn s) || existsb negb (met adopted (su_loops s) evs).
Proof.
  intros Hr; cbn zeta; revert s; induction evs as [|[[]|err] evs IH]; intros s; cbn [setup_run met].
  - rewrite !orb_false_r; auto.
  - destruct (IH (setup_step report (Own AdoptSession) s)) as [-> ->].
    rewrite adopted_is_active; auto.
  - destruct (IH (setup_step report (Own StartLoops) s)) as [-> ->]; auto.
  - destruct (IH (setup_step report (Problem err) s)) as [-> ->]; unfold setup_step.
    destruct (su_loops s) eqn:Hl; cbn; [|rewrite Hl; auto].
    destruct (Hr (su_active s) err (su_conn s)) as (-> & -> & ->); rewrite <- !orb_assoc; auto.
Qed.

Lemma met_adopted running evs : own_steps evs = [] \/ own_steps evs = [StartLoops] ->
  existsb negb (met true running evs) = false.
Proof.
  revert running; induction evs as [|[[]|err] evs IH]; intros running Ho; cbn in *; auto.
  - destruct Ho; discriminate.
  - apply IH; left; destruct Ho as [Ho|Ho]; [discriminate|injection Ho; auto].
  - destruct running; auto; cbn; auto.
Qed.

(** Loops that start after the adoption meet no problem before it. *)
Lemma adopt_first evs : own_steps evs = connect_order -> existsb negb (met false false evs) = false.
Proof.
  induction evs as [|[[]|err] evs IH]; cbn; intros Ho; auto; [|discriminate].
  injection Ho as Ho; apply met_adopted; auto.
Qed.

Lemma no_failure_no_outcome c events : cn_failed c = false -> Forall (selectable c) events ->
  (AcceptLoop events).2 <> Some OutcomeTransportFailed.
Proof.
  intros Hf; induction 1 as [|[ev failed] events (Hs & Ht & _) _ IH]; [discriminate|].
  cbn in Hs, Ht; destruct ev; cbn; subst failed; rewrite ?Hf; try discriminate.
  - rewrite Hf in Ht; discriminate (Ht eq_refl).
  - destruct (AcceptLoop events); exact IH.
Qed.

(** ** The order decides how an early failure is reported *)

(** C40: a connection that fails right after it is made.  Over HTTP the session
    is adopted before any loop runs, so in every interleaving a failure raises
    TransportFailed and never SessionSuperseded.  connectWebSocket starts its loops first: a problem met
    before the adoption is judged against the session before, also when there
    was none, and raises SessionSuperseded and not TransportFailed; AcceptLoop
    then never reports a transport failure, and when it reports what was raised
    Run returns for good, without an error. *)
Theorem early_websocket_failure_looks_superseded (old id : string) (upload : bool) :
  old <> id ->
  (forall evs, own_steps evs = connect_order ->
     let c := su_conn (setup_run onTransportProblem evs (new_setup old id upload)) in
     cn_superseded c = false /\ cn_failed c = negb (bool_decide (met false false evs = [])))
  /\ (forall evs l ctx servedFor slept,
        existsb negb (met false false evs) = true -> existsb (fun b => b) (met false false evs) = false ->
        let s := setup_run (fun active _ => ws_onTransportProblem active) evs (new_setup old id true) in
        cn_superseded (su_conn s) = true /\ cn_failed (su_conn s) = false
        /\ (forall events, Forall (selectable (su_conn s)) events ->
              (AcceptLoop events).2 <> Some OutcomeTransportFailed)
        /\ selectable (su_conn s) (EvSuperseded, false)
        /\ exists o, AcceptLoop [(EvSuperseded, false)] = ([], Some o)
           /\ Run l [mk_round None None ctx o servedFor slept] = ([], Returned None))
  /\ (forall err, own_steps [Own StartLoops; Problem err; Own AdoptSession] = connectWebSocket_order
        /\ met false false [Own StartLoops; Problem err; Own AdoptSession] = [false]).
Proof.
  intros Hne.
  assert (Ha : forall up, isActiveSession (cn_sessionID (su_conn (new_setup old id up)))
                            (su_active (new_setup old id up)) = false)
    by (intros up; unfold isActiveSession; cbn; case_bool_decide; congruence).
  split_and!; [| |auto].
  - intros evs Ho c; destruct (setup_signals _ evs (new_setup old id upload) http_reports) as [Hf Hs].
    rewrite Ha in Hf, Hs; cbn in Hf, Hs; pose proof (adopt_first evs Ho) as Hn.
    subst c; rewrite Hf, Hs, Hn; split; auto.
    destruct (met false false evs) as [|[] bs]; auto; discriminate.
  - intros evs l ctx servedFor slept He Hl s.
    destruct (setup_signals _ evs (new_setup old id true) ws_reports) as [Hf Hs].
    rewrite Ha in Hf, Hs; cbn in Hf, Hs; rewrite Hl in Hf; rewrite He in Hs.
    split_and!; auto.
    + intros events; apply no_failure_no_outcome; auto.
    + split_and!; cbn; auto; discriminate.
    + exists OutcomeSuperseded; auto.
Qed.

(** ** Witness *)

Lemma early_websocket_failure_looks_superseded_witness :
  cn_failed (su_conn (setup_run (fun active _ => ws_onTransportProblem active)
                        [Own StartLoops; Problem EOF; Own AdoptSession] (new_setup "" "s1" true))) = false.
Proof.
  refine (proj1 (proj2 (proj1 (proj2 (early_websocket_failure_looks_superseded "" "s1" true _))
    [Own StartLoops; Problem EOF; Own AdoptSession] (mk_ReconnectLoop 0 0 0 0) None 0 true _ _)));
    first [discriminate|vm_compute; reflexivity].
Defined.
