(* ===== verification/Sweeper.v ===== *)
(** * Sweeper.v: the sweeper's goroutine and its stop function

    Models StartSweeper of src/store.go: the ticker loop, the stop function it
    returns, and sweep split where it leaves its locks, so that the callbacks of
    one sweep interleave with whatever the rest of the program does to the
    sessions.  The lock sections themselves are those of Session.v. *)

From S2P Require Import Prelude Frame Pipe Protocol Reliable Channel Attach Session.

(** ** The goroutine and the callers of stop *)

(** [SwEvicting]: a sweep past its locks, with the sessions it still has to
    close and report. *)
Inductive sweeper : Type :=
| SwSelect
| SwEvicting (expired : list loc)
| SwExited.

(** A call of the stop function. *)
Inductive stop_call : Type :=
| StopEntered
| StopWaiting          (* in wg.Wait, done is closed *)
| StopReturned.

Record swsys := mk_sw {
  sw_world : world;
  sw_done : bool;
  sw_self : sweeper;
  sw_stops : list stop_call;
}.

(** What happens next: the sweeper's select takes the tick (with the clock, the
    map's order and the sort of that moment) or done; it closes and reports the
    next session, or is through with them; somebody calls stop; a call of stop
    makes its next move; anything else runs. *)
Inductive sw_event : Type :=
| SwTick (order : list (string * loc)) (sort : (loc -> Z) -> list loc -> list loc) (now : Z)
| SwDone
| SwEvict (l : loc)
| SwSwept
| SwStop
| SwStopMove (i : nat)
| SwOther (w : world).

(** The part of sweep that holds the store's lock. *)
Definition sweep_locked (order : list (string * loc)) (sort : (loc -> Z) -> list loc -> list loc)
    (timeout now : Z) (w : world) : world * list loc :=
  let '(w, expired, detached) := sweep_scan timeout now order w in
  let excess := over_cap (st_maxDetachedResumable (w_store w)) (sort (detachedAt_of w) detached) in
  let '(w, expired') := sweep_excess now excess w in
  (w, expired ++ expired').

(** [None]: the event cannot happen now. *)
Definition sw_step (timeout : Z) (ev : sw_event) (y : swsys) : option swsys :=
  match ev, sw_self y with
  | SwTick order sort now, SwSelect =>
      let '(w, expired) := sweep_locked order sort timeout now (sw_world y) in
      Some (mk_sw w (sw_done y) (SwEvicting expired) (sw_stops y))
  | SwDone, SwSelect =>
      if sw_done y then Some (mk_sw (sw_world y) true SwExited (sw_stops y)) else None
  | SwEvict l, SwEvicting (l' :: expired) =>
      if bool_decide (l = l')
      then Some (mk_sw (finish_close l ReasonEvicted (sw_world y)) (sw_done y) (SwEvicting expired) (sw_stops y))
      else None
  | SwSwept, SwEvicting [] => Some (mk_sw (sw_world y) (sw_done y) SwSelect (sw_stops y))
  | SwStop, _ => Some (mk_sw (sw_world y) (sw_done y) (sw_self y) (sw_stops y ++ [StopEntered]))
  | SwStopMove i, self =>
      match sw_stops y !! i, self with
      | Some StopEntered, _ => Some (mk_sw (sw_world y) true self (<[i := StopWaiting]> (sw_stops y)))
      | Some StopWaiting, SwExited => Some (mk_sw (sw_world y) (sw_done y) self (<[i := StopReturned]> (sw_stops y)))
      | _, _ => None
      end
  | SwOther w, _ => Some (mk_sw w (sw_done y) (sw_self y) (sw_stops y))
  | _, _ => None
  end.

Fixpoint sw_run (timeout : Z) (evs : list sw_event) (y : swsys) : option swsys :=
  match evs with
  | [] => Some y
  | ev :: evs => match sw_step timeout ev y with Some y => sw_run timeout evs y | None => None end
  end.

(** StartSweeper's defaults and the state it leaves. *)
Definition store_StartSweeper (interval timeout : Z) (w : world) : swsys * Z * Z :=
  (mk_sw w false SwSelect [], orDuration interval DefaultSweepInterval, orDuration timeout DefaultSessionTimeout).

Definition is_evict (ev : sw_event) : bool :=
  match ev with SwEvict _ => true | _ => false end.

(** ** The invariant *)

(** A call past the once has seen done closed, the sweeper exits only after
    that, and a call returns only after the exit. *)
Definition sw_inv (y : swsys) : Prop :=
  (sw_self y = SwExited -> sw_done y = true)
  /\ (StopWaiting ∈ sw_stops y -> sw_done y = true)
  /\ (StopReturned ∈ sw_stops y -> sw_self y = SwExited).

Lemma sw_inv_start interval timeout w : sw_inv (store_StartSweeper interval timeout w).1.1.
Proof. unfold sw_inv; cbn; split_and!; [discriminate|set_solver|set_solver]. Qed.

Lemma insert_call (i : nat) (c d : stop_call) (cs : list stop_call) :
  d ∈ <[i := c]> cs -> d = c \/ d ∈ cs.
Proof.
  intros Hd; apply list_elem_of_lookup in Hd as [j Hj].
  apply list_lookup_insert_Some in Hj as [(_ & <- & _)|[_ Hj]]; [auto|].
  right; eapply list_elem_of_lookup_2, Hj.
Qed.

Ltac solve_call :=
  match goal with
  | H : _ ∈ <[_ := _]> _ |- _ => apply insert_call in H as [H|H]; [try discriminate|]
  | H : _ ∈ _ ++ [_] |- _ => apply elem_of_app in H as [H|H]; [|apply list_elem_of_singleton in H; discriminate]
  end.

Lemma sw_step_inv timeout ev y y' : sw_inv y -> sw_step timeout ev y = Some y' -> sw_inv y'.
Proof.
  intros (H1 & H2 & H3) E; destruct y as [w done self stops]; cbn in *.
  destruct ev, self; cbn in E; repeat case_match; simplify_eq/=; unfold sw_inv; cbn;
    split_and!; intros; repeat solve_call; first [solve [auto]|discriminate|naive_solver].
Qed.

Lemma sw_run_inv timeout evs : forall y y', sw_inv y -> sw_run timeout evs y = Some y' -> sw_inv y'.
Proof.
  induction evs as [|ev evs IH]; cbn; intros y y' Hi E; [congruence|].
  destruct (sw_step timeout ev y) eqn:Es; [|discriminate]; eauto using sw_step_inv.
Qed.

Lemma sw_run_app timeout evs evs' : forall y,
  sw_run timeout (evs ++ evs') y = sw_run timeout evs y ≫= sw_run timeout evs'.
Proof.
  induction evs as [|ev evs IH]; intros y; cbn; [reflexivity|].
  destruct (sw_step timeout ev y); cbn; auto.
Qed.

(** ** After the exit *)

Lemma exited_step timeout ev y y' : sw_self y = SwExited -> sw_step timeout ev y = Some y' ->
  sw_self y' = SwExited /\ is_evict ev = false.
Proof.
  intros Hx E; destruct y as [w done self stops]; cbn in Hx; subst self.
  destruct ev; cbn in *; repeat case_match; simplify_eq/=; auto.
Qed.

Lemma exited_run timeout evs : forall y y', sw_self y = SwExited -> sw_run timeout evs y = Some y' ->
  Forall (fun ev => is_evict ev = false) evs.
Proof.
  induction evs as [|ev evs IH]; cbn; intros y y' Hx E; [constructor|].
  destruct (sw_step timeout ev y) as [y1|] eqn:Es; [|discriminate].
  destruct (exited_step _ _ _ _ Hx Es); constructor; eauto.
Qed.

(** ** A sweep left alone *)

Lemma evict_all timeout expired : forall w done stops,
  sw_run timeout (map SwEvict expired ++ [SwSwept]) (mk_sw w done (SwEvicting expired) stops)
  = Some (mk_sw (run_onEvict expired w) done SwSelect stops).
Proof.
  induction expired as [|l expired IH]; intros w done stops; cbn; [reflexivity|].
  rewrite bool_decide_true by reflexivity; apply IH.
Qed.

Lemma sweep_split order sort timeout now w :
  sweep order sort timeout now w
  = let '(w', expired) := sweep_locked order sort timeout now w in run_onEvict expired w'.
Proof.
  unfold sweep, sweep_locked; destruct (sweep_scan _ _ _ _) as [[w1 ex] de].
  destruct (sweep_excess _ _ _); reflexivity.
Qed.

(** A tick whose callbacks nothing interrupts is the [sweep] of Session.v, and
    the sweeper is back at its select: what is proved of [sweep] is proved of
    the goroutine. *)
Theorem undisturbed_tick_is_sweep order sort timeout now w done stops : exists expired,
  sw_run timeout (SwTick order sort now :: map SwEvict expired ++ [SwSwept]) (mk_sw w done SwSelect stops)
  = Some (mk_sw (sweep order sort timeout now w) done SwSelect stops).
Proof.
  rewrite sweep_split; destruct (sweep_locked order sort timeout now w) as [w' expired] eqn:E.
  exists expired; cbn [sw_run sw_step sw_self sw_world]; rewrite E; apply evict_all.
Qed.

(** ** stop *)

(** What lets the sweeper end once done is closed: finish the sweep, then take
    done. *)
Definition wind_down (self : sweeper) : list sw_event :=
  match self with
  | SwSelect => [SwDone]
  | SwEvicting expired => map SwEvict expired ++ [SwSwept; SwDone]
  | SwExited => []
  end.

Lemma winds_down timeout y : sw_inv y -> sw_done y = true -> exists w,
  sw_run timeout (wind_down (sw_self y)) y = Some (mk_sw w true SwExited (sw_stops y)).
Proof.
  destruct y as [w done self stops]; cbn; intros _ ->; destruct self as [|expired|]; cbn; eauto.
  change [SwSwept; SwDone] with ([SwSwept] ++ [SwDone]); rewrite app_assoc, sw_run_app, evict_all; cbn; eauto.
Qed.

(** C15: the promise of StartSweeper's stop function, in every interleaving of the
    sweeper, any number of calls of stop and the rest of the program: once a
    call has returned there is no further onEvict; and a call never hangs for
    good: when one is waiting, the sweeper ends after the sessions it is at,
    and then that call returns, as a later one does. *)
Theorem stop_ends_evictions interval timeout w evs y :
  sw_run timeout evs (store_StartSweeper interval timeout w).1.1 = Some y ->
  (StopReturned ∈ sw_stops y ->
     forall evs' y', sw_run timeout evs' y = Some y' -> Forall (fun ev => is_evict ev = false) evs')
  /\ (forall i, sw_stops y !! i = Some StopWaiting ->
        exists y', sw_run timeout (wind_down (sw_self y) ++ [SwStopMove i]) y = Some y'
          /\ sw_stops y' !! i = Some StopReturned)
  /\ (forall i, sw_stops y !! i = Some StopEntered -> exists y',
        sw_step timeout (SwStopMove i) y = Some y' /\ sw_stops y' !! i = Some StopWaiting).
Proof.
  intros E; pose proof (sw_run_inv _ _ _ _ (sw_inv_start interval timeout w) E) as Hi.
  split_and!.
  - intros Hr evs' y'; apply exited_run, (proj2 (proj2 Hi)), Hr.
  - intros i Hw; destruct (winds_down timeout y) as [w' Hd]; auto.
    { apply Hi; eapply list_elem_of_lookup_2, Hw. }
    rewrite sw_run_app, Hd; cbn; rewrite Hw; eexists; split; [reflexivity|]; cbn.
    apply list_lookup_insert_eq; eapply lookup_lt_Some, Hw.
  - intros i Hw; destruct y as [w0 done self stops]; cbn in *; rewrite Hw; destruct self; eexists;
      (split; [reflexivity|]); apply list_lookup_insert_eq; eapply lookup_lt_Some, Hw.
Qed.

(** ** Witness *)

(** A sweep that evicts one idle session while stop is called, and a second
    call that enters after the first returned. *)
Definition ex_idle_world : world := store_add 0%nat (newSession "s1" ∅ 0) new_world.
Definition ex_sweeping : list sw_event :=
  [SwTick [("s1", 0%nat)] (fun _ ls => ls) (600 * Second); SwStop; SwStopMove 0%nat; SwEvict 0%nat; SwSwept; SwDone;
   SwStopMove 0%nat; SwStop].
Definition ex_stopped : swsys :=
  match sw_run (60 * Second) ex_sweeping (store_StartSweeper 0 (60 * Second) ex_idle_world).1.1 with
  | Some y => y
  | None => mk_sw new_world false SwSelect []
  end.

Lemma stop_ends_evictions_witness :
  w_log (sw_world ex_stopped) = [(0%nat, ReasonEvicted)]
  /\ sw_run (60 * Second) [SwEvict 0%nat] ex_stopped = None.
Proof.
  split; [reflexivity|].
  destruct (sw_run (60 * Second) [SwEvict 0%nat] ex_stopped) as [y'|] eqn:E; [|reflexivity].
  assert (Hr : sw_run (60 * Second) ex_sweeping (store_StartSweeper 0 (60 * Second) ex_idle_world).1.1
               = Some ex_stopped) by reflexivity.
  pose proof (proj1 (stop_ends_evictions 0 (60 * Second) ex_idle_world ex_sweeping ex_stopped Hr)
                ltac:(left) _ _ E) as Hn.
  apply Forall_inv in Hn; discriminate Hn.
Defined.
