(* ===== verification/Wire.v ===== *)
(** * Wire.v: what the two ends of a resumable session send each other

    The messages of the resumable transports (frames of streamed bodies and
    WebSockets, batch requests and their answers, the offsets of a resume
    handshake) and what each means to the byte layer: the packets of
    Channel.v.  Every place that sends one or acts on one is a run of an end
    of the channel; Stream.v has the single frames, this file has whole turns,
    with any sink, and the batch transport of Batch.v. *)

From S2P Require Import Prelude Frame Pipe Protocol Reliable Channel Attach Session.
From S2P Require Import Connect Resume Batch Stream.

(** ** Messages *)

Inductive net_msg : Type :=
| NetFrame (f : frameType * list byte)           (* of a streamed body or a WebSocket *)
| NetBatch (send : bool) (q : batch_request)
| NetAnswer (r : batch_response)
| NetResume (n : Z).                             (* recv_offset of a resume request or response *)

(** The offsets in the headers of a batch request or answer, and its body. *)
Definition header_acks (values : list string) : list packet :=
  match batchOffset values with Ok n => [PAck n] | Fail _ => [] end.
Definition header_data (values : list string) (data : list byte) : list packet :=
  match batchOffset values with Ok off => data_packets off data | Fail _ => [] end.

Definition msg_packets (m : net_msg) : list packet :=
  match m with
  | NetFrame f => frame_packets f
  | NetBatch send q =>
      header_acks (bq_recvOffset q) ++ (if send then header_data (bq_sendOffset q) (bq_body q) else [])
  | NetAnswer r => header_acks (br_recvOffset r) ++ header_data (br_sendOffset r) (br_body r)
  | NetResume n => [PResume n]
  end.

(** A message is on the wire when its packets are; a send that carries only an
    acknowledgement carries the offset 0. *)
Definition carried (wire : list packet) (m : net_msg) : Prop :=
  (forall p, In p (msg_packets m) -> In p wire)
  /\ match m with
     | NetBatch true q => bq_body q = [] -> batchOffset (bq_sendOffset q) = Ok 0
     | _ => True
     end.

Lemma carried_mono wire wire' m : incl wire wire' -> carried wire m -> carried wire' m.
Proof. intros Hi [Hp He]; split; [intros p Hin; apply Hi, Hp, Hin|exact He]. Qed.

(** What acting on a frame takes from the wire.  A frame without packets, such as
    a heartbeat, the frames that close a stream and all that is malformed, may
    come from anybody at any time. *)
Definition frame_takes (f : frameType * list byte) : list net_msg :=
  match frame_packets f with [] => [] | _ => [NetFrame f] end.

Lemma frame_taken wire f : Forall (carried wire) (frame_takes f) -> carried wire (NetFrame f).
Proof.
  unfold frame_takes; intros Hf; destruct (frame_packets f) eqn:E; [|inversion Hf; assumption].
  split; [cbn; rewrite E; intros ? []|exact I].
Qed.

Lemma frame_takes_incl f : incl (frame_takes f) [NetFrame f].
Proof. unfold frame_takes; destruct (frame_packets f); [intros ? []|apply incl_refl]. Qed.

(** ** Frames that a turn of a sending loop puts on the wire *)

(** The body of a request or a response of which no write fails. *)
Definition perfect_body : hbody := mk_hbody (mk_writer [] []) [].

(** The frames of the turn, before what closes the stream: all that its writes,
    whichever of them fail and however late, can put on the wire. *)
Definition turn_frames (interrupted : option (option goerr)) (blen : Z) (sched : list (list pipe_event))
    (e : endpoint) : list (frameType * list byte) :=
  hb_frames (send_turn None None interrupted None false blen sched e perfect_body).1.2.

Lemma emit_endpoint {W} `{FrameSink W} e (w : W) off data intr :
  (emit e w off data intr).1.1 = on_rl (fun _ => (takeAck (ep_rl e)).1) e.
Proof.
  unfold emit; destruct (takeAck (ep_rl e)) as [r due]; cbn [fst].
  destruct (match due with Some ack => sink_frame w frameAck (encodeOffset ack) | None => (w, None) end)
    as [w1 [err|]]; [reflexivity|].
  destruct (negb (len data =? 0)); [|destruct intr; cbn [negb]]; try reflexivity;
    match goal with |- context [let '(_, _) := ?f in _] => destruct f end; reflexivity.
Qed.

Lemma perfect_writes out data : io_write (mk_writer out []) data = (mk_writer (out ++ data) [], None).
Proof. reflexivity. Qed.

Lemma perfect_emit e fs out off data intr :
  exists w, emit e (mk_hbody (mk_writer out []) fs) off data intr
            = (on_rl (fun _ => (takeAck (ep_rl e)).1) e, w, None).
Proof.
  unfold emit; destruct (takeAck (ep_rl e)) as [r [ack|]]; cbn [fst];
    unfold sink_frame, sink_seq, hbody_sink, hbody_frame, hbody_seq, writeFrame, writeSeqFrame;
    repeat (rewrite ?perfect_writes; case_if); eexists; reflexivity.
Qed.

(** With such a body the ack that is due and the data go out. *)
Lemma perfect_emit_seq e out fs off d intr : d <> [] ->
  In (frameSeqData, be_put 8 off ++ d) (hb_frames (emit e (mk_hbody (mk_writer out []) fs) off d intr).1.2).
Proof.
  intros Hd; unfold emit; destruct (takeAck (ep_rl e)) as [r [ack|]];
    assert (H0 : negb (len d =? 0) = true) by (destruct (Z.eqb_spec (len d) 0) as [H|H]; [apply len_zero_iff in H; congruence|reflexivity]);
    rewrite H0; unfold sink_frame, sink_seq, hbody_sink, hbody_frame, hbody_seq, writeFrame, writeSeqFrame;
    rewrite ?perfect_writes; cbn [len]; repeat (rewrite ?perfect_writes; case_if); cbn; rewrite ?in_app_iff; cbn; tauto.
Qed.

Lemma perfect_emit_ack e off data intr ack : (takeAck (ep_rl e)).2 = Some ack ->
  In (frameAck, encodeOffset ack) (hb_frames (emit e perfect_body off data intr).1.2).
Proof.
  unfold emit; destruct (takeAck (ep_rl e)) as [r due]; cbn [snd]; intros ->.
  unfold sink_frame, sink_seq, hbody_sink, hbody_frame, hbody_seq, writeFrame, writeSeqFrame, perfect_body.
  repeat (rewrite ?perfect_writes; case_if); cbn; auto.
Qed.

(** ** Sending *)

(** What an action of an end does: a run that ends at [e'], leaves no bytes
    between pipe and layer, lets the application write [wr] and read [rd], and
    puts at least the messages [ms] on the wire. *)
Definition acts (wire : list packet) (x : side) (e' : endpoint) (wr rd : list byte) (ms : list net_msg) : Prop :=
  exists x' out, sd_ep x' = e' /\ sd_taken x' = []
    /\ sd_written x' = sd_written x ++ wr /\ sd_read x' = sd_read x ++ rd
    /\ side_run wire x x' out /\ Forall (carried out) ms.

Lemma frames_carried out fs :
  (forall p, In p (flat_map frame_packets fs) -> In p out) -> Forall (carried out) (map NetFrame fs).
Proof.
  intros Hi; apply Forall_map, Forall_forall; intros f Hf; split; [|exact I].
  intros p Hp; apply Hi, in_flat_map; exists f; split; [apply list_elem_of_In, Hf|exact Hp].
Qed.

Section SendTurn.
Context (wire : list packet) {W : Type} {sink : FrameSink W}.
Context (x : side) (Hx : side_inv x) (Ht : sd_taken x = []).

Lemma send_turn_acts onEOF eofErr interrupted final expired blen sched (w : W) :
  0 < blen -> no_rival (concat sched) -> len (sd_written x) + events_volume (concat sched) < 2 ^ 63 ->
  exists e' w' st, send_turn onEOF eofErr interrupted final expired blen sched (sd_ep x) w = (e', w', st)
    /\ st <> LoopPanic
    /\ acts wire x e' (nextOut_written (sd_ep x) blen sched) []
         (map NetFrame (turn_frames interrupted blen sched (sd_ep x))).
Proof.
  intros Hb Hn Hv; unfold turn_frames, send_turn.
  destruct (nextOut_refines wire x blen sched Hx Ht Hb Hn Hv) as (y & r & rest & -> & Hty & Hrv & [Hw Hr] & Hrun).
  assert (Hrec : offset_ok (recvOffset (rl y)))
    by (rewrite Hrv; destruct (si_rel _ Hx); unfold offset_ok; lia).
  set (wr := nextOut_written _ _ _) in *.
  assert (Hgo : forall off data intr, side_run wire x y (data_packets off data) -> offset_ok off ->
    exists e1 w1 err fs b', emit (sd_ep y) w off data intr = (e1, w1, err)
      /\ emit (sd_ep y) perfect_body off data intr = (e1, b', None) /\ hb_frames b' = fs
      /\ acts wire x e1 wr [] (map NetFrame fs)).
  { intros off data intr Hrun1 Ho.
    destruct (emit_refines hbody_ok wire y perfect_body off data intr Hty Hrec Ho eq_refl)
      as (z & b' & err & acks & Ee & Htz & [Hzw Hzr] & Hz & Hok).
    destruct (perfect_emit (sd_ep y) [] [] off data intr) as [b1 Ep]; fold perfect_body in Ep.
    rewrite Ee in Ep; injection Ep as Ez -> ->; destruct (Hok eq_refl) as (_ & fs & Hs & Hp).
    pose proof (emit_endpoint (sd_ep y) w off data intr) as Hep.
    destruct (emit (sd_ep y) w off data intr) as [[e1 w1] err1]; cbn [fst] in Hep; subst e1.
    exists (on_rl (fun _ => (takeAck (ep_rl (sd_ep y))).1) (sd_ep y)), w1, err1, fs, b1; rewrite <- Ez.
    split_and!; auto.
    exists z, (data_packets off data ++ acks); split_and!; auto.
    - rewrite Hzw, app_nil_r; exact Hw.
    - rewrite Hzr, Hr, app_nil_r; reflexivity.
    - eapply side_run_trans; eassumption.
    - apply frames_carried; rewrite Hp; intros p; rewrite !in_app_iff; tauto. }
  assert (Hquit : side_run wire x y [] -> acts wire x (sd_ep y) wr [] []).
  { intros Hr0; exists y, []; split_and!; auto; rewrite app_nil_r; exact Hr. }
  assert (H0 : offset_ok 0) by (unfold offset_ok; lia).
  assert (Hfin : forall off data intr, side_run wire x y (data_packets off data) -> offset_ok off ->
    exists e' w' st,
      (let '(e, w, err) := emit (sd_ep y) w off data intr in
       match err with
       | Some err => (e, w, Leave (Some err))
       | None => if expired then (e, match final with Some typ => (sink_frame w typ []).1 | None => w end, Leave None)
                 else (e, w, Again)
       end) = (e', w', st) /\ st <> LoopPanic
      /\ acts wire x e' wr [] (map NetFrame (hb_frames
           (let '(e, w, err) := emit (sd_ep y) perfect_body off data intr in
            match err with
            | Some err => (e, w, Leave (Some err))
            | None => (e, w, Again)
            end).1.2))).
  { intros off data intr H1 H2; destruct (Hgo off data intr H1 H2) as (e1 & w1 & err & fs & b' & -> & -> & <- & Ha).
    destruct err; [|destruct expired]; do 3 eexists; (split; [reflexivity|]); (split; [discriminate|exact Ha]). }
  destruct r as [[off data]|err]; [destruct Hrun as [H1 H2]; exact (Hfin off data false H1 H2)|].
  destruct err; try exact (Hfin 0 [] false Hrun H0);
    try (do 3 eexists; (split; [reflexivity|]); (split; [discriminate|exact (Hquit Hrun)])).
  destruct interrupted; [|exact (Hfin 0 [] true Hrun H0)].
  do 3 eexists; (split; [reflexivity|]); (split; [discriminate|exact (Hquit Hrun)]).
Qed.
End SendTurn.

(** ** Actions, put together *)

Lemma acts_nil wire x : sd_taken x = [] -> acts wire x (sd_ep x) [] [] [].
Proof. intros Ht; exists x, []; rewrite !app_nil_r; split_and!; auto with pollmux. Qed.

(** One silent step that leaves the histories alone. *)
Lemma acts_step wire x x' : sd_taken x = [] -> side_step wire x x' [] -> sd_taken x' = [] ->
  sd_written x' = sd_written x -> sd_read x' = sd_read x -> acts wire x (sd_ep x') [] [] [].
Proof.
  intros Ht Hs Ht' Hw Hr; exists x', []; rewrite !app_nil_r; split_and!; auto.
  apply side_run_one, Hs.
Qed.

(** The layer of [x] replaced by a step of the layer alone. *)
Lemma acts_rl wire x r : sd_taken x = [] -> side_step wire x (with_rl r x) [] ->
  acts wire x (on_rl (fun _ => r) (sd_ep x)) [] [] [].
Proof. intros Ht Hs; apply (acts_step wire x (with_rl r x)); auto. Qed.

(** What runs keep. *)
Lemma side_run_inv wire P Q x x' out :
  side_run wire x x' out ->
  forall (Hx : side_inv x) (Hwire : Forall (packet_true P Q) wire) (Hpre : sd_got x `prefix_of` P)
         (HQ : len Q <= len (sd_sent x)) (HP : len P < 2 ^ 63),
  side_inv x' /\ sd_got x' `prefix_of` P /\ len Q <= len (sd_sent x').
Proof.
  induction 1 as [|x y z o o' Hs _ IH]; intros; [auto|].
  destruct (side_step_good wire P Q x Hx Hwire Hpre HQ HP y o Hs) as (H1 & _ & H2 & _ & H4 & _).
  apply IH; auto; apply prefix_length in H2; unfold len in *; lia.
Qed.

Definition wire_good (wire : list packet) (x : side) : Prop :=
  exists P Q, side_inv x /\ Forall (packet_true P Q) wire /\ sd_got x `prefix_of` P
    /\ len Q <= len (sd_sent x) /\ len P < 2 ^ 63.

Lemma good_run wire x x' out : wire_good wire x -> side_run wire x x' out -> wire_good wire x'.
Proof.
  intros (P & Q & H1 & H2 & H3 & H4 & H5) Hr.
  destruct (side_run_inv wire P Q x x' out Hr H1 H2 H3 H4 H5) as (? & ? & ?); exists P, Q; auto.
Qed.

Lemma good_side wire x : wire_good wire x -> side_inv x.
Proof. intros (? & ? & H & _); exact H. Qed.

(** An action after a run that the application has no part in. *)
Lemma acts_after wire x x1 out e wr rd ms :
  side_run wire x x1 out -> sd_written x1 = sd_written x -> sd_read x1 = sd_read x ->
  acts wire x1 e wr rd ms -> acts wire x e wr rd ms.
Proof.
  intros H1 Hw Hr (x2 & o & He & Ht & Hw2 & Hr2 & Hrun & Hm); exists x2, (out ++ o).
  rewrite <- Hw, <- Hr; split_and!; auto; [eapply side_run_trans; eassumption|].
  eapply Forall_impl; [exact Hm|]; intros m; apply carried_mono; intros p Hp; apply in_app_iff; auto.
Qed.

(** One action after the other. *)
Lemma acts_seq wire x e1 e2 wr1 wr2 rd1 rd2 ms1 ms2 :
  wire_good wire x -> acts wire x e1 wr1 rd1 ms1 ->
  (forall x1, wire_good wire x1 -> sd_ep x1 = e1 -> sd_taken x1 = [] ->
     sd_written x1 = sd_written x ++ wr1 -> sd_read x1 = sd_read x ++ rd1 ->
     acts wire x1 e2 wr2 rd2 ms2) ->
  acts wire x e2 (wr1 ++ wr2) (rd1 ++ rd2) (ms1 ++ ms2).
Proof.
  intros Hg (y & o1 & He & Ht & Hw & Hr & Hrun & Hm) Hnext.
  destruct (Hnext y (good_run _ _ _ _ Hg Hrun) He Ht Hw Hr) as (z & o2 & He2 & Ht2 & Hw2 & Hr2 & Hrun2 & Hm2).
  exists z, (o1 ++ o2); split_and!; auto.
  - rewrite Hw2, Hw, app_assoc; reflexivity.
  - rewrite Hr2, Hr, app_assoc; reflexivity.
  - eapply side_run_trans; eassumption.
  - apply Forall_app; split; (eapply Forall_impl; [eassumption|]); intros m; apply carried_mono;
      intros p Hp; apply in_app_iff; auto.
Qed.

(** ** Receiving *)

Section Receive.
Context (wire : list packet) (x : side) (Hg : wire_good wire x) (Ht : sd_taken x = []).

Lemma recv_acts off d : In (PData off d) wire \/ (off = 0 /\ d = []) ->
  exists e err, recvIn (sd_ep x) off d = Some (e, err) /\ acts wire x e [] [] [].
Proof.
  destruct Hg as (P & Q & Hx & Hw & _ & _ & HP); intros [Hin|[-> ->]].
  - pose proof (wire_true _ _ _ Hw _ Hin) as Htrue.
    pose proof (packet_data_end _ _ _ _ Htrue) as Hend; destruct Htrue as [Ho _].
    destruct (recvIn_spec _ _ (sd_ep x) off d (si_rel _ Hx) Ho ltac:(intros; lia)) as (e & err & E & _).
    exists e, err; split; [exact E|].
    eexists (mk_side e _ _ _ _ _), []; split_and!; [..|apply side_run_one, (st_recv wire x off d e err Hin E)|constructor];
      cbn; rewrite ?app_nil_r; auto.
  - destruct (recvIn_spec _ _ (sd_ep x) 0 [] (si_rel _ Hx) ltac:(lia) ltac:(intros; len_lia))
      as (e & err & E & Hc); exists e, err; split; [exact E|].
    destruct Hc as [(H & _)|[(_ & _ & _ & ->)|[(H & _)|(H & _)]]];
      [pose proof (len_nonneg (sd_got x)); lia|apply acts_nil, Ht|exfalso; len_lia|exfalso; len_lia].
Qed.

Lemma ack_acts n : In (PAck n) wire ->
  exists r, rel_ack (rl x) n = Some (r, None) /\ acts wire x (on_rl (fun _ => r) (sd_ep x)) [] [] [].
Proof.
  destruct Hg as (P & Q & Hx & Hw & Hpre & HQ & HP); intros Hin.
  pose proof (wire_true _ _ _ Hw _ Hin) as [Hn _].
  destruct (rel_ack_spec _ _ _ n (si_rel _ Hx) Hn) as (r & err & E & _).
  destruct (good_ack wire P Q x Hx Hw Hpre HQ n r err Hin E) as [_ ->].
  exists r; split; [exact E|]; apply acts_rl; [exact Ht|eapply st_ack; eassumption].
Qed.

(** An action of the layer that does not panic. *)
Definition handles (r : option (endpoint * option goerr)) : Prop :=
  exists e err, r = Some (e, err) /\ acts wire x e [] [] [].

Lemma handles_error err : handles (Some (sd_ep x, err)).
Proof. exists (sd_ep x), err; split; [reflexivity|apply acts_nil, Ht]. Qed.

Lemma handles_broken err : handles (Some (on_rl markBroken (sd_ep x), err)).
Proof.
  exists (on_rl markBroken (sd_ep x)), err; split; [reflexivity|].
  apply (acts_rl wire x (markBroken (rl x)) Ht), st_markBroken.
Qed.

Lemma recv_seq_acts payload : carried wire (NetFrame (frameSeqData, payload)) -> handles (recv_seq payload (sd_ep x)).
Proof.
  intros [Hin _]; cbn in Hin; unfold frame_packets in Hin; cbn [fst snd] in Hin.
  rewrite bool_decide_true in Hin by reflexivity; unfold recv_seq.
  destruct (splitSeq payload) as [[off d]|err]; [|apply handles_error].
  apply recv_acts; left; apply Hin; left; reflexivity.
Qed.

Lemma recv_ack_acts payload : carried wire (NetFrame (frameAck, payload)) -> handles (recv_ack payload (sd_ep x)).
Proof.
  intros [Hin _]; cbn in Hin; unfold frame_packets in Hin; cbn [fst snd] in Hin.
  rewrite bool_decide_false, bool_decide_true in Hin by (reflexivity || discriminate); unfold recv_ack.
  destruct (decodeAck payload) as [n|err]; [|apply handles_error].
  destruct (ack_acts n) as (r & E & Ha); [apply Hin; left; reflexivity|].
  unfold handles; unfold rl in E; rewrite E; eauto.
Qed.

Lemma doStreamPoll_frame_acts f : carried wire (NetFrame f) -> handles (doStreamPoll_frame f (sd_ep x)).
Proof.
  destruct f as [typ payload]; intros Hc; unfold doStreamPoll_frame.
  repeat case_bool_decide; subst; auto using recv_seq_acts, recv_ack_acts, handles_error.
Qed.

Lemma wsReadLoop_frame_acts f : carried wire (NetFrame f) -> handles (wsReadLoop_frame f (sd_ep x)).
Proof.
  destruct f as [typ payload]; intros Hc; unfold wsReadLoop_frame.
  repeat case_bool_decide; subst; auto using recv_seq_acts, recv_ack_acts, handles_error.
Qed.
End Receive.

(** ** The batch transport *)

Lemma data_packets_carried off d : data_packets off d = [] \/ data_packets off d = [PData off d].
Proof. unfold data_packets; case_if; auto. Qed.

(** What an end knows it has received fits a header. *)
Lemma offset_header wire x : wire_good wire x ->
  batchOffset (setBatchOffset (recvOffsetNow (rl x))) = Ok (recvOffsetNow (rl x)).
Proof.
  intros (P & Q & [Hr _ _ _] & _); apply batchOffset_set; unfold recvOffsetNow.
  destruct Hr; unfold is_u64; len_lia.
Qed.

Lemma acks_header wire x : wire_good wire x ->
  header_acks (setBatchOffset (recvOffsetNow (rl x))) = [PAck (recvOffsetNow (rl x))].
Proof. intros Hg; unfold header_acks; rewrite (offset_header wire x Hg); reflexivity. Qed.

(** What an end may say of its offset at any time. *)
Definition offset_packets (x : side) : list packet :=
  [PAck (recvOffsetNow (rl x)); PResume (recvOffsetNow (rl x))].

Lemma offset_run wire x : side_run wire x x (offset_packets x).
Proof. apply (run_cons wire x x x [_] [_]); [apply st_ackNow|apply side_run_one, st_resumeNow]. Qed.

(** An action that ends with a message that states the offset of the end. *)
Lemma acts_offset wire x e wr rd m :
  wire_good wire x -> acts wire x e wr rd [] ->
  (forall x1, sd_ep x1 = e -> wire_good wire x1 -> carried (offset_packets x1) m) ->
  acts wire x e wr rd [m].
Proof.
  intros Hg H Hm.
  assert (H1 : acts wire x e (wr ++ []) (rd ++ []) ([] ++ [m])).
  { apply (acts_seq wire x e e wr [] rd [] [] [m] Hg H); intros x1 Hg1 He Ht _ _.
    exists x1, (offset_packets x1); rewrite !app_nil_r; split_and!; auto using offset_run. }
  rewrite !app_nil_r in H1; exact H1.
Qed.

Lemma ack_answer wire x status : wire_good wire x ->
  carried (offset_packets x)
    (NetAnswer (mk_bresp status (setBatchOffset (recvOffsetNow (rl x))) [] [])).
Proof.
  intros Hg; split; [|exact I]; cbn -[setBatchOffset batchOffset]; unfold header_acks, header_data.
  rewrite (offset_header wire x Hg); cbn; tauto.
Qed.

Lemma error_carried wire status : carried wire (NetAnswer (error_response status)).
Proof. split; [intros p []|exact I]. Qed.

(** The layer when a batch poll gets to nextOut, and what the application
    writes while it waits there. *)
Definition batch_polled (ack : Z) (e : endpoint) : endpoint :=
  match rel_ack (ep_rl e) ack with
  | Some (r, None) => on_rl rewindToAcked (on_rl (fun _ => r) e)
  | _ => e
  end.

Definition batch_wrote (send : bool) (bufsize : Z) (q : batch_request) (env : batch_env) (e : endpoint)
    : list byte :=
  match batchOffset (bq_recvOffset q), be_body env with
  | Ok ack, BodyComplete [] =>
      if send || negb (be_attached env) || be_cancelled env then []
      else nextOut_written (batch_polled ack e) bufsize (be_sched env)
  | _, _ => []
  end.

Section BatchPoll.
Context (wire : list packet) (x : side) (Hg : wire_good wire x) (Ht : sd_taken x = []).

(** The outcome of a request, whose response is [NetAnswer]. *)
Definition batch_acts (wr : list byte) (r : batch_result) : Prop :=
  match r with
  | Responded e a => acts wire x e wr [] [NetAnswer a]
  | Silent e | Violation e => acts wire x e wr [] []
  | BatchPanic => False
  end.

Lemma refused_acts status e : acts wire x e [] [] [] -> acts wire x e [] [] [NetAnswer (error_response status)].
Proof.
  intros (x' & out & He & Ht' & Hw & Hr & Hrun & _); exists x', out; split_and!; auto.
  constructor; [apply error_carried|constructor].
Qed.

(** nextOut and the answer of a poll. *)
Lemma batch_next bufsize (cancelled : bool) sched :
  0 < bufsize -> no_rival (concat sched) -> len (sd_written x) + events_volume (concat sched) < 2 ^ 63 ->
  batch_acts (nextOut_written (sd_ep x) bufsize sched)
    match nextOut (sd_ep x) bufsize sched with
    | None => BatchPanic
    | Some (e, r, _) =>
        if cancelled then Silent e
        else match r with
        | Fail EOF => Responded e (error_response StatusGone)
        | Fail errPipeInterrupted | Ok (_, []) =>
            Responded e (mk_bresp StatusNoContent (setBatchOffset (recvOffsetNow (ep_rl e))) [] [])
        | Fail _ => Responded e (error_response StatusInternalServerError)
        | Ok (off, data) =>
            Responded e (mk_bresp StatusOK (setBatchOffset (recvOffsetNow (ep_rl e))) (setBatchOffset off) data)
        end
    end.
Proof.
  intros Hb Hn Hv.
  destruct (nextOut_refines wire x bufsize sched (good_side _ _ Hg) Ht Hb Hn Hv)
    as (y & r & rest & -> & Hty & _ & [Hw Hr] & Hrun).
  set (wr := nextOut_written _ _ _) in *.
  assert (Hany : forall out, side_run wire x y out -> acts wire x (sd_ep y) wr [] []).
  { intros out Ho; exists y, out; split_and!; auto; rewrite app_nil_r; exact Hr. }
  assert (Hend : acts wire x (sd_ep y) wr [] [])
    by (destruct r as [[off d]|err]; [destruct Hrun as [Ho _]|]; eapply Hany; eassumption).
  destruct cancelled; [exact Hend|].
  assert (Herr : forall status, acts wire x (sd_ep y) wr [] [NetAnswer (error_response status)]).
  { intros status; apply acts_offset; auto; intros x1 _ _; apply error_carried. }
  assert (Hack : acts wire x (sd_ep y) wr []
    [NetAnswer (mk_bresp StatusNoContent (setBatchOffset (recvOffsetNow (ep_rl (sd_ep y)))) [] [])]).
  { apply acts_offset; auto; intros x1 He Hg1; rewrite <- He; apply (ack_answer wire x1 _ Hg1). }
  destruct r as [[off [|b d]]|err]; [exact Hack| |destruct err; first [exact Hack|apply Herr]].
  destruct Hrun as [Hrun Ho]; rewrite data_packets_cons in Hrun.
  pose proof (good_run _ _ _ _ Hg Hrun) as Hgy.
  exists y, ([PData off (b :: d)] ++ [PAck (recvOffsetNow (rl y))]); split_and!; auto;
    [rewrite app_nil_r; exact Hr|eapply side_run_trans; [exact Hrun|apply side_run_one, st_ackNow]|].
  constructor; [|constructor]; split; [|exact I]; cbn -[setBatchOffset batchOffset].
  unfold header_acks, header_data; fold (rl y); rewrite (offset_header wire y Hgy).
  rewrite batchOffset_set, data_packets_cons by (unfold offset_ok, is_u64 in *; lia).
  intros p; rewrite !in_app_iff; cbn; tauto.
Qed.

End BatchPoll.

Lemma batch_acts_after wire x x1 out wr r :
  side_run wire x x1 out -> sd_written x1 = sd_written x -> sd_read x1 = sd_read x ->
  batch_acts wire x1 wr r -> batch_acts wire x wr r.
Proof. destruct r; cbn; eauto using acts_after. Qed.

(** A request that the client put on the wire, with the body it has if it
    arrived whole: the handler does not panic, acts as an end of the channel,
    and its answer states what that end did. *)
Lemma pollBatch_acts wire x send bufsize q env :
  wire_good wire x -> sd_taken x = [] ->
  carried wire (NetBatch send q) -> (forall d, be_body env = BodyComplete d -> d = bq_body q) ->
  0 < bufsize -> no_rival (concat (be_sched env)) ->
  len (sd_written x) + events_volume (concat (be_sched env)) < 2 ^ 63 ->
  batch_acts wire x (batch_wrote send bufsize q env (sd_ep x)) (pollBatchResumable send bufsize q env (sd_ep x)).
Proof.
  intros Hg Ht [Hq Hempty] Hbody Hb Hn Hv; cbn [msg_packets] in Hq.
  unfold pollBatchResumable, batch_wrote; unfold header_acks in Hq.
  assert (Hsame : forall status, batch_acts wire x [] (Responded (sd_ep x) (error_response status)))
    by (intros; apply refused_acts, acts_nil, Ht).
  destruct (batchOffset (bq_recvOffset q)) as [ack|err]; [|apply Hsame].
  assert (Hack : In (PAck ack) wire) by (apply Hq, in_app_iff; left; left; reflexivity).
  destruct (ack_acts wire x Hg Ht ack Hack) as (r & Er & x1 & out & He & Ht1 & Hw1 & Hr1 & Hrun & _).
  rewrite app_nil_r in Hw1, Hr1; pose proof (good_run _ _ _ _ Hg Hrun) as Hg1.
  destruct send; cbn [orb].
  - replace (match be_body env with BodyComplete [] => [] | _ => [] end) with (@nil byte)
      by (destruct (be_body env) as [[]| |]; reflexivity).
    destruct (batchOffset (bq_sendOffset q)) as [off|err] eqn:Eoff; [|apply Hsame].
    destruct (be_attached env); [|apply Hsame]; cbn [negb].
    destruct (be_body env) as [data| |] eqn:Ebody; [|apply acts_nil, Ht|apply Hsame].
    specialize (Hbody data eq_refl); subst data.
    destruct (be_cancelled env); [apply acts_nil, Ht|].
    unfold rl in Er; rewrite Er.
    assert (Hin : In (PData off (bq_body q)) wire \/ (off = 0 /\ bq_body q = [])).
    { destruct (bq_body q) as [|b d] eqn:Eq.
      - right; specialize (Hempty eq_refl); injection Hempty as ->; auto.
      - left; apply Hq, in_app_iff; right; unfold header_data; rewrite Eoff, data_packets_cons; left; reflexivity. }
    assert (Hrecv : exists e err, recvIn (on_rl (fun _ => r) (sd_ep x)) off (bq_body q) = Some (e, err)
      /\ acts wire x e [] [] []).
    { destruct (recv_acts wire x1 Hg1 Ht1 off (bq_body q) Hin) as (e & err & E & Ha).
      rewrite He in E; exists e, err; split; [exact E|].
      eapply acts_after; eassumption. }
    destruct Hrecv as (e & err & -> & Hre).
    destruct err as [[]|]; try (apply refused_acts, Hre).
    apply acts_offset; auto; intros x2 He2 Hg2; rewrite <- He2; apply (ack_answer wire x2 _ Hg2).
  - destruct (be_body env) as [[|b d]| |]; try apply Hsame.
    destruct (be_attached env); [|apply Hsame]; cbn [negb orb].
    destruct (be_cancelled env); [apply acts_nil, Ht|]; cbn [orb].
    unfold batch_polled; unfold rl in Er; rewrite Er, <- He.
    set (x2 := with_rl (rewindToAcked (rl x1)) x1).
    assert (H2 : side_run wire x x2 (out ++ []))
      by (eapply side_run_trans; [exact Hrun|apply side_run_one, st_rewind]).
    change (on_rl rewindToAcked (sd_ep x1)) with (sd_ep x2).
    apply (batch_acts_after wire x x2 _ _ _ H2 Hw1 Hr1), batch_next; auto;
      [exact (good_run _ _ _ _ Hg H2)|cbn; rewrite Hw1; exact Hv].
Qed.

(** *** The client *)

(** An answer that the client takes at its word came from the server; what an
    intermediary makes up is an error to it. *)
Definition answer_carried (wire : list packet) (d : delivery) : Prop :=
  match d with
  | Delivered r => br_status r = StatusOK \/ br_status r = StatusNoContent -> carried wire (NetAnswer r)
  | _ => True
  end.

Section BatchClient.
Context (wire : list packet) (x : side) (Hg : wire_good wire x) (Ht : sd_taken x = []).

Lemma doBatchPoll_acts maxFrame d : answer_carried wire d ->
  exists e r, doBatchPoll maxFrame (sd_ep x) d = Some (e, r) /\ acts wire x e [] [] [].
Proof.
  intros Hd; assert (Hsame : forall r : res bool, exists e r', Some (sd_ep x, r) = Some (e, r') /\ acts wire x e [] [] [])
    by (intros r; eexists _, _; split; [reflexivity|apply acts_nil, Ht]).
  destruct d as [|status timeout|r]; cbn [doBatchPoll]; [apply Hsame|repeat case_if; apply Hsame|].
  cbn in Hd; destruct (negb (br_status r =? StatusOK) && negb (br_status r =? StatusNoContent)) eqn:Est;
    [apply Hsame|].
  assert (Hc : carried wire (NetAnswer r)).
  { apply Hd; apply andb_false_iff in Est as [E|E]; apply negb_false_iff, Z.eqb_eq in E; auto. }
  destruct Hc as [Hp _]; cbn [msg_packets] in Hp; unfold header_acks, header_data in Hp.
  case_if; [apply Hsame|]; case_if; [apply Hsame|].
  destruct (batchOffset (br_recvOffset r)) as [ack|err]; [|apply Hsame].
  assert (Hack : In (PAck ack) wire) by (apply Hp, in_app_iff; left; left; reflexivity).
  assert (Hfin : forall x1 out (a : bool), side_run wire x x1 out -> sd_taken x1 = [] ->
    sd_written x1 = sd_written x -> sd_read x1 = sd_read x ->
    exists e r', match rel_ack (ep_rl (sd_ep x1)) ack with
                 | None => None
                 | Some (rl, Some err) => Some (on_rl (fun _ => rl) (sd_ep x1), Fail err)
                 | Some (rl, None) => Some (on_rl (fun _ => rl) (sd_ep x1), Ok a)
                 end = Some (e, r') /\ acts wire x e [] [] []).
  { intros x1 out a Hrun Ht1 Hw1 Hr1.
    destruct (ack_acts wire x1 (good_run _ _ _ _ Hg Hrun) Ht1 ack Hack) as (r1 & E & Ha).
    unfold rl in E; rewrite E; do 2 eexists; split; [reflexivity|eapply acts_after; eassumption]. }
  destruct (br_status r =? StatusOK) eqn:Eok; [|apply (Hfin x [] _ (run_nil _ _)); auto].
  destruct (batchOffset (br_sendOffset r)) as [off|err]; [|apply Hsame].
  assert (Hin : In (PData off (br_body r)) wire).
  { apply Hp, in_app_iff; right; destruct (br_body r) as [|b l]; [discriminate|].
    rewrite data_packets_cons; left; reflexivity. }
  destruct (recv_acts wire x Hg Ht off (br_body r) (or_introl Hin)) as (e & err & -> & Ha).
  destruct err as [err|]; [eauto|].
  destruct Ha as (x1 & out & <- & Ht1 & Hw1 & Hr1 & Hrun & _); rewrite app_nil_r in Hw1, Hr1.
  apply (Hfin x1 out); auto.
Qed.

Lemma doBatchSend_acts d : answer_carried wire d -> handles wire x (doBatchSend (sd_ep x) d).
Proof.
  intros Hd; destruct d as [|status timeout|r]; cbn [doBatchSend]; try apply (handles_error wire x Ht).
  cbn in Hd; destruct (br_status r =? StatusOK) eqn:Est; cbn [negb]; [|apply (handles_error wire x Ht)].
  apply Z.eqb_eq in Est; destruct (Hd (or_introl Est)) as [Hp _]; cbn [msg_packets] in Hp.
  case_if; [apply (handles_error wire x Ht)|]; unfold header_acks in Hp.
  destruct (batchOffset (br_recvOffset r)) as [ack|err]; [|apply (handles_error wire x Ht)].
  destruct (ack_acts wire x Hg Ht ack) as (r1 & E & Ha); [apply Hp, in_app_iff; left; left; reflexivity|].
  unfold rl in E; rewrite E; unfold handles; eauto.
Qed.

(** A send without its acknowledgement, which is read off the layer when the
    request is made. *)
Definition send_part (off : Z) (data : list byte) : net_msg :=
  NetBatch true (mk_breq [] (setBatchOffset off) data).

Lemma nextOut_empty blen sched e off rest :
  0 < blen -> nextOut (sd_ep x) blen sched = Some (e, Ok (off, []), rest) -> off = 0.
Proof.
  intros Hb; pose proof (si_rel _ (good_side _ _ Hg)) as Hr; unfold nextOut; fold (rl x).
  destruct (has_pending (rl x)) eqn:Hp.
  - destruct (pending_out_spec _ _ _ blen Hr Hp Hb) as (E & Hc & _); rewrite E; intros Hs.
    injection Hs as _ _ Hs _; congruence.
  - destruct (ReadAvailable _ _ _) as [[p [[|b d]|err]] rest']; try discriminate.
    + intros Hs; injection Hs as _ <- _; reflexivity.
    + destruct (number_out (rl x) (b :: d)); discriminate.
Qed.

(** A turn of batchUpLoop: what it decides to send is on the wire. *)
Lemma batchUpLoop_acts pollStream done maxSend sched :
  0 < maxSend -> no_rival (concat sched) -> len (sd_written x) + events_volume (concat sched) < 2 ^ 63 ->
  let wr := nextOut_written (sd_ep x) maxSend sched in
  match batchUpLoop_turn pollStream done maxSend sched (sd_ep x) with
  | UpStop e _ | UpIdle e => acts wire x e wr [] []
  | UpSend e off data => acts wire x e wr [] [send_part off data] /\ offset_ok off
  | UpPanic => False
  end.
Proof.
  intros Hb Hn Hv wr; unfold batchUpLoop_turn.
  destruct (nextOut_refines wire x maxSend sched (good_side _ _ Hg) Ht Hb Hn Hv)
    as (y & r & rest & E & Hty & _ & [Hw Hr] & Hrun); rewrite E; fold wr in Hw.
  assert (Hend : acts wire x (sd_ep y) wr [] []).
  { destruct r as [[off d]|err]; [destruct Hrun as [Hrun _]|]; (eexists y, _; split_and!; [..|exact Hrun|constructor]);
      auto; rewrite app_nil_r; exact Hr. }
  destruct done; [exact Hend|].
  assert (Hgo : forall off data, side_run wire x y (data_packets off data) -> offset_ok off ->
    (data = [] -> off = 0) ->
    match (let '(r, due) := takeAck (ep_rl (sd_ep y)) in
           let e := on_rl (fun _ => r) (sd_ep y) in
           if (len data =? 0) && (negb (match due with Some _ => true | None => false end) || negb pollStream)
           then UpIdle e else UpSend e off data) with
    | UpStop e _ | UpIdle e => acts wire x e wr [] []
    | UpSend e off data => acts wire x e wr [] [send_part off data] /\ offset_ok off
    | UpPanic => False
    end).
  { intros off data Hrun1 Ho H0; destruct (takeAck (ep_rl (sd_ep y))) as [r1 due] eqn:Ea.
    assert (Hz : exists z out, sd_ep z = on_rl (fun _ => r1) (sd_ep y) /\ sd_taken z = []
      /\ sd_written z = sd_written y /\ sd_read z = sd_read y /\ side_run wire y z out).
    { assert (Hdue : due = None /\ r1 = ep_rl (sd_ep y) \/ exists n, due = Some n)
        by (unfold takeAck in Ea; case_if_in Ea; injection Ea as <- <-; eauto).
      destruct Hdue as [[-> ->]|[n ->]].
      - exists y, []; split_and!; auto using run_nil; destruct (sd_ep y); reflexivity.
      - exists (with_rl r1 y), [PAck n]; split_and!; auto; apply side_run_one, st_takeAck, Ea. }
    destruct Hz as (z & out & Hez & Htz & Hwz & Hrz & Hz).
    assert (Hall : side_run wire x z (data_packets off data ++ out)) by (eapply side_run_trans; eassumption).
    assert (Hms : forall ms, Forall (carried (data_packets off data ++ out)) ms -> acts wire x (sd_ep z) wr [] ms).
    { intros ms Hms; exists z, (data_packets off data ++ out); split_and!; auto; [rewrite Hwz; exact Hw|].
      rewrite Hrz, app_nil_r; exact Hr. }
    rewrite <- Hez; destruct ((len data =? 0) && _); [apply Hms; constructor|].
    split; [apply Hms; constructor; [|constructor]|exact Ho].
    split; cbn -[setBatchOffset batchOffset].
    - unfold header_data; rewrite batchOffset_set by (unfold offset_ok, is_u64 in *; lia).
      intros p Hp; apply in_app_iff; left; exact Hp.
    - intros Hd; rewrite batchOffset_set, (H0 Hd) by (unfold offset_ok, is_u64 in *; lia); reflexivity. }
  assert (Hz : offset_ok 0) by (unfold offset_ok; lia).
  destruct r as [[off d]|err].
  - destruct Hrun as [Hrun Ho]; apply Hgo; auto; intros ->; eapply nextOut_empty; eassumption.
  - destruct err; first [exact Hend|apply (Hgo 0 []); auto].
Qed.

(** The requests, made when the end has the layer it has; [own] is what it has
    sent before. *)
Lemma send_request_carried own off data : carried own (send_part off data) ->
  carried (own ++ offset_packets x) (NetBatch true (batch_send_request (rl x) off data)).
Proof.
  intros [Hp He]; split; [|exact He].
  cbn [msg_packets send_part batch_send_request bq_recvOffset bq_sendOffset bq_body] in *.
  rewrite (acks_header wire x Hg); intros p Hin.
  apply in_app_iff in Hin as [Hin|Hin]; apply in_app_iff; [right; destruct Hin as [<-|[]]; left; reflexivity|left].
  apply Hp, in_app_iff; auto.
Qed.

Lemma poll_request_carried own :
  carried (own ++ offset_packets x) (NetBatch false (batch_poll_request (rl x))).
Proof.
  split; [|exact I]; cbn [msg_packets batch_poll_request bq_recvOffset].
  rewrite (acks_header wire x Hg); intros p Hin.
  rewrite app_nil_r in Hin; apply in_app_iff; right; destruct Hin as [<-|[]]; left; reflexivity.
Qed.
End BatchClient.
