(* ===== verification/Server.v ===== *)
(** * Server.v: the server's end of a resumable session

    The requests of a client are served by goroutines that share the session.
    This file composes the handlers of Poll.v, WebSocket.v and Resume.v into one
    machine: an event is a turn of a streaming handler, a frame of an upload, a
    whole batch request, a half of the resume handshake, or a call of the
    application or of the store; any number of handlers may be at work, in any
    interleaving of their events.  Each event names the messages it takes and
    yields the messages it sends.  Handlers.v shows that whole requests are
    runs of this machine. *)

From S2P Require Import Prelude Frame Pipe Protocol Reliable Channel Attach Session.
From S2P Require Import Connect Resume Batch Reconnect Stream Plain Poll WebSocket Wire.

(** ** The machine *)

Inductive sv_event : Type :=
| SvWrite (d : list byte)                      (* the application's Write on the session *)
| SvRead (dst : Z)
| SvMarkClosed                                 (* removeAndMarkClosed, markClosedLocked *)
| SvClosePipes
| SvBegin (now : Z)                            (* beginPoll *)
| SvBeginWs (now : Z)
| SvTouch (now : Z)
| SvEnd (now : Z)
| SvEndWs (now : Z)
| SvAtt (a : attachments)                      (* attach, detach, kick, endResume *)
| SvInterrupt
| SvOpen                                       (* resetAck, when a streaming handler starts *)
| SvStream (bufsize : Z) (att : attachment) (t : stream_turn) (b : hbody)
| SvPump (bufsize : Z) (att : attachment) (step : pump_step) (c : wsocket)
| SvUpload (maxSend : Z) (body : reader)       (* the next frame of a send-stream request *)
| SvBatch (send : bool) (bufsize : Z) (q : batch_request) (env : batch_env)
| SvResumeEnter (b : body ResumeRequest) (now : Z)
| SvResumeExit (recv : Z) (free : bool) (now : Z).

(** How a wait of the two streaming loops that was interrupted goes on. *)
Definition stream_interrupted (t : stream_turn) (att : attachment) : option (option goerr) :=
  if isCurrent (tn_att t) att then None else Some None.
Definition pump_interrupted (ctxDone : bool) (a : attachments) (att : attachment) : option (option goerr) :=
  if ctxDone then Some (Some ErrCtx) else if isCurrent a att then None else Some (Some errDetached).

(** What an event sends on the wire. *)
Definition sv_sends (ev : sv_event) (s : session) : list net_msg :=
  match ev, s_rs s with
  | SvStream bufsize att t _, Some rs =>
      if tn_ctxDone t then []
      else map NetFrame (turn_frames (stream_interrupted t att) bufsize (tn_sched t) (sess_ep s rs))
  | SvPump bufsize att (PumpWrite ctxDone a sched) _, Some rs =>
      map NetFrame (turn_frames (pump_interrupted ctxDone a att) bufsize sched (sess_ep s rs))
  | SvBatch send bufsize q env, Some rs =>
      match pollBatchResumable send bufsize q env (sess_ep s rs) with
      | Responded _ r => [NetAnswer r]
      | _ => []
      end
  | SvResumeExit recv free now, _ =>
      match resume_exit recv free now s with
      | Some (_, Answer rr) => [NetResume (rres_RecvOffset rr)]
      | _ => []
      end
  | _, _ => []
  end.

(** What an event takes from the wire. *)
Definition sv_takes (ev : sv_event) : list net_msg :=
  match ev with
  | SvPump _ _ (PumpRead true msg) _ => match wsDecode msg with Ok f => frame_takes f | Fail _ => [] end
  | SvUpload maxSend body => match (frame_next maxSend body).1 with Ok f => frame_takes f | Fail _ => [] end
  | SvBatch send _ q _ => [NetBatch send q]
  | SvResumeExit recv _ _ => [NetResume recv]
  | _ => []
  end.

Definition sv_wrote (ev : sv_event) (s : session) : list byte :=
  match ev, s_rs s with
  | SvWrite d, _ => match (Session_Write s d).2 with Ok _ => d | Fail _ => [] end
  | SvStream bufsize _ t _, Some rs =>
      if tn_ctxDone t then [] else nextOut_written (sess_ep s rs) bufsize (tn_sched t)
  | SvPump bufsize _ (PumpWrite _ _ sched) _, Some rs => nextOut_written (sess_ep s rs) bufsize sched
  | SvBatch send bufsize q env, Some rs => batch_wrote send bufsize q env (sess_ep s rs)
  | _, _ => []
  end.

Definition sv_got (ev : sv_event) (s : session) : list byte :=
  match ev with
  | SvRead dst => match Session_Read s dst with Some (_, Ok d) => d | _ => [] end
  | _ => []
  end.

(** An event; [None] is a panic.  A Read that would block changes nothing. *)
Definition sv_step (ev : sv_event) (s : session) : option session :=
  match ev with
  | SvWrite d => Some (Session_Write s d).1
  | SvRead dst => Some (match Session_Read s dst with Some (s, _) => s | None => s end)
  | SvMarkClosed => Some (set_closed s)
  | SvClosePipes => Some (closePipes s)
  | SvBegin now => Some (beginPoll now s).1
  | SvBeginWs now => Some (beginWebSocket now s).1
  | SvTouch now => Some (touch now s)
  | SvEnd now => Some (endPoll now s)
  | SvEndWs now => Some (endWebSocket now s)
  | SvAtt a => Some (set_att (Some a) s)
  | SvInterrupt => Some (stop_pumps s)
  | SvOpen => Some (set_rs (option_map resetAck (s_rs s)) s)
  | SvStream bufsize att t b =>
      match pollStream_step bufsize att t s b with
      | (_, _, LoopPanic) => None
      | (s, _, _) => Some s
      end
  | SvPump bufsize att step c =>
      match pump bufsize att step s c with
      | None => None
      | Some (s, _, _) => Some s
      end
  | SvUpload maxSend body =>
      match (frame_next maxSend body).1 with
      | Fail _ => Some s
      | Ok f =>
          match pollSendStream_frame false f s with
          | None => None
          | Some (s, _) => Some s
          end
      end
  | SvBatch send bufsize q env =>
      match s_rs s with
      | None => Some s
      | Some rs =>
          match pollBatchResumable send bufsize q env (sess_ep s rs) with
          | Responded e _ | Silent e | Violation e => Some (set_ep e s)
          | BatchPanic => None
          end
      end
  | SvResumeEnter b now => Some (resume_enter b now s).1
  | SvResumeExit recv free now =>
      match resume_exit recv free now s with
      | None => None
      | Some (s, _) => Some s
      end
  end.

(** Runs: the session, what was sent. *)
Fixpoint sv_run (evs : list sv_event) (s : session) : option (session * list net_msg) :=
  match evs with
  | [] => Some (s, [])
  | ev :: evs =>
      match sv_step ev s with
      | None => None
      | Some s' =>
          match sv_run evs s' with
          | None => None
          | Some (s2, ms) => Some (s2, sv_sends ev s ++ ms)
          end
      end
  end.

(** What an event relies on: buffers are not empty; nobody else takes from the
    pipe a handler waits on (Attach.v: one owner per direction); a body that
    arrived whole is the one that was sent. *)
Definition sv_ok (ev : sv_event) : Prop :=
  match ev with
  | SvStream bufsize _ t _ => 0 < bufsize /\ no_rival (concat (tn_sched t))
  | SvPump bufsize _ (PumpWrite _ _ sched) _ => 0 < bufsize /\ no_rival (concat sched)
  | SvBatch _ bufsize q env =>
      0 < bufsize /\ no_rival (concat (be_sched env))
      /\ forall d, be_body env = BodyComplete d -> d = bq_body q
  | _ => True
  end.

Definition sv_volume (ev : sv_event) : Z :=
  match ev with
  | SvWrite d => len d
  | SvStream _ _ t _ => events_volume (concat (tn_sched t))
  | SvPump _ _ (PumpWrite _ _ sched) _ => events_volume (concat sched)
  | SvBatch _ _ _ env => events_volume (concat (be_sched env))
  | _ => 0
  end.

(** ** The machine is an end of the channel *)

(** The session's layer and pipes are the end [x]. *)
Definition at_end (s : session) (x : side) : Prop := s_rs s = Some (rl x) /\ sess_ep s (rl x) = sd_ep x.

Definition same_end (s s' : session) : Prop :=
  s_rs s' = s_rs s /\ s_toClient s' = s_toClient s /\ s_toServer s' = s_toServer s.

Lemma same_end_refl s : same_end s s.
Proof. split_and!; reflexivity. Qed.

Lemma same_end_at s s' x : same_end s s' -> at_end s x -> at_end s' x.
Proof. intros (Hr & Hc & Hs) [H1 H2]; unfold at_end, sess_ep in *; rewrite Hr, Hc, Hs; auto. Qed.

Lemma at_end_set e s : exists r, s_rs (set_ep e s) = Some r /\ sess_ep (set_ep e s) r = e.
Proof. exists (ep_rl e); split; [reflexivity|apply sess_ep_set]. Qed.

Lemma end_pipes s x : at_end s x -> s_toClient s = ep_out (sd_ep x) /\ s_toServer s = ep_in (sd_ep x).
Proof. intros [_ <-]; auto. Qed.

Lemma end_eta x : mk_ep (rl x) (ep_out (sd_ep x)) (ep_in (sd_ep x)) = sd_ep x.
Proof. unfold rl; destruct (sd_ep x); reflexivity. Qed.

(** The outcome of an event: the session is the end the action leads to. *)
Definition sess_acts (wire : list packet) (x : side) (s' : session) (wr rd : list byte) (ms : list net_msg) : Prop :=
  exists r, s_rs s' = Some r /\ acts wire x (sess_ep s' r) wr rd ms.

Section ServerActs.
Context (wire : list packet) (x : side) (s : session).
Context (Hg : wire_good wire x) (Ht : sd_taken x = []) (Hs : at_end s x).

Lemma same_acts s' : same_end s s' -> sess_acts wire x s' [] [] [].
Proof.
  intros He; destruct (same_end_at s s' x He Hs) as [Hr Hep]; exists (rl x).
  rewrite Hep; split; [exact Hr|apply acts_nil, Ht].
Qed.

Lemma set_ep_acts e wr rd ms : acts wire x e wr rd ms -> sess_acts wire x (set_ep e s) wr rd ms.
Proof. intros Ha; exists (ep_rl e); rewrite sess_ep_set; auto. Qed.

Lemma write_acts d : len (sd_written x) + len d < 2 ^ 63 ->
  sess_acts wire x (Session_Write s d).1 (match (Session_Write s d).2 with Ok _ => d | Fail _ => [] end) [] [].
Proof.
  intros Hv; pose proof Hs as [Hr Hep]; unfold Session_Write.
  destruct (end_pipes s x Hs) as [Ho Hi].
  destruct (pipe_Write (s_toClient s) d) as [[out [n|err]] warned] eqn:E; cbn [fst snd]; exists (rl x);
    (split; [exact Hr|]); unfold sess_ep; cbn; rewrite Hi.
  - eexists (mk_side _ _ _ _ _ _), []; split_and!; [..|eapply side_run_one, st_write; [rewrite <- Ho; exact E|len_lia]|];
      cbn; rewrite ?app_nil_r; auto.
  - unfold pipe_Write in E; case_if_in E; simplify_eq; rewrite Ho, end_eta; apply acts_nil, Ht.
Qed.

Lemma read_acts dst :
  sess_acts wire x (match Session_Read s dst with Some (s, _) => s | None => s end) []
    (match Session_Read s dst with Some (_, Ok d) => d | _ => [] end) [].
Proof.
  pose proof Hs as [Hr Hep]; unfold Session_Read.
  destruct (end_pipes s x Hs) as [Ho Hi].
  destruct (pipe_Read (s_toServer s) dst) as [[inp [d|err]]|] eqn:E; [| |apply same_acts, same_end_refl];
    exists (rl x); (split; [exact Hr|]); unfold sess_ep; cbn; rewrite Ho.
  - eexists (mk_side _ _ _ _ _ _), []; split_and!; [..|eapply side_run_one, st_read; rewrite <- Hi; exact E|];
      cbn; rewrite ?app_nil_r; auto.
  - unfold pipe_Read in E; destruct (p_buf (s_toServer s)); [case_if_in E|]; simplify_eq; rewrite Hi, end_eta; apply acts_nil, Ht.
Qed.

Lemma closePipes_acts : sess_acts wire x (closePipes s) [] [] [].
Proof.
  pose proof Hs as [Hr Hep]; exists (rl x); split; [exact Hr|]; unfold sess_ep; cbn.
  destruct (end_pipes s x Hs) as [Ho Hi].
  rewrite Ho, Hi.
  eexists _, ([] ++ []); split_and!;
    [..|eapply side_run_trans; [eapply side_run_one, st_closeOut|eapply side_run_one, st_closeIn]|constructor];
    cbn; rewrite ?app_nil_r; auto.
Qed.

Lemma frame_acts {A} (f : option goerr -> A) act : handles wire x (act (sd_ep x)) ->
  exists s' o, on_layer (fun e => option_map (prod_map id f) (act e)) (rl x) s = Some (s', o)
    /\ sess_acts wire x s' [] [] [].
Proof.
  intros (e & err & E & Ha); unfold on_layer; rewrite (proj2 Hs), E; cbn.
  do 2 eexists; split; [reflexivity|apply set_ep_acts, Ha].
Qed.

Lemma frame_acts_id act : handles wire x (act (sd_ep x)) ->
  exists s' o, on_layer act (rl x) s = Some (s', o) /\ sess_acts wire x s' [] [] [].
Proof.
  intros (e & err & E & Ha); unfold on_layer; rewrite (proj2 Hs), E.
  do 2 eexists; split; [reflexivity|apply set_ep_acts, Ha].
Qed.

Lemma stay_acts {A} (o : A) : exists s' o', Some (s, o) = Some (s', o') /\ sess_acts wire x s' [] [] [].
Proof. do 2 eexists; split; [reflexivity|apply same_acts, same_end_refl]. Qed.

Lemma pollSendStream_frame_acts f : carried wire (NetFrame f) ->
  exists s' o, pollSendStream_frame false f s = Some (s', o) /\ sess_acts wire x s' [] [] [].
Proof.
  destruct f as [typ payload]; intros Hc; unfold pollSendStream_frame; rewrite (proj1 Hs).
  cbn [negb]; repeat case_bool_decide; subst; try apply stay_acts.
  - case_if; [apply stay_acts|]; apply (frame_acts _ _ (handles_broken wire x Ht _)).
  - apply frame_acts, recv_seq_acts; auto.
  - apply frame_acts, recv_ack_acts; auto.
Qed.

Lemma wsReadPump_frame_acts f : carried wire (NetFrame f) ->
  exists s' o, wsReadPump_frame f s = Some (s', o) /\ sess_acts wire x s' [] [] [].
Proof.
  destruct f as [typ payload]; intros Hc; unfold wsReadPump_frame; rewrite (proj1 Hs).
  repeat case_bool_decide; subst; try apply stay_acts.
  - apply (frame_acts_id _ (handles_broken wire x Ht _)).
  - apply frame_acts_id, recv_seq_acts; auto.
  - apply frame_acts_id, recv_ack_acts; auto.
Qed.

(** A turn of a sending loop with the session's layer. *)
Lemma turn_acts {W} `{FrameSink W} onEOF eofErr interrupted final expired blen sched (w : W) :
  0 < blen -> no_rival (concat sched) -> len (sd_written x) + events_volume (concat sched) < 2 ^ 63 ->
  exists e' w' st, send_turn onEOF eofErr interrupted final expired blen sched (sess_ep s (rl x)) w = (e', w', st)
    /\ st <> LoopPanic
    /\ sess_acts wire x (set_ep e' s) (nextOut_written (sess_ep s (rl x)) blen sched) []
         (map NetFrame (turn_frames interrupted blen sched (sess_ep s (rl x)))).
Proof.
  intros Hb Hn Hv; rewrite (proj2 Hs).
  destruct (send_turn_acts wire x (good_side _ _ Hg) Ht onEOF eofErr interrupted final expired blen sched w Hb Hn Hv)
    as (e' & w' & st & E & Hst & Ha); exists e', w', st; split_and!; auto; apply set_ep_acts, Ha.
Qed.

Lemma sess_acts_same s1 s2 wr rd ms : same_end s1 s2 -> sess_acts wire x s1 wr rd ms -> sess_acts wire x s2 wr rd ms.
Proof.
  intros (Hr & Hc & Hv) (r & Hr1 & Ha); exists r; unfold sess_ep in *; rewrite Hr, Hc, Hv; auto.
Qed.

Lemma rl_acts r : side_step wire x (with_rl r x) [] -> sess_acts wire x (set_rs (Some r) s) [] [] [].
Proof.
  intros Hst; exists r; split; [reflexivity|]; destruct (end_pipes s x Hs) as [Ho Hi].
  unfold sess_ep; cbn; rewrite Ho, Hi; apply (acts_rl wire x r Ht Hst).
Qed.

Lemma endPoll_same now s1 : same_end s1 (endPoll now s1).
Proof. unfold endPoll, noteDetachedLocked; cbn; repeat case_match; split_and!; reflexivity. Qed.

(** The second half of the resume handshake. *)
Lemma resume_exit_acts recv free now : In (PResume recv) wire ->
  exists s' a, resume_exit recv free now s = Some (s', a)
    /\ sess_acts wire x s' [] [] (match a with Answer rr => [NetResume (rres_RecvOffset rr)] | _ => [] end).
Proof.
  intros Hin; unfold resume_exit.
  assert (Hleave : forall s1, same_end s1 (endPoll now (on_att endResume s1)))
    by (intros s1; destruct (endPoll_same now (on_att endResume s1)) as (? & ? & ?); split_and!; auto).
  destruct free; cbn [negb]; [|do 2 eexists; split; [reflexivity|apply same_acts, Hleave]].
  rewrite (proj1 Hs); pose proof Hg as (P & Q & Hx & Hw & _).
  pose proof (wire_true _ _ _ Hw _ Hin) as [Hn _].
  destruct (resumeOut_spec _ _ _ recv (si_rel _ Hx) Hn) as (r & ok & E & _); rewrite E.
  pose proof (rl_acts _ (st_resume wire x recv r ok Hin E)) as Ha.
  destruct ok; do 2 eexists; (split; [reflexivity|]); (eapply sess_acts_same; [apply Hleave|]); [|exact Ha].
  destruct Ha as (r1 & Hr1 & Ha); injection Hr1 as <-; exists r; split; [reflexivity|].
  apply acts_offset; auto; intros x1 He _; split; [|exact I]; intros p [<-|[]].
  right; left; unfold rl; rewrite He; reflexivity.
Qed.
End ServerActs.

Lemma begin_same now s : same_end s (beginPoll now s).1.
Proof. unfold beginPoll; case_if; split_and!; reflexivity. Qed.

Lemma resume_enter_same b now s : same_end s (resume_enter b now s).1.
Proof.
  unfold resume_enter; repeat (case_match; simplify_eq/=; try apply same_end_refl).
  all: match goal with H : beginPoll _ _ = _ |- _ => pose proof (begin_same now s) as (Hb1 & Hb2 & Hb3); rewrite H in Hb1, Hb2, Hb3 end;
    cbn in *; try (split_and!; assumption);
    match goal with |- same_end _ (endPoll ?n ?s1) => destruct (endPoll_same n s1) as (? & ? & ?) end;
    split_and!; cbn in *; congruence.
Qed.

(** Every event is an action of the end: it does not panic, and what it does,
    sends and lets the application write and read is what the end does. *)
Lemma sv_acts wire x s ev :
  wire_good wire x -> sd_taken x = [] -> at_end s x ->
  sv_ok ev -> Forall (carried wire) (sv_takes ev) -> len (sd_written x) + sv_volume ev < 2 ^ 63 ->
  exists s', sv_step ev s = Some s' /\ sess_acts wire x s' (sv_wrote ev s) (sv_got ev s) (sv_sends ev s).
Proof.
  intros Hg Ht Hs Hok Htk Hv; pose proof (proj1 Hs) as Hrs.
  assert (Hsame : forall s', same_end s s' -> exists s'', Some s' = Some s'' /\ sess_acts wire x s'' [] [] [])
    by (intros s' He; eexists; split; [reflexivity|apply (same_acts wire x s Ht Hs), He]).
  destruct ev as [d|dst| | |now|now|now|now|now|a| | |bufsize att t b|bufsize att step c|maxSend body|send bufsize q env|b now
                 |recv free now]; cbn [sv_step sv_wrote sv_got sv_sends sv_takes sv_volume] in *.
  - eexists; split; [reflexivity|apply write_acts; auto].
  - eexists; split; [reflexivity|apply read_acts; auto].
  - apply Hsame; split_and!; reflexivity.
  - eexists; split; [reflexivity|apply closePipes_acts; auto].
  - apply Hsame, begin_same.
  - apply Hsame; unfold beginWebSocket; case_if; split_and!; reflexivity.
  - apply Hsame; split_and!; reflexivity.
  - apply Hsame, endPoll_same.
  - apply Hsame; unfold endWebSocket, noteDetachedLocked; cbn; repeat case_match; split_and!; reflexivity.
  - apply Hsame; split_and!; reflexivity.
  - unfold stop_pumps; rewrite Hrs; eexists; split; [reflexivity|].
    rewrite (proj2 Hs); apply set_ep_acts, (acts_step wire x _ Ht (st_interrupt wire x)); auto.
  - rewrite Hrs; eexists; split; [reflexivity|]; apply (rl_acts wire x s Ht Hs), st_resetAck.
  - unfold pollStream_step, pollStreamResumable_turn; rewrite Hrs; destruct Hok as [Hb Hn].
    destruct (tn_ctxDone t).
    { eexists; split; [reflexivity|]; rewrite (proj2 Hs); apply set_ep_acts, acts_nil, Ht. }
    destruct (turn_acts wire x s Hg Ht Hs (Some frameGone) None (stream_interrupted t att) (Some frameEnd)
                (tn_expired t) bufsize (tn_sched t) b Hb Hn Hv) as (e' & w' & st & E & Hst & Ha).
    fold (stream_interrupted t att); rewrite E; destruct st; [| |congruence]; eauto.
  - destruct step as [[] msg|err|ctxDone a sched]; cbn [pump]; [|apply Hsame, same_end_refl..|].
    + destruct (wsDecode msg) as [f|err]; [|apply Hsame, same_end_refl].
      pose proof (frame_taken _ _ Htk) as Hf.
      destruct (wsReadPump_frame_acts wire x s Hg Ht Hs f Hf) as (s' & o & -> & Ha); eauto.
    + unfold wsWritePumpResumable_turn; rewrite Hrs; destruct Hok as [Hb Hn].
      destruct (turn_acts wire x s Hg Ht Hs None (Some EOF) (pump_interrupted ctxDone a att) None false bufsize sched c
                  Hb Hn Hv) as (e' & w' & st & E & Hst & Ha).
      fold (pump_interrupted ctxDone a att); rewrite E; destruct st; [| |congruence]; eauto.
  - destruct (frame_next maxSend body).1 as [f|err]; [|apply Hsame, same_end_refl].
    pose proof (frame_taken _ _ Htk) as Hf.
    destruct (pollSendStream_frame_acts wire x s Hg Ht Hs f Hf) as (s' & o & -> & Ha); eauto.
  - rewrite Hrs; inversion Htk as [|? ? Hq _]; subst; destruct Hok as (Hb & Hn & Hbody).
    pose proof (pollBatch_acts wire x send bufsize q env Hg Ht Hq Hbody Hb Hn Hv) as Ha.
    rewrite (proj2 Hs); destruct (pollBatchResumable send bufsize q env (sd_ep x)); cbn in Ha;
      [..|destruct Ha]; eexists; (split; [reflexivity|]); apply set_ep_acts, Ha.
  - apply Hsame, resume_enter_same.
  - inversion Htk as [|? ? [Hr _] _]; subst.
    destruct (resume_exit_acts wire x s Hg Ht Hs recv free now (Hr _ (or_introl eq_refl))) as (s' & a & E & Ha).
    rewrite E; eexists; split; [reflexivity|]; destruct a; exact Ha.
Qed.

(** ** A resumable session keeps its layer and its attachments *)

Definition usable (s : session) : Prop := is_Some (s_rs s) /\ is_Some (s_att s).

Lemma usable_same s s' : usable s -> same_end s s' -> s_att s' = s_att s -> usable s'.
Proof. intros [H1 H2] (Hr & _ & _) Ha; unfold usable; rewrite Hr, Ha; auto. Qed.

Lemma usable_ep e s : usable s -> usable (set_ep e s).
Proof. intros [_ H]; split; [eexists; reflexivity|exact H]. Qed.

Lemma usable_on_layer {A} (act : endpoint -> option (endpoint * A)) rs s s' o :
  usable s -> on_layer act rs s = Some (s', o) -> usable s'.
Proof.
  intros Hu; unfold on_layer; destruct (act (sess_ep s rs)) as [[e o1]|]; [|discriminate].
  intros [= <- _]; apply usable_ep, Hu.
Qed.

Lemma endPoll_att now s : s_att (endPoll now s) = s_att s.
Proof. unfold endPoll, noteDetachedLocked; cbn; repeat case_match; reflexivity. Qed.

Lemma beginPoll_att now s : s_att (beginPoll now s).1 = s_att s.
Proof. unfold beginPoll; case_if; reflexivity. Qed.

Lemma resume_enter_usable b now s : usable s -> usable (resume_enter b now s).1.
Proof.
  intros Hu; split; [destruct (resume_enter_same b now s) as (-> & _); apply Hu|].
  pose proof (beginPoll_att now s) as Hb; unfold resume_enter; repeat case_match; simplify_eq/=;
    rewrite ?endPoll_att; cbn; rewrite ?Hb; eauto; apply Hu.
Qed.

Lemma upload_usable f s s' o : usable s -> pollSendStream_frame false f s = Some (s', o) -> usable s'.
Proof.
  intros Hu E; pose proof Hu as [[rs Hrs] _]; destruct f as [typ p]; unfold pollSendStream_frame in E; rewrite Hrs in E.
  cbn [negb] in E; repeat case_match; simplify_eq; auto; eapply usable_on_layer; eassumption.
Qed.

Lemma ws_frame_usable f s s' o : usable s -> wsReadPump_frame f s = Some (s', o) -> usable s'.
Proof.
  intros Hu E; pose proof Hu as [[rs Hrs] _]; destruct f as [typ p]; unfold wsReadPump_frame in E; rewrite Hrs in E.
  repeat case_match; simplify_eq; auto; eapply usable_on_layer; eassumption.
Qed.

Lemma sv_step_usable ev s s' : usable s -> sv_step ev s = Some s' -> usable s'.
Proof.
  intros Hu E; pose proof Hu as [[rs Hrs] [att0 Ha]].
  destruct ev as [d|dst| | |now|now|now|now|now|a| | |bufsize att t b|bufsize att step c|maxSend body|send bufsize q env|b now
                 |recv free now]; cbn [sv_step] in E; try (injection E as <-).
  - unfold Session_Write; destruct (pipe_Write _ _) as [[p [n|err]] warned]; exact Hu.
  - unfold Session_Read; destruct (pipe_Read _ _) as [[p r]|]; exact Hu.
  - exact Hu.
  - exact Hu.
  - eapply usable_same; [exact Hu|apply begin_same|apply beginPoll_att].
  - unfold beginWebSocket; case_if; exact Hu.
  - exact Hu.
  - eapply usable_same; [exact Hu|apply endPoll_same|apply endPoll_att].
  - unfold endWebSocket, noteDetachedLocked; cbn; repeat case_match; exact Hu.
  - split; cbn; eauto.
  - unfold stop_pumps; rewrite Hrs; apply usable_ep, Hu.
  - split; cbn; [rewrite Hrs; eexists; reflexivity|eauto].
  - unfold pollStream_step in E; rewrite Hrs in E.
    destruct (pollStreamResumable_turn _ _ _ _ _ _ _ _) as [[e b1] []]; simplify_eq; apply usable_ep, Hu.
  - destruct step as [[] msg|err|ctxDone a sched]; cbn [pump] in E; [|simplify_eq; exact Hu..|].
    + destruct (wsDecode msg); [|simplify_eq; exact Hu].
      destruct (wsReadPump_frame a s) as [[s1 o]|] eqn:E1; simplify_eq; eapply ws_frame_usable; eassumption.
    + rewrite Hrs in E; destruct (wsWritePumpResumable_turn _ _ _ _ _ _ _) as [[e c1] []]; simplify_eq; apply usable_ep, Hu.
  - destruct (frame_next maxSend body).1 as [f|]; [|simplify_eq; exact Hu].
    destruct (pollSendStream_frame false f s) as [[s1 o]|] eqn:E1; simplify_eq; eapply upload_usable; eassumption.
  - rewrite Hrs in E; destruct (pollBatchResumable _ _ _ _ _); simplify_eq; apply usable_ep, Hu.
  - apply resume_enter_usable, Hu.
  - unfold resume_exit in E; rewrite Hrs in E.
    assert (Hleave : forall s1, usable s1 -> usable (endPoll now (on_att endResume s1))).
    { intros s1 [H1 [att1 H2]]; eapply usable_same; [|apply endPoll_same|apply endPoll_att].
      split; [exact H1|]; cbn; rewrite H2; eexists; reflexivity. }
    destruct free; cbn [negb] in E; [|injection E as <-; apply Hleave, Hu].
    destruct (resumeOut rs recv) as [[r []]|]; [| |discriminate]; injection E as <-; apply Hleave; split; cbn; eauto.
Qed.
