(* ===== verification/System.v ===== *)
(** * System.v: a resumable session, end to end

    The client machine of Legs.v, the server machine of Server.v and the network
    between them.  The network keeps everything either side ever sent and may
    hand any of it over at any time, any number of times or never; it may also
    cut bodies, fail requests and make up error responses.  A step is one event
    of one machine, so the two legs of the client, the handlers of the server,
    the supervisor, the resume handshake and both applications interleave
    freely.  Every run of this system is a run of the channel of Channel.v,
    with the same layers and the same histories of the applications. *)

From S2P Require Import Prelude Frame Pipe Protocol Reliable Channel Attach Session.
From S2P Require Import Connect Resume Batch Reconnect Stream Plain Poll WebSocket Legs Wire Server.

(** ** What the client puts on the wire and takes from it *)

(** How a wait of the client's sending loops that was interrupted goes on. *)
Definition leg_interrupted (done : bool) : option (option goerr) := if done then Some (Some ErrCtx) else None.

Definition leg_sends (cf : rconf) (done : bool) (i : leg_input) (l : leg) (e : endpoint) : list net_msg :=
  match l, i with
  | WsWriting _, InTurn _ _ sched | UpFeeding _ _, InTurn _ _ sched =>
      map NetFrame (turn_frames (leg_interrupted done) (rf_maxFrame cf) sched e)
  | _, _ => []
  end.

Definition leg_wrote (cf : rconf) (i : leg_input) (l : leg) (e : endpoint) : list byte :=
  match l, i with
  | WsWriting _, InTurn _ _ sched | UpFeeding _ _, InTurn _ _ sched => nextOut_written e (rf_maxFrame cf) sched
  | UpBatch, InTurn _ _ sched => nextOut_written e (rf_maxSendChunk cf) sched
  | _, _ => []
  end.

(** Messages a leg acts on; an answer with an error status may come from
    anybody. *)
Definition leg_takes (cf : rconf) (i : leg_input) (l : leg) : list net_msg :=
  match l, i with
  | WsReading, InMsg true msg => match wsDecode msg with Ok f => frame_takes f | Fail _ => [] end
  | DownReading body, InFrame => match (frame_next (rf_maxFrame cf) body).1 with Ok f => frame_takes f | Fail _ => [] end
  | DownBatch, InPolled (Delivered r) _ | UpSending _ _, InSent (Delivered r) =>
      if (br_status r =? StatusOK) || (br_status r =? StatusNoContent) then [NetAnswer r] else []
  | _, _ => []
  end.

(** The request a leg has in flight, as it is made with the layer's offset. *)
Definition leg_request (r : reliable) (l : leg) : list net_msg :=
  match l with
  | DownBatch => [NetBatch false (batch_poll_request r)]
  | UpSending off data => [NetBatch true (batch_send_request r off data)]
  | _ => []
  end.

(** *** The client *)

Definition legs_done (x : client) (first : option goerr) : bool :=
  rc_cancelled (cl_conn x) || bool_decide (is_Some first).

Definition cl_sends (cf : rconf) (ev : cl_event) (x : client) : list net_msg :=
  match ev, cl_sup x with
  | LegIn up i, SupLegs _ first d u =>
      leg_sends cf (legs_done x first) i (if up then u else d) (rc_ep (cl_conn x))
  | _, _ => []
  end.

Definition cl_takes (cf : rconf) (ev : cl_event) (x : client) : list net_msg :=
  match ev, cl_sup x with
  | LegIn up i, SupLegs _ _ d u => leg_takes cf i (if up then u else d)
  | Attempt a _, SupResume _ _ _ _ =>
      match doResume (ra_reply a) with Ok n => [NetResume n] | Fail _ => [] end
  | _, _ => []
  end.

Definition cl_wrote (cf : rconf) (ev : cl_event) (x : client) : list byte :=
  match ev, cl_sup x with
  | AppWrite d, _ => match (rc_Write (cl_conn x) d).2 with Ok _ => d | Fail _ => [] end
  | LegIn up i, SupLegs _ _ d u => leg_wrote cf i (if up then u else d) (rc_ep (cl_conn x))
  | _, _ => []
  end.

Definition cl_got (ev : cl_event) (x : client) : list byte :=
  match ev with
  | AppRead dst => match rc_Read (cl_conn x) dst with Some (_, Ok d) => d | _ => [] end
  | _ => []
  end.

(** Requests that are in flight, of the legs and of the handshake. *)
Definition cl_requests (x : client) : list net_msg :=
  let r := ep_rl (rc_ep (cl_conn x)) in
  match cl_sup x with
  | SupLegs _ _ d u => leg_request r d ++ leg_request r u
  | SupResume _ _ _ _ => [NetResume (rreq_RecvOffset (resume_request r))]
  | SupOver _ => []
  end.

Definition input_sched (i : leg_input) : list (list pipe_event) :=
  match i with InTurn _ _ sched => sched | _ => [] end.

(** While a leg waits nobody else takes from its pipe. *)
Definition cl_ok (ev : cl_event) : Prop :=
  match ev with LegIn _ i => no_rival (concat (input_sched i)) | _ => True end.

Definition cl_volume (ev : cl_event) : Z :=
  match ev with
  | AppWrite d => len d
  | LegIn _ i => events_volume (concat (input_sched i))
  | _ => 0
  end.

(** ** The system *)

Record system := mk_system {
  sy_client : client;
  sy_server : session;
  sy_up : list net_msg;             (* everything the client ever sent *)
  sy_down : list net_msg;           (* everything the server ever sent *)
  sy_wrote : bool -> list byte;     (* what the applications wrote and read: *)
  sy_read : bool -> list byte;      (* [true] is the client's *)
}.

Definition put (b : bool) (d : list byte) (h : bool -> list byte) : bool -> list byte := upd b (h b ++ d) h.

Inductive sy_step (cf : rconf) (y : system) : system -> Prop :=
| sy_client_step ev x' :
    cl_ok ev -> len (sy_wrote y true) + cl_volume ev < 2 ^ 63 ->
    incl (cl_takes cf ev (sy_client y)) (sy_down y) ->
    cl_step cf ev (sy_client y) = Some x' ->
    sy_step cf y
      (mk_system x' (sy_server y) (sy_up y ++ cl_sends cf ev (sy_client y)) (sy_down y)
         (put true (cl_wrote cf ev (sy_client y)) (sy_wrote y)) (put true (cl_got ev (sy_client y)) (sy_read y)))
| sy_request m :
    In m (cl_requests (sy_client y)) ->
    sy_step cf y
      (mk_system (sy_client y) (sy_server y) (sy_up y ++ [m]) (sy_down y) (sy_wrote y) (sy_read y))
| sy_server_step ev s' :
    sv_ok ev -> len (sy_wrote y false) + sv_volume ev < 2 ^ 63 ->
    incl (sv_takes ev) (sy_up y) ->
    sv_step ev (sy_server y) = Some s' ->
    sy_step cf y
      (mk_system (sy_client y) s' (sy_up y) (sy_down y ++ sv_sends ev (sy_server y))
         (put false (sv_wrote ev (sy_server y)) (sy_wrote y)) (put false (sv_got ev (sy_server y)) (sy_read y))).

Definition new_system (cf : rconf) (c : rconn) (s : session) : system :=
  mk_system (new_client cf c) s [] [] (fun _ => []) (fun _ => []).

(** ** The client is an end of the channel *)

(** What a leg still has to send, apart from the offset it will state. *)
Fixpoint leg_pending (l : leg) : list net_msg :=
  match l with
  | Opening l => leg_pending l
  | UpSending off data => [send_part off data]
  | _ => []
  end.

Definition cl_parts (x : client) : list net_msg :=
  match cl_sup x with SupLegs _ _ d u => leg_pending d ++ leg_pending u | _ => [] end.

Lemma answer_taken wire (r : batch_response) :
  Forall (carried wire) (if (br_status r =? StatusOK) || (br_status r =? StatusNoContent) then [NetAnswer r] else []) ->
  answer_carried wire (Delivered r).
Proof.
  intros Hf Hst; replace (_ || _) with true in Hf.
  - inversion Hf; assumption.
  - destruct Hst as [-> | ->]; reflexivity.
Qed.

Section ClientLeg.
Context (cf : rconf) (Hframe : 0 < rf_maxFrame cf) (Hchunk : 0 < rf_maxSendChunk cf).
Context (wire : list packet) (x : side) (Hg : wire_good wire x) (Ht : sd_taken x = []).

(** The outcome of a step of a leg. *)
Definition leg_acts (done : bool) (i : leg_input) (l : leg) : Prop :=
  exists e' l' parts, leg_step cf done i l (sd_ep x) = Some (e', l')
    /\ acts wire x e' (leg_wrote cf i l (sd_ep x)) [] (leg_sends cf done i l (sd_ep x) ++ parts)
    /\ incl (leg_pending l') (leg_pending l ++ parts).

(** A step that neither sends nor writes. *)
Lemma leg_quiet done i l e' l' :
  leg_step cf done i l (sd_ep x) = Some (e', l') ->
  leg_wrote cf i l (sd_ep x) = [] -> leg_sends cf done i l (sd_ep x) = [] ->
  acts wire x e' [] [] [] -> incl (leg_pending l') (leg_pending l) -> leg_acts done i l.
Proof.
  intros E Hw Hs Ha Hi; exists e', l', []; rewrite Hw, Hs, (app_nil_r (leg_pending l)); split_and!; auto.
Qed.

Lemma downLoop_parts done err : leg_pending (downLoop_next done err) = [].
Proof. unfold downLoop_next; repeat case_match; reflexivity. Qed.

Lemma upLoop_parts done r : leg_pending (upLoop_next done r) = [].
Proof. unfold upLoop_next; repeat case_match; reflexivity. Qed.

Lemma leg_handled done i l l1 r :
  leg_step cf done i l (sd_ep x) = acted l1 r ->
  leg_wrote cf i l (sd_ep x) = [] -> leg_sends cf done i l (sd_ep x) = [] ->
  handles wire x r -> leg_pending l1 = [] -> leg_acts done i l.
Proof.
  intros E Hw Hs (e & err & -> & Ha) Hp; cbn in E.
  destruct err; (eapply leg_quiet; [exact E|exact Hw|exact Hs|exact Ha|cbn; rewrite ?Hp; intros ? []]).
Qed.

(** *** The legs one by one *)

Section OneStep.
Context (done : bool).

Lemma leg_move i l l' : leg_step cf done i l (sd_ep x) = Some (sd_ep x, l') ->
  leg_wrote cf i l (sd_ep x) = [] -> leg_sends cf done i l (sd_ep x) = [] -> leg_pending l' = [] -> leg_acts done i l.
Proof. intros E Hw Hs Hp; eapply leg_quiet; eauto using acts_nil; rewrite Hp; intros ? []. Qed.

Context (expired : bool) (plan : list (option (nat * goerr))) (sched : list (list pipe_event)).
Context (Hn : no_rival (concat sched)) (Hv : len (sd_written x) + events_volume (concat sched) < 2 ^ 63).

Lemma ws_writing_acts c : leg_acts done (InTurn expired plan sched) (WsWriting c).
Proof.
  unfold leg_acts; cbn [leg_step leg_wrote leg_sends]; unfold wsWriteLoop_turn.
  destruct (send_turn_acts wire x (good_side _ _ Hg) Ht None (Some EOF) (leg_interrupted done) None false
              (rf_maxFrame cf) sched (mk_ws (ws_msgs c) (map (option_map snd) plan)) Hframe Hn Hv)
    as (e' & w' & st & E & Hst & Ha); fold (leg_interrupted done); rewrite E.
  destruct st; [| |congruence]; do 2 eexists; exists []; rewrite app_nil_r;
    (split; [reflexivity|]); (split; [exact Ha|]); intros ? [].
Qed.

Lemma up_feeding_acts b answer : leg_acts done (InTurn expired plan sched) (UpFeeding b answer).
Proof.
  unfold leg_acts; cbn [leg_step leg_wrote leg_sends]; unfold feedSendStream_turn.
  destruct (send_turn_acts wire x (good_side _ _ Hg) Ht (Some frameEnd) None (leg_interrupted done) (Some frameEnd) expired
              (rf_maxFrame cf) sched (mk_hbody (mk_writer (w_out (hb_writer b)) plan) (hb_frames b)) Hframe Hn Hv)
    as (e' & w' & st & E & Hst & Ha); fold (leg_interrupted done); rewrite E.
  destruct st; [| |congruence]; do 2 eexists; exists []; rewrite app_nil_r;
    (split; [reflexivity|]); (split; [exact Ha|]); [intros ? []|].
  destruct answer; cbn [leg_pending]; rewrite ?upLoop_parts; intros ? [].
Qed.

Lemma up_batch_acts : leg_acts done (InTurn expired plan sched) UpBatch.
Proof.
  pose proof (batchUpLoop_acts wire x Hg Ht (rf_pollStream cf) done (rf_maxSendChunk cf) sched Hchunk Hn Hv) as Ha.
  cbn zeta in Ha; unfold leg_acts; cbn [leg_step leg_wrote leg_sends].
  destruct (batchUpLoop_turn _ _ _ _ _) as [e err|e|e off data|]; [| | |destruct Ha];
    [exists e, (LegOver err), []|exists e, UpBatch, []|exists e, (UpSending off data), [send_part off data]; destruct Ha as [Ha _]];
    (split; [reflexivity|]); (split; [exact Ha|]); [intros ? []..|apply incl_refl].
Qed.

Lemma down_reading_acts body : Forall (carried wire) (leg_takes cf InFrame (DownReading body)) ->
  leg_acts done InFrame (DownReading body).
Proof.
  cbn [leg_takes]; destruct (frame_next (rf_maxFrame cf) body) as [[f|err] body'] eqn:Ef; cbn [fst]; intros Htk.
  - destruct (doStreamPoll_frame_acts wire x Hg Ht f) as (e & err & E & Ha); [apply frame_taken, Htk|].
    destruct err as [err|]; (eapply leg_quiet; [cbn [leg_step]; rewrite Ef, E; reflexivity|reflexivity..|exact Ha|]);
      rewrite ?downLoop_parts; intros ? [].
  - destruct err; (eapply leg_move; [cbn [leg_step]; rewrite Ef; reflexivity|reflexivity..|apply downLoop_parts]).
Qed.

Lemma down_batch_acts d slept : Forall (carried wire) (leg_takes cf (InPolled d slept) DownBatch) ->
  leg_acts done (InPolled d slept) DownBatch.
Proof.
  intros Htk; assert (Hc : answer_carried wire d) by (destruct d; [exact I..|apply answer_taken, Htk]).
  destruct (doBatchPoll_acts wire x Hg Ht (rf_maxFrame cf) d Hc) as (e & r & E & Ha).
  assert (Hq : forall l', leg_step cf done (InPolled d slept) DownBatch (sd_ep x) = Some (e, l') ->
    leg_pending l' = [] -> leg_acts done (InPolled d slept) DownBatch)
    by (intros l' El Hp; eapply leg_quiet; [exact El|reflexivity..|exact Ha|rewrite Hp; intros ? []]).
  cbn [leg_step] in Hq; rewrite E in Hq; destruct r as [got|err]; [|eapply Hq; reflexivity].
  repeat case_match; eapply Hq; reflexivity.
Qed.
End OneStep.

Lemma leg_step_acts done i l :
  no_rival (concat (input_sched i)) -> len (sd_written x) + events_volume (concat (input_sched i)) < 2 ^ 63 ->
  Forall (carried wire) (leg_takes cf i l) -> leg_acts done i l.
Proof.
  intros Hn Hv Htk.
  assert (Hidle : leg_step cf done i l (sd_ep x) = Some (sd_ep x, l) ->
    leg_wrote cf i l (sd_ep x) = [] -> leg_sends cf done i l (sd_ep x) = [] -> leg_acts done i l)
    by (intros E Hw Hs; eapply leg_quiet; eauto using acts_nil, incl_refl).
  destruct l as [err|l| |c| |body| |b answer|feedErr| |off data];
    destruct i as [|err'|binary msg|expired plan sched|rep| |d slept|a|d]; try (apply Hidle; reflexivity).
  - (* Opening *)
    eapply leg_quiet; [reflexivity..| |apply incl_refl].
    apply (acts_rl wire x (resetAck (rl x)) Ht), st_resetAck.
  - eapply leg_move; reflexivity.
  - destruct binary; [|apply Hidle; reflexivity]; cbn [leg_takes] in Htk.
    destruct (wsDecode msg) as [f|err] eqn:Ed.
    + eapply (leg_handled _ _ _ WsReading); [cbn [leg_step]; rewrite Ed; reflexivity|reflexivity..| |reflexivity].
      apply wsReadLoop_frame_acts, frame_taken; auto.
    + eapply leg_move; [cbn [leg_step]; rewrite Ed|..]; reflexivity.
  - apply ws_writing_acts; assumption.
  - destruct rep; eapply leg_move; (reflexivity || apply downLoop_parts).
  - eapply leg_move; [reflexivity..|apply downLoop_parts].
  - apply down_reading_acts, Htk.
  - apply down_batch_acts, Htk.
  - apply up_feeding_acts; assumption.
  - eapply leg_move; reflexivity.
  - eapply leg_move; [reflexivity..|apply upLoop_parts].
  - apply up_batch_acts; assumption.
  - (* UpSending *)
    eapply (leg_handled _ _ _ UpBatch); [reflexivity..| |reflexivity].
    apply doBatchSend_acts; auto; destruct d; [exact I..|apply answer_taken, Htk].
Qed.
End ClientLeg.

Section ClientStep.
Context (cf : rconf) (Hframe : 0 < rf_maxFrame cf) (Hchunk : 0 < rf_maxSendChunk cf).
Context (wire : list packet) (x : side) (Hg : wire_good wire x) (Ht : sd_taken x = []).
Context (c : client) (Hc : rc_ep (cl_conn c) = sd_ep x).

Definition client_acts (ev : cl_event) : Prop :=
  exists c' parts, cl_step cf ev c = Some c'
    /\ acts wire x (rc_ep (cl_conn c')) (cl_wrote cf ev c) (cl_got ev c) (cl_sends cf ev c ++ parts)
    /\ incl (cl_parts c') (cl_parts c ++ parts).

(** Steps the application and the wire have no part in. *)
Lemma client_quiet ev c' :
  cl_step cf ev c = Some c' -> cl_wrote cf ev c = [] -> cl_got ev c = [] -> cl_sends cf ev c = [] ->
  acts wire x (rc_ep (cl_conn c')) [] [] [] -> incl (cl_parts c') (cl_parts c) -> client_acts ev.
Proof.
  intros E Hw Hr Hs Ha Hi; exists c', []; rewrite Hw, Hr, Hs, (app_nil_r (cl_parts c)); split_and!; auto.
Qed.

Lemma client_idle ev : cl_step cf ev c = Some c -> cl_wrote cf ev c = [] -> cl_got ev c = [] ->
  cl_sends cf ev c = [] -> client_acts ev.
Proof.
  intros E Hw Hr Hs; apply (client_quiet ev c); auto using incl_refl; rewrite Hc; apply acts_nil, Ht.
Qed.

(** A silent step of the end after an action. *)
Lemma acts_snoc e e' wr rd ms : acts wire x e wr rd ms ->
  (forall x1, sd_ep x1 = e -> sd_taken x1 = [] -> acts wire x1 e' [] [] []) -> acts wire x e' wr rd ms.
Proof.
  intros Ha Hn; rewrite <- (app_nil_r wr), <- (app_nil_r rd), <- (app_nil_r ms).
  apply (acts_seq wire x e e' wr [] rd [] ms [] Hg Ha); intros x1 _ He Ht1 _ _; auto.
Qed.

Lemma close_in_acts e wr rd ms : acts wire x e wr rd ms -> acts wire x (close_in e) wr rd ms.
Proof.
  intros Ha; apply (acts_snoc e); auto; intros x1 <- Ht1.
  apply (acts_step wire x1 _ Ht1 (st_closeIn wire x1)); auto.
Qed.

Lemma interrupt_acts e wr rd ms : acts wire x e wr rd ms -> acts wire x (interruptOut e) wr rd ms.
Proof.
  intros Ha; apply (acts_snoc e); auto; intros x1 <- Ht1.
  apply (acts_step wire x1 _ Ht1 (st_interrupt wire x1)); auto.
Qed.

Lemma fail_acts rc : acts wire x (rc_ep rc) [] [] [] -> acts wire x (rc_ep (rc_fail rc)) [] [] [].
Proof. intros He; unfold rc_fail; case_if; cbn; auto using close_in_acts. Qed.

Lemma sessionClosed_acts rc id active : acts wire x (rc_ep rc) [] [] [] ->
  acts wire x (rc_ep (rc_onSessionClosed id active rc)) [] [] [].
Proof.
  intros He; unfold rc_onSessionClosed; case_bool_decide; [apply fail_acts, He|].
  destruct (rc_superseded rc); cbn; apply close_in_acts, He.
Qed.

Lemma app_write_acts d : len (sd_written x) + len d < 2 ^ 63 ->
  acts wire x (rc_ep (rc_Write (cl_conn c) d).1) (match (rc_Write (cl_conn c) d).2 with Ok _ => d | Fail _ => [] end) [] [].
Proof.
  intros Hv; unfold rc_Write; case_if; [cbn; rewrite Hc; apply acts_nil, Ht|].
  destruct (Z.eqb_spec (len d) 0) as [H0|H0].
  { apply len_zero_iff in H0; subst d; cbn; rewrite Hc; apply acts_nil, Ht. }
  destruct (pipe_Write (ep_out (rc_ep (cl_conn c))) d) as [[out [n|err]] warned] eqn:E; cbn; rewrite Hc in *.
  - eexists (mk_side _ _ _ _ _ _), []; split_and!; [..|eapply side_run_one, st_write; [exact E|len_lia]|];
      cbn; rewrite ?app_nil_r; auto.
  - unfold pipe_Write in E; case_if_in E; simplify_eq; fold (rl x); rewrite end_eta; apply acts_nil, Ht.
Qed.

Lemma app_read_acts dst :
  acts wire x (rc_ep (match rc_Read (cl_conn c) dst with Some (c, _) => c | None => cl_conn c end)) []
    (match rc_Read (cl_conn c) dst with Some (_, Ok d) => d | _ => [] end) [].
Proof.
  unfold rc_Read; destruct (pipe_Read (ep_in (rc_ep (cl_conn c))) dst) as [[inp [d|err]]|] eqn:E; cbn;
    rewrite Hc in *; [..|apply acts_nil, Ht].
  - eexists (mk_side _ _ _ _ _ _), []; split_and!; [..|eapply side_run_one, st_read; exact E|];
      cbn; rewrite ?app_nil_r; auto.
  - unfold pipe_Read in E; destruct (p_buf (ep_in (sd_ep x))); [case_if_in E|]; simplify_eq.
    fold (rl x); rewrite end_eta; apply acts_nil, Ht.
Qed.

Lemma app_close_acts : acts wire x (rc_ep (rc_Close (cl_conn c))) [] [] [].
Proof.
  unfold rc_Close; case_if; cbn; rewrite Hc; [apply acts_nil, Ht|apply interrupt_acts].
  apply (acts_step wire x _ Ht (st_closeOut wire x)); auto.
Qed.

Lemma leg_in_acts up i : cl_ok (LegIn up i) -> len (sd_written x) + cl_volume (LegIn up i) < 2 ^ 63 ->
  Forall (carried wire) (cl_takes cf (LegIn up i) c) -> client_acts (LegIn up i).
Proof.
  intros Hn Hv Htk; unfold client_acts; cbn [cl_step cl_wrote cl_got cl_sends cl_takes] in *.
  unfold cl_parts; destruct (cl_sup c) as [before first d u| |] eqn:Es;
    try (exists c, []; rewrite Es, Hc; split_and!; [reflexivity|apply acts_nil, Ht|apply incl_refl]).
  destruct (leg_step_acts cf Hframe Hchunk wire x Hg Ht (legs_done c first) i (if up then u else d) Hn Hv Htk)
    as (e & l & parts & E & Ha & Hp).
  unfold legs_step; rewrite Hc; fold (legs_done c first); rewrite E.
  destruct (match first, l with None, LegOver err => (Some err, interruptOut e) | _, _ => (first, e) end)
    as [first' e'] eqn:Ee.
  assert (Ha' : acts wire x e' (leg_wrote cf i (if up then u else d) (sd_ep x)) []
                  (leg_sends cf (legs_done c first) i (if up then u else d) (sd_ep x) ++ parts))
    by (destruct first, l; injection Ee as <- <-; auto using interrupt_acts).
  eexists _, parts; split; [reflexivity|]; split; [exact Ha'|].
  destruct up; cbn [cl_sup]; intros m Hm; specialize (Hp m); rewrite ?in_app_iff in *; tauto.
Qed.

Lemma joined_acts duration start active : client_acts (Joined duration start active).
Proof.
  assert (Hid : acts wire x (rc_ep (cl_conn c)) [] [] []) by (rewrite Hc; apply acts_nil, Ht).
  destruct (cl_sup c) as [before [err|] [] []| |] eqn:Es;
    try (apply client_idle; [cbn [cl_step]; rewrite Es|..]; reflexivity).
  eapply client_quiet; [cbn [cl_step]; rewrite Es; reflexivity|reflexivity..| |];
    unfold sup_joined, cl_parts; repeat (case_match; simplify_eq/=); try (intros ? []; fail);
    auto using fail_acts, sessionClosed_acts.
Qed.

Lemma start_legs_pending : leg_pending (start_legs cf).1 = [] /\ leg_pending (start_legs cf).2 = [].
Proof. unfold start_legs; repeat case_match; auto. Qed.

Lemma attempt_acts a active : Forall (carried wire) (cl_takes cf (Attempt a active) c) -> client_acts (Attempt a active).
Proof.
  cbn [cl_takes]; intros Htk.
  destruct (cl_sup c) as [| before duration deadline backoff|] eqn:Es;
    try (apply client_idle; [cbn [cl_step]; rewrite Es|..]; reflexivity).
  (* the layer after the attempt *)
  assert (Hr : exists st, (resume_loop (rf_ws cf) deadline backoff (ep_rl (rc_ep (cl_conn c))) [a]).2 = st
    /\ match st with
       | ResumeOK r | ResumeErr r _ | ResumeTrying r _ => acts wire x (on_rl (fun _ => r) (sd_ep x)) [] [] []
       | ResumePanic => False
       end).
  { eexists; split; [reflexivity|]; rewrite Hc; cbn [resume_loop].
    assert (Hsame : acts wire x (on_rl (fun _ => ep_rl (sd_ep x)) (sd_ep x)) [] [] [])
      by (replace (on_rl _ _) with (sd_ep x) by (destruct (sd_ep x); reflexivity); apply acts_nil, Ht).
    destruct (doResume (ra_reply a)) as [n|err].
    - inversion Htk as [|? ? [Hin _] _]; subst; specialize (Hin _ (or_introl eq_refl)).
      pose proof Hg as (P & Q & Hx & Hw & _); pose proof (wire_true _ _ _ Hw _ Hin) as [Hn _].
      destruct (resumeOut_spec _ _ _ n (si_rel _ Hx) Hn) as (r & ok & E & _ & _ & _ & Hno & _).
      unfold rl in E, Hno; rewrite E; destruct ok; [|rewrite (Hno eq_refl); exact Hsame].
      assert (Ha : acts wire x (on_rl (fun _ => r) (sd_ep x)) [] [] [])
        by (apply (acts_rl wire x r Ht (st_resume wire x n r true Hin E))).
      repeat case_match; simplify_eq/=; exact Ha.
    - destruct err; repeat case_match; simplify_eq/=; exact Hsame. }
  destruct Hr as (st & Est & Hst).
  assert (Hgoal : exists c', sup_attempt cf before duration deadline backoff a active c = Some c'
    /\ acts wire x (rc_ep (cl_conn c')) [] [] [] /\ cl_parts c' = []).
  { unfold sup_attempt; rewrite Est; destruct st as [r|r err|r backoff'|]; [..|destruct Hst];
      (assert (H1 : acts wire x (rc_ep (on_ep (on_rl (fun _ => r)) (cl_conn c))) [] [] []) by (cbn; rewrite Hc; exact Hst)).
    - destruct (guard_record _ _ _) as [g abandon]; destruct start_legs_pending as [Hd Hu].
      destruct (start_legs cf) as [d u]; eexists; split; [reflexivity|].
      destruct abandon; unfold cl_parts; cbn in *; rewrite ?Hd, ?Hu; split; auto; apply (fail_acts (on_ep (on_rl (fun _ => r)) (cl_conn c)) H1).
    - eexists; split; [reflexivity|]; destruct (rc_done (cl_conn c)); [|destruct (isSessionClosedErr err)];
        (split; [|reflexivity]).
      + exact H1.
      + exact (sessionClosed_acts (on_ep (on_rl (fun _ => r)) (cl_conn c)) _ _ H1).
      + exact (fail_acts (on_ep (on_rl (fun _ => r)) (cl_conn c)) H1).
    - eexists; split; [reflexivity|]; auto. }
  destruct Hgoal as (c' & E & Ha & Hp).
  eapply client_quiet; [cbn [cl_step]; rewrite Es; exact E|reflexivity..|exact Ha|rewrite Hp; intros ? []].
Qed.

Lemma cl_step_acts ev : cl_ok ev -> len (sd_written x) + cl_volume ev < 2 ^ 63 ->
  Forall (carried wire) (cl_takes cf ev c) -> client_acts ev.
Proof.
  intros Hok Hv Htk; destruct ev as [d|dst| | |up i|duration start active|a active];
    auto using leg_in_acts, joined_acts, attempt_acts.
  - exists (on_rc (fun c => (rc_Write c d).1) c), []; split; [reflexivity|]; cbn; rewrite app_nil_r.
    split; [apply app_write_acts, Hv|apply incl_refl].
  - eexists _, []; split; [reflexivity|]; cbn; rewrite app_nil_r; split; [apply app_read_acts|apply incl_refl].
  - eapply client_quiet; try reflexivity; [apply app_close_acts|apply incl_refl].
  - assert (Hid : acts wire x (rc_ep (cl_conn c)) [] [] []) by (rewrite Hc; apply acts_nil, Ht).
    eapply client_quiet; try reflexivity; cbn [cl_step]; destruct (cl_sup c) eqn:Es; unfold cl_parts; rewrite ?Es;
      auto using incl_refl; case_if; auto using close_in_acts; cbn; rewrite ?Es; auto using incl_refl.
    apply (close_in_acts _ _ _ _ Hid).
Qed.
End ClientStep.

(** ** The system refines the channel *)

Lemma side_run_sys b x' out (s : sys) :
  side_run (wires s (negb b)) (sides s b) x' out ->
  exists s', rtc sys_step s s' /\ sides s' b = x' /\ sides s' (negb b) = sides s (negb b)
    /\ wires s' b = wires s b ++ out /\ wires s' (negb b) = wires s (negb b).
Proof.
  remember (wires s (negb b)) as w eqn:Ew; remember (sides s b) as x eqn:Ex; intros Hr; revert s Ew Ex.
  induction Hr as [x|x y z o o' Hs _ IH]; intros s Ew Ex.
  - exists s; rewrite app_nil_r; split_and!; auto using rtc_refl.
  - rewrite Ew, Ex in Hs; pose (s1 := mk_sys (upd b y (sides s)) (upd b (wires s b ++ o) (wires s))).
    destruct (IH s1) as (s' & H1 & H2 & H3 & H4 & H5);
      [cbn; rewrite upd_other; exact Ew|cbn; rewrite upd_same; reflexivity|].
    exists s'; subst s1; cbn [sides wires] in *; rewrite upd_other in H3; rewrite upd_same in H4.
    split_and!; auto.
    + eapply rtc_l; [exact (sys_side s b y o Hs)|exact H1].
    + rewrite H4, app_assoc; reflexivity.
Qed.

Lemma sys_good s b : sys_inv s -> wire_good (wires s (negb b)) (sides s b).
Proof.
  intros [Hs Hp _ Hw]; exists (sd_sent (sides s (negb b))), (sd_got (sides s (negb b))); split_and!; auto.
  - pose proof (Hp (negb b)) as Hq; rewrite negb_involutive in Hq; apply prefix_length in Hq; unfold len; lia.
  - apply side_max, Hs.
Qed.

(** The layers of the two machines are the ends of the channel, the histories
    are the channel's, and everything sent or about to be sent is on its wires. *)
Record sy_refines (y : system) (s : sys) : Prop := {
  sr_client : rc_ep (cl_conn (sy_client y)) = sd_ep (sides s true);
  sr_server : at_end (sy_server y) (sides s false);
  sr_taken : forall b, sd_taken (sides s b) = [];
  sr_wrote : forall b, sd_written (sides s b) = sy_wrote y b;
  sr_read : forall b, sd_read (sides s b) = sy_read y b;
  sr_up : Forall (carried (wires s true)) (sy_up y ++ cl_parts (sy_client y));
  sr_down : Forall (carried (wires s false)) (sy_down y);
}.

Lemma carried_grow w out ms : Forall (carried w) ms -> Forall (carried (w ++ out)) ms.
Proof. intros Hf; eapply Forall_impl; [exact Hf|]; intros m; apply carried_mono; intros p Hp; apply in_app_iff; auto. Qed.

Lemma carried_new w out ms : Forall (carried out) ms -> Forall (carried (w ++ out)) ms.
Proof. intros Hf; eapply Forall_impl; [exact Hf|]; intros m; apply carried_mono; intros p Hp; apply in_app_iff; auto. Qed.

Lemma carried_sub w ms ms' : incl ms ms' -> Forall (carried w) ms' -> Forall (carried w) ms.
Proof.
  intros Hi Hf; rewrite Forall_forall in *; intros m Hm; apply Hf, list_elem_of_In, Hi, list_elem_of_In, Hm.
Qed.

(** An action of one end, as steps of the channel. *)
Lemma acts_sys s b e' wr rd ms :
  acts (wires s (negb b)) (sides s b) e' wr rd ms ->
  exists s' out, rtc sys_step s s' /\ sd_ep (sides s' b) = e' /\ sd_taken (sides s' b) = []
    /\ sd_written (sides s' b) = sd_written (sides s b) ++ wr /\ sd_read (sides s' b) = sd_read (sides s b) ++ rd
    /\ sides s' (negb b) = sides s (negb b) /\ wires s' b = wires s b ++ out /\ wires s' (negb b) = wires s (negb b)
    /\ Forall (carried out) ms.
Proof.
  intros (x' & out & He & Ht & Hw & Hr & Hrun & Hm).
  destruct (side_run_sys b x' out s Hrun) as (s' & H1 & H2 & H3 & H4 & H5).
  exists s', out; rewrite H2; split_and!; auto.
Qed.

Section SystemStep.
Context (cf : rconf) (Hframe : 0 < rf_maxFrame cf) (Hchunk : 0 < rf_maxSendChunk cf).
Context (y : system) (s : sys) (Hy : sy_refines y s) (Hs : sys_inv s).

Lemma client_event_refines ev :
  cl_ok ev -> len (sy_wrote y true) + cl_volume ev < 2 ^ 63 -> incl (cl_takes cf ev (sy_client y)) (sy_down y) ->
  exists x', cl_step cf ev (sy_client y) = Some x'
    /\ exists s', rtc sys_step s s'
       /\ sy_refines (mk_system x' (sy_server y) (sy_up y ++ cl_sends cf ev (sy_client y)) (sy_down y)
                        (put true (cl_wrote cf ev (sy_client y)) (sy_wrote y))
                        (put true (cl_got ev (sy_client y)) (sy_read y))) s'.
Proof.
  intros Hok Hv Hin; destruct Hy as [Hc Hsv Ht Hw Hr Hup Hdown].
  destruct (cl_step_acts cf Hframe Hchunk _ _ (sys_good s true Hs) (Ht true) (sy_client y) Hc ev Hok
              ltac:(rewrite Hw; exact Hv) (carried_sub _ _ _ Hin Hdown)) as (x' & parts & E & Ha & Hp).
  exists x'; split; [exact E|].
  destruct (acts_sys s true _ _ _ _ Ha) as (s' & out & H1 & H2 & H3 & H4 & H5 & H6 & H7 & H8 & H9).
  exists s'; split; [exact H1|]; cbn [negb] in *; apply Forall_app in Hup as [Hup Hparts].
  apply Forall_app in H9 as [Hsent Hnew].
  constructor; cbn [sy_client sy_server sy_up sy_down sy_wrote sy_read]; rewrite ?H6, ?H7, ?H8; auto.
  - intros []; auto; rewrite H6; apply Ht.
  - intros []; [rewrite H4, Hw; reflexivity|rewrite H6; apply Hw].
  - intros []; [rewrite H5, Hr; reflexivity|rewrite H6; apply Hr].
  - rewrite !Forall_app; split_and!; auto using carried_grow, carried_new.
    apply (carried_sub _ _ _ Hp), Forall_app; split; auto using carried_grow, carried_new.
Qed.

Lemma server_event_refines ev :
  sv_ok ev -> len (sy_wrote y false) + sv_volume ev < 2 ^ 63 -> incl (sv_takes ev) (sy_up y) ->
  exists s1, sv_step ev (sy_server y) = Some s1
    /\ exists s', rtc sys_step s s'
       /\ sy_refines (mk_system (sy_client y) s1 (sy_up y) (sy_down y ++ sv_sends ev (sy_server y))
                        (put false (sv_wrote ev (sy_server y)) (sy_wrote y))
                        (put false (sv_got ev (sy_server y)) (sy_read y))) s'.
Proof.
  intros Hok Hv Hin; destruct Hy as [Hc Hsv Ht Hw Hr Hup Hdown].
  destruct (sv_acts _ _ (sy_server y) ev (sys_good s false Hs) (Ht false) Hsv Hok
              (carried_sub _ _ _ Hin (proj1 (proj1 (Forall_app _ _ _) Hup))) ltac:(rewrite Hw; exact Hv))
    as (s1 & E & r & Hrs & Ha).
  exists s1; split; [exact E|].
  destruct (acts_sys s false _ _ _ _ Ha) as (s' & out & H1 & H2 & H3 & H4 & H5 & H6 & H7 & H8 & H9).
  exists s'; split; [exact H1|]; cbn [negb] in *.
  constructor; cbn [sy_client sy_server sy_up sy_down sy_wrote sy_read]; rewrite ?H6, ?H7, ?H8; auto.
  - unfold at_end, rl; rewrite H2; auto.
  - intros []; auto; rewrite H6; apply Ht.
  - intros []; [rewrite H6; apply Hw|rewrite H4, Hw; reflexivity].
  - intros []; [rewrite H6; apply Hr|rewrite H5, Hr; reflexivity].
  - apply Forall_app; split; auto using carried_grow, carried_new.
Qed.

(** A request put on the wire states the client's offset. *)
Lemma request_refines m : In m (cl_requests (sy_client y)) ->
  exists s', rtc sys_step s s'
    /\ sy_refines (mk_system (sy_client y) (sy_server y) (sy_up y ++ [m]) (sy_down y) (sy_wrote y) (sy_read y)) s'.
Proof.
  intros Hin; pose proof (sys_good s true Hs) as Hg; destruct Hy as [Hc Hsv Ht Hw Hr Hup Hdown].
  destruct (side_run_sys true _ _ s (offset_run _ (sides s true))) as (s' & H1 & H2 & H3 & H4 & H5).
  exists s'; split; [exact H1|]; cbn [negb] in *; apply Forall_app in Hup as [Hup Hparts].
  assert (Hm : carried (wires s true ++ offset_packets (sides s true)) m).
  { unfold cl_requests in Hin; unfold cl_parts in Hparts; rewrite Hc in Hin.
    assert (Hleg : forall l, Forall (carried (wires s true)) (leg_pending l) ->
      In m (leg_request (ep_rl (sd_ep (sides s true))) l) -> carried (wires s true ++ offset_packets (sides s true)) m).
    { intros l Hl; destruct l; cbn; try (intros []; fail); intros [<-|[]].
      - apply (poll_request_carried _ _ Hg).
      - apply (send_request_carried _ _ Hg); inversion Hl; assumption. }
    destruct (cl_sup (sy_client y)) as [before first d u| |]; [| |destruct Hin].
    - apply Forall_app in Hparts as [Hd Hu]; apply in_app_iff in Hin as [Hin|Hin]; eauto.
    - destruct Hin as [<-|[]]; split; [|exact I]; intros p [<-|[]]; apply in_app_iff; right; right; left; reflexivity. }
  constructor; cbn [sy_client sy_server sy_up sy_down sy_wrote sy_read]; rewrite ?H2, ?H3, ?H4, ?H5; auto.
  - intros []; rewrite ?H2, ?H3; apply Ht.
  - intros []; rewrite ?H2, ?H3; apply Hw.
  - intros []; rewrite ?H2, ?H3; apply Hr.
  - rewrite !Forall_app; split_and!; auto using carried_grow.
Qed.

Lemma sy_step_refines y' : sy_step cf y y' -> exists s', rtc sys_step s s' /\ sy_refines y' s'.
Proof.
  intros Hst; destruct Hst as [ev x' Hok Hv Hin E|m Hm|ev s1 Hok Hv Hin E].
  - destruct (client_event_refines ev Hok Hv Hin) as (x1 & E1 & Hr); rewrite E in E1; injection E1 as <-; exact Hr.
  - apply request_refines, Hm.
  - destruct (server_event_refines ev Hok Hv Hin) as (s2 & E1 & Hr); rewrite E in E1; injection E1 as <-; exact Hr.
Qed.
End SystemStep.

(** ** From the handshake on *)

(** An end that has not moved: an empty layer between empty pipes. *)
Definition fresh (e : endpoint) : Prop := rel_inv [] [] (ep_rl e) /\ p_buf (ep_out e) = [] /\ p_buf (ep_in e) = [].

Lemma fresh_side e : fresh e -> side_inv (mk_side e [] [] [] [] []).
Proof. intros (Hr & Ho & Hi); constructor; cbn; rewrite ?Ho, ?Hi; auto; reflexivity. Qed.

Lemma fresh_client c cr dialed cf c0 : connectResumable c cr dialed = Ok (cf, c0) -> fresh (rc_ep c0).
Proof.
  unfold connectResumable; intros E; repeat case_match; simplify_eq; split_and!;
    try reflexivity; try apply inv_disableEagerAck; apply inv_new.
Qed.

Lemma fresh_session cfg req id meta now : Resumable (connect_session cfg req id meta now) = true ->
  exists r, s_rs (connect_session cfg req id meta now) = Some r
    /\ fresh (sess_ep (connect_session cfg req id meta now) r).
Proof.
  unfold connect_session, watchHighWater, Resumable; intros Hr.
  repeat (case_match; simplify_eq/=; try discriminate); eexists; (split; [reflexivity|]); split_and!;
    try reflexivity; try apply inv_disableEagerAck; apply inv_new.
Qed.

Section Reachable.
Context (cfg : ServerConfig) (c : Connector) (preferResume forceBatchUpload : bool).
Context (id : string) (meta : meta_map) (now : Z) (dialed : bool) (cf : rconf) (c0 : rconn).

Definition requested : ConnectRequest := connect_request c preferResume forceBatchUpload.
Definition created : session := connect_session cfg requested id meta now.
Definition answered : ConnectResponse := connect_response cfg requested created.

Context (Hcfg : cfg_ok cfg) (Hres : Resumable created = true)
        (Hcon : connectResumable c answered dialed = Ok (cf, c0)).

Lemma connected_sizes : 0 < rf_maxFrame cf /\ 0 < rf_maxSendChunk cf.
Proof.
  destruct (response_limits cfg requested created Hcfg) as (Hv & _).
  destruct (connectResumable_ok c answered dialed cf c0 Hcon Hv) as (H1 & H2 & _); auto.
Qed.

Lemma start_refines : exists s, sys_inv s /\ sy_refines (new_system cf c0 created) s.
Proof.
  destruct (fresh_session cfg requested id meta now Hres) as (r & Hr & Hf).
  exists (mk_sys (fun b : bool => mk_side (if b then rc_ep c0 else sess_ep created r) [] [] [] [] []) (fun _ => [])).
  split; constructor; cbn; auto.
  - intros []; [apply fresh_side, (fresh_client _ _ _ _ _ Hcon)|apply fresh_side, Hf].
  - intros b Hb; destruct (fresh_client _ _ _ _ _ Hcon) as (Hc & _), Hf as (Hs & _).
    destruct b; unfold rl; cbn [sd_ep]; [destruct Hc as [H1 _ H2 _ _ _ _ _ _]|destruct Hs as [H1 _ H2 _ _ _ _ _ _]];
      rewrite H1 in H2; unfold created in *; lia.
  - unfold new_client; destruct (start_legs cf); reflexivity.
  - split; auto.
  - unfold cl_parts, new_client; destruct (start_legs_pending cf) as [H1 H2].
    destruct (start_legs cf) as [d u]; cbn in *; rewrite H1, H2; constructor.
Qed.

Lemma reachable_refines y : rtc (sy_step cf) (new_system cf c0 created) y ->
  exists s0 s, sy_refines (new_system cf c0 created) s0 /\ rtc sys_step s0 s /\ sys_inv s /\ sy_refines y s.
Proof.
  destruct connected_sizes as [Hf Hch]; destruct start_refines as (s0 & Hi0 & Hr0); intros Hy.
  assert (H : exists s, rtc sys_step s0 s /\ sys_inv s /\ sy_refines y s).
  { revert y Hy; apply rtc_ind_r; [exists s0; auto using rtc_refl|].
    intros y1 y' _ Hstep (s & H1 & H2 & H3).
    destruct (sy_step_refines cf Hf Hch y1 s H3 H2 y' Hstep) as (s' & Hs & Hr).
    exists s'; split_and!; auto; [etransitivity; eassumption|].
    eapply (rtc_invariant sys_step sys_inv); eauto using sys_step_inv. }
  destruct H as (s & H1 & H2 & H3); eauto 10.
Qed.
End Reachable.

(** The server of a reachable state is a session its handlers can serve. *)
Lemma step_usable cf y y' : usable (sy_server y) -> sy_step cf y y' -> usable (sy_server y').
Proof. intros Hu Hs; inversion Hs; subst; cbn; auto; eapply sv_step_usable; eassumption. Qed.

Lemma created_usable cfg c preferResume forceBatchUpload id meta now :
  Resumable (created cfg c preferResume forceBatchUpload id meta now) = true ->
  usable (created cfg c preferResume forceBatchUpload id meta now).
Proof.
  unfold created, connect_session, watchHighWater, Resumable, usable; intros Hr.
  repeat (case_match; simplify_eq/=; try discriminate); eauto.
Qed.

(** ** Running the system *)

#[export] Instance batch_request_eq_dec : EqDecision batch_request.
Proof. solve_decision. Defined.
#[export] Instance batch_response_eq_dec : EqDecision batch_response.
Proof. solve_decision. Defined.
#[export] Instance net_msg_eq_dec : EqDecision net_msg.
Proof. solve_decision. Defined.

Inductive sy_label : Type :=
| DoClient (ev : cl_event)
| DoRequest (m : net_msg)
| DoServer (ev : sv_event).

Definition sent_before (ms log : list net_msg) : bool := forallb (fun m => bool_decide (m ∈ log)) ms.

Definition quiet_sched (sched : list (list pipe_event)) : bool := negb (existsb is_read (concat sched)).

Definition cl_okb (ev : cl_event) : bool :=
  match ev with LegIn _ i => quiet_sched (input_sched i) | _ => true end.

Definition sv_okb (ev : sv_event) : bool :=
  match ev with
  | SvStream bufsize _ t _ => (0 <? bufsize) && quiet_sched (tn_sched t)
  | SvPump bufsize _ (PumpWrite _ _ sched) _ => (0 <? bufsize) && quiet_sched sched
  | SvBatch _ bufsize q env =>
      (0 <? bufsize) && quiet_sched (be_sched env)
      && match be_body env with BodyComplete d => bool_decide (d = bq_body q) | _ => true end
  | _ => true
  end.

(** A step, if the label is possible in the state. *)
Definition sy_apply (cf : rconf) (lab : sy_label) (y : system) : option system :=
  match lab with
  | DoClient ev =>
      let x := sy_client y in
      if cl_okb ev && (len (sy_wrote y true) + cl_volume ev <? 2 ^ 63) && sent_before (cl_takes cf ev x) (sy_down y) then
        match cl_step cf ev x with
        | None => None
        | Some x' =>
            Some (mk_system x' (sy_server y) (sy_up y ++ cl_sends cf ev x) (sy_down y)
                    (put true (cl_wrote cf ev x) (sy_wrote y)) (put true (cl_got ev x) (sy_read y)))
        end
      else None
  | DoRequest m =>
      if bool_decide (m ∈ cl_requests (sy_client y))
      then Some (mk_system (sy_client y) (sy_server y) (sy_up y ++ [m]) (sy_down y) (sy_wrote y) (sy_read y))
      else None
  | DoServer ev =>
      let s := sy_server y in
      if sv_okb ev && (len (sy_wrote y false) + sv_volume ev <? 2 ^ 63) && sent_before (sv_takes ev) (sy_up y) then
        match sv_step ev s with
        | None => None
        | Some s' =>
            Some (mk_system (sy_client y) s' (sy_up y) (sy_down y ++ sv_sends ev s)
                    (put false (sv_wrote ev s) (sy_wrote y)) (put false (sv_got ev s) (sy_read y)))
        end
      else None
  end.

Fixpoint sy_exec (cf : rconf) (labs : list sy_label) (y : system) : option system :=
  match labs with
  | [] => Some y
  | lab :: labs => match sy_apply cf lab y with Some y => sy_exec cf labs y | None => None end
  end.

Lemma sent_before_incl ms log : sent_before ms log = true <-> incl ms log.
Proof.
  unfold sent_before; rewrite forallb_forall; split; intros H m Hm;
    [specialize (H m Hm); apply bool_decide_eq_true, list_elem_of_In in H; exact H
    |apply bool_decide_eq_true, list_elem_of_In, H, Hm].
Qed.

Lemma quiet_sched_iff sched : quiet_sched sched = true <-> no_rival (concat sched).
Proof. unfold quiet_sched, no_rival; apply negb_true_iff. Qed.

Lemma cl_okb_iff ev : cl_okb ev = true <-> cl_ok ev.
Proof. destruct ev; cbn; try apply quiet_sched_iff; split; auto. Qed.

Lemma sv_okb_iff ev : sv_okb ev = true <-> sv_ok ev.
Proof.
  destruct ev as [d|dst| | |now|now|now|now|now|a| | |bufsize att t b|bufsize att [] c|maxSend body|send bufsize q env|b now
                 |recv free now]; cbn; rewrite ?andb_true_iff, ?Z.ltb_lt, ?quiet_sched_iff; try (split; auto; fail).
  destruct (be_body env) as [d| |]; rewrite ?bool_decide_eq_true; split;
    first [intros [[H1 H2] H3]|intros (H1 & H2 & H3)]; split_and!; auto; intros d' E; try discriminate; congruence.
Qed.

Lemma sy_apply_step cf lab y y' : sy_apply cf lab y = Some y' -> sy_step cf y y'.
Proof.
  destruct lab as [ev|m|ev]; cbn [sy_apply].
  - destruct (cl_okb ev && _ && _) eqn:Eb; [|discriminate]; apply andb_true_iff in Eb as [Eb H3].
    apply andb_true_iff in Eb as [H1 H2]; apply cl_okb_iff in H1; apply Z.ltb_lt in H2; apply sent_before_incl in H3.
    destruct (cl_step cf ev (sy_client y)) eqn:E; [|discriminate]; intros [= <-]; constructor; auto.
  - case_bool_decide as Hm; [|discriminate]; intros [= <-]; constructor; apply list_elem_of_In, Hm.
  - destruct (sv_okb ev && _ && _) eqn:Eb; [|discriminate]; apply andb_true_iff in Eb as [Eb H3].
    apply andb_true_iff in Eb as [H1 H2]; apply sv_okb_iff in H1; apply Z.ltb_lt in H2; apply sent_before_incl in H3.
    destruct (sv_step ev (sy_server y)) eqn:E; [|discriminate]; intros [= <-]; constructor; auto.
Qed.

Lemma sy_exec_steps cf labs : forall y y', sy_exec cf labs y = Some y' -> rtc (sy_step cf) y y'.
Proof.
  induction labs as [|lab labs IH]; cbn; intros y y' E; [injection E as <-; apply rtc_refl|].
  destruct (sy_apply cf lab y) as [y1|] eqn:E1; [|discriminate].
  eapply rtc_l; [eapply sy_apply_step, E1|eauto].
Qed.

(** ** Properties *)

Section Properties.
Context (cfg : ServerConfig) (c : Connector) (preferResume forceBatchUpload : bool).
Context (id : string) (meta : meta_map) (now : Z) (dialed : bool) (cf : rconf) (c0 : rconn).
Let s0 : session := created cfg c preferResume forceBatchUpload id meta now.
Let cr : ConnectResponse := answered cfg c preferResume forceBatchUpload id meta now.
Context (Hcfg : cfg_ok cfg) (Hres : Resumable s0 = true) (Hcon : connectResumable c cr dialed = Ok (cf, c0)).

(** C1: exactly-once, in-order delivery of the whole program.  A session is
    negotiated; then the client's supervisor, legs and resume handshakes, the
    server's handlers, its store and both applications take their steps in any
    order, over a network that loses, delays, repeats and reorders whatever was
    sent, cuts bodies and fails requests as it likes.  At every moment, what one
    application has read is a prefix of what the other has written. *)
Theorem end_to_end_exactly_once y b :
  rtc (sy_step cf) (new_system cf c0 s0) y -> sy_read y b `prefix_of` sy_wrote y (negb b).
Proof.
  intros Hy.
  destruct (reachable_refines _ _ _ _ _ _ _ _ _ _ Hcfg Hres Hcon y Hy) as (s1 & s & _ & _ & [Hs Hp _ _] & Hr).
  rewrite <- (sr_read _ _ Hr), <- (sr_wrote _ _ Hr).
  transitivity (sd_got (sides s b)); [destruct (Hs b) as [_ _ -> _]; apply prefix_app_r; reflexivity|].
  etransitivity; [apply Hp|].
  destruct (Hs (negb b)) as [_ <- _ _]; apply prefix_app_r; reflexivity.
Qed.

(** C2: the program refines its contract.  Every run of the client machine, the
    server machine and the network is a run of the channel of Channel.v: from
    the two fresh layers of the handshake, the channel reaches a state whose ends
    are the layers of the two machines, whose histories are those of the
    applications, and on whose wires is all that was sent; so whatever holds of
    every run of the channel holds of the program. *)
Theorem session_refines_channel y :
  rtc (sy_step cf) (new_system cf c0 s0) y ->
  exists ch0 ch, sy_refines (new_system cf c0 s0) ch0 /\ rtc sys_step ch0 ch /\ sys_inv ch /\ sy_refines y ch.
Proof. apply (reachable_refines _ _ _ _ _ _ _ _ _ _ Hcfg Hres Hcon). Qed.

(** C5: nothing panics.  In every reachable state, every event that the network
    allows, of the client or of the server, is handled: no slice is cut out of
    range, no offset overflows, no missing layer is used; and no
    acknowledgement of the client, however late it arrives, breaks the session. *)
Theorem session_never_panics y :
  rtc (sy_step cf) (new_system cf c0 s0) y ->
  (forall ev, cl_ok ev -> len (sy_wrote y true) + cl_volume ev < 2 ^ 63 ->
     incl (cl_takes cf ev (sy_client y)) (sy_down y) -> exists x', cl_step cf ev (sy_client y) = Some x')
  /\ (forall ev, sv_ok ev -> len (sy_wrote y false) + sv_volume ev < 2 ^ 63 ->
        incl (sv_takes ev) (sy_up y) -> exists s', sv_step ev (sy_server y) = Some s')
  /\ (forall m n, In m (sy_up y) -> In (PAck n) (msg_packets m) -> exists rs rs',
        s_rs (sy_server y) = Some rs /\ rel_ack rs n = Some (rs', None) /\ isBroken rs' = isBroken rs).
Proof.
  intros Hy.
  destruct (reachable_refines _ _ _ _ _ _ _ _ _ _ Hcfg Hres Hcon y Hy) as (s1 & s & _ & _ & Hi & Hr).
  destruct (connected_sizes _ _ _ _ _ _ _ _ _ _ Hcfg Hcon) as [Hf Hch]; split_and!.
  - intros ev Hok Hv Hin; destruct (client_event_refines cf Hf Hch y s Hr Hi ev Hok Hv Hin) as (x' & E & _); eauto.
  - intros ev Hok Hv Hin; destruct (server_event_refines y s Hr Hi ev Hok Hv Hin) as (s' & E & _); eauto.
  - intros m n Hm Hn; pose proof (proj1 (proj1 (Forall_app _ _ _) (sr_up _ _ Hr))) as Hup.
    rewrite Forall_forall in Hup; destruct (Hup m (proj2 (list_elem_of_In _ _) Hm)) as [Hw _].
    specialize (Hw _ Hn); destruct (sys_good s false Hi) as (P & Q & Hx & Hwire & Hpre & HQ & HP); cbn [negb] in *.
    pose proof (wire_true _ _ _ Hwire _ Hw) as [H0 Hle].
    destruct (rel_ack_spec _ _ _ n (si_rel _ Hx) H0) as (r' & err & E & _ & _ & Hc).
    exists (rl (sides s false)), r'; split; [apply (sr_server _ _ Hr)|].
    unfold isBroken; destruct Hc as [(Hbad & _)|[(_ & -> & _ & ->)|(_ & -> & _ & ->)]]; [lia|auto|auto].
Qed.
End Properties.

(** ** Witnesses *)

(** The client writes; the upload dies in the first frame, the poll is refused;
    the supervisor resumes; the replayed frame arrives twice. *)
Definition ex_sys_cfg : ServerConfig := withDefaults (mk_ServerConfig 0 0 0 0 0 4 0 PollModeStream 0 0 false true 0 0 0).
Definition ex_sys_connector : Connector := mk_Connector "http://server" ∅ 0 0 true "" false true 0.
Definition ex_sys_conf : rconf := mk_rconf "s1" false true true 4 0 262144 (30 * Second).
Definition ex_sys_session : session := created ex_sys_cfg ex_sys_connector true false "s1" ∅ 0.

Definition ex_sys_sent : list byte := [Byte.x41; Byte.x42].
Definition ex_upload_body : reader := mk_reader [encode_frame frameSeqData (be_put 8 0 ++ ex_sys_sent)] EOF.
Definition ex_labels : list sy_label :=
  [DoClient (AppWrite ex_sys_sent); DoClient (LegIn true InOpen);
   DoClient (LegIn true (InTurn false [Some (3%nat, ErrNet false)] []));
   DoClient (LegIn false (InReply (PollNone (ErrNet false))));
   DoClient (LegIn true (InAnswer (inl (ErrNet false)))); DoClient (Joined (3 * Second) 0 "s1");
   DoRequest (NetResume 0);
   DoServer (SvResumeEnter (BodyJSON (mk_ResumeRequest ProtocolVersion 0)) 1);
   DoServer (SvResumeExit 0 true 2);
   DoClient (Attempt (mk_attempt (RReplyOK (mk_ResumeResponse true 0)) true 0 true) "s1");
   DoClient (LegIn true InOpen); DoClient (LegIn true (InTurn false [] []));
   DoServer (SvUpload 4 ex_upload_body); DoServer (SvRead 10);
   DoServer (SvUpload 4 ex_upload_body)].

Definition ex_reached (labs : list sy_label) : system :=
  let y := new_system ex_sys_conf ex_rconn ex_sys_session in default y (sy_exec ex_sys_conf labs y).

Lemma ex_steps labs :
  is_Some (sy_exec ex_sys_conf labs (new_system ex_sys_conf ex_rconn ex_sys_session)) ->
  rtc (sy_step ex_sys_conf) (new_system ex_sys_conf ex_rconn ex_sys_session) (ex_reached labs).
Proof. intros [y E]; apply (sy_exec_steps _ labs); unfold ex_reached; rewrite E; reflexivity. Defined.

Lemma ex_sys_cfg_ok : cfg_ok ex_sys_cfg.
Proof. apply withDefaults_ok; left; vm_compute; discriminate. Qed.

Lemma end_to_end_exactly_once_witness :
  sy_read (ex_reached ex_labels) false = ex_sys_sent
  /\ sy_read (ex_reached ex_labels) false `prefix_of` sy_wrote (ex_reached ex_labels) true.
Proof.
  split; [vm_compute; reflexivity|].
  apply (end_to_end_exactly_once ex_sys_cfg ex_sys_connector true false "s1" ∅ 0 true ex_sys_conf ex_rconn
           ex_sys_cfg_ok ltac:(vm_compute; reflexivity) ltac:(vm_compute; reflexivity) (ex_reached ex_labels) false).
  apply ex_steps; vm_compute; eexists; reflexivity.
Defined.

Lemma session_refines_channel_witness : exists ch, sys_inv ch /\ sy_refines (ex_reached ex_labels) ch.
Proof.
  destruct (session_refines_channel ex_sys_cfg ex_sys_connector true false "s1" ∅ 0 true ex_sys_conf ex_rconn
              ex_sys_cfg_ok ltac:(vm_compute; reflexivity) ltac:(vm_compute; reflexivity) (ex_reached ex_labels))
    as (_ & ch & _ & _ & Hi & Hr); [apply ex_steps; vm_compute; eexists; reflexivity|].
  exists ch; auto.
Defined.

Lemma session_never_panics_witness :
  exists s', sv_step (SvUpload 4 ex_upload_body) (sy_server (ex_reached ex_labels)) = Some s'.
Proof.
  destruct (session_never_panics ex_sys_cfg ex_sys_connector true false "s1" ∅ 0 true ex_sys_conf ex_rconn
              ex_sys_cfg_ok ltac:(vm_compute; reflexivity) ltac:(vm_compute; reflexivity) (ex_reached ex_labels))
    as (_ & H & _); [apply ex_steps; vm_compute; eexists; reflexivity|].
  apply H; [exact I|vm_compute; reflexivity|]; apply sent_before_incl; vm_compute; reflexivity.
Defined.
