(* ===== verification/Progress.v ===== *)
(** * Progress.v: a lost transport costs no bytes

    System.v shows that nothing is delivered twice or out of order; this file
    shows that delivery can complete.  From every reachable state in which the
    transports are lost, the client is resuming and the server accepts the
    handshake, the program has a continuation of its own steps, after which the
    server holds every byte the client's application ever wrote.  Server.v's
    machine lets a handler's turn happen at any moment; here every step of the
    server has to pass the checks of its handler ([passes]): requests begin by
    beginPoll, directions are claimed by attach, a frame is taken by a request
    that is counted and owns its direction, and the handshake goes through its
    lock. *)

From S2P Require Import Prelude Frame Pipe Protocol Reliable Channel Attach Session.
From S2P Require Import Connect Resume Batch Reconnect Stream Plain Poll WebSocket Legs Wire Server System.

(** ** What is left to send *)

(** Bytes that are numbered and not sent, or not numbered yet. *)
Definition backlog (e : endpoint) : Z :=
  sendOffset (ep_rl e) - sentCursor (ep_rl e) + len (p_buf (ep_out e)).

Lemma backlog_nonneg sent got e : rel_inv sent got (ep_rl e) -> 0 <= backlog e.
Proof. intros []; unfold backlog; len_lia. Qed.

(** nextOut with nothing in its way takes the next bytes off the backlog. *)
Lemma nextOut_sends sent got e blen :
  rel_inv sent got (ep_rl e) -> 0 < blen -> p_closed (ep_out e) = false ->
  has_pending (ep_rl e) = true \/ p_intr (ep_out e) = false ->
  0 < backlog e -> len sent + len (p_buf (ep_out e)) < 2 ^ 63 ->
  exists e' d rest, nextOut e blen [] = Some (e', Ok (sentCursor (ep_rl e), d), rest) /\ d <> [] /\ len d <= blen
    /\ sentCursor (ep_rl e') = sentCursor (ep_rl e) + len d /\ backlog e' = backlog e - len d
    /\ p_closed (ep_out e') = false /\ p_intr (ep_out e') = p_intr (ep_out e) /\ recvOffset (ep_rl e') = recvOffset (ep_rl e).
Proof.
  intros Hr Hb Hc Hi Hl Hm; unfold nextOut, backlog in *; destruct (has_pending (ep_rl e)) eqn:Hp.
  - destruct (pending_out_spec _ _ _ blen Hr Hp Hb) as (E & Hne & Hlen & _); rewrite E.
    eexists _, _, _; split; [reflexivity|]; cbn; split_and!; auto; lia.
  - destruct Hi as [Hi|Hi]; [congruence|].
    assert (Hcur : sentCursor (ep_rl e) = len sent /\ sendOffset (ep_rl e) = len sent).
    { destruct Hr; unfold has_pending in Hp; apply andb_false_iff in Hp as [Hp|Hp]; breflect; [|lia].
      destruct (ri_dead Hp); lia. }
    destruct Hcur as [Hcur Hso]; rewrite Hcur, Hso, Z.sub_diag in Hl.
    destruct (ReadAvailable_now (ep_out e) blen Hb Hc Hi) as [rest ->].
    pose proof (copied_uncopied blen (p_buf (ep_out e))) as Hcu.
    assert (Hne : copied blen (p_buf (ep_out e)) <> [])
      by (apply copied_nonempty; [exact Hb|]; apply len_pos_iff; lia).
    assert (Hle : len (copied blen (p_buf (ep_out e))) <= blen) by (rewrite len_copied; lia).
    set (d := copied blen _) in *; destruct d as [|b d'] eqn:Ed; [congruence|]; rewrite <- Ed in *.
    assert (Hmax : len sent + len d < 2 ^ 63)
      by (rewrite <- Hcu, len_app in Hm; pose proof (len_nonneg (uncopied blen (p_buf (ep_out e)))); lia).
    destruct (number_out_spec _ _ _ d Hr Hmax) as (Ho & Hr' & Hc' & Hrec & _); rewrite Ed in *.
    destruct (number_out (ep_rl e) (b :: d')) as [r off]; cbn [fst snd] in *.
    eexists _, (b :: d'), _; split; [rewrite Ho, Hcur; reflexivity|]; cbn [ep_out ep_rl set_buf p_buf p_closed p_intr].
    pose proof (ri_send _ _ _ Hr') as Hs'; rewrite len_app in Hs'.
    apply (f_equal len) in Hcu; rewrite len_app in Hcu; split_and!; auto; lia.
Qed.

(** An interrupt that is left over costs one turn. *)
Lemma nextOut_after_interrupt e blen :
  has_pending (ep_rl e) = false -> p_intr (ep_out e) = true ->
  nextOut e blen [] = Some (mk_ep (ep_rl e) (set_intr false (ep_out e)) (ep_in e), Fail errPipeInterrupted, []).
Proof. intros Hp Hi; unfold nextOut, ReadAvailable; rewrite Hp, Hi; reflexivity. Qed.

(** ** A turn of the upload leg *)

Definition plain_turn_input : leg_input := InTurn false [] [].

Section FeedTurn.
Context (cf : rconf) (e e1 : endpoint) (b : hbody).

Definition acked_ep (e : endpoint) : endpoint := on_rl (fun _ => (takeAck (ep_rl e)).1) e.

Lemma feed_turn r rest :
  nextOut e (rf_maxFrame cf) [] = Some (e1, r, rest) -> r <> Fail EOF ->
  exists b', leg_step cf false plain_turn_input (UpFeeding b None) e = Some (acked_ep e1, UpFeeding b' None).
Proof.
  intros E Hr; cbn [leg_step plain_turn_input]; unfold feedSendStream_turn, send_turn; rewrite E.
  assert (Hgo : forall off d intr, exists b',
    emit e1 (mk_hbody (mk_writer (w_out (hb_writer b)) []) (hb_frames b)) off d intr = (acked_ep e1, b', None))
    by (intros; apply perfect_emit).
  destruct r as [[off d]|err]; [|destruct err; try congruence].
  all: match goal with |- context [emit ?e ?w ?off ?d ?i] => destruct (Hgo off d i) as [b' ->] end; eauto.
Qed.

Lemma feed_sends off d rest :
  nextOut e (rf_maxFrame cf) [] = Some (e1, Ok (off, d), rest) -> d <> [] ->
  In (NetFrame (frameSeqData, be_put 8 off ++ d)) (leg_sends cf false plain_turn_input (UpFeeding b None) e).
Proof.
  intros E Hd; cbn [leg_sends plain_turn_input]; apply in_map; unfold turn_frames, send_turn; rewrite E.
  pose proof (perfect_emit_seq e1 [] [] off d false Hd) as Hin; unfold perfect_body.
  destruct (emit e1 (mk_hbody (mk_writer [] []) []) off d false) as [[e2 b'] [err|]]; exact Hin.
Qed.
End FeedTurn.

Lemma acked_backlog e : backlog (acked_ep e) = backlog e /\ sentCursor (ep_rl (acked_ep e)) = sentCursor (ep_rl e)
  /\ ep_out (acked_ep e) = ep_out e /\ has_pending (ep_rl (acked_ep e)) = has_pending (ep_rl e).
Proof. unfold acked_ep, takeAck, backlog; cbn; case_if; auto. Qed.

Lemma nextOut_written_nil e blen : nextOut_written e blen [] = [].
Proof. unfold nextOut_written, waited; case_if; [reflexivity|]; rewrite take_nil; reflexivity. Qed.

Lemma put_nil b h c : put b [] h c = h c.
Proof. unfold put, upd; rewrite app_nil_r; destruct (Bool.eqb c b) eqn:E; [apply eqb_prop in E; subst|]; reflexivity. Qed.

(** ** The frame at the server *)

(** The request's body, positioned at the frame that carries [d] at [off]. *)
Definition frame_body (off : Z) (d : list byte) : reader :=
  mk_reader [encode_frame frameSeqData (be_put 8 off ++ d)] EOF.

Lemma frame_body_next maxSend off d : len d <= maxSend -> maxSend + seqHeaderLen < 2 ^ 32 ->
  (frame_next maxSend (frame_body off d)).1 = Ok (frameSeqData, be_put 8 off ++ d).
Proof.
  intros Hl Hm; destruct (frame_next_encoded maxSend (frame_body off d) frameSeqData (be_put 8 off ++ d) []) as (r' & -> & _);
    [unfold frame_body, r_bytes; cbn; rewrite !app_nil_r; reflexivity| |reflexivity].
  split; cbn [fst snd]; rewrite len_app, len_be_put; unfold seqHeaderLen in *; [lia|].
  unfold frame_bound, seqHeaderLen; rewrite bool_decide_true by reflexivity; pose proof (len_nonneg d).
  rewrite i64_id by (unfold is_i64; lia); lia.
Qed.

Lemma frame_lands s r sent got maxSend off d :
  s_rs s = Some r -> rel_inv sent got r -> off = recvOffset r -> off + len d < 2 ^ 63 -> d <> [] ->
  p_closed (s_toServer s) = false -> len d <= maxSend -> maxSend + seqHeaderLen < 2 ^ 32 ->
  exists s' r', sv_step (SvUpload maxSend (frame_body off d)) s = Some s'
    /\ s_rs s' = Some r' /\ recvOffset r' = off + len d /\ p_closed (s_toServer s') = false
    /\ s_att s' = s_att s /\ s_pollInFlight s' = s_pollInFlight s.
Proof.
  intros Hrs Hr -> Hm Hd Hc Hl Hs; cbn [sv_step]; rewrite frame_body_next by assumption.
  unfold pollSendStream_frame; rewrite Hrs; cbn [negb].
  rewrite bool_decide_false by discriminate; rewrite bool_decide_true by reflexivity.
  pose proof (ri_recv _ _ _ Hr) as Hrec.
  unfold on_layer, recv_seq; rewrite splitSeq_encoded by (unfold is_u64; rewrite Hrec in *; len_lia).
  destruct (recvIn_spec sent got (sess_ep s r) (recvOffset r) d Hr ltac:(rewrite Hrec; len_lia) ltac:(intros; lia))
    as (e' & err & -> & Hcase); rewrite Hrec in Hcase.
  destruct Hcase as [(? & _)|[(_ & Hx & _)|[(_ & Hx & _)|(_ & _ & _ & _ & Hrl & _ & Hin)]]].
  - lia.
  - apply len_pos_iff in Hd; lia.
  - cbn in Hx; congruence.
  - cbn [option_map prod_map]; eexists _, (ep_rl e'); split; [reflexivity|].
    split_and!; [reflexivity|rewrite Hrl, Hrec; reflexivity| |reflexivity..]; cbn; rewrite Hin; unfold pipe_Write; cbn; rewrite Hc; reflexivity.
Qed.

(** ** What a step of the server has to pass *)

(** The moves of the attachments: a request makes its attachment, a turn of
    attach claims a direction, an owner is kicked, an owner leaves. *)
Inductive att_move (a : attachments) : attachments -> Prop :=
| am_new : att_move a (new_attachment a).1
| am_claim att k a' : attach_turn a att k = TurnClaimed a' -> att_move a a'
| am_kick att k : slot a k = Some att -> att_move a (kick a att)
| am_leave att k : slot a k = Some att -> att_move a (detach a att).

(** The events of the continuation and the checks of the handlers before them:
    beginPoll lets the request in; a frame of an upload is taken by a request
    that is counted, from the owner of the direction; the handshake is let in,
    and accepts only when kickAll has seen every owner leave.  Its lock is no
    [att_move]: only the two halves of ResumeHandler change it. *)
Definition passes (ev : sv_event) (s : session) : Prop :=
  exists a, s_att s = Some a /\
  match ev with
  | SvBegin now => (beginPoll now s).2 = true
  | SvTouch _ => True
  | SvAtt a' => att_move a a'
  | SvUpload _ _ => is_Some (slot a attachUp) /\ 0 < s_pollInFlight s
  | SvResumeEnter b now => exists n, (resume_enter b now s).2 = inr n
  | SvResumeExit _ free _ => a_resuming a = true /\ (free = true -> kickAll_olds a = [])
  | _ => False
  end.

(** A step of the system, the server's ones behind their checks. *)
Inductive admitted_step (cf : rconf) (y : system) : system -> Prop :=
| as_client ev y' : sy_apply cf (DoClient ev) y = Some y' -> admitted_step cf y y'
| as_request m y' : sy_apply cf (DoRequest m) y = Some y' -> admitted_step cf y y'
| as_server ev y' : passes ev (sy_server y) -> sy_apply cf (DoServer ev) y = Some y' -> admitted_step cf y y'.

(** Kicked owners leave. *)
Lemma owner_leaves a k : exists a', rtc att_move a a' /\ a_resuming a' = a_resuming a /\ slot a' k = None
  /\ forall k', slot a k' = None -> slot a' k' = None.
Proof.
  destruct (slot a k) as [x|] eqn:E; [|exists a; split_and!; auto using rtc_refl].
  exists (detach (kick a x) x); split_and!.
  - eapply rtc_l; [eapply am_kick, E|]; eapply rtc_once, (am_leave _ x k); destruct k; exact E.
  - reflexivity.
  - destruct k; cbn in *; rewrite E, bool_decide_true by reflexivity; reflexivity.
  - intros k' E'; destruct k'; cbn in *; rewrite E'; reflexivity.
Qed.

Lemma owners_leave a : exists a', rtc att_move a a' /\ kickAll_olds a' = [] /\ a_resuming a' = a_resuming a.
Proof.
  destruct (owner_leaves a attachDown) as (a1 & H1 & R1 & S1 & _).
  destruct (owner_leaves a1 attachUp) as (a2 & H2 & R2 & S2 & K2).
  exists a2; split_and!; [etransitivity; eassumption| |congruence].
  specialize (K2 attachDown S1); cbn in *; unfold kickAll_olds; cbn; rewrite K2, S2; reflexivity.
Qed.

(** A request attaches to a free direction when no resume holds the lock. *)
Lemma attach_moves a k : a_resuming a = false -> slot a k = None ->
  exists a', rtc att_move a a' /\ is_Some (slot a' k).
Proof.
  intros Hr Hs; set (a1 := (new_attachment a).1); exists (set_slot a1 k (Some (new_attachment a).2)); split.
  - eapply rtc_l; [apply am_new|]; apply rtc_once, (am_claim _ (new_attachment a).2 k).
    unfold attach_turn; destruct k; cbn in *; rewrite Hr, Hs; reflexivity.
  - destruct k; cbn; eauto.
Qed.

(** The grace of a session never changes. *)
Lemma on_layer_grace {A} (act : endpoint -> option (endpoint * A)) rs s s' o :
  on_layer act rs s = Some (s', o) -> s_resumeGrace s' = s_resumeGrace s.
Proof. unfold on_layer; destruct (act _) as [[e o1]|]; [|discriminate]; intros [= <- _]; reflexivity. Qed.

Lemma endPoll_grace now s : s_resumeGrace (endPoll now s) = s_resumeGrace s.
Proof. unfold endPoll, noteDetachedLocked; cbn; repeat case_match; reflexivity. Qed.

Lemma enter_grace b now s : s_resumeGrace (resume_enter b now s).1 = s_resumeGrace s.
Proof. unfold resume_enter, beginPoll; repeat (case_match; simplify_eq/=); rewrite ?endPoll_grace; reflexivity. Qed.

Lemma exit_grace recv free now s s' a : resume_exit recv free now s = Some (s', a) -> s_resumeGrace s' = s_resumeGrace s.
Proof. unfold resume_exit; intros E; repeat (case_match; simplify_eq/=); rewrite ?endPoll_grace; reflexivity. Qed.

Lemma sv_step_grace ev s s' : usable s -> sv_step ev s = Some s' -> s_resumeGrace s' = s_resumeGrace s.
Proof.
  intros [[rs Hrs] _] E.
  destruct ev as [d|dst| | |now|now|now|now|now|a| | |bufsize att t b|bufsize att step c|maxSend body|send bufsize q env|b now
                 |recv free now]; cbn [sv_step] in E; try (injection E as <-); try reflexivity.
  - unfold Session_Write; destruct (pipe_Write _ _) as [[p r] warned]; reflexivity.
  - unfold Session_Read; destruct (pipe_Read _ _) as [[p r]|]; reflexivity.
  - unfold beginPoll; case_if; reflexivity.
  - unfold beginWebSocket; case_if; reflexivity.
  - apply endPoll_grace.
  - unfold endWebSocket, noteDetachedLocked; cbn; repeat case_match; reflexivity.
  - unfold stop_pumps; rewrite Hrs; reflexivity.
  - unfold pollStream_step in E; rewrite Hrs in E.
    destruct (pollStreamResumable_turn _ _ _ _ _ _ _ _) as [[e b1] []]; simplify_eq; reflexivity.
  - destruct step as [[] msg|err|ctxDone a sched]; cbn [pump] in E; [|simplify_eq; reflexivity..|].
    + destruct (wsDecode msg) as [[typ p]|]; [|simplify_eq; reflexivity].
      unfold wsReadPump_frame in E; rewrite Hrs in E.
      repeat case_match; simplify_eq; eauto using on_layer_grace.
    + rewrite Hrs in E; destruct (wsWritePumpResumable_turn _ _ _ _ _ _ _) as [[e c1] []]; simplify_eq; reflexivity.
  - destruct (frame_next maxSend body).1 as [[typ p]|]; [|simplify_eq; reflexivity].
    unfold pollSendStream_frame in E; rewrite Hrs in E; cbn [negb] in E.
    repeat case_match; simplify_eq; eauto using on_layer_grace.
  - rewrite Hrs in E; destruct (pollBatchResumable _ _ _ _ _); simplify_eq; reflexivity.
  - apply enter_grace.
  - destruct (resume_exit recv free now s) as [[s1 a]|] eqn:Ex; simplify_eq; eapply exit_grace, Ex.
Qed.

(** ** Rounds *)

Section Rounds.
Context (cf : rconf) (Hframe : 0 < rf_maxFrame cf) (Hchunk : 0 < rf_maxSendChunk cf).
Context (maxSend : Z) (Hfits : rf_maxFrame cf <= maxSend) (Hmax : maxSend + seqHeaderLen < 2 ^ 32).

Definition cl_ep (y : system) : endpoint := rc_ep (cl_conn (sy_client y)).

(** The upload leg is at work, in step with the server. *)
Record uploading (y : system) (s : sys) : Prop := {
  up_ref : sy_refines y s;
  up_inv : sys_inv s;
  up_sup : exists before d b, cl_sup (sy_client y) = SupLegs before None d (UpFeeding b None);
  up_live : rc_cancelled (cl_conn (sy_client y)) = false;
  up_open : p_closed (ep_out (cl_ep y)) = false;
  up_srv : p_closed (s_toServer (sy_server y)) = false;
  up_sync : sentCursor (rl (sides s true)) = recvOffset (rl (sides s false));
}.

(** The request that serves it is counted and owns its direction. *)
Definition owned (s : session) : Prop :=
  (exists a, s_att s = Some a /\ is_Some (slot a attachUp)) /\ 0 < s_pollInFlight s.

Lemma owned_passes s body : owned s -> passes (SvUpload maxSend body) s.
Proof. intros [(a & Ha & Ho) Hp]; exists a; auto. Qed.

(** The histories of the applications are what they were. *)
Definition same_history (y y' : system) : Prop :=
  forall b, sy_wrote y' b = sy_wrote y b /\ sy_read y' b = sy_read y b.

Lemma same_history_trans y y1 y2 : same_history y y1 -> same_history y1 y2 -> same_history y y2.
Proof. intros H1 H2 b; destruct (H1 b) as [<- <-]; apply H2. Qed.

Lemma reach_inv s s' : sys_inv s -> rtc sys_step s s' -> sys_inv s'.
Proof. intros Hi Hr; eapply (rtc_invariant sys_step sys_inv); eauto using sys_step_inv. Qed.

(** A turn of the leg when nextOut does not meet the end of the stream. *)
Lemma turn_step y s e1 r rest : uploading y s ->
  nextOut (cl_ep y) (rf_maxFrame cf) [] = Some (e1, r, rest) -> r <> Fail EOF ->
  exists y1 s1, sy_apply cf (DoClient (LegIn true plain_turn_input)) y = Some y1
    /\ sy_refines y1 s1 /\ sys_inv s1 /\ same_history y y1 /\ sy_server y1 = sy_server y
    /\ cl_ep y1 = acked_ep e1 /\ cl_conn (sy_client y1) = on_ep (fun _ => acked_ep e1) (cl_conn (sy_client y))
    /\ (exists before d b, cl_sup (sy_client y1) = SupLegs before None d (UpFeeding b None))
    /\ (forall off d, r = Ok (off, d) -> d <> [] -> In (NetFrame (frameSeqData, be_put 8 off ++ d)) (sy_up y1)).
Proof.
  intros [Href Hinv (before & d & b & Es) Hlive Hopen Hsrv Hsync] En Hr.
  destruct (feed_turn cf (cl_ep y) e1 b r rest En Hr) as [b' El].
  pose (ev := LegIn true plain_turn_input).
  assert (Hdone : legs_done (sy_client y) None = false) by (unfold legs_done; rewrite Hlive; reflexivity).
  assert (Hok : cl_ok ev) by reflexivity.
  assert (Hv : len (sy_wrote y true) + cl_volume ev < 2 ^ 63).
  { rewrite <- (sr_wrote _ _ Href); pose proof (si_max _ (sy_side _ Hinv true)); cbn; lia. }
  assert (Htk : cl_takes cf ev (sy_client y) = []) by (unfold cl_takes; rewrite Es; reflexivity).
  destruct (client_event_refines cf Hframe Hchunk y s Href Hinv ev Hok Hv ltac:(rewrite Htk; intros ? []))
    as (x' & E & s1 & Hs1 & Href1).
  assert (Ex : x' = mk_client (on_ep (fun _ => acked_ep e1) (cl_conn (sy_client y))) (cl_guard (sy_client y))
                      (SupLegs before None d (UpFeeding b' None))).
  { unfold ev, cl_step in E; rewrite Es in E; unfold legs_step in E; fold (legs_done (sy_client y) None) in E.
    rewrite Hdone in E; fold (cl_ep y) in E; rewrite El in E; injection E as <-; reflexivity. }
  eexists _, s1; split; [|split; [exact Href1|]].
  { cbn [sy_apply]; fold ev; rewrite Htk, (proj2 (cl_okb_iff ev) Hok), (proj2 (Z.ltb_lt _ _) Hv), E; reflexivity. }
  split_and!; cbn [sy_client sy_server sy_up]; auto.
  - eapply reach_inv; eassumption.
  - intros c; cbn [sy_wrote sy_read]; unfold ev, cl_wrote; rewrite Es; cbn [leg_wrote plain_turn_input cl_got].
    rewrite nextOut_written_nil, !put_nil; auto.
  - unfold cl_ep; cbn [sy_client]; rewrite Ex; reflexivity.
  - rewrite Ex; reflexivity.
  - rewrite Ex; cbn; eauto.
  - intros off d0 -> Hd; apply in_app_iff; right; unfold ev, cl_sends; rewrite Es, Hdone.
    eapply feed_sends; eassumption.
Qed.

Lemma same_server_rl y y1 s s1 : sy_refines y s -> sy_refines y1 s1 -> sy_server y1 = sy_server y ->
  rl (sides s1 false) = rl (sides s false).
Proof. intros [_ [H _] _ _ _ _ _] [_ [H1 _] _ _ _ _ _] E; rewrite E in H1; congruence. Qed.

Lemma same_client_rl y s : sy_refines y s -> rl (sides s true) = ep_rl (cl_ep y).
Proof. intros [H _ _ _ _ _ _]; unfold cl_ep, rl; rewrite H; reflexivity. Qed.

(** One turn and the frame it sends. *)
Lemma upload_round y s : uploading y s -> owned (sy_server y) -> 0 < backlog (cl_ep y) ->
  has_pending (ep_rl (cl_ep y)) = true \/ p_intr (ep_out (cl_ep y)) = false ->
  exists y' s', rtc (admitted_step cf) y y' /\ uploading y' s' /\ owned (sy_server y') /\ same_history y y'
    /\ backlog (cl_ep y') < backlog (cl_ep y) /\ p_intr (ep_out (cl_ep y')) = p_intr (ep_out (cl_ep y)).
Proof.
  intros Hup Hown Hl Hi; pose proof Hup as [Href Hinv Hsup Hlive Hopen Hsrv Hsync].
  pose proof (sy_side _ Hinv true) as Hx; rewrite (same_client_rl y s Href) in Hsync.
  pose proof (si_rel _ Hx) as Hr; rewrite (same_client_rl y s Href) in Hr.
  assert (Hvol : len (sd_sent (sides s true)) + len (p_buf (ep_out (cl_ep y))) < 2 ^ 63).
  { destruct Hx as [_ Hout _ Hm]; rewrite <- Hout, (sr_taken _ _ Href) in Hm; unfold cl_ep.
    rewrite (sr_client _ _ Href); cbn [app] in Hm; rewrite len_app in Hm; exact Hm. }
  destruct (nextOut_sends _ _ (cl_ep y) (rf_maxFrame cf) Hr Hframe Hopen Hi Hl Hvol)
    as (e1 & d & rest & En & Hd & Hlen & Hcur & Hback & Hc1 & Hi1 & _).
  destruct (turn_step y s e1 _ rest Hup En ltac:(discriminate))
    as (y1 & s1 & Ea & Href1 & Hinv1 & Hh1 & Esv & Eep & Econ & Hsup1 & Hin).
  specialize (Hin _ _ eq_refl Hd).
  destruct (acked_backlog e1) as (Hb1 & Hcur1 & Hout1 & _).
  pose proof (si_rel _ (sy_side _ Hinv1 false)) as Hrs.
  pose proof (same_server_rl y y1 s s1 Href Href1 Esv) as Hsame.
  assert (Hoff : sentCursor (ep_rl (cl_ep y)) + len d < 2 ^ 63).
  { pose proof (si_rel _ (sy_side _ Hinv1 true)) as Hr1; rewrite (same_client_rl y1 s1 Href1), Eep in Hr1.
    destruct Hr1; rewrite Hcur1, Hcur in *; lia. }
  destruct (frame_lands (sy_server y1) (rl (sides s1 false)) _ _ maxSend _ d (proj1 (sr_server _ _ Href1)) Hrs
              ltac:(rewrite Hsame; exact Hsync) Hoff Hd ltac:(rewrite Esv; exact Hsrv) ltac:(lia) Hmax)
    as (s' & r' & Est & Hr' & Hrec & Hcs & Hatt & Hcount).
  pose (ev := SvUpload maxSend (frame_body (sentCursor (ep_rl (cl_ep y))) d)).
  assert (Hv : len (sy_wrote y1 false) + sv_volume ev < 2 ^ 63).
  { rewrite <- (sr_wrote _ _ Href1); pose proof (si_max _ (sy_side _ Hinv1 false)); cbn; lia. }
  assert (Hincl : incl (sv_takes ev) (sy_up y1)) by (cbn [ev sv_takes]; rewrite frame_body_next by lia; intros m Hm; apply frame_takes_incl in Hm as [<-|[]]; exact Hin).
  destruct (server_event_refines y1 s1 Href1 Hinv1 ev I Hv Hincl) as (s2 & E2 & sy2 & Hs2 & Href2).
  unfold ev in E2; rewrite Est in E2; injection E2 as <-.
  eexists _, sy2; split; [eapply rtc_l; [eapply as_client, Ea|]; apply rtc_once, (as_server _ _ ev)|].
  { apply owned_passes; rewrite Esv; exact Hown. }
  { cbn [sy_apply]; rewrite (proj2 (sv_okb_iff ev) I), (proj2 (Z.ltb_lt _ _) Hv), (proj2 (sent_before_incl _ _) Hincl).
    unfold ev at 1; cbn [andb]; rewrite Est; reflexivity. }
  assert (Hcl : forall y2, sy_client y2 = sy_client y1 -> cl_ep y2 = acked_ep e1) by (intros y2 E2; unfold cl_ep; rewrite E2; exact Eep).
  split_and!.
  - constructor; auto.
    + eapply reach_inv; eassumption.
    + cbn; rewrite Econ; exact Hlive.
    + rewrite Hcl, Hout1 by reflexivity; exact Hc1.
    + rewrite (same_client_rl _ _ Href2), Hcl, Hcur1, Hcur by reflexivity.
      pose proof (proj1 (sr_server _ _ Href2)) as Hq; cbn [sy_server] in Hq; rewrite Hr' in Hq; injection Hq as <-.
      rewrite Hrec; reflexivity.
  - unfold owned; cbn [sy_server]; rewrite Hatt, Hcount, Esv; exact Hown.
  - eapply same_history_trans; [exact Hh1|]; intros c; cbn [sy_wrote sy_read ev sv_wrote sv_got]; rewrite !put_nil; auto.
  - rewrite Hcl, Hb1, Hback by reflexivity; apply len_pos_iff in Hd; lia.
  - rewrite Hcl, Hout1 by reflexivity; exact Hi1.
Qed.

(** The turn that an interrupt costs. *)
Lemma interrupted_round y s : uploading y s -> owned (sy_server y) ->
  has_pending (ep_rl (cl_ep y)) = false -> p_intr (ep_out (cl_ep y)) = true ->
  exists y' s', rtc (admitted_step cf) y y' /\ uploading y' s' /\ owned (sy_server y') /\ same_history y y'
    /\ backlog (cl_ep y') = backlog (cl_ep y) /\ p_intr (ep_out (cl_ep y')) = false.
Proof.
  intros Hup Hown Hp Hi; pose proof Hup as [Href Hinv Hsup Hlive Hopen Hsrv Hsync].
  pose proof (nextOut_after_interrupt (cl_ep y) (rf_maxFrame cf) Hp Hi) as En.
  destruct (turn_step y s _ _ _ Hup En ltac:(discriminate))
    as (y1 & s1 & Ea & Href1 & Hinv1 & Hh1 & Esv & Eep & Econ & Hsup1 & _).
  set (e1 := mk_ep _ _ _) in *; destruct (acked_backlog e1) as (Hb1 & Hcur1 & Hout1 & _).
  exists y1, s1; split; [eapply rtc_once, as_client, Ea|].
  rewrite Eep, Hb1, Hout1, Esv; split_and!; auto; constructor; auto.
  - rewrite Econ; exact Hlive.
  - rewrite Eep, Hout1; exact Hopen.
  - rewrite Esv; exact Hsrv.
  - rewrite (same_client_rl _ _ Href1), Eep, Hcur1, (same_server_rl _ _ _ _ Href Href1 Esv).
    rewrite (same_client_rl _ _ Href) in Hsync; exact Hsync.
Qed.

(** Rounds until nothing is left. *)
Lemma upload_rounds k : forall y s, uploading y s -> owned (sy_server y) ->
  backlog (cl_ep y) + (if p_intr (ep_out (cl_ep y)) then 1 else 0) <= Z.of_nat k ->
  exists y' s', rtc (admitted_step cf) y y' /\ uploading y' s' /\ same_history y y' /\ backlog (cl_ep y') = 0.
Proof.
  induction k as [|k IH]; intros y s Hup Hown Hk;
    pose proof (si_rel _ (sy_side _ (up_inv _ _ Hup) true)) as Hr; rewrite (same_client_rl _ _ (up_ref _ _ Hup)) in Hr;
    pose proof (backlog_nonneg _ _ _ Hr) as Hpos.
  - exists y, s; split_and!; auto using rtc_refl; [intros b; auto|].
    destruct (p_intr (ep_out (cl_ep y))); lia.
  - destruct (Z.eq_dec (backlog (cl_ep y)) 0) as [H0|H0]; [exists y, s; split_and!; auto using rtc_refl; intros b; auto|].
    assert (Hnext : exists y1 s1, rtc (admitted_step cf) y y1 /\ uploading y1 s1 /\ owned (sy_server y1) /\ same_history y y1
      /\ backlog (cl_ep y1) + (if p_intr (ep_out (cl_ep y1)) then 1 else 0) <= Z.of_nat k).
    { destruct (has_pending (ep_rl (cl_ep y))) eqn:Hp; [|destruct (p_intr (ep_out (cl_ep y))) eqn:Hi].
      - destruct (upload_round y s Hup Hown ltac:(lia) (or_introl Hp)) as (y1 & s1 & E & Hu & Ho & Hh & Hb & Hi).
        exists y1, s1; rewrite Hi; split_and!; auto; lia.
      - destruct (interrupted_round y s Hup Hown Hp Hi) as (y1 & s1 & E & Hu & Ho & Hh & Hb & Hi1).
        exists y1, s1; rewrite Hi1; split_and!; auto; lia.
      - destruct (upload_round y s Hup Hown ltac:(lia) (or_intror Hi)) as (y1 & s1 & E & Hu & Ho & Hh & Hb & Hi1).
        exists y1, s1; rewrite Hi1, Hi; split_and!; auto; lia. }
    destruct Hnext as (y1 & s1 & E & Hu & Ho & Hh & Hb).
    destruct (IH y1 s1 Hu Ho Hb) as (y2 & s2 & E2 & Hu2 & Hh2 & Hb2).
    exists y2, s2; split_and!; auto; [etransitivity; eassumption|eauto using same_history_trans].
Qed.

(** When nothing is left, the server holds the whole stream. *)
Lemma upload_complete y s : uploading y s -> backlog (cl_ep y) = 0 ->
  sy_read y false ++ p_buf (s_toServer (sy_server y)) = sy_wrote y true.
Proof.
  intros Hup H0; pose proof Hup as [Href Hinv _ _ _ _ Hsync].
  pose proof (sy_side _ Hinv true) as Hx; pose proof (sy_side _ Hinv false) as Hz.
  rewrite <- (sr_read _ _ Href), <- (sr_wrote _ _ Href), (proj2 (end_pipes _ _ (sr_server _ _ Href))).
  rewrite <- (si_in _ Hz), <- (si_out _ Hx), (sr_taken _ _ Href).
  unfold backlog in H0; rewrite <- (same_client_rl _ _ Href) in H0.
  pose proof (si_rel _ Hx) as Hr; pose proof (si_rel _ Hz) as Hrz.
  destruct Hr, Hrz; unfold cl_ep in H0; rewrite (sr_client _ _ Href) in H0.
  assert (Hbuf : p_buf (ep_out (sd_ep (sides s true))) = []) by (apply len_zero_iff; len_lia).
  rewrite Hbuf, app_nil_r; pose proof (sy_prefix _ Hinv false) as [more Hm]; cbn [negb] in Hm.
  assert (Hz0 : more = []).
  { apply len_zero_iff; apply (f_equal len) in Hm; rewrite len_app in Hm; rewrite Hbuf in H0; len_lia. }
  rewrite Hm, Hz0, app_nil_r; reflexivity.
Qed.
End Rounds.

(** ** The handshake *)

Section Steps.
Context (cf : rconf) (Hframe : 0 < rf_maxFrame cf) (Hchunk : 0 < rf_maxSendChunk cf).

(** Events in which the applications take no part. *)
Definition cl_idle (ev : cl_event) : bool :=
  match ev with AppWrite _ | AppRead _ | LegIn _ (InTurn _ _ _) => false | _ => true end.
Definition sv_idle (ev : sv_event) : bool :=
  match ev with
  | SvBegin _ | SvTouch _ | SvAtt _ | SvResumeEnter _ _ | SvResumeExit _ _ _ => true
  | _ => false
  end.

Lemma do_client y s ev x' : sy_refines y s -> sys_inv s -> cl_idle ev = true ->
  incl (cl_takes cf ev (sy_client y)) (sy_down y) -> cl_step cf ev (sy_client y) = Some x' ->
  exists y1 s1, admitted_step cf y y1 /\ sy_refines y1 s1 /\ sys_inv s1 /\ same_history y y1
    /\ sy_client y1 = x' /\ sy_server y1 = sy_server y /\ incl (sy_up y) (sy_up y1) /\ sy_down y1 = sy_down y.
Proof.
  intros Href Hinv Hid Hin E.
  assert (Hok : cl_ok ev) by (destruct ev as [| | | |up []| |]; try discriminate; reflexivity).
  assert (Hv : len (sy_wrote y true) + cl_volume ev < 2 ^ 63).
  { rewrite <- (sr_wrote _ _ Href); pose proof (si_max _ (sy_side _ Hinv true)).
    destruct ev as [| | | |up []| |]; try discriminate; cbn; lia. }
  destruct (client_event_refines cf Hframe Hchunk y s Href Hinv ev Hok Hv Hin) as (x1 & E1 & s1 & Hs1 & Href1).
  rewrite E in E1; injection E1 as <-; eexists _, s1.
  split; [apply (as_client _ _ ev); cbn [sy_apply]; rewrite (proj2 (cl_okb_iff ev) Hok), (proj2 (Z.ltb_lt _ _) Hv), (proj2 (sent_before_incl _ _) Hin), E; reflexivity|].
  split_and!; auto; [eapply reach_inv; eassumption| |cbn; intros m Hm; apply in_app_iff; auto].
  intros b; cbn [sy_wrote sy_read].
  assert (Hnil : cl_wrote cf ev (sy_client y) = [] /\ cl_got ev (sy_client y) = []).
  { unfold cl_wrote, cl_got, leg_wrote; destruct ev as [| | | |up []| |]; try discriminate;
      destruct (cl_sup (sy_client y)) as [? ? dl ul| |]; auto; destruct up; destruct ul, dl; auto. }
  destruct Hnil as [-> ->]; rewrite !put_nil; auto.
Qed.

Lemma do_server y s ev s' : sy_refines y s -> sys_inv s -> sv_idle ev = true -> passes ev (sy_server y) ->
  incl (sv_takes ev) (sy_up y) -> sv_step ev (sy_server y) = Some s' ->
  exists y1 s1, admitted_step cf y y1 /\ sy_refines y1 s1 /\ sys_inv s1 /\ same_history y y1
    /\ sy_client y1 = sy_client y /\ sy_server y1 = s' /\ sy_up y1 = sy_up y
    /\ sy_down y1 = sy_down y ++ sv_sends ev (sy_server y).
Proof.
  intros Href Hinv Hid Hpass Hin E.
  assert (Hok : sv_ok ev) by (destruct ev; try discriminate; exact I).
  assert (Hv : len (sy_wrote y false) + sv_volume ev < 2 ^ 63).
  { rewrite <- (sr_wrote _ _ Href); pose proof (si_max _ (sy_side _ Hinv false)).
    destruct ev; try discriminate; cbn; lia. }
  destruct (server_event_refines y s Href Hinv ev Hok Hv Hin) as (x1 & E1 & s1 & Hs1 & Href1).
  rewrite E in E1; injection E1 as <-; eexists _, s1.
  split; [refine (as_server _ _ ev _ Hpass _); cbn [sy_apply]; rewrite (proj2 (sv_okb_iff ev) Hok), (proj2 (Z.ltb_lt _ _) Hv), (proj2 (sent_before_incl _ _) Hin), E; reflexivity|].
  split_and!; auto; [eapply reach_inv; eassumption|].
  intros b; cbn [sy_wrote sy_read]; destruct ev; try discriminate; cbn; rewrite !put_nil; auto.
Qed.

Lemma do_request y s m : sy_refines y s -> sys_inv s -> In m (cl_requests (sy_client y)) ->
  exists y1 s1, admitted_step cf y y1 /\ sy_refines y1 s1 /\ sys_inv s1 /\ same_history y y1
    /\ sy_client y1 = sy_client y /\ sy_server y1 = sy_server y /\ In m (sy_up y1) /\ sy_down y1 = sy_down y.
Proof.
  intros Href Hinv Hm; destruct (request_refines y s Href Hinv m Hm) as (s1 & Hs1 & Href1).
  eexists _, s1; split; [apply (as_request _ _ m); cbn [sy_apply]; rewrite bool_decide_true by (apply list_elem_of_In, Hm); reflexivity|].
  split_and!; auto; [eapply reach_inv; eassumption|intros b; auto|cbn; apply in_app_iff; right; left; reflexivity].
Qed.

(** Moves of the attachments touch nothing else. *)
Lemma do_moves a a' : rtc att_move a a' -> forall y s, sy_refines y s -> sys_inv s -> s_att (sy_server y) = Some a ->
  exists y1 s1, rtc (admitted_step cf) y y1 /\ sy_refines y1 s1 /\ sys_inv s1 /\ same_history y y1
    /\ sy_client y1 = sy_client y /\ sy_server y1 = set_att (Some a') (sy_server y)
    /\ sy_up y1 = sy_up y /\ sy_down y1 = sy_down y.
Proof.
  intros H; induction H as [a|a a1 a2 Hm _ IH]; intros y s Hr Hi Ha.
  - exists y, s; split_and!; auto using rtc_refl; [intros b; auto|]; rewrite <- Ha; destruct (sy_server y); reflexivity.
  - destruct (do_server y s (SvAtt a1) _ Hr Hi eq_refl ltac:(exists a; auto) ltac:(intros ? []) eq_refl)
      as (y1 & s1 & E1 & Hr1 & Hi1 & Hh1 & Ec1 & Ev1 & Eu1 & Ed1).
    destruct (IH y1 s1 Hr1 Hi1 ltac:(rewrite Ev1; reflexivity)) as (y2 & s2 & E2 & Hr2 & Hi2 & Hh2 & Ec2 & Ev2 & Eu2 & Ed2).
    exists y2, s2; split_and!; auto; [eapply rtc_l; eassumption|eauto using same_history_trans|congruence|rewrite Ev2, Ev1; reflexivity|congruence|].
    rewrite Ed2, Ed1; cbn; apply app_nil_r.
Qed.
End Steps.

(** What an end has received is something its peer can resume from. *)
Lemma resume_accepted s b : sys_inv s -> isBroken (rl (sides s b)) = false ->
  exists r, resumeOut (rl (sides s b)) (recvOffsetNow (rl (sides s (negb b)))) = Some (r, true)
    /\ recvOffset r = recvOffset (rl (sides s b)) /\ sentCursor r = recvOffset (rl (sides s (negb b))).
Proof.
  intros [Hs Hp Ha _] Hb; unfold recvOffsetNow; rewrite (ri_recv _ _ _ (si_rel _ (Hs (negb b)))).
  destruct (resumeOut_spec _ _ _ (len (sd_got (sides s (negb b)))) (si_rel _ (Hs b)) (len_nonneg _))
    as (r & ok & E & _ & Hrec & Hok & _ & Ht).
  assert (Hle : len (sd_got (sides s (negb b))) <= len (sd_sent (sides s b))).
  { pose proof (Hp (negb b)) as Hq; rewrite negb_involutive in Hq; apply prefix_length in Hq; unfold len; lia. }
  unfold isBroken in Hb; rewrite Hb, (proj2 (Z.leb_le _ _) (Ha b Hb)), (proj2 (Z.leb_le _ _) Hle) in Hok.
  cbn in Hok; subst ok; exists r; split; [exact E|]; rewrite (Ht eq_refl); auto.
Qed.

Section Handshake.
Context (cf : rconf) (Hframe : 0 < rf_maxFrame cf) (Hchunk : 0 < rf_maxSendChunk cf).
Context (Hws : rf_ws cf = false) (Hup : rf_uploadStream cf = true).

(** The server accepts the client's offset [n]: the first half of
    ResumeHandler goes on to kick the transports off. *)
Definition server_admits (now n : Z) (s : session) : Prop :=
  (resume_enter (BodyJSON (mk_ResumeRequest ProtocolVersion n)) now s).2 = inr n.

Lemma admits_unbroken now n s r : server_admits now n s -> s_rs s = Some r -> isBroken r = false.
Proof.
  unfold server_admits, resume_enter; intros H Hr; rewrite Hr in H; cbn in H.
  destruct (isBroken r); [|reflexivity]; repeat case_match; simplify_eq/=.
Qed.

(** What the first half leaves: the lock is taken and the request is counted. *)
Lemma admits_enters now n s : server_admits now n s -> 0 <= s_pollInFlight s < 2 ^ 31 - 1 ->
  let s1 := (resume_enter (BodyJSON (mk_ResumeRequest ProtocolVersion n)) now s).1 in
  exists a, s_att s1 = Some a /\ a_resuming a = true /\ s_closed s1 = false /\ s_pollInFlight s1 = s_pollInFlight s + 1.
Proof.
  unfold server_admits, resume_enter, beginPoll, beginResume; intros H Hp; cbn in *.
  assert (Hi : i32 (s_pollInFlight s + 1) = s_pollInFlight s + 1) by (apply i32_id; lia).
  destruct (s_closed s) eqn:Hc; cbn [orb] in *; repeat (case_match; simplify_eq/=); eauto 10.
Qed.

(** What an accepted handshake leaves: the lock is free again, the request is
    no longer counted, and the session lets the next one in. *)
Record reopened (now : Z) (s : session) : Prop := {
  ro_free : exists a, s_att s = Some a /\ a_resuming a = false /\ kickAll_olds a = [];
  ro_count : 0 <= s_pollInFlight s < 2 ^ 31 - 1;
  ro_begins : (beginPoll now s).2 = true;
}.

Lemma resume_exit_accepts recv now s r r' a : s_rs s = Some r -> resumeOut r recv = Some (r', true) ->
  s_att s = Some a -> kickAll_olds a = [] -> s_closed s = false -> 0 < s_pollInFlight s < 2 ^ 31 -> 0 <= s_resumeGrace s ->
  exists s', resume_exit recv true now s = Some (s', Answer (mk_ResumeResponse true (recvOffsetNow r')))
    /\ s_rs s' = Some r' /\ s_toServer s' = s_toServer s /\ reopened now s'.
Proof.
  intros Hr E Ha Ho Hc Hp Hg; unfold resume_exit; cbn [negb]; rewrite Hr, E; eexists; split; [reflexivity|].
  set (s1 := on_att endResume (set_rs (Some r') s)).
  destruct (endPoll_same now s1) as (H1 & _ & H2); split; [exact H1|split; [exact H2|]].
  assert (Hi : i32 (s_pollInFlight s - 1) = s_pollInFlight s - 1) by (apply i32_id; lia).
  constructor.
  - rewrite endPoll_att; cbn; rewrite Ha; eexists; split; [reflexivity|]; auto.
  - unfold endPoll, noteDetachedLocked; cbn; rewrite Hi; case_if; cbn; lia.
  - unfold beginPoll, endPoll, noteDetachedLocked, resumeExpiredLocked; cbn; rewrite Hi.
    destruct (s_pollInFlight s - 1 =? 0) eqn:E0; cbn; rewrite ?E0, Hc; cbn [orb andb negb]; [|reflexivity].
    assert (H0 : time_sub now now = 0) by (unfold time_sub; rewrite Z.sub_diag; reflexivity).
    rewrite H0, (proj2 (Z.ltb_ge _ _) Hg), andb_false_r; reflexivity.
Qed.

(** The request, both halves of the handler, and the owners' leaving between them. *)
Lemma server_resumes y s now before duration deadline backoff :
  sy_refines y s -> sys_inv s -> cl_sup (sy_client y) = SupResume before duration deadline backoff ->
  server_admits now (recvOffsetNow (ep_rl (cl_ep y))) (sy_server y) ->
  0 <= s_pollInFlight (sy_server y) < 2 ^ 31 - 1 -> 0 <= s_resumeGrace (sy_server y) ->
  exists y1 s1, rtc (admitted_step cf) y y1 /\ sy_refines y1 s1 /\ sys_inv s1 /\ same_history y y1
    /\ sy_client y1 = sy_client y /\ In (NetResume (recvOffset (rl (sides s1 false)))) (sy_down y1)
    /\ p_closed (s_toServer (sy_server y1)) = p_closed (s_toServer (sy_server y)) /\ reopened now (sy_server y1).
Proof.
  intros Href Hinv Es Had Hp Hg; set (n := recvOffsetNow _) in *.
  assert (Hm : In (NetResume n) (cl_requests (sy_client y))) by (unfold cl_requests; rewrite Es; left; reflexivity).
  destruct (do_request cf y s _ Href Hinv Hm) as (y1 & s1 & E1 & Hr1 & Hi1 & Hh1 & Ec1 & Ev1 & Hin1 & _).
  pose (b := BodyJSON (mk_ResumeRequest ProtocolVersion n)); rewrite <- Ev1 in Had, Hp, Hg.
  destruct (admits_enters _ _ _ Had Hp) as (a2 & Ha2 & Hl2 & Hc2 & Hp2); fold b in Ha2, Hc2, Hp2.
  assert (Hat1 : exists a1, s_att (sy_server y1) = Some a1).
  { unfold server_admits, resume_enter in Had; cbn in Had; destruct (s_att (sy_server y1)); eauto.
    destruct (s_rs (sy_server y1)); discriminate. }
  destruct Hat1 as [a1 Ha1].
  destruct (do_server cf y1 s1 (SvResumeEnter b now) _ Hr1 Hi1 eq_refl ltac:(exists a1; eauto) ltac:(intros ? []) eq_refl)
    as (y2 & s2 & E2 & Hr2 & Hi2 & Hh2 & Ec2 & Ev2 & Eu2 & _).
  destruct (resume_enter_same b now (sy_server y1)) as (Hrs & _ & Hto); rewrite <- Ev2 in *.
  pose proof (enter_grace b now (sy_server y1)) as Hge; rewrite <- Ev2 in Hge.
  destruct (owners_leave a2) as (a3 & Hmv & Ho3 & Hl3).
  destruct (do_moves cf a2 a3 Hmv y2 s2 Hr2 Hi2 Ha2) as (y3 & s3 & E3 & Hr3 & Hi3 & Hh3 & Ec3 & Ev3 & Eu3 & _).
  pose proof (proj1 (sr_server _ _ Hr3)) as Hl; rewrite Ev3 in Hl; cbn [set_att s_rs] in Hl.
  assert (Hb : isBroken (rl (sides s3 false)) = false) by (eapply admits_unbroken; [exact Had|]; rewrite <- Hrs; exact Hl).
  assert (Hn : n = recvOffsetNow (rl (sides s3 true))).
  { rewrite (same_client_rl _ _ Hr3); unfold cl_ep; rewrite Ec3, Ec2, Ec1; reflexivity. }
  destruct (resume_accepted s3 false Hi3 Hb) as (r & Er & Hrec & _); cbn [negb] in Er; rewrite <- Hn in Er.
  destruct (resume_exit_accepts n now (sy_server y3) _ r a3 (proj1 (sr_server _ _ Hr3)) Er) as (s' & Ex & Hrs' & Hto' & Hro);
    try (rewrite Ev3; cbn [set_att s_att s_closed s_pollInFlight s_resumeGrace]); auto; try lia.
  destruct (do_server cf y3 s3 (SvResumeExit n true now) s' Hr3 Hi3 eq_refl
              ltac:(exists a3; rewrite Ev3; cbn; split_and!; auto; congruence)
              ltac:(intros m [<-|[]]; rewrite Eu3, Eu2; exact Hin1) ltac:(cbn [sv_step]; rewrite Ex; reflexivity))
    as (y4 & s4 & E4 & Hr4 & Hi4 & Hh4 & Ec4 & Ev4 & _ & Ed4).
  exists y4, s4; split_and!; auto; [|eauto using same_history_trans|congruence| | |rewrite Ev4; exact Hro].
  - eapply rtc_l; [exact E1|]; eapply rtc_l; [exact E2|]; eapply rtc_r; [exact E3|exact E4].
  - rewrite Ed4; apply in_app_iff; right; cbn [sv_sends]; rewrite Ex.
    pose proof (proj1 (sr_server _ _ Hr4)) as Hl4; rewrite Ev4, Hrs' in Hl4; injection Hl4 as <-.
    destruct (s_rs (sy_server y3)); left; reflexivity.
  - rewrite Ev4, Hto', Ev3; cbn [set_att s_toServer]; rewrite Hto, Ev1; reflexivity.
Qed.

(** The guard does not give up on the legs that were lost: they lasted, or fewer
    than five fast rounds have followed each other. *)
Definition stable (g : resumeStabilityGuard) (duration : Z) : Prop :=
  resumableLegsMinStable <= duration \/ g_fast g + 1 < maxConsecutiveFastResumes.

Lemma stable_goes_on g duration progressed : stable g duration -> (guard_record g duration progressed).2 = false.
Proof.
  intros H; unfold guard_record; destruct (_ || progressed) eqn:E; [reflexivity|].
  apply orb_false_iff in E as [E _]; apply Z.leb_gt in E; destruct H; [lia|]; apply Z.leb_gt; lia.
Qed.

Lemma resumed_attempt y s before duration deadline backoff now active n r :
  sy_refines y s -> cl_sup (sy_client y) = SupResume before duration deadline backoff ->
  stable (cl_guard (sy_client y)) duration -> resumeOut (rl (sides s true)) n = Some (r, true) ->
  exists g d, cl_step cf (Attempt (mk_attempt (RReplyOK (mk_ResumeResponse true n)) true now true) active) (sy_client y)
    = Some (mk_client (on_ep (on_rl (fun _ => r)) (cl_conn (sy_client y))) g
              (SupLegs (progress r) None d (Opening (UpFeeding new_body None)))).
Proof.
  intros Href Es Hd Er; cbn [cl_step]; rewrite Es; unfold sup_attempt.
  cbn [resume_loop doResume ra_reply rres_Resumed rres_RecvOffset negb].
  rewrite (same_client_rl _ _ Href) in Er; unfold cl_ep in Er; rewrite Er, Hws; cbn [negb snd].
  pose proof (stable_goes_on _ _ (negb (bool_decide (progress r = before))) Hd) as Hg.
  cbn [on_rc cl_guard]; destruct (guard_record _ _ _) as [g abandon]; cbn [snd] in Hg; subst abandon.
  unfold start_legs; rewrite Hws, Hup; do 2 eexists; reflexivity.
Qed.

(** The answer, and the new legs. *)
Lemma client_resumes y s before duration deadline backoff :
  sy_refines y s -> sys_inv s -> cl_sup (sy_client y) = SupResume before duration deadline backoff ->
  stable (cl_guard (sy_client y)) duration -> isBroken (ep_rl (cl_ep y)) = false ->
  rc_cancelled (cl_conn (sy_client y)) = false -> p_closed (ep_out (cl_ep y)) = false ->
  p_closed (s_toServer (sy_server y)) = false ->
  In (NetResume (recvOffset (rl (sides s false)))) (sy_down y) ->
  exists y1 s1, rtc (admitted_step cf) y y1 /\ uploading y1 s1 /\ same_history y y1 /\ sy_server y1 = sy_server y.
Proof.
  intros Href Hinv Es Hd Hb Hlive Hopen Hsrv Hin.
  rewrite <- (same_client_rl _ _ Href) in Hb.
  destruct (resume_accepted s true Hinv Hb) as (r & Er & _ & Hcur); cbn [negb] in *.
  destruct (resumed_attempt y s before duration deadline backoff 0 "" _ r Href Es Hd Er) as (g & d & Ea).
  match type of Ea with cl_step _ ?ev _ = _ => pose (at1 := ev); fold at1 in Ea end.
  destruct (do_client cf Hframe Hchunk y s at1 _ Href Hinv eq_refl
              ltac:(unfold at1, cl_takes; rewrite Es; intros m [<-|[]]; exact Hin) Ea)
    as (y1 & s1 & E1 & Hr1 & Hi1 & Hh1 & Ec1 & Ev1 & _).
  assert (Hl : cl_step cf (LegIn true InOpen) (sy_client y1)
    = Some (mk_client (on_ep (on_rl resetAck) (cl_conn (sy_client y1))) g (SupLegs (progress r) None d (UpFeeding new_body None))))
    by (rewrite Ec1; reflexivity).
  destruct (do_client cf Hframe Hchunk y1 s1 (LegIn true InOpen) _ Hr1 Hi1 eq_refl
              ltac:(unfold cl_takes; rewrite Ec1; intros ? []) Hl)
    as (y2 & s2 & E2 & Hr2 & Hi2 & Hh2 & Ec2 & Ev2 & _).
  assert (Ev : sy_server y2 = sy_server y) by congruence.
  exists y2, s2; split_and!; [eapply rtc_l; [exact E1|apply rtc_once, E2]| |eauto using same_history_trans|exact Ev].
  constructor; auto.
  - rewrite Ec2; cbn; eauto.
  - rewrite Ec2; cbn; rewrite Ec1; exact Hlive.
  - unfold cl_ep; rewrite Ec2; cbn; rewrite Ec1; exact Hopen.
  - rewrite Ev; exact Hsrv.
  - rewrite (same_client_rl _ _ Hr2), (same_server_rl _ _ _ _ Href Hr2 Ev); unfold cl_ep; rewrite Ec2; cbn; rewrite Ec1; exact Hcur.
Qed.

(** The request of the new upload leg is let in and attaches. *)
Lemma server_attaches y s now : uploading y s -> reopened now (sy_server y) ->
  exists y1 s1, rtc (admitted_step cf) y y1 /\ uploading y1 s1 /\ same_history y y1 /\ owned (sy_server y1).
Proof.
  intros Hu [(a & Ha & Hl & Ho) Hp Hb]; pose proof Hu as [Href Hinv Hsup Hlive Hopen Hsrv Hsync].
  destruct (do_server cf y s (SvBegin now) _ Href Hinv eq_refl ltac:(exists a; auto) ltac:(intros ? []) eq_refl)
    as (y1 & s1 & E1 & Hr1 & Hi1 & Hh1 & Ec1 & Ev1 & _).
  assert (Hs1 : s_att (sy_server y1) = Some a) by (rewrite Ev1, beginPoll_att; exact Ha).
  destruct (do_server cf y1 s1 (SvTouch now) _ Hr1 Hi1 eq_refl ltac:(exists a; auto) ltac:(intros ? []) eq_refl)
    as (y2 & s2 & E2 & Hr2 & Hi2 & Hh2 & Ec2 & Ev2 & _).
  assert (Hfree : slot a attachUp = None).
  { unfold kickAll_olds in Ho; cbn in *; destruct (a_down a), (a_up a); cbn in Ho; congruence. }
  destruct (attach_moves a attachUp Hl Hfree) as (a' & Hmv & Hown).
  destruct (do_moves cf a a' Hmv y2 s2 Hr2 Hi2 ltac:(rewrite Ev2; exact Hs1)) as (y3 & s3 & E3 & Hr3 & Hi3 & Hh3 & Ec3 & Ev3 & _).
  assert (Ec : sy_client y3 = sy_client y) by congruence.
  assert (Hsv : s_rs (sy_server y3) = s_rs (sy_server y) /\ s_toServer (sy_server y3) = s_toServer (sy_server y)).
  { rewrite Ev3, Ev2, Ev1; destruct (begin_same now (sy_server y)) as (H1 & _ & H2); auto. }
  exists y3, s3; split_and!; [eapply rtc_l; [exact E1|]; eapply rtc_l; [exact E2|exact E3]| |eauto using same_history_trans|].
  - constructor; auto; unfold cl_ep; rewrite ?Ec; auto; [rewrite (proj2 Hsv); exact Hsrv|].
    rewrite (same_client_rl _ _ Href) in Hsync; rewrite (same_client_rl _ _ Hr3); unfold cl_ep in *; rewrite Ec, Hsync.
    pose proof (proj1 (sr_server _ _ Hr3)) as H1; rewrite (proj1 Hsv), (proj1 (sr_server _ _ Href)) in H1; congruence.
  - split; [rewrite Ev3; cbn; eauto|]; rewrite Ev3, Ev2, Ev1; unfold beginPoll in *; cbn in *.
    destruct (_ || _); [discriminate|]; cbn; rewrite i32_id by lia; lia.
Qed.
End Handshake.

(** ** Property *)

Section Complete.
Context (cfg : ServerConfig) (c : Connector) (preferResume forceBatchUpload : bool).
Context (id : string) (meta : meta_map) (now : Z) (dialed : bool) (cf : rconf) (c0 : rconn).
Let s0 : session := created cfg c preferResume forceBatchUpload id meta now.
Let cr : ConnectResponse := answered cfg c preferResume forceBatchUpload id meta now.
Context (Hcfg : cfg_ok cfg) (Hres : Resumable s0 = true) (Hcon : connectResumable c cr dialed = Ok (cf, c0)).

(** What System.v's reachable states have of the server. *)
Lemma reachable_server y : rtc (sy_step cf) (new_system cf c0 s0) y ->
  usable (sy_server y) /\ 0 <= s_resumeGrace (sy_server y).
Proof.
  intros Hy; apply (rtc_invariant (sy_step cf) (fun y => usable (sy_server y) /\ 0 <= s_resumeGrace (sy_server y)))
    with (x := new_system cf c0 s0); [|exact Hy|].
  - intros y1 y2 [Hu Hg] Hs; inversion Hs; subst; cbn; auto; split; [eapply sv_step_usable; eassumption|].
    erewrite sv_step_grace by eassumption; exact Hg.
  - split; [apply created_usable, Hres|]; cbn [new_system sy_server].
    pose proof (connect_session_fields cfg (requested c preferResume forceBatchUpload) id meta now) as H; cbn zeta in H.
    destruct H as (_ & _ & _ & _ & _ & _ & _ & _ & _ & _ & _ & Hg).
    unfold s0, created; rewrite Hg by exact Hres; destruct (co_grace _ Hcfg); unfold Millisecond in *; lia.
Qed.

(** C3: a lost transport costs no bytes.  Take any reachable state of the program,
    after whatever losses, in which the client's transports are gone, its
    supervisor is resuming and its stability guard has not run out (the lost legs
    lived two seconds, or this is not the fifth fast round), the session is open
    and unbroken at both ends and the server admits the handshake; let the client
    upload by streams, in frames the server takes.  Then delivery can be
    completed: there is a continuation in which the applications take no part and
    every step of the server passes the checks of its handler (the owners that
    are kicked off leave, the handshake holds and releases its lock, the new
    request is let in, counted and attached, and only then are its frames taken),
    after which every byte the client's application ever wrote has been read by
    the server's or is in its receive buffer, in order. *)
Theorem session_completes_upload y t maxSend before duration deadline backoff :
  rtc (sy_step cf) (new_system cf c0 s0) y ->
  rf_ws cf = false -> rf_uploadStream cf = true ->
  rf_maxFrame cf <= maxSend -> maxSend + seqHeaderLen < 2 ^ 32 ->
  cl_sup (sy_client y) = SupResume before duration deadline backoff -> stable (cl_guard (sy_client y)) duration ->
  isBroken (ep_rl (cl_ep y)) = false -> rc_cancelled (cl_conn (sy_client y)) = false ->
  p_closed (ep_out (cl_ep y)) = false -> p_closed (s_toServer (sy_server y)) = false ->
  server_admits t (recvOffsetNow (ep_rl (cl_ep y))) (sy_server y) ->
  0 <= s_pollInFlight (sy_server y) < 2 ^ 31 - 1 ->
  exists y', rtc (admitted_step cf) y y' /\ same_history y y'
    /\ sy_read y' false ++ p_buf (s_toServer (sy_server y')) = sy_wrote y' true.
Proof.
  intros Hy Hws Hup Hfit Hmax Es Hd Hb Hlive Hopen Hsrv Had Hp.
  destruct (connected_sizes _ _ _ _ _ _ _ _ _ _ Hcfg Hcon) as [Hf Hch].
  destruct (reachable_refines _ _ _ _ _ _ _ _ _ _ Hcfg Hres Hcon y Hy) as (_ & s & _ & _ & Hi & Hr).
  destruct (server_resumes cf y s t _ _ _ _ Hr Hi Es Had Hp (proj2 (reachable_server y Hy)))
    as (y1 & s1 & E1 & Hr1 & Hi1 & Hh1 & Ec1 & Hin & Hsv1 & Hro).
  destruct (client_resumes cf Hf Hch Hws Hup y1 s1 before duration deadline backoff Hr1 Hi1)
    as (y2 & s2 & E2 & Hu2 & Hh2 & Ev2); try (unfold cl_ep; rewrite Ec1); try congruence; auto.
  rewrite <- Ev2 in Hro; destruct (server_attaches cf y2 s2 t Hu2 Hro) as (y3 & s3 & E3 & Hu3 & Hh3 & Ho3).
  destruct (upload_rounds cf Hf Hch maxSend Hfit Hmax (Z.to_nat (backlog (cl_ep y3) + 1)) y3 s3 Hu3 Ho3)
    as (y4 & s4 & E4 & Hu4 & Hh4 & H0).
  { pose proof (si_rel _ (sy_side _ (up_inv _ _ Hu3) true)) as Hrel; rewrite (same_client_rl _ _ (up_ref _ _ Hu3)) in Hrel.
    pose proof (backlog_nonneg _ _ _ Hrel); destruct (p_intr _); lia. }
  exists y4; split_and!; [do 3 (etransitivity; [eassumption|]); exact E4|eauto 6 using same_history_trans|].
  eapply upload_complete; eassumption.
Qed.
End Complete.

Lemma session_completes_upload_witness :
  exists y', rtc (admitted_step ex_sys_conf) (ex_reached (take 6 ex_labels)) y'
    /\ sy_read y' false ++ p_buf (s_toServer (sy_server y')) = ex_sys_sent.
Proof.
  destruct (session_completes_upload ex_sys_cfg ex_sys_connector true false "s1" ∅ 0 true ex_sys_conf ex_rconn
              ex_sys_cfg_ok ltac:(vm_compute; reflexivity) ltac:(vm_compute; reflexivity) (ex_reached (take 6 ex_labels)) 1 262144
              (0, 0) (3 * Second) (30 * Second) (250 * Millisecond)
              ltac:(apply ex_steps; vm_compute; eexists; reflexivity)) as (y' & E & Hh & Hw);
    [first [vm_compute; reflexivity|vm_compute; discriminate|left; vm_compute; discriminate|split; vm_compute; congruence]..|].
  exists y'; split; [exact E|]; rewrite Hw, (proj1 (Hh true)); vm_compute; reflexivity.
Defined.
