(* ===== verification/Handlers.v ===== *)
(** * Handlers.v: the server's handlers are runs of its machine

    System.v lets the server take single events.  Here whole requests run
    against the world of Session.v (PollHandler with its streams, uploads,
    batches and violations; WebSocketHandler with its pumps; DeleteHandler),
    and each, from its first lock section to its last, is a sequence of events
    of Server.v: a run of the system of System.v that takes what arrived with
    the request and sends what it is answered with. *)

From S2P Require Import Prelude Frame Pipe Protocol Reliable Channel Attach Session.
From S2P Require Import Connect Resume Batch Reconnect Stream Plain Poll WebSocket Legs Wire Server System.

(** ** What a turn writes is what the machine sends *)

(** A sink logs what it was given exactly when the write succeeds. *)
Class SinkLog (W : Type) `{FrameSink W} := {
  log_frame : forall w typ p, sink_sent (sink_frame w typ p).1
    = sink_sent w ++ (match (sink_frame w typ p).2 with None => [(typ, p)] | Some _ => [] end);
  log_seq : forall w off p, sink_sent (sink_seq w off p).1
    = sink_sent w ++ (match (sink_seq w off p).2 with None => [(frameSeqData, be_put 8 off ++ p)] | Some _ => [] end);
}.

#[export] Instance hbody_log : SinkLog hbody.
Proof.
  constructor; intros b x p; unfold sink_frame, sink_seq, sink_sent, hbody_sink, hbody_frame, hbody_seq.
  - destruct (writeFrame (hb_writer b) x p) as [w [e|]]; cbn; rewrite ?app_nil_r; reflexivity.
  - destruct (writeSeqFrame (hb_writer b) x p) as [w [e|]]; cbn; rewrite ?app_nil_r; reflexivity.
Qed.

#[export] Instance ws_log : SinkLog wsocket.
Proof.
  constructor; intros c x p; unfold sink_frame, sink_seq, sink_sent, ws_sink, ws_write;
    destruct (ws_plan c) as [|[e|] plan]; cbn; rewrite ?app_nil_r, ?map_app; reflexivity.
Qed.

Section TurnLog.
Context {W : Type} `{SinkLog W}.

(** Every frame that is new in the log is in [fs], or has no packets. *)
Definition logs (w w' : W) (fs : list (frameType * list byte)) : Prop :=
  forall f, In f (sink_sent w') -> In f (sink_sent w) \/ In f fs \/ frame_takes f = [].

Lemma logs_refl w fs : logs w w fs.
Proof. intros f; auto. Qed.

Lemma logs_frame w typ p fs : In (typ, p) fs \/ frame_takes (typ, p) = [] -> logs w (sink_frame w typ p).1 fs.
Proof.
  intros Hf f; rewrite log_frame, in_app_iff; intros [Hin|Hin]; [auto|].
  destruct (sink_frame w typ p).2; [destruct Hin|destruct Hin as [<-|[]]]; auto.
Qed.

Lemma logs_seq w off p fs : In (frameSeqData, be_put 8 off ++ p) fs -> logs w (sink_seq w off p).1 fs.
Proof.
  intros Hf f; rewrite log_seq, in_app_iff; intros [Hin|Hin]; [auto|].
  destruct (sink_seq w off p).2; [destruct Hin|destruct Hin as [<-|[]]]; auto.
Qed.

Lemma logs_trans w w1 w2 fs : logs w w1 fs -> logs w1 w2 fs -> logs w w2 fs.
Proof. intros H1 H2 f Hf; destruct (H2 f Hf) as [Hf1|Hf1]; auto. Qed.

Lemma emit_logs e w off data intr :
  logs w (emit e w off data intr).1.2 (hb_frames (emit e perfect_body off data intr).1.2).
Proof.
  pose proof (perfect_emit_ack e off data intr) as Hack; pose proof (perfect_emit_seq e [] [] off data intr) as Hseq.
  fold perfect_body in Hseq; set (fs := hb_frames _) in *; unfold emit; destruct (takeAck (ep_rl e)) as [r due].
  assert (H1 : logs w (match due with Some ack => sink_frame w frameAck (encodeOffset ack) | None => (w, None) end).1 fs)
    by (destruct due; [apply logs_frame; left; apply Hack; reflexivity|apply logs_refl]).
  destruct (match due with Some ack => _ | None => _ end) as [w1 [err|]]; [exact H1|cbn [fst] in H1].
  eapply logs_trans; [exact H1|].
  destruct (Z.eqb_spec (len data) 0) as [|Hd]; cbn [negb];
    [destruct intr; cbn [negb]; [apply logs_refl|]|];
    match goal with |- context [let '(_, _) := ?f in _] => destruct f as [w2 err2] eqn:E end; cbn [fst snd];
    replace w2 with (fst (w2, err2)) by reflexivity; rewrite <- E.
  - apply logs_frame; right; reflexivity.
  - apply logs_seq, Hseq; intros ->; apply Hd; reflexivity.
Qed.

(** What a loop writes at the end of a stream means nothing to the layer. *)
Lemma send_turn_logs onEOF eofErr interrupted final expired blen sched e w :
  (forall typ, onEOF = Some typ \/ final = Some typ -> frame_takes (typ, []) = []) ->
  logs w (send_turn onEOF eofErr interrupted final expired blen sched e w).1.2 (turn_frames interrupted blen sched e).
Proof.
  intros Hend; unfold turn_frames, send_turn; destruct (nextOut e blen sched) as [[[e1 r] rest]|]; [|apply logs_refl].
  assert (Hgo : forall off data intr,
    logs w (let '(e, w, err) := emit e1 w off data intr in
            match err with
            | Some err => (e, w, Leave (Some err))
            | None => if expired then (e, match final with Some typ => (sink_frame w typ []).1 | None => w end, Leave None)
                      else (e, w, Again)
            end).1.2
      (hb_frames (let '(e, w, err) := emit e1 perfect_body off data intr in
                  match err with
                  | Some err => (e, w, Leave (Some err))
                  | None => (e, w, Again)
                  end).1.2)).
  { intros off data intr; pose proof (emit_logs e1 w off data intr) as Hl.
    destruct (emit e1 w off data intr) as [[e2 w2] err], (emit e1 perfect_body off data intr) as [[e3 b3] err3].
    cbn [fst snd] in Hl; destruct err3, err; cbn [fst snd]; try exact Hl.
    all: destruct expired; [|exact Hl]; destruct final as [typ|]; [|exact Hl].
    all: eapply logs_trans; [exact Hl|]; apply logs_frame; right; apply Hend; auto. }
  destruct r as [[off d]|err]; [apply Hgo|].
  destruct err; try apply Hgo; [destruct onEOF; [apply logs_frame; right; apply Hend; auto|apply logs_refl]|].
  destruct interrupted; [apply logs_refl|apply Hgo].
Qed.
End TurnLog.

(** ** Runs that serve something *)

Definition events_total (evs : list sv_event) : Z := foldr (fun ev n => sv_volume ev + n) 0 evs.

(** Events that lead from [s] to [s'], take only what is in [log], send at least
    [ans], and let the application write at most [v] bytes. *)
Definition serving (log ans : list net_msg) (v : Z) (s s' : session) : Prop :=
  exists evs ms, sv_run evs s = Some (s', ms) /\ Forall sv_ok evs /\ incl (flat_map sv_takes evs) log
    /\ incl ans ms /\ events_total evs <= v.

Lemma sv_run_app evs evs' : forall s s1 ms, sv_run evs s = Some (s1, ms) ->
  sv_run (evs ++ evs') s = match sv_run evs' s1 with Some (s2, ms') => Some (s2, ms ++ ms') | None => None end.
Proof.
  induction evs as [|ev evs IH]; intros s s1 ms E; cbn in *.
  - injection E as <- <-; destruct (sv_run evs' s) as [[? ?]|]; reflexivity.
  - destruct (sv_step ev s) as [s2|]; [|discriminate].
    destruct (sv_run evs s2) as [[s3 ms3]|] eqn:E3; [|discriminate]; injection E as <- <-.
    rewrite (IH s2 s3 ms3 E3); destruct (sv_run evs' s3) as [[? ?]|]; [rewrite app_assoc|]; reflexivity.
Qed.

Lemma events_total_app evs evs' : events_total (evs ++ evs') = events_total evs + events_total evs'.
Proof.
  induction evs as [|ev evs IH]; [reflexivity|].
  change (sv_volume ev + events_total (evs ++ evs') = sv_volume ev + events_total evs + events_total evs'); lia.
Qed.

Section Serving.
Context (log : list net_msg).
Implicit Types (s : session) (ans : list net_msg) (v : Z).

Lemma serving_nil s v : 0 <= v -> serving log [] v s s.
Proof. intros Hv; exists [], []; split_and!; auto; intros ? []. Qed.

Lemma serving_one ev s s' v : sv_step ev s = Some s' -> sv_ok ev -> incl (sv_takes ev) log -> sv_volume ev <= v ->
  serving log (sv_sends ev s) v s s'.
Proof.
  intros E Hok Ht Hv; exists [ev], (sv_sends ev s ++ []); cbn; rewrite E, !app_nil_r; split_and!; auto; try lia.
  apply incl_refl.
Qed.

Lemma serving_trans ans ans' v v' s s1 s2 :
  serving log ans v s s1 -> serving log ans' v' s1 s2 -> serving log (ans ++ ans') (v + v') s s2.
Proof.
  intros (evs & ms & E & Ho & Ht & Ha & Hv) (evs' & ms' & E' & Ho' & Ht' & Ha' & Hv').
  exists (evs ++ evs'), (ms ++ ms'); rewrite (sv_run_app _ evs' _ _ _ E), E', flat_map_app, events_total_app.
  split_and!; auto using incl_app_app; [apply Forall_app; auto|apply incl_app; auto|lia].
Qed.

Lemma serving_weaken ans ans' v v' s s' : serving log ans v s s' -> incl ans' ans -> v <= v' -> serving log ans' v' s s'.
Proof.
  intros (evs & ms & E & Ho & Ht & Ha & Hv) Hi Hl; exists evs, ms; split_and!; auto; [|lia].
  eapply incl_tran; eassumption.
Qed.

(** Events that take nothing, need nothing and bring nothing. *)
Definition plain_event (ev : sv_event) : bool :=
  match ev with
  | SvMarkClosed | SvClosePipes | SvBegin _ | SvBeginWs _ | SvTouch _ | SvEnd _ | SvEndWs _ | SvInterrupt | SvOpen => true
  | _ => false
  end.

Lemma serving_plain ev s s' : plain_event ev = true -> sv_step ev s = Some s' -> serving log [] 0 s s'.
Proof.
  intros Hp E; eapply (serving_weaken _ [] 0 0); [apply (serving_one ev s s' 0 E)|intros ? []|lia];
    destruct ev; try discriminate; cbn; auto; try lia; intros ? [].
Qed.

Lemma serving_then ev ans v s s1 s2 : plain_event ev = true -> sv_step ev s = Some s1 ->
  serving log ans v s1 s2 -> serving log ans v s s2.
Proof. intros Hp E Hs; exact (serving_trans [] ans 0 v s s1 s2 (serving_plain ev s s1 Hp E) Hs). Qed.

Lemma serving_snoc ev ans v s s1 s2 : serving log ans v s s1 -> plain_event ev = true -> sv_step ev s1 = Some s2 ->
  serving log ans v s s2.
Proof.
  intros Hs Hp E; eapply serving_weaken; [exact (serving_trans _ _ _ _ _ _ _ Hs (serving_plain ev s1 s2 Hp E))| |lia].
  rewrite app_nil_r; apply incl_refl.
Qed.
End Serving.

(** ** PollHandler *)

Section PollStream.
Context (log : list net_msg) (bufsize : Z) (Hb : 0 < bufsize) (att : attachment).

Lemma set_ep_layer e s : exists r, s_rs (set_ep e s) = Some r.
Proof. exists (ep_rl e); reflexivity. Qed.

Lemma stream_step_serves t s b s' b' st :
  is_Some (s_rs s) -> no_rival (concat (tn_sched t)) ->
  pollStream_step bufsize att t s b = (s', b', st) -> st <> LoopPanic ->
  exists ms, serving log ms (events_volume (concat (tn_sched t))) s s' /\ is_Some (s_rs s')
    /\ forall f, In f (hb_frames b') -> In f (hb_frames b) \/ incl (frame_takes f) ms.
Proof.
  intros [rs Hrs] Hn E Hst; exists (sv_sends (SvStream bufsize att t b) s).
  split_and!.
  - apply serving_one; [cbn [sv_step]; rewrite E; destruct st; congruence|split; auto|intros ? []|cbn; lia].
  - unfold pollStream_step in E; rewrite Hrs in E.
    destruct (pollStreamResumable_turn _ _ _ _ _ _ _ _) as [[e b1] st1]; injection E as <- _ _; apply set_ep_layer.
  - intros f Hf; cbn [sv_sends]; rewrite Hrs; unfold pollStream_step, pollStreamResumable_turn in E; rewrite Hrs in E.
    destruct (tn_ctxDone t); [injection E as _ <- _; auto|]; fold (stream_interrupted t att) in E.
    match type of E with context [send_turn ?a ?b ?c ?d ?e ?f ?g ?h ?i] =>
      pose proof (send_turn_logs a b c d e f g h i) as Hl; destruct (send_turn a b c d e f g h i) as [[e1 b1] st1] end.
    injection E as _ <- _; cbn [fst snd] in Hl.
    destruct (Hl ltac:(intros typ [[= <-]|[= <-]]; reflexivity) f Hf) as [Hin|[Hin|Hin]]; [auto|right..].
    + intros m Hm; apply frame_takes_incl in Hm as [<-|[]]; apply in_map, Hin.
    + rewrite Hin; intros ? [].
Qed.

Lemma stream_loop_serves turns : forall s b s' b' running,
  is_Some (s_rs s) -> Forall (fun t => no_rival (concat (tn_sched t))) turns ->
  pollStream_loop bufsize att turns s b = Some (s', b', running) ->
  exists ms, serving log ms (turns_volume turns) s s'
    /\ forall f, In f (hb_frames b') -> In f (hb_frames b) \/ incl (frame_takes f) ms.
Proof.
  induction turns as [|t turns IH]; cbn [pollStream_loop]; intros s b s' b' running Hrs Hn E.
  { injection E as <- <- _; exists []; split; [apply serving_nil; cbn; lia|auto]. }
  inversion Hn as [|? ? Hn1 Hn2]; subst; clear Hn; destruct (pollStream_step bufsize att t s b) as [[s1 b1] st] eqn:E1.
  assert (Hst : st <> LoopPanic) by (intros ->; discriminate).
  destruct (stream_step_serves t s b s1 b1 st Hrs Hn1 E1 Hst) as (ms & Hs & Hrs1 & Hf).
  change (turns_volume (t :: turns)) with (events_volume (concat (tn_sched t)) + turns_volume turns).
  destruct st as [|err|]; [| |congruence].
  - destruct (IH s1 b1 s' b' running Hrs1 Hn2 E) as (ms' & Hs' & Hf'); exists (ms ++ ms').
    split; [exact (serving_trans log _ _ _ _ _ _ _ Hs Hs')|].
    intros f Hin; destruct (Hf' f Hin) as [Hin1|Hin1]; [destruct (Hf f Hin1) as [?|?]|]; auto using incl_appl, incl_appr.
  - injection E as <- <- _; exists ms; split; [|exact Hf]; pose proof (turns_volume_nonneg turns).
    eapply serving_weaken; [exact Hs|apply incl_refl|lia].
Qed.
End PollStream.

(** *** Uploads *)

(** The frames of a request's body, as far as it can be read. *)
Fixpoint body_frames (fuel : nat) (maxSend : Z) (body : reader) : list (frameType * list byte) :=
  match fuel with
  | O => []
  | S fuel =>
      match frame_next maxSend body with
      | (Ok f, body) => f :: body_frames fuel maxSend body
      | (Fail _, _) => []
      end
  end.

Lemma upload_loop_serves log maxSend fuel : forall body s s' st,
  pollSendStream_loop fuel maxSend false body s = Some (s', st) ->
  incl (flat_map frame_takes (body_frames fuel maxSend body)) log -> serving log [] 0 s s'.
Proof.
  induction fuel as [|fuel IH]; intros body s s' st E Hin; [discriminate|]; cbn [pollSendStream_loop body_frames] in *.
  destruct (frame_next maxSend body) as [[f|err] body'] eqn:Ef.
  - cbn [flat_map] in Hin; apply incl_app_inv in Hin as [Hin1 Hin2].
    destruct (pollSendStream_frame false f s) as [[s1 o]|] eqn:E1; [|discriminate].
    assert (Hs : serving log [] 0 s s1).
    { eapply (serving_weaken log); [apply (serving_one log (SvUpload maxSend body) s s1 0)| |reflexivity];
        cbn [sv_step sv_takes sv_ok sv_volume]; rewrite ?Ef; cbn [fst]; rewrite ?E1; auto; try lia; intros ? []. }
    destruct o as [status|]; [injection E as <- _; exact Hs|].
    exact (serving_trans log _ _ _ _ _ _ _ Hs (IH body' s1 s' st E Hin2)).
  - destruct err; injection E as <- _; apply serving_nil; lia.
Qed.

(** A probe's data goes nowhere. *)
Lemma probe_frame_same f s s' o : pollSendStream_frame true f s = Some (s', o) -> s' = s.
Proof.
  destruct f as [typ payload]; unfold pollSendStream_frame; rewrite orb_true_r; cbn [negb].
  destruct (s_rs s); repeat case_bool_decide; cbn [negb]; intros E; congruence.
Qed.

Lemma probe_loop_same maxSend fuel : forall body s s' st,
  pollSendStream_loop fuel maxSend true body s = Some (s', st) -> s' = s.
Proof.
  induction fuel as [|fuel IH]; intros body s s' st E; [discriminate|]; cbn [pollSendStream_loop] in E.
  destruct (frame_next maxSend body) as [[f|err] body']; [|destruct err; congruence].
  destruct (pollSendStream_frame true f s) as [[s1 o]|] eqn:E1; [|discriminate].
  apply probe_frame_same in E1; subst; destruct o; [congruence|eauto].
Qed.

Definition upload_frames (cfg : ServerConfig) (q : poll_request) : list (frameType * list byte) :=
  body_frames (S (length (r_bytes (pq_body q)))) (cfg_MaxSendBytes cfg) (pq_body q).

(** What the client is answered with, as messages. *)
Definition poll_msgs (a : poll_answer) : list net_msg :=
  match a with
  | PollBatched r => [NetAnswer r]
  | PollStreamed b _ => flat_map frame_takes (hb_frames b)
  | _ => []
  end.

Lemma serve_upload_serving log cfg q env s s' a :
  incl (flat_map frame_takes (upload_frames cfg q)) log -> serve_upload cfg q env s = Some (s', a) ->
  serving log (poll_msgs a) 0 s s'.
Proof.
  intros Hin E; unfold serve_upload in E.
  assert (Hs : forall s1 o, pollSendStream (S (length (r_bytes (pq_body q)))) (cfg_MaxSendBytes cfg) (pq_SendStreamProbe q)
      (bool_decide (is_Some (se_attached env))) (pq_body q) s = Some (s1, o) -> serving log [] 0 s s1).
  { unfold pollSendStream; intros s1 o E1; destruct (_ && negb _); [injection E1 as <- _; apply serving_nil; lia|].
    destruct (pq_SendStreamProbe q).
    - apply probe_loop_same in E1; subst; apply serving_nil; lia.
    - eapply upload_loop_serves; eassumption. }
  destruct (pollSendStream _ _ _ _ _ _) as [[s1 o]|]; [|repeat case_match; discriminate].
  specialize (Hs s1 o eq_refl).
  assert (Hend : (match o with None => Some (s1, PollSilent)
                  | Some status => Some (s1, if status =? StatusOK then PollHeader status else PollError status) end)
                 = Some (s', a) -> serving log (poll_msgs a) 0 s s').
  { destruct o as [status|]; intros E2; injection E2 as <- <-; [destruct (status =? StatusOK)|]; exact Hs. }
  repeat case_match; try discriminate; auto.
Qed.

(** *** The request *)

Definition stream_poll (q : poll_request) (s : session) : bool :=
  pq_ReceiveOnly q && bool_decide (s_pollMode s = PollModeStream).

(** The request came from the client: the frames of an upload were sent, and
    so was a batch request with these headers; a body that arrived whole is the
    one that was sent. *)
Definition poll_arrived (cfg : ServerConfig) (q : poll_request) (s : session) (log : list net_msg) : Prop :=
  if pq_SendStream q then incl (flat_map frame_takes (upload_frames cfg q)) log
  else stream_poll q s = false ->
    exists m, In (NetBatch (pq_SendOnly q) m) log /\ bq_recvOffset m = pq_RecvOffset q /\ bq_sendOffset m = pq_SendOffset q
      /\ (r_end (pq_body q) = EOF -> bq_body m = r_bytes (pq_body q)).

(** While the handler waits nobody else takes from the pipe. *)
Definition poll_quiet (env : serve_env) : Prop :=
  no_rival (concat (se_sched env)) /\ Forall (fun t => no_rival (concat (tn_sched t))) (se_turns env).

Lemma pollStream_serving log cfg env s s' a : 0 < cfg_PollBufferSize cfg -> is_Some (s_rs s) ->
  Forall (fun t => no_rival (concat (tn_sched t))) (se_turns env) ->
  pollStream cfg env s = Some (s', a) -> serving log (poll_msgs a) (turns_volume (se_turns env)) s s'.
Proof.
  intros Hb [rs Hrs] Hn E; unfold pollStream in E; pose proof (turns_volume_nonneg (se_turns env)) as Hv.
  assert (Hid : forall err, Some (s, PollError err) = Some (s', a) -> serving log (poll_msgs a) (turns_volume (se_turns env)) s s')
    by (intros err E'; injection E' as <- <-; apply serving_nil, Hv).
  destruct (se_flusher env); cbn [negb] in E; [|eapply Hid; exact E].
  rewrite Hrs in E; destruct (s_att s); [|discriminate]; destruct (se_attached env) as [att|]; [|eapply Hid; exact E].
  destruct (pollStream_loop _ _ _ _ _) as [[[s1 b] running]|] eqn:El; [|discriminate]; injection E as <- <-.
  destruct (stream_loop_serves log _ Hb att _ (set_rs (Some (resetAck rs)) s) _ _ _ _ (ex_intro _ (resetAck rs) eq_refl) Hn El) as (ms & Hs & Hf).
  apply (serving_then log SvOpen _ _ s (set_rs (Some (resetAck rs)) s)); [reflexivity|cbn; rewrite Hrs; reflexivity|].
  eapply serving_weaken; [exact Hs| |lia]; cbn [poll_msgs]; intros m Hm; apply in_flat_map in Hm as (f & Hin & Hm).
  destruct (Hf f Hin) as [[]|Hi]; apply Hi, Hm.
Qed.

Lemma batch_serving log cfg q env s rs m : 0 < cfg_PollBufferSize cfg -> s_rs s = Some rs -> no_rival (concat (se_sched env)) ->
  In (NetBatch (pq_SendOnly q) m) log -> bq_recvOffset m = pq_RecvOffset q -> bq_sendOffset m = pq_SendOffset q ->
  (r_end (pq_body q) = EOF -> bq_body m = r_bytes (pq_body q)) ->
  let limit := if pq_SendOnly q then cfg_MaxSendBytes cfg else 0 in
  let r := pollBatchResumable (pq_SendOnly q) (cfg_PollBufferSize cfg)
             (mk_breq (pq_RecvOffset q) (pq_SendOffset q) (r_bytes (pq_body q)))
             (mk_benv (bool_decide (is_Some (se_attached env))) (ReadAll limit (pq_body q)) (se_cancelled env)
                (se_cancelled' env) (se_sched env)) (sess_ep s rs) in
  forall e, batch_ep r = Some e ->
  serving log (match r with Responded _ a => [NetAnswer a] | _ => [] end) (events_volume (concat (se_sched env))) s (set_ep e s).
Proof.
  intros Hb Hrs Hn Hm H1 H2 H3 limit r e Ee.
  pose (benv := mk_benv (bool_decide (is_Some (se_attached env))) (ReadAll limit (pq_body q)) (se_cancelled env)
                  (se_cancelled' env) (se_sched env)).
  assert (Er : pollBatchResumable (pq_SendOnly q) (cfg_PollBufferSize cfg) m benv (sess_ep s rs) = r)
    by (unfold r, pollBatchResumable; rewrite H1, H2; reflexivity).
  pose (ev := SvBatch (pq_SendOnly q) (cfg_PollBufferSize cfg) m benv).
  eapply serving_weaken; [apply (serving_one log ev s (set_ep e s) (events_volume (concat (se_sched env))))| |reflexivity].
  - cbn [ev sv_step]; rewrite Hrs, Er; destruct r; cbn in Ee; congruence.
  - split_and!; auto; cbn; intros d; unfold ReadAll; case_if; [discriminate|].
    case_bool_decide; [|discriminate]; intros [= <-]; symmetry; auto.
  - intros x [<-|[]]; exact Hm.
  - reflexivity.
  - cbn [ev sv_sends]; rewrite Hrs, Er; apply incl_refl.
Qed.

(** The session at [l] was served. *)
Definition served_at (log ans : list net_msg) (v : Z) (l : loc) (s : session) (w' : world) : Prop :=
  exists s', w_heap w' !! l = Some s' /\ serving log ans v s s'.

Lemma at_session_serving log v f l s w w' a : w_heap w !! l = Some s ->
  (forall s' a, f s = Some (s', a) -> serving log (poll_msgs a) v s s') ->
  at_session l f w = Some (w', a) -> served_at log (poll_msgs a) v l s w'.
Proof.
  intros Hl Hf E; unfold at_session in E; rewrite Hl in E; destruct (f s) as [[s1 a1]|] eqn:Ef; [|discriminate].
  injection E as <- <-; exists s1; split; [apply lookup_insert_eq|eauto].
Qed.

(** closeSession closes the session, unless somebody else did. *)
Lemma closeSession_serving log ans v l reason now w s s1 : w_heap w !! l = Some s1 -> serving log ans v s s1 ->
  served_at log ans v l s (closeSession l reason now w).
Proof.
  intros Hl Hs; destruct (closeSession_session l reason now w s1 Hl) as (s' & Hl' & Hc); exists s'; split; [exact Hl'|].
  destruct Hc as [-> | ->]; [exact Hs|].
  eapply (serving_snoc log SvClosePipes); [eapply (serving_snoc log SvMarkClosed); [exact Hs|reflexivity..]|reflexivity..].
Qed.

Lemma served_more_at log ans v v' l s w' : served_at log ans v l s w' -> v <= v' -> served_at log ans v' l s w'.
Proof. intros (s' & H1 & H2) Hv; exists s'; split; [exact H1|]; eapply serving_weaken; [exact H2|apply incl_refl|exact Hv]. Qed.

Definition handler_volume (env : serve_env) : Z := events_volume (concat (se_sched env)) + turns_volume (se_turns env).

Lemma poll_serve_serving log cfg q env l s w w' a :
  0 < cfg_PollBufferSize cfg -> is_Some (s_rs s) -> w_heap w !! l = Some s -> poll_quiet env ->
  poll_arrived cfg q s log -> poll_serve cfg q env l s w = Some (w', a) ->
  served_at log (poll_msgs a) (handler_volume env) l s w'.
Proof.
  intros Hb [rs Hrs] Hl [Hn1 Hn2] Har E; unfold poll_serve, poll_arrived in *; rewrite Hrs in E.
  pose proof (events_volume_nonneg (concat (se_sched env))) as Hv1; pose proof (turns_volume_nonneg (se_turns env)) as Hv2.
  assert (Hid : forall st, Some (w, PollError st) = Some (w', a) -> served_at log (poll_msgs a) (handler_volume env) l s w').
  { intros st E'; injection E' as <- <-; exists s; split; [exact Hl|apply serving_nil; unfold handler_volume; lia]. }
  destruct (pq_SendStream q).
  { destruct (_ || negb _); [eapply Hid; exact E|].
    apply (served_more_at log _ 0); [eapply at_session_serving; [exact Hl| |exact E]|unfold handler_volume; lia].
    intros s' a' E'; eapply serve_upload_serving; eassumption. }
  destruct (_ || Bool.eqb _ _); [eapply Hid; exact E|]; fold (stream_poll q s) in E.
  destruct (stream_poll q s).
  { apply (served_more_at log _ (turns_volume (se_turns env))); [eapply at_session_serving; [exact Hl| |exact E]|unfold handler_volume; lia].
    intros s' a' E'; eapply pollStream_serving; eauto. }
  destruct (_ && _); [|eapply Hid; exact E]; destruct (s_att s); [|discriminate].
  destruct (Har eq_refl) as (m & Hm & H1 & H2 & H3).
  pose proof (batch_serving log cfg q env s rs m Hb Hrs Hn1 Hm H1 H2 H3) as Hs; cbn zeta in Hs.
  destruct (pollBatchResumable _ _ _ _ _) as [e r|e|e|]; [..|discriminate];
    specialize (Hs e eq_refl); cbn iota in Hs; injection E as <- <-;
    (apply (served_more_at log _ (events_volume (concat (se_sched env)))); [|unfold handler_volume; lia]).
  - exists (set_ep e s); split; [apply lookup_insert_eq|exact Hs].
  - exists (set_ep e s); split; [apply lookup_insert_eq|exact Hs].
  - eapply closeSession_serving; [apply lookup_insert_eq|exact Hs].
Qed.

(** The whole handler. *)
Lemma PollHandler_serving log cfg id q env w w' a l s :
  0 < cfg_PollBufferSize cfg -> store_Get id w = Some l -> w_heap w !! l = Some s -> is_Some (s_rs s) -> poll_quiet env ->
  poll_arrived cfg q s log -> PollHandler cfg None id q env w = Some (w', a) ->
  served_at log (poll_msgs a) (handler_volume env) l s w'.
Proof.
  intros Hb Hget Hl Hrs Hq Har E; rewrite PollHandler_eq in E; cbv zeta in E; rewrite Hget, Hl in E.
  destruct (beginPoll (se_now env) s) as [s1 ok] eqn:Eb; destruct ok.
  - cbn [w_heap set_heap] in E; rewrite lookup_insert_eq in E.
    set (s2 := touch (se_now env) s1) in *; set (w2 := set_heap (<[l := s2]> (w_heap w)) w) in *.
    destruct (poll_serve cfg q env l s2 w2) as [[w3 a3]|] eqn:Es; [|discriminate]; injection E as <- <-.
    assert (Hsame : s_rs s2 = s_rs s /\ s_pollMode s2 = s_pollMode s)
      by (unfold beginPoll in Eb; case_if_in Eb; injection Eb as <-; split; reflexivity).
    destruct Hsame as [Hr2 Hp2].
    destruct (poll_serve_serving log cfg q env l s2 w2 w3 a3 Hb ltac:(rewrite Hr2; exact Hrs) (lookup_insert_eq _ _ _) Hq)
      as (s3 & Hl3 & Hs3); [unfold poll_arrived, stream_poll in *; rewrite Hp2; exact Har|exact Es|].
    exists (endPoll (se_end env) s3); split; [cbn; rewrite lookup_alter_eq, Hl3; reflexivity|].
    apply (serving_then log (SvBegin (se_now env)) _ _ s s1); [reflexivity|cbn; rewrite Eb; reflexivity|].
    apply (serving_then log (SvTouch (se_now env)) _ _ s1 s2); [reflexivity..|].
    eapply (serving_snoc log (SvEnd (se_end env))); [exact Hs3|reflexivity..].
  - injection E as <- <-; exists s; split; [exact Hl|apply serving_nil].
    unfold handler_volume; pose proof (events_volume_nonneg (concat (se_sched env))).
    pose proof (turns_volume_nonneg (se_turns env)); lia.
Qed.

(** ** WebSocketHandler *)

(** What a step of the pumps takes from the wire. *)
Definition pump_takes (step : pump_step) : list net_msg :=
  match step with
  | PumpRead true msg => match wsDecode msg with Ok f => frame_takes f | Fail _ => [] end
  | _ => []
  end.

Definition pump_quiet (step : pump_step) : Prop :=
  match step with PumpWrite _ _ sched => no_rival (concat sched) | _ => True end.

Section Pumps.
Context (log : list net_msg) (bufsize : Z) (Hb : 0 < bufsize) (att : attachment).

Lemma pump_serving step s c s' c' err :
  usable s -> pump_quiet step -> incl (pump_takes step) log -> pump bufsize att step s c = Some (s', c', err) ->
  exists ms, serving log ms (step_volume step) s s' /\ usable s'
    /\ forall f, In f (sink_sent c') -> In f (sink_sent c) \/ incl (frame_takes f) ms.
Proof.
  intros Hu Hq Hin E; pose proof (step_volume_nonneg step) as Hv; pose proof Hu as [[rs Hrs] _].
  assert (Es : sv_step (SvPump bufsize att step c) s = Some s') by (cbn [sv_step]; rewrite E; reflexivity).
  exists (sv_sends (SvPump bufsize att step c) s); split_and!.
  - apply serving_one; [exact Es|destruct step; cbn; auto|destruct step as [[]| |]; exact Hin|].
    destruct step; cbn in *; lia.
  - eapply sv_step_usable; eassumption.
  - intros f Hf; destruct step as [[] msg|err'|ctxDone a sched]; cbn [pump] in E;
      [repeat case_match; simplify_eq; auto..|].
    unfold wsWritePumpResumable_turn in E; cbn [sv_sends]; rewrite Hrs in E |- *; fold (pump_interrupted ctxDone a att) in E.
    match type of E with context [send_turn ?a ?b ?c ?d ?e ?f ?g ?h ?i] =>
      pose proof (send_turn_logs a b c d e f g h i) as Hl; destruct (send_turn a b c d e f g h i) as [[e1 c1] st] end.
    assert (Ec : c1 = c') by (destruct st; congruence); subst c1; cbn [fst snd] in Hl.
    destruct (Hl ltac:(intros typ [|]; discriminate) f Hf) as [Hi|[Hi|Hi]]; [auto|right..].
    + intros m Hm; apply frame_takes_incl in Hm as [<-|[]]; apply in_map, Hi.
    + rewrite Hi; intros ? [].
Qed.

Lemma pumps_serving steps : forall s c s' c' err,
  usable s -> Forall pump_quiet steps -> incl (flat_map pump_takes steps) log ->
  pumps bufsize att steps s c = Some (s', c', err) ->
  exists ms, serving log ms (steps_volume steps) s s' /\ usable s'
    /\ forall f, In f (sink_sent c') -> In f (sink_sent c) \/ incl (frame_takes f) ms.
Proof.
  induction steps as [|step steps IH]; cbn [pumps flat_map]; intros s c s' c' err Hu Hq Hin E.
  { injection E as <- <- _; exists []; split_and!; auto; apply serving_nil; cbn; lia. }
  inversion Hq as [|? ? Hq1 Hq2]; subst; apply incl_app_inv in Hin as [Hin1 Hin2].
  destruct (pump bufsize att step s c) as [[[s1 c1] err1]|] eqn:E1; [|discriminate].
  destruct (pump_serving step s c s1 c1 err1 Hu Hq1 Hin1 E1) as (ms & Hs & Hu1 & Hf).
  change (steps_volume (step :: steps)) with (step_volume step + steps_volume steps).
  pose proof (steps_volume_nonneg steps); destruct err1 as [err1|].
  - injection E as <- <- _; exists ms; split_and!; auto; eapply serving_weaken; [exact Hs|apply incl_refl|lia].
  - destruct (IH s1 c1 s' c' err Hu1 Hq2 Hin2 E) as (ms' & Hs' & Hu' & Hf'); exists (ms ++ ms').
    split_and!; [exact (serving_trans log _ _ _ _ _ _ _ Hs Hs')|exact Hu'|].
    intros f Hi; destruct (Hf' f Hi) as [Hi1|Hi1]; [destruct (Hf f Hi1) as [?|?]|]; auto using incl_appl, incl_appr.
Qed.
End Pumps.

Definition ws_steps (env : ws_env) : list pump_step :=
  we_steps env ++ match we_last env with Some step => [step] | None => [] end.

Definition ws_msgs_sent (a : ws_answer) : list net_msg :=
  match a with WsServed c _ => flat_map frame_takes (sink_sent c) | _ => [] end.

Lemma ws_pumps_serving log cfg env att s s' a :
  0 < cfg_PollBufferSize cfg -> usable s -> Forall pump_quiet (ws_steps env) ->
  incl (flat_map pump_takes (ws_steps env)) log -> ws_pumps cfg env att s = Some (s', a) ->
  serving log (ws_msgs_sent a) (ws_volume env) s s'.
Proof.
  intros Hb Hu Hq Hin E; unfold ws_pumps, ws_steps, ws_volume in *.
  apply Forall_app in Hq as [Hq1 Hq2]; rewrite flat_map_app in Hin; apply incl_app_inv in Hin as [Hin1 Hin2].
  destruct (pumps _ _ _ _ _) as [[[s1 c] first]|] eqn:Ep; [|discriminate].
  destruct (pumps_serving log _ Hb att _ _ _ _ _ _ Hu Hq1 Hin1 Ep) as (ms & Hs & Hu1 & Hf).
  assert (Hi : sv_step SvInterrupt s1 = Some (stop_pumps s1)) by reflexivity.
  pose proof (serving_snoc log SvInterrupt _ _ _ _ _ Hs eq_refl Hi) as Hs1.
  assert (Hans : incl (flat_map frame_takes (sink_sent c)) ms).
  { intros m Hm; apply in_flat_map in Hm as (f & Hinf & Hm); destruct (Hf f Hinf) as [[]|Hx]; apply Hx, Hm. }
  destruct (we_last env) as [step|].
  - destruct (pump _ _ step _ _) as [[[s2 c2] err2]|] eqn:E2; [|discriminate]; injection E as <- <-.
    cbn [flat_map] in Hin2; rewrite app_nil_r in Hin2; inversion Hq2; subst.
    destruct (pump_serving log _ Hb att step _ _ _ _ _ ltac:(eapply sv_step_usable; eassumption) ltac:(assumption) Hin2 E2)
      as (ms2 & Hs2 & _ & _).
    eapply serving_weaken; [exact (serving_trans log _ _ _ _ _ _ _ Hs1 Hs2)|cbn [ws_msgs_sent]; apply incl_appl, Hans|lia].
  - injection E as <- <-; eapply serving_weaken; [exact Hs1|exact Hans|lia].
Qed.

Lemma ws_request_serving log cfg env s s' a :
  0 < cfg_PollBufferSize cfg -> usable s -> Forall pump_quiet (ws_steps env) ->
  incl (flat_map pump_takes (ws_steps env)) log -> ws_request cfg env s = Some (s', a) ->
  serving log (ws_msgs_sent a) (ws_volume env) s s'.
Proof.
  intros Hb Hu Hq Hin E; pose proof Hu as [[rs Hrs] [att0 Hatt]]; pose proof (ws_volume_nonneg env) as Hv.
  unfold ws_request in E; rewrite Hrs, Hatt in E.
  destruct (we_attached env) as [att|]; [|injection E as <- <-; apply serving_nil, Hv].
  unfold ws_enter in E; destruct (beginWebSocket (we_now env) s) as [s1 []] eqn:Eb; [|injection E as <- <-; apply serving_nil, Hv].
  assert (Hstep : sv_step (SvBeginWs (we_now env)) s = Some s1) by (cbn; rewrite Eb; reflexivity).
  pose proof (sv_step_usable _ _ _ Hu Hstep) as Hu1; set (s2 := touch (we_now env) s1) in *.
  assert (Hu2 : usable s2) by exact Hu1; pose proof Hu2 as [[rs2 Hrs2] _].
  destruct (ws_serve cfg env att s2) as [[s3 a3]|] eqn:Es; [|discriminate]; injection E as <- <-.
  apply (serving_then log (SvBeginWs (we_now env)) _ _ s s1 _ eq_refl Hstep), (serving_then log (SvTouch (we_now env)) _ _ s1 s2); [reflexivity..|].
  apply (serving_snoc log (SvEndWs (we_end env)) _ _ _ s3); [|reflexivity..].
  unfold ws_serve in Es; rewrite Hrs2 in Es.
  destruct (we_accepted env); cbn [negb] in Es; [|injection Es as <- <-; apply serving_nil, Hv].
  destruct (we_current env); cbn [negb] in Es; [|injection Es as <- <-; apply serving_nil, Hv].
  apply (serving_then log SvOpen _ _ s2 (set_rs (Some (resetAck rs2)) s2)); [reflexivity|cbn [sv_step]; rewrite Hrs2; reflexivity|].
  eapply ws_pumps_serving; eauto; split; [eexists; reflexivity|apply Hu2].
Qed.

(** ** Requests *)

Inductive request : Type :=
| RqPoll (q : poll_request) (env : serve_env)
| RqWebSocket (env : ws_env)
| RqDelete (now : Z).

Inductive handler_reply : Type :=
| RpPoll (a : poll_answer)
| RpWebSocket (a : ws_answer)
| RpStatus (status : Z).

(** The handler the request is routed to. *)
Definition serve (cfg : ServerConfig) (id : string) (rq : request) (w : world) : option (world * handler_reply) :=
  match rq with
  | RqPoll q env => option_map (prod_map (fun w => w) RpPoll) (PollHandler cfg None id q env w)
  | RqWebSocket env => option_map (prod_map (fun w => w) RpWebSocket) (WebSocketHandler cfg id env w)
  | RqDelete now => Some (prod_map (fun w => w) RpStatus (DeleteHandler id now w))
  end.

Definition arrived (cfg : ServerConfig) (rq : request) (s : session) (log : list net_msg) : Prop :=
  match rq with
  | RqPoll q _ => poll_arrived cfg q s log
  | RqWebSocket env => incl (flat_map pump_takes (ws_steps env)) log
  | RqDelete _ => True
  end.

Definition quiet (rq : request) : Prop :=
  match rq with
  | RqPoll _ env => poll_quiet env
  | RqWebSocket env => Forall pump_quiet (ws_steps env)
  | RqDelete _ => True
  end.

Definition request_volume (rq : request) : Z :=
  match rq with RqPoll q env => poll_volume q env | RqWebSocket env => ws_volume env | RqDelete _ => 0 end.

Definition reply_msgs (a : handler_reply) : list net_msg :=
  match a with RpPoll a => poll_msgs a | RpWebSocket a => ws_msgs_sent a | RpStatus _ => [] end.

Section Requests.
Context (cfg : ServerConfig) (id : string) (rq : request) (w : world) (l : loc) (s : session).
Context (Hb : 0 < cfg_PollBufferSize cfg) (Hget : store_Get id w = Some l) (Hl : w_heap w !! l = Some s).

(** Serving is a run of the machine. *)
Lemma serve_serving log w' a : usable s -> quiet rq -> arrived cfg rq s log -> serve cfg id rq w = Some (w', a) ->
  served_at log (reply_msgs a) (request_volume rq) l s w'.
Proof.
  intros Hu Hq Har E; destruct rq as [q env|env|now]; cbn [serve quiet arrived request_volume] in *.
  - destruct (PollHandler cfg None id q env w) as [[w1 a1]|] eqn:E1; [|discriminate]; injection E as <- <-.
    eapply served_more_at; [eapply PollHandler_serving; eauto; apply Hu|].
    unfold handler_volume, poll_volume; pose proof (len_nonneg (r_bytes (pq_body q))); lia.
  - destruct (WebSocketHandler cfg id env w) as [[w1 a1]|] eqn:E1; [|discriminate]; injection E as <- <-.
    unfold WebSocketHandler in E1; rewrite Hget, Hl in E1; case_if_in E1.
    + injection E1 as <- <-; exists s; split; [exact Hl|apply serving_nil, ws_volume_nonneg].
    + destruct (ws_request cfg env s) as [[s1 a2]|] eqn:E2; [|discriminate]; injection E1 as <- <-.
      exists s1; split; [apply lookup_insert_eq|eapply ws_request_serving; eauto].
  - injection E as <- <-; unfold DeleteHandler; rewrite Hget; cbn [fst snd prod_map].
    eapply closeSession_serving; [exact Hl|apply serving_nil; lia].
Qed.

(** Serving returns. *)
Lemma serve_total V : typed V s -> V + request_volume rq < 2 ^ 63 -> 0 <= s_pollInFlight s < 2 ^ 31 - 1 ->
  exists w' a, serve cfg id rq w = Some (w', a).
Proof.
  intros Hs Hm Hp; destruct rq as [q env|env|now]; cbn [serve request_volume] in *.
  - destruct (s_closed s || resumeExpiredLocked (se_now env) s) eqn:Hopen.
    + rewrite PollHandler_eq; cbv zeta; unfold beginPoll; rewrite Hget, Hl, Hopen; do 2 eexists; reflexivity.
    + destruct (PollHandler_admitted cfg 0 None id q env w V l s Hget Hl Hopen Hb ltac:(lia) ltac:(discriminate) Hs
                  ltac:(lia) Hp) as (w' & a & s1 & E & _); rewrite E; do 2 eexists; reflexivity.
  - unfold WebSocketHandler; rewrite Hget, Hl; case_if; [do 2 eexists; reflexivity|].
    assert (Hr : exists s' a, ws_request cfg env s = Some (s', a)).
    { unfold ws_request; pose proof (proj1 Hs) as Ha.
      destruct (s_rs s) as [rs|]; [destruct (Ha ltac:(eauto)) as [att ->]; destruct (we_attached env); [|do 2 eexists; reflexivity]|];
        match goal with |- context [ws_enter cfg env ?att s] =>
          destruct (ws_enter_outcome cfg env w V l s att Hl Hb Hs Hm Hp) as (s1 & a1 & E1 & _) end; eauto. }
    destruct Hr as (s' & a & ->); do 2 eexists; reflexivity.
  - do 2 eexists; reflexivity.
Qed.
End Requests.

(** ** Runs of the machine are steps of the system *)

Lemma written_volume e blen sched : len (nextOut_written e blen sched) <= events_volume (concat sched).
Proof.
  unfold nextOut_written; case_if; [apply events_volume_nonneg|].
  etransitivity; [apply accepted_volume|]; unfold waited.
  set (n := (length sched - length _)%nat); rewrite <- (take_drop n sched) at 2.
  rewrite concat_app, events_volume_app; pose proof (events_volume_nonneg (concat (drop n sched))); lia.
Qed.

Lemma sv_wrote_volume ev s : len (sv_wrote ev s) <= sv_volume ev.
Proof.
  destruct ev as [d|dst| | |now|now|now|now|now|a| | |bufsize att t b|bufsize att step c|maxSend body|send bufsize q env|b now
                 |recv free now]; cbn [sv_wrote sv_volume]; try (destruct (s_rs s); reflexivity).
  - destruct (Session_Write s d).2; len_lia.
  - destruct (s_rs s); [|apply events_volume_nonneg].
    destruct (tn_ctxDone t); [apply events_volume_nonneg|apply written_volume].
  - destruct step; destruct (s_rs s); try reflexivity; [apply written_volume|apply events_volume_nonneg].
  - destruct (s_rs s); [|apply events_volume_nonneg]; unfold batch_wrote.
    repeat case_match; try apply events_volume_nonneg; apply written_volume.
Qed.

Lemma events_total_nonneg evs : 0 <= events_total evs.
Proof.
  induction evs as [|ev evs IH]; [reflexivity|]; change (0 <= sv_volume ev + events_total evs).
  pose proof (sv_wrote_volume ev (newSession "" ∅ 0)); pose proof (len_nonneg (sv_wrote ev (newSession "" ∅ 0))); lia.
Qed.

Lemma sv_run_steps cf evs : forall y s' ms,
  sv_run evs (sy_server y) = Some (s', ms) -> Forall sv_ok evs -> incl (flat_map sv_takes evs) (sy_up y) ->
  len (sy_wrote y false) + events_total evs < 2 ^ 63 ->
  exists y', rtc (sy_step cf) y y' /\ sy_server y' = s' /\ sy_client y' = sy_client y /\ sy_up y' = sy_up y
    /\ sy_down y' = sy_down y ++ ms.
Proof.
  induction evs as [|ev evs IH]; cbn [sv_run flat_map]; intros y s' ms E Hok Hin Hv.
  { injection E as <- <-; exists y; rewrite app_nil_r; split_and!; auto using rtc_refl. }
  destruct (sv_step ev (sy_server y)) as [s1|] eqn:E1; [|discriminate].
  destruct (sv_run evs s1) as [[s2 ms2]|] eqn:E2; [|discriminate]; injection E as <- <-.
  inversion Hok; subst; apply incl_app_inv in Hin as [Hin1 Hin2].
  change (events_total (ev :: evs)) with (sv_volume ev + events_total evs) in Hv.
  pose proof (sv_wrote_volume ev (sy_server y)) as Hw.
  pose proof (events_total_nonneg evs) as Ht.
  pose proof (sy_server_step cf y ev s1 ltac:(assumption) ltac:(lia) Hin1 E1) as Hstep.
  match type of Hstep with sy_step _ _ ?y1 => destruct (IH y1 s2 ms2 E2) as (y' & Hr & K1 & K2 & K3 & K4) end; auto.
  { cbn [sy_wrote]; unfold put, upd; cbn; rewrite len_app; lia. }
  exists y'; split_and!; auto; [eapply rtc_l; eassumption|rewrite K4, app_assoc; reflexivity].
Qed.

Lemma refined_typed y s V : sy_refines y s -> sys_inv s -> usable (sy_server y) ->
  (forall b, len (sy_wrote y b) <= V) -> typed V (sy_server y).
Proof.
  intros Hr [Hs Hp _ _] [_ Ha] HV; split; [intros _; exact Ha|].
  destruct (sr_server _ _ Hr) as [Hrs He]; rewrite Hrs, He.
  pose proof (Hs false) as [Hrel Hout _ _]; pose proof (Hs true) as [_ Hout' _ _].
  exists (sd_sent (sides s false)), (sd_got (sides s false)); split; [exact Hrel|].
  pose proof (HV false) as H1; pose proof (HV true) as H2.
  rewrite <- (sr_wrote _ _ Hr) in H1; rewrite <- (sr_wrote _ _ Hr) in H2; rewrite <- Hout in H1; rewrite <- Hout' in H2.
  rewrite !len_app in H1; rewrite !len_app in H2; rewrite (sr_taken _ _ Hr) in H1.
  pose proof (prefix_length _ _ (Hp false)) as Hl; cbn [negb] in Hl; unfold len in *; cbn in *; split; lia.
Qed.

(** ** Property *)

Section Property.
Context (cfg : ServerConfig) (c : Connector) (preferResume forceBatchUpload : bool).
Context (id : string) (meta : meta_map) (now : Z) (dialed : bool) (cf : rconf) (c0 : rconn).
Let s0 : session := created cfg c preferResume forceBatchUpload id meta now.
Let cr : ConnectResponse := answered cfg c preferResume forceBatchUpload id meta now.
Context (Hcfg : cfg_ok cfg) (Hres : Resumable s0 = true) (Hcon : connectResumable c cr dialed = Ok (cf, c0)).

(** C4: whole requests are runs of the system.  In any reachable state, let a
    request of the client be routed to its handler (a poll of any kind, an
    upload, a batch, a WebSocket, a delete): the handler returns, and from its
    first lock section to its last it is a sequence of steps of the system, which
    takes no message that was not sent, leaves the session that the handler
    leaves in the store's heap, and has sent every frame, batch response or
    message with meaning that the client is answered with.  So what holds of
    every reachable state of the system holds between the requests of the
    program. *)
Theorem requests_run_in_system y rq w l :
  rtc (sy_step cf) (new_system cf c0 s0) y -> 0 < cfg_PollBufferSize cfg ->
  store_Get id w = Some l -> w_heap w !! l = Some (sy_server y) ->
  quiet rq -> arrived cfg rq (sy_server y) (sy_up y) ->
  (forall b, len (sy_wrote y b) + request_volume rq < 2 ^ 63) -> 0 <= s_pollInFlight (sy_server y) < 2 ^ 31 - 1 ->
  exists w' a y', serve cfg id rq w = Some (w', a)
    /\ rtc (sy_step cf) y y' /\ w_heap w' !! l = Some (sy_server y')
    /\ sy_client y' = sy_client y /\ incl (reply_msgs a) (sy_down y').
Proof.
  intros Hy Hb Hget Hl Hq Har Hv Hp.
  destruct (reachable_refines _ _ _ _ _ _ _ _ _ _ Hcfg Hres Hcon y Hy) as (_ & s & _ & _ & Hi & Hr).
  assert (Hu : usable (sy_server y)).
  { eapply (rtc_invariant (sy_step cf) (fun y => usable (sy_server y))); [|exact Hy|apply created_usable, Hres].
    intros; eapply step_usable; eassumption. }
  set (V := Z.max (len (sy_wrote y true)) (len (sy_wrote y false))).
  assert (HV : forall b, len (sy_wrote y b) <= V) by (intros []; unfold V; lia).
  destruct (serve_total cfg id rq w l _ Hb Hget Hl V (refined_typed y s V Hr Hi Hu HV)) as (w' & a & E);
    [pose proof (Hv true); pose proof (Hv false); unfold V; lia|exact Hp|].
  destruct (serve_serving cfg id rq w l _ Hb Hget Hl (sy_up y) w' a Hu Hq Har E) as (s' & Hl' & evs & ms & Er & Ho & Ht & Ha & Hn).
  destruct (sv_run_steps cf evs y s' ms Er Ho Ht) as (y' & Hrun & Hs' & Hc & _ & Hd); [pose proof (Hv false); lia|].
  exists w', a, y'; split_and!; auto; [rewrite Hs'; exact Hl'|].
  rewrite Hd; apply incl_appr, Ha.
Qed.
End Property.

(** ** Witness *)

(** The upload of the example of System.v, as one request. *)
Definition ex_request : request :=
  RqPoll (mk_preq true false false false [] [] ex_upload_body)
    (mk_env 5 7 true (Some 0%nat) false false [] [] []).
Definition ex_request_world : world := store_add 0%nat (sy_server (ex_reached (take 12 ex_labels))) new_world.

Lemma requests_run_in_system_witness :
  exists w' a y', serve ex_sys_cfg "s1" ex_request ex_request_world = Some (w', a)
    /\ rtc (sy_step ex_sys_conf) (ex_reached (take 12 ex_labels)) y' /\ w_heap w' !! 0%nat = Some (sy_server y').
Proof.
  destruct (requests_run_in_system ex_sys_cfg ex_sys_connector true false "s1" ∅ 0 true ex_sys_conf ex_rconn
              ex_sys_cfg_ok ltac:(vm_compute; reflexivity) ltac:(vm_compute; reflexivity)
              (ex_reached (take 12 ex_labels)) ex_request ex_request_world 0%nat)
    as (w' & a & y' & E & Hr & Hl & _ & _); [..|exists w', a, y'; auto].
  - apply ex_steps; vm_compute; eexists; reflexivity.
  - vm_compute; reflexivity.
  - vm_compute; reflexivity.
  - apply lookup_insert_eq.
  - split; [vm_compute; reflexivity|constructor].
  - apply sent_before_incl; vm_compute; reflexivity.
  - intros []; vm_compute; reflexivity.
  - vm_compute; split; [discriminate|reflexivity].
Defined.
