(* ===== verification/Routes.v ===== *)
(** * Routes.v: where the client's requests arrive

    Models how the client builds its URLs (pathPrefix, and the base, poll,
    resume, delete and WebSocket URLs of src/client.go, src/resumable_client.go
    and src/websocket.go), how the server makes session ids (generateSessionID
    in src/handler.go) and how it reads them back (SessionIDFunc).  The routes
    are those the repository documents, mounted under the prefix the client is
    configured with; the router matches whole segments, as net/http's does. *)

From Stdlib Require Import String Ascii.
From S2P Require Import Prelude.
#[local] Open Scope string_scope.
#[local] Notation "a ^^ b" := (String.append a b) (at level 60, right associativity).

(** ** Strings *)

Definition slash : ascii := "/".

(** [strings.TrimLeft] and [TrimRight] of slashes. *)
Fixpoint trim_left (s : string) : string :=
  match s with String c s' => if Ascii.eqb c slash then trim_left s' else s | EmptyString => EmptyString end.
Fixpoint trim_right (s : string) : string :=
  match s with
  | EmptyString => EmptyString
  | String c s' =>
      match trim_right s' with
      | EmptyString => if Ascii.eqb c slash then EmptyString else String c EmptyString
      | r => String c r
      end
  end.
Definition trim (s : string) : string := trim_right (trim_left s).

Fixpoint all_chars (p : ascii -> bool) (s : string) : bool :=
  match s with EmptyString => true | String c s' => p c && all_chars p s' end.

(** The segments of a path: what is between its slashes. *)
Fixpoint split_path (s : string) : list string :=
  match s with
  | EmptyString => [EmptyString]
  | String c s' =>
      if Ascii.eqb c slash then EmptyString :: split_path s'
      else match split_path s' with
           | [] => [String c EmptyString]
           | seg :: segs => String c seg :: segs
           end
  end.

Definition join_path (segs : list string) : string := foldr (fun seg s => "/" ^^ seg ^^ s) "" segs.

(** ** The client *)

Definition pathPrefix (PathPrefix : string) : string :=
  if bool_decide (PathPrefix = "") then "/tunnel" else "/" ^^ trim PathPrefix.

Definition base_url (BaseURL PathPrefix : string) : string := trim_right BaseURL ^^ pathPrefix PathPrefix.

Definition connectURL (base : string) : string := base ^^ "/connect".
Definition pollURL (base id : string) : string := base ^^ "/" ^^ id ^^ "/poll".
Definition resumeURL (base id : string) : string := base ^^ "/" ^^ id ^^ "/resume".
Definition deleteURL (base id : string) : string := base ^^ "/" ^^ id.
Definition wsURL (base id : string) : string := base ^^ "/" ^^ id ^^ "/ws".

(** ** Session ids *)

Definition hex_digit (n : N) : ascii :=
  match n with
  | 0 => "0" | 1 => "1" | 2 => "2" | 3 => "3" | 4 => "4" | 5 => "5" | 6 => "6" | 7 => "7"
  | 8 => "8" | 9 => "9" | 10 => "a" | 11 => "b" | 12 => "c" | 13 => "d" | 14 => "e" | _ => "f"
  end%N%char.

(** [hex.EncodeToString] *)
Fixpoint hex (bs : list byte) : string :=
  match bs with
  | [] => ""
  | b :: bs => String (hex_digit (Byte.to_N b / 16)) (String (hex_digit (Byte.to_N b mod 16)) (hex bs))
  end.

(** [generateSessionID]; [random] is what rand.Read gave. *)
Definition generateSessionID (random : res (list byte)) : res string :=
  match random with Ok b => Ok (hex b) | Fail err => Fail err end.

(** ** The router *)

Inductive seg_pattern : Type := Lit (s : string) | IdSegment.

Inductive handler : Type := ToConnect | ToPoll | ToDelete | ToWebSocket | ToResume.

Record route := mk_route { rt_method : string; rt_pattern : list seg_pattern; rt_handler : handler }.

(** The documented routes under a prefix. *)
Definition routes (prefix : list string) : list route :=
  let under (tl : list seg_pattern) := (map Lit prefix ++ tl)%list in
  [ mk_route "POST" (under [Lit "connect"]) ToConnect;
    mk_route "POST" (under [IdSegment; Lit "poll"]) ToPoll;
    mk_route "DELETE" (under [IdSegment]) ToDelete;
    mk_route "GET" (under [IdSegment; Lit "ws"]) ToWebSocket;
    mk_route "POST" (under [IdSegment; Lit "resume"]) ToResume ].

(** PathValue("id") of a path that matches. *)
Fixpoint match_segments (pats : list seg_pattern) (segs : list string) : option string :=
  match pats, segs with
  | [], [] => Some ""
  | Lit l :: pats, seg :: segs => if bool_decide (l = seg) then match_segments pats segs else None
  | IdSegment :: pats, seg :: segs => match match_segments pats segs with Some _ => Some seg | None => None end
  | _, _ => None
  end.

(** A path the router would clean is redirected instead of served. *)
Definition clean_segment (seg : string) : bool :=
  negb (bool_decide (seg = "")) && negb (bool_decide (seg = ".")) && negb (bool_decide (seg = "..")).

(** Every handler the request could be routed to, with the id it would see. *)
Definition serve_mux (prefix : list string) (method path : string) : list (handler * string) :=
  match split_path path with
  | EmptyString :: segs =>
      if forallb clean_segment segs then
        omap (fun rt => if bool_decide (rt_method rt = method)
                        then option_map (pair (rt_handler rt)) (match_segments (rt_pattern rt) segs) else None)
             (routes prefix)
      else []
  | _ => []
  end.

(** The path of a URL on the server at [origin], up to its query. *)
Fixpoint cut_query (s : string) : string :=
  match s with
  | EmptyString => EmptyString
  | String c s' => if Ascii.eqb c "?" || Ascii.eqb c "#" then EmptyString else String c (cut_query s')
  end.
Fixpoint url_path (origin url : string) : option string :=
  match origin, url with
  | EmptyString, _ => Some (cut_query url)
  | String c o, String c' u => if Ascii.eqb c c' then url_path o u else None
  | String _ _, EmptyString => None
  end.

Definition routed (origin : string) (prefix : list string) (method url : string) : list (handler * string) :=
  match url_path origin url with Some path => serve_mux prefix method path | None => [] end.

(** ** Lemmas *)

Lemma append_cons c a b : String c a ^^ b = String c (a ^^ b).
Proof. reflexivity. Qed.

Lemma append_assoc a b c : (a ^^ b) ^^ c = a ^^ b ^^ c.
Proof. induction a as [|x a IH]; [reflexivity|rewrite !append_cons, IH; reflexivity]. Qed.

Lemma append_nil a : a ^^ "" = a.
Proof. induction a as [|x a IH]; [reflexivity|rewrite append_cons, IH; reflexivity]. Qed.

Lemma all_chars_app p a b : all_chars p (a ^^ b) = all_chars p a && all_chars p b.
Proof. induction a as [|x a IH]; [reflexivity|]; rewrite append_cons; cbn [all_chars]; rewrite IH, andb_assoc; reflexivity. Qed.

Lemma all_chars_impl (p q : ascii -> bool) s : (forall c, p c = true -> q c = true) -> all_chars p s = true -> all_chars q s = true.
Proof.
  intros Hpq; induction s as [|c s IH]; cbn; [auto|]; rewrite !andb_true_iff; intros [H1 H2]; auto.
Qed.

(** Trailing slashes do not matter. *)
Lemma trim_right_slashes s : all_chars (fun c => Ascii.eqb c slash) s = true -> trim_right s = "".
Proof.
  induction s as [|c s IH]; cbn; [reflexivity|]; rewrite andb_true_iff; intros [Hc Hs]; rewrite (IH Hs), Hc; reflexivity.
Qed.

Lemma trim_right_app a s : all_chars (fun c => Ascii.eqb c slash) s = true -> trim_right (a ^^ s) = trim_right a.
Proof. intros Hs; induction a as [|c a IH]; [apply trim_right_slashes, Hs|]; rewrite append_cons; cbn [trim_right]; rewrite IH; reflexivity. Qed.

(** Splitting and joining. *)
Definition no_slash (c : ascii) : bool := negb (Ascii.eqb c slash).

Lemma split_nonempty s : split_path s <> [].
Proof. destruct s as [|c s]; cbn; [discriminate|]; destruct (Ascii.eqb c slash), (split_path s); discriminate. Qed.

Lemma join_split s : join_path (split_path s) = "/" ^^ s.
Proof.
  induction s as [|c s IH]; [reflexivity|]; cbn [split_path]; destruct (Ascii.eqb_spec c slash) as [->|].
  - cbn [join_path foldr] in *; unfold join_path in IH; rewrite IH; reflexivity.
  - pose proof (split_nonempty s); destruct (split_path s) as [|seg segs]; [congruence|].
    change (String slash (seg ^^ join_path segs) = String slash s) in IH; injection IH as IH.
    change (join_path (String c seg :: segs)) with ("/" ^^ String c (seg ^^ join_path segs)); rewrite IH; reflexivity.
Qed.

Lemma split_app a s : all_chars no_slash a = true ->
  split_path (a ^^ s) = match split_path s with seg :: segs => (a ^^ seg) :: segs | [] => [a] end.
Proof.
  induction a as [|c a IH]; rewrite ?append_cons; cbn [all_chars]; intros Ha.
  - change ("" ^^ s) with s; pose proof (split_nonempty s); destruct (split_path s); [congruence|reflexivity].
  - apply andb_true_iff in Ha as [Hc Ha]; unfold no_slash in Hc; apply negb_true_iff in Hc.
    cbn [split_path]; rewrite Hc, (IH Ha); pose proof (split_nonempty s); destruct (split_path s); [congruence|reflexivity].
Qed.

Lemma split_join segs : Forall (fun seg => all_chars no_slash seg = true) segs ->
  split_path (join_path segs) = "" :: segs.
Proof.
  induction 1 as [|seg segs Hs _ IH]; [reflexivity|].
  change (join_path (seg :: segs)) with (String slash (seg ^^ join_path segs)); cbn [split_path].
  rewrite Ascii.eqb_refl, (split_app seg _ Hs), IH, append_nil; reflexivity.
Qed.

Lemma join_app segs segs' : join_path (segs ++ segs') = join_path segs ^^ join_path segs'.
Proof.
  induction segs as [|seg segs IH]; [reflexivity|].
  change (join_path ((seg :: segs) ++ segs')) with ("/" ^^ seg ^^ join_path (segs ++ segs')).
  change (join_path (seg :: segs)) with ("/" ^^ seg ^^ join_path segs).
  rewrite IH, !append_assoc; reflexivity.
Qed.

(** A segment that needs no escaping and that the router keeps. *)
Definition plain_char (c : ascii) : bool :=
  no_slash c && negb (Ascii.eqb c "?") && negb (Ascii.eqb c "#") && negb (Ascii.eqb c "%").
Definition plain_segment (seg : string) : bool := all_chars plain_char seg && clean_segment seg.

Lemma plain_parts seg : plain_segment seg = true ->
  all_chars no_slash seg = true /\ all_chars (fun c => negb (Ascii.eqb c "?" || Ascii.eqb c "#")) seg = true
  /\ clean_segment seg = true.
Proof.
  unfold plain_segment; rewrite andb_true_iff; intros [Hp Hc]; split_and!; auto;
    (eapply all_chars_impl; [|exact Hp]); intros c; unfold plain_char; rewrite ?negb_orb, !andb_true_iff; tauto.
Qed.

Lemma cut_query_id s : all_chars (fun c => negb (Ascii.eqb c "?" || Ascii.eqb c "#")) s = true -> cut_query s = s.
Proof.
  induction s as [|c s IH]; cbn; [reflexivity|]; rewrite andb_true_iff; intros [Hc Hs].
  apply negb_true_iff in Hc; rewrite Hc, (IH Hs); reflexivity.
Qed.

Lemma join_no_query segs : Forall (fun seg => plain_segment seg = true) segs ->
  all_chars (fun c => negb (Ascii.eqb c "?" || Ascii.eqb c "#")) (join_path segs) = true.
Proof.
  induction 1 as [|seg segs Hs _ IH]; [reflexivity|]; destruct (plain_parts _ Hs) as (_ & Hq & _).
  change (join_path (seg :: segs)) with (String slash (seg ^^ join_path segs)); cbn [all_chars].
  rewrite all_chars_app, Hq, IH; reflexivity.
Qed.

Lemma url_path_app origin s : url_path origin (origin ^^ s) = Some (cut_query s).
Proof. induction origin as [|c o IH]; [reflexivity|]; rewrite append_cons; cbn; rewrite Ascii.eqb_refl; exact IH. Qed.

(** A URL with plain segments is matched segment by segment. *)
Lemma routed_segments origin prefix method segs : Forall (fun seg => plain_segment seg = true) segs ->
  routed origin prefix method (origin ^^ join_path segs)
  = omap (fun rt => if bool_decide (rt_method rt = method)
                    then option_map (pair (rt_handler rt)) (match_segments (rt_pattern rt) segs) else None) (routes prefix).
Proof.
  intros Hs; unfold routed; rewrite url_path_app, (cut_query_id _ (join_no_query _ Hs)).
  unfold serve_mux; rewrite split_join.
  - replace (forallb clean_segment segs) with true; [reflexivity|]; symmetry; apply forallb_forall.
    intros seg Hin; rewrite Forall_forall in Hs; apply plain_parts, Hs, list_elem_of_In, Hin.
  - eapply Forall_impl; [exact Hs|]; intros seg H; apply plain_parts, H.
Qed.

Lemma match_prefix prefix pats segs : match_segments (map Lit prefix ++ pats) (prefix ++ segs) = match_segments pats segs.
Proof. induction prefix as [|p prefix IH]; cbn; [reflexivity|rewrite bool_decide_true by reflexivity; exact IH]. Qed.

(** *** Ids *)

Definition hex_value (c : ascii) : option N :=
  let n := N_of_ascii c in
  if (48 <=? n)%N && (n <=? 57)%N then Some (n - 48)%N
  else if (97 <=? n)%N && (n <=? 102)%N then Some (n - 87)%N else None.

Fixpoint unhex (s : string) : option (list byte) :=
  match s with
  | EmptyString => Some []
  | String c1 (String c2 s) =>
      match hex_value c1, hex_value c2 with
      | Some h, Some l =>
          match Byte.of_N (h * 16 + l), unhex s with Some b, Some bs => Some (b :: bs) | _, _ => None end
      | _, _ => None
      end
  | _ => None
  end.

Lemma hex_round bs : unhex (hex bs) = Some bs.
Proof.
  induction bs as [|b bs IH]; [reflexivity|]; cbn [hex unhex]; rewrite IH; destruct b; reflexivity.
Qed.

Lemma hex_length bs : String.length (hex bs) = (2 * List.length bs)%nat.
Proof. induction bs as [|b bs IH]; cbn; [reflexivity|rewrite IH; lia]. Qed.

Lemma hex_plain_char b : plain_char (hex_digit (Byte.to_N b / 16)) && plain_char (hex_digit (Byte.to_N b mod 16)) = true.
Proof. destruct b; reflexivity. Qed.

Lemma hex_plain bs : bs <> [] -> plain_segment (hex bs) = true.
Proof.
  intros Hb; unfold plain_segment, clean_segment.
  assert (Hc : all_chars plain_char (hex bs) = true).
  { clear Hb; induction bs as [|b bs IH]; [reflexivity|]; cbn [hex all_chars]; rewrite IH, andb_true_r; apply hex_plain_char. }
  rewrite Hc; destruct bs as [|b bs]; [congruence|]; destruct b; reflexivity.
Qed.

(** ** Properties *)

(** The segments the server has to mount the routes under. *)
Definition prefix_segments (PathPrefix : string) : list string :=
  if bool_decide (PathPrefix = "") then ["tunnel"] else split_path (trim PathPrefix).

Section Client.
Context (origin slashes PathPrefix : string).
Context (Horigin : trim_right origin = origin) (Hslashes : all_chars (fun c => Ascii.eqb c slash) slashes = true).

Lemma base_url_segments : base_url (origin ^^ slashes) PathPrefix = origin ^^ join_path (prefix_segments PathPrefix).
Proof.
  unfold base_url, pathPrefix, prefix_segments; rewrite (trim_right_app _ _ Hslashes), Horigin.
  case_bool_decide; [reflexivity|]; rewrite join_split; reflexivity.
Qed.

(** The path of a URL under the base. *)
Lemma under_base tl : base_url (origin ^^ slashes) PathPrefix ^^ join_path tl
  = origin ^^ join_path (prefix_segments PathPrefix ++ tl).
Proof. rewrite base_url_segments, join_app, append_assoc; reflexivity. Qed.

(** C33: the client's URLs find their handlers.  Take any base URL, with or
    without trailing slashes, any path prefix of plain segments, with or without
    slashes around it or defaulted, and any id generateSessionID can make.  The
    URL the client builds for each of its requests matches exactly one of the
    documented routes, that of the handler meant for it, and the id this handler
    reads from the path is the id the session was given; the id has 32
    characters and determines the 16 random bytes, so that it is as unguessable
    and as unique as they are. *)
Theorem client_urls_reach_handlers b :
  forallb plain_segment (prefix_segments PathPrefix) = true -> List.length b = 16%nat ->
  exists id, generateSessionID (Ok b) = Ok id /\ String.length id = 32%nat /\ unhex id = Some b
    /\ let base := base_url (origin ^^ slashes) PathPrefix in
       let mux := routed origin (prefix_segments PathPrefix) in
       mux "POST" (connectURL base) = [(ToConnect, "")]
       /\ mux "POST" (pollURL base id) = [(ToPoll, id)]
       /\ mux "POST" (resumeURL base id) = [(ToResume, id)]
       /\ mux "DELETE" (deleteURL base id) = [(ToDelete, id)]
       /\ mux "GET" (wsURL base id) = [(ToWebSocket, id)].
Proof.
  intros Hp Hb; exists (hex b); split; [reflexivity|]; split; [rewrite hex_length, Hb; reflexivity|].
  split; [apply hex_round|]; cbn zeta.
  assert (Hid : plain_segment (hex b) = true) by (apply hex_plain; intros ->; discriminate).
  assert (Hpre : Forall (fun seg => plain_segment seg = true) (prefix_segments PathPrefix)).
  { apply Forall_forall; intros seg Hin; apply list_elem_of_In in Hin; revert seg Hin; apply forallb_forall, Hp. }
  assert (Hr : forall method tl, Forall (fun seg => plain_segment seg = true) tl ->
    routed origin (prefix_segments PathPrefix) method (base_url (origin ^^ slashes) PathPrefix ^^ join_path tl)
    = omap (fun rt => if bool_decide (rt_method rt = method)
                      then option_map (pair (rt_handler rt)) (match_segments (rt_pattern rt) (prefix_segments PathPrefix ++ tl))
                      else None) (routes (prefix_segments PathPrefix))).
  { intros method tl Htl; rewrite under_base; apply routed_segments, Forall_app; auto. }
  assert (Htl : forall lits, Forall (fun seg => plain_segment seg = true) lits ->
    Forall (fun seg => plain_segment seg = true) (hex b :: lits)) by (intros; constructor; auto).
  unfold connectURL, pollURL, resumeURL, deleteURL, wsURL.
  change "/connect" with (join_path ["connect"]); change ("/" ^^ hex b ^^ "/poll") with (join_path [hex b; "poll"]).
  change ("/" ^^ hex b ^^ "/resume") with (join_path [hex b; "resume"]).
  change ("/" ^^ hex b ^^ "/ws") with (join_path [hex b; "ws"]).
  replace ("/" ^^ hex b) with (join_path [hex b])
    by (change (join_path [hex b]) with ("/" ^^ hex b ^^ ""); rewrite append_nil; reflexivity).
  rewrite !Hr by (repeat constructor; exact Hid); unfold routes; cbn -[match_segments]; rewrite !match_prefix; cbn.
  destruct (bool_decide ("connect" = hex b)); split_and!; reflexivity.
Qed.

(** A prefix of slashes only, which looks like the root, leaves an empty segment
    in every URL, and such a path is redirected and never served. *)
Lemma root_prefix_reaches_nothing prefix method tl :
  PathPrefix <> "" -> trim PathPrefix = "" ->
  routed origin prefix method (base_url (origin ^^ slashes) PathPrefix ^^ join_path tl) = [].
Proof.
  intros Hne Ht; rewrite under_base; unfold prefix_segments; rewrite bool_decide_false by exact Hne; rewrite Ht.
  unfold routed; rewrite url_path_app; cbn [split_path app].
  destruct tl as [|seg tl]; [reflexivity|].
  change (join_path ("" :: seg :: tl)) with (String slash (String slash (seg ^^ join_path tl))).
  reflexivity.
Qed.
End Client.

Lemma client_urls_reach_handlers_witness :
  exists id, generateSessionID (Ok (repeat Byte.xa7 16)) = Ok id
    /\ routed "https://example.org" ["api"; "mux"] "POST" ("https://example.org/api/mux/" ^^ id ^^ "/poll") = [(ToPoll, id)].
Proof.
  destruct (client_urls_reach_handlers "https://example.org" "//" "/api/mux/" eq_refl eq_refl (repeat Byte.xa7 16) eq_refl eq_refl)
    as (id & E & _ & _ & _ & Hp & _).
  exists id; split; [exact E|]; injection E as <-; exact Hp.
Defined.
