(* ===== verification/Dial.v ===== *)
(** * Dial.v: Connector.connect against the server

    Connect.v has the client's connect over any server; here the server is the
    world of Session.v, with its own ConnectHandler, PollHandler (for the upload
    probe) and DeleteHandler (deleteSession), and what connect returns is the
    connection it assembles (connectResumable of Legs.v, connectWebSocket of
    Loops.v, httpConn of HttpConn.v) or its error.  What is left open is what
    the network does to the probe, to the DELETE and to the WebSocket dial, the
    application's authentication, the clock, and the ids. *)

From S2P Require Import Prelude Frame Pipe Protocol Reliable Channel Attach Session.
From S2P Require Import Connect Resume Batch Reconnect Stream Plain Poll HttpConn Legs Loops Wire Server System Handlers.

(** ** The server as the client finds it *)

(** The probe's request: the filler that arrived, however much of it. *)
Definition probe_request (body : reader) : poll_request := mk_preq true true false false [] [] body.

Definition poll_status (a : poll_answer) : Z :=
  match a with
  | PollError status | PollHeader status => status
  | PollBatched r => br_status r
  | PollData _ | PollStreamed _ _ => StatusOK
  | PollSilent => 0
  end.

(** ** What Connect returns *)

Inductive client_conn : Type :=
| ResumableConn (cf : rconf) (rc : rconn)
| WebSocketConn (cn : conn_state) (maxFrame readLimit : Z)
| HTTPConn (hc : httpConn) (streamMode uploadStreamMode : bool) (maxFrame : Z).

(** The end of connect: [dialed] is whether the WebSocket dial succeeds. *)
Definition assemble (c : Connector) (dialed : bool) (plan : transport_plan) : res client_conn :=
  let resumable cr :=
    match connectResumable c cr dialed with
    | Ok (cf, rc) => Ok (ResumableConn cf rc)
    | Fail e => Fail e
    end in
  match plan with
  | PlanWebSocket cr true | PlanResumable cr => resumable cr
  | PlanWebSocket cr false =>
      match connectWebSocket cr dialed with
      | Ok (cn, maxFrame, readLimit) => Ok (WebSocketConn cn maxFrame readLimit)
      | Fail e => Fail e
      end
  | PlanHTTP cr stream upload chunk =>
      Ok (HTTPConn (mk_http (new_conn (cres_SessionID cr) upload) false [] false chunk) stream upload
            (streamMaxFrame (cres_Limits cr)))
  end.

Section Dial.
Context (cfg : ServerConfig) (auth : ConnectRequest -> auth_result).
Context (ids : nat -> string) (l0 : loc) (clock : nat -> Z).
(** The probe: what arrives of it, how it is served, whether the answer is in
    time; whether a DELETE, which is sent once and not waited for, arrives; and
    whether the WebSocket dial succeeds. *)
Context (body : reader) (env : serve_env) (in_time arrives dialed : bool).

(** Where the [n]th session is allocated. *)
Definition nth_loc (n : nat) : loc := (l0 + n)%nat.

Definition dial_hooks : Hooks := mk_Hooks (Some auth) None.

(** The server's world, and how many sessions were asked for. *)
Definition dial_state : Type := world * nat.

Definition exchange (x : dial_state) (req : ConnectRequest) : dial_state * reply :=
  let '(w, n) := x in
  let '(w, a) := ConnectHandler cfg dial_hooks (BodyJSON req) (Some (ids n)) (nth_loc n) (clock n) w in
  ((w, S n), match a with Answer cr => ReplyOK cr | AnswerError status => ReplyStatus status end).

Definition probeUploadStream (x : dial_state) (id : string) : dial_state * bool :=
  let '(w, n) := x in
  match PollHandler cfg None id (probe_request body) env w with
  | None => ((w, n), false)
  | Some (w, a) => ((w, n), probe_result (if in_time then inr (poll_status a) else inl (ErrNet false)))
  end.

Definition deleteSession (x : dial_state) (id : string) : dial_state :=
  let '(w, n) := x in (if arrives then (DeleteHandler id (clock n) w).1 else w, n).

Definition dial (c : Connector) (preferResume : bool) (w : world) : option (dial_state * res client_conn) :=
  match connect exchange probeUploadStream deleteSession 2 c preferResume false (w, 0%nat) with
  | None => None
  | Some (x, Fail e) => Some (x, Fail e)
  | Some (x, Ok plan) => Some (x, assemble c dialed plan)
  end.

(** ** What the exchanges do to the world *)

Definition put_at (l : loc) (s : session) (w : world) : world := set_heap (<[l := s]> (w_heap w)) w.

(** Time moves on, the rest of the session stays. *)
Definition lived (s s' : session) : Prop :=
  exists ws active detached, s' = set_life ws (s_pollInFlight s) active (s_closed s) detached s.

Lemma lived_refl s : lived s s.
Proof. destruct s; do 3 eexists; reflexivity. Qed.

Lemma lived_poll s s1 now now' : s_pollInFlight s = 0 -> beginPoll now s = (s1, true) ->
  lived s (endPoll now' (touch now s1)).
Proof.
  intros Hp; unfold beginPoll, endPoll, noteDetachedLocked, touch, lived; case_if; [discriminate|].
  intros E; injection E as <-; cbn; rewrite Hp; repeat case_match; do 3 eexists; reflexivity.
Qed.

(** The upload probe leaves no trace but the time of the request. *)
Lemma probe_world id w w' a l s :
  store_Get id w = Some l -> w_heap w !! l = Some s -> s_pollInFlight s = 0 ->
  PollHandler cfg None id (probe_request body) env w = Some (w', a) ->
  exists s', w' = put_at l s' w /\ lived s s'.
Proof.
  intros Hget Hl Hp E; rewrite PollHandler_eq in E; cbv zeta in E; rewrite Hget, Hl in E.
  assert (Hsame : w = put_at l s w) by (unfold put_at; rewrite insert_id by exact Hl; destruct w; reflexivity).
  destruct (beginPoll (se_now env) s) as [s1 []] eqn:Eb; [|injection E as <- _; eauto using lived_refl].
  cbn [w_heap set_heap] in E; rewrite lookup_insert_eq in E; set (s2 := touch (se_now env) s1) in *.
  exists (endPoll (se_end env) s2); split; [|eapply lived_poll; eauto].
  assert (Hserve : forall w2 a2, poll_serve cfg (probe_request body) env l s2 (put_at l s2 w) = Some (w2, a2) -> w2 = put_at l s2 w).
  { intros w2 a2; unfold poll_serve; cbn [pq_SendStream probe_request].
    destruct (match s_rs s2 with Some _ => _ | None => _ end); [intros [= <- _]; reflexivity|].
    unfold at_session, put_at; cbn [w_heap set_heap]; rewrite lookup_insert_eq; unfold serve_upload, pollSendStream.
    cbn [pq_SendStreamProbe pq_body probe_request]; intros E2.
    destruct (pollSendStream_loop _ _ true body s2) as [[s3 st]|] eqn:E3; [apply probe_loop_same in E3; subst s3|];
      repeat case_match; simplify_eq; cbn; rewrite ?insert_insert_eq; reflexivity. }
  fold (put_at l s2 w) in E; destruct (poll_serve cfg (probe_request body) env l s2 (put_at l s2 w)) as [[w2 a2]|];
    [|discriminate]; rewrite (Hserve w2 a2 eq_refl) in E; injection E as <- _.
  unfold on_session, put_at; cbn; rewrite (alter_is_insert _ l _ s2) by apply lookup_insert_eq.
  rewrite insert_insert_eq; reflexivity.
Qed.

(** ** One call of connect *)

Section Calls.
Context (c : Connector) (Hids : forall n, ids n <> "").

(** The session the [n]th exchange creates, and the answer. *)
Definition granted_meta (req : ConnectRequest) : meta_map :=
  match auth req with AuthOk meta => meta | AuthErr _ => ∅ end.
Definition dialed_session (n : nat) (preferResume forceBatchUpload : bool) : session :=
  let req := connect_request c preferResume forceBatchUpload in
  connect_session cfg req (ids n) (granted_meta req ∪ creq_Meta req) (clock n).
Definition dialed_response (n : nat) (preferResume forceBatchUpload : bool) : ConnectResponse :=
  connect_response cfg (connect_request c preferResume forceBatchUpload) (dialed_session n preferResume forceBatchUpload).

(** The client's own timing fits the limits of the server. *)
Definition interval_fits : Prop := forall n pr fb, let lim := cres_Limits (dialed_response n pr fb) in
  i64 (Limits_PollTimeout lim + c_PollInterval c) < Limits_SessionTimeout lim
  /\ (Resumable (dialed_session n pr fb) = true -> c_PollInterval c < Limits_ResumeGrace lim).

(** The fields connect itself checks. *)
Definition connector_ok : Prop :=
  c_BaseURL c <> ""
  /\ (c_UploadStreamPreference c = "" \/ c_UploadStreamPreference c = PollModeBatch
      \/ c_UploadStreamPreference c = PollModeStream).

Lemma exchange_granted w n pr fb meta : auth (connect_request c pr fb) = AuthOk meta ->
  exchange (w, n) (connect_request c pr fb)
  = ((store_add (nth_loc n) (dialed_session n pr fb) w, S n), ReplyOK (dialed_response n pr fb)).
Proof.
  intros E; unfold exchange, ConnectHandler, dialed_response, dialed_session, granted_meta, authenticate.
  cbn [h_Authenticate h_OnConnect dial_hooks creq_ProtocolVersion connect_request]; rewrite E; reflexivity.
Qed.

Lemma exchange_denied w n pr fb status : auth (connect_request c pr fb) = AuthErr status ->
  exists st, exchange (w, n) (connect_request c pr fb) = ((w, S n), ReplyStatus st).
Proof.
  intros E; unfold exchange, ConnectHandler, authenticate.
  cbn [h_Authenticate h_OnConnect dial_hooks creq_ProtocolVersion connect_request]; rewrite E; eexists; reflexivity.
Qed.

Lemma dialed_fields n pr fb : let s := dialed_session n pr fb in
  s_ID s = ids n /\ s_closed s = false /\ s_pollInFlight s = 0
  /\ (s_uploadStream s = true -> fb = false).
Proof.
  cbn zeta; destruct (connect_session_fields cfg (connect_request c pr fb) (ids n)
    (granted_meta (connect_request c pr fb) ∪ creq_Meta (connect_request c pr fb)) (clock n))
    as (Hid & _ & _ & Hu & _ & _ & Hc & Hp & _).
  unfold dialed_session; split_and!; auto; rewrite Hu, bool_decide_eq_true, negotiated_stream; cbn.
  destruct fb; cbn; [intros [_ ?]; discriminate|auto].
Qed.

Lemma dialed_checked n pr fb : doConnect_check (ReplyOK (dialed_response n pr fb)) = Ok (dialed_response n pr fb).
Proof.
  cbn [doConnect_check]; destruct (dialed_fields n pr fb) as (Hid & _).
  change (cres_SessionID (dialed_response n pr fb)) with (s_ID (dialed_session n pr fb)).
  rewrite Hid, bool_decide_false by apply Hids; reflexivity.
Qed.

(** The answer describes the session. *)
Definition describes (cr : ConnectResponse) (s : session) : Prop :=
  cres_SessionID cr = s_ID s /\ cres_Transport cr = s_transport s /\ cres_PollMode cr = s_pollMode s
  /\ bool_decide (cres_UploadStreamMode cr = PollModeStream) = s_uploadStream s
  /\ cres_Resumable cr = Resumable s.

Lemma dialed_describes n pr fb : describes (dialed_response n pr fb) (dialed_session n pr fb).
Proof. unfold describes; split_and!; try reflexivity; cbn; destruct (s_uploadStream _); reflexivity. Qed.

(** How the client uploads on a session without the byte layer: as the session
    says, if it was told to stream or if its probe passed. *)
Definition upload_choice (probed : bool) (s : session) : bool :=
  s_uploadStream s && (bool_decide (c_UploadStreamPreference c = PollModeStream)
                       || (bool_decide (c_UploadStreamPreference c = "") && probed)).

(** A plan, and a connection, that use the session as the server set it up. *)
Definition plan_fits (probed : bool) (plan : transport_plan) (s : session) : Prop :=
  match plan with
  | PlanWebSocket cr resumable =>
      describes cr s /\ s_transport s = TransportWebSocket /\ resumable = Resumable s
  | PlanResumable cr => describes cr s /\ s_transport s <> TransportWebSocket /\ Resumable s = true
  | PlanHTTP cr stream upload _ =>
      describes cr s /\ s_transport s <> TransportWebSocket /\ Resumable s = false
      /\ stream = bool_decide (s_pollMode s = PollModeStream) /\ upload = upload_choice probed s
  end.

Definition conn_fits (probed : bool) (conn : client_conn) (s : session) : Prop :=
  match conn with
  | ResumableConn cf rc =>
      Resumable s = true /\ rf_sessionID cf = s_ID s
      /\ rf_ws cf = bool_decide (s_transport s = TransportWebSocket)
      /\ rf_pollStream cf = bool_decide (s_pollMode s = PollModeStream)
      /\ rf_uploadStream cf = s_uploadStream s
      /\ isBroken (ep_rl (rc_ep rc)) = false /\ rc_failed rc = false
  | WebSocketConn cn _ _ =>
      Resumable s = false /\ s_transport s = TransportWebSocket /\ cn_sessionID cn = s_ID s
  | HTTPConn hc stream upload _ =>
      Resumable s = false /\ s_transport s <> TransportWebSocket /\ cn_sessionID (hc_conn hc) = s_ID s
      /\ stream = bool_decide (s_pollMode s = PollModeStream) /\ upload = upload_choice probed s
      /\ (is_Some (cn_writePipe (hc_conn hc)) <-> upload = true)
  end.

Lemma lived_fits probed plan s s' : lived s s' -> plan_fits probed plan s -> plan_fits probed plan s'.
Proof. intros (ws & active & detached & ->); destruct plan; exact id. Qed.

Lemma assemble_fits probed plan s : plan_fits probed plan s ->
  match assemble c dialed plan with Ok conn => conn_fits probed conn s | Fail _ => dialed = false end.
Proof.
  intros Hp; destruct plan as [cr []|cr|cr stream upload chunk]; cbn [plan_fits] in Hp.
  - destruct Hp as ((H1 & H2 & H3 & H4 & H5) & Hws & Hr); cbn [assemble]; unfold connectResumable.
    rewrite H2, (bool_decide_true _ Hws); destruct dialed; [|reflexivity].
    cbn [conn_fits rf_sessionID rf_ws rf_pollStream rf_uploadStream rc_ep rc_failed].
    rewrite H3, H4, (bool_decide_true _ Hws); split_and!; auto.
  - destruct Hp as ((H1 & _) & Hws & Hr); cbn [assemble]; unfold connectWebSocket.
    destruct dialed; [|reflexivity]; cbn; auto.
  - destruct Hp as ((H1 & H2 & H3 & H4 & H5) & Hws & Hr); cbn [assemble]; unfold connectResumable.
    rewrite H2, (bool_decide_false _ Hws).
    cbn [conn_fits rf_sessionID rf_ws rf_pollStream rf_uploadStream rc_ep rc_failed].
    rewrite H3, H4, (bool_decide_false _ Hws); split_and!; auto.
    destruct (bool_decide (s_pollMode s = PollModeStream)); reflexivity.
  - destruct Hp as ((H1 & _) & Hws & Hr & Hs & Hu).
    assert (Hwp : is_Some (cn_writePipe (new_conn (cres_SessionID cr) upload)) <-> upload = true)
      by (destruct upload; cbn; split; eauto; [intros [? ?]; discriminate|discriminate]).
    cbn [assemble conn_fits hc_conn]; auto 10.
Qed.

(** The [n]th session is in the store, open and idle. *)
Definition held (n : nat) (pr fb : bool) (w w' : world) (s : session) : Prop :=
  sessions w' = <[ids n := nth_loc n]> (sessions w) /\ w_heap w' !! nth_loc n = Some s
  /\ lived (dialed_session n pr fb) s /\ w_log w' = w_log w.

Lemma held_now n pr fb w :
  held n pr fb w (store_add (nth_loc n) (dialed_session n pr fb) w) (dialed_session n pr fb).
Proof.
  unfold held, store_add, sessions; cbn; rewrite lookup_insert_eq.
  destruct (dialed_fields n pr fb) as (Hid & _); rewrite Hid; split_and!; auto using lived_refl.
Qed.

Lemma held_put n pr fb w w' s s' : held n pr fb w w' s -> lived (dialed_session n pr fb) s' ->
  held n pr fb w (put_at (nth_loc n) s' w') s'.
Proof. intros (H1 & _ & _ & H4) Hl; split_and!; auto; apply lookup_insert_eq. Qed.

(** The answer of the probe that the [n]th session serves. *)
Definition probe_of (n : nat) (pr fb : bool) (w : world) : bool :=
  (probeUploadStream (store_add (nth_loc n) (dialed_session n pr fb) w, S n) (ids n)).2.

Lemma probe_created n pr fb w : let w1 := store_add (nth_loc n) (dialed_session n pr fb) w in
  exists s, probeUploadStream (w1, S n) (ids n) = ((put_at (nth_loc n) s w1, S n), probe_of n pr fb w)
    /\ lived (dialed_session n pr fb) s.
Proof.
  intros w1; destruct (held_now n pr fb w) as (Hs & Hl & _); fold w1 in Hs, Hl.
  assert (Hget : store_Get (ids n) w1 = Some (nth_loc n)) by (unfold store_Get; rewrite Hs; apply lookup_insert_eq).
  unfold probe_of; fold w1; unfold probeUploadStream.
  destruct (PollHandler cfg None (ids n) (probe_request body) env w1) as [[w2 a]|] eqn:E.
  - destruct (probe_world _ _ _ _ _ _ Hget Hl (proj1 (proj2 (proj2 (dialed_fields n pr fb)))) E)
      as (s' & -> & Hlv); eauto.
  - exists (dialed_session n pr fb); split; [|apply lived_refl].
    unfold put_at; rewrite insert_id by exact Hl; destruct w1; reflexivity.
Qed.

Lemma connect_check_plan cr : match connect_check c cr with
  | Refused _ => True
  | UseWebSocket => cres_Transport cr = TransportWebSocket
  | UseHTTP stream upload => cres_Transport cr <> TransportWebSocket
      /\ stream = bool_decide (cres_PollMode cr = PollModeStream)
      /\ upload = bool_decide (cres_UploadStreamMode cr = PollModeStream)
  end.
Proof.
  unfold connect_check; destruct (Validate (cres_Limits cr)); [exact I|].
  case_bool_decide as Hws; repeat (case_if; [exact I|]); auto.
Qed.

(** The second session is asked for without upload streaming after the first
    one's probe failed. *)
Definition retries (n : nat) (pr fb : bool) (w : world) : Prop :=
  fb = false /\ s_transport (dialed_session n pr fb) <> TransportWebSocket
  /\ Resumable (dialed_session n pr fb) = true /\ s_uploadStream (dialed_session n pr fb) = true
  /\ c_UploadStreamPreference c = "" /\ probe_of n pr fb w = false.

(** What Connect needs to succeed. *)
Definition consistent : Prop :=
  cfg_ok cfg /\ interval_fits /\ connector_ok /\ (forall req, exists meta, auth req = AuthOk meta).

Lemma consistent_checked n pr fb e : consistent -> connect_check c (dialed_response n pr fb) <> Refused e.
Proof.
  intros (Hcfg & Hfits & _ & _); destruct (Hfits n pr fb) as [Hc Hg].
  pose proof (negotiation_agrees cfg c pr fb (ids n) _ (clock n) Hcfg Hc Hg) as Hchk.
  fold (dialed_session n pr fb) in Hchk; fold (dialed_response n pr fb) in Hchk; rewrite Hchk.
  case_bool_decide; discriminate.
Qed.

Definition call (fuel n : nat) (pr fb : bool) (w : world) : option (dial_state * res transport_plan) :=
  connect exchange probeUploadStream deleteSession fuel c pr fb (w, n).

(** A call of connect ends with a plan for the session it created, ends with an
    error and leaves at most that session, or starts over. *)
Definition call_planned (fuel n : nat) (pr fb : bool) (w : world) : Prop :=
  exists w' s plan, call (S fuel) n pr fb w = Some ((w', S n), Ok plan)
    /\ held n pr fb w w' s /\ plan_fits (probe_of n pr fb w) plan s /\ ~ retries n pr fb w.
Definition call_failed (fuel n : nat) (pr fb : bool) (w : world) : Prop :=
  exists w' n' e, call (S fuel) n pr fb w = Some ((w', n'), Fail e) /\ (n' <= S n)%nat
    /\ (w' = w \/ exists s, held n pr fb w w' s) /\ ~ consistent.
Definition call_restarted (fuel n : nat) (pr fb : bool) (w : world) : Prop :=
  retries n pr fb w /\ exists s, lived (dialed_session n pr fb) s /\
    call (S fuel) n pr fb w
    = connect exchange probeUploadStream deleteSession fuel c (cres_BatchResume (dialed_response n pr fb)) true
        (deleteSession (put_at (nth_loc n) s (store_add (nth_loc n) (dialed_session n pr fb) w), S n) (ids n)).

(** What connect does with a session it may use over HTTP. *)
Lemma call_http fuel n pr fb w : let s := dialed_session n pr fb in
  s_transport s <> TransportWebSocket ->
  connector_ok -> (exists meta, auth (connect_request c pr fb) = AuthOk meta) ->
  connect_check c (dialed_response n pr fb)
  = UseHTTP (bool_decide (s_pollMode s = PollModeStream)) (s_uploadStream s) ->
  call_planned fuel n pr fb w \/ call_restarted fuel n pr fb w.
Proof.
  cbn zeta; intros Hws [Hbase Hpref] [meta Ea] Hchk.
  pose proof (dialed_describes n pr fb) as Hd; pose proof Hd as (Hid & Htr & Hpm & Hum & Hre).
  pose proof (held_now n pr fb w) as Hh; destruct (dialed_fields n pr fb) as (Hidn & _ & _ & Hfb).
  destruct (probe_created n pr fb w) as (sp & Ep & Hlv).
  pose proof (held_put n pr fb w _ _ sp Hh Hlv) as Hhp.
  unfold call_planned, call_restarted, call; cbn [connect].
  rewrite (bool_decide_false _ Hbase), (bool_decide_true _ Hpref); cbn [negb].
  rewrite (exchange_granted w n pr fb meta Ea), dialed_checked, Hchk, Hid, Hidn, Hre.
  set (s := dialed_session n pr fb) in *; set (w1 := store_add (nth_loc n) s w) in *.
  set (cr := dialed_response n pr fb) in *.
  destruct (Resumable s) eqn:Hr.
  - assert (Hpl : plan_fits (probe_of n pr fb w) (PlanResumable cr) s) by (cbn; auto).
    destruct (s_uploadStream s && _) eqn:Eau.
    + rewrite Ep; apply andb_true_iff in Eau as [Hu He]; apply bool_decide_eq_true in He.
      destruct (probe_of n pr fb w) eqn:Ho.
      * left; do 3 eexists; split; [reflexivity|]; split; [exact Hhp|].
        split; [eapply lived_fits; eauto|unfold retries; intros Hx; destruct_and! Hx; congruence].
      * right; split; [|eauto]; unfold retries; fold s; split_and!; auto.
    + left; exists w1, s; eexists; split; [reflexivity|]; split; [exact Hh|]; split; [exact Hpl|].
      unfold retries; fold s; intros Hx; destruct_and! Hx; apply andb_false_iff in Eau as [Eau|Eau]; [congruence|].
      apply bool_decide_eq_false in Eau; congruence.
  - assert (Hno : ~ retries n pr fb w) by (unfold retries; fold s; intros Hx; destruct_and! Hx; congruence).
    left; set (chunk := Z.min _ _).
    assert (Hpl : forall up s', lived s s' -> up = upload_choice (probe_of n pr fb w) s ->
      plan_fits (probe_of n pr fb w) (PlanHTTP cr (bool_decide (s_pollMode s = PollModeStream)) up chunk) s')
      by (intros up s' Hl' ->; apply (lived_fits _ _ s s' Hl'); cbn; auto).
    destruct (s_uploadStream s && bool_decide (c_UploadStreamPreference c = "")) eqn:Eau.
    + rewrite Ep; apply andb_true_iff in Eau as [Hu He].
      do 3 eexists; split; [reflexivity|]; split; [exact Hhp|]; split; [|exact Hno].
      apply Hpl; [exact Hlv|]; unfold upload_choice; rewrite Hu, He; apply bool_decide_eq_true in He.
      rewrite He; reflexivity.
    + exists w1, s; eexists; split; [reflexivity|]; split; [exact Hh|]; split; [apply Hpl; [apply lived_refl|]|exact Hno].
      unfold upload_choice; destruct (s_uploadStream s), (bool_decide (c_UploadStreamPreference c = ""));
        try discriminate; cbn; rewrite ?orb_false_r; reflexivity.
Qed.

Lemma connect_call fuel n pr fb w :
  call_planned fuel n pr fb w \/ call_failed fuel n pr fb w \/ call_restarted fuel n pr fb w.
Proof.
  destruct (decide (c_BaseURL c = "")) as [Hbase|Hbase].
  { right; left; unfold call_failed, call; cbn [connect]; rewrite (bool_decide_true _ Hbase).
    do 3 eexists; split; [reflexivity|]; split_and!; [lia|auto|intros (_ & _ & [? _] & _); congruence]. }
  destruct (decide (c_UploadStreamPreference c = "" \/ c_UploadStreamPreference c = PollModeBatch
                    \/ c_UploadStreamPreference c = PollModeStream)) as [Hpref|Hpref].
  2: { right; left; unfold call_failed, call; cbn [connect].
       rewrite (bool_decide_false _ Hbase), (bool_decide_false _ Hpref); cbn [negb].
       do 3 eexists; split; [reflexivity|]; split_and!; [lia|auto|intros (_ & _ & [_ ?] & _); contradiction]. }
  destruct (auth (connect_request c pr fb)) as [meta|status] eqn:Ea.
  2: { destruct (exchange_denied w n pr fb status Ea) as [st E]; right; left; unfold call_failed, call; cbn [connect].
       rewrite (bool_decide_false _ Hbase), (bool_decide_true _ Hpref), E; cbn [negb doConnect_check].
       assert (Hno : ~ consistent) by (intros (_ & _ & _ & H); destruct (H (connect_request c pr fb)); congruence).
       repeat case_if; do 3 eexists; (split; [reflexivity|split_and!; [lia|auto|exact Hno]]). }
  pose proof (connect_check_plan (dialed_response n pr fb)) as Hc.
  pose proof (dialed_describes n pr fb) as Hd; pose proof Hd as (Hid & Htr & Hpm & Hum & Hre).
  pose proof (held_now n pr fb w) as Hh.
  destruct (connect_check c (dialed_response n pr fb)) as [e| |stream upload] eqn:Hchk.
  - right; left; unfold call_failed, call; cbn [connect].
    rewrite (bool_decide_false _ Hbase), (bool_decide_true _ Hpref); cbn [negb].
    rewrite (exchange_granted w n pr fb meta Ea), dialed_checked, Hchk.
    do 3 eexists; split; [reflexivity|]; split_and!; [lia|eauto|].
    intros Hco; exact (consistent_checked n pr fb e Hco Hchk).
  - left; unfold call_planned, call; cbn [connect].
    rewrite (bool_decide_false _ Hbase), (bool_decide_true _ Hpref); cbn [negb].
    rewrite (exchange_granted w n pr fb meta Ea), dialed_checked, Hchk.
    do 3 eexists; split; [reflexivity|]; split; [exact Hh|]; rewrite Htr in Hc.
    split; [cbn [plan_fits]; rewrite Hre; auto|unfold retries; intros Hx; destruct_and! Hx; contradiction].
  - rewrite Htr, Hpm, Hum in Hc; destruct Hc as (Hws & -> & ->).
    destruct (call_http fuel n pr fb w Hws (conj Hbase Hpref) (ex_intro _ meta Ea) Hchk); auto.
Qed.

(** The session that is given up. *)
Lemma deleted_world n pr fb w s : lived (dialed_session n pr fb) s -> ids n ∉ dom (sessions w) ->
  exists w', deleteSession (put_at (nth_loc n) s (store_add (nth_loc n) (dialed_session n pr fb) w), S n) (ids n) = (w', S n)
    /\ sessions w' = (if arrives then sessions w else <[ids n := nth_loc n]> (sessions w))
    /\ w_log w' = w_log w ++ (if arrives then [(nth_loc n, ReasonClientDelete)] else []).
Proof.
  intros (ws & active & detached & ->) Hfresh; destruct (dialed_fields n pr fb) as (Hid & Hc & _).
  set (s0 := dialed_session n pr fb) in *.
  set (s1 := set_life ws (s_pollInFlight s0) active (s_closed s0) detached s0).
  destruct (held_now n pr fb w) as (Hs & _ & _ & Hlog); fold s0 in Hs, Hlog.
  set (w2 := put_at (nth_loc n) s1 (store_add (nth_loc n) s0 w)).
  assert (Hs2 : sessions w2 = <[ids n := nth_loc n]> (sessions w)) by exact Hs.
  assert (Hl2 : w_heap w2 !! nth_loc n = Some s1) by apply lookup_insert_eq.
  unfold deleteSession; destruct arrives; [|exists w2; rewrite app_nil_r; auto].
  unfold DeleteHandler, store_Get; rewrite Hs2, lookup_insert_eq; cbn [fst].
  rewrite (closeSession_wins _ _ _ w2 s1 Hl2) by (cbn; rewrite ?Hid, ?Hs2; auto; apply lookup_insert_eq).
  eexists; split; [reflexivity|]; change (s_ID s1) with (s_ID s0); rewrite Hid; split_and!.
  - change (delete (ids n) (sessions w2) = sessions w); rewrite Hs2; apply delete_insert_id, not_elem_of_dom, Hfresh.
  - cbn; rewrite <- Hlog; reflexivity.
Qed.

(** ** Property *)

(** What the store and the log hold when the [k]th session is asked for. *)
Definition store_before (k : nat) (w : world) : gmap string loc :=
  match k with
  | O => sessions w
  | _ => if arrives then sessions w else <[ids 0%nat := nth_loc 0]> (sessions w)
  end.
Definition reported (k : nat) : list (loc * DisconnectReason) :=
  match k with O => [] | _ => if arrives then [(nth_loc 0, ReasonClientDelete)] else [] end.

(** An open session at [k] that no request is attached to. *)
Definition is_open_at (k : nat) (w' : world) (s : session) : Prop :=
  w_heap w' !! nth_loc k = Some s /\ s_ID s = ids k /\ s_closed s = false /\ s_pollInFlight s = 0.

(** What connect's last call leaves, and what its result is worth. *)
Definition outcome (k : nat) (w w' : world) (probed : bool) (r : res client_conn) : Prop :=
  w_log w' = w_log w ++ reported k
  /\ match r with
     | Ok conn => exists s, sessions w' = <[ids k := nth_loc k]> (store_before k w)
         /\ is_open_at k w' s /\ conn_fits probed conn s /\ (k = 1%nat -> s_uploadStream s = false)
     | Fail _ => sessions w' = store_before k w
         \/ exists s, sessions w' = <[ids k := nth_loc k]> (store_before k w) /\ is_open_at k w' s
     end.

Lemma held_open n pr fb w w' s : held n pr fb w w' s ->
  is_open_at n w' s /\ (fb = true -> s_uploadStream s = false).
Proof.
  intros (_ & Hl & (ws & active & detached & ->) & _); destruct (dialed_fields n pr fb) as (Hid & Hc & Hp & Hu).
  split; [split_and!; auto|]; intros ->; cbn; destruct (s_uploadStream _); [discriminate (Hu eq_refl)|reflexivity].
Qed.

(** A plan made for a held session, as a connection or as a failed dial. *)
Lemma outcome_planned k pr fb w0 w w' s plan probed : held k pr fb w w' s -> plan_fits probed plan s ->
  sessions w = store_before k w0 -> w_log w = w_log w0 ++ reported k -> (k = 1%nat -> fb = true) ->
  outcome k w0 w' probed (assemble c dialed plan).
Proof.
  intros Hh Hp Hs Hlog Hfb; pose proof (assemble_fits probed plan s Hp) as Ha.
  destruct (held_open _ _ _ _ _ _ Hh) as [Ho Hu]; destruct Hh as (Hss & _ & _ & Hl).
  split; [congruence|]; rewrite <- Hs.
  destruct (assemble c dialed plan); [exists s; split_and!; auto|eauto].
Qed.

Lemma outcome_failed k pr fb w0 w w' probed e : (w' = w \/ exists s, held k pr fb w w' s) ->
  sessions w = store_before k w0 -> w_log w = w_log w0 ++ reported k ->
  outcome k w0 w' probed (Fail e).
Proof.
  intros [->|[s Hh]] Hs Hlog; [split; [exact Hlog|left; exact Hs]|].
  destruct (held_open _ _ _ _ _ _ Hh) as [Ho _]; destruct Hh as (Hss & _ & _ & Hl).
  split; [congruence|]; right; exists s; rewrite <- Hs; auto.
Qed.

Lemma assembled_ok probed plan s : plan_fits probed plan s -> dialed = true ->
  exists conn, assemble c dialed plan = Ok conn.
Proof.
  intros Hp Hd; pose proof (assemble_fits probed plan s Hp) as Ha.
  destruct (assemble c dialed plan); [eauto|congruence].
Qed.

(** Without upload streaming the probe does not matter. *)
Lemma plan_fits_batch probed probed' plan s : s_uploadStream s = false ->
  plan_fits probed plan s -> plan_fits probed' plan s.
Proof. intros Hu; destruct plan; try exact id; cbn [plan_fits]; unfold upload_choice; rewrite Hu; exact id. Qed.

(** C6: Connect leaves exactly one session behind.  Against the server's own
    handlers (without an OnConnect hook and with fresh non-empty ids), whatever
    the configuration, the client's fields and the application's authentication
    say, and with the upload probe passing, failing or being cut anywhere,
    Connect returns after at most two exchanges.  If it returns a connection,
    the store holds what it held before and the session of this connection,
    open, and set up for just the transport, poll mode and upload mode the
    client will use; a session that was given up because its probe failed was
    reported once, as deleted by its client, unless the DELETE was lost and the
    session is left to the sweeper, and its successor does not stream uploads.
    If it returns an error (refused, limits that do not fit, a WebSocket dial
    that failed) at most the session it asked for last is left besides, open
    and with nothing attached, for the sweeper.  And it does return a
    connection when the configuration is consistent, the poll interval fits the
    announced limits, the client's own fields are valid, authentication accepts
    and a WebSocket dial succeeds. *)
Theorem connect_leaves_one_session preferResume w : ids 0%nat ∉ dom (sessions w) ->
  exists w' n r k, dial c preferResume w = Some ((w', n), r) /\ (n <= 2)%nat /\ (k <= 1)%nat
    /\ (k = 1%nat -> retries 0 preferResume false w)
    /\ outcome k w w' (probe_of 0 preferResume false w) r
    /\ (forall conn, r = Ok conn -> retries 0 preferResume false w -> k = 1%nat)
    /\ (consistent -> dialed = true -> exists conn, r = Ok conn).
Proof.
  intros Hfresh; unfold dial; fold (call 2 0 preferResume false w).
  destruct (connect_call 1 0 preferResume false w)
    as [(w' & s & plan & E & Hh & Hp & Hn)|[(w' & n' & e & E & Hn & Hw & Hno)|(Hre & s & Hl & E)]].
  - rewrite E; exists w', 1%nat, (assemble c dialed plan), 0%nat.
    split; [reflexivity|]; split; [lia|]; split; [lia|]; split; [discriminate|].
    split; [eapply outcome_planned; eauto; [cbn; rewrite app_nil_r; reflexivity|discriminate]|].
    split; [intros; contradiction|intros _ Hd; apply (assembled_ok _ _ _ Hp Hd)].
  - rewrite E; exists w', n', (Fail e), 0%nat.
    split; [reflexivity|]; split; [lia|]; split; [lia|]; split; [discriminate|].
    split; [eapply outcome_failed; eauto; cbn; rewrite app_nil_r; reflexivity|].
    split; [discriminate|intros Hco; contradiction].
  - destruct (deleted_world 0 preferResume false w s Hl Hfresh) as (w1 & Ed & Hs1 & Hlog1); rewrite E, Ed.
    fold (call 1 1 (cres_BatchResume (dialed_response 0 preferResume false)) true w1).
    destruct (connect_call 0 1 (cres_BatchResume (dialed_response 0 preferResume false)) true w1)
      as [(w' & s' & plan & E' & Hh & Hp & _)|[(w' & n' & e & E' & Hn & Hw & Hno)|([? _] & _)]]; [| |discriminate].
    + rewrite E'; exists w', 2%nat, (assemble c dialed plan), 1%nat.
      split; [reflexivity|]; split; [lia|]; split; [lia|]; split; [auto|].
      split; [|split; [auto|intros _ Hd; apply (assembled_ok _ _ _ Hp Hd)]].
      eapply outcome_planned; eauto; eapply plan_fits_batch; [|exact Hp]; apply (held_open _ _ _ _ _ _ Hh); reflexivity.
    + rewrite E'; exists w', n', (Fail e), 1%nat.
      split; [reflexivity|]; split; [lia|]; split; [lia|]; split; [auto|].
      split; [eapply outcome_failed; eauto|].
      split; [discriminate|intros Hco; contradiction].
Qed.
End Calls.
End Dial.

(** ** Witness *)

(** The answer to the probe is late. *)
Definition ex_dial_ids (n : nat) : string := match n with O => "s1" | _ => "s2" end.
Definition ex_probe_env : serve_env := mk_env 1 2 true None false false [] [] [].
Definition ex_accept (req : ConnectRequest) : auth_result := AuthOk ∅.

Lemma connect_leaves_one_session_witness :
  exists w' n conn,
    dial ex_sys_cfg ex_accept ex_dial_ids 0%nat (fun _ => 0) (mk_reader [] EOF) ex_probe_env false true true
      ex_sys_connector true new_world = Some ((w', n), Ok conn)
    /\ sessions w' = {[ "s2" := 1%nat ]}
    /\ w_log w' = [(0%nat, ReasonClientDelete)].
Proof.
  destruct (connect_leaves_one_session ex_sys_cfg ex_accept ex_dial_ids 0%nat (fun _ => 0) (mk_reader [] EOF)
              ex_probe_env false true true ex_sys_connector) with (preferResume := true) (w := new_world)
    as (w' & n & r & k & E & _ & Hk & _ & [Hlog Hout] & Hone & Hok).
  - intros []; discriminate.
  - vm_compute; intros H; inversion H.
  - destruct Hok as [conn ->]; [|reflexivity|].
    + split; [exact ex_sys_cfg_ok|]; split; [|split].
      * intros i [] []; split; vm_compute; try (intros; reflexivity); discriminate.
      * split; [discriminate|left; reflexivity].
      * intros req; exists ∅; reflexivity.
    + exists w', n, conn; split; [exact E|].
      assert (k = 1%nat) as ->.
      { apply (Hone conn eq_refl); unfold retries; split_and!; reflexivity || discriminate. }
      destruct Hout as (s & Hs & _); rewrite Hs, Hlog; split; reflexivity.
Defined.
